(* ===== verification/_CoqProject ===== *)
-Q . S2P
Prelude.v
Text.v
Json.v
JsonText.v
Resource.v
Identity.v
Policy.v
PolicySpec.v
Lease.v
Peer.v
Backend.v
Protocol.v
Schema.v
LeaseStore.v
Authz.v
AuthzSpec.v
AuthzConcurrent.v
Unwind.v
AuditRecord.v
Fits.v
AuditLog.v
Explain.v
Connection.v
Wire.v
Records.v
Collect.v
Metal.v
Linux.v
Macos.v
Widths.v
Listener.v
Server.v
Threads.v
Runtime.v
Agentd.v
Accounts.v
Trail.v
Client.v
Cli.v
Documents.v
System.v
Simulation.v
Supervise.v
Launch.v
Stages.v
Failure.v
Deployment.v
