(* ===== verification/Prelude.v ===== *)
(** * Eltanin: a verification development

    Eltanin authorizes workloads to use compute devices.  A client ([eltanin run],
    [crates/eltanin-cli]) asks a local agent ([crates/eltanin-agent]) over a Unix
    socket for a lease on a resource; the agent identifies the peer from the kernel,
    evaluates a policy, issues a lease, has a backend enforce it and records what it
    did; the client starts the workload only under a lease, renews it while the
    workload runs, and gives it back.  The domain types and rules are
    [crates/eltanin-core], the wire protocol [crates/eltanin-protocol], the backends
    [crates/eltanin-backend] and [crates/eltanin-apple], the audit log
    [crates/eltanin-audit]; the kernel's evidence about a process is collected by
    [crates/eltanin-linux] and [crates/eltanin-macos].  This development models that
    path from end to end and proves what makes each part correct.

    ** Files

    In dependency order, with what each models:

    - [Prelude] (this file): results with [?], machine words, durations, tactics, the
      hint database, generic lemmas.
    - [Text]: the parts of [str] the source uses: UTF-8, lines, splitting, white space,
      numbers in any radix.
    - [Json], [JsonText]: JSON documents, what of [serde] and [serde_json] the derived
      implementations are made of, with its laws, and where the text of a document ends.
    - [Resource]: [eltanin-core/src/resource.rs], [envelope.rs].
    - [Identity]: [eltanin-core/src/identity.rs], [provenance.rs]: evidence with its
      source, the three-valued comparisons of processes and executables.
    - [Policy], [PolicySpec]: [eltanin-core/src/policy.rs], its loops, and the
      declarative specification they refine.
    - [Lease]: [eltanin-core/src/lease.rs]: the issuer's issue, revoke and validate.
    - [Peer]: [eltanin-core/src/peer.rs]: kernel credential against observed user ids.
    - [Backend]: [eltanin-backend/src/contract.rs] as a class with laws, and its two
      implementations, [Module Fake] ([fake.rs]) and [Module Apple]
      ([eltanin-apple/src/backend.rs], [device.rs]).
    - [Protocol]: [eltanin-protocol/src/request.rs], [response.rs], [framing.rs];
      [Module BitCodec] is a concrete codec that satisfies the codec laws.
    - [Schema]: the serde attributes of the core and backend types.
    - [LeaseStore]: [eltanin-agent/src/authz/state.rs].
    - [Authz], [AuthzSpec], [AuthzConcurrent]: [eltanin-agent/src/authz/mod.rs] and
      [event.rs]: the handler's locked regions and backend calls as separate
      definitions, their composition as one thread runs them with its specification,
      and a step relation that interleaves any number of threads.
    - [Unwind]: the same with backend calls that panic ([connection.rs],
      [authz/state.rs]).
    - [AuditRecord], [AuditLog]: [eltanin-audit/src/record.rs], [sink.rs],
      [explain.rs] and [eltanin-agent/src/authz/audit.rs].  [Fits]: the ranges of what
      the handler answers and records.
    - [Explain]: [eltanin-audit/src/bin/eltanin-explain.rs].
    - [Connection]: [eltanin-agent/src/connection.rs], [handler.rs].
    - [Wire], [Records]: the serde attributes of the messages and of the audit records;
      they make the codecs that [Protocol] and [AuditLog] take as parameters.
    - [Collect]: programs that read a kernel which may change between reads, the walk
      along the parents, and [PeerContextSource] of [eltanin-agent/src/peer.rs] as a
      class with the law that a peer's evidence is the kernel's.
    - [Linux], [Macos]: [eltanin-linux/src/lib.rs], [peer.rs] and their counterparts
      in [eltanin-macos]: two instances of those classes.
    - [Widths]: both collectors against the widths of the fields they fill.
    - [Metal]: [eltanin-apple/src/probe.rs] and [bin/metal_workload_fixture.rs].
    - [Listener]: [eltanin-agent/src/listener.rs], [config.rs], as scripts of system
      calls over a model of the file system.
    - [Server]: [eltanin-agent/src/server.rs]: the accept loop as a step relation with
      its threads, and the drain.  [Threads]: the accept loop, its threads and the
      interleaved handler as one system.
    - [Runtime]: [eltanin-agent/src/runtime.rs], [daemon.rs].
    - [Agentd]: [eltanin-agent/src/bin/eltanin-agentd.rs], which puts the agent
      together.
    - [Accounts]: the agent as the daemon sets it up, collector, connections, handler,
      audit log and [eltanin-explain] put together.  [Trail]: the interleaved handler with the log it writes.
    - [Client]: [eltanin-cli/src/client.rs], and the two ends of a socket put
      together.
    - [Cli]: [eltanin-cli/src/args.rs], [profile.rs], [exit.rs], [failure.rs].
    - [Documents]: policy files ([load_policy]) and profiles as the JSON text an
      operator writes.
    - [System]: the monad of programs that ask the operating system, triples over
      their traces, and total runs; [Simulation]: a concrete world.
    - [Supervise]: [eltanin-cli/src/supervise.rs].
    - [Launch]: [eltanin-cli/src/launch.rs], [context.rs] and the end of [main.rs].
    - [Stages]: [eltanin-cli/src/sequence.rs].
    - [Failure]: the texts of [eltanin-cli/src/failure.rs] with the paths they show, the
      front of [main.rs].
    - [Deployment]: a launch and an agent on one machine.

    ** Correspondence

    Definitions keep the source's names ([LeaseIssuer_issue] is
    [LeaseIssuer::issue]).  A method with [&mut self] returns the next state; one
    that is fallible returns [result]; a collaborator behind a trait is an instance
    of a class ([ComputeBackend], [EventSink], [RequestHandler]), and a client's
    theorems are proved for every instance, or every instance with the laws the
    trait documents.  Words are [N] with their wrapping or checking written out; a
    [Duration] and an [Instant] are their nanoseconds; [HashMap] and [BTreeSet] are
    [gmap] and [gset], with the iteration order written out where it shows.  A text
    is its UTF-8 bytes.

    The mutex of the handler is its locked regions: a region is one function on the
    store, and [AuthzConcurrent.agent_step], an instance of [constrained_step], is one
    region, one backend call or one clock reading of one thread.  [Threads.daemon_step]
    adds the accept loop: a grant is begun by a thread that is being served, and the
    thread gives its slot back after its request.  The socket is a list of read events with the time
    waited for each; a system call of the client is a request answered by an
    arbitrary world.  A collector reads a world that every read may move.  A start of
    the agent is a [script] of system calls, run against any answers
    ([Listener.runs]) or interleaved with other agents ([Listener.world_step]).  The
    accept loop moves one atomic step at a time ([Server.accept_loop_next]), and so
    do its threads.

    ** What is shown

    - Policy: the evaluation loops compute the declarative decision; the order of
      rules does not matter; an [Allow] rests on trusted evidence, and losing
      evidence never turns a refusal into an [Allow]; exactly the valid documents
      load, and each rule and condition of a loaded policy is an object of its file, so
      that the text an operator wrote decides.
    - Leases: what issuing does on every branch; exactly which presentation of a
      lease is valid, and which reason a refusal names; validity only decreases,
      revocation is final, identifiers never repeat, and no lease survives a restart.
    - Agent: exactly when a request is granted or denied and a release succeeds; a
      refusal leaves nothing behind; every request is recorded once.  For every
      interleaving: capacity bound, reservation accounting, authorised leases only,
      and grants can always finish.  With the accept loop and panics: grants in flight
      are of connections being served, or were ended by a panic, and after a shutdown at
      most one more than those can be issued.
    - Evidence: what a collector reports is the kernel's and about the pid asked,
      whatever bytes a process chose as its name; the ancestry is the chain of
      parents and always ends; every number fits its field; exactly which peers pass the
      gate, on either system.
    - Daemon: what a start leaves in the file system and when it succeeds, alone and
      among other agents; the slot counter is exact and bounded; a shutdown stops the
      dispatch, reaches the drain and ends; a restarted agent honours no earlier
      lease.  [Accounts.grant_rests_on_the_kernel] puts the daemon's setup, collector,
      connections, handler and policy file together: a grant a client reads on its
      socket rests on kernel evidence about the peer of that connection.
    - Audit: distinct events leave distinct entries; after any sequence of appends
      whose failures write nothing the log, and the program that explains it, tell
      each recorded event from each lost one; gaps are exact; every record is read back
      as it was written.  Whatever connections the agent served, with a log that was
      empty and writes that fail without a trace, each answer a client read is explained
      by its record, or its loss is counted, and the log holds nothing else
      ([Accounts.answers_accounted]).  However requests interleave, whenever no answer is
      still unrecorded and no write has failed, the log alone says which leases are live
      and for whom ([Trail.log_shows_live_leases]).
    - Wire: framing is a bijection between payloads and frames; which JSON documents are
      requests, and that each message is read back as it was written; a connection calls
      its handler once for one valid frame of an identified peer and otherwise not
      at all, and answers a bad document under its id; an action this build does not know
      is never granted; client and agent composed agree on the answer of every exchange.
    - Launch, for every world and every prefix of a run: a living workload is
      leased; it is terminated only after a lapse; signals are forwarded once and in
      order; everything granted is released and the context is torn down last; the
      exit status says what happened; supervision ends when the agent stops
      granting; the requests follow the documented stages; what is printed tells
      failures apart and does not show the home directory.  With an agent: the lease a
      living workload runs under is the agent's own, unrevoked and unexpired
      ([Deployment.workload_backed_by_agent]).
    - Metal: a report is about a run that happened, and exactly which outputs pass.

    Behaviours that depart from what the code or its documents say, each with a
    theorem: a release that races with a grant can remove the enforcement of a lease
    that stays valid ([AuthzConcurrent.release_race_loses_enforcement]); a torn audit
    write also loses the next record, and one torn inside a character makes the whole log
    unreadable ([Records.torn_write_hides_next_record]); the
    I/O timeout bounds each read and not a connection
    ([Connection.io_timeout_not_a_connection_bound]); unsupported observations are
    reported as a disagreement ([Peer.divergence_without_disagreement]); a release the
    agent refused is not warned about ([Supervise.release_warns_iff_unanswered]); two
    agents that start together can unlink a live socket
    ([Listener.live_socket_unlinked]); a socket path without a directory never starts
    ([Listener.bare_name_never_starts]); the drain counts every connection ever served
    ([Server.drained_counts_every_connection]); a panic of the backend loses a place for
    good ([Unwind.panics_exhaust_capacity]); the Metal probe accepts an output that
    is not a number ([Metal.output_check_exact]), and its fixture answers 2 where 1 is
    documented ([Metal.fixture_status]).

    ** Fuel

    Recursion is structural everywhere but in the client's two poll loops and the
    agent's drain.
    [Supervise.supervise_loop] takes the number of its polls: safety theorems hold
    for every number, since a run out of fuel is a prefix of the program's run, and
    [Supervise.supervise_terminates] shows how many polls are enough once the agent
    refuses.  [Supervise.grace_fuel] is 27: the grace period of five seconds holds
    25 polls of 200 milliseconds, and [Supervise.terminate_total] shows that it is
    enough on any clock that sleeping moves.  [Server.drain] takes the number of its
    polls of a handle; [Server.drain_ends] shows how many are enough for a timeout.
    [Collect.walk] is bounded by the source's own 32 hops.

    ** What is not modelled

    The primitives of [serde] and [serde_json] (text to document and back, visiting a
    number, a string, an object), the file system's contents, clocks, the kernel, Metal
    and the backends' hardware are parameters with their documented behaviour as laws,
    each satisfied by a concrete instance.  The laws of [Json] say that a document is read
    back only within the limits of [serde_json] ([Json.readable]: nesting up to its
    recursion limit, integers of 64 bits, no floating-point numbers), that what is
    read has been written so, and that members a type does not name are skipped where
    it does not deny them; they say nothing of structs written as arrays, so what is
    shown of files and messages is about objects.  The
    file system of [Listener] looks paths up by their text and does not follow links in
    the middle of a path.  Not modelled are derived [Debug] forms, [StderrSink], which
    prints them, the enumeration of Metal devices, the delivery of signals to the
    daemon, accessors that only return a field, and the tests.  A backend that panics
    ([Unwind], [Threads]) ends its request before an event of it is made, so [Trail],
    which follows each event into the log, takes backends whose calls return. *)

From stdpp Require Export base tactics numbers option list gmap sets strings countable sorting.

(** ** Results

    Rust's [Result<T, E>], with the [?] operator as a bind. *)

Inductive result (A E : Type) : Type :=
  | Ok (a : A)
  | Err (e : E).
Arguments Ok {A E} a.
Arguments Err {A E} e.

#[export] Instance result_eq_dec {A E} `{EqDecision A, EqDecision E} :
  EqDecision (result A E).
Proof. solve_decision. Defined.

Definition result_bind {A B E} (r : result A E) (k : A → result B E) : result B E :=
  match r with
  | Ok a => k a
  | Err e => Err e
  end.

Definition map_err {A E F} (f : E → F) (r : result A E) : result A F :=
  match r with
  | Ok a => Ok a
  | Err e => Err (f e)
  end.

Definition ok_or {A E} (o : option A) (e : E) : result A E :=
  match o with
  | Some a => Ok a
  | None => Err e
  end.

Declare Scope eltanin_scope.
Delimit Scope eltanin_scope with elt.
Notation "'let?' x ':=' r 'in' k" := (result_bind r (λ x, k))
  (at level 10, x pattern, r at level 100, k at level 200) : eltanin_scope.
Open Scope eltanin_scope.

Lemma result_bind_Ok {A B E} (r : result A E) (k : A → result B E) b :
  result_bind r k = Ok b ↔ ∃ a, r = Ok a ∧ k a = Ok b.
Proof. destruct r; naive_solver. Qed.

Lemma result_bind_Err {A B E} (r : result A E) (k : A → result B E) e :
  result_bind r k = Err e ↔ r = Err e ∨ ∃ a, r = Ok a ∧ k a = Err e.
Proof. destruct r; naive_solver. Qed.

(** ** Machine integers

    Unsigned machine words are [N] with their width written out at every
    operation that can leave it.  [usize] is the 64-bit word of the two
    supported targets. *)

Definition u8_max : N := 255.
Definition u16_max : N := 65535.
Definition u32_max : N := 4294967295.
Definition u64_max : N := 18446744073709551615.

Definition u64_try_from (n : N) : option N :=
  if decide (n ≤ u64_max)%N then Some n else None.

Definition u64_checked_add (a b : N) : option N := u64_try_from (a + b).

Definition u64_wrapping_add (a b : N) : N := ((a + b) `mod` (u64_max + 1))%N.

Definition u64_wrapping_mul (a b : N) : N := ((a * b) `mod` (u64_max + 1))%N.

Definition u64_saturating_add (a b : N) : N := N.min u64_max (a + b).
Definition u64_saturating_mul (a b : N) : N := N.min u64_max (a * b).

(** [N] subtraction is already truncated at zero, which is what
    [saturating_sub] computes on unsigned words. *)
Definition saturating_sub (a b : N) : N := (a - b)%N.

Lemma u64_checked_add_Some a b c :
  u64_checked_add a b = Some c ↔ c = (a + b)%N ∧ (a + b ≤ u64_max)%N.
Proof.
  unfold u64_checked_add, u64_try_from. case_decide; naive_solver.
Qed.

Lemma u64_wrapping_add_small a b :
  (a + b ≤ u64_max)%N → u64_wrapping_add a b = (a + b)%N.
Proof.
  intros H. unfold u64_wrapping_add. apply N.mod_small. unfold u64_max in *. lia.
Qed.

(** [u32::try_from(z).unwrap_or(0)]. *)
Definition u32_or_zero (z : Z) : N :=
  if decide (0 ≤ z ≤ Z.of_N u32_max)%Z then Z.to_N z else 0%N.

Lemma u32_or_zero_spec z :
  (u32_or_zero z = 0%N ∧ ¬ (0 < z ≤ Z.of_N u32_max)%Z) ∨
  (u32_or_zero z = Z.to_N z ∧ (0 < z ≤ Z.of_N u32_max)%Z ∧ Z.to_N z ≠ 0%N).
Proof.
  unfold u32_or_zero. case_decide as Hz; [|left; split; [done|lia]].
  destruct (decide (z = 0)%Z) as [->|]; [left; split; [done|lia]|right]. split_and!; [done|lia..].
Qed.

(** [std::time::Duration], as its exact number of nanoseconds: the type's
    order, zero test and [as_nanos] only depend on that number. *)
Abbreviation Duration := N (only parsing).

(** The longest [Duration]: [u64::MAX] seconds and 999,999,999 nanoseconds. *)
Definition Duration_max : Duration := 18446744073709551615999999999.

Definition Duration_is_zero (d : Duration) : bool := bool_decide (d = 0%N).

Definition nanos_per_sec : N := 1000000000.
Definition Duration_from_secs (s : N) : Duration := (s * nanos_per_sec)%N.
Definition Duration_from_millis (ms : N) : Duration := (ms * 1000000)%N.

(** [Instant]: nanoseconds of the monotonic clock, in the range of a Unix
    [timespec]. *)
Abbreviation Instant := N (only parsing).

Definition Instant_max : Instant := (9223372036854775807 * nanos_per_sec + 999999999)%N.

Definition Instant_checked_add (i : Instant) (d : Duration) : option Instant :=
  if decide (i + d ≤ Instant_max)%N then Some (i + d)%N else None.

(** ** Tactics *)

(** Case analysis on every [match] and [decide] of the goal and the context,
    then the equalities they give. *)
Ltac cases :=
  repeat (case_match || case_decide || case_bool_decide); simplify_eq/=.

(** [simplify_eq], looking through the result monad. *)
Ltac inv_result :=
  repeat match goal with
  | H : result_bind _ _ = Ok _ |- _ => apply result_bind_Ok in H as (? & ? & ?)
  | H : result_bind _ _ = Err _ |- _ => apply result_bind_Err in H as [?|(? & ? & ?)]
  | H : u64_checked_add _ _ = Some _ |- _ => apply u64_checked_add_Some in H as [-> ?]
  end; simplify_eq/=.

(** A newtype wrapper inherits countability from what it wraps. *)
Ltac newtype_countable proj mk :=
  refine (inj_countable' proj mk _); by intros [].

(** The development's hint database: lemmas of the components that close
    routine side conditions. *)
Create HintDb eltanin.
#[export] Hint Resolve u64_wrapping_add_small : eltanin.

(** ** Generic lemmas *)

Lemma bool_decide_iff (P Q : Prop) `{Decision P, Decision Q} :
  (P ↔ Q) → bool_decide P = bool_decide Q.
Proof. intros ?. by apply bool_decide_ext. Qed.

Lemma foldl_snoc {A B} (f : A → B → A) a l x :
  foldl f a (l ++ [x]) = f (foldl f a l) x.
Proof. by rewrite foldl_app. Qed.

Lemma string_app_assoc (a b c : string) : a +:+ (b +:+ c) = (a +:+ b) +:+ c.
Proof.
  induction a as [|x a IH]; [done|].
  change (String x (a +:+ (b +:+ c)) = String x ((a +:+ b) +:+ c)). by rewrite IH.
Qed.

Lemma string_app_nil_r (a : string) : a +:+ "" = a.
Proof.
  induction a as [|x a IH]; [done|]. change (String x (a +:+ "") = String x a). by rewrite IH.
Qed.
