(* ===== verification/Text.v ===== *)
(** * Text

    The functions of Rust's [str] that the program uses, on UTF-8 text as the
    string of its bytes: which bytes are UTF-8, lines, splitting, trimming, white space,
    and the decimal parser of the unsigned integers.  All separators are ASCII, so that
    splitting the bytes is splitting the characters. *)

From Stdlib Require Import Strings.Ascii.
From stdpp Require Export pretty.
From S2P Require Import Prelude.

(** ** UTF-8 *)

(** How far into a character a text is: how many continuation bytes are missing, the
    first of them of a smaller range after some leading bytes. *)
Inductive utf8_state : Type :=
  | Utf8Start
  | Tail1
  | Tail2
  | Tail3
  | TailE0
  | TailED
  | TailF0
  | TailF4
  | Utf8Bad.

#[export] Instance utf8_state_eq_dec : EqDecision utf8_state.
Proof. solve_decision. Defined.

Definition in_bytes (lo hi n : N) : bool := (lo <=? n)%N && (n <=? hi)%N.

Definition utf8_step (st : utf8_state) (c : ascii) : utf8_state :=
  let n := N_of_ascii c in
  let tail lo hi next := if in_bytes lo hi n then next else Utf8Bad in
  match st with
  | Utf8Start =>
      if in_bytes 0 127 n then Utf8Start
      else if in_bytes 194 223 n then Tail1
      else if (n =? 224)%N then TailE0
      else if (n =? 237)%N then TailED
      else if in_bytes 225 239 n then Tail2
      else if (n =? 240)%N then TailF0
      else if in_bytes 241 243 n then Tail3
      else if (n =? 244)%N then TailF4
      else Utf8Bad
  | Tail1 => tail 128%N 191%N Utf8Start
  | Tail2 => tail 128%N 191%N Tail1
  | Tail3 => tail 128%N 191%N Tail2
  | TailE0 => tail 160%N 191%N Tail1
  | TailED => tail 128%N 159%N Tail1
  | TailF0 => tail 144%N 191%N Tail2
  | TailF4 => tail 128%N 143%N Tail2
  | Utf8Bad => Utf8Bad
  end.

Fixpoint utf8_run (st : utf8_state) (s : string) : utf8_state :=
  match s with
  | EmptyString => st
  | String c s => utf8_run (utf8_step st c) s
  end.

Definition utf8 (s : string) : Prop := utf8_run Utf8Start s = Utf8Start.

#[export] Instance utf8_dec s : Decision (utf8 s).
Proof. unfold utf8. apply _. Defined.

(** [fs::read_to_string] of a file that can be read, by what it holds. *)
Definition file_text (bytes : string) : result string string :=
  if decide (utf8 bytes) then Ok bytes else Err "stream did not contain valid UTF-8".

Lemma utf8_run_app st s t : utf8_run st (s +:+ t) = utf8_run (utf8_run st s) t.
Proof. revert st. induction s as [|c s IH]; intros st; [done|]. apply IH. Qed.

Lemma utf8_run_bad s : utf8_run Utf8Bad s = Utf8Bad.
Proof. by induction s. Qed.

Lemma utf8_app s t : utf8 s → utf8 (s +:+ t) ↔ utf8 t.
Proof. unfold utf8. rewrite utf8_run_app. by intros ->. Qed.

(** A character that breaks off is not completed by ASCII. *)
Lemma utf8_step_ascii st c : (N_of_ascii c ≤ 127)%N → st ≠ Utf8Start → utf8_step st c = Utf8Bad.
Proof.
  intros Hc Hst. assert (∀ lo hi, (128 ≤ lo)%N → in_bytes lo hi (N_of_ascii c) = false) as Htail.
  { intros lo hi Hlo. unfold in_bytes. apply andb_false_iff. left. apply N.leb_gt. lia. }
  destruct st; cbn; try done; by rewrite Htail.
Qed.

Lemma utf8_app_ascii s c t :
  (N_of_ascii c ≤ 127)%N → utf8 (s +:+ String c t) ↔ utf8 s ∧ utf8 (String c t).
Proof.
  intros Hc. split; [|by intros [? ?]; apply utf8_app]. unfold utf8. rewrite utf8_run_app.
  destruct (decide (utf8_run Utf8Start s = Utf8Start)) as [->|Hne]; [done|].
  cbn [utf8_run]. rewrite utf8_step_ascii by done. by rewrite utf8_run_bad.
Qed.

(** ** Lines *)

Definition newline : string := String "010"%char EmptyString.

(** [str::split_inclusive('\n')]: each line, and whether it was terminated. *)
Fixpoint split_inclusive (s : string) : list (string * bool) :=
  match s with
  | EmptyString => []
  | String c s =>
      if decide (c = "010"%char) then (EmptyString, true) :: split_inclusive s
      else match split_inclusive s with
           | [] => [(String c EmptyString, false)]
           | (l, b) :: ls => (String c l, b) :: ls
           end
  end.

(** One trailing carriage return. *)
Fixpoint strip_cr (s : string) : string :=
  match s with
  | EmptyString => EmptyString
  | String c EmptyString => if decide (c = "013"%char) then EmptyString else s
  | String c s => String c (strip_cr s)
  end.

(** [str::lines]: a carriage return belongs to the line ending only before a
    newline. *)
Definition str_lines (s : string) : list string :=
  (λ '(l, b), if b : bool then strip_cr l else l) <$> split_inclusive s.

(** [s.trim().is_empty()]: nothing but characters with Unicode's [White_Space]
    property, in UTF-8. *)
Definition ascii_space (n : N) : bool := (9 <=? n)%N && (n <=? 13)%N || (n =? 32)%N.
Definition space2 (n m : N) : bool := (n =? 194)%N && ((m =? 133)%N || (m =? 160)%N).
Definition space3 (n m k : N) : bool :=
  (n =? 225)%N && (m =? 154)%N && (k =? 128)%N ||
  (n =? 226)%N && (m =? 128)%N &&
    ((128 <=? k)%N && (k <=? 138)%N || (k =? 168)%N || (k =? 169)%N || (k =? 175)%N) ||
  (n =? 226)%N && (m =? 129)%N && (k =? 159)%N ||
  (n =? 227)%N && (m =? 128)%N && (k =? 128)%N.

Fixpoint is_blank (s : string) : bool :=
  match s with
  | EmptyString => true
  | String a s1 =>
      if ascii_space (N_of_ascii a) then is_blank s1
      else match s1 with
           | EmptyString => false
           | String b s2 =>
               if space2 (N_of_ascii a) (N_of_ascii b) then is_blank s2
               else match s2 with
                    | EmptyString => false
                    | String c s3 =>
                        space3 (N_of_ascii a) (N_of_ascii b) (N_of_ascii c) && is_blank s3
                    end
           end
  end.

Fixpoint has_char (c : ascii) (s : string) : bool :=
  match s with
  | EmptyString => false
  | String d s => bool_decide (c = d) || has_char c s
  end.

(** One line of text, and not a blank one. *)
Record one_line (s : string) : Prop := mk_one_line {
  ol_newline : has_char "010"%char s = false;
  ol_return : has_char "013"%char s = false;
  ol_blank : is_blank s = false
}.

Lemma split_inclusive_line l s :
  has_char "010"%char l = false →
  split_inclusive (l +:+ newline +:+ s) = (l, true) :: split_inclusive s.
Proof.
  induction l as [|c l IH]; cbn [has_char]; [done|].
  intros [Hc%bool_decide_eq_false Hl]%orb_false_iff.
  change (String c l +:+ newline +:+ s) with (String c (l +:+ newline +:+ s)).
  cbn [split_inclusive]. rewrite decide_False by congruence. by rewrite IH.
Qed.

Lemma strip_cr_id s : has_char "013"%char s = false → strip_cr s = s.
Proof.
  induction s as [|c s IH]; [done|]. cbn [has_char].
  intros [Hc%bool_decide_eq_false Hs]%orb_false_iff. cbn [strip_cr]. destruct s as [|d s].
  - by rewrite decide_False by congruence.
  - by rewrite IH.
Qed.


(** ** Splitting *)

(** [str::rsplit_once] and [str::split_once] at an ASCII character. *)
Fixpoint rsplit_once (c : ascii) (s : string) : option (string * string) :=
  match s with
  | EmptyString => None
  | String d s =>
      match rsplit_once c s with
      | Some (before, after) => Some (String d before, after)
      | None => if decide (d = c) then Some (EmptyString, s) else None
      end
  end.

Fixpoint split_once (c : ascii) (s : string) : option (string * string) :=
  match s with
  | EmptyString => None
  | String d s =>
      if decide (d = c) then Some (EmptyString, s)
      else match split_once c s with
           | Some (before, after) => Some (String d before, after)
           | None => None
           end
  end.

(** [str::splitn]: at most [n] pieces, the last one unsplit. *)
Fixpoint splitn (n : nat) (c : ascii) (s : string) : list string :=
  match n with
  | 0 => []
  | S 0 => [s]
  | S n =>
      match split_once c s with
      | Some (before, after) => before :: splitn n c after
      | None => [s]
      end
  end.

(** [str::split_whitespace]: the runs of characters that are not white space;
    [cur] is the run being read. *)
Definition end_run (cur : string) (runs : list string) : list string :=
  if decide (cur = "") then runs else cur :: runs.

Fixpoint split_whitespace_from (cur s : string) : list string :=
  match s with
  | EmptyString => end_run cur []
  | String a s1 =>
      if ascii_space (N_of_ascii a) then end_run cur (split_whitespace_from "" s1)
      else
        let more := split_whitespace_from (cur +:+ String a "") s1 in
        match s1 with
        | EmptyString => more
        | String b s2 =>
            if space2 (N_of_ascii a) (N_of_ascii b)
            then end_run cur (split_whitespace_from "" s2)
            else match s2 with
                 | EmptyString => more
                 | String c s3 =>
                     if space3 (N_of_ascii a) (N_of_ascii b) (N_of_ascii c)
                     then end_run cur (split_whitespace_from "" s3) else more
                 end
        end
  end.

Definition split_whitespace (s : string) : list string := split_whitespace_from "" s.

(** ** Unsigned decimal numbers

    [str::parse::<u32>] and [str::parse::<u64>], whose maximum is [max]. *)

Inductive ParseIntError : Type :=
  | IntEmpty
  | InvalidDigit
  | PosOverflow.

#[export] Instance ParseIntError_eq_dec : EqDecision ParseIntError.
Proof. solve_decision. Defined.

Definition ParseIntError_text (e : ParseIntError) : string :=
  match e with
  | IntEmpty => "cannot parse integer from empty string"
  | InvalidDigit => "invalid digit found in string"
  | PosOverflow => "number too large to fit in target type"
  end.

(** [char::to_digit], for a radix of at most ten. *)
Definition to_digit (radix : N) (c : ascii) : option N :=
  if decide (48 ≤ N_of_ascii c ∧ N_of_ascii c < 48 + radix)%N
  then Some (N_of_ascii c - 48)%N else None.

Fixpoint parse_digits (radix max acc : N) (s : string) : result N ParseIntError :=
  match s with
  | EmptyString => Ok acc
  | String c s =>
      match to_digit radix c with
      | None => Err InvalidDigit
      | Some d =>
          if decide (max < acc * radix)%N then Err PosOverflow
          else if decide (max < acc * radix + d)%N then Err PosOverflow
          else parse_digits radix max (acc * radix + d) s
      end
  end.

(** [from_str_radix]. *)
Definition parse_radix (radix max : N) (s : string) : result N ParseIntError :=
  match s with
  | EmptyString => Err IntEmpty
  | String c rest =>
      if decide ((c = "+"%char ∨ c = "-"%char) ∧ rest = "") then Err InvalidDigit
      else if decide (c = "+"%char) then parse_digits radix max 0 rest
      else parse_digits radix max 0 s
  end.

Abbreviation parse_uint := (parse_radix 10).

(** [str::trim_start_matches] with a text of two characters. *)
Fixpoint trim_start_pair (a b : ascii) (s : string) : string :=
  match s with
  | String c (String d rest) =>
      if decide (c = a ∧ d = b) then trim_start_pair a b rest else s
  | _ => s
  end.

(** The pieces between the occurrences of a character. *)
Fixpoint split_on (c : ascii) (s : string) : list string :=
  match s with
  | EmptyString => [EmptyString]
  | String d s =>
      if decide (d = c) then EmptyString :: split_on c s
      else match split_on c s with
           | [] => [String d EmptyString]
           | piece :: pieces => String d piece :: pieces
           end
  end.

(** ** Lemmas *)

(** Every character of the text satisfies [P]. *)
Fixpoint every (P : ascii → bool) (s : string) : bool :=
  match s with
  | EmptyString => true
  | String c s => P c && every P s
  end.

Lemma every_impl (P Q : ascii → bool) s :
  (∀ c, P c = true → Q c = true) → every P s = true → every Q s = true.
Proof.
  intros HPQ. induction s as [|c s IH]; [done|]. cbn [every].
  intros [Hc Hs]%andb_true_iff. rewrite andb_true_iff. auto.
Qed.

Lemma every_not_has_char P c s : P c = false → every P s = true → has_char c s = false.
Proof.
  intros Hc. induction s as [|d s IH]; [done|]. cbn [every has_char].
  intros [Hd Hs]%andb_true_iff. rewrite IH by done. rewrite bool_decide_false; [done|].
  intros ->. by rewrite Hc in Hd.
Qed.

Lemma has_char_app c a b : has_char c (a +:+ b) = has_char c a || has_char c b.
Proof.
  induction a as [|d a IH]; [done|]. change (String d a +:+ b) with (String d (a +:+ b)).
  cbn [has_char]. by rewrite IH, orb_assoc.
Qed.

Lemma rsplit_once_absent c s : has_char c s = false → rsplit_once c s = None.
Proof.
  induction s as [|d s IH]; [done|]. cbn [has_char rsplit_once].
  intros [Hd%bool_decide_eq_false Hs]%orb_false_iff. rewrite IH by done.
  by rewrite decide_False by congruence.
Qed.

(** The last separator decides, whatever comes before it. *)
Lemma rsplit_once_last c a b :
  has_char c b = false → rsplit_once c (a +:+ String c b) = Some (a, b).
Proof.
  intros Hb. induction a as [|d a IH].
  - change ("" +:+ String c b) with (String c b). cbn [rsplit_once].
    rewrite (rsplit_once_absent _ _ Hb). by rewrite decide_True.
  - change (String d a +:+ String c b) with (String d (a +:+ String c b)).
    cbn [rsplit_once]. by rewrite IH.
Qed.

Lemma rsplit_once_Some c s a b :
  rsplit_once c s = Some (a, b) ↔ s = a +:+ String c b ∧ has_char c b = false.
Proof.
  split; [|intros [-> ?]; by apply rsplit_once_last].
  revert a. induction s as [|d s IH]; intros a; [done|]. cbn [rsplit_once].
  destruct (rsplit_once c s) as [[a' b']|] eqn:Hs.
  - intros [= <- <-]. destruct (IH a' eq_refl) as [-> ?]. done.
  - case_decide as Hd; [|done]. intros [= <- <-]. subst. split; [done|].
    clear IH. induction s as [|d s IH]; [done|]. cbn [rsplit_once] in Hs. cbn [has_char].
    destruct (rsplit_once c s) as [[]|]; [done|]. case_decide as Hd; [done|].
    rewrite IH by done. by rewrite bool_decide_false by congruence.
Qed.

Lemma split_once_first c a b :
  has_char c a = false → split_once c (a +:+ String c b) = Some (a, b).
Proof.
  induction a as [|d a IH]; cbn [has_char].
  - intros _. change ("" +:+ String c b) with (String c b). cbn [split_once].
    by rewrite decide_True.
  - intros [Hd%bool_decide_eq_false Ha]%orb_false_iff.
    change (String d a +:+ String c b) with (String d (a +:+ String c b)).
    cbn [split_once]. rewrite decide_False by congruence. by rewrite IH.
Qed.

(** Text without white space and without bytes beyond ASCII. *)
Definition graphic (c : ascii) : bool := (33 <=? N_of_ascii c)%N && (N_of_ascii c <=? 126)%N.

Definition is_token (s : string) : bool := bool_decide (s ≠ "") && every graphic s.

Lemma graphic_not_space c : graphic c = true → ascii_space (N_of_ascii c) = false.
Proof.
  unfold graphic, ascii_space. rewrite andb_true_iff, !N.leb_le. intros [? ?].
  apply orb_false_iff. rewrite andb_false_iff, !N.leb_gt, N.eqb_neq. lia.
Qed.

Lemma graphic_not_lead c n m :
  graphic c = true → space2 (N_of_ascii c) n = false ∧ space3 (N_of_ascii c) n m = false.
Proof.
  unfold graphic. rewrite andb_true_iff, !N.leb_le. intros [? ?].
  assert (∀ k, (127 <= k)%N → (N_of_ascii c =? k)%N = false) as Hk
    by (intros k ?; apply N.eqb_neq; lia).
  unfold space2, space3. rewrite !Hk by lia. done.
Qed.

Lemma split_whitespace_graphic cur c s :
  graphic c = true →
  split_whitespace_from cur (String c s) = split_whitespace_from (cur +:+ String c "") s.
Proof.
  intros Hc. cbn [split_whitespace_from]. rewrite graphic_not_space by done.
  destruct s as [|b [|d s]]; [done|..].
  - by rewrite (proj1 (graphic_not_lead c _ 0 Hc)).
  - by rewrite (proj1 (graphic_not_lead c _ 0 Hc)), (proj2 (graphic_not_lead c _ _ Hc)).
Qed.

Lemma split_whitespace_run cur tok s :
  every graphic tok = true →
  split_whitespace_from cur (tok +:+ s) = split_whitespace_from (cur +:+ tok) s.
Proof.
  revert cur. induction tok as [|c tok IH]; intros cur.
  { intros _. by rewrite string_app_nil_r. }
  cbn [every]. intros [Hc Ht]%andb_true_iff.
  change (String c tok +:+ s) with (String c (tok +:+ s)).
  rewrite split_whitespace_graphic, IH by done. f_equal.
  by rewrite <-string_app_assoc.
Qed.

Definition space : string := String " "%char "".

(** Fields separated by single white-space characters are read back. *)
Lemma split_whitespace_token a tok s :
  ascii_space (N_of_ascii a) = true → is_token tok = true →
  split_whitespace (tok +:+ String a s) = tok :: split_whitespace s.
Proof.
  unfold is_token, split_whitespace. rewrite andb_true_iff, bool_decide_eq_true.
  intros Ha [Hne Ht]. rewrite split_whitespace_run by done. cbn [split_whitespace_from].
  change ("" +:+ tok) with tok. rewrite Ha. unfold end_run. by rewrite decide_False.
Qed.

Lemma split_whitespace_space a s :
  ascii_space (N_of_ascii a) = true → split_whitespace (String a s) = split_whitespace s.
Proof. intros Ha. unfold split_whitespace. cbn [split_whitespace_from]. by rewrite Ha. Qed.

Lemma split_whitespace_last tok : is_token tok = true → split_whitespace tok = [tok].
Proof.
  unfold is_token, split_whitespace. rewrite andb_true_iff, bool_decide_eq_true.
  intros [Hne Ht]. rewrite <-(string_app_nil_r tok) at 1.
  rewrite split_whitespace_run by done. cbn. unfold end_run. by rewrite decide_False.
Qed.

(** The fields of a line, each followed by the separator [a]. *)
Fixpoint fields_text (a : ascii) (fs : list string) (s : string) : string :=
  match fs with
  | [] => s
  | f :: fs => f +:+ String a (fields_text a fs s)
  end.

Lemma split_whitespace_fields a fs s :
  ascii_space (N_of_ascii a) = true → Forall (λ f, is_token f = true) fs →
  split_whitespace (fields_text a fs s) = fs ++ split_whitespace s.
Proof.
  intros Ha. induction 1 as [|f fs Hf _ IH]; [done|]. cbn [fields_text app].
  by rewrite split_whitespace_token, IH.
Qed.

(** ** Numbers are read back *)

Lemma to_digit_pretty d : (d < 10)%N → to_digit 10 (pretty_N_char d) = Some d.
Proof.
  intros Hd. assert (d ∈ N.of_nat <$> seq 0 10) as Hin.
  { apply list_elem_of_fmap. exists (N.to_nat d). rewrite elem_of_seq. lia. }
  cbn in Hin. repeat (apply elem_of_cons in Hin as [->|Hin]; [done|]). set_solver.
Qed.

Lemma parse_digits_pretty_go max n s :
  (0 < n)%N → (n ≤ max)%N →
  parse_digits 10 max 0 (pretty_N_go n s) = parse_digits 10 max n s.
Proof.
  revert s. induction (N.lt_wf_0 n) as [n _ IH]. intros s Hpos Hmax.
  rewrite pretty_N_go_step by done.
  assert (∃ q r, n / 10 = q ∧ n `mod` 10 = r ∧ n = 10 * q + r ∧ r < 10 ∧ q < n)%N
    as (q & r & -> & -> & Hdm & Hlt & Hq).
  { eexists _, _. split_and!; [done|done|by apply N.div_mod|by apply N.mod_lt|].
    apply N.div_lt; lia. }
  assert (parse_digits 10 max q (String (pretty_N_char r) s) = parse_digits 10 max n s) as Hstep.
  { cbn [parse_digits]. rewrite to_digit_pretty by done.
    rewrite !decide_False by lia. f_equal; lia. }
  destruct (decide (q = 0)%N) as [->|Hz].
  - by rewrite pretty_N_go_0.
  - by rewrite IH by lia.
Qed.

Lemma pretty_N_go_every P n s :
  (∀ d, (d < 10)%N → P (pretty_N_char d) = true) →
  every P s = true → every P (pretty_N_go n s) = true.
Proof.
  intros HP. revert s. induction (N.lt_wf_0 n) as [n _ IH]. intros s Hs.
  destruct (decide (n = 0)%N) as [->|Hn]; [by rewrite pretty_N_go_0|].
  rewrite pretty_N_go_step by lia. apply IH; [apply N.div_lt; lia|].
  cbn [every]. rewrite HP, Hs; [done|]. by apply N.mod_lt.
Qed.

Definition is_digit (c : ascii) : bool := bool_decide (is_Some (to_digit 10 c)).

Lemma pretty_N_digits (n : N) : every is_digit (pretty n) = true.
Proof.
  unfold pretty, pretty_N. case_decide; [done|]. apply pretty_N_go_every; [|done].
  intros d Hd. unfold is_digit. rewrite to_digit_pretty by done. done.
Qed.

Lemma pretty_N_ne_empty (n : N) : (pretty n : string) ≠ "".
Proof.
  intros He. assert (parse_digits 10 n 0 (pretty n) = Ok n) as Hp.
  { unfold pretty, pretty_N. case_decide; [by subst|].
    by rewrite parse_digits_pretty_go by lia. }
  rewrite He in Hp. cbn in Hp. injection Hp as <-. done.
Qed.

Lemma is_digit_graphic c : is_digit c = true → graphic c = true.
Proof.
  unfold is_digit, to_digit, graphic. case_decide; [|done]. intros _.
  rewrite andb_true_iff, !N.leb_le. lia.
Qed.

Lemma pretty_N_token (n : N) : is_token (pretty n) = true.
Proof.
  unfold is_token. rewrite bool_decide_true by apply pretty_N_ne_empty.
  apply (every_impl is_digit); [apply is_digit_graphic|apply pretty_N_digits].
Qed.

Lemma parse_uint_pretty max (n : N) : (n ≤ max)%N → parse_uint max (pretty n) = Ok n.
Proof.
  intros Hn. pose proof (pretty_N_digits n) as Hd. pose proof (pretty_N_ne_empty n) as Hne.
  assert (parse_digits 10 max 0 (pretty n) = Ok n) as Hp.
  { unfold pretty, pretty_N. case_decide as H0; [|by rewrite parse_digits_pretty_go by lia].
    subst. by destruct max. }
  unfold parse_radix. destruct (pretty n : string) as [|c s]; [done|].
  cbn [every] in Hd. apply andb_true_iff in Hd as [Hc _].
  assert (c ≠ "+"%char ∧ c ≠ "-"%char) as [? ?] by (split; intros ->; done).
  rewrite !decide_False; [done|done|]. by intros [[?|?] ?].
Qed.

(** What the parser accepts fits the type. *)
Lemma parse_digits_bound radix max acc s n :
  (acc ≤ max)%N → parse_digits radix max acc s = Ok n → (n ≤ max)%N.
Proof.
  revert acc. induction s as [|c s IH]; intros acc Ha; cbn [parse_digits]; [by intros [= <-]|].
  destruct (to_digit radix c); [|done]. repeat (case_decide; [done|]). apply IH. lia.
Qed.

Lemma parse_radix_bound radix max s n : parse_radix radix max s = Ok n → (n ≤ max)%N.
Proof.
  unfold parse_radix. destruct s; [done|]. repeat (case_decide; [done|]).
  case_decide; apply parse_digits_bound; lia.
Qed.
