(* ===== verification/Json.v ===== *)
(** * JSON documents and derived serialisation

    The source derives its wire formats with serde and reads and writes them with
    [serde_json].  Here are JSON documents, the operations of the two libraries that a
    derived implementation is made of, as a class of functions, and their documented
    behaviour on objects as a class of laws: unknown fields, duplicate fields, missing
    fields, internally tagged enums.  What a type's attributes say is written with
    these operations in the files of the types. *)

From Stdlib Require Import Strings.Byte.
From S2P Require Import Prelude.

(** ** Documents *)

#[local] Set Warnings "-register-all".

(** An object keeps its members in order, and may name one twice; a number with a
    fraction or an exponent is its literal. *)
Inductive Json : Type :=
  | JNull
  | JBool (b : bool)
  | JInt (z : Z)
  | JStr (s : string)
  | JArr (l : list Json)
  | JObj (members : list (string * Json))
  | JFloat (literal : string).

Abbreviation member := (string * Json)%type.

Definition is_object (j : Json) : Prop :=
  match j with JObj _ => True | _ => False end.

#[export] Instance JObj_inj : Inj (=) (=) JObj.
Proof. by intros ms ms' [= ->]. Qed.

(** Neither an object nor an array. *)
Definition is_scalar (j : Json) : Prop :=
  match j with JArr _ | JObj _ => False | _ => True end.

Fixpoint field {A} (name : string) (ms : list (string * A)) : option A :=
  match ms with
  | [] => None
  | (k, v) :: ms => if decide (k = name) then Some v else field name ms
  end.

(** [serde_json] reads arrays and objects nested up to a limit (128 of them are one too
    many), and numbers that one of its types holds.  [readable depth j]: [j] nests no
    deeper than [depth] and its numbers are integers of 64 bits, so that nothing in it is
    refused whoever reads it.  Of a number with a fraction this is not said. *)
Fixpoint readable (depth : nat) (j : Json) {struct j} : bool :=
  match j with
  | JNull | JBool _ | JStr _ => true
  | JInt z => bool_decide (- 2 ^ 63 ≤ z < 2 ^ 64)%Z
  | JFloat _ => false
  | JArr l =>
      match depth with
      | 0 => false
      | S depth => forallb (readable depth) l
      end
  | JObj ms =>
      match depth with
      | 0 => false
      | S depth => forallb (λ '(_, v), readable depth v) ms
      end
  end.

Definition recursion_limit : nat := 127.

(** ** What serde documents of objects *)

(** The values of the named fields: no name twice, and no other name where
    [deny_unknown_fields] is given. *)
Definition object_fields (deny : bool) (names : list string) (ms : list member) :
    option (list (option Json)) :=
  if decide (NoDup (filter (.∈ names) ms.*1) ∧ (deny = true → Forall (.∈ names) ms.*1))
  then Some ((λ n, field n ms) <$> names)
  else None.

(** The tag of an internally tagged enum, given once and as a string, and the other
    members. *)
Definition object_tag (tag : string) (ms : list member) : option (string * list member) :=
  match filter (λ m, m.1 = tag) ms with
  | [(_, JStr name)] => Some (name, filter (λ m, m.1 ≠ tag) ms)
  | _ => None
  end.

(** ** The libraries *)

(** [from_slice] and [to_vec] are [serde_json]'s; the [visit] functions are what
    derived implementations do with a document: an unsigned integer up to a bound, an
    [i64], a string, an optional value, the elements of a [Vec] or a set, the fields of
    a struct, the name of a unit variant, and the tag of an internally tagged enum with
    the rest of its object.
    [std::time::Duration] has an implementation in serde. *)
Class SerdeJson : Type := {
  from_slice {A} (de : Json → option A) : list byte → option A;
  to_vec : Json → list byte;
  visit_uint (max : N) : Json → option N;
  visit_i64 : Json → option Z;
  visit_str : Json → option string;
  visit_option {A} (de : Json → option A) : Json → option (option A);
  visit_seq {A} (de : Json → option A) : Json → option (list A);
  visit_struct (deny : bool) (names : list string) : Json → option (list (option Json));
  visit_enum : Json → option string;
  visit_tagged (tag : string) : Json → option (string * Json);
  duration_ser : Duration → Json;
  duration_de : Json → option Duration
}.

(** A field that has to be there. *)
Definition required {A} (de : Json → option A) (o : option Json) : option A := o ≫= de.

(** A struct, or a struct variant, of one field. *)
Definition one_field `{SerdeJson} {A} (de : Json → option A) (name : string) (j : Json) :
    option A :=
  fields ← visit_struct false [name] j;
  match fields with
  | [a] => required de a
  | _ => None
  end.

(** A value behind a path of fields, each of a struct with that field alone; and the
    document that holds it there. *)
Definition field_at `{SerdeJson} {A} (path : list string) (de : Json → option A) :
    Json → option A :=
  foldr (λ name de, one_field de name) de path.

Definition nest (path : list string) (j : Json) : Json := foldr (λ name j, JObj [(name, j)]) j path.

(** A document is read as what it says if it is [readable], and never as anything else.
    The members that a struct without [deny_unknown_fields] does not name are skipped,
    whatever they hold: they could as well be absent.  The laws say nothing of structs
    read from arrays. *)
Class SerdeJsonLaws `{SerdeJson} : Prop := {
  from_slice_to_vec {A} (de : Json → option A) j :
    readable recursion_limit j → from_slice de (to_vec j) = de j;
  from_slice_sound {A} (de : Json → option A) j a : from_slice de (to_vec j) = Some a → de j = Some a;
  from_slice_skips {A} path names (k : list (option Json) → option A) ms :
    let de := field_at path (λ j, visit_struct false names j ≫= k) in
    from_slice de (to_vec (nest path (JObj ms))) =
      from_slice de (to_vec (nest path (JObj (filter (λ m, m.1 ∈ names) ms))));
  from_slice_Some {A} (de : Json → option A) l a : from_slice de l = Some a → ∃ j, de j = Some a;
  visit_uint_int max z :
    visit_uint max (JInt z) =
      if decide (0 ≤ z ≤ Z.of_N max)%Z then Some (Z.to_N z) else None;
  visit_uint_other max j : (∀ z, j ≠ JInt z) → visit_uint max j = None;
  visit_i64_int z : (- 2 ^ 63 ≤ z < 2 ^ 63)%Z → visit_i64 (JInt z) = Some z;
  visit_str_str s : visit_str (JStr s) = Some s;
  visit_str_other j : (∀ s, j ≠ JStr s) → visit_str j = None;
  visit_option_null {A} (de : Json → option A) : visit_option de JNull = Some None;
  visit_option_some {A} (de : Json → option A) j :
    j ≠ JNull → visit_option de j = Some <$> de j;
  visit_seq_array {A} (de : Json → option A) l : visit_seq de (JArr l) = mapM de l;
  visit_seq_other {A} (de : Json → option A) j : (∀ l, j ≠ JArr l) → visit_seq de j = None;
  visit_struct_object deny names ms :
    visit_struct deny names (JObj ms) = object_fields deny names ms;
  visit_struct_scalar deny names j : is_scalar j → visit_struct deny names j = None;
  visit_enum_str s : visit_enum (JStr s) = Some s;
  visit_enum_scalar j : is_scalar j → (∀ s, j ≠ JStr s) → visit_enum j = None;
  visit_tagged_object tag ms :
    visit_tagged tag (JObj ms) =
      (λ '(name, rest), (name, JObj rest)) <$> object_tag tag ms;
  visit_tagged_scalar tag j : is_scalar j → visit_tagged tag j = None;
  duration_shape d :
    duration_ser d = JObj [("secs", JInt (Z.of_N (d `div` nanos_per_sec)));
                           ("nanos", JInt (Z.of_N (d `mod` nanos_per_sec)))];
  duration_roundtrip d : (d ≤ Duration_max)%N → duration_de (duration_ser d) = Some d
}.

(** A type with its two derived implementations. *)
Class Serde (A : Type) : Type := {
  ser : A → Json;
  de : Json → option A
}.

(** [de] reads back what [ser] wrote of the values in [ok]. *)
Abbreviation roundtrips ok := (∀ a, ok a → de (ser a) = Some a).

(** A field that need not be there ([Option] types). *)
Definition optional `{SerdeJson} {A} (de : Json → option A) (o : option Json) :
    option (option A) :=
  match o with
  | None => Some None
  | Some j => visit_option de j
  end.

(** A unit variant by its name. *)
Definition unit_variant `{SerdeJson} {A} (table : list (string * A)) (j : Json) : option A :=
  name ← visit_enum j; field name table.

#[export] Instance string_serde `{SerdeJson} : Serde string := {
  ser := JStr;
  de := visit_str
}.

#[export] Instance list_serde `{SerdeJson} {A} `{Serde A} : Serde (list A) := {
  ser l := JArr (ser <$> l);
  de := visit_seq de
}.

(** The members of an internally tagged newtype variant: the tag, and those of what it
    holds. *)
Definition tag_object (tag name : string) (j : Json) : Json :=
  match j with
  | JObj ms => JObj ((tag, JStr name) :: ms)
  | _ => j
  end.

(** ** Lemmas *)

Lemma field_Some {A} name (ms : list (string * A)) v : field name ms = Some v → (name, v) ∈ ms.
Proof.
  induction ms as [|[k w] ms IH]; cbn; [done|]. case_decide as Hk.
  - intros [= ->]. subst k. by left.
  - intros Hf. right. by apply IH.
Qed.

Lemma field_None {A} name (ms : list (string * A)) : field name ms = None ↔ name ∉ ms.*1.
Proof.
  induction ms as [|[k w] ms IH]; cbn; [split; [by intros _ ?%elem_of_nil|done]|].
  rewrite not_elem_of_cons. case_decide as Hk; [naive_solver|]. rewrite IH. naive_solver.
Qed.

Lemma field_unique {A} name v (ms : list (string * A)) : NoDup ms.*1 → (name, v) ∈ ms → field name ms = Some v.
Proof.
  induction ms as [|[k w] ms IH]; cbn; [by intros _ ?%elem_of_nil|].
  intros [Hk Hnd]%NoDup_cons [Heq|Hin]%elem_of_cons.
  - injection Heq as -> ->. by rewrite decide_True.
  - rewrite decide_False; [by apply IH|]. intros ->. apply Hk. by apply (list_elem_of_fmap_2 fst) in Hin.
Qed.

Lemma filter_all {A} (P : A → Prop) `{∀ x, Decision (P x)} l : Forall P l → filter P l = l.
Proof. induction 1 as [|x l Hx _ IH]; [done|]. by rewrite filter_cons_True, IH. Qed.

Lemma zip_keys {A} (names : list string) (js : list A) :
  length js = length names → (zip names js).*1 = names.
Proof. intros Hl. apply fst_zip. lia. Qed.

(** A struct under [deny_unknown_fields] that has all its fields is exactly their
    list, in some order. *)
Lemma object_fields_exact names ms js :
  NoDup names →
  object_fields true names ms = Some (Some <$> js) ↔
    length js = length names ∧ ms ≡ₚ zip names js.
Proof.
  intros Hnd. unfold object_fields. split.
  - case_decide as Hd; [|done]. destruct Hd as [Hn Hall]. specialize (Hall eq_refl). intros [= Hf].
    rewrite filter_all in Hn by done.
    assert (length js = length names) as Hlen.
    { apply (f_equal length) in Hf. by rewrite !length_fmap in Hf. }
    split; [done|]. apply NoDup_Permutation.
    + by eapply NoDup_fmap_1.
    + apply NoDup_fmap_1 with (f := fst). by rewrite zip_keys.
    + intros [k v]. rewrite list_elem_of_lookup. split.
      * intros Hin%list_elem_of_lookup. pose proof (field_unique _ _ _ Hn Hin) as Hfv.
        assert (k ∈ names) as [i Hi]%list_elem_of_lookup.
        { rewrite Forall_forall in Hall. apply Hall. by apply (list_elem_of_fmap_2 fst) in Hin. }
        apply list_elem_of_lookup. exists i. apply lookup_zip_Some. split; [done|].
        apply (f_equal (.!! i)) in Hf. rewrite !list_lookup_fmap, Hi in Hf. cbn in Hf.
        rewrite Hfv in Hf. destruct (js !! i); by simplify_eq/=.
      * intros [i [Hi Hj]%lookup_zip_Some]%list_elem_of_lookup.
        apply list_elem_of_lookup. apply field_Some.
        apply (f_equal (.!! i)) in Hf. rewrite !list_lookup_fmap, Hi, Hj in Hf. by injection Hf.
  - intros [Hlen Hperm].
    assert (ms.*1 ≡ₚ names) as Hkeys by (rewrite Hperm, zip_keys by done; done).
    assert (NoDup ms.*1) as Hn by by rewrite Hkeys.
    assert (Forall (.∈ names) ms.*1) as Hall.
    { apply Forall_forall. intros k. by rewrite Hkeys. }
    rewrite decide_True by (split; [by rewrite filter_all|done]). f_equal.
    apply list_eq. intros i. rewrite !list_lookup_fmap.
    destruct (names !! i) as [n|] eqn:Hi; cbn.
    + destruct (js !! i) as [j|] eqn:Hj; cbn.
      * f_equal. apply field_unique; [done|]. rewrite Hperm. apply list_elem_of_lookup. exists i.
        by apply lookup_zip_Some.
      * apply lookup_ge_None in Hj. apply lookup_lt_Some in Hi. lia.
    + destruct (js !! i) eqn:Hj; [|done].
      apply lookup_ge_None in Hi. apply lookup_lt_Some in Hj. lia.
Qed.

(** A struct written by a derived [Serialize] is read back whole. *)
Lemma object_fields_zip deny names js :
  NoDup names → length js = length names →
  object_fields deny names (zip names js) = Some (Some <$> js).
Proof.
  intros Hnd Hlen. assert (object_fields true names (zip names js) = Some (Some <$> js)) as Htrue
    by by apply object_fields_exact.
  unfold object_fields in *. case_decide as Hd; [|done]. destruct Hd as [Hn _].
  by rewrite decide_True by (split; [done|intros; by apply Forall_forall; rewrite zip_keys]).
Qed.

(** The members of one name. *)
Definition named (name : string) (ms : list member) : list member :=
  filter (λ m, m.1 = name) ms.

Lemma field_named name ms : field name (named name ms) = field name ms.
Proof.
  unfold named. induction ms as [|[k w] ms IH]; [done|]. destruct (decide (k = name)) as [Hk|Hk].
  - rewrite filter_cons_True by done. cbn. by case_decide.
  - rewrite filter_cons_False by done. cbn. by rewrite decide_False.
Qed.

Lemma named_all name ms : Forall (λ m, m.1 = name) (named name ms).
Proof. apply Forall_forall. by intros m [? _]%list_elem_of_filter. Qed.

Lemma named_nil name ms : named name ms = [] ↔ name ∉ ms.*1.
Proof.
  rewrite <-field_None, <-field_named. pose proof (named_all name ms) as Hall.
  destruct (named name ms) as [|[k v] l]; [done|]. inversion_clear Hall. cbn in *. subst.
  by rewrite decide_True.
Qed.

(** No name of a field twice. *)
Lemma named_NoDup (names : list string) ms :
  NoDup (filter (.∈ names) ms.*1) ↔ ∀ n, n ∈ names → length (named n ms) ≤ 1.
Proof.
  induction ms as [|[k v] ms IH]; [split; [cbn; lia|constructor]|]. cbn [fmap list_fmap fst].
  assert (∀ n, named n ((k, v) :: ms) = if decide (k = n) then (k, v) :: named n ms else named n ms)
    as Hcons.
  { intros n. unfold named. case_decide; [by rewrite filter_cons_True|by rewrite filter_cons_False]. }
  setoid_rewrite Hcons. destruct (decide (k ∈ names)) as [Hk|Hk].
  - rewrite filter_cons_True by done. rewrite NoDup_cons, IH, list_elem_of_filter. split.
    + intros [Hno Hle] n Hn. case_decide as Heq; [|by apply Hle]. subst n.
      assert (named k ms = []) as ->; [|done]. apply named_nil. tauto.
    + intros Hle. split.
      * intros [_ Hin]. specialize (Hle k Hk). rewrite decide_True in Hle by done. cbn in Hle.
        assert (named k ms = []) as Hnil%named_nil by (destruct (named k ms); [done|cbn in Hle; lia]).
        done.
      * intros n Hn. specialize (Hle n Hn). case_decide; cbn in Hle; lia.
  - rewrite filter_cons_False by done. rewrite IH. split; intros Hle n Hn; specialize (Hle n Hn).
    + rewrite decide_False; [done|]. by intros ->.
    + revert Hle. rewrite decide_False; [done|]. by intros ->.
Qed.

Lemma field_named_one name ms v :
  length (named name ms) ≤ 1 → field name ms = Some v ↔ named name ms = [(name, v)].
Proof.
  rewrite <-field_named. pose proof (named_all name ms) as Hall.
  destruct (named name ms) as [|[k w] [|]]; cbn; [done| |lia].
  inversion_clear Hall. cbn in *. subst. rewrite decide_True by done. naive_solver.
Qed.

(** Without [deny_unknown_fields] each field is read wherever it stands, if it is there
    once. *)
Lemma object_fields_named (names : list string) ms js :
  object_fields false names ms = Some (Some <$> js) ↔
    Forall2 (λ n j, named n ms = [(n, j)]) names js.
Proof.
  unfold object_fields. split.
  - case_decide as Hd; [|done]. destruct Hd as [Hle _]. rewrite named_NoDup in Hle. intros [= Hf].
    revert js Hle Hf. induction names as [|n names IH]; intros [|j js] Hle Hf; try done.
    cbn in Hf. injection Hf as Hj Hf. constructor.
    + apply field_named_one; [apply Hle; by left|done].
    + apply IH; [|done]. intros n' Hn'. apply Hle. by right.
  - intros Hall. assert (∀ n, n ∈ names → length (named n ms) ≤ 1) as Hle.
    { intros n Hn. induction Hall as [|n' j names js Hn' _ IH]; [by apply elem_of_nil in Hn|].
      apply elem_of_cons in Hn as [->|Hn]; [by rewrite Hn'|by apply IH]. }
    rewrite decide_True by (split; [by apply named_NoDup|done]). f_equal. clear Hle.
    induction Hall as [|n j names js Hn _ IH]; [done|]. cbn. f_equal; [|done].
    apply field_named_one; by rewrite Hn.
Qed.

(** Without [deny_unknown_fields] what does not bear the name of a field is as good as
    absent. *)
Lemma object_fields_extra deny names m ms :
  m.1 ∉ names → object_fields false names (m :: ms) = object_fields false names ms ∧
  (deny = true → object_fields deny names (m :: ms) = None).
Proof.
  intros Hm. unfold object_fields. cbn [fmap list_fmap]. rewrite filter_cons_False by done.
  assert ((λ n, field n (m :: ms)) <$> names = (λ n, field n ms) <$> names) as Heq.
  { apply list_fmap_ext. intros i n Hi. destruct m as [k v]. cbn. rewrite decide_False; [done|].
    intros ->. by apply Hm, list_elem_of_lookup_2 with i. }
  split.
  - rewrite Heq. by repeat case_decide; naive_solver.
  - intros ->. rewrite decide_False; [done|]. intros [_ Hall]. specialize (Hall eq_refl).
    by inversion Hall.
Qed.

Lemma object_fields_filter names ms :
  object_fields false names (filter (λ m, m.1 ∈ names) ms) = object_fields false names ms.
Proof.
  induction ms as [|m ms IH]; [done|]. destruct (decide (m.1 ∈ names)) as [Hm|Hm].
  - rewrite filter_cons_True by done. unfold object_fields in *. cbn [fmap list_fmap].
    rewrite !filter_cons_True by done. clear IH.
    assert (∀ n, n ∈ names → field n (filter (λ m, m.1 ∈ names) ms) = field n ms) as Hf.
    { intros n Hn. rewrite <-(field_named n ms), <-field_named. f_equal. unfold named.
      rewrite list_filter_filter. apply list_filter_iff. intros x. naive_solver. }
    assert (filter (.∈ names) (filter (λ m, m.1 ∈ names) ms).*1 = filter (.∈ names) ms.*1) as ->.
    { clear. induction ms as [|m ms IH]; [done|]. destruct (decide (m.1 ∈ names)).
      - rewrite filter_cons_True by done. cbn [fmap list_fmap]. rewrite !filter_cons_True by done.
        by rewrite IH.
      - rewrite filter_cons_False by done. cbn [fmap list_fmap]. by rewrite filter_cons_False. }
    assert ((λ n, field n (m :: filter (λ m, m.1 ∈ names) ms)) <$> names =
      (λ n, field n (m :: ms)) <$> names) as ->.
    { apply list_fmap_ext. intros i n Hi%list_elem_of_lookup_2. destruct m as [k v]. cbn.
      case_decide; [done|]. by apply Hf. }
    by repeat case_decide; naive_solver.
  - rewrite filter_cons_False by done. rewrite IH. symmetry. by apply (object_fields_extra false).
Qed.

Lemma filter_one_name n (ms : list member) : filter (λ m, m.1 ∈ [n]) ms = named n ms.
Proof. apply list_filter_iff. intros m. apply list_elem_of_singleton. Qed.

(** *** What is readable *)

Lemma readable_object d ms : Forall (λ m, readable d m.2) ms ↔ readable (S d) (JObj ms).
Proof.
  cbn. rewrite Is_true_true, forallb_forall, Forall_forall. setoid_rewrite <-list_elem_of_In.
  split; [intros Hm [k v] Hin|intros Hm [k v] Hin]; apply Is_true_true, (Hm (k, v) Hin).
Qed.

Lemma readable_array d l : Forall (readable d) l ↔ readable (S d) (JArr l).
Proof.
  cbn. rewrite Is_true_true, forallb_forall, Forall_forall. setoid_rewrite <-list_elem_of_In.
  split; intros Hm j Hin; apply Is_true_true, (Hm j Hin).
Qed.

(** The tag of an enum, wherever it stands. *)
Lemma object_tag_Some tag ms name rest :
  object_tag tag ms = Some (name, rest) ↔
    named tag ms = [(tag, JStr name)] ∧ rest = filter (λ m, m.1 ≠ tag) ms.
Proof.
  unfold object_tag. fold (named tag ms). pose proof (named_all tag ms) as Hall. split.
  - destruct (named tag ms) as [|[k []] []]; try done. intros [= <- <-].
    inversion_clear Hall. cbn in *. by subst.
  - by intros [-> ->].
Qed.

Lemma object_tag_Permutation tag ms name rest :
  object_tag tag ms = Some (name, rest) → ms ≡ₚ (tag, JStr name) :: rest ∧ tag ∉ rest.*1.
Proof.
  intros [Hn ->]%object_tag_Some. split.
  - change ((tag, JStr name) :: filter (λ m, m.1 ≠ tag) ms) with
      ([(tag, JStr name)] ++ filter (λ m, m.1 ≠ tag) ms). rewrite <-Hn. unfold named.
    clear Hn. induction ms as [|[k v] ms IH]; [done|]. destruct (decide (k = tag)) as [Hk|Hk].
    + rewrite filter_cons_True, filter_cons_False by (cbn; tauto). cbn. by f_equiv.
    + rewrite (filter_cons_False (λ m, m.1 = tag)), filter_cons_True by (cbn; tauto).
      rewrite <-Permutation_middle. by f_equiv.
  - intros ([k v] & Hk & Hin)%list_elem_of_fmap. apply list_elem_of_filter in Hin as [Hne _].
    cbn in *. by subst.
Qed.

Lemma Permutation_object_tag tag ms name rest :
  ms ≡ₚ (tag, JStr name) :: rest → tag ∉ rest.*1 →
  ∃ rest', object_tag tag ms = Some (name, rest') ∧ rest' ≡ₚ rest.
Proof.
  intros Hp Ht. exists (filter (λ m, m.1 ≠ tag) ms).
  assert (Forall (λ m : member, m.1 ≠ tag) rest) as Hne.
  { apply Forall_forall. intros m Hm Heq. apply Ht. rewrite <-Heq. by apply list_elem_of_fmap_2. }
  split.
  - apply object_tag_Some. split; [|done]. unfold named. apply Permutation_singleton_r.
    rewrite Hp, filter_cons_True by done. f_equiv. clear Hp Ht.
    induction Hne as [|m l Hm _ IH]; [done|]. by rewrite filter_cons_False.
  - rewrite Hp, filter_cons_False by (cbn; tauto). by rewrite filter_all.
Qed.

Lemma object_tag_cons tag name rest :
  tag ∉ rest.*1 → object_tag tag ((tag, JStr name) :: rest) = Some (name, rest).
Proof.
  intros Ht. assert (Forall (λ m : member, m.1 ≠ tag) rest) as Hne.
  { apply Forall_forall. intros m Hm Heq. apply Ht. rewrite <-Heq. by apply list_elem_of_fmap_2. }
  apply object_tag_Some. rewrite filter_cons_False by (cbn; tauto). rewrite filter_all by done.
  split; [|done]. unfold named. rewrite filter_cons_True by done. f_equal. clear Ht.
  induction Hne as [|m l Hm _ IH]; [done|]. by rewrite filter_cons_False.
Qed.

(** ** What derived implementations do *)

Definition uint_ser (n : N) : Json := JInt (Z.of_N n).

Lemma readable_uint d n : (n ≤ u64_max)%N → readable d (uint_ser n).
Proof.
  intros Hn. assert (u64_max < 2 ^ 64)%N by done. cbn -[Z.pow]. apply bool_decide_pack. lia.
Qed.

Section derived.
Context `{SerdeJson} (Hlaws : SerdeJsonLaws).

(** Only the fields of a struct have to be readable. *)
Lemma from_slice_fields {A} names (k : list (option Json) → option A) ms :
  let de j := visit_struct false names j ≫= k in
  readable recursion_limit (JObj (filter (λ m, m.1 ∈ names) ms)) →
  from_slice de (to_vec (JObj ms)) = de (JObj ms).
Proof.
  intros de Hr. pose proof (from_slice_skips [] names k ms) as Hs. cbn [field_at nest foldr] in Hs.
  unfold de. rewrite Hs, from_slice_to_vec by done. by rewrite !visit_struct_object, object_fields_filter.
Qed.

(** Nor does what surrounds a field of a field. *)
Lemma from_slice_field_of_field {A} (de : Json → option A) outer inner ms ps :
  named outer ms = [(outer, JObj ps)] →
  readable recursion_limit (nest [outer] (JObj (named inner ps))) →
  from_slice (field_at [outer; inner] de) (to_vec (JObj ms)) =
    field_at [inner] de (JObj ps).
Proof.
  intros Ho Hr. pose (k := λ (inner_de : Json → option A) (fields : list (option Json)),
    match fields with [a] => required inner_de a | _ => None end).
  pose proof (from_slice_skips [] [outer] (k (field_at [inner] de)) ms) as H1.
  pose proof (from_slice_skips [outer] [inner] (k de) ps) as H2. cbv zeta in H1, H2.
  rewrite filter_one_name, Ho in H1. rewrite filter_one_name in H2.
  etrans; [exact H1|]. etrans; [exact H2|]. rewrite from_slice_to_vec by done.
  cbn [field_at nest foldr]. unfold one_field. rewrite !visit_struct_object.
  assert (object_fields false [outer] [(outer, JObj (named inner ps))] = Some [Some (JObj (named inner ps))])
    as -> by by apply (object_fields_zip false [outer] [_]); [apply NoDup_singleton|].
  cbn [fmap list_fmap mbind option_bind required]. rewrite visit_struct_object, <-filter_one_name.
  by rewrite object_fields_filter.
Qed.

Lemma uint_roundtrip max n : (n ≤ max)%N → visit_uint max (uint_ser n) = Some n.
Proof.
  intros Hn. unfold uint_ser. rewrite visit_uint_int, decide_True by lia. by rewrite N2Z.id.
Qed.

Lemma visit_uint_Some max j n :
  visit_uint max j = Some n ↔ j = uint_ser n ∧ (n ≤ max)%N.
Proof.
  split; [|by intros [-> ?]; apply uint_roundtrip].
  assert (Decision (∃ z, j = JInt z)) as [[z ->]|Hj].
  { destruct j as [| |z| | | |]; first [by left; exists z|right; by intros [? ?]]. }
  - rewrite visit_uint_int. case_decide; [|done]. intros [= <-]. unfold uint_ser.
    rewrite Z2N.id by lia. split; [done|lia].
  - rewrite visit_uint_other; [done|]. intros z ->. by apply Hj; exists z.
Qed.

Lemma visit_zip deny names js :
  NoDup names → length js = length names →
  visit_struct deny names (JObj (zip names js)) = Some (Some <$> js).
Proof. intros ? ?. rewrite visit_struct_object. by apply object_fields_zip. Qed.

Lemma visit_exact names ms js :
  NoDup names → length js = length names →
  visit_struct true names (JObj ms) = Some (Some <$> js) ↔ ms ≡ₚ zip names js.
Proof. intros ? ?. rewrite visit_struct_object, object_fields_exact by done. naive_solver. Qed.

Lemma visit_tag_object tag name rest :
  tag ∉ rest.*1 → visit_tagged tag (JObj ((tag, JStr name) :: rest)) = Some (name, JObj rest).
Proof. intros ?. by rewrite visit_tagged_object, object_tag_cons. Qed.

Lemma optional_Some {A} (de : Json → option A) j a :
  j ≠ JNull → de j = Some a → optional de (Some j) = Some (Some a).
Proof. intros Hj Hd. cbn. by rewrite visit_option_some, Hd. Qed.

Lemma string_roundtrip (s : string) : de (ser s) = Some s.
Proof. apply visit_str_str. Qed.

Lemma string_Some j (s : string) : de j = Some s ↔ j = JStr s.
Proof.
  cbn [de string_serde]. split; [|intros ->; apply visit_str_str].
  assert (Decision (∃ t, j = JStr t)) as [[t ->]|Hj].
  { destruct j as [| | |t| | |]; first [by left; exists t|right; by intros [? ?]]. }
  - rewrite visit_str_str. congruence.
  - rewrite visit_str_other; [done|]. intros t ->. by apply Hj; exists t.
Qed.

Lemma list_roundtrip {A} `{Serde A} (ok : A → Prop) (l : list A) :
  roundtrips ok → Forall ok l → de (ser l) = Some l.
Proof.
  intros HA Hl. cbn [ser de list_serde]. rewrite visit_seq_array. apply mapM_Some.
  induction Hl; constructor; auto.
Qed.

Lemma list_readable {A} `{Serde A} d (ok : A → Prop) (l : list A) :
  (∀ a, ok a → readable d (ser a)) → Forall ok l → readable (S d) (ser l).
Proof. intros HA Hl. apply readable_array, Forall_fmap. by eapply Forall_impl. Qed.

Lemma duration_readable d t : (t ≤ Duration_max)%N → readable (S d) (duration_ser t).
Proof.
  intros Ht. rewrite duration_shape. apply readable_object. assert (0 < nanos_per_sec)%N by done.
  repeat apply Forall_cons_2; cbn [snd]; [apply readable_uint..|apply Forall_nil_2].
  - apply N.lt_succ_r, N.Div0.div_lt_upper_bound.
    assert (Duration_max < nanos_per_sec * N.succ u64_max)%N by done. lia.
  - pose proof (N.mod_lt t nanos_per_sec ltac:(done)). assert (nanos_per_sec ≤ u64_max)%N by done. lia.
Qed.

(** An array is read element by element, all of them or not at all. *)
Lemma list_Some {A} `{Serde A} j (l : list A) :
  de j = Some l ↔ ∃ js, j = JArr js ∧ Forall2 (λ j a, de j = Some a) js l.
Proof.
  cbn [de list_serde]. assert (Decision (∃ js, j = JArr js)) as [[js ->]|Hj].
  { destruct j as [| | | |js| |]; first [by left; exists js|right; by intros [? ?]]. }
  - rewrite visit_seq_array, mapM_Some. naive_solver.
  - rewrite visit_seq_other by (intros js ->; by apply Hj; exists js). naive_solver.
Qed.

End derived.

(** The values of a literal list of members. *)
Ltac member_values ms :=
  lazymatch ms with
  | [] => constr:(@nil Json)
  | (_, ?v) :: ?ms => let vs := member_values ms in constr:(v :: vs)
  end.

(** Reads a struct that is written out. *)
Ltac visit_written Hlaws :=
  match goal with
  | |- context [visit_struct ?deny ?names (JObj ?ms)] =>
      let js := member_values ms in
      let E := fresh in
      assert (visit_struct deny names (JObj ms) = Some (Some <$> js)) as E
        by (apply (visit_zip Hlaws deny names js);
            [by apply (bool_decide_unpack _); vm_compute|done]);
      rewrite E; clear E
  | |- context [visit_tagged ?tag (JObj ((?tag, JStr ?name) :: ?rest))] =>
      rewrite (visit_tag_object Hlaws tag name rest)
        by by apply (bool_decide_unpack _); vm_compute
  end.

(** Reads back what was written, with the round trips of the parts in the hint
    database. *)
Create HintDb roundtrip.

Ltac roundtrip Hlaws :=
  repeat first
    [ progress visit_written Hlaws
    | progress cbn [mbind option_bind fmap option_fmap option_map list_fmap required]
    | rewrite decide_True by done
    | rewrite decide_False by done
    | match goal with
      | |- context [@mbind option _ _ _ _ ?d] =>
          let E := fresh in
          eassert (d = Some _) as E by (solve [eauto 4 with roundtrip]); rewrite E; clear E
      | |- context [@fmap option _ _ _ _ ?d] =>
          let E := fresh in
          eassert (d = Some _) as E by (solve [eauto 4 with roundtrip]); rewrite E; clear E
      end ];
  try done.

(** What is written fits the limits of the reader, with that of the parts in the hint
    database. *)
Create HintDb readable.

Ltac readable :=
  repeat first
    [ exact I
    | solve [eauto 4 with readable]
    | apply readable_uint; solve [assumption | eapply N.le_trans; [eassumption|by vm_compute]]
    | apply readable_object; repeat (apply Forall_cons_2; cbn [snd]); [..|apply Forall_nil_2] ].

(** ** A concrete codec

    The laws can hold: documents as the bits of their position in an enumeration. *)

Fixpoint bits_of (p : positive) : list byte :=
  match p with
  | xH => []
  | xO p => x00 :: bits_of p
  | xI p => x01 :: bits_of p
  end.

Fixpoint of_bits (l : list byte) : option positive :=
  match l with
  | [] => Some xH
  | x00 :: l => xO <$> of_bits l
  | x01 :: l => xI <$> of_bits l
  | _ => None
  end.

Lemma of_bits_of p : of_bits (bits_of p) = Some p.
Proof. induction p as [p IH|p IH|]; cbn; [by rewrite IH..|done]. Qed.

Module Reference.

Fixpoint json_tree (j : Json) : gen_tree (bool + Z + string) :=
  match j with
  | JNull => GenNode 0 []
  | JBool b => GenLeaf (inl (inl b))
  | JInt z => GenLeaf (inl (inr z))
  | JStr s => GenLeaf (inr s)
  | JArr l => GenNode 1 (map json_tree l)
  | JObj ms => GenNode 2 (map (λ '(k, v), GenNode 0 [GenLeaf (inr k); json_tree v]) ms)
  | JFloat s => GenNode 3 [GenLeaf (inr s)]
  end.

Fixpoint tree_json (t : gen_tree (bool + Z + string)) : Json :=
  match t with
  | GenLeaf (inl (inl b)) => JBool b
  | GenLeaf (inl (inr z)) => JInt z
  | GenLeaf (inr s) => JStr s
  | GenNode 1 l => JArr (map tree_json l)
  | GenNode 2 l =>
      JObj (map (λ t, match t with
                      | GenNode _ [GenLeaf (inr k); v] => (k, tree_json v)
                      | _ => (EmptyString, JNull)
                      end) l)
  | GenNode 3 [GenLeaf (inr s)] => JFloat s
  | GenNode _ _ => JNull
  end.

Lemma tree_json_tree : ∀ j, tree_json (json_tree j) = j.
Proof.
  fix IH 1. intros [|b|z|s|l|ms|s]; cbn [json_tree tree_json]; try done; f_equal.
  - induction l as [|j l IHl]; [done|]. cbn. by rewrite IH, IHl.
  - induction ms as [|[k v] ms IHms]; [done|]. cbn. by rewrite IH, IHms.
Qed.

Definition document_bytes (j : Json) : list byte := bits_of (encode (json_tree j)).

Definition document_of_bytes (l : list byte) : option Json :=
  p ← of_bits l; tree_json <$> decode p.

Lemma document_roundtrip j : document_of_bytes (document_bytes j) = Some j.
Proof.
  unfold document_of_bytes, document_bytes. rewrite of_bits_of. cbn.
  rewrite decode_encode. cbn. by rewrite tree_json_tree.
Qed.

Definition duration_document (d : Duration) : Json :=
  JObj [("secs", JInt (Z.of_N (d `div` nanos_per_sec)));
        ("nanos", JInt (Z.of_N (d `mod` nanos_per_sec)))].

Definition document_duration (j : Json) : option Duration :=
  match j with
  | JObj ms =>
      match object_fields true ["secs"; "nanos"] ms with
      | Some [Some (JInt s); Some (JInt n)] =>
          if decide (0 ≤ s ∧ 0 ≤ n)%Z then Some (Z.to_N s * nanos_per_sec + Z.to_N n)%N else None
      | _ => None
      end
  | _ => None
  end.

#[export] Instance serde : SerdeJson := {
  from_slice A de l := document_of_bytes l ≫= de;
  to_vec := document_bytes;
  visit_uint max j :=
    match j with
    | JInt z => if decide (0 ≤ z ≤ Z.of_N max)%Z then Some (Z.to_N z) else None
    | _ => None
    end;
  visit_i64 j :=
    match j with
    | JInt z => if decide (- 2 ^ 63 ≤ z < 2 ^ 63)%Z then Some z else None
    | _ => None
    end;
  visit_str j := match j with JStr s => Some s | _ => None end;
  visit_option A de j := match j with JNull => Some None | _ => Some <$> de j end;
  visit_seq A de j := match j with JArr l => mapM de l | _ => None end;
  visit_struct deny names j := match j with JObj ms => object_fields deny names ms | _ => None end;
  visit_enum j := match j with JStr s => Some s | _ => None end;
  visit_tagged tag j :=
    match j with
    | JObj ms => (λ '(name, rest), (name, JObj rest)) <$> object_tag tag ms
    | _ => None
    end;
  duration_ser := duration_document;
  duration_de := document_duration
}.

Lemma serde_laws : SerdeJsonLaws.
Proof.
  split; try done.
  - intros A de j _. change (document_of_bytes (document_bytes j) ≫= de = de j).
    by rewrite document_roundtrip.
  - intros A de j a. change (document_of_bytes (document_bytes j) ≫= de = Some a → de j = Some a).
    by rewrite document_roundtrip.
  - intros A path names k ms de.
    assert (∀ j, from_slice de (to_vec j) = de j) as Hread.
    { intros j. change (document_of_bytes (document_bytes j) ≫= de = de j).
      by rewrite document_roundtrip. }
    rewrite !Hread. unfold de. clear de Hread. induction path as [|n path IH].
    + cbn. by rewrite object_fields_filter.
    + cbn [field_at nest foldr]. unfold one_field. cbn [visit_struct serde].
      assert (∀ j, object_fields false [n] [(n, j)] = Some [Some j]) as Hn.
      { intros j. apply (object_fields_zip false [n] [j]); [apply NoDup_singleton|done]. }
      rewrite !Hn. exact IH.
  - intros A de l a. change (document_of_bytes l ≫= de = Some a → ∃ j, de j = Some a).
    intros (j & _ & Hj)%bind_Some. by exists j.
  - intros max [] Hj; try done. by destruct (Hj z).
  - intros z Hz. cbn -[Z.pow]. by rewrite decide_True.
  - intros [] Hj; try done. by destruct (Hj s).
  - intros A de [] Hj; done.
  - intros A de [] Hj; try done. by destruct (Hj l).
  - by intros deny names [].
  - intros [] _ Hj; try done. by destruct (Hj s).
  - by intros tag [].
  - intros d _. cbn [duration_de duration_ser serde duration_document document_duration].
    change (object_fields true ["secs"; "nanos"] _) with
      (object_fields true ["secs"; "nanos"] (zip ["secs"; "nanos"]
        [JInt (Z.of_N (d `div` nanos_per_sec)); JInt (Z.of_N (d `mod` nanos_per_sec))])).
    rewrite object_fields_zip; [|by apply (bool_decide_unpack _); vm_compute|done].
    cbn [fmap list_fmap]. rewrite decide_True by (split; apply N2Z.is_nonneg). rewrite !N2Z.id. f_equal. symmetry.
    rewrite (N.mul_comm _ nanos_per_sec). apply N.Div0.div_mod.
Qed.

End Reference.
