(* ===== verification/JsonText.v ===== *)
(** * JSON documents as text

    [serde_json] on text: [to_string], [from_str], and what of the JSON grammar the
    development needs: where the text of an object or array ends.  A scanner of
    brackets and strings says it, and shows that text which breaks off inside a document
    and goes on with another document is no JSON. *)

From Stdlib Require Import Strings.Ascii.
From S2P Require Import Prelude Text Json.

(** ** Scanning *)

(** How far a text is into a document: before it, with so many brackets open beyond the
    first, in a string there, behind a backslash of that string, after it, or no
    document. *)
Inductive scan_state : Type :=
  | Before
  | Opened (d : nat)
  | InString (d : nat)
  | Escaped (d : nat)
  | After
  | NoDocument.

Definition json_space (c : ascii) : bool :=
  bool_decide (c = " "%char ∨ c = "009"%char ∨ c = "010"%char ∨ c = "013"%char).
Definition opens (c : ascii) : bool := bool_decide (c = "{"%char ∨ c = "["%char).
Definition closes (c : ascii) : bool := bool_decide (c = "}"%char ∨ c = "]"%char).
Definition quote (c : ascii) : bool := bool_decide (c = "034"%char).
Definition backslash (c : ascii) : bool := bool_decide (c = "\"%char).

Definition scan_char (st : scan_state) (c : ascii) : scan_state :=
  match st with
  | Before => if json_space c then Before else if opens c then Opened 0 else NoDocument
  | Opened d =>
      if quote c then InString d
      else if backslash c then NoDocument
      else if opens c then Opened (S d)
      else if closes c then match d with 0 => After | S d => Opened d end
      else Opened d
  | InString d => if quote c then Opened d else if backslash c then Escaped d else InString d
  | Escaped d => InString d
  | After => if json_space c then After else NoDocument
  | NoDocument => NoDocument
  end.

Fixpoint scan (st : scan_state) (s : string) : scan_state :=
  match s with
  | EmptyString => st
  | String c s => scan (scan_char st c) s
  end.

(** ** The library *)

(** [parse_document] is the grammar; [from_str] adds what the type's implementation
    makes of the document, and says why on an error. *)
Class SerdeJsonText `{SerdeJson} : Type := {
  parse_document : string → option Json;
  from_str {A} (de : Json → option A) : string → result A string;
  to_string : Json → string
}.

(** What JSON and [serde_json] document: a text is read as the document it holds, if that
    is [readable]; an error is syntax, data or a limit; a text that holds an object or
    array is delimited by its brackets outside strings; [to_string] writes a [str],
    compactly, on one line, an object from its brace on. *)
Class SerdeJsonTextLaws `{SerdeJsonText} : Prop := {
  from_str_sound {A} (de : Json → option A) s a :
    from_str de s = Ok a → ∃ j, parse_document s = Some j ∧ de j = Some a;
  from_str_reads {A} (de : Json → option A) s j a :
    parse_document s = Some j → readable recursion_limit j → de j = Some a → from_str de s = Ok a;
  parse_to_string j : parse_document (to_string j) = Some j;
  parse_delimited s j : parse_document s = Some j → is_scalar j ∨ scan Before s = After;
  to_string_line j : one_line (to_string j);
  to_string_utf8 j : utf8 (to_string j);
  to_string_brace ms : ∃ s, to_string (JObj ms) = String "{"%char s
}.

(** ** Text that breaks off *)

Lemma scan_app st s t : scan st (s +:+ t) = scan (scan st s) t.
Proof. revert st. induction s as [|c s IH]; intros st; [done|]. apply IH. Qed.

Lemma scan_NoDocument s : scan NoDocument s = NoDocument.
Proof. by induction s. Qed.

Lemma not_Before st s : st ≠ Before → scan st s ≠ Before.
Proof.
  revert st. induction s as [|c s IH]; intros st Hst; [done|]. apply IH.
  destruct st as [|d|d|d| |]; cbn; repeat case_match; done.
Qed.

Lemma opens_not_space c : opens c = true → json_space c = false.
Proof. by intros [->| ->]%bool_decide_eq_true. Qed.

(** The state of a document scanned inside [e + 1] open brackets. *)
Definition nested (e : nat) (st : scan_state) : scan_state :=
  match st with
  | Before | After => Opened e
  | Opened d => Opened (d + S e)
  | InString d => InString (d + S e)
  | Escaped d => Escaped (d + S e)
  | NoDocument => NoDocument
  end.

Lemma space_plain c : json_space c = true →
  quote c = false ∧ backslash c = false ∧ opens c = false ∧ closes c = false.
Proof. by intros [->|[->|[->| ->]]]%bool_decide_eq_true. Qed.

Lemma scan_nested e s : ∀ st, scan st s ≠ NoDocument → scan (nested e st) s = nested e (scan st s).
Proof.
  induction s as [|c s IH]; intros st Hs; [done|]. cbn [scan] in *.
  rewrite <-IH by done. f_equal. assert (scan_char st c ≠ NoDocument) as Hc.
  { intros Hc. rewrite Hc, scan_NoDocument in Hs. done. }
  clear Hs IH. destruct st as [|d|d|d| |]; cbn [nested scan_char] in *; try done.
  - destruct (json_space c) eqn:Hw.
    + by destruct (space_plain c Hw) as (-> & -> & -> & ->).
    + destruct (opens c) eqn:Ho; [|done]. apply bool_decide_eq_true in Ho as [->| ->]; done.
  - destruct (quote c), (backslash c), (opens c), (closes c); try done. by destruct d.
  - by destruct (quote c), (backslash c).
  - destruct (json_space c) eqn:Hw; [|done]. by destruct (space_plain c Hw) as (-> & -> & -> & ->).
Qed.

(** Scanned from inside a string, what is outside strings and what is inside them
    trade places. *)
Definition flipped (st st' : scan_state) : Prop :=
  match st', st with
  | NoDocument, _ => True
  | InString _, (Before | Opened _ | After) => True
  | (Opened _ | After), InString _ => True
  | _, _ => False
  end.

Lemma scan_flipped s : ∀ st st',
  flipped st st' → scan st s ≠ NoDocument → flipped (scan st s) (scan st' s).
Proof.
  induction s as [|c s IH]; intros st st' Hf Hs; [done|]. cbn [scan] in *.
  assert (scan_char st c ≠ NoDocument) as Hc.
  { intros Hc. rewrite Hc, scan_NoDocument in Hs. done. }
  apply IH; [|done]. clear IH Hs.
  destruct st' as [|e|e|e| |], st as [|d|d|d| |]; cbn [flipped] in Hf; try done;
    cbn [scan_char] in *; try exact I.
  - by destruct (quote c), (backslash c), (opens c), (closes c), e.
  - destruct (json_space c) eqn:Hw.
    + by destruct (space_plain c Hw) as (-> & -> & _).
    + destruct (opens c) eqn:Ho; [|done]. apply bool_decide_eq_true in Ho as [->| ->]; exact I.
  - by destruct (quote c), (backslash c), (opens c), (closes c), d.
  - destruct (json_space c) eqn:Hw; [|done]. by destruct (space_plain c Hw) as (-> & -> & _).
  - destruct (json_space c) eqn:Hw; [|exact I]. by destruct (space_plain c Hw) as (-> & -> & _).
Qed.

(** A document cut short, but not to nothing, and followed by another one is none; and
    neither is a whole one followed by another. *)
Lemma torn_no_document s1 s2 k r1 r2 :
  scan Before s1 = After → scan Before s2 = After → 0 < k →
  s1 = String "{"%char r1 → s2 = String "{"%char r2 →
  scan Before (String.substring 0 k s1 +:+ s2) ≠ After.
Proof.
  intros H1 H2 Hk -> ->. destruct k as [|k]; [lia|]. rewrite scan_app.
  set (st := scan Before (String.substring 0 (S k) (String "{"%char r1))).
  assert (st ≠ Before) as Hst.
  { unfold st. cbn [String.substring scan]. by apply not_Before. }
  clearbody st. clear H1.
  change (scan (Opened 0) r2 = After) in H2. cbn [scan].
  assert (∀ e, scan (InString e) r2 ≠ After) as Hstring.
  { intros e Ha. pose proof (scan_flipped r2 (Opened 0) (InString e)) as Hf.
    rewrite H2, Ha in Hf. by apply Hf. }
  destruct st as [|d|d|d| |]; [done|..|by rewrite scan_NoDocument];
    [|apply Hstring|apply Hstring|by cbn; rewrite scan_NoDocument].
  change (scan (Opened (S d)) r2 ≠ After). intros Ha. pose proof (scan_nested d r2 (Opened 0)) as Hn.
  cbn [nested] in Hn. rewrite H2 in Hn. cbn [nested] in Hn.
  change (0 + S d) with (S d) in Hn. rewrite Hn in Ha by done. done.
Qed.

(** ** Lines *)

Lemma has_char_substring c k s : has_char c s = false → has_char c (String.substring 0 k s) = false.
Proof.
  revert k. induction s as [|d s IH]; intros [|k]; cbn; try done.
  intros [-> ?]%orb_false_iff. by apply IH.
Qed.

Lemma brace_not_blank s : is_blank (String "{"%char s) = false.
Proof. by destruct s as [|b [|c s]]. Qed.

Lemma substring_app_le k s t :
  k ≤ String.length s → String.substring 0 k (s +:+ t) = String.substring 0 k s.
Proof.
  revert k. induction s as [|c s IH]; intros [|k] Hk; cbn in Hk; try done; [by destruct t|lia|].
  change (String c (String.substring 0 k (s +:+ t)) = String c (String.substring 0 k s)).
  f_equal. apply IH. lia.
Qed.

(** ** A concrete text codec

    The laws can hold: a document as the bits of its position in an enumeration,
    between braces. *)

Module TextReference.

Fixpoint bits_text (p : positive) : string :=
  match p with
  | xH => "}"
  | xO p => String "0"%char (bits_text p)
  | xI p => String "1"%char (bits_text p)
  end.

Fixpoint text_bits (s : string) : option positive :=
  match s with
  | EmptyString => None
  | String c s =>
      if decide (c = "0"%char) then xO <$> text_bits s
      else if decide (c = "1"%char) then xI <$> text_bits s
      else if decide (c = "}"%char ∧ s = "") then Some xH else None
  end.

Lemma text_bits_text p : text_bits (bits_text p) = Some p.
Proof. by induction p as [p IH|p IH|]; cbn; rewrite ?IH. Qed.

Lemma text_bits_scan s p : text_bits s = Some p → scan (Opened 0) s = After.
Proof.
  revert p. induction s as [|c s IH]; intros p; cbn [text_bits]; [done|].
  case_decide as H0; [|case_decide as H1; [|case_decide as H2; [|done]]].
  - subst c. intros (q & Hq & _)%fmap_Some. by apply (IH q).
  - subst c. intros (q & Hq & _)%fmap_Some. by apply (IH q).
  - by destruct H2 as [-> ->].
Qed.

Lemma bits_text_plain c p : (c = "010" ∨ c = "013")%char → has_char c (bits_text p) = false.
Proof. intros [->| ->]; by induction p. Qed.

Definition brace_bits (s : string) : option positive :=
  match s with
  | String c s => if decide (c = "{"%char) then text_bits s else None
  | EmptyString => None
  end.

Import Reference.

Definition document_of_text (s : string) : option Json :=
  p ← brace_bits s; tree_json <$> decode p.

Definition document_text (j : Json) : string := String "{"%char (bits_text (encode (json_tree j))).

Lemma document_text_length j : 2 ≤ String.length (document_text j).
Proof. unfold document_text. destruct (encode _); cbn; lia. Qed.

#[export] Instance text : SerdeJsonText := {
  parse_document := document_of_text;
  from_str A de s :=
    match document_of_text s ≫= de with Some a => Ok a | None => Err "invalid document" end;
  to_string := document_text
}.

Lemma text_laws : SerdeJsonTextLaws.
Proof.
  split; cbn [parse_document from_str to_string text].
  - intros A de s a. destruct (document_of_text s) as [j|]; cbn; [|done].
    destruct (de j) as [b|] eqn:Hd; [|done]. intros [= <-]. by exists j.
  - intros A de s j a Hj _ Hd. rewrite Hj. cbn. by rewrite Hd.
  - intros j. unfold document_of_text, document_text, brace_bits. rewrite decide_True by done.
    rewrite text_bits_text. cbn [mbind option_bind]. rewrite decode_encode.
    cbn [fmap option_fmap option_map]. by rewrite tree_json_tree.
  - intros s j (p & Hp & _)%bind_Some. right. destruct s as [|c s]; [done|]. unfold brace_bits in Hp.
    case_decide as Hc; [|done]. subst c. by apply text_bits_scan in Hp.
  - intros j. unfold document_text. set (p := encode (json_tree j)). clearbody p. split.
    + cbn. apply bits_text_plain. by left.
    + cbn. apply bits_text_plain. by right.
    + by destruct p as [[]|[]|].
  - intros j. unfold document_text, utf8. set (p := encode (json_tree j)). clearbody p.
    change (utf8_run Utf8Start (bits_text p) = Utf8Start). by induction p.
  - intros ms. by eexists.
Qed.

End TextReference.
