(* ===== verification/Resource.v ===== *)
(** * The protected-resource domain and the schema envelope

    Models [crates/eltanin-core/src/resource.rs] (resource identities, the
    capability map a backend reports, memory topology, requests and
    enforcement results) and [crates/eltanin-core/src/envelope.rs] (the
    [Versioned] wrapper).  The [BTreeMap] of a [ResourceCapabilities] is a
    [gmap]; its ascending-key iteration is written out over the declaration
    order of [Capability]. *)

From S2P Require Import Prelude.

(** ** Schema envelope (envelope.rs) *)

Definition DOMAIN_SCHEMA_VERSION : N := 1.

Record Versioned (T : Type) : Type := mk_Versioned {
  version : N;
  payload : T
}.
Arguments mk_Versioned {T} version payload.
Arguments version {T} _.
Arguments payload {T} _.

#[export] Instance Versioned_eq_dec {T} `{EqDecision T} : EqDecision (Versioned T).
Proof. solve_decision. Defined.

Definition Versioned_current {T} (p : T) : Versioned T :=
  mk_Versioned DOMAIN_SCHEMA_VERSION p.

Record UnsupportedVersion : Type := mk_UnsupportedVersion {
  found : N;
  expected : N
}.

#[export] Instance UnsupportedVersion_eq_dec : EqDecision UnsupportedVersion.
Proof. solve_decision. Defined.

Definition Versioned_into_current {T} (self : Versioned T) : result T UnsupportedVersion :=
  if decide (version self = DOMAIN_SCHEMA_VERSION) then Ok (payload self)
  else Err (mk_UnsupportedVersion (version self) DOMAIN_SCHEMA_VERSION).

(** ** Capabilities *)

Inductive SupportState : Type :=
  | Supported
  | Partial
  | Unsupported
  | NotEvaluated.

#[export] Instance SupportState_eq_dec : EqDecision SupportState.
Proof. solve_decision. Defined.

Definition SupportState_is_proven (self : SupportState) : bool :=
  match self with
  | Supported => true
  | _ => false
  end.

Inductive Capability : Type :=
  | DiscoverResource
  | ObserveResource
  | ObserveWorkload
  | AttributeWorkload
  | Authorize
  | ControlledLaunch
  | DeviceEnforce
  | DeviceRevoke
  | Attest.

#[export] Instance Capability_eq_dec : EqDecision Capability.
Proof. solve_decision. Defined.

(** The variants in declaration order, which is the [Ord] the derive gives
    and so the iteration order of the map. *)
Definition Capability_all : list Capability :=
  [DiscoverResource; ObserveResource; ObserveWorkload; AttributeWorkload;
   Authorize; ControlledLaunch; DeviceEnforce; DeviceRevoke; Attest].

Definition Capability_index (c : Capability) : nat :=
  match c with
  | DiscoverResource => 0 | ObserveResource => 1 | ObserveWorkload => 2
  | AttributeWorkload => 3 | Authorize => 4 | ControlledLaunch => 5
  | DeviceEnforce => 6 | DeviceRevoke => 7 | Attest => 8
  end.

#[export] Instance Capability_countable : Countable Capability.
Proof.
  refine (inj_countable Capability_index (λ n, Capability_all !! n) _).
  by intros [].
Defined.

Record ResourceCapabilities : Type := mk_ResourceCapabilities {
  support : gmap Capability SupportState
}.

#[export] Instance ResourceCapabilities_eq_dec : EqDecision ResourceCapabilities.
Proof. solve_decision. Defined.

(** [collect] into a [BTreeMap]: pairs are inserted left to right, so a later
    pair replaces an earlier one with the same key. *)
Definition collect_support (states : list (Capability * SupportState)) :
    gmap Capability SupportState :=
  foldl (λ m '(c, s), <[c := s]> m) ∅ states.

Definition ResourceCapabilities_new (supported : list Capability) : ResourceCapabilities :=
  mk_ResourceCapabilities (collect_support ((λ c, (c, Supported)) <$> supported)).

Definition ResourceCapabilities_from_states (states : list (Capability * SupportState)) :
    ResourceCapabilities :=
  mk_ResourceCapabilities (collect_support states).

Definition ResourceCapabilities_state_of (self : ResourceCapabilities) (c : Capability) :
    SupportState :=
  default NotEvaluated (support self !! c).

Definition ResourceCapabilities_supports (self : ResourceCapabilities) (c : Capability) : bool :=
  SupportState_is_proven (ResourceCapabilities_state_of self c).

Definition ResourceCapabilities_iter (self : ResourceCapabilities) :
    list (Capability * SupportState) :=
  omap (λ c, pair c <$> support self !! c) Capability_all.

(** ** Identities, resources and requests *)

Record ResourceVendor : Type := mk_ResourceVendor { vendor_str : string }.
Record ResourceKind : Type := mk_ResourceKind { kind_str : string }.

#[export] Instance ResourceVendor_eq_dec : EqDecision ResourceVendor.
Proof. solve_decision. Defined.
#[export] Instance ResourceVendor_countable : Countable ResourceVendor.
Proof. newtype_countable vendor_str mk_ResourceVendor. Defined.
#[export] Instance ResourceKind_eq_dec : EqDecision ResourceKind.
Proof. solve_decision. Defined.
#[export] Instance ResourceKind_countable : Countable ResourceKind.
Proof. newtype_countable kind_str mk_ResourceKind. Defined.

Definition ResourceVendor_fake : ResourceVendor := mk_ResourceVendor "fake".
Definition ResourceKind_gpu : ResourceKind := mk_ResourceKind "gpu".

Record ResourceIdentity : Type := mk_ResourceIdentity {
  vendor : ResourceVendor;
  kind : ResourceKind;
  local_id : string
}.

#[export] Instance ResourceIdentity_eq_dec : EqDecision ResourceIdentity.
Proof. solve_decision. Defined.
#[export] Instance ResourceIdentity_countable : Countable ResourceIdentity.
Proof.
  refine (inj_countable' (λ r, (vendor r, kind r, local_id r))
    (λ '(v, k, l), mk_ResourceIdentity v k l) _). by intros [].
Defined.

Inductive AcceleratorMemory : Type :=
  | Dedicated (total_bytes : N)
  | Unified
  | NotReportable.

#[export] Instance AcceleratorMemory_eq_dec : EqDecision AcceleratorMemory.
Proof. solve_decision. Defined.

Definition AcceleratorMemory_default : AcceleratorMemory := NotReportable.

Record ProtectedResource : Type := mk_ProtectedResource {
  identity : ResourceIdentity;
  capabilities : ResourceCapabilities;
  memory : AcceleratorMemory
}.

#[export] Instance ProtectedResource_eq_dec : EqDecision ProtectedResource.
Proof. solve_decision. Defined.

Inductive Action : Type :=
  | Compute
  | Unknown.

#[export] Instance Action_eq_dec : EqDecision Action.
Proof. solve_decision. Defined.

Record ComputeRequest : Type := mk_ComputeRequest {
  resource : ResourceIdentity;
  action : Action
}.

#[export] Instance ComputeRequest_eq_dec : EqDecision ComputeRequest.
Proof. solve_decision. Defined.

Inductive EnforcementResult : Type :=
  | Allowed
  | EDenied (reason : string)
  | EUnsupported (capability : Capability)
  | EError (message : string).

#[export] Instance EnforcementResult_eq_dec : EqDecision EnforcementResult.
Proof. solve_decision. Defined.

(** ** Lemmas *)

Lemma Capability_all_elem c : c ∈ Capability_all.
Proof. destruct c; cbn; set_solver. Qed.

Lemma Versioned_into_current_Ok {T} (e : Versioned T) p :
  Versioned_into_current e = Ok p ↔ version e = DOMAIN_SCHEMA_VERSION ∧ payload e = p.
Proof. unfold Versioned_into_current. cases; naive_solver. Qed.

Lemma collect_support_snoc states c s :
  collect_support (states ++ [(c, s)]) = <[c := s]> (collect_support states).
Proof. unfold collect_support. by rewrite foldl_snoc. Qed.

(** Lookup in a collected map finds the last pair with that key. *)
Lemma collect_support_lookup states c s :
  collect_support states !! c = Some s ↔
  ∃ pre post, states = pre ++ (c, s) :: post ∧ c ∉ post.*1.
Proof.
  induction states as [|[c' s'] states IH] using rev_ind.
  { split; [done|]. intros (? & ? & ?%app_cons_not_nil & _); done. }
  rewrite collect_support_snoc, lookup_insert. case_decide as Hc; simplify_eq.
  - split.
    + intros [= ->]. exists states, []. set_solver.
    + intros (pre & post & Heq & Hni).
      destruct post as [|y post _] using rev_ind.
      * apply app_inj_tail in Heq. naive_solver.
      * rewrite app_comm_cons, (assoc_L (++)) in Heq. apply app_inj_tail in Heq as [_ <-].
        rewrite fmap_app in Hni. set_solver.
  - rewrite IH. split.
    + intros (pre & post & -> & Hni). exists pre, (post ++ [(c', s')]).
      rewrite <-(assoc_L (++)). split; [done|]. rewrite fmap_app. set_solver.
    + intros (pre & post & Heq & Hni).
      destruct post as [|y post _] using rev_ind.
      * apply app_inj_tail in Heq. naive_solver.
      * rewrite app_comm_cons, (assoc_L (++)) in Heq.
        apply app_inj_tail in Heq as [-> <-].
        exists pre, post. rewrite fmap_app in Hni. set_solver.
Qed.
