(* ===== verification/Identity.v ===== *)
(** * Workload identity and provenance

    Models [crates/eltanin-core/src/identity.rs] (evidence with its trust
    source, the two three-valued identity comparisons, the execution context)
    and [crates/eltanin-core/src/provenance.rs] (the context/request pair a
    lease is bound to). *)

From S2P Require Import Prelude Resource.

(** ** Evidence *)

Inductive EvidenceSource : Type :=
  | KernelObserved
  | BestEffort
  | SelfAsserted.

#[export] Instance EvidenceSource_eq_dec : EqDecision EvidenceSource.
Proof. solve_decision. Defined.

Inductive Evidence (T : Type) : Type :=
  | Present (value : T) (source : EvidenceSource)
  | Missing (reason : string)
  | EvUnsupported.
Arguments Present {T} value source.
Arguments Missing {T} reason.
Arguments EvUnsupported {T}.

#[export] Instance Evidence_eq_dec {T} `{EqDecision T} : EqDecision (Evidence T).
Proof. solve_decision. Defined.

Definition Evidence_is_present {T} (self : Evidence T) : bool :=
  match self with
  | Present _ _ => true
  | _ => false
  end.

Definition Evidence_value {T} (self : Evidence T) : option T :=
  match self with
  | Present v _ => Some v
  | _ => None
  end.

(** ** Workloads *)

(** [ProcessStartToken] is an opaque [u64]. *)
Record ProcessStartToken : Type := mk_ProcessStartToken { token : N }.

#[export] Instance ProcessStartToken_eq_dec : EqDecision ProcessStartToken.
Proof. solve_decision. Defined.

Record ProcessAncestor : Type := mk_ProcessAncestor {
  anc_pid : N;
  anc_start : Evidence ProcessStartToken;
  anc_executable_path : Evidence string
}.

#[export] Instance ProcessAncestor_eq_dec : EqDecision ProcessAncestor.
Proof. solve_decision. Defined.

Inductive IdentityComparison : Type :=
  | Same
  | Different
  | Indeterminate.

#[export] Instance IdentityComparison_eq_dec : EqDecision IdentityComparison.
Proof. solve_decision. Defined.

Record WorkloadIdentity : Type := mk_WorkloadIdentity {
  pid : N;
  process_start : Evidence ProcessStartToken;
  uid : Evidence N;
  gid : Evidence N;
  executable_path : Evidence string;
  executable_hash : Evidence string;
  ancestry : list ProcessAncestor
}.

#[export] Instance WorkloadIdentity_eq_dec : EqDecision WorkloadIdentity.
Proof. solve_decision. Defined.

Definition WorkloadIdentity_compare_process (self other : WorkloadIdentity) :
    IdentityComparison :=
  match process_start self, process_start other with
  | Present a source_a, Present b source_b =>
      if decide (source_a ≠ SelfAsserted ∧ source_b ≠ SelfAsserted) then
        if decide (pid self = pid other ∧ a = b) then Same else Different
      else Indeterminate
  | _, _ => Indeterminate
  end.

Definition WorkloadIdentity_compare_evidence {T} `{EqDecision T} (a b : Evidence T) :
    option IdentityComparison :=
  match a, b with
  | Present x source_x, Present y source_y =>
      if decide (source_x ≠ SelfAsserted ∧ source_y ≠ SelfAsserted) then
        Some (if decide (x = y) then Same else Different)
      else None
  | _, _ => None
  end.

Definition WorkloadIdentity_compare_executable (self other : WorkloadIdentity) :
    IdentityComparison :=
  match WorkloadIdentity_compare_evidence (executable_hash self) (executable_hash other) with
  | Some comparison => comparison
  | None =>
      match WorkloadIdentity_compare_evidence
              (executable_path self) (executable_path other) with
      | Some comparison => comparison
      | None => Indeterminate
      end
  end.

Record ExecutionContext : Type := mk_ExecutionContext {
  workload : WorkloadIdentity;
  cgroup_path : Evidence string;
  namespace_hint : Evidence string;
  container_hint : Evidence string;
  session_origin : Evidence string
}.

#[export] Instance ExecutionContext_eq_dec : EqDecision ExecutionContext.
Proof. solve_decision. Defined.

(** ** Provenance (provenance.rs) *)

Record ProvenanceRecord : Type := mk_ProvenanceRecord {
  context : ExecutionContext;
  request : ComputeRequest
}.

#[export] Instance ProvenanceRecord_eq_dec : EqDecision ProvenanceRecord.
Proof. solve_decision. Defined.

Definition ProvenanceRecord_new (c : ExecutionContext) (r : ComputeRequest) :
    ProvenanceRecord :=
  mk_ProvenanceRecord c r.

(** ** Trusted evidence

    [trusted e v]: [e] reports [v] and the report is not the workload's own
    claim.  The comparisons are characterised through it. *)

Definition trusted {T} (e : Evidence T) (v : T) : Prop :=
  ∃ s, e = Present v s ∧ s ≠ SelfAsserted.

Definition untrusted {T} (e : Evidence T) : Prop := ∀ v, ¬ trusted e v.

Lemma trusted_fun {T} (e : Evidence T) v w : trusted e v → trusted e w → v = w.
Proof. intros (? & -> & _) (? & ? & _). by simplify_eq. Qed.

Lemma trusted_or_untrusted {T} (e : Evidence T) : (∃ v, trusted e v) ∨ untrusted e.
Proof.
  unfold untrusted, trusted. destruct e as [v s| |]; [|right; naive_solver..].
  destruct (decide (s = SelfAsserted)); [right|left]; naive_solver.
Qed.

Lemma trusted_Present {T} (v : T) s : s ≠ SelfAsserted → trusted (Present v s) v.
Proof. intros ?. by exists s. Qed.
Lemma untrusted_SelfAsserted {T} (v : T) : untrusted (Present v SelfAsserted).
Proof. by intros w (s & [= -> <-] & Hs). Qed.
Lemma untrusted_Missing {T} r : untrusted (@Missing T r).
Proof. by intros w (s & ? & Hs). Qed.
Lemma untrusted_Unsupported {T} : untrusted (@EvUnsupported T).
Proof. by intros w (s & ? & Hs). Qed.
#[export] Hint Resolve trusted_Present untrusted_SelfAsserted untrusted_Missing
  untrusted_Unsupported : eltanin.

(** A pair of sources that are not both better than self-asserted. *)
Lemma source_pair_untrusted {T} (v w : T) sx sy :
  ¬ (sx ≠ SelfAsserted ∧ sy ≠ SelfAsserted) →
  untrusted (Present v sx) ∨ untrusted (Present w sy).
Proof.
  intros Hs. destruct (decide (sx = SelfAsserted)) as [->|]; [auto with eltanin|].
  destruct (decide (sy = SelfAsserted)) as [->|]; [auto with eltanin|]. by destruct Hs.
Qed.
#[export] Hint Resolve source_pair_untrusted : eltanin.

Lemma compare_evidence_spec {T} `{EqDecision T} (a b : Evidence T) :
  match WorkloadIdentity_compare_evidence a b with
  | Some Same => ∃ v, trusted a v ∧ trusted b v
  | Some Different => ∃ v w, trusted a v ∧ trusted b w ∧ v ≠ w
  | Some Indeterminate => False
  | None => untrusted a ∨ untrusted b
  end.
Proof.
  unfold WorkloadIdentity_compare_evidence.
  destruct a as [x sx| |], b as [y sy| |]; auto with eltanin.
  case_decide as Hs; [|auto with eltanin].
  case_decide; subst; naive_solver eauto with eltanin.
Qed.

Lemma compare_evidence_comm {T} `{EqDecision T} (a b : Evidence T) :
  WorkloadIdentity_compare_evidence a b = WorkloadIdentity_compare_evidence b a.
Proof.
  destruct a, b; cbn; try done. repeat case_decide; naive_solver.
Qed.

(** Both start tokens as reports that are trusted or not; in the second case
    neither comparison is possible. *)
Lemma compare_process_spec (a b : WorkloadIdentity) :
  match WorkloadIdentity_compare_process a b with
  | Same => pid a = pid b ∧ ∃ t, trusted (process_start a) t ∧ trusted (process_start b) t
  | Different => ∃ t u, trusted (process_start a) t ∧ trusted (process_start b) u ∧
                        ¬ (pid a = pid b ∧ t = u)
  | Indeterminate => untrusted (process_start a) ∨ untrusted (process_start b)
  end.
Proof.
  unfold WorkloadIdentity_compare_process.
  destruct (process_start a) as [x sx| |], (process_start b) as [y sy| |];
    auto with eltanin.
  case_decide as Hs; [|auto with eltanin].
  case_decide as Heq.
  - destruct Heq, Hs; subst. split; [done|]. eauto with eltanin.
  - destruct Hs. exists x, y. split_and!; auto with eltanin.
Qed.

Lemma compare_process_Same_iff (a b : WorkloadIdentity) :
  WorkloadIdentity_compare_process a b = Same ↔
  pid a = pid b ∧ ∃ t, trusted (process_start a) t ∧ trusted (process_start b) t.
Proof.
  pose proof (compare_process_spec a b) as H. unfold untrusted in H.
  destruct (WorkloadIdentity_compare_process a b); [done| |naive_solver].
  destruct H as (t & u & Ht & Hu & Hne). split; [done|]. intros (Hp & v & Hv & Hw).
  destruct Hne. split; [done|]. trans v; [|symmetry]; by eapply trusted_fun.
Qed.

Lemma compare_process_Different_iff (a b : WorkloadIdentity) :
  WorkloadIdentity_compare_process a b = Different ↔
  ∃ t u, trusted (process_start a) t ∧ trusted (process_start b) u ∧
         ¬ (pid a = pid b ∧ t = u).
Proof.
  pose proof (compare_process_spec a b) as H. unfold untrusted in H.
  destruct (WorkloadIdentity_compare_process a b); [|done|naive_solver].
  destruct H as (Hp & v & Hv & Hw). split; [done|]. intros (t & u & Ht & Hu & Hne).
  destruct Hne. split; [done|]. trans v; [|symmetry]; by eapply trusted_fun.
Qed.

Lemma compare_process_comm (a b : WorkloadIdentity) :
  WorkloadIdentity_compare_process a b = WorkloadIdentity_compare_process b a.
Proof.
  unfold WorkloadIdentity_compare_process.
  destruct (process_start a), (process_start b); try done.
  repeat case_decide; naive_solver.
Qed.

Lemma compare_executable_Same_iff (a b : WorkloadIdentity) :
  WorkloadIdentity_compare_executable a b = Same ↔
  (∃ h, trusted (executable_hash a) h ∧ trusted (executable_hash b) h) ∨
  ((untrusted (executable_hash a) ∨ untrusted (executable_hash b)) ∧
   ∃ p, trusted (executable_path a) p ∧ trusted (executable_path b) p).
Proof.
  unfold WorkloadIdentity_compare_executable.
  pose proof (compare_evidence_spec (executable_hash a) (executable_hash b)) as Hh.
  pose proof (compare_evidence_spec (executable_path a) (executable_path b)) as Hp.
  destruct (WorkloadIdentity_compare_evidence (executable_hash a) _) as [[]|].
  - split; [|done]. intros _. by left.
  - destruct Hh as (v & w & Hv & Hw & Hne). split; [done|].
    intros [(h & H1 & H2)|([Hu|Hu] & _)]; [|by destruct (Hu v)|by destruct (Hu w)].
    destruct Hne. trans h; [|symmetry]; by eapply trusted_fun.
  - done.
  - assert (∀ h, trusted (executable_hash a) h → trusted (executable_hash b) h → False)
      as Hnh by (unfold untrusted in Hh; naive_solver).
    destruct (WorkloadIdentity_compare_evidence (executable_path a) _) as [[]|].
    + naive_solver.
    + destruct Hp as (v & w & Hv & Hw & Hne). split; [done|].
      intros [(h & H1 & H2)|(_ & p & H1 & H2)]; [naive_solver|].
      destruct Hne. trans p; [|symmetry]; by eapply trusted_fun.
    + done.
    + split; [done|]. unfold untrusted in Hp. naive_solver.
Qed.

Lemma compare_executable_Different_iff (a b : WorkloadIdentity) :
  WorkloadIdentity_compare_executable a b = Different ↔
  (∃ h h', trusted (executable_hash a) h ∧ trusted (executable_hash b) h' ∧ h ≠ h') ∨
  ((untrusted (executable_hash a) ∨ untrusted (executable_hash b)) ∧
   ∃ p p', trusted (executable_path a) p ∧ trusted (executable_path b) p' ∧ p ≠ p').
Proof.
  assert (∀ (x y : Evidence string) v w w', trusted x v → trusted y v → trusted x w →
    trusted y w' → w = w') as Hfun.
  { intros x y v w w' Hx Hy Hx' Hy'. trans v; [|symmetry]; eapply trusted_fun; eauto. }
  unfold WorkloadIdentity_compare_executable.
  pose proof (compare_evidence_spec (executable_hash a) (executable_hash b)) as Hh.
  pose proof (compare_evidence_spec (executable_path a) (executable_path b)) as Hp.
  destruct (WorkloadIdentity_compare_evidence (executable_hash a) _) as [[]|].
  - destruct Hh as (v & Hv & Hw). split; [done|].
    intros [(h & h' & ? & ? & Hne)|([Hu|Hu] & _)]; [|by destruct (Hu v)..].
    destruct Hne. by apply (Hfun (executable_hash a) (executable_hash b) v).
  - split; [by left|done].
  - done.
  - assert (∀ h h', trusted (executable_hash a) h → trusted (executable_hash b) h' → False)
      as Hnh by (intros h h' ??; destruct Hh as [Hu|Hu]; by eapply Hu).
    destruct (WorkloadIdentity_compare_evidence (executable_path a) _) as [[]|].
    + destruct Hp as (v & Hv & Hw). split; [done|].
      intros [(h & h' & ? & ? & _)|(_ & q & q' & ? & ? & Hne)]; [by destruct (Hnh h h')|].
      destruct Hne. by apply (Hfun (executable_path a) (executable_path b) v).
    + split; [by right|done].
    + done.
    + split; [done|].
      intros [(h & h' & ? & ? & _)|(_ & q & q' & ? & ? & _)]; [by destruct (Hnh h h')|].
      destruct Hp as [Hu|Hu]; exfalso; by eapply Hu.
Qed.
