(* ===== verification/Policy.v ===== *)
(** * Authorization policy

    Models [crates/eltanin-core/src/policy.rs]: evidence matches and their
    trust floors, three-valued rule evaluation, validation of a policy document
    and the deny-overrides decision.  Loops with early returns are [Fixpoint]s
    over the same accumulators; a [BTreeSet] is a [gset]. *)

From S2P Require Import Prelude Resource Identity.

(** ** Identifiers *)

Record PolicyId : Type := mk_PolicyId { policy_id_str : string }.
Record RuleId : Type := mk_RuleId { rule_id_str : string }.

#[export] Instance PolicyId_eq_dec : EqDecision PolicyId.
Proof. solve_decision. Defined.
#[export] Instance RuleId_eq_dec : EqDecision RuleId.
Proof. solve_decision. Defined.
#[export] Instance RuleId_countable : Countable RuleId.
Proof. newtype_countable rule_id_str mk_RuleId. Defined.

(** ** Conditions *)

Inductive Effect : Type :=
  | Allow
  | Deny.

#[export] Instance Effect_eq_dec : EqDecision Effect.
Proof. solve_decision. Defined.

Inductive TrustFloor : Type :=
  | FloorKernelObserved
  | FloorBestEffort.

#[export] Instance TrustFloor_eq_dec : EqDecision TrustFloor.
Proof. solve_decision. Defined.

Definition TrustFloor_admits (self : TrustFloor) (source : EvidenceSource) : bool :=
  match self, source with
  | FloorKernelObserved, KernelObserved
  | FloorBestEffort, (KernelObserved | BestEffort) => true
  | _, SelfAsserted
  | FloorKernelObserved, BestEffort => false
  end.

Record EvidenceMatch (T : Type) : Type := mk_EvidenceMatch {
  em_expected : T;
  em_min_trust : TrustFloor
}.
Arguments mk_EvidenceMatch {T} em_expected em_min_trust.
Arguments em_expected {T} _.
Arguments em_min_trust {T} _.

#[export] Instance EvidenceMatch_eq_dec {T} `{EqDecision T} : EqDecision (EvidenceMatch T).
Proof. solve_decision. Defined.

Inductive ConditionOutcome : Type :=
  | Matched
  | NotMatched
  | CondIndeterminate.

#[export] Instance ConditionOutcome_eq_dec : EqDecision ConditionOutcome.
Proof. solve_decision. Defined.

Definition EvidenceMatch_evaluate {T} `{EqDecision T} (self : EvidenceMatch T)
    (evidence : Evidence T) : ConditionOutcome :=
  match evidence with
  | Present value source =>
      if bool_decide (value = em_expected self) && TrustFloor_admits (em_min_trust self) source
      then Matched else NotMatched
  | Missing _ | EvUnsupported => CondIndeterminate
  end.

Definition EvidenceMatch_matches {T} `{EqDecision T} (self : EvidenceMatch T)
    (evidence : Evidence T) : bool :=
  bool_decide (EvidenceMatch_evaluate self evidence = Matched).

Inductive Condition : Type :=
  | Uid (m : EvidenceMatch N)
  | Gid (m : EvidenceMatch N)
  | ExecutablePath (m : EvidenceMatch string)
  | ExecutableHash (m : EvidenceMatch string)
  | CgroupPath (m : EvidenceMatch string).

#[export] Instance Condition_eq_dec : EqDecision Condition.
Proof. solve_decision. Defined.

Inductive ConditionKind : Type :=
  | KUid
  | KGid
  | KExecutablePath
  | KExecutableHash
  | KCgroupPath.

#[export] Instance ConditionKind_eq_dec : EqDecision ConditionKind.
Proof. solve_decision. Defined.
#[export] Instance ConditionKind_countable : Countable ConditionKind.
Proof.
  refine (inj_countable
    (λ k, match k with KUid => 0 | KGid => 1 | KExecutablePath => 2
                     | KExecutableHash => 3 | KCgroupPath => 4 end)
    (λ n, [KUid; KGid; KExecutablePath; KExecutableHash; KCgroupPath] !! n) _).
  by intros [].
Defined.

Definition Condition_kind (self : Condition) : ConditionKind :=
  match self with
  | Uid _ => KUid
  | Gid _ => KGid
  | ExecutablePath _ => KExecutablePath
  | ExecutableHash _ => KExecutableHash
  | CgroupPath _ => KCgroupPath
  end.

Definition Condition_evaluate (self : Condition) (context : ExecutionContext) :
    ConditionOutcome :=
  match self with
  | Uid m => EvidenceMatch_evaluate m (uid (workload context))
  | Gid m => EvidenceMatch_evaluate m (gid (workload context))
  | ExecutablePath m => EvidenceMatch_evaluate m (executable_path (workload context))
  | ExecutableHash m => EvidenceMatch_evaluate m (executable_hash (workload context))
  | CgroupPath m => EvidenceMatch_evaluate m (cgroup_path context)
  end.

(** ** Rules *)

Record Rule : Type := mk_Rule {
  rule_id : RuleId;
  rule_effect : Effect;
  rule_resource : ResourceIdentity;
  rule_action : Action;
  conditions : list Condition
}.

#[export] Instance Rule_eq_dec : EqDecision Rule.
Proof. solve_decision. Defined.

(** The [for condition in &self.conditions] loop, with its early return. *)
Fixpoint Rule_evaluate_conditions (cs : list Condition) (context : ExecutionContext)
    (any_indeterminate : bool) : ConditionOutcome :=
  match cs with
  | [] => if any_indeterminate then CondIndeterminate else Matched
  | c :: cs =>
      match Condition_evaluate c context with
      | NotMatched => NotMatched
      | CondIndeterminate => Rule_evaluate_conditions cs context true
      | Matched => Rule_evaluate_conditions cs context any_indeterminate
      end
  end.

Definition Rule_evaluate (self : Rule) (context : ExecutionContext) (req : ComputeRequest) :
    option ConditionOutcome :=
  if decide (rule_resource self ≠ resource req ∨ rule_action self ≠ action req) then None
  else Some (Rule_evaluate_conditions (conditions self) context false).

(** ** Documents, decisions and errors *)

Record PolicyDocument : Type := mk_PolicyDocument {
  doc_id : PolicyId;
  revision : N;
  rules : list Rule
}.

#[export] Instance PolicyDocument_eq_dec : EqDecision PolicyDocument.
Proof. solve_decision. Defined.

Inductive PolicyError : Type :=
  | EmptyPolicyId
  | EmptyRuleId
  | DuplicateRuleId (rule : RuleId)
  | RuleWithoutConditions (rule : RuleId)
  | DuplicateConditionKind (rule : RuleId)
  | UnknownActionInRule (rule : RuleId)
  | PolicyUnsupportedVersion (e : UnsupportedVersion).

#[export] Instance PolicyError_eq_dec : EqDecision PolicyError.
Proof. solve_decision. Defined.

Record PolicyProvenance : Type := mk_PolicyProvenance {
  policy_id : PolicyId;
  policy_revision : N;
  schema_version : N
}.

#[export] Instance PolicyProvenance_eq_dec : EqDecision PolicyProvenance.
Proof. solve_decision. Defined.

Inductive DecisionReason : Type :=
  | NoMatchingRule
  | ExplicitAllow (matched_rules : gset RuleId)
  | ExplicitDeny (matched_rules overridden_allow_rules : gset RuleId)
  | IndeterminateEvidence (indeterminate_rules : gset RuleId).

#[export] Instance DecisionReason_eq_dec : EqDecision DecisionReason.
Proof. solve_decision. Defined.

Record PolicyDecision : Type := mk_PolicyDecision {
  effect : Effect;
  reason : DecisionReason;
  policy : PolicyProvenance
}.

#[export] Instance PolicyDecision_eq_dec : EqDecision PolicyDecision.
Proof. solve_decision. Defined.

(** A validated policy: [PolicySet_from_document] is the code's only way to
    build one. *)
Record PolicySet : Type := mk_PolicySet { document : PolicyDocument }.

#[export] Instance PolicySet_eq_dec : EqDecision PolicySet.
Proof. solve_decision. Defined.

(** ** Validation *)

(** The inner loop: [false] as soon as a condition kind was already seen. *)
Fixpoint distinct_kinds (cs : list Condition) (seen : gset ConditionKind) : bool :=
  match cs with
  | [] => true
  | c :: cs =>
      if decide (Condition_kind c ∈ seen) then false
      else distinct_kinds cs ({[Condition_kind c]} ∪ seen)
  end.

(** The loop over the document's rules; [None] when no rule is rejected. *)
Fixpoint check_rules (rs : list Rule) (seen : gset RuleId) : option PolicyError :=
  match rs with
  | [] => None
  | r :: rs =>
      if decide (rule_id_str (rule_id r) = "") then Some EmptyRuleId
      else if decide (rule_id r ∈ seen) then Some (DuplicateRuleId (rule_id r))
      else if decide (conditions r = []) then Some (RuleWithoutConditions (rule_id r))
      else if negb (distinct_kinds (conditions r) ∅) then
        Some (DuplicateConditionKind (rule_id r))
      else if decide (rule_action r = Unknown) then Some (UnknownActionInRule (rule_id r))
      else check_rules rs ({[rule_id r]} ∪ seen)
  end.

Definition PolicySet_from_document (d : PolicyDocument) : result PolicySet PolicyError :=
  if decide (policy_id_str (doc_id d) = "") then Err EmptyPolicyId
  else match check_rules (rules d) ∅ with
       | Some e => Err e
       | None => Ok (mk_PolicySet d)
       end.

Definition PolicySet_from_versioned (envelope : Versioned PolicyDocument) :
    result PolicySet PolicyError :=
  let? d := map_err PolicyUnsupportedVersion (Versioned_into_current envelope) in
  PolicySet_from_document d.

Definition PolicySet_provenance (self : PolicySet) : PolicyProvenance :=
  mk_PolicyProvenance (doc_id (document self)) (revision (document self))
    DOMAIN_SCHEMA_VERSION.

(** The loop of [resources]: a resource is pushed when first seen. *)
Fixpoint resources_loop (rs : list Rule) (seen : gset ResourceIdentity)
    (acc : list ResourceIdentity) : list ResourceIdentity :=
  match rs with
  | [] => acc
  | r :: rs =>
      if decide (rule_resource r ∈ seen) then resources_loop rs seen acc
      else resources_loop rs ({[rule_resource r]} ∪ seen) (acc ++ [rule_resource r])
  end.

Definition PolicySet_resources (self : PolicySet) : list ResourceIdentity :=
  resources_loop (rules (document self)) ∅ [].

(** ** Evaluation *)

Record Hits : Type := mk_Hits {
  allow_hits : gset RuleId;
  deny_hits : gset RuleId;
  indeterminate_deny_hits : gset RuleId
}.

Definition Hits_empty : Hits := mk_Hits ∅ ∅ ∅.

(** One iteration of [evaluate]'s loop. *)
Definition record_hit (context : ExecutionContext) (req : ComputeRequest)
    (h : Hits) (rule : Rule) : Hits :=
  match Rule_evaluate rule context req with
  | None | Some NotMatched => h
  | Some Matched =>
      match rule_effect rule with
      | Allow =>
          mk_Hits ({[rule_id rule]} ∪ allow_hits h) (deny_hits h) (indeterminate_deny_hits h)
      | Deny =>
          mk_Hits (allow_hits h) ({[rule_id rule]} ∪ deny_hits h) (indeterminate_deny_hits h)
      end
  | Some CondIndeterminate =>
      if decide (rule_effect rule = Deny) then
        mk_Hits (allow_hits h) (deny_hits h)
          ({[rule_id rule]} ∪ indeterminate_deny_hits h)
      else h
  end.

Definition conclude (h : Hits) : Effect * DecisionReason :=
  if decide (deny_hits h ≠ ∅) then (Deny, ExplicitDeny (deny_hits h) (allow_hits h))
  else if decide (indeterminate_deny_hits h ≠ ∅) then
    (Deny, IndeterminateEvidence (indeterminate_deny_hits h))
  else if decide (allow_hits h ≠ ∅) then (Allow, ExplicitAllow (allow_hits h))
  else (Deny, NoMatchingRule).

Definition PolicySet_evaluate (self : PolicySet) (context : ExecutionContext)
    (req : ComputeRequest) : PolicyDecision :=
  let h := foldl (record_hit context req) Hits_empty (rules (document self)) in
  let '(eff, why) := conclude h in
  mk_PolicyDecision eff why (PolicySet_provenance self).
