(* ===== verification/PolicySpec.v ===== *)
(** * Policy: abstract specification, refinement and properties

    What [policy.rs] promises, stated without its loops: validity of a
    document as a predicate, a decision as a function of three filtered rule
    sets, and permission as a pair of quantified statements over the rules.
    The loops of [Policy] are shown to implement them. *)

From S2P Require Import Prelude Resource Identity Policy.

(** ** Specification *)

Definition relevant (r : Rule) (q : ComputeRequest) : Prop :=
  rule_resource r = resource q ∧ rule_action r = action q.

(** Every condition is satisfied by what was observed. *)
Definition definitely (c : ExecutionContext) (q : ComputeRequest) (r : Rule) : Prop :=
  relevant r q ∧ Forall (λ cond, Condition_evaluate cond c = Matched) (conditions r).

(** No condition is refuted by what was observed. *)
Definition possibly (c : ExecutionContext) (q : ComputeRequest) (r : Rule) : Prop :=
  relevant r q ∧ Forall (λ cond, Condition_evaluate cond c ≠ NotMatched) (conditions r).

#[export] Instance relevant_dec r q : Decision (relevant r q).
Proof. apply _. Defined.
#[export] Instance definitely_dec c q r : Decision (definitely c q r).
Proof. apply _. Defined.
#[export] Instance possibly_dec c q r : Decision (possibly c q r).
Proof. apply _. Defined.

(** The identifiers of the rules of one effect that satisfy a predicate. *)
Definition ids_where (P : Rule → Prop) `{∀ r, Decision (P r)} (eff : Effect)
    (rs : list Rule) : gset RuleId :=
  list_to_set (rule_id <$> filter (λ r, rule_effect r = eff ∧ P r) rs).

Definition hits_spec (c : ExecutionContext) (q : ComputeRequest) (rs : list Rule) : Hits :=
  mk_Hits (ids_where (definitely c q) Allow rs)
          (ids_where (definitely c q) Deny rs)
          (ids_where (λ r, possibly c q r ∧ ¬ definitely c q r) Deny rs).

Definition decision_spec (p : PolicySet) (c : ExecutionContext) (q : ComputeRequest) :
    PolicyDecision :=
  let h := hits_spec c q (rules (document p)) in
  mk_PolicyDecision (conclude h).1 (conclude h).2 (PolicySet_provenance p).

Definition permitted (p : PolicySet) (c : ExecutionContext) (q : ComputeRequest) : Prop :=
  (∃ r, r ∈ rules (document p) ∧ rule_effect r = Allow ∧ definitely c q r) ∧
  (∀ r, r ∈ rules (document p) → rule_effect r = Deny → ¬ possibly c q r).

(** A document a policy may be built from. *)
Record rule_ok (r : Rule) : Prop := mk_rule_ok {
  rule_id_nonempty : rule_id_str (rule_id r) ≠ "";
  rule_conditions_nonempty : conditions r ≠ [];
  rule_kinds_distinct : NoDup (Condition_kind <$> conditions r);
  rule_action_known : rule_action r ≠ Unknown
}.

Record document_ok (d : PolicyDocument) : Prop := mk_document_ok {
  doc_id_nonempty : policy_id_str (doc_id d) ≠ "";
  doc_rule_ids_distinct : NoDup (rule_id <$> rules d);
  doc_rules_ok : Forall rule_ok (rules d)
}.

(** What each validation error says about the document. *)
Definition defect (d : PolicyDocument) (e : PolicyError) : Prop :=
  match e with
  | EmptyPolicyId => policy_id_str (doc_id d) = ""
  | EmptyRuleId => ∃ r, r ∈ rules d ∧ rule_id_str (rule_id r) = ""
  | DuplicateRuleId i =>
      ∃ pre r post, rules d = pre ++ r :: post ∧ rule_id r = i ∧ i ∈ rule_id <$> pre
  | RuleWithoutConditions i => ∃ r, r ∈ rules d ∧ rule_id r = i ∧ conditions r = []
  | DuplicateConditionKind i =>
      ∃ r, r ∈ rules d ∧ rule_id r = i ∧ ¬ NoDup (Condition_kind <$> conditions r)
  | UnknownActionInRule i => ∃ r, r ∈ rules d ∧ rule_id r = i ∧ rule_action r = Unknown
  | PolicyUnsupportedVersion _ => False
  end.

(** The decision a policy's rules call for, by its stated reason. *)
Definition justified (p : PolicySet) (c : ExecutionContext) (q : ComputeRequest)
    (d : PolicyDecision) : Prop :=
  let rs := rules (document p) in
  match reason d with
  | ExplicitAllow ids => effect d = Allow ∧ permitted p c q ∧
      ids = ids_where (definitely c q) Allow rs
  | ExplicitDeny ids over => effect d = Deny ∧ ids ≠ ∅ ∧
      ids = ids_where (definitely c q) Deny rs ∧ over = ids_where (definitely c q) Allow rs
  | IndeterminateEvidence ids => effect d = Deny ∧ ids ≠ ∅ ∧
      ids = ids_where (possibly c q) Deny rs ∧ ids_where (definitely c q) Deny rs = ∅
  | NoMatchingRule => effect d = Deny ∧
      (∀ r, r ∈ rs → rule_effect r = Deny → ¬ possibly c q r) ∧
      (∀ r, r ∈ rs → rule_effect r = Allow → ¬ definitely c q r)
  end ∧ policy d = PolicySet_provenance p.

(** The evidence a condition looks at, forgetting its type: it was reported
    from a source better than the workload's own claim. *)
Definition condition_trusted (cond : Condition) (c : ExecutionContext) : Prop :=
  match cond with
  | Uid m => trusted (uid (workload c)) (em_expected m)
  | Gid m => trusted (gid (workload c)) (em_expected m)
  | ExecutablePath m => trusted (executable_path (workload c)) (em_expected m)
  | ExecutableHash m => trusted (executable_hash (workload c)) (em_expected m)
  | CgroupPath m => trusted (cgroup_path c) (em_expected m)
  end.

(** Evidence [e'] is what is left of [e] after a collection failure. *)
Definition evidence_lost {T} (e e' : Evidence T) : Prop :=
  e' = e ∨ Evidence_is_present e' = false.

(** [c'] is [c] with some of the matchable evidence lost. *)
Definition context_lost (c c' : ExecutionContext) : Prop :=
  evidence_lost (uid (workload c)) (uid (workload c')) ∧
  evidence_lost (gid (workload c)) (gid (workload c')) ∧
  evidence_lost (executable_path (workload c)) (executable_path (workload c')) ∧
  evidence_lost (executable_hash (workload c)) (executable_hash (workload c')) ∧
  evidence_lost (cgroup_path c) (cgroup_path c').

(** ** Rule evaluation *)

Lemma EvidenceMatch_evaluate_Matched {T} `{EqDecision T} (m : EvidenceMatch T) e :
  EvidenceMatch_evaluate m e = Matched ↔
  ∃ s, e = Present (em_expected m) s ∧ TrustFloor_admits (em_min_trust m) s = true.
Proof.
  destruct e as [v s|w|]; cbn; [|split; [done|by intros (? & ? & ?)]..].
  case_match eqn:Hb.
  - apply andb_true_iff in Hb as [->%bool_decide_eq_true Ha]. split; eauto.
  - split; [done|]. intros (s' & [= -> ->] & Ha). by rewrite Ha, bool_decide_true in Hb.
Qed.

Lemma TrustFloor_admits_not_SelfAsserted f s :
  TrustFloor_admits f s = true → s ≠ SelfAsserted.
Proof. by destruct f, s. Qed.

Lemma Condition_Matched_trusted cond c :
  Condition_evaluate cond c = Matched → condition_trusted cond c.
Proof.
  destruct cond; cbn; intros (s & Hs & Ha%TrustFloor_admits_not_SelfAsserted)%EvidenceMatch_evaluate_Matched;
    by exists s.
Qed.

Lemma conditions_NotMatched cs c b :
  Rule_evaluate_conditions cs c b = NotMatched ↔
  ¬ Forall (λ cond, Condition_evaluate cond c ≠ NotMatched) cs.
Proof.
  revert b. induction cs as [|cond cs IH]; intros b; cbn.
  { destruct b; split; try done; intros H; destruct H; constructor. }
  rewrite Forall_cons. specialize (IH true) as IHt. specialize (IH b).
  destruct (Condition_evaluate cond c); [rewrite IH|tauto|rewrite IHt];
    split; intros H; try (intros [_ ?]; tauto); intros HF; apply H; split; done.
Qed.

Lemma conditions_Matched cs c b :
  Rule_evaluate_conditions cs c b = Matched ↔
  b = false ∧ Forall (λ cond, Condition_evaluate cond c = Matched) cs.
Proof.
  revert b. induction cs as [|cond cs IH]; intros b; cbn.
  { destruct b; (split; [done|by intros [? _]]). }
  rewrite Forall_cons. specialize (IH true) as IHt. specialize (IH b).
  destruct (Condition_evaluate cond c); [rewrite IH; tauto| |rewrite IHt];
    (split; [intros H|intros (? & ? & ?)]); try done. by destruct H.
Qed.

Lemma definitely_possibly c q r : definitely c q r → possibly c q r.
Proof. intros [? H]. split; [done|]. eapply Forall_impl; [exact H|]. cbn. congruence. Qed.
#[export] Hint Resolve definitely_possibly : eltanin.

(** The four results of [Rule::evaluate], in the specification's terms. *)
Lemma Rule_evaluate_spec r c q :
  Rule_evaluate r c q =
  if decide (relevant r q) then
    Some (if decide (definitely c q r) then Matched
          else if decide (possibly c q r) then CondIndeterminate else NotMatched)
  else None.
Proof.
  unfold Rule_evaluate, definitely, possibly, relevant.
  destruct (decide (rule_resource r = resource q)) as [Hr|Hr].
  2: { rewrite decide_True by tauto. by rewrite decide_False by tauto. }
  destruct (decide (rule_action r = action q)) as [Ha|Ha].
  2: { rewrite decide_True by tauto. by rewrite decide_False by tauto. }
  rewrite decide_False by tauto. rewrite (decide_True _ _ (conj Hr Ha)). f_equal.
  pose proof (conditions_Matched (conditions r) c false) as HM.
  pose proof (conditions_NotMatched (conditions r) c false) as HN.
  repeat case_decide.
  - apply HM. tauto.
  - destruct (Rule_evaluate_conditions _ _ _); [|tauto..|done].
    destruct HM as [[_ HM] _]; [done|]. tauto.
  - apply HN. tauto.
Qed.

(** ** The loop of [evaluate] *)

Lemma ids_where_snoc P `{∀ r, Decision (P r)} eff rs r :
  ids_where P eff (rs ++ [r]) =
  if decide (rule_effect r = eff ∧ P r) then {[rule_id r]} ∪ ids_where P eff rs
  else ids_where P eff rs.
Proof.
  unfold ids_where. rewrite filter_app, filter_cons, filter_nil.
  rewrite fmap_app, list_to_set_app_L. case_decide; cbn; set_solver.
Qed.

Lemma elem_of_ids_where P `{∀ r, Decision (P r)} eff rs i :
  i ∈ ids_where P eff rs ↔ ∃ r, r ∈ rs ∧ rule_id r = i ∧ rule_effect r = eff ∧ P r.
Proof.
  unfold ids_where. rewrite elem_of_list_to_set, list_elem_of_fmap.
  setoid_rewrite list_elem_of_filter. naive_solver.
Qed.

Lemma ids_where_empty P `{∀ r, Decision (P r)} eff rs :
  ids_where P eff rs = ∅ ↔ ∀ r, r ∈ rs → rule_effect r = eff → ¬ P r.
Proof.
  rewrite set_eq. setoid_rewrite elem_of_ids_where. set_solver.
Qed.

Lemma evaluate_hits c q rs : foldl (record_hit c q) Hits_empty rs = hits_spec c q rs.
Proof.
  induction rs as [|r rs IH] using rev_ind; [done|].
  rewrite foldl_snoc, IH. unfold hits_spec, record_hit.
  rewrite !ids_where_snoc, Rule_evaluate_spec.
  pose proof (definitely_possibly c q r).
  assert (relevant r q ∨ ¬ possibly c q r) by (unfold possibly; destruct (decide (relevant r q)); naive_solver).
  destruct (rule_effect r);
    repeat case_decide; cbn; try done; naive_solver.
Qed.

Lemma PolicySet_evaluate_spec p c q : PolicySet_evaluate p c q = decision_spec p c q.
Proof.
  unfold PolicySet_evaluate, decision_spec. rewrite evaluate_hits. by destruct (conclude _).
Qed.

Lemma conclude_Allow h :
  (conclude h).1 = Allow ↔
  deny_hits h = ∅ ∧ indeterminate_deny_hits h = ∅ ∧ allow_hits h ≠ ∅.
Proof. unfold conclude. repeat case_decide; naive_solver. Qed.

Lemma ids_where_nonempty P `{∀ r, Decision (P r)} eff rs :
  ids_where P eff rs ≠ ∅ ↔ ∃ r, r ∈ rs ∧ rule_effect r = eff ∧ P r.
Proof.
  split.
  - intros (i & (r & ? & _ & ? & ?)%elem_of_ids_where)%set_choose_L. eauto.
  - intros (r & Hin & He & Hr) Hemp. rewrite ids_where_empty in Hemp. by eapply Hemp.
Qed.

(** Membership only: the sets do not depend on the order of the rules. *)
Lemma ids_where_perm P `{∀ r, Decision (P r)} eff rs rs' :
  rs ≡ₚ rs' → ids_where P eff rs = ids_where P eff rs'.
Proof. intros Hp. apply set_eq. intros i. rewrite !elem_of_ids_where. by setoid_rewrite Hp. Qed.

Lemma evaluate_effect_Allow p c q :
  effect (PolicySet_evaluate p c q) = Allow ↔ permitted p c q.
Proof.
  rewrite PolicySet_evaluate_spec. unfold decision_spec, permitted. cbn [effect].
  rewrite conclude_Allow. unfold hits_spec. cbn [allow_hits deny_hits indeterminate_deny_hits].
  rewrite ids_where_nonempty, !ids_where_empty.
  split.
  - intros (Hd & Hi & Ha). split; [done|].
    intros r Hin He Hp. destruct (decide (definitely c q r)).
    + by eapply Hd.
    + by eapply Hi.
  - intros [Ha Hd]. split_and!; [|by intros r Hin He []; eapply Hd|done].
    intros r' Hin' He' Hr'. eapply Hd; eauto with eltanin.
Qed.

Lemma effect_Deny_iff p c q :
  effect (PolicySet_evaluate p c q) = Deny ↔ ¬ permitted p c q.
Proof. rewrite <-evaluate_effect_Allow. by destruct (effect _). Qed.

(** With no definite deny, the indeterminate ones are all that are possible. *)
Lemma indeterminate_ids c q rs :
  ids_where (definitely c q) Deny rs = ∅ →
  ids_where (λ r, possibly c q r ∧ ¬ definitely c q r) Deny rs =
  ids_where (possibly c q) Deny rs.
Proof.
  rewrite ids_where_empty. intros Hd. apply set_eq. intros i. rewrite !elem_of_ids_where.
  split; intros (r & Hin & Hid & He & Hp); exists r; split_and!; try done; [by destruct Hp|].
  by apply Hd.
Qed.

(** The decision and its reason are the ones the rules call for. *)
Lemma evaluate_justified p c q : justified p c q (PolicySet_evaluate p c q).
Proof.
  pose proof (evaluate_effect_Allow p c q) as HA. revert HA.
  rewrite PolicySet_evaluate_spec. unfold decision_spec, justified, conclude, hits_spec.
  cbn [allow_hits deny_hits indeterminate_deny_hits].
  case_decide as Hd; [by cbn|]. case_decide as Hi.
  { intros _. cbn. by rewrite <-indeterminate_ids. }
  rewrite indeterminate_ids in Hi by done.
  case_decide as Ha; cbn; intros HA.
  - by split_and!; [|apply HA|..].
  - rewrite ids_where_empty in Ha, Hi. by split_and!.
Qed.

(** ** Losing evidence *)

Lemma evidence_lost_outcome {T} `{EqDecision T} (m : EvidenceMatch T) e e' :
  evidence_lost e e' →
  EvidenceMatch_evaluate m e' = EvidenceMatch_evaluate m e ∨
  EvidenceMatch_evaluate m e' = CondIndeterminate.
Proof. intros [->|He]; [by left|]. right. by destruct e'. Qed.

Lemma context_lost_outcome cond c c' :
  context_lost c c' →
  Condition_evaluate cond c' = Condition_evaluate cond c ∨
  Condition_evaluate cond c' = CondIndeterminate.
Proof.
  intros (? & ? & ? & ? & ?). destruct cond; by apply evidence_lost_outcome.
Qed.

Lemma context_lost_definitely c c' q r :
  context_lost c c' → definitely c' q r → definitely c q r.
Proof.
  intros Hl [Hr HF]. split; [done|]. eapply Forall_impl; [exact HF|]. cbn.
  intros cond Hc. destruct (context_lost_outcome cond c c' Hl); congruence.
Qed.

Lemma context_lost_possibly c c' q r :
  context_lost c c' → possibly c q r → possibly c' q r.
Proof.
  intros Hl [Hr HF]. split; [done|]. eapply Forall_impl; [exact HF|]. cbn.
  intros cond Hc. destruct (context_lost_outcome cond c c' Hl); congruence.
Qed.

(** ** Validation *)

Lemma distinct_kinds_spec cs seen :
  distinct_kinds cs seen = true ↔
  NoDup (Condition_kind <$> cs) ∧ ∀ k, k ∈ Condition_kind <$> cs → k ∉ seen.
Proof.
  revert seen. induction cs as [|c cs IH]; intros seen; cbn.
  { split; [|done]. intros _. split; [constructor|set_solver]. }
  rewrite NoDup_cons. case_decide as Hs.
  - split; [done|]. intros [_ H]. destruct (H (Condition_kind c)); set_solver.
  - rewrite IH. set_solver.
Qed.

Lemma rule_checks_ok r :
  rule_id_str (rule_id r) ≠ "" → conditions r ≠ [] →
  distinct_kinds (conditions r) ∅ = true → rule_action r ≠ Unknown → rule_ok r.
Proof. intros ? ? [? _]%distinct_kinds_spec ?. by constructor. Qed.
#[export] Hint Resolve rule_checks_ok : eltanin.

Lemma check_rules_None rs seen :
  check_rules rs seen = None ↔
  Forall rule_ok rs ∧ NoDup (rule_id <$> rs) ∧ ∀ i, i ∈ rule_id <$> rs → i ∉ seen.
Proof.
  revert seen. induction rs as [|r rs IH]; intros seen; cbn.
  { split; [|done]. intros _. split_and!; [constructor..|set_solver]. }
  rewrite Forall_cons, NoDup_cons. split.
  - intros H. repeat case_decide; try done; (case_match eqn:Hk; [done|]); try done.
    apply negb_false_iff in Hk. apply IH in H as (? & ? & Hs).
    split_and!; [by apply rule_checks_ok|done| |done|].
    + intros Hi. apply Hs in Hi. set_solver.
    + intros i [->|Hi]%elem_of_cons; [done|]. apply Hs in Hi. set_solver.
  - intros ([[Hid Hc Hk Ha] HF] & [Hni Hnd] & Hs).
    rewrite decide_False by done.
    rewrite decide_False by (apply Hs, elem_of_cons; by left).
    rewrite decide_False by done.
    rewrite (proj2 (distinct_kinds_spec _ _)) by (split; [done|clear; set_solver]). cbn.
    rewrite decide_False by done. apply IH. split_and!; [done..|].
    intros i Hi. assert (i ∉ seen) by (apply Hs, elem_of_cons; by right).
    assert (i ≠ rule_id r) by congruence. set_solver.
Qed.

(** The prefix already accepted gives [seen]. *)
Lemma check_rules_Some d pre rs e :
  rules d = pre ++ rs →
  check_rules rs (list_to_set (rule_id <$> pre)) = Some e → defect d e.
Proof.
  revert pre. induction rs as [|r rs IH]; intros pre Heq; cbn; [done|].
  assert (r ∈ rules d) as Hin by (rewrite Heq; set_solver).
  case_decide; [intros [= <-]; cbn; eauto|].
  case_decide as Hs; [intros [= <-]|].
  { exists pre, r, rs. split_and!; [done..|]. by apply elem_of_list_to_set in Hs. }
  case_decide; [intros [= <-]; cbn; eauto|].
  case_match eqn:Hk; [intros [= <-]|].
  { exists r. split_and!; [done..|]. intros Hnd. apply negb_true_iff in Hk.
    rewrite (proj2 (distinct_kinds_spec _ _)) in Hk by (split; [done|clear; set_solver]). done. }
  case_decide; [intros [= <-]; cbn; eauto|].
  intros Hrest. apply (IH (pre ++ [r])); [by rewrite Heq, <-(assoc_L (++))|].
  rewrite fmap_app, list_to_set_app_L. cbn. by rewrite (right_id_L ∅ (∪)), (comm_L (∪)).
Qed.

Lemma from_document_Ok d p :
  PolicySet_from_document d = Ok p ↔ document_ok d ∧ document p = d.
Proof.
  unfold PolicySet_from_document. split.
  - case_decide; [done|]. case_match eqn:Hc; [done|]. intros [= <-].
    apply check_rules_None in Hc as (? & ? & _). by split.
  - intros [[Hid Hnd Hok] <-]. rewrite decide_False by done.
    rewrite (proj2 (check_rules_None _ _)) by (split_and!; [done..|set_solver]).
    by destruct p.
Qed.

Lemma from_versioned_Ok v p :
  PolicySet_from_versioned v = Ok p ↔
    version v = DOMAIN_SCHEMA_VERSION ∧ document_ok (payload v) ∧ document p = payload v.
Proof.
  unfold PolicySet_from_versioned, Versioned_into_current.
  case_decide as Hv; cbn; [rewrite from_document_Ok; tauto|]. split; [done|tauto].
Qed.

(** No rule of a policy that was validated speaks of an unknown action. *)
Lemma no_unknown_action v p r :
  PolicySet_from_versioned v = Ok p → r ∈ rules (document p) → rule_action r ≠ Unknown.
Proof.
  intros (_ & [_ _ Hok] & ->)%from_versioned_Ok Hr. rewrite Forall_forall in Hok.
  by apply Hok.
Qed.

Lemma from_document_Err d e : PolicySet_from_document d = Err e → defect d e.
Proof.
  unfold PolicySet_from_document. case_decide; [by intros [= <-]|].
  case_match eqn:Hc; [|done]. intros [= ->]. by apply (check_rules_Some d [] (rules d)).
Qed.

(** ** Resources *)

(** [acc ++] the first occurrences among [rs] of resources not seen before. *)
Lemma resources_loop_spec rs seen acc :
  (∀ x, x ∈ seen ↔ x ∈ acc) → NoDup acc →
  NoDup (resources_loop rs seen acc) ∧
  (∀ x, x ∈ resources_loop rs seen acc ↔ x ∈ acc ∨ x ∈ rule_resource <$> rs) ∧
  acc `prefix_of` resources_loop rs seen acc.
Proof.
  revert seen acc. induction rs as [|r rs IH]; intros seen acc Hs Hnd; cbn.
  { split_and!; [done|set_solver|done]. }
  case_decide as Hin.
  - destruct (IH seen acc) as (? & Hm & ?); [done..|]. split_and!; [done| |done].
    intros x. rewrite Hm. set_solver.
  - destruct (IH ({[rule_resource r]} ∪ seen) (acc ++ [rule_resource r])) as (? & Hm & Hp).
    + set_solver.
    + apply NoDup_app. split_and!; [done| |apply NoDup_singleton]. set_solver.
    + split_and!; [done| |].
      * intros x. rewrite Hm. set_solver.
      * etrans; [|exact Hp]. by eexists.
Qed.

Lemma resources_loop_app rs rs' seen acc :
  (∀ x, x ∈ seen ↔ x ∈ acc) → NoDup acc →
  ∃ seen', resources_loop (rs ++ rs') seen acc = resources_loop rs' seen' (resources_loop rs seen acc) ∧
    (∀ x, x ∈ seen' ↔ x ∈ resources_loop rs seen acc).
Proof.
  revert seen acc. induction rs as [|r rs IH]; intros seen acc Hs Hnd; cbn; [eauto|].
  case_decide; [by apply IH|]. apply IH; [set_solver|].
  apply NoDup_app. split_and!; [done|set_solver|apply NoDup_singleton].
Qed.

(** ** Sample data for the witnesses *)

Definition sample_resource : ResourceIdentity :=
  mk_ResourceIdentity ResourceVendor_fake ResourceKind_gpu "gpu-0".
Definition sample_request : ComputeRequest := mk_ComputeRequest sample_resource Compute.

Definition sample_workload : WorkloadIdentity :=
  mk_WorkloadIdentity 42 (Present (mk_ProcessStartToken 100) KernelObserved)
    (Present 1000%N KernelObserved) (Present 1000%N KernelObserved)
    (Present "/usr/bin/tool" KernelObserved) (Missing "not implemented") [].
Definition sample_context : ExecutionContext :=
  mk_ExecutionContext sample_workload EvUnsupported EvUnsupported EvUnsupported EvUnsupported.

Definition sample_allow : Rule :=
  mk_Rule (mk_RuleId "allow-uid") Allow sample_resource Compute
    [Uid (mk_EvidenceMatch 1000%N FloorKernelObserved)].
Definition sample_deny : Rule :=
  mk_Rule (mk_RuleId "deny-gid") Deny sample_resource Compute
    [Gid (mk_EvidenceMatch 7%N FloorKernelObserved)].
Definition sample_document : PolicyDocument :=
  mk_PolicyDocument (mk_PolicyId "sample") 1 [sample_allow; sample_deny].
Definition sample_policy : PolicySet := mk_PolicySet sample_document.

(** [sample_context] after the user id could not be collected. *)
Definition sample_context_lost : ExecutionContext :=
  mk_ExecutionContext
    (mk_WorkloadIdentity 42 (Present (mk_ProcessStartToken 100) KernelObserved)
       (Present 1000%N KernelObserved) (Missing "no /proc")
       (Present "/usr/bin/tool" KernelObserved) (Missing "not implemented") [])
    EvUnsupported EvUnsupported EvUnsupported EvUnsupported.

(** ** Properties *)

(** C1: the decision is the one the rules call for.  [PolicySet_evaluate]
    allows exactly when some allow rule has all its conditions satisfied and no
    deny rule could apply (default deny, deny overrides, and a deny rule whose
    evidence is missing still blocks); its reason carries exactly the rule
    identifiers that justify it, on every branch, and its provenance is the
    policy's. *)
Theorem evaluate_refines_spec (p : PolicySet) (c : ExecutionContext) (q : ComputeRequest) :
  (effect (PolicySet_evaluate p c q) = Allow ↔ permitted p c q) ∧
  justified p c q (PolicySet_evaluate p c q).
Proof. split; [apply evaluate_effect_Allow|apply evaluate_justified]. Qed.

(** The decision does not depend on the order in which the rules were
    authored. *)
Theorem evaluate_order_independent (i : PolicyId) (rev : N) (rs rs' : list Rule)
    (c : ExecutionContext) (q : ComputeRequest) (H : rs ≡ₚ rs') :
  PolicySet_evaluate (mk_PolicySet (mk_PolicyDocument i rev rs)) c q =
  PolicySet_evaluate (mk_PolicySet (mk_PolicyDocument i rev rs')) c q.
Proof.
  rewrite !PolicySet_evaluate_spec. unfold decision_spec, hits_spec. cbn [document rules].
  by rewrite !(ids_where_perm _ _ rs rs' H).
Qed.

(** C27: losing evidence never upgrades a decision.  If a request is allowed
    after some of the evidence the rules can match was lost, it was allowed
    with that evidence too. *)
Theorem evidence_loss_never_upgrades (p : PolicySet) (c c' : ExecutionContext)
    (q : ComputeRequest) (Hlost : context_lost c c')
    (Hallow : effect (PolicySet_evaluate p c' q) = Allow) :
  effect (PolicySet_evaluate p c q) = Allow.
Proof.
  apply evaluate_effect_Allow. apply evaluate_effect_Allow in Hallow as [(r & ? & ? & Hr) Hd].
  split; [by eauto using context_lost_definitely|].
  intros r' ? ? Hp. by eapply Hd; [..|eapply context_lost_possibly].
Qed.

(** A policy built from a document allows a request only on trusted
    evidence: some allow rule for that resource and action has at least one
    condition, and each of its conditions' expected value was reported by the
    kernel or at best effort, never by the workload itself. *)
Theorem allow_needs_trusted_evidence (d : PolicyDocument) (p : PolicySet)
    (c : ExecutionContext) (q : ComputeRequest)
    (Hp : PolicySet_from_document d = Ok p)
    (Hallow : effect (PolicySet_evaluate p c q) = Allow) :
  action q ≠ Unknown ∧
  ∃ r, r ∈ rules d ∧ rule_effect r = Allow ∧ relevant r q ∧ conditions r ≠ [] ∧
       Forall (λ cond, condition_trusted cond c) (conditions r).
Proof.
  apply from_document_Ok in Hp as [[_ _ Hok] <-].
  apply evaluate_effect_Allow in Hallow as [(r & Hin & He & [Hrel Hc]) _].
  rewrite Forall_forall in Hok. destruct (Hok r Hin) as [_ Hne _ Hact].
  split; [by destruct Hrel as [_ <-]|].
  exists r. split_and!; [done..|]. eapply Forall_impl; [exact Hc|].
  intros cond. apply Condition_Matched_trusted.
Qed.

(** Validation accepts exactly the well-formed documents (non-empty
    policy and rule ids, distinct rule ids, at least one condition per rule,
    one condition per kind, no rule on an unknown action), keeps them as they
    are, and every error names a defect the document has; the schema version is
    checked first. *)
Theorem from_versioned_validates (v : Versioned PolicyDocument) :
  (∀ p, PolicySet_from_versioned v = Ok p ↔
     version v = DOMAIN_SCHEMA_VERSION ∧ document_ok (payload v) ∧ document p = payload v) ∧
  (∀ e, PolicySet_from_versioned v = Err e →
     (version v ≠ DOMAIN_SCHEMA_VERSION ∧
      e = PolicyUnsupportedVersion (mk_UnsupportedVersion (version v) DOMAIN_SCHEMA_VERSION)) ∨
     (version v = DOMAIN_SCHEMA_VERSION ∧ defect (payload v) e)).
Proof.
  split; [apply from_versioned_Ok|]. intros e. unfold PolicySet_from_versioned, Versioned_into_current.
  case_decide as Hv; cbn.
  - intros He%from_document_Err. by right.
  - intros [= <-]. by left.
Qed.

(** [resources] lists every protected resource a rule names, each once,
    in the order of first mention: what the first rules contribute stays a
    prefix when rules follow. *)
Theorem resources_first_mentions (p : PolicySet) :
  NoDup (PolicySet_resources p) ∧
  (∀ x, x ∈ PolicySet_resources p ↔ ∃ r, r ∈ rules (document p) ∧ rule_resource r = x) ∧
  (∀ pre post, rules (document p) = pre ++ post →
     PolicySet_resources (mk_PolicySet (mk_PolicyDocument (doc_id (document p))
       (revision (document p)) pre)) `prefix_of` PolicySet_resources p).
Proof.
  assert (∀ x : ResourceIdentity, x ∈ (∅ : gset ResourceIdentity) ↔ x ∈ @nil ResourceIdentity) as He
    by set_solver.
  unfold PolicySet_resources. cbn [document rules].
  destruct (resources_loop_spec (rules (document p)) ∅ [] He NoDup_nil_2) as (Hnd & Hm & _).
  split_and!; [done| |].
  - intros x. rewrite Hm, list_elem_of_fmap. set_solver.
  - intros pre post ->.
    destruct (resources_loop_app pre post ∅ [] He NoDup_nil_2) as (seen' & -> & Hs).
    apply resources_loop_spec; [done|].
    apply resources_loop_spec; [done|constructor].
Qed.

(** ** Witnesses *)

Lemma evaluate_order_independent_witness :
  PolicySet_evaluate (mk_PolicySet (mk_PolicyDocument (mk_PolicyId "p") 1 [sample_allow; sample_deny]))
    sample_context sample_request =
  PolicySet_evaluate (mk_PolicySet (mk_PolicyDocument (mk_PolicyId "p") 1 [sample_deny; sample_allow]))
    sample_context sample_request.
Proof. apply evaluate_order_independent. apply Permutation_swap. Defined.

(** [sample_policy] without its deny rule, so that losing the group id leaves
    the request allowed. *)
Lemma evidence_loss_never_upgrades_witness :
  effect (PolicySet_evaluate
    (mk_PolicySet (mk_PolicyDocument (mk_PolicyId "p") 1 [sample_allow]))
    sample_context sample_request) = Allow.
Proof.
  apply (evidence_loss_never_upgrades _ sample_context sample_context_lost).
  - split_and!; try (by left). by right.
  - by vm_compute.
Defined.

Lemma allow_needs_trusted_evidence_witness :
  action sample_request ≠ Unknown ∧
  ∃ r, r ∈ rules sample_document ∧ rule_effect r = Allow ∧ relevant r sample_request ∧
       conditions r ≠ [] ∧ Forall (λ cond, condition_trusted cond sample_context) (conditions r).
Proof.
  apply (allow_needs_trusted_evidence sample_document sample_policy); by vm_compute.
Defined.

(** A deny rule whose evidence was lost blocks, and names itself. *)
Example sample_indeterminate_deny :
  PolicySet_evaluate sample_policy sample_context_lost sample_request =
  mk_PolicyDecision Deny (IndeterminateEvidence {[mk_RuleId "deny-gid"]})
    (mk_PolicyProvenance (mk_PolicyId "sample") 1 1).
Proof. by vm_compute. Qed.
