(* ===== verification/Lease.v ===== *)
(** * Compute leases

    Models [crates/eltanin-core/src/lease.rs]: the injected monotonic clock,
    lease identifiers, lease values and the issuer that issues, revokes and
    validates them.  [&mut self] methods return the issuer's next state; the
    [BTreeSet] of revoked sequence numbers is a [gset]; [next_sequence += 1] is
    the wrapping addition of a build without overflow checks. *)

From S2P Require Import Prelude Resource Identity Policy PolicySpec.

(** ** Time *)

(** Nanoseconds since the issuer's epoch, a [u64]. *)
Record MonotonicTime : Type := mk_MonotonicTime { as_nanos : N }.

#[export] Instance MonotonicTime_eq_dec : EqDecision MonotonicTime.
Proof. solve_decision. Defined.

(** The derived order. *)
Definition time_le (a b : MonotonicTime) : Prop := (as_nanos a ≤ as_nanos b)%N.

#[export] Instance time_le_dec a b : Decision (time_le a b).
Proof. unfold time_le. apply _. Defined.

#[export] Instance time_le_preorder : PreOrder time_le.
Proof. split; [intros a|intros a b c]; unfold time_le; lia. Qed.

Definition MonotonicTime_min (a b : MonotonicTime) : MonotonicTime :=
  mk_MonotonicTime (as_nanos a `min` as_nanos b).

Definition MonotonicTime_checked_add (self : MonotonicTime) (duration : Duration) :
    option MonotonicTime :=
  added ← u64_try_from duration;
  mk_MonotonicTime <$> u64_checked_add (as_nanos self) added.

Definition MonotonicTime_saturating_duration_since (self earlier : MonotonicTime) : Duration :=
  saturating_sub (as_nanos self) (as_nanos earlier).

(** ** Identifiers and leases *)

Record IssuerInstanceId : Type := mk_IssuerInstanceId { instance_str : string }.

#[export] Instance IssuerInstanceId_eq_dec : EqDecision IssuerInstanceId.
Proof. solve_decision. Defined.
#[export] Instance IssuerInstanceId_countable : Countable IssuerInstanceId.
Proof. newtype_countable instance_str mk_IssuerInstanceId. Defined.

Record LeaseId : Type := mk_LeaseId {
  issuer : IssuerInstanceId;
  sequence : N
}.

#[export] Instance LeaseId_eq_dec : EqDecision LeaseId.
Proof. solve_decision. Defined.
#[export] Instance LeaseId_countable : Countable LeaseId.
Proof.
  refine (inj_countable' (λ i, (issuer i, sequence i)) (λ '(a, b), mk_LeaseId a b) _).
  by intros [].
Defined.

Record ComputeLease : Type := mk_ComputeLease {
  lease_id : LeaseId;
  origin : ProvenanceRecord;
  lease_policy : PolicyProvenance;
  decision_reason : DecisionReason;
  issued_at : MonotonicTime;
  expires_at : MonotonicTime
}.

#[export] Instance ComputeLease_eq_dec : EqDecision ComputeLease.
Proof. solve_decision. Defined.

Definition ComputeLease_narrow_expiry (self : ComputeLease) (not_after : MonotonicTime) :
    ComputeLease :=
  mk_ComputeLease (lease_id self) (origin self) (lease_policy self) (decision_reason self)
    (issued_at self) (MonotonicTime_min (expires_at self) not_after).

Inductive LeaseError : Type :=
  | Denied (decision : PolicyDecision)
  | NonPositiveTtl
  | TtlExceedsMaximum (requested maximum : Duration)
  | ExpiryOverflow.

#[export] Instance LeaseError_eq_dec : EqDecision LeaseError.
Proof. solve_decision. Defined.

Inductive RevocationOutcome : Type :=
  | RevokedNow
  | AlreadyRevoked
  | NotIssued
  | RevokeForeignIssuer.

#[export] Instance RevocationOutcome_eq_dec : EqDecision RevocationOutcome.
Proof. solve_decision. Defined.

Inductive LeaseValidity : Type :=
  | Valid (remaining : Duration)
  | ForeignIssuer (issued_by : IssuerInstanceId)
  | Revoked
  | ResourceMismatch
  | ActionMismatch
  | WorkloadMismatch
  | WorkloadIndeterminate
  | ExecutableMismatch
  | Expired (expired_at : MonotonicTime).

#[export] Instance LeaseValidity_eq_dec : EqDecision LeaseValidity.
Proof. solve_decision. Defined.

Definition LeaseValidity_is_valid (self : LeaseValidity) : bool :=
  match self with
  | Valid _ => true
  | _ => false
  end.

(** ** The issuer *)

Record LeaseIssuer : Type := mk_LeaseIssuer {
  instance : IssuerInstanceId;
  max_ttl : Duration;
  next_sequence : N;
  revoked : gset N
}.

#[export] Instance LeaseIssuer_eq_dec : EqDecision LeaseIssuer.
Proof. solve_decision. Defined.

Definition LeaseIssuer_new (i : IssuerInstanceId) (m : Duration) : LeaseIssuer :=
  mk_LeaseIssuer i m 0 ∅.

Definition LeaseIssuer_issue (self : LeaseIssuer) (pol : PolicySet) (orig : ProvenanceRecord)
    (now : MonotonicTime) (ttl : Duration) : result ComputeLease LeaseError * LeaseIssuer :=
  if Duration_is_zero ttl then (Err NonPositiveTtl, self)
  else if decide (max_ttl self < ttl)%N then (Err (TtlExceedsMaximum ttl (max_ttl self)), self)
  else
    let decision := PolicySet_evaluate pol (context orig) (request orig) in
    if decide (effect decision ≠ Allow) then (Err (Denied decision), self)
    else
      match MonotonicTime_checked_add now ttl with
      | None => (Err ExpiryOverflow, self)
      | Some expires =>
          let id := mk_LeaseId (instance self) (next_sequence self) in
          let self' := mk_LeaseIssuer (instance self) (max_ttl self)
                         (u64_wrapping_add (next_sequence self) 1) (revoked self) in
          (Ok (mk_ComputeLease id orig (policy decision) (reason decision) now expires), self')
      end.

Definition LeaseIssuer_revoke (self : LeaseIssuer) (id : LeaseId) :
    RevocationOutcome * LeaseIssuer :=
  if decide (issuer id ≠ instance self) then (RevokeForeignIssuer, self)
  else if decide (next_sequence self ≤ sequence id)%N then (NotIssued, self)
  else if decide (sequence id ∈ revoked self) then (AlreadyRevoked, self)
  else (RevokedNow, mk_LeaseIssuer (instance self) (max_ttl self) (next_sequence self)
                      ({[sequence id]} ∪ revoked self)).

Definition LeaseIssuer_validate (self : LeaseIssuer) (lease : ComputeLease)
    (presented : ProvenanceRecord) (now : MonotonicTime) : LeaseValidity :=
  if decide (issuer (lease_id lease) ≠ instance self) then
    ForeignIssuer (issuer (lease_id lease))
  else if decide (sequence (lease_id lease) ∈ revoked self) then Revoked
  else if decide (resource (request (origin lease)) ≠ resource (request presented)) then
    ResourceMismatch
  else if decide (action (request (origin lease)) ≠ action (request presented)) then
    ActionMismatch
  else
    match WorkloadIdentity_compare_process (workload (context (origin lease)))
            (workload (context presented)) with
    | Different => WorkloadMismatch
    | Indeterminate => WorkloadIndeterminate
    | Same =>
        match WorkloadIdentity_compare_executable (workload (context (origin lease)))
                (workload (context presented)) with
        | Different => ExecutableMismatch
        | Indeterminate => WorkloadIndeterminate
        | Same =>
            if decide (time_le (expires_at lease) now) then Expired (expires_at lease)
            else Valid (MonotonicTime_saturating_duration_since (expires_at lease) now)
        end
    end.

(** ** Specification *)

(** Two observations of one live process, by trusted start tokens. *)
Definition same_process (a b : WorkloadIdentity) : Prop :=
  pid a = pid b ∧ ∃ t, trusted (process_start a) t ∧ trusted (process_start b) t.

(** Two observations of one executable image: by trusted hash or, when either
    side has no trusted hash, by trusted path. *)
Definition same_executable (a b : WorkloadIdentity) : Prop :=
  (∃ h, trusted (executable_hash a) h ∧ trusted (executable_hash b) h) ∨
  ((untrusted (executable_hash a) ∨ untrusted (executable_hash b)) ∧
   ∃ p, trusted (executable_path a) p ∧ trusted (executable_path b) p).

(** Both sides have a trusted hash and they differ, or the paths decide. *)
Definition different_executable (a b : WorkloadIdentity) : Prop :=
  (∃ h h', trusted (executable_hash a) h ∧ trusted (executable_hash b) h' ∧ h ≠ h') ∨
  ((untrusted (executable_hash a) ∨ untrusted (executable_hash b)) ∧
   ∃ p p', trusted (executable_path a) p ∧ trusted (executable_path b) p' ∧ p ≠ p').

Definition same_workload (a b : WorkloadIdentity) : Prop :=
  same_process a b ∧ same_executable a b.

(** The lease is bound to what was presented. *)
Definition bound_to (l : ComputeLease) (p : ProvenanceRecord) : Prop :=
  request (origin l) = request p ∧
  same_workload (workload (context (origin l))) (workload (context p)).

(** Enough was observed of a workload to recognise it again. *)
Definition recognisable (w : WorkloadIdentity) : Prop :=
  (∃ t, trusted (process_start w) t) ∧
  ((∃ h, trusted (executable_hash w) h) ∨ (∃ p, trusted (executable_path w) p)).

Definition issuer_wf (s : LeaseIssuer) : Prop :=
  (next_sequence s ≤ u64_max)%N ∧ ∀ n, n ∈ revoked s → (n < next_sequence s)%N.

(** Any sequence of operations on one issuer, with the leases it issued in
    order.  The premise of [run_issue] is that fewer than [2^64 - 1] leases
    were issued before, so that the sequence counter does not wrap. *)
Inductive issuer_run : LeaseIssuer → list ComputeLease → LeaseIssuer → Prop :=
  | run_nil s : issuer_run s [] s
  | run_issue s pol orig now ttl l s1 ls s2 :
      (next_sequence s < u64_max)%N →
      LeaseIssuer_issue s pol orig now ttl = (Ok l, s1) →
      issuer_run s1 ls s2 → issuer_run s (l :: ls) s2
  | run_refuse s pol orig now ttl e s1 ls s2 :
      LeaseIssuer_issue s pol orig now ttl = (Err e, s1) →
      issuer_run s1 ls s2 → issuer_run s ls s2
  | run_revoke s id o s1 ls s2 :
      LeaseIssuer_revoke s id = (o, s1) →
      issuer_run s1 ls s2 → issuer_run s ls s2.

(** ** Lemmas *)

Lemma checked_add_Some t d t' :
  MonotonicTime_checked_add t d = Some t' ↔
  as_nanos t' = (as_nanos t + d)%N ∧ (as_nanos t + d ≤ u64_max)%N.
Proof.
  unfold MonotonicTime_checked_add, u64_checked_add, u64_try_from.
  case_decide; cbn; [case_decide; cbn|]; (split; [|intros [Ht ?]]).
  - intros [= <-]. done.
  - f_equal. rewrite <-Ht. by destruct t'.
  - done.
  - done.
  - done.
  - lia.
Qed.

Lemma checked_add_None t d :
  MonotonicTime_checked_add t d = None ↔ (u64_max < as_nanos t + d)%N.
Proof.
  unfold MonotonicTime_checked_add, u64_checked_add, u64_try_from.
  case_decide; cbn; [case_decide; cbn|]; (split; [|intros Ht]); done || lia.
Qed.

(** What a successful [issue] returns and does to the issuer. *)
Lemma issue_Ok s pol orig now ttl l s' :
  LeaseIssuer_issue s pol orig now ttl = (Ok l, s') ↔
  (0 < ttl ≤ max_ttl s)%N ∧ permitted pol (context orig) (request orig) ∧
  (as_nanos now + ttl ≤ u64_max)%N ∧
  l = mk_ComputeLease (mk_LeaseId (instance s) (next_sequence s)) orig
        (PolicySet_provenance pol) (reason (PolicySet_evaluate pol (context orig) (request orig)))
        now (mk_MonotonicTime (as_nanos now + ttl)) ∧
  s' = mk_LeaseIssuer (instance s) (max_ttl s) (u64_wrapping_add (next_sequence s) 1) (revoked s).
Proof.
  unfold LeaseIssuer_issue, Duration_is_zero. rewrite <-evaluate_effect_Allow.
  assert (policy (PolicySet_evaluate pol (context orig) (request orig)) = PolicySet_provenance pol)
    as Hpol by (unfold PolicySet_evaluate; by destruct (conclude _)).
  rewrite Hpol. split.
  - case_bool_decide; [done|]. case_decide; [done|]. case_decide as He; [done|].
    case_match eqn:Ha; [|done]. apply checked_add_Some in Ha as [Ha ?].
    intros [= <- <-]. split_and!; [lia..| |done| |done].
    + by destruct (effect _).
    + f_equal. rewrite <-Ha. by destruct m.
  - intros ([? ?] & He & ? & -> & ->).
    rewrite bool_decide_false by lia. rewrite decide_False by lia.
    rewrite decide_False by (by intros []).
    rewrite (proj2 (checked_add_Some now ttl (mk_MonotonicTime (as_nanos now + ttl)))); done.
Qed.

(** A refused [issue] leaves the issuer as it was, and says why. *)
Lemma issue_Err s pol orig now ttl e s' :
  LeaseIssuer_issue s pol orig now ttl = (Err e, s') →
  s' = s ∧
  match e with
  | NonPositiveTtl => ttl = 0%N
  | TtlExceedsMaximum r m => r = ttl ∧ m = max_ttl s ∧ (max_ttl s < ttl)%N
  | Denied d => (0 < ttl ≤ max_ttl s)%N ∧ ¬ permitted pol (context orig) (request orig) ∧
      d = PolicySet_evaluate pol (context orig) (request orig)
  | ExpiryOverflow => (0 < ttl ≤ max_ttl s)%N ∧ permitted pol (context orig) (request orig) ∧
      (u64_max < as_nanos now + ttl)%N
  end.
Proof.
  unfold LeaseIssuer_issue, Duration_is_zero.
  pose proof (evaluate_effect_Allow pol (context orig) (request orig)) as HA.
  case_bool_decide; [by intros [= <- <-]|].
  case_decide; [by intros [= <- <-]|].
  case_decide as He; [intros [= <- <-]; split_and!; [done|lia..|by rewrite <-HA|done]|].
  case_match eqn:Ha; [done|]. apply checked_add_None in Ha.
  intros [= <- <-]. split_and!; [done|lia..| |done]. apply HA. by destruct (effect _).
Qed.

Lemma revoke_spec s id o s' :
  LeaseIssuer_revoke s id = (o, s') →
  instance s' = instance s ∧ max_ttl s' = max_ttl s ∧ next_sequence s' = next_sequence s ∧
  revoked s ⊆ revoked s' ∧ revoked s' ⊆ {[sequence id]} ∪ revoked s ∧
  (o = RevokedNow ∨ o = AlreadyRevoked → issuer id = instance s ∧ sequence id ∈ revoked s') ∧
  (issuer id = instance s → (sequence id < next_sequence s)%N → sequence id ∈ revoked s') ∧
  (sequence id ∈ revoked s' → sequence id ∈ revoked s ∨ (sequence id < next_sequence s)%N).
Proof.
  unfold LeaseIssuer_revoke. repeat case_decide; intros [= <- <-]; cbn;
    split_and!; try done; try set_solver; try (intros [?|?]; done); try lia; try tauto.
Qed.

(** [validate] in the specification's terms. *)
Lemma validate_Valid s l p now r :
  LeaseIssuer_validate s l p now = Valid r ↔
  issuer (lease_id l) = instance s ∧ (sequence (lease_id l) ∉ revoked s) ∧ bound_to l p ∧
  (as_nanos now < as_nanos (expires_at l))%N ∧
  r = (as_nanos (expires_at l) - as_nanos now)%N.
Proof.
  unfold LeaseIssuer_validate, bound_to, same_workload, same_process, same_executable, time_le.
  rewrite <-compare_process_Same_iff, <-compare_executable_Same_iff.
  set (P := WorkloadIdentity_compare_process _ _). set (X := WorkloadIdentity_compare_executable _ _).
  split.
  - repeat (case_decide; [done|]). case_match; try done. case_match; try done.
    case_decide; [done|]. intros [= <-].
    split_and!; try done; [|lia].
    destruct (request (origin l)), (request p); cbn in *. f_equal; done.
  - intros (Hi & Hr & (Hq & HP & HX) & Hlt & ->). rewrite HP, HX, Hq.
    rewrite decide_False by (by intros []). rewrite decide_False by done.
    rewrite decide_False by (by intros []). rewrite decide_False by (by intros []).
    by rewrite decide_False by lia.
Qed.

Lemma revoke_issued s id o s' :
  issuer id = instance s → (sequence id < next_sequence s)%N →
  LeaseIssuer_revoke s id = (o, s') →
  (o = RevokedNow ∨ o = AlreadyRevoked) ∧ instance s' = instance s ∧ sequence id ∈ revoked s'.
Proof.
  intros Hi Hlt. unfold LeaseIssuer_revoke.
  rewrite decide_False by (by intros []). rewrite decide_False by lia.
  case_decide; intros [= <- <-]; (split; [auto|]); (split; [done|]); set_solver.
Qed.

Lemma revoke_other s id o s' l p now :
  LeaseIssuer_revoke s id = (o, s') → issuer id ≠ instance s ∨ id ≠ lease_id l →
  LeaseIssuer_validate s' l p now = LeaseIssuer_validate s l p now.
Proof.
  unfold LeaseIssuer_revoke. repeat (case_decide; [by intros [= <- <-]|]).
  intros [= <- <-] Hne. unfold LeaseIssuer_validate. cbn.
  case_decide; [done|].
  assert (sequence (lease_id l) ≠ sequence id).
  { intros ?. destruct Hne as [Hne|Hne]; [done|]. apply Hne.
    destruct id, (lease_id l). cbn in *. f_equal; congruence. }
  destruct (decide (sequence (lease_id l) ∈ revoked s)).
  - by rewrite decide_True by set_solver.
  - by rewrite decide_False by set_solver.
Qed.

Lemma validate_Revoked s l p now :
  issuer (lease_id l) = instance s → sequence (lease_id l) ∈ revoked s →
  LeaseIssuer_validate s l p now = Revoked.
Proof.
  intros Hi Hr. unfold LeaseIssuer_validate.
  rewrite decide_False by (by intros []). by rewrite decide_True.
Qed.

Lemma is_valid_iff v : LeaseValidity_is_valid v = true ↔ ∃ r, v = Valid r.
Proof. destruct v; split; try done; [eauto|by intros []..]. Qed.

(** Operations keep the instance and only add revocations. *)
Lemma issuer_run_mono s ls s' :
  issuer_run s ls s' → instance s' = instance s ∧ max_ttl s' = max_ttl s ∧ revoked s ⊆ revoked s'.
Proof.
  induction 1 as [s|s pol orig now ttl l s1 ls s2 _ Hi _ (-> & -> & Hr)
    |s pol orig now ttl e s1 ls s2 Hi _ (-> & -> & Hr)|s id o s1 ls s2 Hi _ (-> & -> & Hr)].
  - done.
  - apply issue_Ok in Hi as (_ & _ & _ & _ & ->). done.
  - apply issue_Err in Hi as [-> _]. done.
  - apply revoke_spec in Hi as (-> & -> & _ & ? & _). split_and!; [done..|]. by etrans.
Qed.

Lemma issuer_wf_new i m : issuer_wf (LeaseIssuer_new i m).
Proof. split; cbn; [done|set_solver]. Qed.

Lemma issuer_wf_issue s pol orig now ttl r s' :
  issuer_wf s → (next_sequence s < u64_max)%N →
  LeaseIssuer_issue s pol orig now ttl = (r, s') → issuer_wf s'.
Proof.
  intros [Hb Hr] Hlt. destruct r as [l|e].
  - intros (_ & _ & _ & _ & ->)%issue_Ok. cbn.
    split; cbn; rewrite u64_wrapping_add_small by (unfold u64_max in *; lia); [lia|].
    intros n ?%Hr. lia.
  - by intros [-> _]%issue_Err.
Qed.

Lemma issuer_wf_revoke s id o s' :
  issuer_wf s → LeaseIssuer_revoke s id = (o, s') → issuer_wf s'.
Proof.
  intros [Hb Hr] (_ & _ & Hn & _ & Hsub & _ & _ & Hlt)%revoke_spec. unfold issuer_wf. rewrite Hn.
  split; [done|]. intros n Hin. destruct (decide (n = sequence id)) as [->|].
  - destruct (Hlt Hin); auto.
  - apply Hr. set_solver.
Qed.
#[export] Hint Resolve issuer_wf_new issuer_wf_issue issuer_wf_revoke : eltanin.

(** The leases a run issues carry the run's instance and increasing sequence
    numbers. *)
Lemma issuer_run_ids s ls s' :
  issuer_run s ls s' →
  (next_sequence s ≤ next_sequence s')%N ∧ NoDup (lease_id <$> ls) ∧
  ∀ l, l ∈ ls → issuer (lease_id l) = instance s ∧
    (next_sequence s ≤ sequence (lease_id l) < next_sequence s')%N.
Proof.
  induction 1 as [s|s pol orig now ttl l s1 ls s2 Hlt Hi _ (Hn & Hnd & Hall)
    |s pol orig now ttl e s1 ls s2 Hi _ IH|s id o s1 ls s2 Hi _ IH].
  - split_and!; [done|constructor|set_solver].
  - apply issue_Ok in Hi as (_ & _ & _ & -> & ->). cbn in *.
    rewrite u64_wrapping_add_small in Hn, Hall by (unfold u64_max in *; lia).
    split_and!; [lia| |].
    + constructor; [|done]. intros (l & Heq & Hl)%list_elem_of_fmap.
      apply Hall in Hl as [_ ?]. rewrite <-Heq in *. cbn in *. lia.
    + intros l' [->|[? ?]%Hall]%elem_of_cons; cbn; split; [done|lia|done|lia].
  - apply issue_Err in Hi as [-> _]. done.
  - apply revoke_spec in Hi as (Hinst & _ & Hn & _). by rewrite Hinst, Hn in IH.
Qed.

Lemma recognisable_same w : same_workload w w ↔ recognisable w.
Proof.
  unfold same_workload, same_process, same_executable, recognisable. split.
  - intros [(_ & t & ? & _) Hx]. split; [eauto|].
    destruct Hx as [(h & ? & _)|(_ & q & ? & _)]; eauto.
  - intros [(t & ?) Hx]. split; [eauto|]. destruct Hx as [(h & ?)|(q & ?)]; [eauto|].
    destruct (trusted_or_untrusted (executable_hash w)) as [(h & ?)|]; eauto 6.
Qed.

Lemma validate_self_unrecognisable s l now :
  issuer (lease_id l) = instance s → sequence (lease_id l) ∉ revoked s →
  ¬ recognisable (workload (context (origin l))) →
  LeaseIssuer_validate s l (origin l) now = WorkloadIndeterminate.
Proof.
  intros Hi Hr Hw. unfold LeaseIssuer_validate.
  rewrite decide_False by (by intros []). rewrite decide_False by done.
  rewrite decide_False by (by intros []). rewrite decide_False by (by intros []).
  set (w := workload _) in *.
  pose proof (compare_process_Same_iff w w) as HP. pose proof (compare_process_Different_iff w w) as HPD.
  pose proof (compare_executable_Same_iff w w) as HX.
  pose proof (compare_executable_Different_iff w w) as HXD.
  rewrite <-recognisable_same in Hw. unfold same_workload, same_process, same_executable in Hw.
  destruct (WorkloadIdentity_compare_process w w); [|exfalso|done].
  - destruct (WorkloadIdentity_compare_executable w w); [tauto|exfalso|done].
    destruct HXD as [[(? & ? & H1 & H2 & Hne)|(_ & ? & ? & H1 & H2 & Hne)] _]; try done;
      apply Hne; by eapply trusted_fun.
  - destruct HPD as [(? & ? & H1 & H2 & Hne) _]; [done|]. apply Hne. split; [done|].
    by eapply trusted_fun.
Qed.

(** ** Properties *)

(** [issue] on every branch.  A lease is returned exactly when the ttl is
    positive and within the maximum, the policy permits that very origin and
    the expiry fits the clock; it is bound to that origin, carries the policy's
    provenance, the next sequence number and the requested lifetime.  A refusal
    leaves the issuer unchanged, and its error is the first check that fails in
    the order ttl, maximum, policy, overflow. *)
Theorem issue_spec (s : LeaseIssuer) (pol : PolicySet) (orig : ProvenanceRecord)
    (now : MonotonicTime) (ttl : Duration) :
  let '(r, s') := LeaseIssuer_issue s pol orig now ttl in
  match r with
  | Ok l =>
      (0 < ttl ≤ max_ttl s)%N ∧ permitted pol (context orig) (request orig) ∧
      origin l = orig ∧ lease_policy l = PolicySet_provenance pol ∧
      lease_id l = mk_LeaseId (instance s) (next_sequence s) ∧ issued_at l = now ∧
      as_nanos (expires_at l) = (as_nanos now + ttl)%N ∧ (as_nanos (expires_at l) ≤ u64_max)%N ∧
      next_sequence s' = u64_wrapping_add (next_sequence s) 1 ∧
      instance s' = instance s ∧ revoked s' = revoked s
  | Err NonPositiveTtl => s' = s ∧ ttl = 0%N
  | Err (TtlExceedsMaximum r m) => s' = s ∧ r = ttl ∧ m = max_ttl s ∧ (max_ttl s < ttl)%N
  | Err (Denied d) => s' = s ∧ (0 < ttl ≤ max_ttl s)%N ∧ effect d = Deny ∧
      ¬ permitted pol (context orig) (request orig) ∧ justified pol (context orig) (request orig) d
  | Err ExpiryOverflow => s' = s ∧ (0 < ttl ≤ max_ttl s)%N ∧
      permitted pol (context orig) (request orig) ∧ (u64_max < as_nanos now + ttl)%N
  end.
Proof.
  destruct (LeaseIssuer_issue s pol orig now ttl) as [[l|e] s'] eqn:Hi.
  - apply issue_Ok in Hi as (? & ? & ? & -> & ->). split; [done|]. split; [done|]. by split_and!.
  - apply issue_Err in Hi as [-> He]. destruct e; split; try done.
    destruct He as (? & Hn & ->). split; [done|].
    split; [by apply effect_Deny_iff|]. split; [done|apply evaluate_justified].
Qed.

(** C11: [validate] says [Valid] exactly when the lease is this instance's, not
    revoked, bound to the presented request and to the same process running the
    same executable by trusted evidence, and not yet expired; the remaining time
    is what is left until expiry. *)
Theorem validate_valid_iff (s : LeaseIssuer) (l : ComputeLease) (p : ProvenanceRecord)
    (now : MonotonicTime) (r : Duration) :
  LeaseIssuer_validate s l p now = Valid r ↔
  issuer (lease_id l) = instance s ∧ (sequence (lease_id l) ∉ revoked s) ∧ bound_to l p ∧
  (as_nanos now < as_nanos (expires_at l))%N ∧
  r = (as_nanos (expires_at l) - as_nanos now)%N.
Proof. apply validate_Valid. Qed.

(** Each refusal of [validate] is the first reason that applies in the
    documented order (issuer, revocation, resource, action, process, executable,
    expiry): a replay against another workload or resource is never reported as
    a routine expiry, and an in-place executable swap is told apart from another
    process. *)
Theorem validate_refusal_reason (s : LeaseIssuer) (l : ComputeLease) (p : ProvenanceRecord)
    (now : MonotonicTime) :
  let ours := issuer (lease_id l) = instance s in
  let live := sequence (lease_id l) ∉ revoked s in
  let w := workload (context (origin l)) in
  let w' := workload (context p) in
  match LeaseIssuer_validate s l p now with
  | Valid _ => ours ∧ live ∧ bound_to l p ∧ ¬ time_le (expires_at l) now
  | ForeignIssuer i => i = issuer (lease_id l) ∧ ¬ ours
  | Revoked => ours ∧ ¬ live
  | ResourceMismatch => ours ∧ live ∧ resource (request (origin l)) ≠ resource (request p)
  | ActionMismatch => ours ∧ live ∧ resource (request (origin l)) = resource (request p) ∧
      action (request (origin l)) ≠ action (request p)
  | WorkloadMismatch => ours ∧ live ∧ request (origin l) = request p ∧
      ∃ t u, trusted (process_start w) t ∧ trusted (process_start w') u ∧ ¬ (pid w = pid w' ∧ t = u)
  | WorkloadIndeterminate => ours ∧ live ∧ request (origin l) = request p ∧
      (untrusted (process_start w) ∨ untrusted (process_start w') ∨
       same_process w w' ∧ ¬ same_executable w w')
  | ExecutableMismatch => ours ∧ live ∧ request (origin l) = request p ∧
      same_process w w' ∧ different_executable w w'
  | Expired t => ours ∧ live ∧ bound_to l p ∧ t = expires_at l ∧ time_le t now
  end.
Proof.
  cbv zeta. unfold LeaseIssuer_validate.
  case_decide; [by split|]. case_decide; [split; [done|by intros []]|].
  case_decide; [done|]. case_decide; [done|].
  assert (request (origin l) = request p) as Hq
    by (destruct (request (origin l)), (request p); cbn in *; by f_equal).
  pose proof (compare_process_spec (workload (context (origin l))) (workload (context p))) as HP.
  destruct (WorkloadIdentity_compare_process _ _); [|done|naive_solver].
  pose proof (compare_executable_Same_iff (workload (context (origin l))) (workload (context p))) as HX.
  pose proof (compare_executable_Different_iff (workload (context (origin l))) (workload (context p))) as HD.
  destruct (WorkloadIdentity_compare_executable _ _).
  - assert (bound_to l p) by (split; [done|split; [done|by apply HX]]). by case_decide.
  - split_and!; [done..|]. by apply HD.
  - split_and!; [done..|]. right; right. split; [done|]. intros ?%HX. done.
Qed.

(** Expiry and revocation are irreversible, and time only consumes a
    lease.  Whatever the issuer does in between, a lease that validates later was
    already valid before, for the same presentation, with exactly the elapsed
    time more remaining. *)
Theorem validity_only_decreases (s s' : LeaseIssuer) (ls : list ComputeLease) (l : ComputeLease)
    (p : ProvenanceRecord) (now now' : MonotonicTime) (r : Duration)
    (Hrun : issuer_run s ls s') (Htime : time_le now now')
    (Hvalid : LeaseIssuer_validate s' l p now' = Valid r) :
  LeaseIssuer_validate s l p now = Valid (r + (as_nanos now' - as_nanos now)).
Proof.
  apply issuer_run_mono in Hrun as (Hinst & _ & Hrev).
  apply validate_Valid in Hvalid as (? & ? & ? & ? & ->). unfold time_le in Htime.
  apply validate_Valid. split; [congruence|]. split; [set_solver|]. split; [done|]. lia.
Qed.

(** C30: revocation is final.  Once [revoke] reports that the lease is revoked,
    now or already, every later validation answers [Revoked] whatever is
    presented and whatever the issuer did since; and revoking any lease the
    issuer issued succeeds. *)
Theorem revocation_is_final (s s1 s2 : LeaseIssuer) (ls ls' : list ComputeLease)
    (l : ComputeLease) (o : RevocationOutcome) (p : ProvenanceRecord) (now : MonotonicTime)
    (i : IssuerInstanceId) (m : Duration)
    (Hstart : issuer_run (LeaseIssuer_new i m) ls s) (Hissued : l ∈ ls)
    (Hrevoke : LeaseIssuer_revoke s (lease_id l) = (o, s1)) (Hrun : issuer_run s1 ls' s2) :
  (o = RevokedNow ∨ o = AlreadyRevoked) ∧ LeaseIssuer_validate s2 l p now = Revoked.
Proof.
  destruct (issuer_run_mono _ _ _ Hstart) as (Hi & _).
  destruct (issuer_run_ids _ _ _ Hstart) as (_ & _ & Hall).
  destruct (Hall l Hissued) as [Hil [_ Hlt]].
  destruct (revoke_issued _ _ _ _ (eq_trans Hil (eq_sym Hi)) Hlt Hrevoke) as (? & Hi1 & Hin).
  split; [done|].
  apply issuer_run_mono in Hrun as (Hi2 & _ & Hsub).
  apply validate_Revoked; [congruence|set_solver].
Qed.

(** No two leases one issuer issues share an identifier, whatever is
    revoked in between, so revoking one lease never affects another. *)
Theorem issued_ids_distinct (i : IssuerInstanceId) (m : Duration) (ls : list ComputeLease)
    (s : LeaseIssuer) (Hrun : issuer_run (LeaseIssuer_new i m) ls s) :
  NoDup (lease_id <$> ls) ∧
  (∀ l, l ∈ ls → issuer (lease_id l) = i ∧ (sequence (lease_id l) < next_sequence s)%N) ∧
  (∀ l id o s' p now, l ∈ ls → LeaseIssuer_revoke s id = (o, s') → id ≠ lease_id l →
     LeaseIssuer_validate s' l p now = LeaseIssuer_validate s l p now).
Proof.
  destruct (issuer_run_mono _ _ _ Hrun) as (Hi & _).
  destruct (issuer_run_ids _ _ _ Hrun) as (_ & Hnd & Hall).
  split; [done|]. split; [intros l Hl; by destruct (Hall l Hl) as [? [_ ?]]|].
  intros l id o s' p now Hl Hr Hne.
  eapply revoke_other; [exact Hr|by right].
Qed.

(** A lease just issued validates for its own origin, with the whole ttl
    remaining, exactly when the collectors gave the origin a trusted start
    token and a trusted executable hash or path; otherwise it can never be
    used. *)
Theorem fresh_lease_usable (s s' : LeaseIssuer) (pol : PolicySet) (orig : ProvenanceRecord)
    (now : MonotonicTime) (ttl : Duration) (l : ComputeLease) (Hwf : issuer_wf s)
    (Hissue : LeaseIssuer_issue s pol orig now ttl = (Ok l, s')) :
  (LeaseIssuer_validate s' l orig now = Valid ttl ↔
     recognisable (workload (context orig))) ∧
  (LeaseIssuer_validate s' l orig now ≠ Valid ttl →
     LeaseIssuer_validate s' l orig now = WorkloadIndeterminate).
Proof.
  destruct Hwf as [_ Hrev].
  apply issue_Ok in Hissue as (Httl & _ & _ & -> & ->).
  assert (next_sequence s ∉ revoked s) as Hni by (intros ?%Hrev; lia).
  assert (LeaseIssuer_validate
    (mk_LeaseIssuer (instance s) (max_ttl s) (u64_wrapping_add (next_sequence s) 1) (revoked s))
    (mk_ComputeLease (mk_LeaseId (instance s) (next_sequence s)) orig (PolicySet_provenance pol)
      (reason (PolicySet_evaluate pol (context orig) (request orig))) now
      (mk_MonotonicTime (as_nanos now + ttl))) orig now = Valid ttl ↔
    recognisable (workload (context orig))) as Hiff.
  { rewrite validate_Valid. cbn. unfold bound_to. cbn. rewrite recognisable_same.
    split; [tauto|]. intros. split_and!; done || lia. }
  split; [exact Hiff|]. rewrite Hiff. clear Hiff. intros Hnr.
  apply validate_self_unrecognisable; done.
Qed.

(** Narrowing only narrows.  A narrowed lease keeps its identity and
    binding, never validates longer than the original nor past [not_after], and
    narrowing again with a later bound changes nothing. *)
Theorem narrow_expiry_narrows (s : LeaseIssuer) (l : ComputeLease) (t t' : MonotonicTime)
    (p : ProvenanceRecord) (now : MonotonicTime) :
  lease_id (ComputeLease_narrow_expiry l t) = lease_id l ∧
  origin (ComputeLease_narrow_expiry l t) = origin l ∧
  (∀ r, LeaseIssuer_validate s (ComputeLease_narrow_expiry l t) p now = Valid r →
     ¬ time_le t now ∧ ∃ r', LeaseIssuer_validate s l p now = Valid r' ∧ (r ≤ r')%N) ∧
  (time_le t t' → ComputeLease_narrow_expiry (ComputeLease_narrow_expiry l t) t' =
     ComputeLease_narrow_expiry l t).
Proof.
  split; [done|]. split; [done|]. unfold time_le. split.
  - intros r Hv. apply validate_Valid in Hv as (? & ? & Hb & Hlt & ->). cbn in *.
    split; [lia|]. exists (as_nanos (expires_at l) - as_nanos now)%N. split; [|lia].
    apply validate_Valid. split; [done|]. split; [done|]. split; [exact Hb|]. lia.
  - intros Htt. unfold ComputeLease_narrow_expiry, MonotonicTime_min. cbn. do 2 f_equal. lia.
Qed.

(** An agent restart invalidates every outstanding lease: under an issuer
    with another instance id, no lease of the old one is valid, revocable or
    re-issued. *)
Theorem restart_invalidates (i i' : IssuerInstanceId) (m m' : Duration) (ls ls' : list ComputeLease)
    (s s' : LeaseIssuer) (l : ComputeLease) (p : ProvenanceRecord) (now : MonotonicTime)
    (Hne : i' ≠ i) (Hold : issuer_run (LeaseIssuer_new i m) ls s) (Hl : l ∈ ls)
    (Hnew : issuer_run (LeaseIssuer_new i' m') ls' s') :
  LeaseIssuer_validate s' l p now = ForeignIssuer i ∧
  LeaseIssuer_revoke s' (lease_id l) = (RevokeForeignIssuer, s') ∧
  lease_id l ∉ lease_id <$> ls'.
Proof.
  destruct (issuer_run_ids _ _ _ Hold) as (_ & _ & Hall).
  destruct (Hall l Hl) as [Hil _]. cbn in Hil.
  destruct (issuer_run_mono _ _ _ Hnew) as (Hi' & _). cbn in Hi'.
  unfold LeaseIssuer_validate, LeaseIssuer_revoke. rewrite Hil, Hi'.
  rewrite !decide_True by congruence. split; [done|]. split; [done|].
  destruct (issuer_run_ids _ _ _ Hnew) as (_ & _ & Hall').
  intros (l' & Heq & [Hil' _]%Hall')%list_elem_of_fmap. cbn in Hil'. congruence.
Qed.

(** ** Witnesses *)

Definition sample_origin : ProvenanceRecord := mk_ProvenanceRecord sample_context sample_request.
Definition sample_instance : IssuerInstanceId := mk_IssuerInstanceId "agent-pid-1-start-7".
Definition sample_issuer : LeaseIssuer := LeaseIssuer_new sample_instance 600.
Definition sample_lease : ComputeLease :=
  mk_ComputeLease (mk_LeaseId sample_instance 0) sample_origin
    (PolicySet_provenance sample_policy) (ExplicitAllow {[mk_RuleId "allow-uid"]})
    (mk_MonotonicTime 5) (mk_MonotonicTime 305).
Definition sample_issuer_1 : LeaseIssuer := mk_LeaseIssuer sample_instance 600 1 ∅.
Definition sample_issuer_2 : LeaseIssuer := mk_LeaseIssuer sample_instance 600 1 {[0%N]}.

Lemma sample_issue :
  LeaseIssuer_issue sample_issuer sample_policy sample_origin (mk_MonotonicTime 5) 300 =
  (Ok sample_lease, sample_issuer_1).
Proof. by vm_compute. Qed.

Lemma sample_run : issuer_run sample_issuer [sample_lease] sample_issuer_1.
Proof. eapply run_issue; [done|exact sample_issue|apply run_nil]. Qed.

Lemma sample_revoke :
  LeaseIssuer_revoke sample_issuer_1 (lease_id sample_lease) = (RevokedNow, sample_issuer_2).
Proof. by vm_compute. Qed.

Lemma validity_only_decreases_witness :
  LeaseIssuer_validate sample_issuer sample_lease sample_origin (mk_MonotonicTime 105) = Valid 200.
Proof.
  apply (validity_only_decreases sample_issuer sample_issuer_1 [sample_lease] sample_lease
    sample_origin (mk_MonotonicTime 105) (mk_MonotonicTime 205) 100).
  - exact sample_run.
  - by vm_compute.
  - by vm_compute.
Defined.

Lemma revocation_is_final_witness :
  (RevokedNow = RevokedNow ∨ RevokedNow = AlreadyRevoked) ∧
  LeaseIssuer_validate sample_issuer_2 sample_lease sample_origin (mk_MonotonicTime 6) = Revoked.
Proof.
  apply (revocation_is_final sample_issuer_1 sample_issuer_2 sample_issuer_2 [sample_lease] []
    sample_lease RevokedNow sample_origin (mk_MonotonicTime 6) sample_instance 600).
  - exact sample_run.
  - apply list_elem_of_singleton. done.
  - exact sample_revoke.
  - apply run_nil.
Defined.

Lemma issued_ids_distinct_witness :
  NoDup (lease_id <$> [sample_lease]) ∧
  (∀ l, l ∈ [sample_lease] → issuer (lease_id l) = sample_instance ∧
     (sequence (lease_id l) < next_sequence sample_issuer_1)%N) ∧
  (∀ l id o s' p now, l ∈ [sample_lease] → LeaseIssuer_revoke sample_issuer_1 id = (o, s') →
     id ≠ lease_id l →
     LeaseIssuer_validate s' l p now = LeaseIssuer_validate sample_issuer_1 l p now).
Proof. apply (issued_ids_distinct sample_instance 600). exact sample_run. Defined.

Lemma fresh_lease_usable_witness :
  (LeaseIssuer_validate sample_issuer_1 sample_lease sample_origin (mk_MonotonicTime 5) = Valid 300 ↔
     recognisable (workload (context sample_origin))) ∧
  (LeaseIssuer_validate sample_issuer_1 sample_lease sample_origin (mk_MonotonicTime 5) ≠ Valid 300 →
   LeaseIssuer_validate sample_issuer_1 sample_lease sample_origin (mk_MonotonicTime 5) =
     WorkloadIndeterminate).
Proof.
  apply (fresh_lease_usable sample_issuer sample_issuer_1 sample_policy).
  - apply issuer_wf_new.
  - exact sample_issue.
Defined.

Lemma restart_invalidates_witness :
  LeaseIssuer_validate (LeaseIssuer_new (mk_IssuerInstanceId "agent-pid-2-start-9") 600)
    sample_lease sample_origin (mk_MonotonicTime 6) = ForeignIssuer sample_instance ∧
  LeaseIssuer_revoke (LeaseIssuer_new (mk_IssuerInstanceId "agent-pid-2-start-9") 600)
    (lease_id sample_lease) =
    (RevokeForeignIssuer, LeaseIssuer_new (mk_IssuerInstanceId "agent-pid-2-start-9") 600) ∧
  lease_id sample_lease ∉ lease_id <$> [].
Proof.
  apply (restart_invalidates sample_instance (mk_IssuerInstanceId "agent-pid-2-start-9") 600 600
    [sample_lease] [] sample_issuer_1).
  - done.
  - exact sample_run.
  - apply list_elem_of_singleton. done.
  - apply run_nil.
Defined.
