(* ===== verification/Peer.v ===== *)
(** * Peer credentials

    Models [crates/eltanin-core/src/peer.rs]: the kernel credential of a
    connected peer, the cross-check against independently observed user ids,
    and the context that is authorizable only when both agree. *)

From S2P Require Import Prelude Resource Identity PolicySpec.

Record PeerCredential : Type := mk_PeerCredential {
  cred_pid : N;
  effective_uid : N;
  effective_gid : N
}.

#[export] Instance PeerCredential_eq_dec : EqDecision PeerCredential.
Proof. solve_decision. Defined.

Definition PeerCredential_from_kernel (p u g : N) : PeerCredential := mk_PeerCredential p u g.

Inductive PeerConsistency : Type :=
  | Consistent
  | CredentialDivergence (peer_effective_uid : N) (observed_real_uid observed_effective_uid : Evidence N)
  | PeerUnmapped
  | PeerIndeterminate (why : string).

#[export] Instance PeerConsistency_eq_dec : EqDecision PeerConsistency.
Proof. solve_decision. Defined.

(** The [matches] closure of [classify_consistency]. *)
Definition uid_matches (peer_effective_uid : N) (evidence : Evidence N) : bool :=
  match evidence with
  | Present value source =>
      bool_decide (source ≠ SelfAsserted) && bool_decide (value = peer_effective_uid)
  | Missing _ | EvUnsupported => false
  end.

Definition classify_consistency (peer_effective_uid : N)
    (observed_real_uid observed_effective_uid : Evidence N) : PeerConsistency :=
  if uid_matches peer_effective_uid observed_real_uid
     || uid_matches peer_effective_uid observed_effective_uid
  then Consistent
  else
    match observed_real_uid, observed_effective_uid with
    | Missing why, Missing _ => PeerIndeterminate why
    | _, _ => CredentialDivergence peer_effective_uid observed_real_uid observed_effective_uid
    end.

Record PeerContext : Type := mk_PeerContext {
  credential : PeerCredential;
  consistency : PeerConsistency;
  observed : ExecutionContext
}.

#[export] Instance PeerContext_eq_dec : EqDecision PeerContext.
Proof. solve_decision. Defined.

Definition PeerContext_from_kernel_observation (c : PeerCredential) (obs : ExecutionContext)
    (observed_real_uid observed_effective_uid : Evidence N) : PeerContext :=
  mk_PeerContext c
    (classify_consistency (effective_uid c) observed_real_uid observed_effective_uid) obs.

Definition PeerContext_peer_unmapped (c : PeerCredential) (obs : ExecutionContext) : PeerContext :=
  mk_PeerContext c PeerUnmapped obs.

Definition PeerContext_authorizable (self : PeerContext) : option ExecutionContext :=
  if decide (consistency self = Consistent) then Some (observed self) else None.

Inductive PeerCredentialError : Type :=
  | PeerIo (why : string)
  | UnsupportedPlatform.

#[export] Instance PeerCredentialError_eq_dec : EqDecision PeerCredentialError.
Proof. solve_decision. Defined.

(** The two ways production code obtains a context. *)
Inductive constructed : PeerContext → Prop :=
  | constructed_observed c obs ru eu :
      constructed (PeerContext_from_kernel_observation c obs ru eu)
  | constructed_unmapped c obs : constructed (PeerContext_peer_unmapped c obs).

(** ** Lemmas *)

Lemma uid_matches_spec u e : uid_matches u e = true ↔ trusted e u.
Proof.
  unfold trusted. destruct e as [v s|w|]; cbn; [|split; [done|by intros (? & ? & ?)]..].
  rewrite andb_true_iff, !bool_decide_eq_true. split.
  - intros [? ->]. eauto.
  - intros (s' & [= -> ->] & ?). done.
Qed.

Lemma classify_Consistent u ru eu :
  classify_consistency u ru eu = Consistent ↔ trusted ru u ∨ trusted eu u.
Proof.
  rewrite <-!uid_matches_spec, <-orb_true_iff. unfold classify_consistency.
  destruct (_ || _); [done|]. by destruct ru, eu.
Qed.

Lemma authorizable_Some p o :
  PeerContext_authorizable p = Some o ↔ consistency p = Consistent ∧ observed p = o.
Proof. unfold PeerContext_authorizable. case_decide; naive_solver. Qed.

(** ** Properties *)

(** The fail-closed gate.  A peer context is authorizable exactly when the
    kernel's effective user id of the connecting peer equals the real or the
    effective user id observed independently, and that observation is not the
    process's own claim; the context handed out is the one observed.  An
    unmapped peer is never authorizable, and every refused verdict carries its
    own evidence. *)
Theorem authorizable_iff_uid_confirmed (c : PeerCredential) (obs o : ExecutionContext)
    (ru eu : Evidence N) :
  (PeerContext_authorizable (PeerContext_from_kernel_observation c obs ru eu) = Some o ↔
     o = obs ∧ (trusted ru (effective_uid c) ∨ trusted eu (effective_uid c))) ∧
  PeerContext_authorizable (PeerContext_peer_unmapped c obs) = None ∧
  match classify_consistency (effective_uid c) ru eu with
  | Consistent => trusted ru (effective_uid c) ∨ trusted eu (effective_uid c)
  | PeerIndeterminate why => ru = Missing why ∧ ∃ why', eu = Missing why'
  | CredentialDivergence u r e => u = effective_uid c ∧ r = ru ∧ e = eu ∧
      ¬ trusted ru u ∧ ¬ trusted eu u ∧
      ¬ ((∃ why, ru = Missing why) ∧ ∃ why, eu = Missing why)
  | PeerUnmapped => False
  end.
Proof.
  split; [|split; [done|]].
  - rewrite authorizable_Some. cbn. rewrite classify_Consistent. naive_solver.
  - pose proof (classify_Consistent (effective_uid c) ru eu) as HC. revert HC.
    unfold classify_consistency. destruct (_ || _); [tauto|].
    destruct ru as [v s|w|], eu as [v' s'|w'|]; intros HC; eauto;
      (split_and!; [done..| | |]; [intros Ht; by discriminate (proj2 HC (or_introl Ht))
        |intros Ht; by discriminate (proj2 HC (or_intror Ht))
        |by intros [[? ?] [? ?]]]).
Qed.

(** A divergence is reported without any disagreement.  When neither user
    id could be collected on this platform, or one could not and the other could
    not be read, the verdict is [CredentialDivergence], not [PeerIndeterminate]:
    only two unreadable observations count as insufficient evidence. *)
Theorem divergence_without_disagreement (u : N) (why : string) :
  classify_consistency u EvUnsupported EvUnsupported =
    CredentialDivergence u EvUnsupported EvUnsupported ∧
  classify_consistency u (Missing why) EvUnsupported =
    CredentialDivergence u (Missing why) EvUnsupported ∧
  classify_consistency u EvUnsupported (Missing why) =
    CredentialDivergence u EvUnsupported (Missing why) ∧
  classify_consistency u (Missing why) (Missing why) = PeerIndeterminate why.
Proof. by split_and!. Qed.

(** ** Sample data *)

Definition sample_peer : PeerContext :=
  PeerContext_from_kernel_observation (mk_PeerCredential 42 1000 1000) sample_context
    (Present 1000%N KernelObserved) (Present 1000%N KernelObserved).
