(* ===== verification/Backend.v ===== *)
(** * Compute backends

    Models [crates/eltanin-backend]: the vendor-neutral [ComputeBackend] trait
    as a class of operations and its documented promises as a class of laws
    ([contract.rs]), the in-memory [FakeBackend] ([fake.rs]), and the Apple
    adapter of [crates/eltanin-apple] ([backend.rs], [device.rs]).  Methods that
    mutate behind [&self] return the next state; a [HashMap] is a [gmap]. *)

From stdpp Require Import pretty.
From S2P Require Import Prelude Resource PolicySpec.

(** ** The contract *)

Inductive BackendError : Type :=
  | BUnsupported (capability : Capability)
  | Unavailable (res : ResourceIdentity)
  | PermissionDenied
  | Transient (message : string)
  | Invariant (message : string).

#[export] Instance BackendError_eq_dec : EqDecision BackendError.
Proof. solve_decision. Defined.

Class ComputeBackend (B : Type) : Type := {
  discover : B → result (list ProtectedResource) BackendError;
  observe : B → ResourceIdentity → result ProtectedResource BackendError;
  enforce : B → ComputeRequest → result EnforcementResult BackendError * B;
  revoke : B → ResourceIdentity → result EnforcementResult BackendError * B
}.

(** What the trait's documentation promises its callers: a missing capability
    never masquerades as success. *)
Class BackendContract (B : Type) `{ComputeBackend B} : Prop := {
  enforce_honest : ∀ b q r,
    observe b (resource q) = Ok r →
    ResourceCapabilities_supports (capabilities r) DeviceEnforce = false →
    (enforce b q).1 ≠ Ok Allowed;
  revoke_honest : ∀ b res r,
    observe b res = Ok r →
    ResourceCapabilities_supports (capabilities r) DeviceRevoke = false →
    (revoke b res).1 ≠ Ok Allowed
}.

(** ** The fake backend *)

Module Fake.

Record FakeBackend : Type := mk_FakeBackend {
  resources : gmap ResourceIdentity ProtectedResource;
  scripted_enforcement : gmap ResourceIdentity EnforcementResult;
  revoke_calls : gmap ResourceIdentity N
}.

Definition FakeBackend_new : FakeBackend := mk_FakeBackend ∅ ∅ ∅.

Definition FakeBackend_insert (self : FakeBackend) (r : ProtectedResource) : FakeBackend :=
  mk_FakeBackend (<[identity r := r]> (resources self)) (scripted_enforcement self)
    (revoke_calls self).

Definition FakeBackend_remove (self : FakeBackend) (i : ResourceIdentity) : FakeBackend :=
  mk_FakeBackend (delete i (resources self)) (delete i (scripted_enforcement self))
    (revoke_calls self).

Definition FakeBackend_script_enforcement (self : FakeBackend) (i : ResourceIdentity)
    (r : EnforcementResult) : FakeBackend :=
  mk_FakeBackend (resources self) (<[i := r]> (scripted_enforcement self)) (revoke_calls self).

Definition FakeBackend_revoke_call_count (self : FakeBackend) (i : ResourceIdentity) : N :=
  default 0%N (revoke_calls self !! i).

(** A [HashMap]'s [values()] come in an unspecified order; [map_to_list] stands
    for one, and nothing below depends on which. *)
Definition FakeBackend_discover (self : FakeBackend) :
    result (list ProtectedResource) BackendError :=
  Ok (map_to_list (resources self)).*2.

Definition FakeBackend_observe (self : FakeBackend) (i : ResourceIdentity) :
    result ProtectedResource BackendError :=
  ok_or (resources self !! i) (Unavailable i).

Definition FakeBackend_enforce (self : FakeBackend) (q : ComputeRequest) :
    result EnforcementResult BackendError :=
  let? r := FakeBackend_observe self (resource q) in
  if negb (ResourceCapabilities_supports (capabilities r) DeviceEnforce) then
    Ok (EUnsupported DeviceEnforce)
  else
    match scripted_enforcement self !! resource q with
    | Some scripted => Ok scripted
    | None => Ok Allowed
    end.

(** The call is counted first; the counter is a [u32]. *)
Definition FakeBackend_count_revoke (self : FakeBackend) (i : ResourceIdentity) : FakeBackend :=
  mk_FakeBackend (resources self) (scripted_enforcement self)
    (<[i := ((FakeBackend_revoke_call_count self i + 1) `mod` (u32_max + 1))%N]>
       (revoke_calls self)).

Definition FakeBackend_revoke (self : FakeBackend) (i : ResourceIdentity) :
    result EnforcementResult BackendError * FakeBackend :=
  let self' := FakeBackend_count_revoke self i in
  (let? r := FakeBackend_observe self' i in
   if negb (ResourceCapabilities_supports (capabilities r) DeviceRevoke) then
     Ok (EUnsupported DeviceRevoke)
   else Ok Allowed, self').

#[export] Instance FakeBackend_ComputeBackend : ComputeBackend FakeBackend := {
  discover := FakeBackend_discover;
  observe := FakeBackend_observe;
  enforce := λ b q, (FakeBackend_enforce b q, b);
  revoke := FakeBackend_revoke
}.

(** Every entry of the resource map is filed under its own identity. *)
Definition FakeBackend_wf (b : FakeBackend) : Prop :=
  map_Forall (λ i r, identity r = i) (resources b).

End Fake.

(** ** The Apple adapter *)

Module Apple.

Record DeviceSnapshot : Type := mk_DeviceSnapshot {
  registry_id : N;
  device_name : string;
  has_unified_memory : bool
}.

Definition apple_vendor : ResourceVendor := mk_ResourceVendor "apple".

Definition snapshot_to_resource (s : DeviceSnapshot) : ProtectedResource :=
  mk_ProtectedResource
    (mk_ResourceIdentity apple_vendor ResourceKind_gpu (pretty (registry_id s)))
    (ResourceCapabilities_from_states
       [(DiscoverResource, Supported); (ObserveResource, Partial);
        (ObserveWorkload, Unsupported); (AttributeWorkload, Unsupported);
        (Authorize, Unsupported); (ControlledLaunch, NotEvaluated);
        (DeviceEnforce, Unsupported); (DeviceRevoke, Unsupported);
        (Attest, Unsupported)])
    (if has_unified_memory s then Unified else NotReportable).

(** The unit struct together with what its methods read from the host: the
    compile-time target, and the devices Metal reports. *)
Record AppleBackend : Type := mk_AppleBackend {
  target_macos : bool;
  snapshot_all : list DeviceSnapshot
}.

Definition AppleBackend_discover (self : AppleBackend) :
    result (list ProtectedResource) BackendError :=
  if target_macos self then Ok (snapshot_to_resource <$> snapshot_all self)
  else Err (BUnsupported DiscoverResource).

Definition AppleBackend_observe (self : AppleBackend) (i : ResourceIdentity) :
    result ProtectedResource BackendError :=
  if target_macos self then
    ok_or (snd <$> list_find (λ r, identity r = i) (snapshot_to_resource <$> snapshot_all self))
      (Unavailable i)
  else Err (BUnsupported ObserveResource).

Definition AppleBackend_enforce (_ : AppleBackend) (_ : ComputeRequest) :
    result EnforcementResult BackendError := Ok (EUnsupported DeviceEnforce).

Definition AppleBackend_revoke (_ : AppleBackend) (_ : ResourceIdentity) :
    result EnforcementResult BackendError := Ok (EUnsupported DeviceRevoke).

#[export] Instance AppleBackend_ComputeBackend : ComputeBackend AppleBackend := {
  discover := AppleBackend_discover;
  observe := AppleBackend_observe;
  enforce := λ b q, (AppleBackend_enforce b q, b);
  revoke := λ b i, (AppleBackend_revoke b i, b)
}.

End Apple.

(** ** Both implement the contract *)

Import Fake Apple.

#[export] Instance FakeBackend_contract : BackendContract FakeBackend.
Proof.
  split.
  - intros b q r Ho Hs. cbn in *. unfold FakeBackend_enforce. by rewrite Ho; cbn; rewrite Hs.
  - intros b res r Ho Hs. cbn in *. unfold FakeBackend_observe in *. cbn. rewrite Ho. cbn.
    by rewrite Hs.
Qed.

#[export] Instance AppleBackend_contract : BackendContract AppleBackend.
Proof. by split. Qed.

(** ** Lemmas *)

Lemma fake_wf_insert b r : FakeBackend_wf b → FakeBackend_wf (FakeBackend_insert b r).
Proof. intros H. by apply map_Forall_insert_2. Qed.
Lemma fake_wf_remove b i : FakeBackend_wf b → FakeBackend_wf (FakeBackend_remove b i).
Proof. intros H. by apply map_Forall_delete. Qed.
#[export] Hint Resolve fake_wf_insert fake_wf_remove : eltanin.

Lemma apple_supports_nothing s c :
  ResourceCapabilities_supports (capabilities (snapshot_to_resource s)) c = true →
  c = DiscoverResource.
Proof. by destruct c. Qed.

Lemma snapshot_identity_inj s s' :
  identity (snapshot_to_resource s) = identity (snapshot_to_resource s') →
  registry_id s = registry_id s'.
Proof. intros [= Hp]. by apply (inj pretty) in Hp. Qed.

Lemma map_to_list_snd_elem (m : gmap ResourceIdentity ProtectedResource) r :
  r ∈ (map_to_list m).*2 ↔ ∃ i, m !! i = Some r.
Proof.
  rewrite list_elem_of_fmap. split.
  - intros ([i r'] & -> & Hin%elem_of_map_to_list). eauto.
  - intros (i & Hi%elem_of_map_to_list). by exists (i, r).
Qed.

(** ** Properties *)

(** The fake backend behaves as a backend must.  It discovers exactly the
    resources it can observe; [enforce] refuses an absent resource, never lets a
    script hide a missing capability, and otherwise answers the script or
    [Allowed]; [revoke] is counted on every path, failures included, for that
    resource only, and changes nothing else. *)
Theorem fake_backend_behaviour (b : FakeBackend) (q : ComputeRequest) (Hwf : FakeBackend_wf b) :
  (∃ rs, discover b = Ok rs ∧ ∀ r, r ∈ rs ↔ observe b (identity r) = Ok r) ∧
  enforce b q =
    (match resources b !! resource q with
     | None => Err (Unavailable (resource q))
     | Some r =>
         if decide (support (capabilities r) !! DeviceEnforce = Some Supported)
         then Ok (default Allowed (scripted_enforcement b !! resource q))
         else Ok (EUnsupported DeviceEnforce)
     end, b) ∧
  ((FakeBackend_revoke_call_count b (resource q) < u32_max)%N →
   FakeBackend_revoke_call_count (revoke b (resource q)).2 (resource q) =
     (FakeBackend_revoke_call_count b (resource q) + 1)%N) ∧
  (∀ i, i ≠ resource q → FakeBackend_revoke_call_count (revoke b (resource q)).2 i =
     FakeBackend_revoke_call_count b i) ∧
  resources (revoke b (resource q)).2 = resources b ∧
  scripted_enforcement (revoke b (resource q)).2 = scripted_enforcement b.
Proof.
  cbn. split_and!; try done.
  - eexists. split; [done|]. intros r. rewrite map_to_list_snd_elem. unfold FakeBackend_observe.
    split.
    + intros (i & Hi). pose proof (Hwf _ _ Hi) as Hid. cbn in Hid. by rewrite Hid, Hi.
    + destruct (resources b !! identity r) eqn:Hi; [|done]. intros [= ->]. eauto.
  - unfold FakeBackend_enforce, FakeBackend_observe, ResourceCapabilities_supports,
      ResourceCapabilities_state_of.
    destruct (resources b !! resource q) as [r|]; cbn; [|done]. f_equal.
    destruct (support (capabilities r) !! DeviceEnforce) as [[]|]; cbn; try done.
    by destruct (scripted_enforcement b !! resource q).
  - intros Hlt. unfold FakeBackend_revoke_call_count at 1, FakeBackend_count_revoke. cbn.
    rewrite lookup_insert_eq. cbn. apply N.mod_small. unfold u32_max in *. lia.
  - intros i Hne. unfold FakeBackend_revoke_call_count, FakeBackend_count_revoke. cbn.
    by rewrite lookup_insert_ne.
Qed.

(** The Apple adapter is observe-only, on every target.  It never answers
    [Allowed]; on macOS it reports one resource per Metal device, told apart by
    registry id, and observes exactly those; the only capability it proves is
    discovery, and it never invents a dedicated memory size.  Elsewhere every
    query is refused as unsupported. *)
Theorem apple_backend_observe_only (b : AppleBackend) (q : ComputeRequest)
    (i : ResourceIdentity) :
  enforce b q = (Ok (EUnsupported DeviceEnforce), b) ∧
  revoke b i = (Ok (EUnsupported DeviceRevoke), b) ∧
  (target_macos b = false →
     discover b = Err (BUnsupported DiscoverResource) ∧
     observe b i = Err (BUnsupported ObserveResource)) ∧
  (target_macos b = true →
     discover b = Ok (snapshot_to_resource <$> snapshot_all b) ∧
     (observe b i = Err (Unavailable i) ↔
        ∀ s, s ∈ snapshot_all b → identity (snapshot_to_resource s) ≠ i) ∧
     (∀ s, s ∈ snapshot_all b → NoDup (registry_id <$> snapshot_all b) →
        observe b (identity (snapshot_to_resource s)) = Ok (snapshot_to_resource s))) ∧
  (∀ s c, ResourceCapabilities_supports (capabilities (snapshot_to_resource s)) c = true →
     c = DiscoverResource) ∧
  (∀ s n, memory (snapshot_to_resource s) ≠ Dedicated n).
Proof.
  split; [done|]. split; [done|]. split; [|split; [|split; [apply apple_supports_nothing|]]].
  - intros Hm. cbn. unfold AppleBackend_discover, AppleBackend_observe. by rewrite Hm.
  - intros Hm. cbn. unfold AppleBackend_discover, AppleBackend_observe. rewrite Hm.
    split; [done|]. split.
    + destruct (list_find _ _) as [[k r]|] eqn:Hf; cbn; (split; [intros ?|intros Hn]); try done.
      * exfalso. apply list_find_Some in Hf as (Hk & Hid & _).
        apply list_elem_of_lookup_2, list_elem_of_fmap in Hk as (s & -> & Hs). by eapply Hn.
      * apply list_find_None in Hf. rewrite Forall_fmap, Forall_forall in Hf. exact Hf.
    + intros s Hs Hnd.
      destruct (list_find _ _) as [[k r]|] eqn:Hf.
      2: { apply list_find_None in Hf. rewrite Forall_fmap, Forall_forall in Hf.
           by destruct (Hf s Hs). }
      cbn. f_equal. apply list_find_Some in Hf as (Hk & Hid & _).
      apply list_elem_of_lookup_2, list_elem_of_fmap in Hk as (s' & -> & Hs').
      apply snapshot_identity_inj in Hid.
      apply list_elem_of_lookup_1 in Hs as (m & Hm1), Hs' as (m' & Hm2).
      assert (m = m') as <-.
      { eapply NoDup_lookup; [exact Hnd|..]; rewrite list_lookup_fmap;
          [by rewrite Hm1|rewrite Hm2; cbn; by rewrite Hid]. }
      congruence.
  - intros s n. cbn. by destruct (has_unified_memory s).
Qed.

(** ** Witnesses and sample data *)

Definition sample_protected : ProtectedResource :=
  mk_ProtectedResource sample_resource (ResourceCapabilities_new [DeviceEnforce; DeviceRevoke])
    NotReportable.
Definition sample_backend : FakeBackend := FakeBackend_insert FakeBackend_new sample_protected.

Lemma sample_backend_wf : FakeBackend_wf sample_backend.
Proof. apply fake_wf_insert. apply map_Forall_empty. Qed.

Lemma fake_backend_behaviour_witness :
  (∃ rs, discover sample_backend = Ok rs ∧
     ∀ r, r ∈ rs ↔ observe sample_backend (identity r) = Ok r) ∧
  enforce sample_backend sample_request = (Ok Allowed, sample_backend).
Proof.
  destruct (fake_backend_behaviour sample_backend sample_request sample_backend_wf)
    as (Hd & He & _). split; [exact Hd|]. rewrite He. by vm_compute.
Defined.
