(* ===== verification/Protocol.v ===== *)
(** * The local IPC protocol

    Models [crates/eltanin-protocol]: request and response types
    ([request.rs], [response.rs]) and the framing ([framing.rs]), with bytes as
    [Byte.byte] and the 4-byte big-endian header written out.  The JSON encoding
    is a class of functions with what the framing relies on as a class of laws, so that
    nothing here depends on the schema; [Wire] gives the encoding the derived
    implementations make, and shows the laws. *)

From Stdlib Require Import Strings.Byte.
From S2P Require Import Prelude Json Resource Identity PolicySpec Lease.

(** ** Requests (request.rs) *)

Record RequestId : Type := mk_RequestId { request_id_num : N }.

#[export] Instance RequestId_eq_dec : EqDecision RequestId.
Proof. solve_decision. Defined.

Record LeaseRequest : Type := mk_LeaseRequest {
  lr_resource : ResourceIdentity;
  lr_action : Action
}.

#[export] Instance LeaseRequest_eq_dec : EqDecision LeaseRequest.
Proof. solve_decision. Defined.

Record ReleaseRequest : Type := mk_ReleaseRequest { rr_lease_id : LeaseId }.

#[export] Instance ReleaseRequest_eq_dec : EqDecision ReleaseRequest.
Proof. solve_decision. Defined.

Inductive ClientRequest : Type :=
  | RequestLease (r : LeaseRequest)
  | ReleaseLease (r : ReleaseRequest)
  | AgentStatus.

#[export] Instance ClientRequest_eq_dec : EqDecision ClientRequest.
Proof. solve_decision. Defined.

Record RequestBody : Type := mk_RequestBody {
  req_id : RequestId;
  req_body : ClientRequest
}.

#[export] Instance RequestBody_eq_dec : EqDecision RequestBody.
Proof. solve_decision. Defined.

Definition Request : Type := Versioned RequestBody.

#[export] Instance Request_eq_dec : EqDecision Request := _.

Definition provenance_for (r : LeaseRequest) (derived : ExecutionContext) : ProvenanceRecord :=
  ProvenanceRecord_new derived (mk_ComputeRequest (lr_resource r) (lr_action r)).

(** ** Responses (response.rs) *)

Record LeaseView : Type := mk_LeaseView {
  view_lease_id : LeaseId;
  view_remaining : Duration
}.

#[export] Instance LeaseView_eq_dec : EqDecision LeaseView.
Proof. solve_decision. Defined.

Inductive DenialReason : Type :=
  | DrNoMatchingRule
  | DrExplicitDeny
  | DrIndeterminateEvidence.

#[export] Instance DenialReason_eq_dec : EqDecision DenialReason.
Proof. solve_decision. Defined.

Inductive ReleaseOutcome : Type :=
  | Released
  | Refused.

#[export] Instance ReleaseOutcome_eq_dec : EqDecision ReleaseOutcome.
Proof. solve_decision. Defined.

Record AgentStatusView : Type := mk_AgentStatusView { protocol_version : N }.

#[export] Instance AgentStatusView_eq_dec : EqDecision AgentStatusView.
Proof. solve_decision. Defined.

Inductive ErrorCode : Type :=
  | CodeUnsupportedVersion (found expected : N)
  | CodeMalformedRequest
  | CodeOversized
  | CodeUnknownOperation
  | CodeInternal.

#[export] Instance ErrorCode_eq_dec : EqDecision ErrorCode.
Proof. solve_decision. Defined.

Inductive AgentResponse : Type :=
  | LeaseGranted (lease : LeaseView)
  | LeaseDenied (why : DenialReason)
  | LeaseReleased (outcome : ReleaseOutcome)
  | Status (status : AgentStatusView)
  | ErrorResponse (code : ErrorCode).

#[export] Instance AgentResponse_eq_dec : EqDecision AgentResponse.
Proof. solve_decision. Defined.

Record ResponseBody : Type := mk_ResponseBody {
  resp_id : option RequestId;
  resp_body : AgentResponse
}.

#[export] Instance ResponseBody_eq_dec : EqDecision ResponseBody.
Proof. solve_decision. Defined.

Definition Response : Type := Versioned ResponseBody.

#[export] Instance Response_eq_dec : EqDecision Response := _.

(** ** The JSON codec

    [serde_json::from_slice] and [to_vec] at the five types [framing.rs] uses
    them at; [None] is any decode error. *)

Class WireCodec : Type := {
  json_version_peek : list byte → option N;
  json_header_peek : list byte → option RequestId;
  json_to_request : list byte → option Request;
  json_to_response : list byte → option Response;
  request_to_json : Request → list byte;
  response_to_json : Response → list byte
}.

(** The words of a message fit their types, as those of every Rust value do. *)
Definition LeaseId_in_range (id : LeaseId) : Prop := (sequence id ≤ u64_max)%N.

Definition ClientRequest_in_range (rq : ClientRequest) : Prop :=
  match rq with
  | ReleaseLease q => LeaseId_in_range (rr_lease_id q)
  | RequestLease _ | AgentStatus => True
  end.

Definition Request_in_range (r : Request) : Prop :=
  (version r ≤ u16_max)%N ∧ (request_id_num (req_id (payload r)) ≤ u64_max)%N ∧
  ClientRequest_in_range (req_body (payload r)).

Definition AgentResponse_in_range (a : AgentResponse) : Prop :=
  match a with
  | LeaseGranted v => LeaseId_in_range (view_lease_id v) ∧ (view_remaining v ≤ Duration_max)%N
  | Status s => (protocol_version s ≤ u16_max)%N
  | ErrorResponse (CodeUnsupportedVersion f e) => (f ≤ u16_max)%N ∧ (e ≤ u16_max)%N
  | _ => True
  end.

Definition Response_in_range (r : Response) : Prop :=
  (version r ≤ u16_max)%N ∧
  from_option (λ i, request_id_num i ≤ u64_max)%N True (resp_id (payload r)) ∧
  AgentResponse_in_range (resp_body (payload r)).

(** A derived [Deserialize] inverts the derived [Serialize], and the two peeks
    read the fields they name out of a well-formed message. *)
Class WireCodecLaws `{WireCodec} : Prop := {
  json_request_roundtrip : ∀ r, Request_in_range r →
    json_to_request (request_to_json r) = Some r;
  json_request_version : ∀ r, Request_in_range r →
    json_version_peek (request_to_json r) = Some (version r);
  json_request_header : ∀ r, Request_in_range r →
    json_header_peek (request_to_json r) = Some (req_id (payload r));
  json_response_roundtrip : ∀ r, Response_in_range r →
    json_to_response (response_to_json r) = Some r;
  json_response_version : ∀ r, Response_in_range r →
    json_version_peek (response_to_json r) = Some (version r)
}.

(** ** Framing (framing.rs) *)

Definition MAX_FRAME_BYTES : N := 64 * 1024.

Inductive FramingError : Type :=
  | Oversized (len max : N).

Inductive ProtocolError : Type :=
  | Framing (e : FramingError)
  | Malformed
  | VersionError (e : UnsupportedVersion).

#[export] Instance FramingError_eq_dec : EqDecision FramingError.
Proof. solve_decision. Defined.
#[export] Instance ProtocolError_eq_dec : EqDecision ProtocolError.
Proof. solve_decision. Defined.

Definition len_N {A} (l : list A) : N := N.of_nat (length l).

(** The byte of a residue modulo 256, and the two [u32] conversions. *)
Definition byte_of_N (n : N) : byte := default x00 (Byte.of_N (n `mod` 256)).

Definition u32_to_be_bytes (n : N) : list byte :=
  [byte_of_N (n `div` 16777216); byte_of_N (n `div` 65536); byte_of_N (n `div` 256); byte_of_N n].

Definition u32_from_be_bytes (b0 b1 b2 b3 : byte) : N :=
  (((Byte.to_N b0 * 256 + Byte.to_N b1) * 256 + Byte.to_N b2) * 256 + Byte.to_N b3)%N.

(** The argument is a [ [u8; 4] ]. *)
Definition decode_frame_len (header : byte * byte * byte * byte) : result N FramingError :=
  let '(b0, b1, b2, b3) := header in
  let len := u32_from_be_bytes b0 b1 b2 b3 in
  if decide (MAX_FRAME_BYTES < len)%N then Err (Oversized len MAX_FRAME_BYTES) else Ok len.

Definition encode_frame (p : list byte) : result (list byte) FramingError :=
  if decide (MAX_FRAME_BYTES < len_N p)%N then Err (Oversized (len_N p) MAX_FRAME_BYTES)
  else Ok (u32_to_be_bytes (len_N p) ++ p).

Section codec.
Context `{WireCodec}.

Definition peek_version (body : list byte) : option N := json_version_peek body.

Definition peek_request_id (body : list byte) : option RequestId := json_header_peek body.

Definition decode_request (body : list byte) : result Request ProtocolError :=
  if decide (MAX_FRAME_BYTES < len_N body)%N then
    Err (Framing (Oversized (len_N body) MAX_FRAME_BYTES))
  else
    let? v := ok_or (peek_version body) Malformed in
    if decide (v ≠ DOMAIN_SCHEMA_VERSION) then
      Err (VersionError (mk_UnsupportedVersion v DOMAIN_SCHEMA_VERSION))
    else ok_or (json_to_request body) Malformed.

Definition encode_response (r : Response) : result (list byte) FramingError :=
  encode_frame (response_to_json r).

Definition encode_request (r : Request) : result (list byte) FramingError :=
  encode_frame (request_to_json r).

Definition decode_response (body : list byte) : result Response ProtocolError :=
  if decide (MAX_FRAME_BYTES < len_N body)%N then
    Err (Framing (Oversized (len_N body) MAX_FRAME_BYTES))
  else
    let? v := ok_or (peek_version body) Malformed in
    if decide (v ≠ DOMAIN_SCHEMA_VERSION) then
      Err (VersionError (mk_UnsupportedVersion v DOMAIN_SCHEMA_VERSION))
    else ok_or (json_to_response body) Malformed.

End codec.

(** Reading a whole frame back: header, bound, then exactly the body. *)
Definition split_frame (bytes : list byte) : option (list byte) :=
  match bytes with
  | b0 :: b1 :: b2 :: b3 :: body =>
      match decode_frame_len (b0, b1, b2, b3) with
      | Ok len => if decide (len = len_N body) then Some body else None
      | Err _ => None
      end
  | _ => None
  end.

(** ** Lemmas *)

Lemma byte_to_N_bound b : (Byte.to_N b < 256)%N.
Proof. pose proof (Byte.to_N_bounded b). lia. Qed.

Lemma byte_of_N_spec n : Byte.to_N (byte_of_N n) = (n `mod` 256)%N.
Proof.
  unfold byte_of_N. destruct (Byte.of_N (n `mod` 256)) as [b|] eqn:Hb; cbn.
  - by apply Byte.to_of_N_iff.
  - apply Byte.of_N_None_iff in Hb. pose proof (N.mod_lt n 256 ltac:(done)). lia.
Qed.

Lemma byte_of_to_N b n : (n `mod` 256)%N = Byte.to_N b → byte_of_N n = b.
Proof.
  intros Hn. unfold byte_of_N. rewrite Hn, Byte.of_to_N. done.
Qed.

Lemma u32_from_to_be n :
  (n ≤ u32_max)%N →
  u32_from_be_bytes (byte_of_N (n `div` 16777216)) (byte_of_N (n `div` 65536))
    (byte_of_N (n `div` 256)) (byte_of_N n) = n.
Proof.
  intros Hn. unfold u32_from_be_bytes, u32_max in *. rewrite !byte_of_N_spec.
  change 16777216%N with (256 * 256 * 256)%N. change 65536%N with (256 * 256)%N.
  rewrite <-!N.Div0.div_div.
  pose proof (N.Div0.div_mod n 256). pose proof (N.Div0.div_mod ((n `div` 256)%N) 256).
  pose proof (N.Div0.div_mod ((n `div` 256) `div` 256)%N 256).
  rewrite (N.mod_small (((n `div` 256) `div` 256) `div` 256)%N); [lia|].
  rewrite !N.Div0.div_div. apply N.Div0.div_lt_upper_bound. lia.
Qed.

Lemma div_mod_256 a b :
  (b < 256)%N → ((a * 256 + b) `div` 256)%N = a ∧ ((a * 256 + b) `mod` 256)%N = b.
Proof.
  intros Hb. split; symmetry; [eapply N.div_unique|eapply N.mod_unique]; [exact Hb|lia|exact Hb|].
  rewrite (N.mul_comm 256). done.
Qed.

Lemma u32_to_from_be b0 b1 b2 b3 :
  u32_to_be_bytes (u32_from_be_bytes b0 b1 b2 b3) = [b0; b1; b2; b3].
Proof.
  unfold u32_to_be_bytes, u32_from_be_bytes.
  change 16777216%N with (256 * 256 * 256)%N. change 65536%N with (256 * 256)%N.
  rewrite <-!N.Div0.div_div.
  set (n0 := Byte.to_N b0).
  destruct (div_mod_256 n0 (Byte.to_N b1) (byte_to_N_bound _)) as [Hd1 Hm1].
  set (n1 := (n0 * 256 + Byte.to_N b1)%N) in *.
  destruct (div_mod_256 n1 (Byte.to_N b2) (byte_to_N_bound _)) as [Hd2 Hm2].
  set (n2 := (n1 * 256 + Byte.to_N b2)%N) in *.
  destruct (div_mod_256 n2 (Byte.to_N b3) (byte_to_N_bound _)) as [Hd3 Hm3].
  rewrite Hd3, Hd2, Hd1.
  repeat f_equal; apply byte_of_to_N; try done. apply N.mod_small, byte_to_N_bound.
Qed.

Lemma encode_frame_Ok p f :
  encode_frame p = Ok f ↔ (len_N p ≤ MAX_FRAME_BYTES)%N ∧ f = u32_to_be_bytes (len_N p) ++ p.
Proof.
  unfold encode_frame. case_decide; (split; [|intros [? ->]]).
  - done.
  - lia.
  - intros [= <-]. split; [lia|done].
  - done.
Qed.

Lemma split_frame_encode p f : encode_frame p = Ok f → split_frame f = Some p.
Proof.
  intros [Hlen ->]%encode_frame_Ok. unfold split_frame, u32_to_be_bytes. cbn [app].
  unfold decode_frame_len.
  rewrite u32_from_to_be by (unfold MAX_FRAME_BYTES, u32_max in *; lia).
  rewrite decide_False by lia. by rewrite decide_True.
Qed.

Lemma split_frame_Some f p : split_frame f = Some p ↔ encode_frame p = Ok f.
Proof.
  split; [|apply split_frame_encode].
  unfold split_frame. do 4 (destruct f as [|? f]; [done|]).
  unfold decode_frame_len. case_decide; [done|]. case_decide as Hl; [|done].
  intros [= <-]. apply encode_frame_Ok. rewrite <-Hl, u32_to_from_be. split; [lia|done].
Qed.

(** ** Properties *)

(** Framing is exact.  A length header is accepted exactly when it names at
    most [MAX_FRAME_BYTES], so no header can make a reader allocate more; a
    payload over the bound is never framed; and a frame is read back as the
    payload it was made from and as nothing else (one frame per payload, one
    payload per frame). *)
Theorem framing_exact (p f : list byte) (b0 b1 b2 b3 : byte) :
  (∀ n, decode_frame_len (b0, b1, b2, b3) = Ok n ↔
     n = u32_from_be_bytes b0 b1 b2 b3 ∧ (n ≤ MAX_FRAME_BYTES)%N) ∧
  (encode_frame p = Err (Oversized (len_N p) MAX_FRAME_BYTES) ↔ (MAX_FRAME_BYTES < len_N p)%N) ∧
  (split_frame f = Some p ↔ encode_frame p = Ok f) ∧
  (encode_frame p = Ok f → length f = 4 + length p).
Proof.
  split_and!.
  - intros n. unfold decode_frame_len. case_decide; (split; [|intros [-> ?]]).
    + done.
    + lia.
    + intros [= <-]. split; [done|lia].
    + done.
  - unfold encode_frame. case_decide; done || lia.
  - apply split_frame_Some.
  - intros [_ ->]%encode_frame_Ok. done.
Qed.

Section codec_properties.
Context `{WireCodec}.

(** Decoding a request reports the first of its checks that fails: the size
    bound, then the envelope version (a wrong version is reported as such
    however malformed the payload is), then the shape. *)
Theorem decode_request_reports (body : list byte) :
  match decode_request body with
  | Ok r => (len_N body ≤ MAX_FRAME_BYTES)%N ∧
      peek_version body = Some DOMAIN_SCHEMA_VERSION ∧ json_to_request body = Some r
  | Err (Framing (Oversized len max)) =>
      len = len_N body ∧ max = MAX_FRAME_BYTES ∧ (MAX_FRAME_BYTES < len)%N
  | Err (VersionError e) => (len_N body ≤ MAX_FRAME_BYTES)%N ∧
      peek_version body = Some (found e) ∧ expected e = DOMAIN_SCHEMA_VERSION ∧
      found e ≠ DOMAIN_SCHEMA_VERSION
  | Err Malformed => (len_N body ≤ MAX_FRAME_BYTES)%N ∧
      (peek_version body = None ∨
       peek_version body = Some DOMAIN_SCHEMA_VERSION ∧ json_to_request body = None)
  end.
Proof.
  unfold decode_request. case_decide; [done|].
  assert (len_N body ≤ MAX_FRAME_BYTES)%N by lia.
  destruct (peek_version body) as [v|]; cbn; [|by auto].
  case_decide as Hv; [done|]. subst v. destruct (json_to_request body); cbn; auto.
Qed.

(** What one side frames the other side decodes.  A request (a response) of
    the current version that fits in a frame is decoded as itself, and its
    request id can be recovered from the bytes alone; one of another version is
    rejected by version, never misread. *)
Theorem wire_roundtrip (Hlaws : WireCodecLaws) (rq : Request) (rs : Response) (f g : list byte)
    (Hrq : Request_in_range rq) (Hrs : Response_in_range rs)
    (Hf : encode_request rq = Ok f) (Hg : encode_response rs = Ok g) :
  (∃ body, split_frame f = Some body ∧ peek_request_id body = Some (req_id (payload rq)) ∧
     decode_request body =
       if decide (version rq = DOMAIN_SCHEMA_VERSION) then Ok rq
       else Err (VersionError (mk_UnsupportedVersion (version rq) DOMAIN_SCHEMA_VERSION))) ∧
  (∃ body, split_frame g = Some body ∧
     decode_response body =
       if decide (version rs = DOMAIN_SCHEMA_VERSION) then Ok rs
       else Err (VersionError (mk_UnsupportedVersion (version rs) DOMAIN_SCHEMA_VERSION))).
Proof.
  unfold encode_request, encode_response in *.
  split.
  - exists (request_to_json rq). split; [by apply split_frame_encode|].
    apply encode_frame_Ok in Hf as [Hlen _].
    split; [by apply json_request_header|]. unfold decode_request, peek_version.
    rewrite decide_False by lia. rewrite json_request_version by done. cbn.
    rewrite json_request_roundtrip by done. repeat case_decide; done.
  - exists (response_to_json rs). split; [by apply split_frame_encode|].
    apply encode_frame_Ok in Hg as [Hlen _]. unfold decode_response, peek_version.
    rewrite decide_False by lia. rewrite json_response_version by done. cbn.
    rewrite json_response_roundtrip by done. repeat case_decide; done.
Qed.

End codec_properties.

(** ** A concrete codec

    The laws are satisfiable: messages as the bits of their position in an
    enumeration, with a tag byte for the direction. *)

Module BitCodec.

#[export] Instance Action_countable : Countable Action.
Proof.
  refine (inj_countable (λ a, match a with Compute => 0 | Unknown => 1 end)
    (λ n, [Compute; Unknown] !! n) _). by intros [].
Defined.

#[export] Instance RequestId_countable : Countable RequestId.
Proof. newtype_countable request_id_num mk_RequestId. Defined.

#[export] Instance ClientRequest_countable : Countable ClientRequest.
Proof.
  refine (inj_countable'
    (λ r, match r with
          | RequestLease q => inl (lr_resource q, lr_action q)
          | ReleaseLease q => inr (Some (rr_lease_id q))
          | AgentStatus => inr None
          end)
    (λ x, match x with
          | inl (r, a) => RequestLease (mk_LeaseRequest r a)
          | inr (Some i) => ReleaseLease (mk_ReleaseRequest i)
          | inr None => AgentStatus
          end) _). by intros [[]|[]|].
Defined.

#[export] Instance RequestBody_countable : Countable RequestBody.
Proof.
  refine (inj_countable' (λ r, (req_id r, req_body r)) (λ '(a, b), mk_RequestBody a b) _).
  by intros [].
Defined.

#[export] Instance Versioned_countable {T} `{Countable T} : Countable (Versioned T).
Proof.
  refine (inj_countable' (λ v, (version v, payload v)) (λ '(a, b), mk_Versioned a b) _).
  by intros [].
Defined.

#[export] Instance DenialReason_countable : Countable DenialReason.
Proof.
  refine (inj_countable
    (λ d, match d with DrNoMatchingRule => 0 | DrExplicitDeny => 1 | DrIndeterminateEvidence => 2 end)
    (λ n, [DrNoMatchingRule; DrExplicitDeny; DrIndeterminateEvidence] !! n) _). by intros [].
Defined.

#[export] Instance ErrorCode_countable : Countable ErrorCode.
Proof.
  refine (inj_countable'
    (λ c, match c with
          | CodeUnsupportedVersion f e => inl (f, e)
          | CodeMalformedRequest => inr 0 | CodeOversized => inr 1
          | CodeUnknownOperation => inr 2 | CodeInternal => inr 3
          end)
    (λ x, match x with
          | inl (f, e) => CodeUnsupportedVersion f e
          | inr 0 => CodeMalformedRequest | inr 1 => CodeOversized
          | inr 2 => CodeUnknownOperation | inr _ => CodeInternal
          end) _). by intros [].
Defined.

#[export] Instance AgentResponse_countable : Countable AgentResponse.
Proof.
  refine (inj_countable'
    (λ r, match r with
          | LeaseGranted v => inl (inl (view_lease_id v, view_remaining v))
          | LeaseDenied d => inl (inr d)
          | LeaseReleased Released => inr (inl (inl true))
          | LeaseReleased Refused => inr (inl (inl false))
          | Status s => inr (inl (inr (protocol_version s)))
          | ErrorResponse c => inr (inr c)
          end)
    (λ x, match x with
          | inl (inl (i, d)) => LeaseGranted (mk_LeaseView i d)
          | inl (inr d) => LeaseDenied d
          | inr (inl (inl true)) => LeaseReleased Released
          | inr (inl (inl false)) => LeaseReleased Refused
          | inr (inl (inr n)) => Status (mk_AgentStatusView n)
          | inr (inr c) => ErrorResponse c
          end) _). by intros [[]| |[]|[]|].
Defined.

#[export] Instance ResponseBody_countable : Countable ResponseBody.
Proof.
  refine (inj_countable' (λ r, (resp_id r, resp_body r)) (λ '(a, b), mk_ResponseBody a b) _).
  by intros [].
Defined.

Definition bit_request (l : list byte) : option Request :=
  match l with
  | x02 :: l => of_bits l ≫= decode
  | _ => None
  end.

Definition bit_response (l : list byte) : option Response :=
  match l with
  | x03 :: l => of_bits l ≫= decode
  | _ => None
  end.

Definition codec : WireCodec := {|
  json_version_peek l :=
    match bit_request l with
    | Some r => Some (version r)
    | None => version <$> bit_response l
    end;
  json_header_peek l := (λ r : Request, req_id (payload r)) <$> bit_request l;
  json_to_request := bit_request;
  json_to_response := bit_response;
  request_to_json r := x02 :: bits_of (encode r);
  response_to_json r := x03 :: bits_of (encode r)
|}.

Lemma bit_request_of (r : Request) : bit_request (x02 :: bits_of (encode r)) = Some r.
Proof. cbn. rewrite of_bits_of. cbn. apply decode_encode. Qed.

Lemma bit_response_of (r : Response) : bit_response (x03 :: bits_of (encode r)) = Some r.
Proof. cbn. rewrite of_bits_of. cbn. apply decode_encode. Qed.

Lemma codec_laws : @WireCodecLaws codec.
Proof.
  split; intros r _.
  - apply bit_request_of.
  - unfold json_version_peek, request_to_json, codec. by rewrite bit_request_of.
  - unfold json_header_peek, request_to_json, codec. by rewrite bit_request_of.
  - apply bit_response_of.
  - unfold json_version_peek, response_to_json, codec. by rewrite bit_response_of.
Qed.

End BitCodec.

(** ** Witness *)

Definition sample_wire_request : Request :=
  Versioned_current (mk_RequestBody (mk_RequestId 7) AgentStatus).
Definition sample_wire_response : Response :=
  mk_Versioned 2 (mk_ResponseBody (Some (mk_RequestId 7)) (Status (mk_AgentStatusView 2))).

Definition framed (p : list byte) : list byte := u32_to_be_bytes (len_N p) ++ p.

Lemma wire_roundtrip_witness :
  let f := framed (@request_to_json BitCodec.codec sample_wire_request) in
  ∃ body, split_frame f = Some body ∧
    @decode_request BitCodec.codec body = Ok sample_wire_request.
Proof.
  destruct (@wire_roundtrip BitCodec.codec BitCodec.codec_laws sample_wire_request
    sample_wire_response (framed (@request_to_json BitCodec.codec sample_wire_request))
    (framed (@response_to_json BitCodec.codec sample_wire_response)))
    as [(body & Hs & _ & Hd) _].
  - by vm_compute.
  - by vm_compute.
  - by vm_compute.
  - by vm_compute.
  - exists body. split; [exact Hs|]. rewrite Hd. by rewrite decide_True.
Defined.
