(* ===== verification/Schema.v ===== *)
(** * The schema of eltanin-core and eltanin-backend

    The serde attributes of the types that messages, policy files, profiles and audit
    records share ([resource.rs], [identity.rs], [lease.rs], [policy.rs], [envelope.rs]
    of [eltanin-core], [contract.rs] of [eltanin-backend]), written with the operations
    of [Json]; which values fit the widths of their integers; and that each type is
    read back as it was written. *)

From S2P Require Import Prelude Json Resource Identity Policy Lease Backend Protocol.

Section schema.
Context `{SerdeJson}.

(** ** Resources and the envelope (resource.rs, envelope.rs) *)

#[export] Instance ResourceVendor_serde : Serde ResourceVendor := {
  ser v := ser (vendor_str v);
  de j := mk_ResourceVendor <$> de j
}.

#[export] Instance ResourceKind_serde : Serde ResourceKind := {
  ser k := ser (kind_str k);
  de j := mk_ResourceKind <$> de j
}.

#[export] Instance ResourceIdentity_serde : Serde ResourceIdentity := {
  ser r := JObj [("vendor", ser (vendor r)); ("kind", ser (kind r)); ("local_id", ser (local_id r))];
  de j :=
    fields ← visit_struct false ["vendor"; "kind"; "local_id"] j;
    match fields with
    | [v; k; l] =>
        v ← required de v; k ← required de k; l ← required de l; Some (mk_ResourceIdentity v k l)
    | _ => None
    end
}.

#[export] Instance Capability_serde : Serde Capability := {
  ser c := JStr (match c with
                 | DiscoverResource => "discover_resource"
                 | ObserveResource => "observe_resource"
                 | ObserveWorkload => "observe_workload"
                 | AttributeWorkload => "attribute_workload"
                 | Authorize => "authorize"
                 | ControlledLaunch => "controlled_launch"
                 | DeviceEnforce => "device_enforce"
                 | DeviceRevoke => "device_revoke"
                 | Attest => "attest"
                 end);
  de := unit_variant [("discover_resource", DiscoverResource); ("observe_resource", ObserveResource);
                      ("observe_workload", ObserveWorkload); ("attribute_workload", AttributeWorkload);
                      ("authorize", Authorize); ("controlled_launch", ControlledLaunch);
                      ("device_enforce", DeviceEnforce); ("device_revoke", DeviceRevoke);
                      ("attest", Attest)]
}.

(** The variant [Unknown] is [serde(other)]: any other name. *)
#[export] Instance Action_serde : Serde Action := {
  ser a := JStr (match a with Compute => "compute" | Unknown => "unknown" end);
  de j := (λ name, if decide (name = "compute") then Compute else Unknown) <$> visit_enum j
}.

#[export] Instance EnforcementResult_serde : Serde EnforcementResult := {
  ser r :=
    match r with
    | Allowed => JObj [("outcome", JStr "allowed")]
    | EDenied why => JObj [("outcome", JStr "denied"); ("reason", ser why)]
    | EUnsupported c => JObj [("outcome", JStr "unsupported"); ("capability", ser c)]
    | EError m => JObj [("outcome", JStr "error"); ("message", ser m)]
    end;
  de j :=
    '(name, rest) ← visit_tagged "outcome" j;
    if decide (name = "allowed") then Some Allowed
    else if decide (name = "denied") then EDenied <$> one_field de "reason" rest
    else if decide (name = "unsupported") then EUnsupported <$> one_field de "capability" rest
    else if decide (name = "error") then EError <$> one_field de "message" rest
    else None
}.

#[export] Instance Versioned_serde {T} `{Serde T} : Serde (Versioned T) := {
  ser v := JObj [("version", uint_ser (version v)); ("payload", ser (payload v))];
  de j :=
    fields ← visit_struct false ["version"; "payload"] j;
    match fields with
    | [v; p] => v ← required (visit_uint u16_max) v; p ← required de p; Some (mk_Versioned v p)
    | _ => None
    end
}.

(** ** Backend errors (contract.rs) *)

#[export] Instance BackendError_serde : Serde BackendError := {
  ser e :=
    match e with
    | BUnsupported c => JObj [("kind", JStr "unsupported"); ("capability", ser c)]
    | Unavailable r => JObj [("kind", JStr "unavailable"); ("resource", ser r)]
    | PermissionDenied => JObj [("kind", JStr "permission_denied")]
    | Transient m => JObj [("kind", JStr "transient"); ("message", ser m)]
    | Invariant m => JObj [("kind", JStr "invariant"); ("message", ser m)]
    end;
  de j :=
    '(name, rest) ← visit_tagged "kind" j;
    if decide (name = "unsupported") then BUnsupported <$> one_field de "capability" rest
    else if decide (name = "unavailable") then Unavailable <$> one_field de "resource" rest
    else if decide (name = "permission_denied") then Some PermissionDenied
    else if decide (name = "transient") then Transient <$> one_field de "message" rest
    else if decide (name = "invariant") then Invariant <$> one_field de "message" rest
    else None
}.

(** ** Leases (lease.rs) *)

#[export] Instance MonotonicTime_serde : Serde MonotonicTime := {
  ser t := uint_ser (as_nanos t);
  de j := mk_MonotonicTime <$> visit_uint u64_max j
}.

#[export] Instance IssuerInstanceId_serde : Serde IssuerInstanceId := {
  ser i := ser (instance_str i);
  de j := mk_IssuerInstanceId <$> de j
}.

#[export] Instance LeaseId_serde : Serde LeaseId := {
  ser i := JObj [("issuer", ser (issuer i)); ("sequence", uint_ser (sequence i))];
  de j :=
    fields ← visit_struct false ["issuer"; "sequence"] j;
    match fields with
    | [i; n] => i ← required de i; n ← required (visit_uint u64_max) n; Some (mk_LeaseId i n)
    | _ => None
    end
}.

#[export] Instance RevocationOutcome_serde : Serde RevocationOutcome := {
  ser o := JStr (match o with
                 | RevokedNow => "revoked"
                 | AlreadyRevoked => "already_revoked"
                 | NotIssued => "not_issued"
                 | RevokeForeignIssuer => "foreign_issuer"
                 end);
  de := unit_variant [("revoked", RevokedNow); ("already_revoked", AlreadyRevoked);
                      ("not_issued", NotIssued); ("foreign_issuer", RevokeForeignIssuer)]
}.

(** ** Evidence and contexts (identity.rs) *)

#[export] Instance EvidenceSource_serde : Serde EvidenceSource := {
  ser s := JStr (match s with
                 | KernelObserved => "kernel_observed"
                 | BestEffort => "best_effort"
                 | SelfAsserted => "self_asserted"
                 end);
  de := unit_variant [("kernel_observed", KernelObserved); ("best_effort", BestEffort);
                      ("self_asserted", SelfAsserted)]
}.

(** [u32] and [String] are what evidence is about, and the token of a process; an
    integer's implementation is an argument, since [N] stands for several types. *)
Definition Evidence_ser {T} (ser_value : T → Json) (e : Evidence T) : Json :=
  match e with
  | Present v s => JObj [("state", JStr "present"); ("value", ser_value v); ("source", ser s)]
  | Missing why => JObj [("state", JStr "missing"); ("reason", ser why)]
  | EvUnsupported => JObj [("state", JStr "unsupported")]
  end.

Definition Evidence_de {T} (de_value : Json → option T) (j : Json) : option (Evidence T) :=
  '(name, rest) ← visit_tagged "state" j;
  if decide (name = "present") then
    fields ← visit_struct false ["value"; "source"] rest;
    match fields with
    | [v; s] => v ← required de_value v; s ← required de s; Some (Present v s)
    | _ => None
    end
  else if decide (name = "missing") then Missing <$> one_field de "reason" rest
  else if decide (name = "unsupported") then Some EvUnsupported
  else None.

#[export] Instance ProcessStartToken_serde : Serde ProcessStartToken := {
  ser t := uint_ser (token t);
  de j := mk_ProcessStartToken <$> visit_uint u64_max j
}.

#[export] Instance ProcessAncestor_serde : Serde ProcessAncestor := {
  ser a := JObj [("pid", uint_ser (anc_pid a)); ("start", Evidence_ser ser (anc_start a));
                 ("executable_path", Evidence_ser ser (anc_executable_path a))];
  de j :=
    fields ← visit_struct false ["pid"; "start"; "executable_path"] j;
    match fields with
    | [p; s; e] =>
        p ← required (visit_uint u32_max) p; s ← required (Evidence_de de) s;
        e ← required (Evidence_de de) e; Some (mk_ProcessAncestor p s e)
    | _ => None
    end
}.

#[export] Instance WorkloadIdentity_serde : Serde WorkloadIdentity := {
  ser w :=
    JObj [("pid", uint_ser (pid w)); ("process_start", Evidence_ser ser (process_start w));
          ("uid", Evidence_ser uint_ser (uid w)); ("gid", Evidence_ser uint_ser (gid w));
          ("executable_path", Evidence_ser ser (executable_path w));
          ("executable_hash", Evidence_ser ser (executable_hash w)); ("ancestry", ser (ancestry w))];
  de j :=
    fields ← visit_struct false ["pid"; "process_start"; "uid"; "gid"; "executable_path";
                                 "executable_hash"; "ancestry"] j;
    match fields with
    | [p; s; u; g; e; h; a] =>
        p ← required (visit_uint u32_max) p; s ← required (Evidence_de de) s;
        u ← required (Evidence_de (visit_uint u32_max)) u;
        g ← required (Evidence_de (visit_uint u32_max)) g;
        e ← required (Evidence_de de) e; h ← required (Evidence_de de) h;
        a ← required de a; Some (mk_WorkloadIdentity p s u g e h a)
    | _ => None
    end
}.

#[export] Instance ExecutionContext_serde : Serde ExecutionContext := {
  ser c :=
    JObj [("workload", ser (workload c)); ("cgroup_path", Evidence_ser ser (cgroup_path c));
          ("namespace_hint", Evidence_ser ser (namespace_hint c));
          ("container_hint", Evidence_ser ser (container_hint c));
          ("session_origin", Evidence_ser ser (session_origin c))];
  de j :=
    fields ← visit_struct false ["workload"; "cgroup_path"; "namespace_hint"; "container_hint";
                                 "session_origin"] j;
    match fields with
    | [w; g; n; k; o] =>
        w ← required de w; g ← required (Evidence_de de) g; n ← required (Evidence_de de) n;
        k ← required (Evidence_de de) k; o ← required (Evidence_de de) o;
        Some (mk_ExecutionContext w g n k o)
    | _ => None
    end
}.

(** ** Policies (policy.rs) *)

#[export] Instance PolicyId_serde : Serde PolicyId := {
  ser i := ser (policy_id_str i);
  de j := mk_PolicyId <$> de j
}.

#[export] Instance RuleId_serde : Serde RuleId := {
  ser i := ser (rule_id_str i);
  de j := mk_RuleId <$> de j
}.

#[export] Instance Effect_serde : Serde Effect := {
  ser e := JStr (match e with Allow => "allow" | Deny => "deny" end);
  de := unit_variant [("allow", Allow); ("deny", Deny)]
}.

#[export] Instance TrustFloor_serde : Serde TrustFloor := {
  ser f := JStr (match f with
                 | FloorKernelObserved => "kernel_observed"
                 | FloorBestEffort => "best_effort"
                 end);
  de := unit_variant [("kernel_observed", FloorKernelObserved); ("best_effort", FloorBestEffort)]
}.

Definition EvidenceMatch_ser {T} (ser_value : T → Json) (m : EvidenceMatch T) : Json :=
  JObj [("expected", ser_value (em_expected m)); ("min_trust", ser (em_min_trust m))].

Definition EvidenceMatch_de {T} (de_value : Json → option T) (j : Json) : option (EvidenceMatch T) :=
  fields ← visit_struct false ["expected"; "min_trust"] j;
  match fields with
  | [e; t] => e ← required de_value e; t ← required de t; Some (mk_EvidenceMatch e t)
  | _ => None
  end.

#[export] Instance Condition_serde : Serde Condition := {
  ser c :=
    match c with
    | Uid m => tag_object "field" "uid" (EvidenceMatch_ser uint_ser m)
    | Gid m => tag_object "field" "gid" (EvidenceMatch_ser uint_ser m)
    | ExecutablePath m => tag_object "field" "executable_path" (EvidenceMatch_ser ser m)
    | ExecutableHash m => tag_object "field" "executable_hash" (EvidenceMatch_ser ser m)
    | CgroupPath m => tag_object "field" "cgroup_path" (EvidenceMatch_ser ser m)
    end;
  de j :=
    '(name, rest) ← visit_tagged "field" j;
    if decide (name = "uid") then Uid <$> EvidenceMatch_de (visit_uint u32_max) rest
    else if decide (name = "gid") then Gid <$> EvidenceMatch_de (visit_uint u32_max) rest
    else if decide (name = "executable_path") then ExecutablePath <$> EvidenceMatch_de de rest
    else if decide (name = "executable_hash") then ExecutableHash <$> EvidenceMatch_de de rest
    else if decide (name = "cgroup_path") then CgroupPath <$> EvidenceMatch_de de rest
    else None
}.

#[export] Instance Rule_serde : Serde Rule := {
  ser r :=
    JObj [("id", ser (rule_id r)); ("effect", ser (rule_effect r)); ("resource", ser (rule_resource r));
          ("action", ser (rule_action r)); ("conditions", ser (conditions r))];
  de j :=
    fields ← visit_struct false ["id"; "effect"; "resource"; "action"; "conditions"] j;
    match fields with
    | [i; e; r; a; c] =>
        i ← required de i; e ← required de e; r ← required de r; a ← required de a;
        c ← required de c; Some (mk_Rule i e r a c)
    | _ => None
    end
}.

#[export] Instance PolicyDocument_serde : Serde PolicyDocument := {
  ser d := JObj [("id", ser (doc_id d)); ("revision", uint_ser (revision d)); ("rules", ser (rules d))];
  de j :=
    fields ← visit_struct false ["id"; "revision"; "rules"] j;
    match fields with
    | [i; v; r] =>
        i ← required de i; v ← required (visit_uint u32_max) v; r ← required de r;
        Some (mk_PolicyDocument i v r)
    | _ => None
    end
}.

End schema.

(** ** Values that fit their widths *)

Definition Evidence_in_range {T} (P : T → Prop) (e : Evidence T) : Prop :=
  match e with
  | Present v _ => P v
  | _ => True
  end.

Definition u32_evidence : Evidence N → Prop := Evidence_in_range (λ n, n ≤ u32_max)%N.

Definition token_evidence : Evidence ProcessStartToken → Prop :=
  Evidence_in_range (λ t, token t ≤ u64_max)%N.

Definition WorkloadIdentity_in_range (w : WorkloadIdentity) : Prop :=
  (pid w ≤ u32_max)%N ∧ token_evidence (process_start w) ∧ u32_evidence (uid w) ∧
  u32_evidence (gid w) ∧
  Forall (λ a, (anc_pid a ≤ u32_max)%N ∧ token_evidence (anc_start a)) (ancestry w).

Definition Condition_in_range (c : Condition) : Prop :=
  match c with
  | Uid m | Gid m => (em_expected m ≤ u32_max)%N
  | _ => True
  end.

Definition PolicyDocument_in_range (d : PolicyDocument) : Prop :=
  (revision d ≤ u32_max)%N ∧ Forall (λ r, Forall Condition_in_range (conditions r)) (rules d).

(** ** Round trips *)

Section roundtrips.
Context `{SerdeJson} (Hlaws : SerdeJsonLaws).

#[local] Hint Resolve uint_roundtrip string_roundtrip : roundtrip.

Lemma unit_roundtrip {A} (table : list (string * A)) name a :
  field name table = Some a → unit_variant table (JStr name) = Some a.
Proof. intros Hf. unfold unit_variant. by rewrite visit_enum_str. Qed.

#[local] Hint Extern 1 (unit_variant _ _ = Some _) => by apply unit_roundtrip : roundtrip.

(** One field is read wherever it stands, if it is there once. *)
Lemma one_field_Some {A} (de : Json → option A) name ms a :
  one_field de name (JObj ms) = Some a ↔ ∃ j, named name ms = [(name, j)] ∧ de j = Some a.
Proof.
  unfold one_field. rewrite visit_struct_object. split.
  - intros ([|o []] & Hf & Ha)%bind_Some; try done. destruct o as [j|]; [|done]. exists j.
    split; [|exact Ha]. apply (object_fields_named [name] ms [j]) in Hf. by inversion Hf.
  - intros (j & Hn & Ha).
    assert (object_fields false [name] ms = Some [Some j]) as ->; [|exact Ha].
    apply (object_fields_named [name] ms [j]). by constructor.
Qed.

Lemma one_field_single {A} (de : Json → option A) name j a :
  de j = Some a → one_field de name (JObj [(name, j)]) = Some a.
Proof.
  intros Ha. apply one_field_Some. exists j. split; [|done]. unfold named.
  by rewrite filter_cons_True.
Qed.

#[local] Hint Resolve one_field_single : roundtrip.

Lemma ResourceVendor_roundtrip (v : ResourceVendor) : de (ser v) = Some v.
Proof. destruct v as [v]. cbn [ser de ResourceVendor_serde vendor_str]. roundtrip Hlaws. Qed.

Lemma ResourceKind_roundtrip (k : ResourceKind) : de (ser k) = Some k.
Proof. destruct k as [k]. cbn [ser de ResourceKind_serde kind_str]. roundtrip Hlaws. Qed.

#[local] Hint Resolve ResourceVendor_roundtrip ResourceKind_roundtrip : roundtrip.

Lemma ResourceIdentity_roundtrip (r : ResourceIdentity) : de (ser r) = Some r.
Proof.
  destruct r as [v k l]. cbn [ser de ResourceIdentity_serde vendor kind local_id]. roundtrip Hlaws.
Qed.

Lemma Capability_roundtrip (c : Capability) : de (ser c) = Some c.
Proof. cbn [ser de Capability_serde]. by destruct c; apply unit_roundtrip. Qed.

Lemma Action_roundtrip (a : Action) : de (ser a) = Some a.
Proof. by destruct a; cbn [ser de Action_serde]; rewrite visit_enum_str. Qed.

#[local] Hint Resolve ResourceIdentity_roundtrip Capability_roundtrip Action_roundtrip : roundtrip.

Lemma EnforcementResult_roundtrip (r : EnforcementResult) : de (ser r) = Some r.
Proof. destruct r; cbn [ser de EnforcementResult_serde]; roundtrip Hlaws. Qed.

Lemma BackendError_roundtrip (e : BackendError) : de (ser e) = Some e.
Proof. destruct e; cbn [ser de BackendError_serde]; roundtrip Hlaws. Qed.

Lemma Versioned_roundtrip {T} `{Serde T} (ok : T → Prop) :
  roundtrips ok → roundtrips (λ v : Versioned T, (version v ≤ u16_max)%N ∧ ok (payload v)).
Proof.
  intros HT [v p] [Hv Hp]. cbn [ser de Versioned_serde version payload] in *. roundtrip Hlaws.
Qed.

Lemma MonotonicTime_roundtrip : roundtrips (λ t, as_nanos t ≤ u64_max)%N.
Proof. intros [t] Ht. cbn [ser de MonotonicTime_serde as_nanos]. roundtrip Hlaws. Qed.

Lemma IssuerInstanceId_roundtrip (i : IssuerInstanceId) : de (ser i) = Some i.
Proof. destruct i as [i]. cbn [ser de IssuerInstanceId_serde instance_str]. roundtrip Hlaws. Qed.

#[local] Hint Resolve IssuerInstanceId_roundtrip : roundtrip.

Lemma LeaseId_roundtrip : roundtrips LeaseId_in_range.
Proof.
  intros [i n] Hn. cbn [ser de LeaseId_serde issuer sequence] in *.
  unfold LeaseId_in_range in Hn. cbn in Hn. roundtrip Hlaws.
Qed.

(** Whatever document it was read from. *)
Lemma LeaseId_read j (i : LeaseId) : de j = Some i → LeaseId_in_range i.
Proof.
  cbn [de LeaseId_serde]. intros ([|oi [|on []]] & _ & Hd)%bind_Some; try done.
  apply bind_Some in Hd as (t & _ & Hd). apply bind_Some in Hd as (n & Hn & [= <-]).
  apply bind_Some in Hn as (jn & _ & Hn). by apply (visit_uint_Some Hlaws) in Hn as [_ ?].
Qed.

Lemma RevocationOutcome_roundtrip (o : RevocationOutcome) : de (ser o) = Some o.
Proof. cbn [ser de RevocationOutcome_serde]. by destruct o; apply unit_roundtrip. Qed.

Lemma EvidenceSource_roundtrip (s : EvidenceSource) : de (ser s) = Some s.
Proof. cbn [ser de EvidenceSource_serde]. by destruct s; apply unit_roundtrip. Qed.

#[local] Hint Resolve EvidenceSource_roundtrip : roundtrip.

Lemma Evidence_roundtrip {T} (ser_value : T → Json) de_value (P : T → Prop) e :
  (∀ v, P v → de_value (ser_value v) = Some v) → Evidence_in_range P e →
  Evidence_de de_value (Evidence_ser ser_value e) = Some e.
Proof. intros HT He. destruct e; cbn [Evidence_ser]; unfold Evidence_de; roundtrip Hlaws. Qed.

Lemma ProcessStartToken_roundtrip : roundtrips (λ t, token t ≤ u64_max)%N.
Proof. intros [t] Ht. cbn [ser de ProcessStartToken_serde token]. roundtrip Hlaws. Qed.

Lemma string_evidence_roundtrip (e : Evidence string) : Evidence_de de (Evidence_ser ser e) = Some e.
Proof.
  apply (Evidence_roundtrip _ _ (λ _, True)); [by intros; apply string_roundtrip|by destruct e].
Qed.

Lemma u32_evidence_roundtrip (e : Evidence N) :
  u32_evidence e → Evidence_de (visit_uint u32_max) (Evidence_ser uint_ser e) = Some e.
Proof. apply Evidence_roundtrip. intros n Hn. by apply uint_roundtrip. Qed.

Lemma token_evidence_roundtrip (e : Evidence ProcessStartToken) :
  token_evidence e → Evidence_de de (Evidence_ser ser e) = Some e.
Proof. apply Evidence_roundtrip, ProcessStartToken_roundtrip. Qed.

#[local] Hint Resolve string_evidence_roundtrip u32_evidence_roundtrip token_evidence_roundtrip
  : roundtrip.

Lemma ProcessAncestor_roundtrip :
  roundtrips (λ a, (anc_pid a ≤ u32_max)%N ∧ token_evidence (anc_start a)).
Proof.
  intros [p s e] [Hp Hs]. cbn [ser de ProcessAncestor_serde anc_pid anc_start anc_executable_path] in *.
  roundtrip Hlaws.
Qed.

Lemma WorkloadIdentity_roundtrip : roundtrips WorkloadIdentity_in_range.
Proof.
  intros [p s u g e h a] (Hp & Hs & Hu & Hg & Ha).
  pose proof (list_roundtrip Hlaws _ a ProcessAncestor_roundtrip Ha) as Hl.
  cbn [ser de WorkloadIdentity_serde pid process_start uid gid executable_path executable_hash
       ancestry] in *. roundtrip Hlaws.
Qed.

#[local] Hint Resolve WorkloadIdentity_roundtrip : roundtrip.

Lemma ExecutionContext_roundtrip : roundtrips (λ c, WorkloadIdentity_in_range (workload c)).
Proof.
  intros [w g n k o] Hw. cbn [ser de ExecutionContext_serde workload cgroup_path namespace_hint
    container_hint session_origin] in *. roundtrip Hlaws.
Qed.

Lemma PolicyId_roundtrip (i : PolicyId) : de (ser i) = Some i.
Proof. destruct i as [i]. cbn [ser de PolicyId_serde policy_id_str]. roundtrip Hlaws. Qed.

Lemma RuleId_roundtrip (i : RuleId) : de (ser i) = Some i.
Proof. destruct i as [i]. cbn [ser de RuleId_serde rule_id_str]. roundtrip Hlaws. Qed.

Lemma Effect_roundtrip (e : Effect) : de (ser e) = Some e.
Proof. cbn [ser de Effect_serde]. by destruct e; apply unit_roundtrip. Qed.

Lemma TrustFloor_roundtrip (f : TrustFloor) : de (ser f) = Some f.
Proof. cbn [ser de TrustFloor_serde]. by destruct f; apply unit_roundtrip. Qed.

#[local] Hint Resolve PolicyId_roundtrip RuleId_roundtrip Effect_roundtrip TrustFloor_roundtrip
  : roundtrip.

Lemma EvidenceMatch_roundtrip {T} (ser_value : T → Json) de_value (m : EvidenceMatch T) :
  de_value (ser_value (em_expected m)) = Some (em_expected m) →
  EvidenceMatch_de de_value (EvidenceMatch_ser ser_value m) = Some m.
Proof.
  destruct m as [e t]. cbn [em_expected]. intros He. unfold EvidenceMatch_ser, EvidenceMatch_de.
  cbn [em_expected em_min_trust]. roundtrip Hlaws.
Qed.

Lemma Condition_roundtrip : roundtrips Condition_in_range.
Proof.
  intros c Hc. destruct c as [m|m|m|m|m]; cbn [Condition_in_range] in Hc;
    [pose proof (EvidenceMatch_roundtrip uint_ser (visit_uint u32_max) m (uint_roundtrip Hlaws _ _ Hc))
      as Hm..|pose proof (EvidenceMatch_roundtrip ser de m (string_roundtrip Hlaws _)) as Hm
    |pose proof (EvidenceMatch_roundtrip ser de m (string_roundtrip Hlaws _)) as Hm
    |pose proof (EvidenceMatch_roundtrip ser de m (string_roundtrip Hlaws _)) as Hm];
    cbn [ser de Condition_serde]; unfold EvidenceMatch_ser in *; cbn [tag_object];
    roundtrip Hlaws.
Qed.

Lemma Rule_roundtrip : roundtrips (λ r, Forall Condition_in_range (conditions r)).
Proof.
  intros [i e r a c] Hc. pose proof (list_roundtrip Hlaws _ c Condition_roundtrip Hc) as Hl.
  cbn [ser de Rule_serde rule_id rule_effect rule_resource rule_action conditions] in *.
  roundtrip Hlaws.
Qed.

Lemma PolicyDocument_roundtrip : roundtrips PolicyDocument_in_range.
Proof.
  intros [i v r] [Hv Hr]. pose proof (list_roundtrip Hlaws _ r Rule_roundtrip Hr) as Hl.
  cbn [ser de PolicyDocument_serde doc_id revision rules] in *. roundtrip Hlaws.
Qed.

(** ** What is written can be read

    Each type is written at its own depth, with integers of 64 bits. *)

#[local] Hint Resolve duration_readable : readable.

Lemma ResourceIdentity_readable d (r : ResourceIdentity) : readable (S d) (ser r).
Proof. destruct r as [[] [] l]. cbn [ser ResourceIdentity_serde]. readable. Qed.

Lemma EnforcementResult_readable d (r : EnforcementResult) : readable (S d) (ser r).
Proof. destruct r; cbn [ser EnforcementResult_serde]; readable. Qed.

#[local] Hint Resolve ResourceIdentity_readable : readable.

Lemma BackendError_readable d (e : BackendError) : readable (S (S d)) (ser e).
Proof. destruct e; cbn [ser BackendError_serde]; readable. Qed.

Lemma Versioned_readable {T} `{Serde T} d (v : Versioned T) :
  (version v ≤ u16_max)%N → readable d (ser (payload v)) → readable (S d) (ser v).
Proof. destruct v as [v p]. cbn [ser Versioned_serde version payload]. intros ? ?. readable. Qed.

Lemma LeaseId_readable d (i : LeaseId) : LeaseId_in_range i → readable (S d) (ser i).
Proof. destruct i as [[] n]. cbn [ser LeaseId_serde]. intros ?. readable. Qed.

Lemma Evidence_readable {T} d (ser_value : T → Json) (P : T → Prop) e :
  (∀ v, P v → readable d (ser_value v)) → Evidence_in_range P e →
  readable (S d) (Evidence_ser ser_value e).
Proof. intros HT He. destruct e; cbn [Evidence_ser Evidence_in_range] in *; readable. Qed.

Lemma string_evidence_readable d (e : Evidence string) : readable (S d) (Evidence_ser ser e).
Proof. by apply (Evidence_readable _ _ (λ _, True)); [intros; destruct d|destruct e]. Qed.

Lemma u32_evidence_readable d (e : Evidence N) :
  u32_evidence e → readable (S d) (Evidence_ser uint_ser e).
Proof. apply Evidence_readable. intros n Hn. readable. Qed.

Lemma token_evidence_readable d (e : Evidence ProcessStartToken) :
  token_evidence e → readable (S d) (Evidence_ser ser e).
Proof. apply Evidence_readable. intros [n] Hn. cbn [ser ProcessStartToken_serde token] in *. readable. Qed.

#[local] Hint Resolve string_evidence_readable u32_evidence_readable token_evidence_readable : readable.

Lemma WorkloadIdentity_readable d (w : WorkloadIdentity) :
  WorkloadIdentity_in_range w → readable (S (S (S (S d)))) (ser w).
Proof.
  destruct w as [p s u g e h a]. intros (Hp & Hs & Hu & Hg & Ha).
  assert (readable (S (S (S d))) (ser a)).
  { eapply list_readable; [|exact Ha]. intros [p' s' e'] [Hp' Hs'].
    cbn [ser ProcessAncestor_serde anc_pid anc_start anc_executable_path] in *. readable. }
  cbn [ser WorkloadIdentity_serde pid process_start uid gid executable_path executable_hash
       ancestry] in *. readable.
Qed.

#[local] Hint Resolve WorkloadIdentity_readable : readable.

Lemma ExecutionContext_readable d (c : ExecutionContext) :
  WorkloadIdentity_in_range (workload c) → readable (S (S (S (S (S d))))) (ser c).
Proof.
  destruct c as [w g n k o]. intros Hw. cbn [ser ExecutionContext_serde workload cgroup_path
    namespace_hint container_hint session_origin] in *. readable.
Qed.

(** ** An envelope, whatever else it holds *)

Lemma Versioned_Some {T} `{Serde T} ms (r : Versioned T) :
  de (JObj ms) = Some r ↔
    named "version" ms = [("version", uint_ser (version r))] ∧ (version r ≤ u16_max)%N ∧
    ∃ p, named "payload" ms = [("payload", p)] ∧ de p = Some (payload r).
Proof.
  cbn [de Versioned_serde]. rewrite visit_struct_object. split.
  - intros ([|ov [|op []]] & Hf & Hr)%bind_Some; try done.
    apply bind_Some in Hr as (v & Hv & Hr). apply bind_Some in Hr as (p & Hp & [= <-]).
    apply bind_Some in Hv as (jv & -> & Hv). apply bind_Some in Hp as (jp & -> & Hp).
    apply (object_fields_named ["version"; "payload"] ms [jv; jp]) in Hf.
    apply (visit_uint_Some Hlaws) in Hv as [-> Hle].
    inversion_clear Hf as [|? ? ? ? Hnv Hf']. inversion_clear Hf'. eauto.
  - intros (Hv & Hle & p & Hp & Hd).
    assert (object_fields false ["version"; "payload"] ms = Some [Some (uint_ser (version r)); Some p])
      as ->.
    { apply (object_fields_named ["version"; "payload"] ms [uint_ser (version r); p]). by repeat constructor. }
    cbn [mbind option_bind required]. rewrite (uint_roundtrip Hlaws) by done.
    cbn [mbind option_bind]. rewrite Hd. cbn. by destruct r.
Qed.

End roundtrips.
