(* ===== verification/LeaseStore.v ===== *)
(** * The agent's lease store

    Models [crates/eltanin-agent/src/authz/state.rs]: one issuer, the leases it
    issued that are still outstanding, and the capacity reservations of grants in
    flight.  The [HashMap] is a [gmap]; [usize] counters are 64-bit words.  The
    mutex around the store is modelled by its users: one locked region is one
    function from a store to a store. *)

From S2P Require Import Prelude Resource Identity Policy PolicySpec Lease.

Record LeaseState : Type := mk_LeaseState {
  store_issuer : LeaseIssuer;
  leases : gmap LeaseId ComputeLease;
  max_outstanding : N;
  reserved : N
}.

#[export] Instance LeaseState_eq_dec : EqDecision LeaseState.
Proof. solve_decision. Defined.

Definition LeaseState_new (i : LeaseIssuer) (m : N) : LeaseState := mk_LeaseState i ∅ m 0.

(** What a caller of [issuer_mut] does to the store. *)
Definition LeaseState_with_issuer (self : LeaseState) (i : LeaseIssuer) : LeaseState :=
  mk_LeaseState i (leases self) (max_outstanding self) (reserved self).

Definition LeaseState_prune (self : LeaseState) (now : MonotonicTime) : LeaseState :=
  mk_LeaseState (store_issuer self)
    (filter (λ '(_, l), ¬ time_le (expires_at l) now) (leases self))
    (max_outstanding self) (reserved self).

(** [HashMap::len]. *)
Definition outstanding (self : LeaseState) : N := N.of_nat (size (leases self)).

Definition LeaseState_is_at_capacity (self : LeaseState) : bool :=
  bool_decide (max_outstanding self ≤ u64_wrapping_add (outstanding self) (reserved self))%N.

Definition LeaseState_reserve (self : LeaseState) : LeaseState :=
  mk_LeaseState (store_issuer self) (leases self) (max_outstanding self)
    (u64_wrapping_add (reserved self) 1).

Definition LeaseState_release_reservation (self : LeaseState) : LeaseState :=
  mk_LeaseState (store_issuer self) (leases self) (max_outstanding self)
    (saturating_sub (reserved self) 1).

Definition LeaseState_insert (self : LeaseState) (l : ComputeLease) : LeaseState :=
  let self := LeaseState_release_reservation self in
  mk_LeaseState (store_issuer self) (<[lease_id l := l]> (leases self)) (max_outstanding self)
    (reserved self).

Definition LeaseState_get (self : LeaseState) (id : LeaseId) : option ComputeLease :=
  leases self !! id.

Definition LeaseState_remove (self : LeaseState) (id : LeaseId) : LeaseState :=
  mk_LeaseState (store_issuer self) (delete id (leases self)) (max_outstanding self)
    (reserved self).

Definition lease_resource (l : ComputeLease) : ResourceIdentity := resource (request (origin l)).

Definition LeaseState_any_other_live_lease_for_same_resource (self : LeaseState) (id : LeaseId) :
    bool :=
  match leases self !! id with
  | None => false
  | Some rel =>
      bool_decide (map_Exists (λ other_id other,
        other_id ≠ id ∧ lease_resource other = lease_resource rel) (leases self))
  end.

(** ** Invariant

    Every stored lease was issued by the store's own issuer under the key it is
    filed at and is not revoked; stored leases and reservations together stay
    within the bound, which fits in a word. *)

Definition lease_wf (s : LeaseIssuer) (l : ComputeLease) : Prop :=
  issuer (lease_id l) = instance s ∧
  (sequence (lease_id l) < next_sequence s)%N ∧ (sequence (lease_id l) ∉ revoked s).

Record store_wf (st : LeaseState) : Prop := mk_store_wf {
  swf_issuer : issuer_wf (store_issuer st);
  swf_leases : map_Forall (λ id l, lease_id l = id ∧ lease_wf (store_issuer st) l) (leases st);
  swf_capacity : (outstanding st + reserved st ≤ max_outstanding st)%N;
  swf_bound : (max_outstanding st ≤ u64_max)%N
}.

Lemma store_wf_new i t m : (m ≤ u64_max)%N → store_wf (LeaseState_new (LeaseIssuer_new i t) m).
Proof.
  intros ?. split; cbn; [apply issuer_wf_new|apply map_Forall_empty| |done].
  unfold outstanding. cbn. rewrite map_size_empty. lia.
Qed.

Lemma prune_lookup st now id l :
  leases (LeaseState_prune st now) !! id = Some l ↔
  leases st !! id = Some l ∧ ¬ time_le (expires_at l) now.
Proof. cbn. by rewrite map_lookup_filter_Some. Qed.

Lemma prune_subseteq st now : leases (LeaseState_prune st now) ⊆ leases st.
Proof. apply map_filter_subseteq. Qed.

Lemma prune_outstanding st now : (outstanding (LeaseState_prune st now) ≤ outstanding st)%N.
Proof.
  unfold outstanding. pose proof (map_subseteq_size _ _ (prune_subseteq st now)). lia.
Qed.

Lemma store_wf_prune st now : store_wf st → store_wf (LeaseState_prune st now).
Proof.
  intros [Hi Hl Hc Hb]. split; cbn; [done| | |done].
  - intros id l [Hid _]%prune_lookup. by apply Hl.
  - pose proof (prune_outstanding st now). cbn in *. lia.
Qed.

Lemma store_wf_release st : store_wf st → store_wf (LeaseState_release_reservation st).
Proof.
  intros [Hi Hl Hc Hb]. split; cbn; [done..| |done].
  unfold saturating_sub, outstanding in *. cbn. lia.
Qed.

Lemma store_wf_remove st id : store_wf st → store_wf (LeaseState_remove st id).
Proof.
  intros [Hi Hl Hc Hb]. split; cbn; [done|by apply map_Forall_delete| |done].
  unfold outstanding in *. cbn.
  pose proof (map_subseteq_size _ _ (delete_subseteq (leases st) id)). lia.
Qed.

(** The capacity test is exact on a well-formed store: the word sum does not
    wrap. *)
Lemma is_at_capacity_spec st :
  store_wf st →
  LeaseState_is_at_capacity st = false ↔ (outstanding st + reserved st < max_outstanding st)%N.
Proof.
  intros [_ _ Hc Hb]. unfold LeaseState_is_at_capacity.
  rewrite u64_wrapping_add_small by lia. rewrite bool_decide_eq_false. lia.
Qed.

Lemma reserve_reserved st :
  store_wf st → (outstanding st + reserved st < max_outstanding st)%N →
  reserved (LeaseState_reserve st) = (reserved st + 1)%N.
Proof.
  intros [_ _ Hc Hb] Hlt. cbn. apply u64_wrapping_add_small. lia.
Qed.

Lemma store_wf_reserve st :
  store_wf st → (outstanding st + reserved st < max_outstanding st)%N →
  store_wf (LeaseState_reserve st).
Proof.
  intros Hwf Hlt. pose proof (reserve_reserved st Hwf Hlt) as Hr.
  destruct Hwf as [Hi Hl Hc Hb]. split; cbn in *; [done..| |done].
  rewrite Hr. unfold outstanding in *. cbn. lia.
Qed.
#[export] Hint Resolve store_wf_prune store_wf_release store_wf_remove store_wf_reserve : eltanin.

(** Replacing the issuer keeps the store well formed when no stored lease is
    revoked by it. *)
Lemma store_wf_with_issuer st i :
  store_wf st → issuer_wf i →
  map_Forall (λ _ l, lease_wf i l) (leases st) → store_wf (LeaseState_with_issuer st i).
Proof.
  intros [Hi Hl Hc Hb] Hi' Hl'. split; cbn; [done| |done..].
  intros id l Hid. split; [by apply Hl|by eapply Hl'].
Qed.

Lemma outstanding_insert st l :
  (outstanding (LeaseState_insert st l) ≤ outstanding st + 1)%N.
Proof.
  unfold outstanding. cbn. rewrite map_size_insert. case_match; cbn; lia.
Qed.

Lemma store_wf_insert st l :
  store_wf st → lease_wf (store_issuer st) l → (0 < reserved st)%N →
  store_wf (LeaseState_insert st l).
Proof.
  intros [Hi Hl Hc Hb] Hlw Hr. split; cbn; [done| | |done].
  - by apply map_Forall_insert_2.
  - pose proof (outstanding_insert st l). cbn in *. unfold saturating_sub. lia.
Qed.

Lemma lease_wf_issue s pol orig now ttl r s' l :
  (next_sequence s < u64_max)%N → LeaseIssuer_issue s pol orig now ttl = (r, s') →
  lease_wf s l → lease_wf s' l.
Proof.
  intros Hlt Hi (Hii & Hs & Hr). destruct r as [l'|e].
  - apply issue_Ok in Hi as (_ & _ & _ & _ & ->). unfold lease_wf. cbn.
    rewrite u64_wrapping_add_small by (unfold u64_max in *; lia). split_and!; [done|lia|done].
  - by apply issue_Err in Hi as [-> _].
Qed.

Lemma lease_wf_issued s pol orig now ttl s' l :
  issuer_wf s → (next_sequence s < u64_max)%N →
  LeaseIssuer_issue s pol orig now ttl = (Ok l, s') → lease_wf s' l.
Proof.
  intros [_ Hrev] Hlt (_ & _ & _ & -> & ->)%issue_Ok. unfold lease_wf. cbn.
  rewrite u64_wrapping_add_small by (unfold u64_max in *; lia).
  split_and!; [done|lia|]. intros ?%Hrev. lia.
Qed.

Lemma lease_wf_revoke_other s id o s' l :
  LeaseIssuer_revoke s id = (o, s') → lease_wf s l → lease_id l ≠ id → lease_wf s' l.
Proof.
  unfold LeaseIssuer_revoke. repeat (case_decide; [by intros [= <- <-]|]).
  intros [= <- <-] (Hi & Hs & Hr) Hne. split_and!; [done..|]. cbn.
  intros [Heq%elem_of_singleton|?]%elem_of_union; [|done]. apply Hne.
  destruct (lease_id l), id. cbn in *. f_equal; congruence.
Qed.

Lemma any_other_spec st id l :
  leases st !! id = Some l →
  LeaseState_any_other_live_lease_for_same_resource st id = true ↔
  ∃ id' l', leases st !! id' = Some l' ∧ id' ≠ id ∧ lease_resource l' = lease_resource l.
Proof.
  intros Hl. unfold LeaseState_any_other_live_lease_for_same_resource. rewrite Hl.
  rewrite bool_decide_eq_true. unfold map_Exists. naive_solver.
Qed.
