(* ===== verification/Authz.v ===== *)
(** * The authorization handler

    Models [crates/eltanin-agent/src/authz/mod.rs] and [authz/event.rs]: the
    configuration, policy loading, and the three operations of
    [AuthorizationHandler] with the events they record.  A handler's mutable
    state is the lease store behind its mutex; the backend, the clock and the
    event sink are the collaborators it calls.  Each region the code runs under
    the lock, and each call it makes outside it, is a definition of its own, so
    that [AuthzConcurrent] can interleave them; here they are composed the way one
    thread runs them. *)

From S2P Require Import Prelude Resource Identity Policy PolicySpec Lease.
From S2P Require Import Peer Backend Protocol LeaseStore.

(** ** Configuration *)

Inductive ConfigError : Type :=
  | NonPositiveLeaseTtl.

Record AuthorizationConfig : Type := mk_AuthorizationConfig {
  cfg_lease_ttl : Duration;
  cfg_max_outstanding_leases : N
}.

Definition DEFAULT_MAX_OUTSTANDING_LEASES : N := 1024.

Definition AuthorizationConfig_new (lease_ttl : Duration) :
    result AuthorizationConfig ConfigError :=
  if Duration_is_zero lease_ttl then Err NonPositiveLeaseTtl
  else Ok (mk_AuthorizationConfig lease_ttl DEFAULT_MAX_OUTSTANDING_LEASES).

Definition AuthorizationConfig_with_max_outstanding_leases (self : AuthorizationConfig) (m : N) :
    AuthorizationConfig :=
  mk_AuthorizationConfig (cfg_lease_ttl self) m.

(** ** Loading a policy *)

Inductive PolicyLoadError : Type :=
  | LoadIo (why : string)
  | LoadJson (why : string)
  | LoadInvalid (e : PolicyError).

(** [read_to_string] and [serde_json::from_str] answer for the file. *)
Definition load_policy (read : string → result string string)
    (parse : string → result (Versioned PolicyDocument) string) (path : string) :
    result PolicySet PolicyLoadError :=
  let? contents := map_err LoadIo (read path) in
  let? envelope := map_err LoadJson (parse contents) in
  map_err LoadInvalid (PolicySet_from_versioned envelope).

Definition denial_reason_for (r : DecisionReason) : DenialReason :=
  match r with
  | ExplicitDeny _ _ => DrExplicitDeny
  | IndeterminateEvidence _ => DrIndeterminateEvidence
  | NoMatchingRule | ExplicitAllow _ => DrNoMatchingRule
  end.

(** ** Events (event.rs) *)

Inductive Operation : Type :=
  | OpRequestLease
  | OpReleaseLease
  | OpAgentStatus.

Inductive AuthorizationOutcome : Type :=
  | Granted (id : LeaseId) (expires : MonotonicTime)
  | PolicyDenied (decision : PolicyDecision)
  | PeerNotAuthorizable
  | LeaseIssueFailed (error : LeaseError)
  | EnforcementRefused (r : EnforcementResult)
  | BackendFailed (error : BackendError)
  | CapacityExhausted (outstanding : N)
  | OutcomeReleased (revocation : RevocationOutcome) (backend : option EnforcementResult)
  | ReleaseRefused (validity : LeaseValidity)
  | ReleaseUnknownLease
  | StatusReported.

#[export] Instance Operation_eq_dec : EqDecision Operation.
Proof. solve_decision. Defined.
#[export] Instance AuthorizationOutcome_eq_dec : EqDecision AuthorizationOutcome.
Proof. solve_decision. Defined.

Record AuthorizationEvent : Type := mk_AuthorizationEvent {
  operation : Operation;
  ev_request : ClientRequest;
  peer : PeerContext;
  outcome : AuthorizationOutcome;
  response : AgentResponse
}.

#[export] Instance AuthorizationEvent_eq_dec : EqDecision AuthorizationEvent.
Proof. solve_decision. Defined.

Class EventSink (S : Type) : Type := { record : S → AuthorizationEvent → S }.

(** [NullSink]. *)
#[export] Instance NullSink_sink : EventSink unit := { record := λ s _, s }.

(** ** The handler *)

Inductive IssueFailure : Type :=
  | IssueCapacityExhausted (outstanding : N)
  | IssueDenied (decision : PolicyDecision)
  | IssueOther (error : LeaseError).

(** What never changes after [new]. *)
Record AuthorizationHandler : Type := mk_AuthorizationHandler {
  handler_policy : PolicySet;
  lease_ttl : Duration;
  max_outstanding_leases : N
}.

Definition AuthorizationHandler_new (i : IssuerInstanceId) (p : PolicySet)
    (config : AuthorizationConfig) : AuthorizationHandler * LeaseState :=
  (mk_AuthorizationHandler p (cfg_lease_ttl config) (cfg_max_outstanding_leases config),
   LeaseState_new (LeaseIssuer_new i (cfg_lease_ttl config)) (cfg_max_outstanding_leases config)).

(** One locked region; [now] is the clock read inside it. *)
Definition issue_reserving_capacity (h : AuthorizationHandler) (st : LeaseState)
    (prov : ProvenanceRecord) (now : MonotonicTime) : result ComputeLease IssueFailure * LeaseState :=
  let st := LeaseState_prune st now in
  if LeaseState_is_at_capacity st then
    (Err (IssueCapacityExhausted (max_outstanding_leases h)), st)
  else
    let '(issued, i) := LeaseIssuer_issue (store_issuer st) (handler_policy h) prov now (lease_ttl h) in
    let st := LeaseState_with_issuer st i in
    match issued with
    | Ok lease => (Ok lease, LeaseState_reserve st)
    | Err (Denied decision) => (Err (IssueDenied decision), st)
    | Err error => (Err (IssueOther error), st)
    end.

Definition handle_status : AuthorizationOutcome * AgentResponse :=
  (StatusReported, Status (mk_AgentStatusView DOMAIN_SCHEMA_VERSION)).

(** [handle_request_lease] up to the lease it must still enforce: the answer
    given right away, or the issued lease. *)
Definition begin_request_lease (h : AuthorizationHandler) (st : LeaseState) (q : LeaseRequest)
    (p : PeerContext) (now : MonotonicTime) :
    (AuthorizationOutcome * AgentResponse + ComputeLease) * LeaseState :=
  match PeerContext_authorizable p with
  | None => (inl (PeerNotAuthorizable, LeaseDenied DrIndeterminateEvidence), st)
  | Some obs =>
      let '(r, st) := issue_reserving_capacity h st (provenance_for q obs) now in
      match r with
      | Ok lease => (inr lease, st)
      | Err (IssueCapacityExhausted n) => (inl (CapacityExhausted n, ErrorResponse CodeInternal), st)
      | Err (IssueDenied d) =>
          (inl (PolicyDenied d, LeaseDenied (denial_reason_for (reason d))), st)
      | Err (IssueOther e) => (inl (LeaseIssueFailed e, ErrorResponse CodeInternal), st)
      end
  end.

(** The compensation of a lease that will not be granted: one locked region. *)
Definition compensate (st : LeaseState) (lease : ComputeLease) : LeaseState :=
  LeaseState_release_reservation
    (LeaseState_with_issuer st (LeaseIssuer_revoke (store_issuer st) (lease_id lease)).2).

(** The rest of [handle_request_lease], after the unlocked [enforce]: [later] is
    the clock read before the lock is taken again, which only an [Allowed] result
    uses. *)
Definition finish_request_lease (st : LeaseState) (lease : ComputeLease)
    (enforced : result EnforcementResult BackendError) (later : MonotonicTime) :
    (AuthorizationOutcome * AgentResponse) * LeaseState :=
  match enforced with
  | Ok Allowed =>
      let remaining := MonotonicTime_saturating_duration_since (expires_at lease) later in
      if Duration_is_zero remaining then
        ((LeaseIssueFailed ExpiryOverflow, ErrorResponse CodeInternal), compensate st lease)
      else
        ((Granted (lease_id lease) (expires_at lease),
          LeaseGranted (mk_LeaseView (lease_id lease) remaining)),
         LeaseState_insert st lease)
  | Ok r => ((EnforcementRefused r, ErrorResponse CodeInternal), compensate st lease)
  | Err e => ((BackendFailed e, ErrorResponse CodeInternal), compensate st lease)
  end.

Section handler.
Context {B : Type} `{ComputeBackend B}.

(** One thread's [handle_request_lease]; [now] and [later] are its two clock
    readings. *)
Definition handle_request_lease (h : AuthorizationHandler) (st : LeaseState) (b : B)
    (q : LeaseRequest) (p : PeerContext) (now later : MonotonicTime) :
    (AuthorizationOutcome * AgentResponse) * LeaseState * B :=
  let '(r, st) := begin_request_lease h st q p now in
  match r with
  | inl answer => (answer, st, b)
  | inr lease =>
      let '(enforced, b) := enforce b (request (origin lease)) in
      let '(answer, st) := finish_request_lease st lease enforced later in
      (answer, st, b)
  end.

(** [handle_release_lease] is one locked region, the backend call included. *)
Definition handle_release_lease (st : LeaseState) (b : B) (q : ReleaseRequest) (p : PeerContext)
    (now : MonotonicTime) : (AuthorizationOutcome * AgentResponse) * LeaseState * B :=
  match PeerContext_authorizable p with
  | None => ((PeerNotAuthorizable, LeaseReleased Refused), st, b)
  | Some obs =>
      let st := LeaseState_prune st now in
      match LeaseState_get st (rr_lease_id q) with
      | None => ((ReleaseUnknownLease, LeaseReleased Refused), st, b)
      | Some stored =>
          let presented := ProvenanceRecord_new obs (request (origin stored)) in
          let validity := LeaseIssuer_validate (store_issuer st) stored presented now in
          if negb (LeaseValidity_is_valid validity) then
            ((ReleaseRefused validity, LeaseReleased Refused), st, b)
          else
            let id := rr_lease_id q in
            let revoke_backend :=
              negb (LeaseState_any_other_live_lease_for_same_resource st id) in
            let '(revocation, i) := LeaseIssuer_revoke (store_issuer st) id in
            let st := LeaseState_remove (LeaseState_with_issuer st i) id in
            let '(backend_result, b) :=
              if revoke_backend then
                let '(r, b) := revoke b (lease_resource stored) in
                (match r with Ok e => Some e | Err _ => None end, b)
              else (None, b) in
            ((OutcomeReleased revocation backend_result, LeaseReleased Protocol.Released), st, b)
      end
  end.

(** The dispatch of [RequestHandler::handle], without the event. *)
Definition dispatch (h : AuthorizationHandler) (st : LeaseState) (b : B) (rq : ClientRequest)
    (p : PeerContext) (now later : MonotonicTime) :
    Operation * (AuthorizationOutcome * AgentResponse) * LeaseState * B :=
  match rq with
  | AgentStatus => (OpAgentStatus, handle_status, st, b)
  | RequestLease q =>
      let '(answer, st, b) := handle_request_lease h st b q p now later in
      (OpRequestLease, answer, st, b)
  | ReleaseLease q =>
      let '(answer, st, b) := handle_release_lease st b q p now in
      (OpReleaseLease, answer, st, b)
  end.

(** [RequestHandler::handle]. *)
Definition handle {S} `{EventSink S} (h : AuthorizationHandler) (st : LeaseState) (b : B) (s : S)
    (rq : ClientRequest) (p : PeerContext) (now later : MonotonicTime) :
    AgentResponse * LeaseState * B * S :=
  let '(op, (out, resp), st, b) := dispatch h st b rq p now later in
  (resp, st, b, record s (mk_AuthorizationEvent op rq p out resp)).

End handler.
