(* ===== verification/AuthzSpec.v ===== *)
(** * The authorization handler: specification and properties

    The invariant one agent instance maintains, what each locked region does to
    it, and the properties of the three operations as one thread runs them.  The
    interleaving of threads is in [AuthzConcurrent]. *)

From S2P Require Import Prelude Resource Identity Policy PolicySpec Lease.
From S2P Require Import Peer Backend Protocol LeaseStore Authz.

(** ** Invariant *)

(** What a lease of this handler stands for: the policy permits its very
    origin, and it lives exactly the configured time. *)
Definition authorised (h : AuthorizationHandler) (l : ComputeLease) : Prop :=
  permitted (handler_policy h) (context (origin l)) (request (origin l)) ∧
  as_nanos (expires_at l) = (as_nanos (issued_at l) + lease_ttl h)%N.

Record handler_ok (h : AuthorizationHandler) (st : LeaseState) : Prop := mk_handler_ok {
  hok_store : store_wf st;
  hok_ttl : (0 < lease_ttl h)%N;
  hok_max_ttl : max_ttl (store_issuer st) = lease_ttl h;
  hok_capacity : max_outstanding st = max_outstanding_leases h;
  hok_authorised : map_Forall (λ _ l, authorised h l) (leases st)
}.

(** Fewer than [2^64 - 1] leases were issued so far. *)
Definition headroom (st : LeaseState) : Prop := (next_sequence (store_issuer st) < u64_max)%N.

Lemma handler_ok_new i p c cfg :
  AuthorizationConfig_new c = Ok cfg → (cfg_max_outstanding_leases cfg ≤ u64_max)%N →
  let '(h, st) := AuthorizationHandler_new i p cfg in handler_ok h st.
Proof.
  unfold AuthorizationConfig_new, Duration_is_zero. case_bool_decide; [done|].
  intros [= <-] ?. split; cbn in *; [by apply store_wf_new|lia|done|done|apply map_Forall_empty].
Qed.

Lemma handler_ok_prune h st now : handler_ok h st → handler_ok h (LeaseState_prune st now).
Proof.
  intros [Hs ? ? ? Ha]. split; [by apply store_wf_prune|done..|].
  intros id l [Hid _]%prune_lookup. by eapply Ha.
Qed.

Lemma handler_ok_release h st : handler_ok h st → handler_ok h (LeaseState_release_reservation st).
Proof. intros [Hs ? ? ? Ha]. split; [by apply store_wf_release|done..]. Qed.

Lemma handler_ok_remove h st id : handler_ok h st → handler_ok h (LeaseState_remove st id).
Proof.
  intros [Hs ? ? ? Ha]. split; [by apply store_wf_remove|done..|]. by apply map_Forall_delete.
Qed.

Lemma handler_ok_insert h st l :
  handler_ok h st → lease_wf (store_issuer st) l → authorised h l → (0 < reserved st)%N →
  handler_ok h (LeaseState_insert st l).
Proof.
  intros [Hs ? ? ? Ha] Hl Hau Hr. split; [by apply store_wf_insert|done..|].
  by apply map_Forall_insert_2.
Qed.

(** Revoking an identifier no stored lease has. *)
Lemma handler_ok_revoke h st id :
  handler_ok h st → leases st !! id = None →
  handler_ok h (LeaseState_with_issuer st (LeaseIssuer_revoke (store_issuer st) id).2).
Proof.
  intros [Hs ? Hm ? Ha] Hid.
  destruct (LeaseIssuer_revoke (store_issuer st) id) as [o i'] eqn:Hr. cbn.
  split; cbn; [|done| |done..].
  - apply store_wf_with_issuer; [done|by eapply issuer_wf_revoke; [apply Hs|]|].
    intros id' l Hl. destruct (swf_leases _ Hs _ _ Hl) as [Hk Hw].
    eapply lease_wf_revoke_other; [done..|]. congruence.
  - apply revoke_spec in Hr as (_ & -> & _). done.
Qed.

Lemma handler_ok_compensate h st l :
  handler_ok h st → leases st !! lease_id l = None → handler_ok h (compensate st l).
Proof. intros. by apply handler_ok_release, handler_ok_revoke. Qed.

(** What the first locked region does. *)
Definition issue_post (h : AuthorizationHandler) (st : LeaseState) (prov : ProvenanceRecord)
    (now : MonotonicTime) (r : result ComputeLease IssueFailure) (st' : LeaseState) : Prop :=
  let st0 := LeaseState_prune st now in
  match r with
  | Err (IssueCapacityExhausted n) => st' = st0 ∧ n = max_outstanding_leases h ∧
      (max_outstanding_leases h ≤ outstanding st0 + reserved st)%N
  | Err (IssueDenied d) => st' = st0 ∧ (outstanding st0 + reserved st < max_outstanding_leases h)%N ∧
      ¬ permitted (handler_policy h) (context prov) (request prov) ∧
      d = PolicySet_evaluate (handler_policy h) (context prov) (request prov)
  | Err (IssueOther e) => st' = st0 ∧ (outstanding st0 + reserved st < max_outstanding_leases h)%N ∧
      permitted (handler_policy h) (context prov) (request prov) ∧
      e = ExpiryOverflow ∧ (u64_max < as_nanos now + lease_ttl h)%N
  | Ok l =>
      (outstanding st0 + reserved st < max_outstanding_leases h)%N ∧
      (as_nanos now + lease_ttl h ≤ u64_max)%N ∧
      origin l = prov ∧ issued_at l = now ∧ authorised h l ∧
      lease_id l = mk_LeaseId (instance (store_issuer st)) (next_sequence (store_issuer st)) ∧
      lease_wf (store_issuer st') l ∧
      leases st' = leases st0 ∧ reserved st' = (reserved st + 1)%N ∧
      instance (store_issuer st') = instance (store_issuer st) ∧
      next_sequence (store_issuer st') = (next_sequence (store_issuer st) + 1)%N ∧
      revoked (store_issuer st') = revoked (store_issuer st)
  end.

Lemma issue_reserving_spec h st prov now :
  handler_ok h st → headroom st →
  let '(r, st') := issue_reserving_capacity h st prov now in
  handler_ok h st' ∧ issue_post h st prov now r st'.
Proof.
  intros Hok Hroom. pose proof (handler_ok_prune h st now Hok) as Hok0.
  destruct Hok0 as [Hs0 Ht0 Hm0 Hc0 Ha0].
  unfold issue_reserving_capacity, issue_post.
  destruct (LeaseState_is_at_capacity (LeaseState_prune st now)) eqn:Hcap.
  { split; [done|]. split; [done|]. split; [done|].
    apply not_false_iff_true in Hcap. rewrite is_at_capacity_spec in Hcap by done.
    cbn in *. lia. }
  apply is_at_capacity_spec in Hcap; [|done].
  assert (outstanding (LeaseState_prune st now) + reserved st < max_outstanding_leases h)%N
    as Hcap' by (cbn in *; lia).
  destruct (LeaseIssuer_issue _ _ prov now (lease_ttl h)) as [[l|e] i] eqn:Hi.
  - pose proof (lease_wf_issued _ _ _ _ _ _ _ (swf_issuer _ Hs0) Hroom Hi) as Hlw.
    assert (handler_ok h (LeaseState_with_issuer (LeaseState_prune st now) i)) as Hok1.
    { split; cbn; [|done| |done..].
      - apply store_wf_with_issuer; [done| |].
        + eapply issuer_wf_issue; [apply Hs0|done|exact Hi].
        + intros id l' Hl'. eapply lease_wf_issue; [done|exact Hi|]. by eapply (swf_leases _ Hs0).
      - apply issue_Ok in Hi as (_ & _ & _ & _ & ->). done. }
    apply issue_Ok in Hi as (Httl & Hp & Hov & Hl & ->).
    split; [|split_and!; try done; try (by rewrite Hl)].
    + destruct Hok1 as [? ? ? ? ?]. split; [|done..]. apply store_wf_reserve; [done|].
      unfold outstanding in *. cbn in *. lia.
    + cbn. apply u64_wrapping_add_small. pose proof (swf_bound _ Hs0). cbn in *. lia.
    + cbn. apply u64_wrapping_add_small. unfold headroom, u64_max in *. lia.
  - apply issue_Err in Hi as [-> He].
    assert (LeaseState_with_issuer (LeaseState_prune st now)
      (store_issuer (LeaseState_prune st now)) = LeaseState_prune st now) as -> by done.
    destruct e; cbn in He; try (exfalso; cbn in *; lia).
    + destruct He as (_ & Hn & ->). split; [done|]. split_and!; done.
    + destruct He as (_ & Hp & Hov). split; [done|]. split_and!; done.
Qed.

(** The lease of a grant in flight: issued, reserved, not stored. *)
Record in_flight (h : AuthorizationHandler) (st : LeaseState) (l : ComputeLease) : Prop :=
  mk_in_flight {
  if_wf : lease_wf (store_issuer st) l;
  if_authorised : authorised h l;
  if_fresh : leases st !! lease_id l = None;
  if_reserved : (0 < reserved st)%N
}.

Lemma issued_in_flight h st prov now l st' :
  handler_ok h st → issue_post h st prov now (Ok l) st' → in_flight h st' l.
Proof.
  intros [Hs ? ? ? ?] (_ & _ & _ & _ & Ha & Hid & Hw & Hl & Hr & _).
  split; [done|done| |lia]. rewrite Hl. apply eq_None_not_Some. intros [l' [Hl' _]%prune_lookup].
  destruct (swf_leases _ Hs _ _ Hl') as [Hk (_ & Hlt & _)]. rewrite Hk, Hid in Hlt. cbn in Hlt. lia.
Qed.

(** What the second locked region does with it. *)
Definition finish_post (st : LeaseState) (l : ComputeLease)
    (r : result EnforcementResult BackendError) (later : MonotonicTime)
    (out : AuthorizationOutcome) (resp : AgentResponse) (st' : LeaseState) : Prop :=
  instance (store_issuer st') = instance (store_issuer st) ∧
  next_sequence (store_issuer st') = next_sequence (store_issuer st) ∧
  reserved st' = (reserved st - 1)%N ∧
  (r = Ok Allowed ∧ (as_nanos later < as_nanos (expires_at l))%N ∧
   out = Granted (lease_id l) (expires_at l) ∧
   resp = LeaseGranted (mk_LeaseView (lease_id l) (as_nanos (expires_at l) - as_nanos later)) ∧
   leases st' = <[lease_id l := l]> (leases st) ∧ store_issuer st' = store_issuer st
   ∨
   (out = LeaseIssueFailed ExpiryOverflow ∧ r = Ok Allowed ∧
      (as_nanos (expires_at l) ≤ as_nanos later)%N
    ∨ (∃ e, r = Ok e ∧ e ≠ Allowed ∧ out = EnforcementRefused e)
    ∨ ∃ e, r = Err e ∧ out = BackendFailed e) ∧
   resp = ErrorResponse CodeInternal ∧ leases st' = leases st ∧
   revoked (store_issuer st') = {[sequence (lease_id l)]} ∪ revoked (store_issuer st)).

Lemma compensate_spec h st l :
  in_flight h st l →
  instance (store_issuer (compensate st l)) = instance (store_issuer st) ∧
  next_sequence (store_issuer (compensate st l)) = next_sequence (store_issuer st) ∧
  revoked (store_issuer (compensate st l)) =
    {[sequence (lease_id l)]} ∪ revoked (store_issuer st).
Proof.
  intros [(Hi & Hlt & Hr) _ _ _]. unfold compensate, LeaseIssuer_revoke. cbn.
  rewrite decide_False by (by intros []). rewrite decide_False by lia.
  by rewrite decide_False.
Qed.

Lemma finish_request_spec h st l r later :
  handler_ok h st → in_flight h st l →
  let '((out, resp), st') := finish_request_lease st l r later in
  handler_ok h st' ∧ finish_post st l r later out resp st'.
Proof.
  intros Hok Hfl. pose proof Hfl as [Hw Ha Hf Hr].
  pose proof (handler_ok_compensate h st l Hok Hf) as Hokc.
  pose proof (compensate_spec h st l Hfl) as (Hci & Hcn & Hcr).
  unfold finish_request_lease, finish_post, Duration_is_zero,
    MonotonicTime_saturating_duration_since, saturating_sub.
  destruct r as [[| | |]|e]; [case_bool_decide|..].
  2: { split; [by apply handler_ok_insert|]. split_and!; [done..|]. left. split_and!; done || lia. }
  all: split; [done|]; split_and!; [done..|]; right; (split; [|done]).
  - left. split_and!; [done..|lia].
  - right; left. eauto.
  - right; left. eauto.
  - right; left. eauto.
  - right; right. eauto.
Qed.

(** ** The release region *)

Definition workload_refusal (v : LeaseValidity) : Prop :=
  v = WorkloadMismatch ∨ v = WorkloadIndeterminate ∨ v = ExecutableMismatch.

Section release.
Context {B : Type} `{ComputeBackend B}.

(** What the backend is asked to do on a release of [l]. *)
Definition teardown (st : LeaseState) (b : B) (l : ComputeLease)
    (out : option EnforcementResult) (b' : B) : Prop :=
  ((∃ id' l', leases st !! id' = Some l' ∧ id' ≠ lease_id l ∧ lease_resource l' = lease_resource l) ∧
   out = None ∧ b' = b) ∨
  ((∀ id' l', leases st !! id' = Some l' → id' ≠ lease_id l → lease_resource l' ≠ lease_resource l) ∧
   b' = (revoke b (lease_resource l)).2 ∧
   ∀ r, out = Some r ↔ (revoke b (lease_resource l)).1 = Ok r).

Definition release_post (st : LeaseState) (b : B) (q : ReleaseRequest) (p : PeerContext)
    (now : MonotonicTime) (out : AuthorizationOutcome) (resp : AgentResponse)
    (st' : LeaseState) (b' : B) : Prop :=
  let st0 := LeaseState_prune st now in
  (PeerContext_authorizable p = None ∧ out = PeerNotAuthorizable ∧ resp = LeaseReleased Refused ∧
     st' = st ∧ b' = b) ∨
  ∃ obs, PeerContext_authorizable p = Some obs ∧
  ((leases st0 !! rr_lease_id q = None ∧ out = ReleaseUnknownLease ∧
      resp = LeaseReleased Refused ∧ st' = st0 ∧ b' = b) ∨
   ∃ l, leases st0 !! rr_lease_id q = Some l ∧ lease_id l = rr_lease_id q ∧
   ((¬ same_workload (workload (context (origin l))) (workload obs) ∧
       (∃ v, out = ReleaseRefused v ∧ workload_refusal v) ∧ resp = LeaseReleased Refused ∧
       st' = st0 ∧ b' = b) ∨
    (same_workload (workload (context (origin l))) (workload obs) ∧
       resp = LeaseReleased Protocol.Released ∧
       (∃ br, out = OutcomeReleased RevokedNow br ∧ teardown st0 b l br b') ∧
       leases st' = delete (rr_lease_id q) (leases st0) ∧ reserved st' = reserved st ∧
       instance (store_issuer st') = instance (store_issuer st) ∧
       next_sequence (store_issuer st') = next_sequence (store_issuer st) ∧
       revoked (store_issuer st') = {[sequence (rr_lease_id q)]} ∪ revoked (store_issuer st)))).

(** A stored, unexpired lease fails validation only on the workload. *)
Lemma validate_stored st now id l obs :
  store_wf st → leases (LeaseState_prune st now) !! id = Some l →
  let v := LeaseIssuer_validate (store_issuer st) l
             (ProvenanceRecord_new obs (request (origin l))) now in
  if LeaseValidity_is_valid v
  then same_workload (workload (context (origin l))) (workload obs)
  else ¬ same_workload (workload (context (origin l))) (workload obs) ∧ workload_refusal v.
Proof.
  intros Hs [Hl Hexp]%prune_lookup. cbv zeta.
  destruct (swf_leases _ Hs _ _ Hl) as [_ (Hi & _ & Hr)].
  pose proof (validate_Valid (store_issuer st) l (ProvenanceRecord_new obs (request (origin l))) now)
    as HV. unfold bound_to in HV. cbn in HV.
  destruct (LeaseValidity_is_valid _) eqn:Hv.
  - apply is_valid_iff in Hv as [r Hv]. by apply HV in Hv as (_ & _ & [_ ?] & _).
  - assert (¬ same_workload (workload (context (origin l))) (workload obs)) as Hn.
    { intros Hsw. apply not_true_iff_false in Hv. apply Hv, is_valid_iff.
      exists (as_nanos (expires_at l) - as_nanos now)%N. apply HV. unfold time_le in Hexp.
      split_and!; done || lia. }
    split; [done|]. revert Hv. unfold LeaseIssuer_validate, workload_refusal. cbn.
    rewrite decide_False by (by intros []). rewrite decide_False by done.
    rewrite decide_False by (by intros []). rewrite decide_False by (by intros []).
    destruct (WorkloadIdentity_compare_process _ _); [|by auto..].
    destruct (WorkloadIdentity_compare_executable _ _); [|by auto..].
    by rewrite decide_False by done.
Qed.

Lemma release_spec h st b q p now :
  handler_ok h st →
  let '((out, resp), st', b') := handle_release_lease st b q p now in
  handler_ok h st' ∧ release_post st b q p now out resp st' b'.
Proof.
  intros Hok. pose proof (handler_ok_prune h st now Hok) as Hok0.
  unfold handle_release_lease, release_post, LeaseState_get.
  destruct (PeerContext_authorizable p) as [obs|]; [|split; [done|by left]].
  destruct (leases (LeaseState_prune st now) !! rr_lease_id q) as [l|] eqn:Hl.
  2: { split; [done|]. right. eexists. split; [done|]. by left. }
  destruct (swf_leases _ (hok_store _ _ Hok0) _ _ Hl) as [Hid (Hi & Hlt & Hr)].
  pose proof (validate_stored st now _ l obs (hok_store _ _ Hok) Hl) as HV. cbv zeta in HV.
  cbn [store_issuer LeaseState_prune] in *.
  destruct (LeaseValidity_is_valid _); cbn [negb].
  2: { split; [done|]. right. eexists. split; [done|]. right. exists l. split; [done|].
       split; [done|]. left. destruct HV. split; [done|]. split; [by eexists|done]. }
  destruct (LeaseIssuer_revoke (store_issuer st) (rr_lease_id q)) as [o i] eqn:Hrev.
  assert (o = RevokedNow ∧ i = mk_LeaseIssuer (instance (store_issuer st)) (max_ttl (store_issuer st))
    (next_sequence (store_issuer st)) ({[sequence (rr_lease_id q)]} ∪ revoked (store_issuer st)))
    as [-> ->].
  { revert Hrev. unfold LeaseIssuer_revoke. rewrite <-Hid. rewrite decide_False by (by intros []).
    rewrite decide_False by lia. rewrite decide_False by done. by intros [= <- <-]. }
  set (st1 := LeaseState_remove _ _).
  assert (handler_ok h st1) as Hok1.
  { assert (st1 = LeaseState_with_issuer (LeaseState_remove (LeaseState_prune st now) (rr_lease_id q))
      (LeaseIssuer_revoke (store_issuer (LeaseState_remove (LeaseState_prune st now) (rr_lease_id q)))
        (rr_lease_id q)).2) as -> by (cbn; by rewrite Hrev).
    apply handler_ok_revoke; [by apply handler_ok_remove|]. cbn. apply lookup_delete_eq. }
  assert (∀ br b', (if negb (LeaseState_any_other_live_lease_for_same_resource
        (LeaseState_prune st now) (rr_lease_id q))
      then let '(r, b) := revoke b (lease_resource l) in
           (match r with Ok e => Some e | Err _ => None end, b)
      else (None, b)) = (br, b') → teardown (LeaseState_prune st now) b l br b') as HT.
  { intros br b'. pose proof (any_other_spec _ _ _ Hl) as HA. unfold teardown. rewrite Hid.
    destruct (LeaseState_any_other_live_lease_for_same_resource _ _); cbn [negb].
    - intros [= <- <-]. left. split; [by apply HA|done].
    - destruct (revoke b (lease_resource l)) as [r b1]. intros [= <- <-]. right. split.
      + intros id' l' Hl' Hne Heq. discriminate (proj2 HA). eauto.
      + split; [done|]. intros e. destruct r; cbn; (split; [|]); congruence. }
  destruct (if negb _ then _ else _) as [br b'] eqn:Hb. specialize (HT br b' eq_refl).
  split; [done|]. right. eexists. split; [done|]. right. exists l. split; [done|].
  split; [done|]. right. split; [done|]. split; [done|]. split; [eauto|]. by split_and!.
Qed.

End release.

(** ** The request operation, whole *)

Section request.
Context {B : Type} `{ComputeBackend B}.

(** Every branch of one thread's [handle_request_lease]. *)
Definition request_post (h : AuthorizationHandler) (st : LeaseState) (b : B) (q : LeaseRequest)
    (p : PeerContext) (now later : MonotonicTime) (out : AuthorizationOutcome)
    (resp : AgentResponse) (st' : LeaseState) (b' : B) : Prop :=
  let st0 := LeaseState_prune st now in
  (PeerContext_authorizable p = None ∧ out = PeerNotAuthorizable ∧
     resp = LeaseDenied DrIndeterminateEvidence ∧ st' = st ∧ b' = b) ∨
  ∃ obs, PeerContext_authorizable p = Some obs ∧
  let prov := provenance_for q obs in
  let dec := PolicySet_evaluate (handler_policy h) (context prov) (request prov) in
  ((max_outstanding_leases h ≤ outstanding st0 + reserved st)%N ∧
     out = CapacityExhausted (max_outstanding_leases h) ∧
     resp = ErrorResponse CodeInternal ∧ st' = st0 ∧ b' = b) ∨
  (outstanding st0 + reserved st < max_outstanding_leases h)%N ∧
  ((effect dec = Deny ∧ out = PolicyDenied dec ∧ resp = LeaseDenied (denial_reason_for (reason dec)) ∧
      st' = st0 ∧ b' = b) ∨
   effect dec = Allow ∧
   (((u64_max < as_nanos now + lease_ttl h)%N ∧ out = LeaseIssueFailed ExpiryOverflow ∧
       resp = ErrorResponse CodeInternal ∧ st' = st0 ∧ b' = b) ∨
    (as_nanos now + lease_ttl h ≤ u64_max)%N ∧
    ∃ st1 l, issue_post h st prov now (Ok l) st1 ∧ b' = (enforce b (request prov)).2 ∧
      finish_post st1 l (enforce b (request prov)).1 later out resp st')).

Lemma request_spec h st b q p now later :
  handler_ok h st → headroom st →
  let '((out, resp), st', b') := handle_request_lease h st b q p now later in
  handler_ok h st' ∧ request_post h st b q p now later out resp st' b'.
Proof.
  intros Hok Hroom. unfold handle_request_lease, begin_request_lease, request_post.
  destruct (PeerContext_authorizable p) as [obs|]; [|split; [done|by left]].
  pose proof (issue_reserving_spec h st (provenance_for q obs) now Hok Hroom) as Hpost.
  destruct (issue_reserving_capacity h st (provenance_for q obs) now) as [r st1].
  destruct Hpost as [Hok1 Hpost]. destruct r as [l|[n|d|e]].
  - pose proof (issued_in_flight _ _ _ _ _ _ Hok Hpost) as Hfl.
    pose proof Hpost as (Hcap & Hov & Horig & _ & [Hp _] & _). rewrite Horig in *.
    destruct (enforce b (request (provenance_for q obs))) as [r b'] eqn:He.
    pose proof (finish_request_spec h st1 l r later Hok1 Hfl) as Hf.
    destruct (finish_request_lease st1 l r later) as [[out resp] st'].
    destruct Hf as [Hok' Hf]. split; [done|]. right. eexists. split; [done|]. right.
    split; [done|]. right. split; [by apply evaluate_effect_Allow|]. right. split; [done|].
    exists st1, l. by rewrite He.
  - destruct Hpost as (-> & -> & Hcap). split; [done|]. right. eexists. split; [done|]. by left.
  - destruct Hpost as (-> & Hcap & Hn & ->). split; [done|]. right. eexists. split; [done|].
    right. split; [done|]. left. split; [by apply effect_Deny_iff|done].
  - destruct Hpost as (-> & Hcap & Hp & -> & Hov). split; [done|]. right. eexists.
    split; [done|]. right. split; [done|]. right.
    split; [by apply evaluate_effect_Allow|]. by left.
Qed.

(** Dispatching one request keeps the handler's invariant. *)
Lemma dispatch_ok h st b rq p now later :
  handler_ok h st → headroom st →
  let '(_, _, st', _) := dispatch h st b rq p now later in handler_ok h st'.
Proof.
  intros Hok Hroom. destruct rq as [q|q|]; cbn; [| |done].
  - pose proof (request_spec h st b q p now later Hok Hroom) as Hs.
    destruct (handle_request_lease h st b q p now later) as [[[? ?] ?] ?]. by destruct Hs.
  - pose proof (release_spec h st b q p now Hok) as Hs.
    destruct (handle_release_lease st b q p now) as [[[? ?] ?] ?]. by destruct Hs.
Qed.

(** ** Properties *)

(** C3: when a lease is granted, and what a grant is.  A request is answered
    with a granted lease exactly when the peer is authorizable, the store has
    room once expired leases are dropped, the policy permits the observed context
    and that request, the expiry fits the clock, the backend reports the
    enforcement [Allowed], and the lease has not expired by the time the backend
    answered.  The granted lease is then in the store, bound to exactly what was
    observed and asked, with the remaining time the client is told, and it is the
    only change to the stored leases. *)
Theorem grant_iff (h : AuthorizationHandler) (st : LeaseState) (b : B) (q : LeaseRequest)
    (p : PeerContext) (now later : MonotonicTime) (Hok : handler_ok h st) (Hroom : headroom st) :
  let '((out, resp), st', b') := handle_request_lease h st b q p now later in
  let id := mk_LeaseId (instance (store_issuer st)) (next_sequence (store_issuer st)) in
  (∀ v, resp = LeaseGranted v ↔
     v = mk_LeaseView id (as_nanos now + lease_ttl h - as_nanos later) ∧
     ∃ obs, PeerContext_authorizable p = Some obs ∧
       (outstanding (LeaseState_prune st now) + reserved st < max_outstanding_leases h)%N ∧
       permitted (handler_policy h) obs (request (provenance_for q obs)) ∧
       (as_nanos now + lease_ttl h ≤ u64_max)%N ∧
       (enforce b (request (provenance_for q obs))).1 = Ok Allowed ∧
       (as_nanos later < as_nanos now + lease_ttl h)%N) ∧
  (∀ v, resp = LeaseGranted v →
     ∃ obs l, PeerContext_authorizable p = Some obs ∧ origin l = provenance_for q obs ∧
       lease_id l = id ∧ as_nanos (expires_at l) = (as_nanos now + lease_ttl h)%N ∧
       leases st' = <[id := l]> (leases (LeaseState_prune st now)) ∧ lease_wf (store_issuer st') l).
Proof.
  pose proof (request_spec h st b q p now later Hok Hroom) as Hs.
  destruct (handle_request_lease h st b q p now later) as [[[out resp] st'] b'].
  destruct Hs as [Hok' [(Ha & _ & -> & _)|(obs & Ha & Hs)]].
  { split; [|done]. intros v. split; [done|]. intros (_ & obs & ? & _). congruence. }
  cbn in Hs. destruct Hs as [(Hc & _ & -> & _)|(Hc & [(He & _ & -> & _)|(He & Hs)])].
  { split; [|done]. intros v. split; [done|]. intros (_ & obs' & ? & ? & _). cbn in *. lia. }
  { split; [|done]. intros v. split; [done|]. intros (_ & obs' & ? & _ & Hp & _).
    apply effect_Deny_iff in He. destruct He. by simplify_eq. }
  apply evaluate_effect_Allow in He.
  destruct Hs as [(Hov & _ & -> & _)|(Hov & st1 & l & Hpost & -> & Hf)].
  { split; [|done]. intros v. split; [done|]. intros (_ & obs' & _ & _ & _ & ? & _). lia. }
  destruct Hpost as (_ & _ & Horig & Hiss & [_ Hexp] & Hid & Hlw & Hl1 & _).
  rewrite Hiss in Hexp.
  destruct Hf as (_ & _ & _ & [(Hr & Hlt & -> & -> & Hl & Hi)|(Hwhy & -> & _)]).
  - rewrite Hid, Hexp in *. split.
    + intros v. split; [|by intros [-> _]].
      intros [= <-]. split; [done|]. exists obs. split_and!; done.
    + intros v _. exists obs, l. split_and!; try done; [by rewrite Hl, Hl1|by rewrite Hi..].
  - split; [|done]. intros v. split; [done|]. intros (_ & obs' & Ha' & _ & _ & _ & Hr & Hlt).
    assert (obs' = obs) as -> by congruence. rewrite Hexp in Hwhy.
    destruct Hwhy as [(_ & _ & ?)|[(e & He' & Hne & _)|(e & He' & _)]]; [lia|cbn in *; congruence..].
Qed.

(** C9: a request that is not granted leaves nothing behind.  No lease is
    stored, no reservation is kept, and every identifier the call consumed is
    revoked, whichever step refused; in particular a backend failure or refusal
    is compensated. *)
Theorem refusal_leaves_nothing (h : AuthorizationHandler) (st : LeaseState) (b : B)
    (q : LeaseRequest) (p : PeerContext) (now later : MonotonicTime)
    (Hok : handler_ok h st) (Hroom : headroom st) :
  let '((out, resp), st', b') := handle_request_lease h st b q p now later in
  (∀ v, resp ≠ LeaseGranted v) →
  leases st' ⊆ leases st ∧ reserved st' = reserved st ∧
  (∀ n, (next_sequence (store_issuer st) ≤ n < next_sequence (store_issuer st'))%N →
     n ∈ revoked (store_issuer st')) ∧
  (b' ≠ b → ∃ obs, PeerContext_authorizable p = Some obs ∧
     b' = (enforce b (request (provenance_for q obs))).2 ∧
     permitted (handler_policy h) obs (request (provenance_for q obs))).
Proof.
  pose proof (request_spec h st b q p now later Hok Hroom) as Hs.
  destruct (handle_request_lease h st b q p now later) as [[[out resp] st'] b'].
  pose proof (prune_subseteq st now) as Hsub.
  assert (∀ st1, st1 = st ∨ st1 = LeaseState_prune st now →
    leases st1 ⊆ leases st ∧ reserved st1 = reserved st ∧
    (∀ n, (next_sequence (store_issuer st) ≤ n < next_sequence (store_issuer st1))%N →
     n ∈ revoked (store_issuer st1))) as Hsame.
  { intros st1 [->| ->]; (split; [done|]); (split; [done|]); cbn; intros; lia. }
  destruct Hs as [Hok' [(_ & _ & _ & -> & ->)|(obs & Ha & Hs)]].
  { intros _. destruct (Hsame st) as (? & ? & ?); [by left|]. by split_and!. }
  cbn in Hs.
  assert (∀ P : Prop, st' = LeaseState_prune st now ∧ b' = b → leases st' ⊆ leases st ∧
    reserved st' = reserved st ∧
    (∀ n, (next_sequence (store_issuer st) ≤ n < next_sequence (store_issuer st'))%N →
     n ∈ revoked (store_issuer st')) ∧ (b' ≠ b → P)) as Hpr.
  { intros P [-> ->]. destruct (Hsame (LeaseState_prune st now)) as (? & ? & ?); [by right|].
    by split_and!. }
  destruct Hs as [(_ & _ & _ & ? & ?)|(Hc & [(He & _ & _ & ? & ?)|(He & Hs)])]; [by auto..|].
  apply evaluate_effect_Allow in He.
  destruct Hs as [(Hov & _ & _ & ? & ?)|(Hov & st1 & l & Hpost & -> & Hf)]; [by auto|].
  destruct Hpost as (_ & _ & _ & _ & _ & Hid & _ & Hl1 & Hr1 & _ & Hn1 & Hrev1).
  destruct Hf as (_ & Hn & Hr & [(_ & _ & _ & -> & _)|(_ & -> & Hl & Hrev)]);
    [by intros Hno; destruct (Hno (mk_LeaseView (lease_id l)
      (as_nanos (expires_at l) - as_nanos later)))|].
  intros _. rewrite Hl, Hl1, Hrev, Hn, Hn1, Hr, Hr1, Hid. cbn.
  split; [done|]. split; [lia|]. split; [|by eauto].
  intros n ?. assert (n = next_sequence (store_issuer st)) as -> by lia. set_solver.
Qed.

(** A client is told [LeaseDenied] exactly when the policy denied the
    request, or, before the policy is consulted, when the peer's identity could
    not be confirmed; every other failure is an internal error, so a denial is
    always the policy's or the evidence's. *)
Theorem lease_denied_iff (h : AuthorizationHandler) (st : LeaseState) (b : B)
    (q : LeaseRequest) (p : PeerContext) (now later : MonotonicTime)
    (Hok : handler_ok h st) (Hroom : headroom st) (d : DenialReason) :
  let '((out, resp), st', b') := handle_request_lease h st b q p now later in
  resp = LeaseDenied d ↔
    (PeerContext_authorizable p = None ∧ d = DrIndeterminateEvidence) ∨
    ∃ obs, PeerContext_authorizable p = Some obs ∧
      (outstanding (LeaseState_prune st now) + reserved st < max_outstanding_leases h)%N ∧
      ¬ permitted (handler_policy h) obs (request (provenance_for q obs)) ∧
      d = denial_reason_for (reason (PolicySet_evaluate (handler_policy h) obs
            (request (provenance_for q obs)))).
Proof.
  pose proof (request_spec h st b q p now later Hok Hroom) as Hs.
  destruct (handle_request_lease h st b q p now later) as [[[out resp] st'] b'].
  destruct Hs as [Hok' [(Ha & _ & -> & _)|(obs & Ha & Hs)]]; rewrite Ha.
  { split; [intros [= <-]; by left|]. by intros [[_ ->]|(? & ? & _)]. }
  cbn in Hs. destruct Hs as [(Hc & _ & -> & _)|(Hc & [(He & _ & -> & _)|(He & Hs)])].
  - split; [done|]. intros [[? _]|(? & _ & ? & _)]; [done|]. cbn in *. lia.
  - apply effect_Deny_iff in He. split.
    + intros [= <-]. right. exists obs. by split_and!.
    + intros [[? _]|(obs' & [= ->] & _ & _ & ->)]; [done|]. done.
  - apply evaluate_effect_Allow in He.
    assert (∀ d', resp ≠ LeaseDenied d') as Hno.
    { destruct Hs as [(_ & _ & -> & _)|(_ & st1 & l & _ & _ & Hf)]; [done|].
      destruct Hf as (_ & _ & _ & [(_ & _ & _ & -> & _)|(_ & -> & _)]); done. }
    split; [by intros ?%Hno|]. intros [[? _]|(obs' & [= <-] & _ & ? & _)]; done.
Qed.

(** C5: releasing a lease.  The answer is [Released] exactly when the lease is
    stored and unexpired, and the connecting peer is, by trusted evidence, the
    very process and executable the lease is bound to; the lease is then removed
    and revoked for good, and the backend is asked to tear down exactly when no
    other stored lease names the same resource.  Every other case is answered
    [Refused] alike, changes nothing but the expired leases, and does not touch
    the backend: neither an unknown id, nor another client's lease, nor an expired
    one can be told apart by the response. *)
Theorem release_iff (h : AuthorizationHandler) (st : LeaseState) (b : B) (q : ReleaseRequest)
    (p : PeerContext) (now : MonotonicTime) (Hok : handler_ok h st) :
  let '((out, resp), st', b') := handle_release_lease st b q p now in
  let id := rr_lease_id q in
  (resp = LeaseReleased Protocol.Released ↔
     ∃ obs l, PeerContext_authorizable p = Some obs ∧ leases st !! id = Some l ∧
       ¬ time_le (expires_at l) now ∧ same_workload (workload (context (origin l))) (workload obs)) ∧
  (resp = LeaseReleased Protocol.Released →
     leases st' = delete id (leases (LeaseState_prune st now)) ∧
     sequence id ∈ revoked (store_issuer st') ∧
     ∀ l, leases st !! id = Some l →
       ∃ br, out = OutcomeReleased RevokedNow br ∧ teardown (LeaseState_prune st now) b l br b') ∧
  (resp ≠ LeaseReleased Protocol.Released →
     resp = LeaseReleased Refused ∧ b' = b ∧ leases st' ⊆ leases st ∧
     store_issuer st' = store_issuer st).
Proof.
  pose proof (release_spec h st b q p now Hok) as Hs.
  destruct (handle_release_lease st b q p now) as [[[out resp] st'] b'].
  pose proof (prune_subseteq st now) as Hsub.
  destruct Hs as [Hok' [(Ha & _ & -> & -> & ->)|(obs & Ha & Hs)]].
  { split; [|done]. split; [done|]. intros (? & ? & ? & _). congruence. }
  destruct Hs as [(Hn & _ & -> & -> & ->)|(l & Hl & Hid & Hs)].
  { split; [|done]. split; [done|]. intros (obs' & l & _ & Hl & Hexp & _).
    rewrite (proj2 (prune_lookup st now _ l) (conj Hl Hexp)) in Hn. done. }
  pose proof (proj1 (prune_lookup _ _ _ _) Hl) as [Hl0 Hexp].
  destruct Hs as [(Hnsw & _ & -> & -> & ->)|(Hsw & -> & (br & -> & HT) & Hl' & _ & _ & _ & Hrev)].
  { split; [|done]. split; [done|]. intros (obs' & l' & Ha' & Hl' & _ & ?). by simplify_eq. }
  split; [split; [intros _; exists obs, l; by split_and!|done]|]. split; [|done].
  intros _. split; [done|]. split; [rewrite Hrev; set_solver|].
  intros l0 Hl0'. assert (l0 = l) as -> by congruence. by exists br.
Qed.

(** What the client sees, as a function of the internal outcome. *)
Definition wire_view (op : Operation) (out : AuthorizationOutcome) (remaining : Duration) :
    AgentResponse :=
  match out with
  | Granted id _ => LeaseGranted (mk_LeaseView id remaining)
  | PolicyDenied d => LeaseDenied (denial_reason_for (reason d))
  | PeerNotAuthorizable =>
      if decide (op = OpReleaseLease) then LeaseReleased Refused
      else LeaseDenied DrIndeterminateEvidence
  | OutcomeReleased _ _ => LeaseReleased Protocol.Released
  | ReleaseRefused _ | ReleaseUnknownLease => LeaseReleased Refused
  | StatusReported => Status (mk_AgentStatusView DOMAIN_SCHEMA_VERSION)
  | LeaseIssueFailed _ | EnforcementRefused _ | BackendFailed _ | CapacityExhausted _ =>
      ErrorResponse CodeInternal
  end.

Lemma dispatch_view h st b rq p now later :
  handler_ok h st → headroom st →
  let '(op, (out, resp), _, _) := dispatch h st b rq p now later in
  ∃ remaining, resp = wire_view op out remaining.
Proof.
  intros Hok Hroom. destruct rq as [q|q|]; cbn; [..|by exists 0%N].
  - pose proof (request_spec h st b q p now later Hok Hroom) as Hs.
    destruct (handle_request_lease h st b q p now later) as [[[out resp] st'] b'].
    destruct Hs as [_ [(_ & -> & -> & _)|(obs & _ & Hs)]]; [by exists 0%N|]. cbn in Hs.
    destruct Hs as [(_ & -> & -> & _)|(_ & [(_ & -> & -> & _)|(_ & Hs)])]; [by exists 0%N..|].
    destruct Hs as [(_ & -> & -> & _)|(_ & st1 & l & _ & _ & Hf)]; [by exists 0%N|].
    destruct Hf as (_ & _ & _ & [(_ & _ & -> & -> & _)|(Hwhy & -> & _)]); [by eexists|].
    exists 0%N. by destruct Hwhy as [(-> & _)|[(e & _ & _ & ->)|(e & _ & ->)]].
  - pose proof (release_spec h st b q p now Hok) as Hs.
    destruct (handle_release_lease st b q p now) as [[[out resp] st'] b'].
    exists 0%N. destruct Hs as [_ [(_ & -> & -> & _)|(obs & _ & Hs)]]; [done|].
    destruct Hs as [(_ & -> & -> & _)|(l & _ & _ & Hs)]; [done|].
    by destruct Hs as [(_ & (v & -> & _) & -> & _)|(_ & -> & (br & -> & _) & _)].
Qed.

(** Every request is recorded exactly once, with the asking peer as it was
    observed, the request as it was asked, and the response the client gets; the
    response is a function of the recorded outcome; and neither the response nor
    the state depends on the sink, whatever it does. *)
Theorem handle_records_once {S : Type} `{EventSink S} (h : AuthorizationHandler)
    (st : LeaseState) (b : B) (s : S) (rq : ClientRequest) (p : PeerContext)
    (now later : MonotonicTime) (Hok : handler_ok h st) (Hroom : headroom st) :
  ∃ out remaining,
    let op := match rq with
              | RequestLease _ => OpRequestLease
              | ReleaseLease _ => OpReleaseLease
              | AgentStatus => OpAgentStatus
              end in
    let resp := wire_view op out remaining in
    let quiet := handle h st b tt rq p now later in
    handle h st b s rq p now later =
      (quiet.1, record s (mk_AuthorizationEvent op rq p out resp)) ∧
    quiet.1.1.1 = resp ∧ handler_ok h quiet.1.1.2.
Proof.
  pose proof (dispatch_view h st b rq p now later Hok Hroom) as Hv.
  pose proof (dispatch_ok h st b rq p now later Hok Hroom) as Hok'.
  unfold handle. assert ((dispatch h st b rq p now later).1.1.1 =
    match rq with
    | RequestLease _ => OpRequestLease
    | ReleaseLease _ => OpReleaseLease
    | AgentStatus => OpAgentStatus
    end) as Hop.
  { destruct rq; cbn; by repeat case_match. }
  destruct (dispatch h st b rq p now later) as [[[op [out resp]] st'] b'].
  destruct Hv as [remaining ->]. cbn in Hop. subst op. by exists out, remaining.
Qed.

End request.

(** ** Witnesses *)

Import Fake.

Definition sample_config : AuthorizationConfig := mk_AuthorizationConfig 300 2.
Definition sample_handler : AuthorizationHandler :=
  (AuthorizationHandler_new sample_instance sample_policy sample_config).1.
Definition sample_store : LeaseState :=
  (AuthorizationHandler_new sample_instance sample_policy sample_config).2.
Definition sample_lease_request : LeaseRequest := mk_LeaseRequest sample_resource Compute.
Definition sample_release : ReleaseRequest := mk_ReleaseRequest (mk_LeaseId sample_instance 0).
Definition at_time (n : N) : MonotonicTime := mk_MonotonicTime n.

Lemma sample_handler_ok : handler_ok sample_handler sample_store.
Proof.
  split; cbn; [by apply store_wf_new|lia|done|done|apply map_Forall_empty].
Qed.
Lemma sample_headroom : headroom sample_store.
Proof. done. Qed.

Lemma grant_iff_witness :
  (handle_request_lease sample_handler sample_store sample_backend sample_lease_request
     sample_peer (at_time 5) (at_time 15)).1.1.2 =
  LeaseGranted (mk_LeaseView (mk_LeaseId sample_instance 0) 290).
Proof.
  pose proof (grant_iff sample_handler sample_store sample_backend sample_lease_request
    sample_peer (at_time 5) (at_time 15) sample_handler_ok sample_headroom) as Hg.
  destruct (handle_request_lease _ _ _ _ _ _ _) as [[[out resp] st'] b'].
  destruct Hg as [Hg _]. cbn. apply Hg. split; [done|].
  exists sample_context. split; [by vm_compute|]. split; [by vm_compute|].
  split; [apply evaluate_effect_Allow; by vm_compute|].
  split; [by vm_compute|]. split; by vm_compute.
Defined.

(** A peer whose user id could not be confirmed. *)
Definition divergent_peer : PeerContext :=
  PeerContext_from_kernel_observation (mk_PeerCredential 42 0 0) sample_context
    (Present 1000%N KernelObserved) (Present 1000%N KernelObserved).

Lemma refusal_leaves_nothing_witness :
  reserved (handle_request_lease sample_handler sample_store FakeBackend_new sample_lease_request
     sample_peer (at_time 5) (at_time 15)).1.2 = 0%N.
Proof.
  pose proof (refusal_leaves_nothing sample_handler sample_store FakeBackend_new
    sample_lease_request sample_peer (at_time 5) (at_time 15) sample_handler_ok sample_headroom) as Hg.
  assert ((handle_request_lease sample_handler sample_store FakeBackend_new sample_lease_request
     sample_peer (at_time 5) (at_time 15)).1.1.2 = ErrorResponse CodeInternal) as Hr by by vm_compute.
  destruct (handle_request_lease _ _ _ _ _ _ _) as [[[out resp] st'] b'].
  cbn in *. subst resp. destruct Hg as (_ & Hg & _); [done|]. exact Hg.
Defined.

Lemma lease_denied_iff_witness :
  (handle_request_lease sample_handler sample_store sample_backend sample_lease_request
     divergent_peer (at_time 5) (at_time 15)).1.1.2 = LeaseDenied DrIndeterminateEvidence.
Proof.
  pose proof (lease_denied_iff sample_handler sample_store sample_backend sample_lease_request
    divergent_peer (at_time 5) (at_time 15) sample_handler_ok sample_headroom DrIndeterminateEvidence) as Hg.
  destruct (handle_request_lease _ _ _ _ _ _ _) as [[[out resp] st'] b'].
  cbn. apply Hg. left. split; [by vm_compute|done].
Defined.

Definition granted_store : LeaseState :=
  (handle_request_lease sample_handler sample_store sample_backend sample_lease_request
     sample_peer (at_time 5) (at_time 15)).1.2.

Lemma granted_store_ok : handler_ok sample_handler granted_store.
Proof.
  pose proof (request_spec sample_handler sample_store sample_backend sample_lease_request
    sample_peer (at_time 5) (at_time 15) sample_handler_ok sample_headroom) as Hg.
  unfold granted_store.
  destruct (handle_request_lease _ _ _ _ _ _ _) as [[[out resp] st'] b']. apply Hg.
Qed.

Lemma release_iff_witness :
  (handle_release_lease granted_store sample_backend sample_release sample_peer (at_time 20)).1.1.2 =
  LeaseReleased Protocol.Released.
Proof.
  pose proof (release_iff sample_handler granted_store sample_backend sample_release sample_peer
    (at_time 20) granted_store_ok) as Hg'.
  destruct (handle_release_lease _ _ _ _ _) as [[[out resp] st'] b'].
  destruct Hg' as [Hg _]. cbn. apply Hg. exists sample_context.
  eexists. split; [by vm_compute|]. split; [by vm_compute|]. split; [by vm_compute|].
  apply recognisable_same. split; [|right]; eexists; eexists; by split.
Defined.

Lemma handle_records_once_witness :
  ∃ resp, (handle sample_handler sample_store sample_backend tt (RequestLease sample_lease_request)
    sample_peer (at_time 5) (at_time 15)).1.1.1 = resp.
Proof.
  destruct (handle_records_once sample_handler sample_store sample_backend tt
    (RequestLease sample_lease_request) sample_peer (at_time 5) (at_time 15) sample_handler_ok
    sample_headroom) as (out & remaining & _ & Hr & _).
  eexists. exact Hr.
Defined.
