(* ===== verification/AuthzConcurrent.v ===== *)
(** * The authorization handler under concurrency

    [AuthorizationHandler] serves many connections at once: a request issues and
    reserves under the mutex, calls the backend without it, and takes it again to
    store or compensate, while a release holds it throughout
    ([authz/mod.rs], [authz/state.rs]).  This file interleaves those regions: a
    step is one locked region, one unlocked backend call or one clock reading of
    one thread.  A backend call is atomic, as the trait's implementations make it.
    [constrained_step] takes what the environment is held to, which [Deployment] uses.

    Shown for every interleaving: reservations are exactly the grants in flight,
    the capacity bound holds, every stored lease is authorised and unrevoked, and
    every grant in flight can finish.  Backend enforcement is kept up for stored
    leases as long as no release happens between another grant's enforcement and
    its insertion; an execution where one does loses it. *)

From S2P Require Import Prelude Resource Identity Policy PolicySpec Lease.
From S2P Require Import Peer Backend Protocol LeaseStore Authz AuthzSpec.

(** ** Threads and steps *)

(** Where a thread granting a lease stands, holding no lock. *)
Inductive grant : Type :=
  | GIssued (l : ComputeLease)
  | GEnforced (l : ComputeLease) (r : result EnforcementResult BackendError)
  | GStamped (l : ComputeLease) (later : MonotonicTime).

Definition grant_lease (g : grant) : ComputeLease :=
  match g with
  | GIssued l | GEnforced l _ | GStamped l _ => l
  end.

Section steps.
Context {B : Type} `{ComputeBackend B} (h : AuthorizationHandler).

Record agent : Type := mk_agent {
  ag_store : LeaseState;
  ag_backend : B;
  ag_clock : MonotonicTime;
  ag_grants : gmap nat grant
}.

(** A step of some thread, or of time.  [may] restricts the releases that are asked
    for in a store; in [agent_step] every release may be. *)
Inductive constrained_step (may : LeaseState → ReleaseRequest → PeerContext → Prop) :
    agent → agent → Prop :=
  | step_tick st b now now' gs :
      time_le now now' →
      constrained_step may (mk_agent st b now gs) (mk_agent st b now' gs)
  | step_begin st b now gs i q p l st' :
      headroom st → gs !! i = None →
      begin_request_lease h st q p now = (inr l, st') →
      constrained_step may (mk_agent st b now gs) (mk_agent st' b now (<[i := GIssued l]> gs))
  | step_refuse st b now gs q p answer st' :
      headroom st → begin_request_lease h st q p now = (inl answer, st') →
      constrained_step may (mk_agent st b now gs) (mk_agent st' b now gs)
  | step_enforce st b now gs i l r b' :
      gs !! i = Some (GIssued l) → enforce b (request (origin l)) = (r, b') →
      constrained_step may (mk_agent st b now gs) (mk_agent st b' now (<[i := GEnforced l r]> gs))
  | step_stamp st b now gs i l :
      gs !! i = Some (GEnforced l (Ok Allowed)) →
      constrained_step may (mk_agent st b now gs) (mk_agent st b now (<[i := GStamped l now]> gs))
  | step_settle st b now gs i l later answer st' :
      gs !! i = Some (GStamped l later) →
      finish_request_lease st l (Ok Allowed) later = (answer, st') →
      constrained_step may (mk_agent st b now gs) (mk_agent st' b now (delete i gs))
  | step_abort st b now gs i l r answer st' :
      gs !! i = Some (GEnforced l r) → r ≠ Ok Allowed →
      finish_request_lease st l r now = (answer, st') →
      constrained_step may (mk_agent st b now gs) (mk_agent st' b now (delete i gs))
  | step_release st b now gs q p answer st' b' :
      may st q p →
      handle_release_lease st b q p now = (answer, st', b') →
      constrained_step may (mk_agent st b now gs) (mk_agent st' b' now gs).

Definition agent_step : agent → agent → Prop := constrained_step (λ _ _ _, True).

Lemma constrained_agent_step may a a' : constrained_step may a a' → agent_step a a'.
Proof.
  intros Hs. destruct Hs; [eapply step_tick|eapply step_begin|eapply step_refuse|eapply step_enforce
    |eapply step_stamp|eapply step_settle|eapply step_abort|eapply step_release]; done.
Qed.

Definition agent_init (st : LeaseState) (b : B) (now : MonotonicTime) : agent :=
  mk_agent st b now ∅.

(** ** The invariant *)

Record agent_ok (a : agent) : Prop := mk_agent_ok {
  aok_handler : handler_ok h (ag_store a);
  aok_reserved : reserved (ag_store a) = N.of_nat (size (ag_grants a));
  aok_grants : map_Forall (λ _ g, lease_wf (store_issuer (ag_store a)) (grant_lease g) ∧
    authorised h (grant_lease g) ∧ leases (ag_store a) !! lease_id (grant_lease g) = None)
    (ag_grants a);
  aok_distinct : ∀ i j g g', ag_grants a !! i = Some g → ag_grants a !! j = Some g' →
    lease_id (grant_lease g) = lease_id (grant_lease g') → i = j
}.

Lemma agent_in_flight a i g :
  agent_ok a → ag_grants a !! i = Some g → in_flight h (ag_store a) (grant_lease g).
Proof.
  intros [Hok Hr Hg _] Hi. destruct (Hg _ _ Hi) as (? & ? & ?). split; [done..|].
  rewrite Hr. assert (size (ag_grants a) ≠ 0); [|lia].
  intros Hz. apply map_size_empty_inv in Hz. rewrite Hz in Hi. by rewrite lookup_empty in Hi.
Qed.

(** A region that keeps the grants: it only has to keep their leases apart from
    the stored ones and unrevoked. *)
Lemma agent_ok_store st b now gs st' b' now' :
  agent_ok (mk_agent st b now gs) → handler_ok h st' → reserved st' = reserved st →
  (∀ l, lease_wf (store_issuer st) l → leases st !! lease_id l = None →
     lease_wf (store_issuer st') l ∧ leases st' !! lease_id l = None) →
  agent_ok (mk_agent st' b' now' gs).
Proof.
  intros [Hok Hr Hg Hd] Hok' Hr' Hl. split; cbn in *; [done|congruence| |done].
  intros i g Hi. destruct (Hg _ _ Hi) as (? & ? & ?). destruct (Hl (grant_lease g)); done.
Qed.

(** Replacing a grant by a later stage of the same lease. *)
Lemma agent_ok_advance st b now gs i g g' b' now' :
  agent_ok (mk_agent st b now gs) → gs !! i = Some g → grant_lease g' = grant_lease g →
  agent_ok (mk_agent st b' now' (<[i := g']> gs)).
Proof.
  intros [Hok Hr Hg Hd] Hi Hgl. split; cbn in *; [done| | |].
  - rewrite map_size_insert_Some; [done|by rewrite Hi].
  - intros j gj [[<- <-]|[? Hj]]%lookup_insert_Some; [rewrite Hgl|]; by eapply Hg.
  - intros j k gj gk Hj Hk. revert Hj Hk. rewrite !lookup_insert_Some.
    intros [[<- <-]|[? Hj]] [[<- <-]|[? Hk]]; try done; rewrite ?Hgl; intros Heq.
    + by eapply Hd.
    + by eapply Hd.
    + by eapply Hd.
Qed.

(** A grant that leaves: its lease is stored or revoked. *)
Lemma agent_ok_finish st b now gs i g r later answer st' b' now' :
  agent_ok (mk_agent st b now gs) → gs !! i = Some g →
  finish_request_lease st (grant_lease g) r later = (answer, st') →
  agent_ok (mk_agent st' b' now' (delete i gs)).
Proof.
  intros Ha Hi Hf. pose proof (agent_in_flight _ _ _ Ha Hi) as Hfl. cbn in Hfl.
  destruct Ha as [Hok Hr Hg Hd]. cbn in *.
  pose proof (finish_request_spec h st (grant_lease g) r later Hok Hfl) as Hs.
  rewrite Hf in Hs. destruct answer as [out resp]. destruct Hs as [Hok' Hs].
  destruct Hs as (Hinst & Hnext & Hres & Hcase).
  split; cbn; [done| | |].
  - rewrite Hres, Hr, map_size_delete, Hi. cbn. lia.
  - intros j gj [Hne Hj]%lookup_delete_Some.
    destruct (Hg _ _ Hj) as ((Hji & Hjs & Hjr) & Hja & Hjn).
    assert (lease_id (grant_lease gj) ≠ lease_id (grant_lease g)) as Hid.
    { intros Heq. apply Hne. symmetry. by eapply Hd. }
    destruct Hcase as [(_ & _ & _ & _ & Hl & Hiss)|(_ & _ & Hl & Hrev)].
    + rewrite Hiss, Hl, lookup_insert_ne by congruence. done.
    + rewrite Hl. split; [|done]. split; [congruence|]. split; [congruence|].
      rewrite Hrev. intros [Heq%elem_of_singleton|?]%elem_of_union; [|done]. apply Hid.
      destruct (if_wf _ _ _ Hfl) as (Hgi & _).
      destruct (lease_id (grant_lease gj)), (lease_id (grant_lease g)). cbn in *. congruence.
  - intros j k gj gk [_ Hj]%lookup_delete_Some [_ Hk]%lookup_delete_Some. by eapply Hd.
Qed.

Lemma begin_spec st q p now :
  handler_ok h st → headroom st →
  let '(r, st') := begin_request_lease h st q p now in
  handler_ok h st' ∧
  match r with
  | inr l => ∃ obs, PeerContext_authorizable p = Some obs ∧
      issue_post h st (provenance_for q obs) now (Ok l) st'
  | inl _ => st' = st ∨ st' = LeaseState_prune st now
  end.
Proof.
  intros Hok Hroom. unfold begin_request_lease.
  destruct (PeerContext_authorizable p) as [obs|]; [|by auto].
  pose proof (issue_reserving_spec h st (provenance_for q obs) now Hok Hroom) as Hs.
  destruct (issue_reserving_capacity _ _ _ _) as [r st']. destruct Hs as [Hok' Hs].
  destruct r as [l|[n|d|e]]; (split; [done|]); [by eauto|right; by destruct Hs..].
Qed.

Lemma agent_ok_begin st b now gs i q p l st' :
  agent_ok (mk_agent st b now gs) → headroom st → gs !! i = None →
  begin_request_lease h st q p now = (inr l, st') →
  agent_ok (mk_agent st' b now (<[i := GIssued l]> gs)).
Proof.
  intros [Hok Hr Hg Hd] Hroom Hi Hb. cbn in *.
  pose proof (begin_spec st q p now Hok Hroom) as Hs. rewrite Hb in Hs.
  destruct Hs as [Hok' (obs & _ & Hpost)].
  pose proof (issued_in_flight _ _ _ _ _ _ Hok Hpost) as [Hw Hau Hfresh _].
  destruct Hpost as (_ & _ & _ & _ & _ & Hid & _ & Hl & Hres & Hinst & Hnext & Hrev).
  assert (∀ j gj, gs !! j = Some gj → lease_id (grant_lease gj) ≠ lease_id l) as Hne.
  { intros j gj Hj Heq. destruct (Hg _ _ Hj) as ((_ & Hlt & _) & _).
    rewrite Heq, Hid in Hlt. cbn in Hlt. lia. }
  split; cbn; [done| | |].
  - rewrite map_size_insert_None by done. rewrite Hres, Hr. lia.
  - intros j gj [[<- <-]|[_ Hj]]%lookup_insert_Some; [done|].
    destruct (Hg _ _ Hj) as ((Hji & Hjs & Hjr) & Hja & Hjn).
    split; [|split; [done|]].
    + split; [congruence|]. split; [lia|congruence].
    + rewrite Hl. apply eq_None_not_Some. intros [l' [Hl' _]%prune_lookup]. congruence.
  - intros j k gj gk. rewrite !lookup_insert_Some.
    intros [[<- <-]|[? Hj]] [[<- <-]|[? Hk]]; try done; intros Heq.
    + by destruct (Hne _ _ Hk).
    + by destruct (Hne _ _ Hj).
    + by eapply Hd.
Qed.

Lemma lease_wf_prune st now l :
  lease_wf (store_issuer st) l → leases st !! lease_id l = None →
  lease_wf (store_issuer (LeaseState_prune st now)) l ∧
  leases (LeaseState_prune st now) !! lease_id l = None.
Proof.
  intros Hw Hn. split; [done|]. apply eq_None_not_Some. intros [l' [Hl' _]%prune_lookup].
  congruence.
Qed.

(** A release revokes a stored identifier, so never that of a grant in flight. *)
Lemma release_keeps_grants st b q p now answer st' b' :
  handler_ok h st → handle_release_lease st b q p now = (answer, st', b') →
  handler_ok h st' ∧ reserved st' = reserved st ∧
  ∀ l, lease_wf (store_issuer st) l → leases st !! lease_id l = None →
    lease_wf (store_issuer st') l ∧ leases st' !! lease_id l = None.
Proof.
  intros Hok Hrel. pose proof (release_spec h st b q p now Hok) as Hs. rewrite Hrel in Hs.
  destruct answer as [out resp]. destruct Hs as [Hok' Hs]. split; [done|].
  destruct Hs as [(_ & _ & _ & -> & _)|(obs & _ & Hs)]; [done|].
  destruct Hs as [(_ & _ & _ & -> & _)|(l0 & Hl0 & Hid0 & Hs)].
  { split; [done|]. intros l. apply lease_wf_prune. }
  destruct Hs as [(_ & _ & _ & -> & _)|(_ & _ & _ & Hl & Hres & Hinst & Hnext & Hrev)].
  { split; [done|]. intros l. apply lease_wf_prune. }
  split; [done|]. intros l (Hi & Hlt & Hr) Hn.
  apply prune_lookup in Hl0 as [Hl0 _].
  assert (lease_id l ≠ rr_lease_id q) as Hne by congruence.
  split.
  - split; [congruence|]. split; [congruence|]. rewrite Hrev.
    intros [Heq%elem_of_singleton|?]%elem_of_union; [|done]. apply Hne.
    destruct (swf_leases _ (hok_store _ _ Hok) _ _ Hl0) as [Hk (Hi0 & _)]. rewrite Hk in Hi0.
    destruct (lease_id l), (rr_lease_id q). cbn in *. congruence.
  - rewrite Hl. rewrite lookup_delete_None. right.
    apply eq_None_not_Some. intros [l' [Hl' _]%prune_lookup]. congruence.
Qed.

Lemma agent_ok_step a a' : agent_ok a → agent_step a a' → agent_ok a'.
Proof.
  intros Ha Hstep.
  destruct Hstep as [st b now now' gs _|st b now gs i q p l st' Hroom Hi Hb
    |st b now gs q p answer st' Hroom Hb|st b now gs i l r b' Hi _|st b now gs i l Hi
    |st b now gs i l later answer st' Hi Hf|st b now gs i l r answer st' Hi _ Hf
    |st b now gs q p answer st' b' _ Hrel].
  - eapply agent_ok_store; [exact Ha|apply Ha|done|by auto].
  - by eapply agent_ok_begin.
  - pose proof (begin_spec st q p now (aok_handler _ Ha) Hroom) as Hs. rewrite Hb in Hs.
    destruct Hs as [Hok' [-> | ->]]; [done|].
    eapply agent_ok_store; [exact Ha|done|done|]. intros l. apply lease_wf_prune.
  - by eapply agent_ok_advance.
  - by eapply agent_ok_advance.
  - by eapply (agent_ok_finish _ _ _ _ _ (GStamped l later)).
  - by eapply (agent_ok_finish _ _ _ _ _ (GEnforced l r)).
  - destruct (release_keeps_grants _ _ _ _ _ _ _ _ (aok_handler _ Ha) Hrel) as (? & ? & ?).
    by eapply agent_ok_store.
Qed.

Lemma agent_ok_init st b now : handler_ok h st → reserved st = 0%N → agent_ok (agent_init st b now).
Proof.
  intros Hok Hr. split; cbn; [done|by rewrite map_size_empty|apply map_Forall_empty|].
  intros i j g g'. by rewrite lookup_empty.
Qed.

Lemma agent_ok_rtc a a' : agent_ok a → rtc agent_step a a' → agent_ok a'.
Proof. intros Ha. induction 1; eauto using agent_ok_step. Qed.
#[local] Hint Resolve agent_ok_step agent_ok_rtc : eltanin.
(** ** Grants finish *)

(** One grant can be carried to its end whatever the others do. *)
Lemma grant_finishes st b now gs i g :
  gs !! i = Some g →
  ∃ st' b', rtc agent_step (mk_agent st b now gs) (mk_agent st' b' now (delete i gs)).
Proof.
  assert (∀ st b gs l later, gs !! i = Some (GStamped l later) → ∃ st' b',
    rtc agent_step (mk_agent st b now gs) (mk_agent st' b' now (delete i gs))) as Hstamped.
  { intros st0 b0 gs0 l later Hi.
    destruct (finish_request_lease st0 l (Ok Allowed) later) as [answer st'] eqn:Hf.
    exists st', b0. by eapply rtc_once, step_settle. }
  assert (∀ st b gs l r, gs !! i = Some (GEnforced l r) → ∃ st' b',
    rtc agent_step (mk_agent st b now gs) (mk_agent st' b' now (delete i gs))) as Henforced.
  { intros st0 b0 gs0 l r Hi. destruct (decide (r = Ok Allowed)) as [->|Hne].
    - destruct (Hstamped st0 b0 (<[i := GStamped l now]> gs0) l now) as (st' & b' & Hr);
        [apply lookup_insert_eq|].
      exists st', b'. rewrite delete_insert_eq in Hr. eapply rtc_l; [by eapply step_stamp|done].
    - destruct (finish_request_lease st0 l r now) as [answer st'] eqn:Hf.
      exists st', b0. by eapply rtc_once, step_abort. }
  intros Hi. destruct g as [l|l r|l later]; [|by eauto..].
  destruct (enforce b (request (origin l))) as [r b1] eqn:He.
  destruct (Henforced st b1 (<[i := GEnforced l r]> gs) l r) as (st' & b' & Hr);
    [apply lookup_insert_eq|].
  exists st', b'. rewrite delete_insert_eq in Hr. eapply rtc_l; [by eapply step_enforce|done].
Qed.

Lemma all_grants_finish a :
  ∃ st b, rtc agent_step a (mk_agent st b (ag_clock a) ∅).
Proof.
  destruct a as [st b now gs]. cbn. revert st b.
  induction gs as [|i g gs Hi IH] using map_ind; intros st b; [by eauto using rtc_refl|].
  destruct (grant_finishes st b now (<[i := g]> gs) i g) as (st1 & b1 & H1);
    [apply lookup_insert_eq|].
  rewrite delete_insert_id in H1 by done.
  destruct (IH st1 b1) as (st2 & b2 & H2). exists st2, b2. by etrans.
Qed.

End steps.
Arguments agent : clear implicits.

(** ** Backend calls

    Any backend, with the calls made to it, newest first: what the operating
    system saw, independently of what the backend remembers. *)

Inductive call : Type :=
  | CallEnforce (q : ComputeRequest) (r : result EnforcementResult BackendError)
  | CallRevoke (res : ResourceIdentity) (r : result EnforcementResult BackendError).

Record Logged (B : Type) : Type := mk_Logged {
  inner : B;
  calls : list call
}.
Arguments mk_Logged {B} inner calls.
Arguments inner {B} _.
Arguments calls {B} _.

#[export] Instance Logged_ComputeBackend {B} `{ComputeBackend B} : ComputeBackend (Logged B) := {
  discover b := discover (inner b);
  observe b i := observe (inner b) i;
  enforce b q :=
    let '(r, b') := enforce (inner b) q in (r, mk_Logged b' (CallEnforce q r :: calls b));
  revoke b i :=
    let '(r, b') := revoke (inner b) i in (r, mk_Logged b' (CallRevoke i r :: calls b))
}.

(** Enforcement for a resource is up: a successful [enforce] for it was made and
    no [revoke] for it since. *)
Fixpoint enforcement_up (cs : list call) (res : ResourceIdentity) : bool :=
  match cs with
  | [] => false
  | CallEnforce q r :: cs =>
      bool_decide (resource q = res ∧ r = Ok Allowed) || enforcement_up cs res
  | CallRevoke res' _ :: cs => negb (bool_decide (res' = res)) && enforcement_up cs res
  end.

Section up.
Context {B : Type} `{ComputeBackend B}.

Lemma logged_enforce (b b' : Logged B) q r :
  enforce b q = (r, b') → calls b' = CallEnforce q r :: calls b.
Proof. cbn. destruct (enforce (inner b) q) as [r0 b0]. by intros [= <- <-]. Qed.

Lemma logged_revoke (b : Logged B) res :
  ∃ r, calls (revoke b res).2 = CallRevoke res r :: calls b.
Proof. cbn. destruct (revoke (inner b) res) as [r b0]. by exists r. Qed.

Lemma enforcement_up_enforce (b b' : Logged B) q r res :
  enforce b q = (r, b') → enforcement_up (calls b) res = true →
  enforcement_up (calls b') res = true.
Proof. intros ->%logged_enforce Hup. cbn. by rewrite Hup, orb_true_r. Qed.

Lemma enforcement_up_allowed (b b' : Logged B) q :
  enforce b q = (Ok Allowed, b') → enforcement_up (calls b') (resource q) = true.
Proof. intros ->%logged_enforce. cbn. by rewrite bool_decide_true. Qed.

Lemma enforcement_up_revoke (b : Logged B) res' res :
  res' ≠ res → enforcement_up (calls b) res = true →
  enforcement_up (calls (revoke b res').2) res = true.
Proof.
  intros Hne Hup. destruct (logged_revoke b res') as [r ->]. cbn.
  by rewrite bool_decide_false, Hup.
Qed.

(** A grant whose enforcement succeeded and whose lease is not stored yet. *)
Definition enforced_grant (g : grant) : Prop :=
  match g with
  | GEnforced _ (Ok Allowed) | GStamped _ _ => True
  | _ => False
  end.

(** A step that tears a resource down only when no grant for that resource sits
    between its enforcement and its insertion. *)
Definition calm_step (h : AuthorizationHandler) (a a' : agent (Logged B)) : Prop :=
  agent_step h a a' ∧
  ∀ res r, calls (ag_backend a') = CallRevoke res r :: calls (ag_backend a) →
    ∀ i g, ag_grants a !! i = Some g → enforced_grant g → lease_resource (grant_lease g) ≠ res.

(** Enforcement is up for everything stored or about to be. *)
Definition up_ok (a : agent (Logged B)) : Prop :=
  (∀ id l, leases (ag_store a) !! id = Some l →
     enforcement_up (calls (ag_backend a)) (lease_resource l) = true) ∧
  (∀ i g, ag_grants a !! i = Some g → enforced_grant g →
     enforcement_up (calls (ag_backend a)) (lease_resource (grant_lease g)) = true).

Lemma up_ok_shrink st b now gs st' now' :
  up_ok (mk_agent st b now gs) → leases st' ⊆ leases st → up_ok (mk_agent st' b now' gs).
Proof.
  intros [Hl Hg] Hsub. split; cbn in *; [|done]. intros id l Hid.
  by eapply Hl, lookup_weaken.
Qed.

Lemma up_ok_grants st b now gs i g :
  up_ok (mk_agent st b now gs) →
  (enforced_grant g → enforcement_up (calls b) (lease_resource (grant_lease g)) = true) →
  up_ok (mk_agent st b now (<[i := g]> gs)).
Proof.
  intros [Hl Hg] Hup. split; cbn in *; [done|].
  intros j gj [[<- <-]|[_ Hj]]%lookup_insert_Some; [done|]. by eapply Hg.
Qed.

Lemma up_ok_delete st b now gs i :
  up_ok (mk_agent st b now gs) → up_ok (mk_agent st b now (delete i gs)).
Proof.
  intros [Hl Hg]. split; cbn in *; [done|]. intros j g [_ Hj]%lookup_delete_Some. by eapply Hg.
Qed.

Lemma up_ok_finish h st b now gs i g r later answer st' :
  agent_ok h (mk_agent st b now gs) → up_ok (mk_agent st b now gs) → gs !! i = Some g →
  (r = Ok Allowed → enforced_grant g) →
  finish_request_lease st (grant_lease g) r later = (answer, st') →
  up_ok (mk_agent st' b now (delete i gs)).
Proof.
  intros Ha Hup Hi Hr Hf. apply up_ok_delete. pose proof Hup as [Hl Hg]. cbn in *.
  pose proof (finish_request_spec h st (grant_lease g) r later (aok_handler _ _ Ha)
    (agent_in_flight h _ _ _ Ha Hi)) as Hs.
  rewrite Hf in Hs. destruct answer as [out resp].
  destruct Hs as (_ & _ & _ & _ & [(Hra & _ & _ & _ & Hl' & _)|(_ & _ & Hl' & _)]).
  - split; cbn; [|done]. intros id l. rewrite Hl'.
    intros [[<- <-]|[_ Hid]]%lookup_insert_Some; [|by eapply Hl]. apply (Hg i); auto.
  - split; cbn; [by rewrite Hl'|done].
Qed.

Lemma up_ok_release h st b now gs q p answer st' b' :
  agent_ok h (mk_agent st b now gs) → up_ok (mk_agent st b now gs) →
  calm_step h (mk_agent st b now gs) (mk_agent st' b' now gs) →
  handle_release_lease st b q p now = (answer, st', b') → up_ok (mk_agent st' b' now gs).
Proof.
  intros Ha Hup [_ Hcalm] Hrel. cbn in Hcalm.
  pose proof (release_spec h st b q p now (aok_handler _ _ Ha)) as Hs. rewrite Hrel in Hs.
  destruct answer as [out resp]. destruct Hs as [_ Hs].
  pose proof (prune_subseteq st now) as Hsub.
  destruct Hs as [(_ & _ & _ & -> & ->)|(obs & _ & Hs)]; [done|].
  destruct Hs as [(_ & _ & _ & -> & ->)|(l & Hl & Hid & Hs)]; [by eapply up_ok_shrink|].
  destruct Hs as [(_ & _ & _ & -> & ->)|(_ & _ & (br & _ & HT) & Hl' & _)];
    [by eapply up_ok_shrink|].
  destruct HT as [(_ & _ & ->)|(Hother & -> & _)].
  { eapply up_ok_shrink; [done|]. rewrite Hl'. etrans; [apply delete_subseteq|done]. }
  destruct Hup as [Hul Hug]. cbn in *. split; cbn [ag_store ag_backend ag_grants].
  - intros id' l'. rewrite Hl'. intros [Hne Hl0]%lookup_delete_Some.
    apply enforcement_up_revoke.
    + intros Heq. by apply (Hother id' l'); [done|congruence|].
    + by eapply Hul, lookup_weaken.
  - intros i g Hi Hg. destruct (logged_revoke b (lease_resource l)) as [r Hr].
    apply enforcement_up_revoke; [|by eapply Hug].
    intros Heq. by eapply (Hcalm _ _ Hr i g Hi Hg).
Qed.

Lemma up_ok_step h a a' : agent_ok h a → up_ok a → calm_step h a a' → up_ok a'.
Proof.
  intros Ha Hup Hstep. pose proof Hstep as [Hs _].
  destruct Hs as [st b now now' gs _|st b now gs i q p l st' Hroom Hi Hb
    |st b now gs q p answer st' Hroom Hb|st b now gs i l r b' Hi He|st b now gs i l Hi
    |st b now gs i l later answer st' Hi Hf|st b now gs i l r answer st' Hi Hr Hf
    |st b now gs q p answer st' b' _ Hrel].
  - by eapply up_ok_shrink.
  - apply up_ok_grants; [|by intros []]. eapply up_ok_shrink; [done|].
    pose proof (begin_spec h st q p now (aok_handler _ _ Ha) Hroom) as Hs. rewrite Hb in Hs.
    destruct Hs as [_ (obs & _ & _ & _ & _ & _ & _ & _ & _ & Hl & _)]. rewrite Hl.
    apply prune_subseteq.
  - eapply up_ok_shrink; [done|].
    pose proof (begin_spec h st q p now (aok_handler _ _ Ha) Hroom) as Hs. rewrite Hb in Hs.
    destruct Hs as [_ [-> | ->]]; [done|apply prune_subseteq].
  - apply up_ok_grants.
    + destruct Hup as [Hl Hg]. split; [intros id l0 Hid|intros j g Hj Hen];
        (eapply enforcement_up_enforce; [exact He|]); [by eapply Hl|by eapply Hg].
    + cbn. destruct r as [[]|]; try done. intros _. by eapply enforcement_up_allowed in He.
  - apply up_ok_grants; [done|]. intros _. by apply (proj2 Hup i (GEnforced l (Ok Allowed))).
  - by eapply (up_ok_finish h _ _ _ _ _ (GStamped l later)).
  - by eapply (up_ok_finish h _ _ _ _ _ (GEnforced l r)).
  - by eapply up_ok_release.
Qed.

Lemma up_ok_rtc h a a' : agent_ok h a → up_ok a → rtc (calm_step h) a a' → up_ok a'.
Proof.
  intros Ha Hup Hr. revert Ha Hup. induction Hr as [|a1 a2 a3 H12 _ IH]; [done|].
  intros Ha Hup. apply IH; [by eapply agent_ok_step; [|apply H12]|by eapply up_ok_step].
Qed.

End up.

(** ** Properties *)

(** C7: accounting and authority hold in every interleaving.  Starting from a
    fresh handler, whatever the order in which threads issue, enforce, settle,
    release and let time pass: the reservation counter is exactly the number of
    grants in flight, stored leases and grants in flight together never exceed
    the configured bound, identifiers are never shared, and every stored lease is
    filed under its own id, unrevoked and permitted by the policy for the very
    origin it is bound to. *)
Theorem concurrent_invariant {B : Type} `{ComputeBackend B} (i : IssuerInstanceId)
    (p : PolicySet) (ttl : Duration) (m : N) (b : B) (now : MonotonicTime) (a : agent B)
    (Httl : ttl ≠ 0%N) (Hm : (m ≤ u64_max)%N)
    (Hreach : let '(h, st) := AuthorizationHandler_new i p (mk_AuthorizationConfig ttl m) in
              rtc (agent_step h) (agent_init st b now) a) :
  reserved (ag_store a) = N.of_nat (size (ag_grants a)) ∧
  (outstanding (ag_store a) + N.of_nat (size (ag_grants a)) ≤ m)%N ∧
  (∀ id l, leases (ag_store a) !! id = Some l →
     lease_id l = id ∧ issuer id = instance (store_issuer (ag_store a)) ∧
     (sequence id ∉ revoked (store_issuer (ag_store a))) ∧
     permitted p (context (origin l)) (request (origin l)) ∧
     as_nanos (expires_at l) = (as_nanos (issued_at l) + ttl)%N) ∧
  (∀ k g, ag_grants a !! k = Some g →
     leases (ag_store a) !! lease_id (grant_lease g) = None ∧
     ∀ k' g', ag_grants a !! k' = Some g' →
       lease_id (grant_lease g) = lease_id (grant_lease g') → k = k').
Proof.
  cbn in Hreach. set (h := mk_AuthorizationHandler p ttl m) in *.
  assert (agent_ok h a) as [Hok Hres Hg Hd].
  { eapply agent_ok_rtc; [|exact Hreach]. apply agent_ok_init; [|done].
    split; cbn; [by apply store_wf_new|lia|done|done|apply map_Forall_empty]. }
  split; [done|]. split; [|split].
  - pose proof (swf_capacity _ (hok_store _ _ Hok)) as Hc.
    rewrite (hok_capacity _ _ Hok), Hres in Hc. exact Hc.
  - intros id l Hl. destruct (swf_leases _ (hok_store _ _ Hok) _ _ Hl) as [Hid (Hi & _ & Hr)].
    destruct (hok_authorised _ _ Hok _ _ Hl) as [Hp He]. subst id. done.
  - intros k g Hk. destruct (Hg _ _ Hk) as (_ & _ & Hn). split; [done|].
    intros k' g' Hk' Heq. by eapply Hd.
Qed.

(** C38: no grant is ever stuck.  From every reachable state all grants in flight
    can be carried to their end, each of them stored or compensated, with no
    reservation left over: no capacity leaks, and no thread waits for another. *)
Theorem grants_can_finish {B : Type} `{ComputeBackend B} (h : AuthorizationHandler)
    (st : LeaseState) (b : B) (now : MonotonicTime) (a : agent B)
    (Hok : handler_ok h st) (Hres : reserved st = 0%N)
    (Hreach : rtc (agent_step h) (agent_init st b now) a) :
  ∃ a', rtc (agent_step h) a a' ∧ ag_grants a' = ∅ ∧ reserved (ag_store a') = 0%N ∧
    ag_clock a' = ag_clock a.
Proof.
  destruct (all_grants_finish h a) as (st' & b' & Hfin).
  eexists. split; [exact Hfin|]. split; [done|]. split; [|done].
  assert (agent_ok h (mk_agent st' b' (ag_clock a) ∅)) as [_ Hr _ _].
  { eapply agent_ok_rtc; [|exact Hfin]. eapply agent_ok_rtc; [|exact Hreach].
    by apply agent_ok_init. }
  rewrite Hr. cbn. by rewrite map_size_empty.
Qed.

(** Enforcement stays up for every stored lease, provided no resource is torn
    down while another thread sits between its successful [enforce] for that
    resource and the insertion of its lease; in particular whenever requests are
    handled one at a time. *)
Theorem enforcement_kept_when_calm {B : Type} `{ComputeBackend B} (h : AuthorizationHandler)
    (st : LeaseState) (b : B) (now : MonotonicTime) (a : agent (Logged B))
    (Hok : handler_ok h st) (Hres : reserved st = 0%N) (Hempty : leases st = ∅)
    (Hreach : rtc (calm_step h) (agent_init st (mk_Logged b []) now) a) :
  ∀ id l, leases (ag_store a) !! id = Some l →
    enforcement_up (calls (ag_backend a)) (lease_resource l) = true.
Proof.
  eapply (up_ok_rtc h); [by apply agent_ok_init| |exact Hreach].
  split; cbn.
  - intros id l. by rewrite Hempty, lookup_empty.
  - intros i g. by rewrite lookup_empty.
Qed.

Import Fake.

Definition logged_sample : Logged FakeBackend := mk_Logged sample_backend [].
Definition sample_init : agent (Logged FakeBackend) :=
  agent_init sample_store logged_sample (at_time 5).

(** The execution of [release_race_loses_enforcement]: the stores and backends
    after each region. *)
Definition race_request (st : LeaseState) : LeaseState :=
  (begin_request_lease sample_handler st sample_lease_request sample_peer (at_time 5)).2.
Definition race_lease (n : N) : ComputeLease :=
  mk_ComputeLease (mk_LeaseId sample_instance n) sample_origin
    (PolicySet_provenance sample_policy) (ExplicitAllow {[mk_RuleId "allow-uid"]})
    (at_time 5) (at_time 305).
Definition race_settle (st : LeaseState) (n : N) : LeaseState :=
  (finish_request_lease st (race_lease n) (Ok Allowed) (at_time 5)).2.

Definition race_st1 : LeaseState := race_request sample_store.
Definition race_b1 : Logged FakeBackend := (enforce logged_sample sample_request).2.
Definition race_st2 : LeaseState := race_settle race_st1 0.
Definition race_st3 : LeaseState := race_request race_st2.
Definition race_b2 : Logged FakeBackend := (enforce race_b1 sample_request).2.
Definition race_release : (AuthorizationOutcome * AgentResponse) * LeaseState * Logged FakeBackend :=
  handle_release_lease race_st3 race_b2 sample_release sample_peer (at_time 5).
Definition race_st4 : LeaseState := race_release.1.2.
Definition race_b3 : Logged FakeBackend := race_release.2.
Definition race_st5 : LeaseState := race_settle race_st4 1.
Definition race_end : agent (Logged FakeBackend) := mk_agent race_st5 race_b3 (at_time 5) ∅.

(** A step that calls the backend for nothing is calm. *)
Lemma calm_quiet h (a a' : agent (Logged FakeBackend)) :
  agent_step h a a' → calls (ag_backend a') = calls (ag_backend a) → calm_step h a a'.
Proof.
  intros Hs Hc. split; [done|]. intros res r Hr. rewrite Hc in Hr.
  apply (f_equal length) in Hr. cbn in Hr. lia.
Qed.

Lemma race_begin st (b : Logged FakeBackend) n :
  headroom st →
  (begin_request_lease sample_handler st sample_lease_request sample_peer (at_time 5)).1 =
    inr (race_lease n) →
  calm_step sample_handler (mk_agent st b (at_time 5) ∅)
    (mk_agent (race_request st) b (at_time 5) {[ 0 := GIssued (race_lease n) ]}).
Proof.
  intros Hroom Hb. apply calm_quiet; [|done]. unfold race_request.
  destruct (begin_request_lease _ _ _ _ _) as [r st'] eqn:He. cbn in *. subst r.
  by eapply step_begin.
Qed.

Lemma race_enforce st (b : Logged FakeBackend) n :
  (enforce b sample_request).1 = Ok Allowed →
  calm_step sample_handler (mk_agent st b (at_time 5) {[ 0 := GIssued (race_lease n) ]})
    (mk_agent st (enforce b sample_request).2 (at_time 5)
       {[ 0 := GEnforced (race_lease n) (Ok Allowed) ]}).
Proof.
  intros He. destruct (enforce b sample_request) as [r b'] eqn:Hb. cbn [fst snd] in *. subst r.
  split.
  - rewrite <-(insert_singleton_eq 0 (GEnforced (race_lease n) (Ok Allowed))
      (GIssued (race_lease n))).
    eapply step_enforce; [apply lookup_singleton_eq|exact Hb].
  - intros res r Hc. cbn [ag_backend] in Hc. by rewrite (logged_enforce _ _ _ _ Hb) in Hc.
Qed.

Lemma race_finish st (b : Logged FakeBackend) n :
  rtc (calm_step sample_handler)
    (mk_agent st b (at_time 5) {[ 0 := GEnforced (race_lease n) (Ok Allowed) ]})
    (mk_agent (race_settle st n) b (at_time 5) ∅).
Proof.
  eapply rtc_l; [apply calm_quiet; [eapply step_stamp; apply lookup_singleton_eq|done]|].
  rewrite insert_singleton_eq. unfold race_settle.
  destruct (finish_request_lease _ _ _ _) as [answer st'] eqn:Hf. cbn [snd].
  apply rtc_once, calm_quiet; [|done].
  rewrite <-(delete_singleton_eq 0 (GStamped (race_lease n) (at_time 5))).
  eapply step_settle; [apply lookup_singleton_eq|exact Hf].
Qed.

(** One grant carried out calmly. *)
Lemma calm_run :
  rtc (calm_step sample_handler) sample_init (mk_agent race_st2 race_b1 (at_time 5) ∅).
Proof.
  eapply rtc_l; [apply (race_begin sample_store logged_sample 0); by vm_compute|].
  eapply rtc_l; [apply race_enforce; by vm_compute|]. apply race_finish.
Qed.

Lemma race_run : rtc (agent_step sample_handler) sample_init race_end.
Proof.
  assert (∀ a a', rtc (calm_step sample_handler) a a' → rtc (agent_step sample_handler) a a')
    as Hcalm by (intros a a'; apply rtc_subrel; by intros ?? []).
  etrans; [apply Hcalm, calm_run|].
  eapply rtc_l; [apply (race_begin race_st2 race_b1 1); by vm_compute|].
  eapply rtc_l; [apply race_enforce; by vm_compute|].
  eapply rtc_l; [|apply Hcalm, (race_finish race_st4 race_b3 1)].
  apply (step_release _ _ race_st3 race_b2 (at_time 5) _ sample_release sample_peer
    race_release.1.1); [done|].
  unfold race_st4, race_b3, race_release. by destruct (handle_release_lease _ _ _ _ _) as [[? ?] ?].
Qed.

(** C37: a release can tear down enforcement under a live lease.  Two clients
    share one resource: while the second grant is enforced but not yet inserted,
    the first lease is released; no other stored lease names the resource, so the
    backend revokes it, successfully, and the second lease is then stored and
    stays valid with its enforcement gone. *)
Theorem release_race_loses_enforcement :
  ∃ a l, rtc (agent_step sample_handler) sample_init a ∧ ag_grants a = ∅ ∧
    leases (ag_store a) !! lease_id l = Some l ∧
    LeaseValidity_is_valid (LeaseIssuer_validate (store_issuer (ag_store a)) l (origin l)
      (ag_clock a)) = true ∧
    (∃ cs, calls (ag_backend a) = CallRevoke (lease_resource l) (Ok Allowed) :: cs) ∧
    enforcement_up (calls (ag_backend a)) (lease_resource l) = false.
Proof.
  exists race_end, (race_lease 1). split; [exact race_run|].
  split; [done|]. split; [by vm_compute|]. split; [by vm_compute|].
  split; [|by vm_compute].
  exists (calls race_b2). by vm_compute.
Qed.

(** ** Witnesses *)

Lemma sample_run_refused :
  rtc (agent_step sample_handler) sample_init sample_init.
Proof. apply rtc_refl. Qed.

Lemma concurrent_invariant_witness :
  reserved (ag_store sample_init) = N.of_nat (size (ag_grants sample_init)).
Proof.
  destruct (concurrent_invariant sample_instance sample_policy 300 2 logged_sample (at_time 5)
    sample_init) as [Hr _]; [done|done|exact sample_run_refused|exact Hr].
Defined.

(** A grant in flight, to be finished. *)
Lemma grants_can_finish_witness :
  ∃ a a', ag_grants a ≠ ∅ ∧ rtc (agent_step sample_handler) sample_init a ∧
    rtc (agent_step sample_handler) a a' ∧ ag_grants a' = ∅.
Proof.
  eexists.
  assert (rtc (agent_step sample_handler) sample_init (mk_agent
    (begin_request_lease sample_handler sample_store sample_lease_request sample_peer
       (at_time 5)).2 logged_sample (at_time 5) (<[0 := GIssued sample_lease]> ∅))) as Hr.
  { apply rtc_once. eapply (step_begin _ _ _ _ _ _ 0 sample_lease_request sample_peer);
      [done|done|by vm_compute]. }
  destruct (grants_can_finish sample_handler sample_store logged_sample (at_time 5) _
    sample_handler_ok eq_refl Hr) as (a' & Hfin & Hemp & _).
  exists a'. split; [|split; [exact Hr|split; [exact Hfin|exact Hemp]]].
  cbn. apply insert_non_empty.
Defined.

Lemma enforcement_kept_when_calm_witness :
  ∃ (a : agent (Logged FakeBackend)) l, leases (ag_store a) !! lease_id l = Some l ∧
    enforcement_up (calls (ag_backend a)) (lease_resource l) = true.
Proof.
  exists (mk_agent race_st2 race_b1 (at_time 5) ∅), (race_lease 0).
  assert (leases race_st2 !! lease_id (race_lease 0) = Some (race_lease 0)) as Hl by by vm_compute.
  split; [exact Hl|].
  apply (enforcement_kept_when_calm sample_handler sample_store sample_backend (at_time 5) _
    sample_handler_ok eq_refl eq_refl calm_run _ _ Hl).
Defined.
