(* ===== verification/Unwind.v ===== *)
(** * A backend that panics

    [serve_connection] catches a panic of the handler ([connection.rs]) and answers
    with an internal error; the mutex is recovered from poison ([authz/state.rs]).
    This file adds to the interleavings of [AuthzConcurrent] a backend call that
    panics instead of returning: the thread is gone, and with it what it still had
    to do for its grant.  Its reservation is the one thing it leaves behind. *)

From S2P Require Import Prelude Resource Identity Policy PolicySpec Lease.
From S2P Require Import Peer Backend Protocol LeaseStore Authz AuthzSpec AuthzConcurrent.

Section unwind.
Context {B : Type} `{ComputeBackend B} (h : AuthorizationHandler).

(** An agent, and the threads that a panic ended inside [enforce]: their grants stay
    where they stood. *)
Record machine : Type := mk_machine {
  m_agent : agent B;
  unwound : gset nat
}.

(** A step of a thread that lives, or a panic of the backend in [enforce], which
    leaves the backend in any state. *)
Inductive machine_step : machine → machine → Prop :=
  | machine_live a a' gone :
      agent_step h a a' → (∀ i, i ∈ gone → ag_grants a' !! i = ag_grants a !! i) →
      machine_step (mk_machine a gone) (mk_machine a' gone)
  | machine_panic st b now gs b' gone i l :
      gs !! i = Some (GIssued l) → i ∉ gone →
      machine_step (mk_machine (mk_agent st b now gs) gone)
        (mk_machine (mk_agent st b' now gs) ({[i]} ∪ gone)).

Record machine_ok (m : machine) : Prop := mk_machine_ok {
  mok_agent : agent_ok h (m_agent m);
  mok_unwound : ∀ i, i ∈ unwound m → is_Some (ag_grants (m_agent m) !! i)
}.

Lemma machine_ok_step m m' : machine_ok m → machine_step m m' → machine_ok m'.
Proof.
  intros [Hok Hun] Hs. destruct Hs as [a a' gone Hs Hkeep|st b now gs b' gone i l Hi Hgone].
  - split; [by eapply agent_ok_step|]. cbn in *. intros i Hi. rewrite (Hkeep i Hi). by apply Hun.
  - cbn in *. destruct Hok as [Hh Hr Hg Hd]. split; [by split|]. cbn.
    intros j [->%elem_of_singleton|Hj]%elem_of_union; [by eexists|by apply Hun].
Qed.

Lemma machine_ok_rtc m m' : machine_ok m → rtc machine_step m m' → machine_ok m'.
Proof. intros Hok Hr. induction Hr; [done|]. by eauto using machine_ok_step. Qed.

Lemma unwound_grows m m' : rtc machine_step m m' → unwound m ⊆ unwound m'.
Proof.
  induction 1 as [|m1 m2 m3 Hs _ IH]; [done|]. etrans; [|exact IH].
  destruct Hs; cbn; [done|]. apply union_subseteq_r.
Qed.

(** The lost reservations are counted. *)
Lemma unwound_reserved m :
  machine_ok m → (N.of_nat (size (unwound m)) ≤ reserved (ag_store (m_agent m)))%N.
Proof.
  intros [[_ Hr _ _] Hun]. rewrite Hr.
  pose proof (size_dom (D := gset nat) (ag_grants (m_agent m))) as Hd.
  assert (unwound m ⊆ dom (ag_grants (m_agent m))) as Hsub.
  { intros i Hi. by apply elem_of_dom, Hun. }
  apply subseteq_size in Hsub. lia.
Qed.

(** A full store refuses. *)
Lemma begin_full st q p now :
  handler_ok h st → (max_outstanding_leases h ≤ reserved st)%N →
  is_Some (PeerContext_authorizable p) →
  (begin_request_lease h st q p now).1 =
    inl (CapacityExhausted (max_outstanding_leases h), ErrorResponse CodeInternal).
Proof.
  intros [Hs _ _ Hm _] Hfull [obs Hp]. unfold begin_request_lease, issue_reserving_capacity.
  rewrite Hp.
  assert (LeaseState_is_at_capacity (LeaseState_prune st now) = true) as ->; [|done].
  apply not_false_iff_true. intros Hc%is_at_capacity_spec; [|by apply store_wf_prune].
  cbn in Hc. lia.
Qed.

End unwind.
Arguments machine B : clear implicits.

(** ** Property *)

(** C40: a panic in the backend costs a place for good.  In every interleaving in
    which backend calls may panic, each panic inside [enforce] leaves a reservation
    that nothing ever gives back: the store counts at least as many reservations as
    there were panics, what is left for stored leases shrinks by as many, and once
    there were as many as the bound, every request of an authorizable peer is refused
    for want of capacity, then and ever after, although no lease may be stored. *)
Theorem panics_exhaust_capacity {B : Type} `{ComputeBackend B} (h : AuthorizationHandler)
    (st : LeaseState) (b : B) (now : MonotonicTime) (m : machine B)
    (Hok : handler_ok h st) (Hres : reserved st = 0%N)
    (Hreach : rtc (machine_step h) (mk_machine (agent_init st b now) ∅) m) :
  (N.of_nat (size (unwound m)) ≤ reserved (ag_store (m_agent m)))%N ∧
  (outstanding (ag_store (m_agent m)) + N.of_nat (size (unwound m)) ≤
     max_outstanding_leases h)%N ∧
  ∀ m', rtc (machine_step h) m m' →
    (max_outstanding_leases h ≤ N.of_nat (size (unwound m)))%N →
    leases (ag_store (m_agent m')) = ∅ ∧
    ∀ q p t, is_Some (PeerContext_authorizable p) →
      (begin_request_lease h (ag_store (m_agent m')) q p t).1 =
        inl (CapacityExhausted (max_outstanding_leases h), ErrorResponse CodeInternal).
Proof.
  assert (machine_ok h m) as Hm.
  { eapply machine_ok_rtc; [|exact Hreach]. split; [by apply agent_ok_init|]. cbn.
    by intros i ?%not_elem_of_empty. }
  assert (∀ m' : machine B, machine_ok h m' →
    (outstanding (ag_store (m_agent m')) + N.of_nat (size (unwound m')) ≤
     max_outstanding_leases h)%N) as Hroom.
  { intros m' Hm'. pose proof (unwound_reserved h m' Hm'). destruct Hm' as [[Hh _ _ _] _].
    pose proof (swf_capacity _ (hok_store _ _ Hh)). rewrite (hok_capacity _ _ Hh) in *. lia. }
  split; [by eapply unwound_reserved|]. split; [by apply Hroom|].
  intros m' Hr Hfull. pose proof (machine_ok_rtc h _ _ Hm Hr) as Hm'.
  pose proof (unwound_reserved h m' Hm'). specialize (Hroom m' Hm').
  apply unwound_grows, subseteq_size in Hr. split.
  - apply map_size_empty_inv. unfold outstanding in Hroom. lia.
  - intros q p t Hp. destruct Hm' as [[Hh _ _ _] _]. apply begin_full; [done|lia|done].
Qed.

(** ** Witness

    The sample agent has a bound of two; two requests have a backend call that panics. *)

Import Fake.

Definition panicked_once : LeaseState :=
  (begin_request_lease sample_handler sample_store sample_lease_request sample_peer (at_time 5)).2.
Definition panicked_twice : LeaseState :=
  (begin_request_lease sample_handler panicked_once sample_lease_request sample_peer (at_time 5)).2.

Definition after_panics : machine FakeBackend :=
  mk_machine (mk_agent panicked_twice sample_backend (at_time 5)
    (<[1 := GIssued (race_lease 1)]> (<[0 := GIssued (race_lease 0)]> ∅))) ({[1]} ∪ ({[0]} ∪ ∅)).

Lemma after_panics_reachable :
  rtc (machine_step sample_handler) (mk_machine (agent_init sample_store sample_backend (at_time 5)) ∅)
    after_panics.
Proof.
  eapply (rtc_l _ _ (mk_machine (mk_agent panicked_once sample_backend (at_time 5)
    (<[0 := GIssued (race_lease 0)]> ∅)) ∅)).
  { apply machine_live; [|by intros i ?%not_elem_of_empty].
    by apply (step_begin _ _ _ _ _ _ 0 sample_lease_request sample_peer); [done|done|vm_compute]. }
  eapply rtc_l; [by apply (machine_panic _ _ _ _ _ sample_backend _ 0 (race_lease 0))|].
  eapply (rtc_l _ _ (mk_machine (mk_agent panicked_twice sample_backend (at_time 5)
    (<[1 := GIssued (race_lease 1)]> (<[0 := GIssued (race_lease 0)]> ∅))) ({[0]} ∪ ∅))).
  { apply machine_live.
    - by apply (step_begin _ _ _ _ _ _ 1 sample_lease_request sample_peer);
        [by vm_compute|by vm_compute|vm_compute].
    - intros i [->%elem_of_singleton|?%not_elem_of_empty]%elem_of_union; [by vm_compute|done]. }
  eapply rtc_l; [|apply rtc_refl].
  apply (machine_panic _ _ _ _ _ sample_backend _ 1 (race_lease 1)); [by vm_compute|].
  apply (bool_decide_unpack _). by vm_compute.
Qed.

Lemma panics_exhaust_capacity_witness :
  (begin_request_lease sample_handler panicked_twice sample_lease_request sample_peer
     (at_time 1000)).1 = inl (CapacityExhausted 2, ErrorResponse CodeInternal) ∧
  leases panicked_twice = ∅.
Proof.
  destruct (panics_exhaust_capacity sample_handler sample_store sample_backend (at_time 5)
    after_panics sample_handler_ok eq_refl after_panics_reachable) as (_ & _ & Hfull).
  destruct (Hfull after_panics) as [Hempty Hrefused]; [apply rtc_refl|by vm_compute|].
  split; [|exact Hempty]. apply Hrefused. eexists. by vm_compute.
Defined.
