(* ===== verification/AuditRecord.v ===== *)
(** * Audit records

    Models [crates/eltanin-audit/src/record.rs] (the record schema, with a plain
    mirror of every authority-bearing type) and the conversions of
    [crates/eltanin-agent/src/authz/audit.rs] that fill it from an authorization
    event. *)

From S2P Require Import Prelude Resource Identity Policy PolicySpec Lease.
From S2P Require Import Peer Backend Protocol Schema LeaseStore Authz.

(** ** The schema (record.rs) *)

Record AuditEventId : Type := mk_AuditEventId {
  event_instance : IssuerInstanceId;
  event_sequence : N
}.

#[export] Instance AuditEventId_eq_dec : EqDecision AuditEventId.
Proof. solve_decision. Defined.
#[export] Instance AuditEventId_countable : Countable AuditEventId.
Proof.
  refine (inj_countable' (λ i, (event_instance i, event_sequence i))
    (λ '(a, b), mk_AuditEventId a b) _). by intros [].
Defined.

Record WallClockTime : Type := mk_WallClockTime {
  unix_secs : Z;
  nanos : N
}.

#[export] Instance WallClockTime_eq_dec : EqDecision WallClockTime.
Proof. solve_decision. Defined.

(** A clock as the readings it gives: each reading leaves the clock for the next. *)
Class AuditClock (C : Type) : Type := { audit_now : C → WallClockTime * C }.

(** [SystemWallClock]: the system's time since the epoch, zero before it, its seconds
    saturating at the largest [i64]. *)
Definition SystemWallClock_now (since_epoch : result Duration ()) : WallClockTime :=
  let now := match since_epoch with Ok d => d | Err _ => 0%N end in
  let secs := (now `div` nanos_per_sec)%N in
  mk_WallClockTime (if decide (Z.of_N secs < 2 ^ 63)%Z then Z.of_N secs else 2 ^ 63 - 1)
    (now `mod` nanos_per_sec).

Inductive RecordedOperation : Type :=
  | RopRequestLease
  | RopReleaseLease
  | RopAgentStatus.

Inductive RecordedRequest : Type :=
  | RreqRequestLease (res : ResourceIdentity) (act : Action)
  | RreqReleaseLease (id : LeaseId)
  | RreqAgentStatus.

Record RecordedPeerCredential : Type := mk_RecordedPeerCredential {
  rec_pid : N;
  rec_effective_uid : N;
  rec_effective_gid : N
}.

Inductive RecordedPeerConsistency : Type :=
  | RcConsistent
  | RcCredentialDivergence (peer_effective_uid : N)
      (observed_real_uid observed_effective_uid : Evidence N)
  | RcPeerUnmapped
  | RcIndeterminate (why : string).

Record RecordedPeer : Type := mk_RecordedPeer {
  rec_credential : RecordedPeerCredential;
  rec_consistency : RecordedPeerConsistency;
  rec_observed : ExecutionContext
}.

Record RecordedPolicyProvenance : Type := mk_RecordedPolicyProvenance {
  rec_policy_id : PolicyId;
  rec_policy_revision : N;
  rec_schema_version : N
}.

Inductive RecordedDecisionReason : Type :=
  | RdNoMatchingRule
  | RdExplicitAllow (matched_rules : gset RuleId)
  | RdExplicitDeny (matched_rules overridden_allow_rules : gset RuleId)
  | RdIndeterminateEvidence (rules : gset RuleId).

Record RecordedPolicyDecision : Type := mk_RecordedPolicyDecision {
  rec_effect : Effect;
  rec_reason : RecordedDecisionReason;
  rec_policy : RecordedPolicyProvenance
}.

Inductive RecordedLeaseError : Type :=
  | ReDenied (decision : RecordedPolicyDecision)
  | ReNonPositiveTtl
  | ReTtlExceedsMaximum (requested maximum : Duration)
  | ReExpiryOverflow.

Inductive RecordedLeaseValidity : Type :=
  | RvValid (remaining : Duration)
  | RvForeignIssuer (issued_by : IssuerInstanceId)
  | RvRevoked
  | RvResourceMismatch
  | RvActionMismatch
  | RvWorkloadMismatch
  | RvWorkloadIndeterminate
  | RvExecutableMismatch
  | RvExpired (expired_at : MonotonicTime).

Inductive RecordedOutcome : Type :=
  | RoGranted (id : LeaseId) (expires : MonotonicTime)
  | RoPolicyDenied (decision : RecordedPolicyDecision)
  | RoPeerNotAuthorizable
  | RoLeaseIssueFailed (error : RecordedLeaseError)
  | RoEnforcementRefused (r : EnforcementResult)
  | RoBackendFailed (error : BackendError)
  | RoCapacityExhausted (outstanding : N)
  | RoReleased (revocation : RevocationOutcome) (backend : option EnforcementResult)
  | RoReleaseRefused (validity : RecordedLeaseValidity)
  | RoReleaseUnknownLease
  | RoStatusReported.

#[export] Instance RecordedOperation_eq_dec : EqDecision RecordedOperation.
Proof. solve_decision. Defined.
#[export] Instance RecordedRequest_eq_dec : EqDecision RecordedRequest.
Proof. solve_decision. Defined.
#[export] Instance RecordedPeerCredential_eq_dec : EqDecision RecordedPeerCredential.
Proof. solve_decision. Defined.
#[export] Instance RecordedPeerConsistency_eq_dec : EqDecision RecordedPeerConsistency.
Proof. solve_decision. Defined.
#[export] Instance RecordedPeer_eq_dec : EqDecision RecordedPeer.
Proof. solve_decision. Defined.
#[export] Instance RecordedPolicyProvenance_eq_dec : EqDecision RecordedPolicyProvenance.
Proof. solve_decision. Defined.
#[export] Instance RecordedDecisionReason_eq_dec : EqDecision RecordedDecisionReason.
Proof. solve_decision. Defined.
#[export] Instance RecordedPolicyDecision_eq_dec : EqDecision RecordedPolicyDecision.
Proof. solve_decision. Defined.
#[export] Instance RecordedLeaseError_eq_dec : EqDecision RecordedLeaseError.
Proof. solve_decision. Defined.
#[export] Instance RecordedLeaseValidity_eq_dec : EqDecision RecordedLeaseValidity.
Proof. solve_decision. Defined.
#[export] Instance RecordedOutcome_eq_dec : EqDecision RecordedOutcome.
Proof. solve_decision. Defined.

Record AuditRecord : Type := mk_AuditRecord {
  event_id : AuditEventId;
  recorded_at : WallClockTime;
  rec_operation : RecordedOperation;
  requested : RecordedRequest;
  rec_peer : RecordedPeer;
  rec_outcome : RecordedOutcome;
  rec_response : AgentResponse
}.

#[export] Instance AuditRecord_eq_dec : EqDecision AuditRecord.
Proof. solve_decision. Defined.

Definition AuditRecord_current_schema_version : N := DOMAIN_SCHEMA_VERSION.

Definition AuditRecord_lease_id (self : AuditRecord) : option LeaseId :=
  match rec_outcome self, requested self with
  | RoGranted id _, _ => Some id
  | _, RreqReleaseLease id => Some id
  | _, _ => None
  end.

(** What a caller hands the sink (sink.rs). *)
Record AuditEntry : Type := mk_AuditEntry {
  entry_operation : RecordedOperation;
  entry_requested : RecordedRequest;
  entry_peer : RecordedPeer;
  entry_outcome : RecordedOutcome;
  entry_response : AgentResponse
}.

#[export] Instance AuditEntry_eq_dec : EqDecision AuditEntry.
Proof. solve_decision. Defined.

(** ** Values that fit their widths *)

Definition WallClockTime_in_range (t : WallClockTime) : Prop :=
  (- 2 ^ 63 ≤ unix_secs t < 2 ^ 63)%Z ∧ (nanos t ≤ u32_max)%N.

Lemma SystemWallClock_in_range since_epoch : WallClockTime_in_range (SystemWallClock_now since_epoch).
Proof.
  unfold SystemWallClock_now. set (now := match since_epoch with Ok d => d | Err _ => 0%N end).
  clearbody now. split; cbn [unix_secs nanos].
  - set (secs := (now `div` nanos_per_sec)%N). clearbody secs. case_decide; lia.
  - assert (now `mod` nanos_per_sec < nanos_per_sec)%N by (by apply N.mod_lt).
    assert (nanos_per_sec ≤ u32_max)%N by by vm_compute. lia.
Qed.

Definition RecordedRequest_in_range (r : RecordedRequest) : Prop :=
  match r with
  | RreqReleaseLease id => LeaseId_in_range id
  | _ => True
  end.

Definition RecordedPeerConsistency_in_range (c : RecordedPeerConsistency) : Prop :=
  match c with
  | RcCredentialDivergence u r e => (u ≤ u32_max)%N ∧ u32_evidence r ∧ u32_evidence e
  | _ => True
  end.

Definition RecordedPeer_in_range (p : RecordedPeer) : Prop :=
  (rec_pid (rec_credential p) ≤ u32_max)%N ∧ (rec_effective_uid (rec_credential p) ≤ u32_max)%N ∧
  (rec_effective_gid (rec_credential p) ≤ u32_max)%N ∧
  RecordedPeerConsistency_in_range (rec_consistency p) ∧
  WorkloadIdentity_in_range (workload (rec_observed p)).

Definition RecordedPolicyDecision_in_range (d : RecordedPolicyDecision) : Prop :=
  (rec_policy_revision (rec_policy d) ≤ u32_max)%N ∧ (rec_schema_version (rec_policy d) ≤ u16_max)%N.

Definition RecordedLeaseError_in_range (e : RecordedLeaseError) : Prop :=
  match e with
  | ReDenied d => RecordedPolicyDecision_in_range d
  | ReTtlExceedsMaximum r m => (r ≤ Duration_max)%N ∧ (m ≤ Duration_max)%N
  | _ => True
  end.

Definition RecordedLeaseValidity_in_range (v : RecordedLeaseValidity) : Prop :=
  match v with
  | RvValid r => (r ≤ Duration_max)%N
  | RvExpired t => (as_nanos t ≤ u64_max)%N
  | _ => True
  end.

Definition RecordedOutcome_in_range (o : RecordedOutcome) : Prop :=
  match o with
  | RoGranted id t => LeaseId_in_range id ∧ (as_nanos t ≤ u64_max)%N
  | RoPolicyDenied d => RecordedPolicyDecision_in_range d
  | RoLeaseIssueFailed e => RecordedLeaseError_in_range e
  | RoCapacityExhausted n => (n ≤ u64_max)%N
  | RoReleaseRefused v => RecordedLeaseValidity_in_range v
  | _ => True
  end.

Definition AuditEntry_in_range (e : AuditEntry) : Prop :=
  RecordedRequest_in_range (entry_requested e) ∧ RecordedPeer_in_range (entry_peer e) ∧
  RecordedOutcome_in_range (entry_outcome e) ∧ AgentResponse_in_range (entry_response e).

Definition AuditRecord_in_range (r : AuditRecord) : Prop :=
  (event_sequence (event_id r) ≤ u64_max)%N ∧ WallClockTime_in_range (recorded_at r) ∧
  RecordedRequest_in_range (requested r) ∧ RecordedPeer_in_range (rec_peer r) ∧
  RecordedOutcome_in_range (rec_outcome r) ∧ AgentResponse_in_range (rec_response r).

(** ** Conversions (authz/audit.rs) *)

Definition recorded_operation (op : Operation) : RecordedOperation :=
  match op with
  | OpRequestLease => RopRequestLease
  | OpReleaseLease => RopReleaseLease
  | OpAgentStatus => RopAgentStatus
  end.

Definition recorded_request (r : ClientRequest) : RecordedRequest :=
  match r with
  | RequestLease r => RreqRequestLease (lr_resource r) (lr_action r)
  | ReleaseLease r => RreqReleaseLease (rr_lease_id r)
  | AgentStatus => RreqAgentStatus
  end.

Definition recorded_peer_credential (c : PeerCredential) : RecordedPeerCredential :=
  mk_RecordedPeerCredential (cred_pid c) (effective_uid c) (effective_gid c).

Definition recorded_peer_consistency (c : PeerConsistency) : RecordedPeerConsistency :=
  match c with
  | Consistent => RcConsistent
  | CredentialDivergence u r e => RcCredentialDivergence u r e
  | PeerUnmapped => RcPeerUnmapped
  | PeerIndeterminate why => RcIndeterminate why
  end.

Definition recorded_peer (p : PeerContext) : RecordedPeer :=
  mk_RecordedPeer (recorded_peer_credential (credential p))
    (recorded_peer_consistency (consistency p)) (observed p).

Definition recorded_policy_provenance (p : PolicyProvenance) : RecordedPolicyProvenance :=
  mk_RecordedPolicyProvenance (policy_id p) (policy_revision p) (schema_version p).

Definition recorded_decision_reason (r : DecisionReason) : RecordedDecisionReason :=
  match r with
  | NoMatchingRule => RdNoMatchingRule
  | ExplicitAllow m => RdExplicitAllow m
  | ExplicitDeny m o => RdExplicitDeny m o
  | IndeterminateEvidence rules => RdIndeterminateEvidence rules
  end.

Definition recorded_policy_decision (d : PolicyDecision) : RecordedPolicyDecision :=
  mk_RecordedPolicyDecision (effect d) (recorded_decision_reason (reason d))
    (recorded_policy_provenance (policy d)).

Definition recorded_lease_error (e : LeaseError) : RecordedLeaseError :=
  match e with
  | Denied d => ReDenied (recorded_policy_decision d)
  | NonPositiveTtl => ReNonPositiveTtl
  | TtlExceedsMaximum r m => ReTtlExceedsMaximum r m
  | ExpiryOverflow => ReExpiryOverflow
  end.

Definition recorded_lease_validity (v : LeaseValidity) : RecordedLeaseValidity :=
  match v with
  | Valid r => RvValid r
  | ForeignIssuer i => RvForeignIssuer i
  | Revoked => RvRevoked
  | ResourceMismatch => RvResourceMismatch
  | ActionMismatch => RvActionMismatch
  | WorkloadMismatch => RvWorkloadMismatch
  | WorkloadIndeterminate => RvWorkloadIndeterminate
  | ExecutableMismatch => RvExecutableMismatch
  | Expired t => RvExpired t
  end.

Definition recorded_outcome (o : AuthorizationOutcome) : RecordedOutcome :=
  match o with
  | Granted id t => RoGranted id t
  | PolicyDenied d => RoPolicyDenied (recorded_policy_decision d)
  | PeerNotAuthorizable => RoPeerNotAuthorizable
  | LeaseIssueFailed e => RoLeaseIssueFailed (recorded_lease_error e)
  | EnforcementRefused r => RoEnforcementRefused r
  | BackendFailed e => RoBackendFailed e
  | CapacityExhausted n => RoCapacityExhausted n
  | OutcomeReleased r b => RoReleased r b
  | ReleaseRefused v => RoReleaseRefused (recorded_lease_validity v)
  | ReleaseUnknownLease => RoReleaseUnknownLease
  | StatusReported => RoStatusReported
  end.

(** The entry [AuditEventSink::record] builds. *)
Definition entry_of_event (e : AuthorizationEvent) : AuditEntry :=
  mk_AuditEntry (recorded_operation (operation e)) (recorded_request (ev_request e))
    (recorded_peer (peer e)) (recorded_outcome (outcome e)) (response e).

(** ** Lemmas: nothing is lost *)

#[export] Instance recorded_operation_inj : Inj (=) (=) recorded_operation.
Proof. by intros [] []. Qed.
#[export] Instance recorded_request_inj : Inj (=) (=) recorded_request.
Proof. intros [[]|[]|] [[]|[]|]; cbn; congruence. Qed.
#[export] Instance recorded_peer_credential_inj : Inj (=) (=) recorded_peer_credential.
Proof. intros [] []; cbv; congruence. Qed.
#[export] Instance recorded_peer_consistency_inj : Inj (=) (=) recorded_peer_consistency.
Proof. intros [] []; cbn; congruence. Qed.
#[export] Instance recorded_peer_inj : Inj (=) (=) recorded_peer.
Proof.
  intros [c k o] [c' k' o'] H.
  pose proof (f_equal rec_credential H) as Heq%(inj recorded_peer_credential). cbn in Heq. subst.
  pose proof (f_equal rec_consistency H) as Heq%(inj recorded_peer_consistency). cbn in Heq. subst.
  pose proof (f_equal rec_observed H) as Ho. cbn in Ho. congruence.
Qed.
#[export] Instance recorded_policy_provenance_inj : Inj (=) (=) recorded_policy_provenance.
Proof. intros [] []; cbv; congruence. Qed.
#[export] Instance recorded_decision_reason_inj : Inj (=) (=) recorded_decision_reason.
Proof. intros [] []; cbn; congruence. Qed.
#[export] Instance recorded_policy_decision_inj : Inj (=) (=) recorded_policy_decision.
Proof.
  intros [e r p] [e' r' p'] H.
  pose proof (f_equal rec_effect H) as He.
  pose proof (f_equal rec_reason H) as Heq%(inj recorded_decision_reason). cbn in Heq. subst.
  pose proof (f_equal rec_policy H) as Heq%(inj recorded_policy_provenance). cbn in Heq. subst.
  cbn in He. congruence.
Qed.
#[export] Instance recorded_lease_error_inj : Inj (=) (=) recorded_lease_error.
Proof.
  intros e e'. destruct e, e'; cbn; try congruence. intros H.
  by assert (recorded_policy_decision decision = recorded_policy_decision decision0)
    as ->%(inj recorded_policy_decision) by congruence.
Qed.
#[export] Instance recorded_lease_validity_inj : Inj (=) (=) recorded_lease_validity.
Proof. intros [] []; cbn; congruence. Qed.
#[export] Instance recorded_outcome_inj : Inj (=) (=) recorded_outcome.
Proof.
  intros o o'. destruct o, o'; cbn; try congruence; intros H; f_equal.
  - apply (inj recorded_policy_decision). congruence.
  - apply (inj recorded_lease_error). congruence.
  - apply (inj recorded_lease_validity). congruence.
Qed.

(** ** Property *)

(** The audit entry is faithful.  Two authorization events that differ in
    anything (operation, request, peer, outcome or response) give different
    entries: the plain mirrors of the authority-bearing types lose nothing. *)
Theorem entry_of_event_faithful (e e' : AuthorizationEvent) :
  entry_of_event e = entry_of_event e' ↔ e = e'.
Proof.
  split; [|by intros ->]. destruct e as [o r p u s], e' as [o' r' p' u' s']. intros H.
  pose proof (f_equal entry_operation H) as Heq%(inj recorded_operation). cbn in Heq. subst.
  pose proof (f_equal entry_requested H) as Heq%(inj recorded_request). cbn in Heq. subst.
  pose proof (f_equal entry_peer H) as Heq%(inj recorded_peer). cbn in Heq. subst.
  pose proof (f_equal entry_outcome H) as Heq%(inj recorded_outcome). cbn in Heq. subst.
  pose proof (f_equal entry_response H) as Hr. cbn in Hr. congruence.
Qed.
