(* ===== verification/Fits.v ===== *)
(** * Everything the handler says fits

    What [AuthorizationHandler] ([crates/eltanin-agent/src/authz/mod.rs]) answers and
    records, region by region and call by call, fits the integers of the wire and of the
    audit log, when the handler was made from values of the source's types; and only a
    [Granted] outcome answers that a lease is granted. *)

From S2P Require Import Prelude Resource Identity Policy PolicySpec Lease.
From S2P Require Import Peer Backend Protocol LeaseStore Authz AuthzSpec AuthzConcurrent.
From S2P Require Import AuditRecord.

(** A handler made from values of the source's types. *)
Record handler_fits (h : AuthorizationHandler) (st : LeaseState) : Prop := mk_handler_fits {
  hf_revision : (revision (document (handler_policy h)) ≤ u32_max)%N;
  hf_expires : map_Forall (λ _ l, as_nanos (expires_at l) ≤ u64_max)%N (leases st)
}.

Lemma fits_subset h st st' : leases st' ⊆ leases st → handler_fits h st → handler_fits h st'.
Proof. intros Hsub [Hr He]. split; [done|]. intros i l Hl. eapply He, lookup_weaken; eassumption. Qed.

Lemma evaluate_in_range h c q :
  (revision (document (handler_policy h)) ≤ u32_max)%N →
  RecordedPolicyDecision_in_range
    (recorded_policy_decision (PolicySet_evaluate (handler_policy h) c q)).
Proof.
  intros Hr. assert (policy (PolicySet_evaluate (handler_policy h) c q) =
    PolicySet_provenance (handler_policy h)) as Hp.
  { unfold PolicySet_evaluate. by destruct (conclude _). }
  unfold RecordedPolicyDecision_in_range, recorded_policy_decision. rewrite Hp. by split.
Qed.

Lemma u64_duration n : (n ≤ u64_max → n ≤ Duration_max)%N.
Proof. assert (u64_max ≤ Duration_max)%N by by vm_compute. lia. Qed.

(** An outcome with its answer: both fit, and an answer that grants is a grant. *)
Definition answer_fits (out : AuthorizationOutcome) (resp : AgentResponse) : Prop :=
  RecordedOutcome_in_range (recorded_outcome out) ∧ AgentResponse_in_range resp ∧
  ∀ v, resp = LeaseGranted v → ∃ t, out = Granted (view_lease_id v) t.

(** What one call leaves. *)
Definition call_fits (h : AuthorizationHandler) (st : LeaseState) (out : AuthorizationOutcome)
    (resp : AgentResponse) (st' : LeaseState) : Prop :=
  answer_fits out resp ∧ handler_fits h st' ∧
  (next_sequence (store_issuer st') ≤ next_sequence (store_issuer st) + 1)%N.

(** The first locked region, when it answers and when it issues. *)
Lemma begin_fits h st q p now :
  handler_ok h st → headroom st → handler_fits h st →
  match begin_request_lease h st q p now with
  | (inl (out, resp), _) => answer_fits out resp ∧ ∀ id t, out ≠ Granted id t
  | (inr l, _) => as_nanos (expires_at l) ≤ u64_max
  end%N.
Proof.
  intros Hok Hroom Hfit. unfold begin_request_lease.
  destruct (PeerContext_authorizable p) as [obs|]; [|done].
  pose proof (issue_reserving_spec h st (provenance_for q obs) now Hok Hroom) as Hs.
  destruct (issue_reserving_capacity _ _ _ _) as [[l|[n|d|e]] st']; destruct Hs as [Hok' Hs].
  - destruct Hs as (_ & Hov & _ & Hiss & [_ Hexp] & _). rewrite Hexp, Hiss. done.
  - destruct Hs as (_ & -> & _). split; [|done]. split; [|done].
    cbn. rewrite <-(hok_capacity _ _ Hok). apply swf_bound, Hok.
  - destruct Hs as (_ & _ & _ & ->). split; [|done]. split; [|done]. by apply evaluate_in_range, Hfit.
  - by destruct Hs as (_ & _ & _ & -> & _).
Qed.

(** The region after the backend's answer. *)
Lemma finish_fits h st l r later :
  handler_ok h st → in_flight h st l → (as_nanos (expires_at l) ≤ u64_max)%N →
  let '((out, resp), _) := finish_request_lease st l r later in answer_fits out resp.
Proof.
  intros Hok Hfl Hle. pose proof (finish_request_spec h st l r later Hok Hfl) as Hs.
  destruct (finish_request_lease st l r later) as [[out resp] st'].
  destruct Hs as (_ & _ & _ & _ & Hs).
  destruct Hs as [(_ & _ & -> & -> & _)|(Hwhy & -> & _)].
  - assert (LeaseId_in_range (lease_id l)) as Hid.
    { destruct (if_wf _ _ _ Hfl) as (_ & Hlt & _). pose proof (hok_store _ _ Hok) as [[Hn _] _ _ _].
      unfold LeaseId_in_range. lia. }
    split; [done|]. split; [split; [done|apply u64_duration; cbn; lia]|].
    intros v [= <-]. by eexists.
  - by destruct Hwhy as [[-> _]|[(e & _ & _ & ->)|(e & _ & ->)]].
Qed.

Section fits.
Context {B : Type} `{ComputeBackend B}.

Lemma request_fits h st b q p now later :
  handler_ok h st → headroom st → handler_fits h st →
  let '((out, resp), st', _) := handle_request_lease h st b q p now later in
  call_fits h st out resp st'.
Proof.
  intros Hok Hroom Hfit. unfold handle_request_lease.
  pose proof (begin_fits h st q p now Hok Hroom Hfit) as Hb.
  pose proof (begin_spec h st q p now Hok Hroom) as Hs.
  pose proof (fits_subset h st _ (prune_subseteq st now) Hfit) as Hfit0.
  destruct (begin_request_lease h st q p now) as [[[out resp]|l] st1].
  { destruct Hb as [Hb _], Hs as [_ [-> | ->]]; (split; [done|]); (split; [done|]); cbn; lia. }
  destruct Hs as [Hok1 (obs & _ & Hpost)].
  pose proof (issued_in_flight _ _ _ _ _ _ Hok Hpost) as Hfl.
  destruct Hpost as (_ & _ & _ & _ & _ & _ & _ & Hl1 & _ & _ & Hn1 & _).
  destruct (enforce b (request (origin l))) as [r b'].
  pose proof (finish_fits h st1 l r later Hok1 Hfl Hb) as Ha.
  pose proof (finish_request_spec h st1 l r later Hok1 Hfl) as Hf.
  destruct (finish_request_lease st1 l r later) as [[out resp] st'].
  destruct Hf as (_ & _ & Hn & _ & Hf). split; [done|]. split; [|lia].
  destruct Hf as [(_ & _ & _ & _ & Hl & _)|(_ & _ & Hl & _)].
  - split; [apply Hfit|]. rewrite Hl, Hl1. apply map_Forall_insert_2; [done|apply Hfit0].
  - apply (fits_subset h (LeaseState_prune st now)); [|done]. by rewrite Hl, Hl1.
Qed.

Lemma release_fits h st b q p now :
  handler_ok h st → handler_fits h st →
  let '((out, resp), st', _) := handle_release_lease st b q p now in
  call_fits h st out resp st'.
Proof.
  intros Hok Hfit. pose proof (release_spec h st b q p now Hok) as Hs.
  destruct (handle_release_lease st b q p now) as [[[out resp] st'] b'].
  pose proof (fits_subset h st _ (prune_subseteq st now) Hfit) as Hfit0.
  assert (∀ n, n = next_sequence (store_issuer st) → n ≤ next_sequence (store_issuer st) + 1)%N as Hn
    by lia.
  destruct Hs as [_ [(_ & -> & -> & -> & _)|(obs & _ & Hs)]]; [split; [done|]; split; [done|by apply Hn]|].
  destruct Hs as [(_ & -> & -> & -> & _)|(l & _ & _ & Hs)]; [split; [done|]; split; [done|by apply Hn]|].
  destruct Hs as [(_ & (v & -> & Hv) & -> & -> & _)|(_ & -> & (br & -> & _) & Hl & _ & _ & Hs & _)].
  - split; [by destruct Hv as [->|[->| ->]]|]. split; [done|by apply Hn].
  - split; [done|]. split; [|by apply Hn].
    apply (fits_subset h (LeaseState_prune st now)); [|done]. rewrite Hl. apply delete_subseteq.
Qed.

Lemma dispatch_fits h st b rq p now later :
  handler_ok h st → headroom st → handler_fits h st →
  let '(_, (out, resp), st', _) := dispatch h st b rq p now later in call_fits h st out resp st'.
Proof.
  intros Hok Hroom Hfit. destruct rq as [q|q|]; cbn.
  - pose proof (request_fits h st b q p now later Hok Hroom Hfit) as Hs.
    by destruct (handle_request_lease h st b q p now later) as [[[out resp] st'] b'].
  - pose proof (release_fits h st b q p now Hok Hfit) as Hs.
    by destruct (handle_release_lease st b q p now) as [[[out resp] st'] b'].
  - split; [done|]. split; [done|lia].
Qed.

End fits.
