(* ===== verification/AuditLog.v ===== *)
(** * The audit log: appending and explaining

    Models [crates/eltanin-audit/src/sink.rs] (the append-only sink that mints
    event ids), its adapter in [crates/eltanin-agent/src/authz/audit.rs], and
    [crates/eltanin-audit/src/explain.rs] (reading a log back, finding sequence
    gaps, selecting records).  A file is read as [fs::read_to_string] does: it is text only
    if its bytes are UTF-8.  [serde_json] and the file system are classes of functions; [Records] gives the codec of the record schema. *)

From Stdlib Require Import Strings.Ascii.
From S2P Require Import Prelude Text Resource Identity Policy PolicySpec Lease.
From S2P Require Import Peer Backend Protocol Schema LeaseStore Authz AuditRecord.

(** ** The sink (sink.rs) *)

Inductive AuditSinkError : Type :=
  | SinkIo (why : string)
  | SinkSerialize (why : string).

(** [write_all] followed by [flush] on the sink's writer. *)
Class AuditWriter (W : Type) : Type := { write_flush : W → string → result () string * W }.

(** [serde_json::to_string] at the one type the sink writes. *)
Class RecordToJson : Type := { record_to_json : Versioned AuditRecord → result string string }.

Section sink.
Context {W C : Type} `{AuditWriter W} `{AuditClock C} `{RecordToJson}.

Record AuditFileSink : Type := mk_AuditFileSink {
  writer : W;
  sink_next_sequence : N;
  sink_instance : IssuerInstanceId;
  failed_writes : N;
  clock : C
}.

Definition AuditFileSink_from_writer (w : W) (i : IssuerInstanceId) (c : C) : AuditFileSink :=
  mk_AuditFileSink w 0 i 0 c.

(** [open_append] is [OpenOptions::open] with create, append and mode 0600. *)
Definition AuditFileSink_open (open_append : string → result W string) (path : string)
    (i : IssuerInstanceId) (c : C) : result AuditFileSink AuditSinkError :=
  let? file := map_err SinkIo (open_append path) in
  Ok (AuditFileSink_from_writer file i c).

Definition AuditFileSink_write_line (w : W) (r : AuditRecord) : result () AuditSinkError * W :=
  match record_to_json (Versioned_current r) with
  | Err e => (Err (SinkSerialize e), w)
  | Ok line =>
      let '(res, w) := write_flush w (line +:+ newline) in
      (map_err SinkIo res, w)
  end.

(** The record of an entry, once the sink has minted its id and time. *)
Definition record_of_entry (id : AuditEventId) (at_ : WallClockTime) (e : AuditEntry) :
    AuditRecord :=
  mk_AuditRecord id at_ (entry_operation e) (entry_requested e) (entry_peer e)
    (entry_outcome e) (entry_response e).

(** [append] under its lock, with the time read before it.  The counter of failed
    writes is atomic and changes after the lock. *)
Definition AuditFileSink_append_locked (self : AuditFileSink) (at_ : WallClockTime)
    (e : AuditEntry) : result AuditEventId AuditSinkError * AuditFileSink :=
  let id := mk_AuditEventId (sink_instance self) (sink_next_sequence self) in
  let '(res, w) := AuditFileSink_write_line (writer self) (record_of_entry id at_ e) in
  let failed :=
    match res with
    | Ok _ => failed_writes self
    | Err _ => u64_wrapping_add (failed_writes self) 1
    end in
  (let? _ := res in Ok id,
   mk_AuditFileSink w (u64_wrapping_add (sink_next_sequence self) 1) (sink_instance self)
     failed (clock self)).

Definition AuditFileSink_append (self : AuditFileSink) (e : AuditEntry) :
    result AuditEventId AuditSinkError * AuditFileSink :=
  let '(at_, clk) := audit_now (clock self) in
  AuditFileSink_append_locked
    (mk_AuditFileSink (writer self) (sink_next_sequence self) (sink_instance self)
       (failed_writes self) clk) at_ e.

(** [AuditEventSink]: the error only goes to stderr. *)
Definition AuditEventSink_record (self : AuditFileSink) (e : AuthorizationEvent) : AuditFileSink :=
  (AuditFileSink_append self (entry_of_event e)).2.

#[export] Instance AuditEventSink_sink : EventSink AuditFileSink := {
  record := AuditEventSink_record
}.

(** Successive appends, with what each returned. *)
Fixpoint append_all (self : AuditFileSink) (es : list AuditEntry) :
    list (result AuditEventId AuditSinkError) * AuditFileSink :=
  match es with
  | [] => ([], self)
  | e :: es =>
      let '(r, self) := AuditFileSink_append self e in
      let '(rs, self) := append_all self es in
      (r :: rs, self)
  end.

End sink.
Arguments AuditFileSink W C : clear implicits.

(** ** Explain (explain.rs) *)

Inductive UnreadableReason : Type :=
  | UnreadableVersion (found expected : N)
  | UnreadableMalformed (why : string).

Record UnreadableLine : Type := mk_UnreadableLine {
  line_number : N;
  unreadable_reason : UnreadableReason;
  unreadable_event_id : option AuditEventId
}.

Record LogScan : Type := mk_LogScan {
  records : list AuditRecord;
  unreadable : list UnreadableLine;
  gaps : list AuditEventId
}.

Inductive ExplainError : Type :=
  | ExplainIo (why : string).

(** [serde_json] as the reader uses it: a generic value with its accessors, and
    the two types a line is parsed at. *)
Class LogJson : Type := {
  Value : Type;
  value_get : Value → string → option Value;
  value_as_str : Value → option string;
  value_as_u64 : Value → option N;
  envelope_of_json : string → result (Versioned Value) string;
  record_of_json : string → result (Versioned AuditRecord) string
}.

Section explain.
Context `{LogJson}.

Definition recover_event_id (p : Value) : option AuditEventId :=
  event_id ← value_get p "event_id";
  instance_value ← value_get event_id "instance";
  i ← value_as_str instance_value;
  sequence_value ← value_get event_id "sequence";
  n ← value_as_u64 sequence_value;
  Some (mk_AuditEventId (mk_IssuerInstanceId i) n).

(** One iteration of the loop: what the line at [index] adds. *)
Definition read_line (index : N) (line : string) : option (AuditRecord + UnreadableLine) :=
  if is_blank line then None
  else
    let number := u64_wrapping_add index 1 in
    match envelope_of_json line with
    | Ok envelope =>
        if decide (version envelope ≠ DOMAIN_SCHEMA_VERSION) then
          Some (inr (mk_UnreadableLine number
            (UnreadableVersion (version envelope) DOMAIN_SCHEMA_VERSION)
            (recover_event_id (payload envelope))))
        else
          match record_of_json line with
          | Ok record_envelope => Some (inl (payload record_envelope))
          | Err e => Some (inr (mk_UnreadableLine number (UnreadableMalformed e)
              (recover_event_id (payload envelope))))
          end
    | Err e => Some (inr (mk_UnreadableLine number (UnreadableMalformed e) None))
    end.

Fixpoint read_lines (index : N) (ls : list string) : list AuditRecord * list UnreadableLine :=
  match ls with
  | [] => ([], [])
  | l :: ls =>
      let '(rs, us) := read_lines (index + 1) ls in
      match read_line index l with
      | None => (rs, us)
      | Some (inl r) => (r :: rs, us)
      | Some (inr u) => (rs, u :: us)
      end
  end.

(** The [by_instance] map: every sequence number seen, by instance. *)
Definition note_present (m : gmap IssuerInstanceId (gset N)) (id : AuditEventId) :
    gmap IssuerInstanceId (gset N) :=
  <[event_instance id := {[event_sequence id]} ∪ (m !!! event_instance id)]> m.

Definition by_instance (rs : list AuditRecord) (us : list UnreadableLine) :
    gmap IssuerInstanceId (gset N) :=
  foldl note_present (foldl note_present ∅ (event_id <$> rs)) (omap unreadable_event_id us).

(** The inner loop over [0..=max]. *)
Definition instance_gaps (i : IssuerInstanceId) (present : gset N) : list AuditEventId :=
  if decide (present = ∅) then []
  else
    let max := foldr N.max 0%N (elements present) in
    mk_AuditEventId i <$>
      filter (λ n, n ∉ present) (N.of_nat <$> seq 0 (S (N.to_nat max))).

(** A [BTreeMap] is iterated in the order of its keys. *)
Definition instance_le (a b : IssuerInstanceId) : Prop :=
  String.le (instance_str a) (instance_str b).

#[export] Instance instance_le_dec a b : Decision (instance_le a b).
Proof. unfold instance_le. apply _. Defined.

Definition detect_gaps (rs : list AuditRecord) (us : list UnreadableLine) : list AuditEventId :=
  let m := by_instance rs us in
  merge_sort instance_le (map_to_list m).*1 ≫= λ i, instance_gaps i (m !!! i).

(** [read] is [fs::read_to_string]. *)
Definition read_log (read : string → result string string) (path : string) :
    result LogScan ExplainError :=
  let? contents := map_err ExplainIo (read path) in
  let '(rs, us) := read_lines 0 (str_lines contents) in
  Ok (mk_LogScan rs us (detect_gaps rs us)).

End explain.

Inductive Selector : Type :=
  | SelEvent (id : AuditEventId)
  | SelLease (id : LeaseId)
  | SelPid (p : N).

Inductive SelectionResult : Type :=
  | Found (rs : list AuditRecord)
  | NotFound
  | PossiblyLost.

Definition select_matching (P : AuditRecord → Prop) `{∀ r, Decision (P r)} (scan : LogScan) :
    SelectionResult :=
  let matches := filter P (records scan) in
  if decide (matches = []) then NotFound else Found matches.

Definition select (scan : LogScan) (s : Selector) : SelectionResult :=
  match s with
  | SelEvent id =>
      match list_find (λ r, event_id r = id) (records scan) with
      | Some (_, r) => Found [r]
      | None => if decide (id ∈ gaps scan) then PossiblyLost else NotFound
      end
  | SelLease id => select_matching (λ r, AuditRecord_lease_id r = Some id) scan
  | SelPid p => select_matching (λ r, rec_pid (rec_credential (rec_peer r)) = p) scan
  end.

(** ** Gap detection *)

(** The id was seen, on a readable line or on one that only names it. *)
Definition seen (rs : list AuditRecord) (us : list UnreadableLine) (id : AuditEventId) : Prop :=
  id ∈ event_id <$> rs ∨ Some id ∈ unreadable_event_id <$> us.

Lemma note_present_spec ids m i n :
  n ∈ (foldl note_present m ids !!! i : gset N) ↔ n ∈ (m !!! i : gset N) ∨ mk_AuditEventId i n ∈ ids.
Proof.
  induction ids as [|id ids IH] using rev_ind; [set_solver|].
  rewrite foldl_snoc. unfold note_present at 1.
  rewrite elem_of_app, list_elem_of_singleton, (assoc (∨)), <-IH.
  destruct (decide (event_instance id = i)) as [<-|Hne].
  - rewrite lookup_total_insert_eq, elem_of_union, elem_of_singleton. destruct id. cbn.
    split; [intros [->|?]|intros [?|[= ->]]]; auto.
  - rewrite lookup_total_insert_ne by done. split; [by left|]. intros [?|<-]; done.
Qed.

Lemma by_instance_spec rs us i n :
  n ∈ (by_instance rs us !!! i : gset N) ↔ seen rs us (mk_AuditEventId i n).
Proof.
  unfold by_instance, seen. rewrite !note_present_spec, lookup_total_empty.
  assert (mk_AuditEventId i n ∈ omap unreadable_event_id us ↔
    Some (mk_AuditEventId i n) ∈ unreadable_event_id <$> us) as ->.
  { rewrite list_elem_of_omap, list_elem_of_fmap. split; intros (u & ? & ?); eauto. }
  set_solver.
Qed.

Lemma foldr_max_ge l n : n ∈ l → (n ≤ foldr N.max 0 l)%N.
Proof. induction l as [|m l IH]; [set_solver|]. intros [->|?%IH]%elem_of_cons; cbn; lia. Qed.

Lemma foldr_max_in l : l ≠ [] → foldr N.max 0%N l ∈ l.
Proof.
  induction l as [|m l IH]; [done|]. intros _. cbn. destruct l as [|m' l].
  - cbn. rewrite N.max_0_r. set_solver.
  - destruct (N.max_spec m (foldr N.max 0%N (m' :: l))) as [[_ ->]|[_ ->]];
      [|set_solver]. right. by apply IH.
Qed.

Lemma instance_gaps_spec i (present : gset N) id :
  id ∈ instance_gaps i present ↔
  event_instance id = i ∧ (event_sequence id ∉ present) ∧
  ∃ n, n ∈ present ∧ (event_sequence id < n)%N.
Proof.
  unfold instance_gaps. case_decide as Hp.
  { split; [set_solver|]. intros (_ & _ & n & Hn & _). set_solver. }
  assert (elements present ≠ []) as He
    by (intros ?%elements_empty_inv; by apply Hp, leibniz_equiv).
  pose proof (foldr_max_in _ He) as Hm. rewrite elem_of_elements in Hm.
  set (max := foldr N.max 0%N (elements present)) in *.
  rewrite list_elem_of_fmap. setoid_rewrite list_elem_of_filter.
  setoid_rewrite list_elem_of_fmap. setoid_rewrite elem_of_seq. split.
  - intros (n & -> & Hn & k & -> & Hk). cbn. split; [done|]. split; [done|].
    exists max. split; [done|]. assert (N.of_nat k ≠ max) by congruence. lia.
  - intros (<- & Hn & n & Hin & Hlt). exists (event_sequence id). split; [by destruct id|].
    split; [done|]. exists (N.to_nat (event_sequence id)). split; [lia|].
    assert (n ≤ max)%N by (apply foldr_max_ge; by apply elem_of_elements). lia.
Qed.

Lemma detect_gaps_elem rs us id :
  id ∈ detect_gaps rs us ↔
  ¬ seen rs us id ∧
  ∃ n, seen rs us (mk_AuditEventId (event_instance id) n) ∧ (event_sequence id < n)%N.
Proof.
  unfold detect_gaps. rewrite list_elem_of_bind. setoid_rewrite instance_gaps_spec.
  assert (∀ n, n ∈ (by_instance rs us !!! event_instance id : gset N) ↔
    seen rs us (mk_AuditEventId (event_instance id) n)) as Hs
    by (intros; apply by_instance_spec).
  assert (event_sequence id ∈ (by_instance rs us !!! event_instance id : gset N) ↔ seen rs us id)
    as Hid by (rewrite Hs; by destruct id).
  split.
  - intros (i & (<- & Hn & n & Hin & Hlt) & _). split; [by rewrite <-Hid|].
    exists n. by rewrite <-Hs.
  - intros [Hn (n & Hin & Hlt)]. apply Hs in Hin.
    exists (event_instance id). split.
    + split; [done|]. split; [by rewrite Hid|]. eauto.
    + rewrite merge_sort_Permutation. apply list_elem_of_fmap.
      rewrite lookup_total_alt in Hin.
      destruct (by_instance rs us !! event_instance id) as [s|] eqn:Hl; [|set_solver].
      exists (event_instance id, s). split; [done|]. by apply elem_of_map_to_list.
Qed.

Lemma detect_gaps_NoDup rs us : NoDup (detect_gaps rs us).
Proof.
  unfold detect_gaps. apply NoDup_bind.
  - intros i1 i2 id _ _ [<- _]%instance_gaps_spec [<- _]%instance_gaps_spec. done.
  - intros i _. unfold instance_gaps. case_decide; [constructor|].
    apply NoDup_fmap_2; [intros n m; by intros [= ->]|]. apply NoDup_filter.
    apply NoDup_fmap_2; [apply _|]. apply NoDup_seq.
  - rewrite merge_sort_Permutation. apply NoDup_fst_map_to_list.
Qed.

(** ** Lines *)

(** The text of a log of complete lines. *)
Fixpoint log_text (ls : list string) : string :=
  match ls with
  | [] => EmptyString
  | l :: ls => l +:+ newline +:+ log_text ls
  end.

Lemma str_lines_log_text ls : Forall one_line ls → str_lines (log_text ls) = ls.
Proof.
  induction 1 as [|l ls [Hn Hr _] _ IH]; [done|]. cbn [log_text].
  unfold str_lines in *. rewrite split_inclusive_line by done. cbn. rewrite IH.
  by rewrite strip_cr_id.
Qed.

Lemma utf8_log_text ls : Forall utf8 ls → utf8 (log_text ls).
Proof.
  induction 1 as [|l ls Hl _ IH]; [done|]. cbn [log_text]. by apply utf8_app.
Qed.

Lemma file_text_utf8 s : utf8 s → file_text s = Ok s.
Proof. intros Hs. unfold file_text. by rewrite decide_True. Qed.

Lemma log_text_app ls ls' : log_text (ls ++ ls') = log_text ls +:+ log_text ls'.
Proof.
  induction ls as [|l ls IH]; cbn [log_text app]; [done|].
  by rewrite IH, !string_app_assoc.
Qed.

Lemma log_text_snoc ls l : log_text (ls ++ [l]) = log_text ls +:+ l +:+ newline.
Proof.
  induction ls as [|l' ls IH]; cbn [log_text app]; [done|].
  by rewrite IH, !string_app_assoc.
Qed.

(** ** A log file

    A writer over a file's contents whose writes may fail: each planned failure
    says how many bytes reached the file before it ([Write::write_all] gives no
    guarantee about them).  An exhausted plan succeeds. *)

Record LogFile : Type := mk_LogFile {
  contents : string;
  plan : list (option nat)
}.

Definition LogFile_write (f : LogFile) (s : string) : result () string * LogFile :=
  match plan f with
  | [] => (Ok (), mk_LogFile (contents f +:+ s) [])
  | None :: p => (Ok (), mk_LogFile (contents f +:+ s) p)
  | Some k :: p => (Err "write failed", mk_LogFile (contents f +:+ String.substring 0 k s) p)
  end.

#[export] Instance LogFile_writer : AuditWriter LogFile := { write_flush := LogFile_write }.

(** Every planned failure leaves the file as it was. *)
Definition clean (p : list (option nat)) : Prop := ∀ k, Some k ∈ p → k = 0.

(** What [serde_json] does at the sink's and the reader's types: a record is
    written as one line of text, and read back as itself under its own version, its
    integers being of their widths. *)
Class AuditJsonLaws `{RecordToJson} `{LogJson} : Prop := {
  json_one_line : ∀ r s, record_to_json (Versioned_current r) = Ok s → one_line s;
  json_utf8 : ∀ r s, record_to_json (Versioned_current r) = Ok s → utf8 s;
  json_envelope : ∀ r s, AuditRecord_in_range r → record_to_json (Versioned_current r) = Ok s →
    ∃ v, envelope_of_json s = Ok (mk_Versioned DOMAIN_SCHEMA_VERSION v);
  json_record : ∀ r s, AuditRecord_in_range r → record_to_json (Versioned_current r) = Ok s →
    record_of_json s = Ok (Versioned_current r)
}.

(** The specification of a sequence of appends from sequence number [n] on:
    ids are handed out in order whether or not the write succeeded, and [kept]
    are the records of the successful ones. *)
Inductive appended (i : IssuerInstanceId) : N → list AuditEntry →
    list (result AuditEventId AuditSinkError) → list AuditRecord → Prop :=
  | appended_nil n : appended i n [] [] []
  | appended_ok n e es rs kept at_ :
      appended i (n + 1) es rs kept →
      appended i n (e :: es) (Ok (mk_AuditEventId i n) :: rs)
        (record_of_entry (mk_AuditEventId i n) at_ e :: kept)
  | appended_err n e es err rs kept :
      appended i (n + 1) es rs kept →
      appended i n (e :: es) (Err err :: rs) kept.

Lemma appended_length i n es rs kept : appended i n es rs kept → length rs = length es.
Proof. induction 1; cbn; congruence. Qed.

(** The id an append returned, when it succeeded. *)
Definition handed_out (r : result AuditEventId AuditSinkError) : option AuditEventId :=
  match r with
  | Ok id => Some id
  | Err _ => None
  end.

Lemma appended_ids i n es rs kept : appended i n es rs kept → event_id <$> kept = omap handed_out rs.
Proof. induction 1 as [|n e es rs kept at_ _ IH|]; cbn; [done| |done]. by f_equal. Qed.

Lemma appended_kept i n es rs kept r :
  appended i n es rs kept → r ∈ kept →
  ∃ k e at_, rs !! k = Some (Ok (event_id r)) ∧ es !! k = Some e ∧
    event_id r = mk_AuditEventId i (n + N.of_nat k) ∧ r = record_of_entry (event_id r) at_ e.
Proof.
  induction 1 as [n|n e es rs kept at_ _ IH|n e es err rs kept _ IH]; [set_solver|..].
  - intros [->|Hr]%elem_of_cons.
    + exists 0, e, at_. cbn. split_and!; [done..|f_equal; lia|done].
    + destruct (IH Hr) as (k & e' & a' & ? & ? & Hid & ?). exists (S k), e', a'. cbn.
      split_and!; [done..| |done]. rewrite Hid. f_equal. lia.
  - intros Hr. destruct (IH Hr) as (k & e' & a' & ? & ? & Hid & ?). exists (S k), e', a'. cbn.
    split_and!; [done..| |done]. rewrite Hid. f_equal. lia.
Qed.

Lemma appended_result i n es rs kept k id :
  appended i n es rs kept → rs !! k = Some (Ok id) →
  id = mk_AuditEventId i (n + N.of_nat k) ∧ ∃ r, r ∈ kept ∧ event_id r = id.
Proof.
  intros Ha. revert k. induction Ha as [n|n e es rs kept at_ _ IH|n e es err rs kept _ IH];
    intros [|k] Hk; cbn in Hk; try done.
  - injection Hk as <-. split; [f_equal; lia|]. eexists. split; [by left|done].
  - destruct (IH k Hk) as (-> & r & ? & ?). split; [f_equal; lia|]. exists r. by split; [right|].
  - destruct (IH k Hk) as (-> & r & ? & ?). split; [f_equal; lia|]. by exists r.
Qed.

Lemma kept_unique i n es rs kept :
  appended i n es rs kept →
  ∀ r r', r ∈ kept → r' ∈ kept → event_id r = event_id r' → r = r'.
Proof.
  induction 1 as [n|n e es rs kept at_ Ha IH|n e es err rs kept _ IH]; [set_solver| |done].
  assert (∀ r, r ∈ kept → event_id r ≠ mk_AuditEventId i n) as Hne.
  { intros r Hr Heq. destruct (appended_kept _ _ _ _ _ _ Ha Hr) as (k & _ & _ & _ & _ & Hid & _).
    rewrite Heq in Hid. injection Hid as ?. lia. }
  intros r r' [->|Hr]%elem_of_cons [->|Hr']%elem_of_cons Heq; [done|..|by apply IH].
  - by destruct (Hne r' Hr').
  - by destruct (Hne r Hr).
Qed.

Lemma record_of_entry_in_range id at_ e :
  (event_sequence id ≤ u64_max)%N → WallClockTime_in_range at_ → AuditEntry_in_range e →
  AuditRecord_in_range (record_of_entry id at_ e).
Proof. intros ? ? (? & ? & ? & ?). by split_and!. Qed.

Section readback.
Context {C : Type} `{AuditClock C} `{RecordToJson}.
Context (Hclock : ∀ c : C, WallClockTime_in_range (audit_now c).1).

Lemma append_clean (self : AuditFileSink LogFile C) e :
  clean (plan (writer self)) → (sink_next_sequence self < u64_max)%N →
  let '(r, self') := AuditFileSink_append self e in
  clean (plan (writer self')) ∧ sink_instance self' = sink_instance self ∧
  sink_next_sequence self' = (sink_next_sequence self + 1)%N ∧
  let id := mk_AuditEventId (sink_instance self) (sink_next_sequence self) in
  ((∃ at_ s, WallClockTime_in_range at_ ∧
      record_to_json (Versioned_current (record_of_entry id at_ e)) = Ok s ∧ r = Ok id ∧
      contents (writer self') = contents (writer self) +:+ s +:+ newline ∧
      failed_writes self' = failed_writes self) ∨
   ∃ err, r = Err err ∧ contents (writer self') = contents (writer self) ∧
      failed_writes self' = u64_wrapping_add (failed_writes self) 1).
Proof.
  intros Hc Hlt. unfold AuditFileSink_append, AuditFileSink_append_locked.
  pose proof (Hclock (clock self)) as Hat. destruct (audit_now (clock self)) as [at_ clk].
  unfold AuditFileSink_write_line.
  assert (u64_wrapping_add (sink_next_sequence self) 1 = sink_next_sequence self + 1)%N as Hn
    by (apply u64_wrapping_add_small; unfold u64_max in *; lia).
  destruct (record_to_json _) as [s|err] eqn:Hs; cbn.
  2: { split_and!; [done..|]. right. by eexists. }
  unfold LogFile_write. destruct (plan (writer self)) as [|[k|] p] eqn:Hp; cbn.
  - split_and!; [done..|]. left. by exists at_, s.
  - assert (k = 0) as -> by (apply Hc; set_solver).
    split_and!; [intros k Hk; apply Hc; by right|done..|]. right. eexists. split; [done|].
    split; [|done]. assert (∀ x, String.substring 0 0 x = "") as -> by (by intros []).
    apply string_app_nil_r.
  - split_and!; [intros k Hk; apply Hc; by right|done..|]. left. by exists at_, s.
Qed.

Definition count_err (rs : list (result AuditEventId AuditSinkError)) : N :=
  foldr (λ r n, match r with Ok _ => n | Err _ => (n + 1)%N end) 0%N rs.

Lemma append_all_clean (self : AuditFileSink LogFile C) es :
  clean (plan (writer self)) → Forall AuditEntry_in_range es →
  (sink_next_sequence self + len_N es ≤ u64_max)%N →
  (failed_writes self + len_N es ≤ u64_max)%N →
  let '(rs, self') := append_all self es in
  ∃ kept lines,
    appended (sink_instance self) (sink_next_sequence self) es rs kept ∧
    Forall2 (λ r s, record_to_json (Versioned_current r) = Ok s) kept lines ∧
    Forall AuditRecord_in_range kept ∧
    contents (writer self') = contents (writer self) +:+ log_text lines ∧
    failed_writes self' = (failed_writes self + count_err rs)%N.
Proof.
  revert self. induction es as [|e es IH]; intros self Hc Hes Hn Hf.
  { exists [], []. split; [constructor|]. split; [constructor|]. split; [constructor|]. cbn.
    split; [by rewrite string_app_nil_r|lia]. }
  apply Forall_cons in Hes as [He Hes]. cbn [append_all]. unfold len_N in *. cbn [length] in *.
  pose proof (append_clean self e Hc ltac:(lia)) as Ha.
  destruct (AuditFileSink_append self e) as [r self1].
  destruct Ha as (Hc1 & Hi1 & Hn1 & Ha).
  assert (failed_writes self1 + N.of_nat (length es) ≤ u64_max)%N as Hf1.
  { destruct Ha as [(? & ? & _ & _ & _ & _ & ->)|(? & _ & _ & ->)]; [lia|].
    rewrite u64_wrapping_add_small by lia. lia. }
  specialize (IH self1 Hc1 Hes ltac:(lia) Hf1).
  destruct (append_all self1 es) as [rs self2].
  destruct IH as (kept & lines & Happ & Hj & Hrange & Hcont & Hfail). rewrite Hi1, Hn1 in Happ.
  destruct Ha as [(at_ & s & Hat & Hs & -> & Hc1' & Hf1')|(err & -> & Hc1' & Hf1')].
  - eexists (_ :: kept), (s :: lines). split; [by apply appended_ok|].
    split; [by constructor|]. split.
    { constructor; [|done]. apply record_of_entry_in_range; [cbn; lia|done..]. }
    rewrite Hcont, Hc1', Hfail, Hf1'. cbn [log_text].
    by split; [rewrite !string_app_assoc|].
  - exists kept, lines. split; [by apply appended_err|]. split; [done|].
    split; [done|]. rewrite Hcont, Hc1', Hfail, Hf1'. split; [done|].
    rewrite u64_wrapping_add_small by lia.
    change (count_err (Err err :: rs)) with (count_err rs + 1)%N. lia.
Qed.

Context `{LogJson}.

Lemma read_lines_written kept lines n :
  AuditJsonLaws → Forall AuditRecord_in_range kept →
  Forall2 (λ r s, record_to_json (Versioned_current r) = Ok s) kept lines →
  read_lines n lines = (kept, []).
Proof.
  intros Hlaws Hrange Hj. revert n Hrange.
  induction Hj as [|r s kept lines Hs _ IH]; intros n Hrange; [done|].
  apply Forall_cons in Hrange as [Hr Hrange]. cbn [read_lines]. rewrite IH by done. unfold read_line.
  rewrite (ol_blank _ (json_one_line _ _ Hs)).
  destruct (json_envelope _ _ Hr Hs) as [v ->]. cbn. rewrite decide_False by (by intros []).
  by rewrite (json_record _ _ Hr Hs).
Qed.

End readback.

(** ** Selection *)

Lemma select_event_Found scan id r :
  (∀ r', r' ∈ records scan → event_id r' = id → r' = r) → r ∈ records scan → event_id r = id →
  select scan (SelEvent id) = Found [r].
Proof.
  intros Huniq Hin Hid. cbn. destruct (list_find _ _) as [[k r']|] eqn:Hf.
  - apply list_find_Some in Hf as (Hk & Hid' & _).
    apply list_elem_of_lookup_2 in Hk. by rewrite (Huniq r' Hk Hid').
  - apply list_find_None in Hf. rewrite Forall_forall in Hf. by destruct (Hf r Hin).
Qed.

Lemma select_event_absent scan id :
  (∀ r, r ∈ records scan → event_id r ≠ id) →
  select scan (SelEvent id) = if decide (id ∈ gaps scan) then PossiblyLost else NotFound.
Proof.
  intros Hno. cbn. destruct (list_find _ _) as [[k r']|] eqn:Hf; [|done].
  apply list_find_Some in Hf as (Hk & Hid' & _).
  apply list_elem_of_lookup_2 in Hk. by destruct (Hno r' Hk).
Qed.

(** ** Properties *)

Section properties.
Context {C : Type} `{AuditClock C} `{RecordToJson} `{LogJson}.

(** Explaining an audit log tells what happened.  Whatever a fresh sink was
    given to append, and whichever writes failed without tearing the file, the log
    reads back with no unreadable line and exactly the records whose append
    succeeded, in order and under the ids the sink handed out.  Selecting the id
    of the [k]-th append finds its record if it succeeded; if it failed the answer
    is [PossiblyLost] exactly when a later append succeeded; an id never handed
    out is [NotFound]; and the failure counter counts the failures. *)
Theorem explain_tells_what_happened (i : IssuerInstanceId) (c : C) (p : list (option nat))
    (es : list AuditEntry) (path : string) (rs : list (result AuditEventId AuditSinkError))
    (self : AuditFileSink LogFile C)
    (Hlaws : AuditJsonLaws) (Hclock : ∀ c : C, WallClockTime_in_range (audit_now c).1)
    (Hclean : clean p) (Hes : Forall AuditEntry_in_range es) (Hlen : (len_N es ≤ u64_max)%N)
    (Hrun : append_all (AuditFileSink_from_writer (mk_LogFile "" p) i c) es = (rs, self)) :
  ∃ scan, read_log (λ _, file_text (contents (writer self))) path = Ok scan ∧
    appended i 0 es rs (records scan) ∧ unreadable scan = [] ∧
    failed_writes self = count_err rs ∧
    ∀ k, match rs !! k with
         | Some (Ok id) => id = mk_AuditEventId i (N.of_nat k) ∧
             ∃ e at_, es !! k = Some e ∧
               select scan (SelEvent id) = Found [record_of_entry id at_ e]
         | Some (Err _) =>
             (select scan (SelEvent (mk_AuditEventId i (N.of_nat k))) = PossiblyLost ↔
                ∃ j id, k < j ∧ rs !! j = Some (Ok id)) ∧
             (select scan (SelEvent (mk_AuditEventId i (N.of_nat k))) = NotFound ↔
                ¬ ∃ j id, k < j ∧ rs !! j = Some (Ok id))
         | None => select scan (SelEvent (mk_AuditEventId i (N.of_nat k))) = NotFound
         end.
Proof.
  pose proof (append_all_clean Hclock (AuditFileSink_from_writer (mk_LogFile "" p) i c) es) as Ha.
  cbn [writer plan sink_next_sequence failed_writes AuditFileSink_from_writer] in Ha.
  specialize (Ha Hclean Hes ltac:(lia) ltac:(lia)). rewrite Hrun in Ha.
  destruct Ha as (kept & lines & Happ & Hj & Hrange & Hcont & Hfail). cbn in Happ, Hcont, Hfail.
  assert (Forall one_line lines) as Hone.
  { clear -Hj Hlaws. induction Hj as [|r s kept lines Hs _ IH]; constructor; [|done].
    by eapply json_one_line. }
  assert (Forall utf8 lines) as Hutf8.
  { clear -Hj Hlaws. induction Hj as [|r s kept lines Hs _ IH]; constructor; [|done].
    by eapply json_utf8. }
  exists (mk_LogScan kept [] (detect_gaps kept [])).
  split.
  { unfold read_log. cbn. rewrite Hcont. change ("" +:+ log_text lines) with (log_text lines).
    rewrite file_text_utf8 by by apply utf8_log_text. cbn.
    change (_ <$> split_inclusive ?x) with (str_lines x). rewrite str_lines_log_text by done. by rewrite (read_lines_written kept lines). }
  split; [done|]. split; [done|]. split; [rewrite Hfail; lia|]. intros k.
  assert (∀ id, seen kept [] id ↔ ∃ j, rs !! j = Some (Ok id)) as Hseen.
  { intros id. unfold seen. rewrite list_elem_of_fmap. split.
    - intros [(r & -> & Hr)|?]; [|set_solver].
      destruct (appended_kept _ _ _ _ _ _ Happ Hr) as (j & _ & _ & ? & _). eauto.
    - intros [j Hj']. left. destruct (appended_result _ _ _ _ _ _ _ Happ Hj') as (_ & r & ? & <-).
      eauto. }
  assert (∀ id, (¬ ∃ j, rs !! j = Some (Ok id)) →
    ∀ r, r ∈ records (mk_LogScan kept [] (detect_gaps kept [])) → event_id r ≠ id) as Habs.
  { intros id Hno r Hr <-. apply Hno, Hseen. left. by apply list_elem_of_fmap_2. }
  destruct (rs !! k) as [[id|err]|] eqn:Hk.
  - destruct (appended_result _ _ _ _ _ _ _ Happ Hk) as (Hid & r & Hr & Hrid).
    rewrite N.add_0_l in Hid. split; [done|].
    destruct (appended_kept _ _ _ _ _ _ Happ Hr) as (k' & e & at_ & Hk' & He & Hid' & Hre).
    rewrite Hrid in *. rewrite N.add_0_l, Hid in Hid'. injection Hid' as Heq.
    assert (k' = k) as -> by lia. exists e, at_. split; [done|]. rewrite <-Hre.
    apply select_event_Found; [|done|done]. cbn. intros r' Hr' Hrid'.
    apply (kept_unique _ _ _ _ _ Happ r' r Hr' Hr). congruence.
  - assert (¬ ∃ j, rs !! j = Some (Ok (mk_AuditEventId i (N.of_nat k)))) as Hno.
    { intros [j Hj']. destruct (appended_result _ _ _ _ _ _ _ Happ Hj') as (Heq & _).
      injection Heq as ?. assert (j = k) as -> by lia. congruence. }
    rewrite (select_event_absent _ _ (Habs _ Hno)). cbn [gaps].
    assert (mk_AuditEventId i (N.of_nat k) ∈ detect_gaps kept [] ↔
      ∃ j id, k < j ∧ rs !! j = Some (Ok id)) as Hg.
    { rewrite detect_gaps_elem, Hseen. cbn. setoid_rewrite Hseen. split.
      - intros (_ & n & (j & Hj') & Hlt). destruct (appended_result _ _ _ _ _ _ _ Happ Hj') as (Heq & _).
        injection Heq as ->. exists j. eexists. split; [lia|done].
      - intros (j & id & Hlt & Hj'). split; [done|].
        destruct (appended_result _ _ _ _ _ _ _ Happ Hj') as (-> & _).
        exists (N.of_nat j). split; [|lia]. exists j. rewrite Hj'. do 3 f_equal. }
    case_decide; (split; [split|split]); try done; tauto.
  - assert (¬ ∃ j, rs !! j = Some (Ok (mk_AuditEventId i (N.of_nat k)))) as Hno.
    { intros [j Hj']. destruct (appended_result _ _ _ _ _ _ _ Happ Hj') as (Heq & _).
      injection Heq as ?. assert (j = k) as -> by lia. congruence. }
    rewrite (select_event_absent _ _ (Habs _ Hno)). cbn [gaps].
    rewrite decide_False; [done|]. rewrite detect_gaps_elem. cbn. setoid_rewrite Hseen.
    intros (_ & n & (j & Hj') & Hlt). destruct (appended_result _ _ _ _ _ _ _ Happ Hj') as (Heq & _).
    injection Heq as ->. apply lookup_ge_None in Hk. apply lookup_lt_Some in Hj'. lia.
Qed.

(** Gap detection is exact on any log.  An id is reported as a gap exactly
    when it was never seen, on a readable line or on an unreadable one that still
    names it, while a higher sequence number of the same instance was; each once.
    So a line of another schema version is never mistaken for a lost write, a lost
    first write is reported, and a lost last one cannot be. *)
Theorem gaps_exact (rs : list AuditRecord) (us : list UnreadableLine) (id : AuditEventId) :
  (id ∈ detect_gaps rs us ↔
     ¬ (id ∈ event_id <$> rs) ∧ ¬ (Some id ∈ unreadable_event_id <$> us) ∧
     ∃ n, (event_sequence id < n)%N ∧
       (mk_AuditEventId (event_instance id) n ∈ event_id <$> rs ∨
        Some (mk_AuditEventId (event_instance id) n) ∈ unreadable_event_id <$> us)) ∧
  NoDup (detect_gaps rs us).
Proof.
  split; [|apply detect_gaps_NoDup]. rewrite detect_gaps_elem. unfold seen.
  split; [intros [Hn (n & ? & ?)]|intros (? & ? & n & ? & ?)].
  - split; [tauto|]. split; [tauto|]. eauto.
  - split; [tauto|]. eauto.
Qed.

(** *** A torn write *)

Lemma append_torn (self : AuditFileSink LogFile C) e k p s :
  let id := mk_AuditEventId (sink_instance self) (sink_next_sequence self) in
  plan (writer self) = Some k :: p →
  record_to_json (Versioned_current (record_of_entry id (audit_now (clock self)).1 e)) = Ok s →
  AuditFileSink_append self e =
    (Err (SinkIo "write failed"),
     mk_AuditFileSink
       (mk_LogFile (contents (writer self) +:+ String.substring 0 k (s +:+ newline)) p)
       (u64_wrapping_add (sink_next_sequence self) 1) (sink_instance self)
       (u64_wrapping_add (failed_writes self) 1) (audit_now (clock self)).2).
Proof.
  cbv zeta. intros Hp Hs. unfold AuditFileSink_append, AuditFileSink_append_locked, AuditFileSink_write_line.
  destruct (audit_now (clock self)) as [at_ clk]. cbn in *. rewrite Hs. cbn. unfold LogFile_write.
  by rewrite Hp.
Qed.

Lemma append_whole (self : AuditFileSink LogFile C) e p s :
  let id := mk_AuditEventId (sink_instance self) (sink_next_sequence self) in
  plan (writer self) = None :: p →
  record_to_json (Versioned_current (record_of_entry id (audit_now (clock self)).1 e)) = Ok s →
  AuditFileSink_append self e =
    (Ok id,
     mk_AuditFileSink (mk_LogFile (contents (writer self) +:+ (s +:+ newline)) p)
       (u64_wrapping_add (sink_next_sequence self) 1) (sink_instance self)
       (failed_writes self) (audit_now (clock self)).2).
Proof.
  cbv zeta. intros Hp Hs. unfold AuditFileSink_append, AuditFileSink_append_locked, AuditFileSink_write_line.
  destruct (audit_now (clock self)) as [at_ clk]. cbn in *. rewrite Hs. cbn. unfold LogFile_write.
  by rewrite Hp.
Qed.

Lemma read_lines_app i ls ls' :
  read_lines i (ls ++ ls') =
    ((read_lines i ls).1 ++ (read_lines (i + len_N ls) ls').1,
     (read_lines i ls).2 ++ (read_lines (i + len_N ls) ls').2).
Proof.
  revert i. induction ls as [|l ls IH]; intros i.
  { cbn. rewrite N.add_0_r. by destruct (read_lines i ls'). }
  cbn [app read_lines]. rewrite IH. unfold len_N. cbn [length].
  replace (i + 1 + N.of_nat (length ls))%N with (i + N.of_nat (S (length ls)))%N by lia.
  destruct (read_lines (i + 1) ls) as [rs us]. destruct (read_line i l) as [[r|u]|]; done.
Qed.

(** What selecting an event answers that was handed out in this log and of which no line
    names the id: it may be lost if something later was recorded. *)
Lemma select_hidden rs us i n (later : Prop) :
  ¬ seen rs us (mk_AuditEventId i n) →
  ((∃ m, seen rs us (mk_AuditEventId i m) ∧ (n < m)%N) ↔ later) →
  let answer := select (mk_LogScan rs us (detect_gaps rs us)) (SelEvent (mk_AuditEventId i n)) in
  (answer = PossiblyLost ↔ later) ∧ (answer = NotFound ↔ ¬ later).
Proof.
  intros Hns Hl. cbv zeta. rewrite select_event_absent.
  2: { cbn. intros r Hr Hid. apply Hns. left. rewrite <-Hid. by apply list_elem_of_fmap_2. }
  cbn [gaps]. assert (mk_AuditEventId i n ∈ detect_gaps rs us ↔ later) as <-.
  { rewrite detect_gaps_elem, <-Hl. cbn. naive_solver. }
  case_decide; split; split; try done; tauto.
Qed.

(** A torn write hides the record after it, for any codec in which the torn line and the
    next one together are a line that is no envelope.  The log held whole lines before;
    afterwards the line is there, names no event, and what was recorded before and after
    is read. *)
Lemma torn_write_hides_next (Hlaws : AuditJsonLaws)
    (Hclock : ∀ c : C, WallClockTime_in_range (audit_now c).1)
    (self : AuditFileSink LogFile C) (lines : list string) (k : nat) (p : list (option nat))
    (e1 e2 : AuditEntry) (es : list AuditEntry) (s1 s2 m : string) :
  let i := sink_instance self in
  let n := sink_next_sequence self in
  let torn := String.substring 0 k (s1 +:+ newline) in
  let '(before, odd) := read_lines 0 lines in
  let '(rs, self') := append_all self (e1 :: e2 :: es) in
  contents (writer self) = log_text lines → Forall one_line lines →
  plan (writer self) = Some k :: None :: p → clean p → Forall AuditEntry_in_range es →
  (n + 2 + len_N es ≤ u64_max)%N → (failed_writes self ≤ n)%N →
  record_to_json (Versioned_current (record_of_entry (mk_AuditEventId i n)
    (audit_now (clock self)).1 e1)) = Ok s1 →
  record_to_json (Versioned_current (record_of_entry (mk_AuditEventId i (n + 1))
    (audit_now (audit_now (clock self)).2).1 e2)) = Ok s2 →
  one_line (torn +:+ s2) → envelope_of_json (torn +:+ s2) = Err m →
  ∃ err rs' kept lines',
    rs = Err err :: Ok (mk_AuditEventId i (n + 1)) :: rs' ∧
    appended i (n + 2) es rs' kept ∧
    Forall2 (λ r s, record_to_json (Versioned_current r) = Ok s) kept lines' ∧
    contents (writer self') = log_text (lines ++ (torn +:+ s2) :: lines') ∧
    str_lines (contents (writer self')) = lines ++ (torn +:+ s2) :: lines' ∧
    read_lines 0 (lines ++ (torn +:+ s2) :: lines') =
      (before ++ kept,
       odd ++ [mk_UnreadableLine (u64_wrapping_add (len_N lines) 1) (UnreadableMalformed m) None]).
Proof.
  intros i n torn. destruct (read_lines 0 lines) as [before odd] eqn:Hb.
  destruct (append_all self (e1 :: e2 :: es)) as [rs self'] eqn:Hrun.
  intros Hcont Hone Hplan Hclean Hes Hn Hf Hs1 Hs2 Hline Hbad.
  assert (u64_wrapping_add n 1 = n + 1)%N as Hn1 by (apply u64_wrapping_add_small; lia).
  assert (u64_wrapping_add (n + 1) 1 = n + 2)%N as Hn2 by (rewrite u64_wrapping_add_small by lia; lia).
  cbn [append_all] in Hrun. rewrite (append_torn self e1 k (None :: p) s1 Hplan Hs1) in Hrun.
  fold n i torn in Hrun. rewrite Hn1 in Hrun.
  set (self1 := mk_AuditFileSink _ _ _ _ _) in Hrun at 1.
  rewrite (append_whole self1 e2 p s2 eq_refl Hs2) in Hrun. cbn [self1 contents writer sink_next_sequence
    sink_instance failed_writes clock] in Hrun. rewrite Hn2 in Hrun.
  set (self2 := mk_AuditFileSink _ _ _ _ _) in Hrun at 1.
  pose proof (append_all_clean Hclock self2 es Hclean Hes) as Ha.
  cbn [self2 writer contents sink_next_sequence sink_instance failed_writes] in Ha.
  rewrite (u64_wrapping_add_small (failed_writes self) 1) in Ha by lia.
  specialize (Ha ltac:(lia) ltac:(lia)). fold self2 in Ha.
  destruct (append_all self2 es) as [rs' self2'] eqn:Hrest. injection Hrun as <- <-.
  destruct Ha as (kept & lines' & Happ & Hj & Hrange & Hc & _).
  exists (SinkIo "write failed"), rs', kept, lines'.
  assert (contents (writer self2') = log_text (lines ++ (torn +:+ s2) :: lines')) as Hall.
  { rewrite Hc, Hcont, log_text_app. cbn [log_text]. by rewrite !string_app_assoc. }
  split; [done|]. split; [done|]. split; [done|]. split; [done|]. split.
  - rewrite Hall. apply str_lines_log_text, Forall_app. split; [done|]. constructor; [done|].
    clear -Hj Hlaws. induction Hj as [|r s kept lines Hs _ IH]; constructor; [|done].
    by eapply json_one_line.
  - rewrite read_lines_app, Hb. cbn [fst snd read_lines].
    rewrite (read_lines_written kept lines') by done.
    unfold read_line. rewrite (ol_blank _ Hline), Hbad. done.
Qed.

End properties.

(** ** Witnesses: a codec that knows two records *)

Module TwoRecords.

Definition at_zero : WallClockTime := mk_WallClockTime 0 0.
#[export] Instance fixed_clock : AuditClock () := { audit_now := λ c, (at_zero, c) }.

Definition status_entry : AuditEntry :=
  entry_of_event (mk_AuthorizationEvent OpAgentStatus AgentStatus sample_peer StatusReported
    (Status (mk_AgentStatusView 1))).

Lemma at_zero_in_range : WallClockTime_in_range at_zero.
Proof. split; [|by vm_compute]. split; by vm_compute. Qed.

Lemma status_entry_in_range : AuditEntry_in_range status_entry.
Proof.
  unfold AuditEntry_in_range, RecordedPeer_in_range, WorkloadIdentity_in_range.
  split_and!; first [by apply Forall_nil_2|by vm_compute].
Qed.

Definition log_instance : IssuerInstanceId := mk_IssuerInstanceId "agent-pid-1-start-7".
Definition log_record (n : N) : AuditRecord :=
  record_of_entry (mk_AuditEventId log_instance n) at_zero status_entry.

#[export] Instance two_to_json : RecordToJson := {
  record_to_json v :=
    if decide (v = Versioned_current (log_record 0)) then Ok "{0}"
    else if decide (v = Versioned_current (log_record 1)) then Ok "{1}" else Err "unsupported"
}.

#[export] Instance two_json : LogJson := {
  Value := ();
  value_get _ _ := None;
  value_as_str _ := None;
  value_as_u64 _ := None;
  envelope_of_json s :=
    if decide (s = "{0}" ∨ s = "{1}") then Ok (mk_Versioned 1 ()) else Err "syntax error";
  record_of_json s :=
    if decide (s = "{0}") then Ok (Versioned_current (log_record 0))
    else if decide (s = "{1}") then Ok (Versioned_current (log_record 1)) else Err "syntax error"
}.

#[export] Instance two_json_laws : AuditJsonLaws.
Proof.
  split; intros r s; [| |intros _|intros _]; cbn -[envelope_of_json record_of_json];
    (case_decide as Hr; [|clear Hr; case_decide as Hr; [|done]]); intros [= <-]; try by split.
  - by exists ().
  - by exists ().
  - injection Hr as ->. by vm_compute.
  - injection Hr as ->. by vm_compute.
Qed.

End TwoRecords.

Import TwoRecords.

(** The first append fails cleanly, the second succeeds. *)
Lemma explain_tells_what_happened_witness :
  ∃ scan, read_log (λ _, file_text (contents (writer (append_all (AuditFileSink_from_writer
      (mk_LogFile "" [Some 0]) log_instance ()) [status_entry; status_entry]).2))) "audit.log" =
    Ok scan ∧
  select scan (SelEvent (mk_AuditEventId log_instance 0)) = PossiblyLost.
Proof.
  destruct (explain_tells_what_happened log_instance () [Some 0] [status_entry; status_entry]
    "audit.log"
    (append_all (AuditFileSink_from_writer (mk_LogFile "" [Some 0]) log_instance ())
      [status_entry; status_entry]).1
    (append_all (AuditFileSink_from_writer (mk_LogFile "" [Some 0]) log_instance ())
      [status_entry; status_entry]).2 _) as (scan & Hread & _ & _ & _ & Hsel).
  - intros c. apply at_zero_in_range.
  - intros k Hk. apply list_elem_of_singleton in Hk. by injection Hk.
  - repeat constructor; apply status_entry_in_range.
  - by vm_compute.
  - by vm_compute.
  - exists scan. split; [exact Hread|]. specialize (Hsel 0).
    change (((append_all (AuditFileSink_from_writer (mk_LogFile "" [Some 0]) log_instance ())
      [status_entry; status_entry]).1) !! 0) with
      (Some (Err (SinkIo "write failed")) : option (result AuditEventId AuditSinkError)) in Hsel.
    apply (proj1 Hsel). exists 1. eexists. split; [lia|reflexivity].
Defined.
