(* ===== verification/Explain.v ===== *)
(** * eltanin-explain

    Models [crates/eltanin-audit/src/bin/eltanin-explain.rs]: the command line, the
    text form of event and lease ids, what is printed and the exit status.  Reading
    the log and selecting from it is [AuditLog].  The derived [Debug] forms in the text of
    a printed record are parameters. *)

From Stdlib Require Import Strings.Ascii.
From S2P Require Import Prelude Text Resource Identity Policy PolicySpec Lease.
From S2P Require Import Peer Backend Protocol LeaseStore Authz AuditRecord AuditLog.

(** [Display for AuditEventId] (record.rs). *)
Definition AuditEventId_display (self : AuditEventId) : string :=
  instance_str (event_instance self) +:+ "#" +:+ pretty (event_sequence self).

Inductive ExplainCliError : Type :=
  | MissingValue (flag : string)
  | NoHash (text : string)
  | InvalidSequence (text : string) (e : ParseIntError)
  | InvalidPid (e : ParseIntError)
  | UnrecognizedArg (other : string)
  | NoLogPath
  | NoSelector
  | LogUnread (e : ExplainError).

Definition parse_event_id (text : string) : result AuditEventId ExplainCliError :=
  let? (i, digits) := ok_or (rsplit_once "#"%char text) (NoHash text) in
  let? n := map_err (InvalidSequence text) (parse_uint u64_max digits) in
  Ok (mk_AuditEventId (mk_IssuerInstanceId i) n).

(** The loop over the arguments. *)
Fixpoint explain_args (argv : list string) (log : option string) (sel : option Selector) :
    result (option string * option Selector) ExplainCliError :=
  match argv with
  | [] => Ok (log, sel)
  | arg :: argv =>
      if decide (arg = "--log") then
        match argv with
        | [] => Err (MissingValue arg)
        | value :: argv => explain_args argv (Some value) sel
        end
      else if decide (arg = "--event") then
        match argv with
        | [] => Err (MissingValue arg)
        | value :: argv =>
            let? id := parse_event_id value in explain_args argv log (Some (SelEvent id))
        end
      else if decide (arg = "--lease") then
        match argv with
        | [] => Err (MissingValue arg)
        | value :: argv =>
            let? id := parse_event_id value in
            explain_args argv log
              (Some (SelLease (mk_LeaseId (event_instance id) (event_sequence id))))
        end
      else if decide (arg = "--pid") then
        match argv with
        | [] => Err (MissingValue arg)
        | value :: argv =>
            let? p := map_err InvalidPid (parse_uint u32_max value) in
            explain_args argv log (Some (SelPid p))
        end
      else Err (UnrecognizedArg arg)
  end.

(** What is printed. *)
Inductive printed : Type :=
  | PrintedRecord (r : AuditRecord)
  | PrintedPossiblyLost
  | PrintedNotFound.

(** [str::repeat] of one character. *)
Fixpoint string_repeat (n : nat) (c : ascii) : string :=
  match n with
  | 0 => EmptyString
  | S n => String c (string_repeat n c)
  end.

(** The derived [Debug] of what [render] shows. *)
Class RecordDebug : Type := {
  operation_debug : RecordedOperation → string;
  requested_debug : RecordedRequest → string;
  consistency_debug : RecordedPeerConsistency → string;
  u32_evidence_debug : Evidence N → string;
  text_evidence_debug : Evidence string → string;
  outcome_debug : RecordedOutcome → string;
  response_debug : AgentResponse → string
}.

(** [{:09}]. *)
Definition zero_padded (width : nat) (n : N) : string :=
  let digits := pretty n in
  string_repeat (width - String.length digits) "0"%char +:+ digits.

(** [render]. *)
Definition render `{RecordDebug} (r : AuditRecord) : string :=
  let w := workload (rec_observed (rec_peer r)) in
  log_text
    (["event: " +:+ AuditEventId_display (event_id r);
      "recorded_at: unix " +:+ pretty (unix_secs (recorded_at r)) +:+ "s." +:+
        zero_padded 9 (nanos (recorded_at r)) +:+ "n";
      "operation: " +:+ operation_debug (rec_operation r);
      "requested: " +:+ requested_debug (requested r);
      "peer: pid=" +:+ pretty (rec_pid (rec_credential (rec_peer r))) +:+ " consistency=" +:+
        consistency_debug (rec_consistency (rec_peer r));
      "workload: uid=" +:+ u32_evidence_debug (uid w) +:+ " executable_path=" +:+
        text_evidence_debug (executable_path w) +:+ " executable_hash=" +:+
        text_evidence_debug (executable_hash w) +:+ " cgroup=" +:+
        text_evidence_debug (cgroup_path (rec_observed (rec_peer r)));
      "outcome: " +:+ outcome_debug (rec_outcome r);
      "response: " +:+ response_debug (rec_response r)] ++
     match requested r with
     | RreqReleaseLease _ =>
         ["note: a release record does not name a resource — correlate to the grant record for the same lease id to recover it."]
     | _ => []
     end).

Section explain.
Context `{LogJson}.

(** [run]: [env_log] is [ELTANIN_AUDIT_LOG] when set to Unicode, [argv] the
    arguments after the program's name. *)
Definition explain_run (read : string → result string string) (env_log : option string)
    (argv : list string) : result (bool * list printed) ExplainCliError :=
  let? (log, sel) := explain_args argv env_log None in
  let? path := ok_or log NoLogPath in
  let? sel := ok_or sel NoSelector in
  let? scan := map_err LogUnread (read_log read path) in
  match select scan sel with
  | Found rs => Ok (true, PrintedRecord <$> rs)
  | PossiblyLost => Ok (false, [PrintedPossiblyLost])
  | NotFound => Ok (false, [PrintedNotFound])
  end.

(** [main]: the exit status and what was printed. *)
Definition explain_main (read : string → result string string) (env_log : option string)
    (argv : list string) : N * list printed :=
  match explain_run read env_log argv with
  | Ok (true, out) => (0%N, out)
  | Ok (false, out) => (2%N, out)
  | Err _ => (1%N, [])
  end.

End explain.

(** ** Lemmas *)

Lemma pretty_no_hash (n : N) : has_char "#"%char (pretty n) = false.
Proof. apply (every_not_has_char is_digit); [done|apply pretty_N_digits]. Qed.

Lemma parse_event_id_display (id : AuditEventId) :
  (event_sequence id ≤ u64_max)%N → parse_event_id (AuditEventId_display id) = Ok id.
Proof.
  intros Hn. unfold parse_event_id, AuditEventId_display.
  change ("#" +:+ pretty (event_sequence id)) with (String "#"%char (pretty (event_sequence id))).
  rewrite rsplit_once_last by apply pretty_no_hash. cbn [ok_or result_bind].
  rewrite parse_uint_pretty by done. cbn. by destruct id as [[] ?].
Qed.

(** The first line of a rendered record is its event id, as the program takes it back. *)
Lemma render_event_line `{RecordDebug} (r : AuditRecord) :
  has_char "010"%char (instance_str (event_instance (event_id r))) = false →
  head (split_inclusive (render r)) = Some ("event: " +:+ AuditEventId_display (event_id r), true).
Proof.
  intros Hi. unfold render. cbn [app log_text]. rewrite split_inclusive_line; [done|].
  unfold AuditEventId_display. rewrite !has_char_app, Hi. cbn.
  apply (every_not_has_char is_digit); [done|apply pretty_N_digits].
Qed.

(** ** Properties *)

(** An event id survives being printed and typed back.  Whatever the instance
    is called, the text of an id parses back to it, so no two ids print alike; and
    whatever else parses names an id whose number fits 64 bits. *)
Theorem event_id_roundtrip (id : AuditEventId) (Hn : (event_sequence id ≤ u64_max)%N) :
  parse_event_id (AuditEventId_display id) = Ok id ∧
  (∀ id', (event_sequence id' ≤ u64_max)%N →
     AuditEventId_display id' = AuditEventId_display id → id' = id) ∧
  (∀ text id', parse_event_id text = Ok id' →
     (event_sequence id' ≤ u64_max)%N ∧
     ∃ digits, text = instance_str (event_instance id') +:+ "#" +:+ digits ∧
       has_char "#"%char digits = false).
Proof.
  split; [by apply parse_event_id_display|]. split.
  - intros id' Hn' Heq. apply parse_event_id_display in Hn, Hn'. rewrite Heq in Hn'. congruence.
  - intros text id'. unfold parse_event_id.
    destruct (rsplit_once "#"%char text) as [[i digits]|] eqn:Hs; [|done].
    apply rsplit_once_Some in Hs as [-> Hd]. cbn [ok_or result_bind].
    destruct (parse_uint u64_max digits) as [n|e] eqn:Hp; [|done]. intros [= <-]. cbn.
    split; [by eapply parse_radix_bound|]. by exists digits.
Qed.

Section properties.
Context {C : Type} `{AuditClock C} `{RecordToJson} `{LogJson}.

(** What the program does when asked for one event of a log. *)
Definition explain_event (contents path : string) (id : AuditEventId) : N * list printed :=
  explain_main (λ _, file_text contents) None ["--log"; path; "--event"; AuditEventId_display id].

Lemma explain_event_select contents path id scan :
  (event_sequence id ≤ u64_max)%N → read_log (λ _, file_text contents) path = Ok scan →
  explain_event contents path id =
    match select scan (SelEvent id) with
    | Found rs => (0%N, PrintedRecord <$> rs)
    | PossiblyLost => (2%N, [PrintedPossiblyLost])
    | NotFound => (2%N, [PrintedNotFound])
    end.
Proof.
  intros Hn Hr. unfold explain_event, explain_main, explain_run.
  assert (explain_args ["--log"; path; "--event"; AuditEventId_display id] None None =
    Ok (Some path, Some (SelEvent id))) as ->.
  { cbn [explain_args]. rewrite decide_True by done. rewrite decide_False by done.
    rewrite decide_True by done. by rewrite parse_event_id_display. }
  cbn [result_bind ok_or]. rewrite Hr. cbn [result_bind map_err].
  by destruct (select scan (SelEvent id)).
Qed.

(** Asking [eltanin-explain] for an event tells what happened to it.  Whatever a
    fresh sink was given to append, and whichever writes failed without tearing the
    file, the program, given the printed id of the [k]-th append, exits with 0 and
    prints exactly that record if the append succeeded; if it failed it exits with 2,
    and says that the record may be lost exactly when a later append succeeded; and an
    id never handed out is not found.  The log has no unreadable line, and the sink's
    counter counts the failures. *)
Theorem explain_answers (i : IssuerInstanceId) (c : C) (p : list (option nat))
    (es : list AuditEntry) (path : string) (rs : list (result AuditEventId AuditSinkError))
    (self : AuditFileSink LogFile C)
    (Hlaws : AuditJsonLaws) (Hclock : ∀ c : C, WallClockTime_in_range (audit_now c).1)
    (Hclean : clean p) (Hes : Forall AuditEntry_in_range es) (Hlen : (len_N es ≤ u64_max)%N)
    (Hrun : append_all (AuditFileSink_from_writer (mk_LogFile "" p) i c) es = (rs, self)) :
  (∃ scan, read_log (λ _, file_text (contents (writer self))) path = Ok scan ∧
     appended i 0 es rs (records scan) ∧ unreadable scan = []) ∧
  failed_writes self = count_err rs ∧
  ∀ k, (N.of_nat k ≤ u64_max)%N →
    let answer := explain_event (contents (writer self)) path (mk_AuditEventId i (N.of_nat k)) in
    match rs !! k with
    | Some (Ok id) => ∃ e at_, es !! k = Some e ∧ event_sequence id = N.of_nat k ∧
        answer = (0%N, [PrintedRecord (record_of_entry id at_ e)])
    | Some (Err _) =>
        (answer = (2%N, [PrintedPossiblyLost]) ↔ ∃ j id, k < j ∧ rs !! j = Some (Ok id)) ∧
        (answer = (2%N, [PrintedNotFound]) ↔ ¬ ∃ j id, k < j ∧ rs !! j = Some (Ok id))
    | None => answer = (2%N, [PrintedNotFound])
    end.
Proof.
  destruct (explain_tells_what_happened i c p es path rs self Hlaws Hclock Hclean Hes Hlen Hrun)
    as (scan & Hread & Happ & Hun & Hfail & Hk).
  split; [by exists scan|]. split; [done|]. intros k Hkmax. cbv zeta.
  rewrite (explain_event_select _ _ (mk_AuditEventId i (N.of_nat k)) scan Hkmax Hread).
  specialize (Hk k).
  destruct (rs !! k) as [[id|err]|].
  - destruct Hk as (-> & e & at_ & He & Hs). rewrite Hs. by exists e, at_.
  - destruct Hk as [Hlost Hnot]. revert Hlost Hnot.
    destruct (select scan _) as [rs'| |]; intros [Hl1 Hl2] [Hn1 Hn2].
    + assert (¬ ∃ j id, k < j ∧ rs !! j = Some (Ok id)) as Hno.
      { intros Hex. by apply Hl2 in Hex. }
      by apply Hn2 in Hno.
    + split; split; [done| |by intros _; apply Hn1|done].
      intros Hex. by apply Hl2 in Hex.
    + split; split; [by intros _; apply Hl1|done|done|].
      intros Hno. exfalso. by apply Hno, Hl1.
  - by rewrite Hk.
Qed.

End properties.

(** ** Witnesses *)

Import TwoRecords.

Lemma event_id_roundtrip_witness :
  parse_event_id "agent-pid-1-start-7#42" = Ok (mk_AuditEventId log_instance 42).
Proof. apply (event_id_roundtrip (mk_AuditEventId log_instance 42)). by vm_compute. Defined.

(** The first append fails cleanly, the second succeeds: the program says that the
    first record may be lost. *)
Lemma explain_answers_witness :
  explain_event (contents (writer (append_all (AuditFileSink_from_writer
      (mk_LogFile "" [Some 0]) log_instance ()) [status_entry; status_entry]).2)) "audit.log"
      (mk_AuditEventId log_instance 0) =
    (2%N, [PrintedPossiblyLost]).
Proof.
  destruct (explain_answers log_instance () [Some 0] [status_entry; status_entry] "audit.log"
    (append_all (AuditFileSink_from_writer (mk_LogFile "" [Some 0]) log_instance ())
      [status_entry; status_entry]).1
    (append_all (AuditFileSink_from_writer (mk_LogFile "" [Some 0]) log_instance ())
      [status_entry; status_entry]).2 _) as (_ & _ & Hsel).
  - intros c. apply at_zero_in_range.
  - intros k Hk. apply list_elem_of_singleton in Hk. by injection Hk.
  - repeat constructor; apply status_entry_in_range.
  - by vm_compute.
  - by vm_compute.
  - specialize (Hsel 0 ltac:(done)).
    change (((append_all (AuditFileSink_from_writer (mk_LogFile "" [Some 0]) log_instance ())
      [status_entry; status_entry]).1) !! 0) with
      (Some (Err (SinkIo "write failed")) : option (result AuditEventId AuditSinkError)) in Hsel.
    apply (proj1 Hsel). exists 1. eexists. split; [lia|reflexivity].
Defined.
