(* ===== verification/Connection.v ===== *)
(** * Serving one connection

    Models [crates/eltanin-agent/src/connection.rs] (one bounded, fail-closed
    request per accepted socket) and the two handlers of [handler.rs].  What
    arrives on the socket is a list of read events, each with the time the thread
    waited for it; a read never returns more than was asked for, and the rest of a
    chunk stays for the next read. *)

From Stdlib Require Import Strings.Byte.
From S2P Require Import Prelude Resource Identity Policy PolicySpec Lease.
From S2P Require Import Peer Backend Protocol LeaseStore Authz AuthzSpec.

(** ** The socket *)

Inductive read_event : Type :=
  | RdBytes (bs : list byte)
  | RdInterrupted
  | RdError.

(** The events still to come, each after a wait of the reading thread; when none
    is left the peer has closed its side. *)
Record stream : Type := mk_stream {
  waited : Duration;
  events : list (Duration * read_event)
}.

(** The bytes still to come. *)
Definition events_data (evs : list (Duration * read_event)) : list byte :=
  mjoin ((λ e, match e.2 with RdBytes bs => bs | _ => [] end) <$> evs).

Definition stream_data (s : stream) : list byte := events_data (events s).

(** ** Reading *)

Inductive ReadOutcome : Type :=
  | Complete
  | Eof
  | Partial.

(** The error of an [io::Result] carries nothing the callers look at. *)
Inductive read_result : Type :=
  | ReadOk (o : ReadOutcome)
  | ReadErr.

(** The [while total < buf.len()] loop: [need] bytes are missing and [got] were
    read.  Every iteration consumes an event, so it recurses on them. *)
Fixpoint read_full_loop (need : nat) (got : list byte) (w : Duration)
    (evs : list (Duration * read_event)) : read_result * list byte * stream :=
  match need with
  | 0 => (ReadOk Complete, got, mk_stream w evs)
  | S _ =>
      let closed := match got with [] => Eof | _ => Partial end in
      match evs with
      | [] => (ReadOk closed, got, mk_stream w [])
      | (d, RdInterrupted) :: evs => read_full_loop need got (w + d) evs
      | (d, RdError) :: evs => (ReadErr, got, mk_stream (w + d) evs)
      | (d, RdBytes []) :: evs => (ReadOk closed, got, mk_stream (w + d) evs)
      | (d, RdBytes bs) :: evs =>
          if decide (need < length bs) then
            (ReadOk Complete, got ++ take need bs,
             mk_stream (w + d) ((0%N, RdBytes (drop need bs)) :: evs))
          else read_full_loop (need - length bs) (got ++ bs) (w + d) evs
      end
  end.

Definition read_full (s : stream) (len : nat) : read_result * list byte * stream :=
  read_full_loop len [] (waited s) (events s).

Inductive FrameRead : Type :=
  | FrameEof
  | FrameFailed
  | FrameOversized
  | FrameOk (body : list byte).

Definition read_frame (s : stream) : FrameRead * stream :=
  let '(r, header, s) := read_full s 4 in
  match r, header with
  | ReadOk Eof, _ => (FrameEof, s)
  | ReadOk Complete, [b0; b1; b2; b3] =>
      match decode_frame_len (b0, b1, b2, b3) with
      | Err _ => (FrameOversized, s)
      | Ok len =>
          let '(r, body, s) := read_full s (N.to_nat len) in
          match r with
          | ReadOk Complete => (FrameOk body, s)
          | _ => (FrameFailed, s)
          end
      end
  | _, _ => (FrameFailed, s)
  end.

(** ** Answering *)

(** A handler as the connection sees it: [None] is a panic, caught by the caller;
    its own state may have changed by then. *)
Class RequestHandler (S : Type) : Type := {
  handler_handle : S → ClientRequest → PeerContext → option AgentResponse * S
}.

(** [StatusOnlyHandler]. *)
Definition StatusOnlyHandler_handle (rq : ClientRequest) : AgentResponse :=
  match rq with
  | AgentStatus => Status (mk_AgentStatusView DOMAIN_SCHEMA_VERSION)
  | RequestLease _ | ReleaseLease _ => ErrorResponse CodeInternal
  end.

#[export] Instance StatusOnlyHandler_handler : RequestHandler () := {
  handler_handle s rq _ := (Some (StatusOnlyHandler_handle rq), s)
}.

Section serve.
Context `{WireCodec} {S : Type} `{RequestHandler S}.

(** The frame written to the socket; [None] is the panic of the fallback's
    [expect].  Write errors are ignored by the code. *)
Definition send (id : option RequestId) (body : AgentResponse) : option (list byte) :=
  match encode_response (Versioned_current (mk_ResponseBody id body)) with
  | Ok framed => Some framed
  | Err _ =>
      match encode_response (Versioned_current (mk_ResponseBody id (ErrorResponse CodeInternal))) with
      | Ok framed => Some framed
      | Err _ => None
      end
  end.

Definition fail (id : option RequestId) (code : ErrorCode) : option (list byte) :=
  send id (ErrorResponse code).

(** What serving left: the frame sent if any, what was not read, the handler's
    state and the call made to it. *)
Record served : Type := mk_served {
  sent : option (list byte);
  unread : stream;
  handler_state : S;
  called : option (ClientRequest * PeerContext)
}.

(** [timeouts_set]: both [set_read_timeout] and [set_write_timeout] succeeded;
    [derived] is the peer source's answer for this socket. *)
Definition serve_connection (s : stream) (timeouts_set : bool)
    (derived : result PeerContext PeerCredentialError) (h : S) : served :=
  if negb timeouts_set then mk_served None s h None
  else
    match derived with
    | Err _ => mk_served (fail None CodeInternal) s h None
    | Ok p =>
        let '(r, s) := read_frame s in
        match r with
        | FrameEof => mk_served None s h None
        | FrameFailed => mk_served (fail None CodeMalformedRequest) s h None
        | FrameOversized => mk_served (fail None CodeOversized) s h None
        | FrameOk body =>
            match decode_request body with
            | Err (VersionError v) =>
                mk_served (fail (peek_request_id body)
                  (CodeUnsupportedVersion (found v) (expected v))) s h None
            | Err Malformed =>
                mk_served (fail (peek_request_id body) CodeMalformedRequest) s h None
            | Err (Framing (Oversized _ _)) =>
                mk_served (fail (peek_request_id body) CodeOversized) s h None
            | Ok rq =>
                let call := (req_body (payload rq), p) in
                let '(answer, h) := handler_handle h (req_body (payload rq)) p in
                mk_served (send (Some (req_id (payload rq)))
                  (default (ErrorResponse CodeInternal) answer)) s h (Some call)
            end
        end
    end.

End serve.
Arguments served S : clear implicits.

(** The authorization handler behind the trait.  Its clock is a sequence of
    readings, of which one call uses at most two; it does not panic. *)
Record agent_world (B K : Type) : Type := mk_agent_world {
  aw_handler : AuthorizationHandler;
  aw_store : LeaseState;
  aw_backend : B;
  aw_sink : K;
  aw_clock : N → MonotonicTime;
  aw_reads : N
}.
Arguments mk_agent_world {B K}.
Arguments aw_handler {B K}.
Arguments aw_store {B K}.
Arguments aw_backend {B K}.
Arguments aw_sink {B K}.
Arguments aw_clock {B K}.
Arguments aw_reads {B K}.

#[export] Instance AuthorizationHandler_handler {B K} `{ComputeBackend B, EventSink K} :
    RequestHandler (agent_world B K) := {
  handler_handle w rq p :=
    let now := aw_clock w (aw_reads w) in
    let later := aw_clock w (aw_reads w + 1)%N in
    let '(resp, st, b, k) :=
      handle (aw_handler w) (aw_store w) (aw_backend w) (aw_sink w) rq p now later in
    (Some resp, mk_agent_world (aw_handler w) st b k (aw_clock w) (aw_reads w + 2)%N)
}.

(** ** Lemmas *)

(** A socket that delivers bytes, possibly interrupted, and never fails. *)
Definition flowing_events (evs : list (Duration * read_event)) : Prop :=
  Forall (λ e, match e.2 with RdInterrupted => True | RdBytes bs => bs ≠ [] | RdError => False end)
    evs.

Definition flowing (s : stream) : Prop := flowing_events (events s).

Lemma events_data_cons d bs evs : events_data ((d, RdBytes bs) :: evs) = bs ++ events_data evs.
Proof. done. Qed.

Lemma events_data_skip d evs : events_data ((d, RdInterrupted) :: evs) = events_data evs.
Proof. done. Qed.

Lemma read_full_loop_flowing evs : ∀ need got w pre post,
  flowing_events evs → events_data evs = pre ++ post → length pre = need →
  ∃ s, read_full_loop need got w evs = (ReadOk Complete, got ++ pre, s) ∧
    stream_data s = post ∧ flowing s.
Proof.
  induction evs as [|[d e] evs IH]; intros need got w pre post Hfl Hd Hlen.
  { symmetry in Hd. apply app_eq_nil in Hd as [-> ->]. cbn in Hlen. subst need.
    exists (mk_stream w []). by rewrite app_nil_r. }
  destruct need as [|need].
  { apply nil_length_inv in Hlen as ->. exists (mk_stream w ((d, e) :: evs)).
    by rewrite app_nil_r. }
  apply Forall_cons in Hfl as [He Hfl]. destruct e as [bs| |]; cbn in He; [|by apply IH|done].
  destruct bs as [|b bs]; [done|]. rewrite events_data_cons in Hd.
  cbn [read_full_loop]. set (l := b :: bs) in *. clearbody l. case_decide as Hlt.
  - rewrite <-Hlen in Hlt |- *. exists (mk_stream (w + d) ((0%N, RdBytes (drop (length pre) l)) :: evs)).
    pose proof (take_app_length' pre post (length pre) eq_refl) as Ht.
    rewrite <-Hd, take_app_le in Ht by lia. rewrite Ht.
    split_and!; [done|..].
    + unfold stream_data. cbn [events]. rewrite events_data_cons, <-(drop_app_le l) by lia.
      by rewrite Hd, drop_app_length.
    + apply Forall_cons. split; [|done]. cbn. intros Hnil%(f_equal length).
      rewrite length_drop in Hnil. cbn [length] in Hnil. lia.
  - assert (length l ≤ length pre) as Hle by lia.
    assert (pre = l ++ drop (length l) pre) as Hpre.
    { rewrite <-(take_drop (length l) pre) at 1. f_equal.
      rewrite <-(take_app_le pre post), <-Hd by done. by rewrite take_app_length. }
    destruct (IH (S need - length l) (got ++ l) (w + d)%N (drop (length l) pre) post)
      as (s & Hr & Hs); [done|..].
    + rewrite Hpre in Hd. rewrite <-app_assoc in Hd. by apply app_inv_head in Hd.
    + rewrite length_drop. lia.
    + exists s. split; [|done]. rewrite Hr. by rewrite <-app_assoc, <-Hpre.
Qed.

(** Reading loses no byte, takes no more than was asked for, and is [Complete]
    exactly when it has all of it. *)
Lemma read_full_loop_exact evs : ∀ need got w r got' s,
  read_full_loop need got w evs = (r, got', s) →
  ∃ new, got' = got ++ new ∧ events_data evs = new ++ stream_data s ∧ length new ≤ need ∧
    (r = ReadOk Complete ↔ length new = need) ∧ (r = ReadOk Eof → got' = []).
Proof.
  induction evs as [|[d e] evs IH]; intros [|need] got w r got' s Hr;
    cbn [read_full_loop] in Hr; simplify_eq.
  - exists []. by rewrite app_nil_r.
  - exists []. rewrite app_nil_r. split_and!; try done; [cbn; lia|by case_match..].
  - exists []. by rewrite app_nil_r.
  - destruct e as [[|b bs]| |]; simplify_eq.
    + exists []. rewrite app_nil_r. split_and!; try done; [cbn; lia|by case_match..].
    + set (l := b :: bs) in *. clearbody l. case_decide as Hlt; simplify_eq.
      * exists (take (S need) l). rewrite length_take.
        split_and!; try done; [|lia|split; [lia|done]].
        unfold stream_data. cbn [events]. by rewrite !events_data_cons, app_assoc, take_drop.
      * apply IH in Hr as (new & -> & Hd & Hl & Hc & He). exists (l ++ new).
        rewrite <-app_assoc, events_data_cons, Hd, length_app.
        split_and!; [done|by rewrite app_assoc|lia|rewrite Hc; lia|by rewrite <-app_assoc in He].
    + apply IH in Hr as (new & Hn). by exists new.
    + exists []. rewrite app_nil_r. split_and!; try done; cbn; lia.
Qed.

Lemma read_full_exact s len r got s' :
  read_full s len = (r, got, s') →
  stream_data s = got ++ stream_data s' ∧ length got ≤ len ∧
  (r = ReadOk Complete ↔ length got = len) ∧ (r = ReadOk Eof → got = []).
Proof. by intros (new & -> & ?)%read_full_loop_exact. Qed.

Lemma read_full_flowing s pre post :
  flowing s → stream_data s = pre ++ post →
  ∃ s', read_full s (length pre) = (ReadOk Complete, pre, s') ∧
    stream_data s' = post ∧ flowing s'.
Proof. intros Hfl Hd. by apply (read_full_loop_flowing _ (length pre) [] (waited s) pre). Qed.

(** What [read_frame] took from the socket, by outcome. *)
Lemma read_frame_exact s r s' :
  read_frame s = (r, s') →
  ∃ taken, stream_data s = taken ++ stream_data s' ∧
    (N.of_nat (length taken) ≤ 4 + MAX_FRAME_BYTES)%N ∧
    match r with
    | FrameEof => taken = []
    | FrameFailed => True
    | FrameOversized => length taken = 4
    | FrameOk body => encode_frame body = Ok taken
    end.
Proof.
  unfold read_frame. destruct (read_full s 4) as [[r1 header] s1] eqn:H1.
  apply read_full_exact in H1 as (Hd & Hl & Hc & He).
  intros Hr. destruct r1 as [[]|]; simplify_eq.
  - pose proof (proj1 Hc eq_refl) as H4. clear Hc He Hl.
    do 4 (destruct header as [|? header]; [done|]). destruct header; [|done].
    destruct (decode_frame_len _) as [len|] eqn:Hlen; simplify_eq.
    2:{ eexists. split; [exact Hd|]. split; [cbn; lia|done]. }
    unfold decode_frame_len in Hlen. case_decide as Hmax; simplify_eq.
    destruct (read_full s1 _) as [[r2 body] s2] eqn:H2.
    apply read_full_exact in H2 as (Hd2 & Hl2 & Hc2 & _).
    rewrite Hd2, app_assoc in Hd.
    destruct r2 as [[]|]; simplify_eq; eexists; (split; [exact Hd|]);
      (split; [rewrite length_app; cbn [length]; lia|]); try done.
    apply encode_frame_Ok. unfold len_N. rewrite (proj1 Hc2 eq_refl), N2Nat.id.
    split; [lia|by rewrite u32_to_from_be].
  - exists []. rewrite He in Hd by done. by split_and!.
  - exists header. split_and!; [done|unfold MAX_FRAME_BYTES; lia|done].
  - exists header. split_and!; [done|unfold MAX_FRAME_BYTES; lia|done].
Qed.

Lemma read_frame_flowing s body frame post :
  flowing s → encode_frame body = Ok frame → stream_data s = frame ++ post →
  ∃ s', read_frame s = (FrameOk body, s') ∧ stream_data s' = post ∧ flowing s'.
Proof.
  intros Hfl [Hmax ->]%encode_frame_Ok. rewrite <-app_assoc. intros Hd.
  destruct (read_full_flowing s _ _ Hfl Hd) as (s1 & H1 & Hd1 & Hfl1).
  unfold read_frame, u32_to_be_bytes in *. cbn [length] in H1. rewrite H1.
  unfold decode_frame_len.
  rewrite u32_from_to_be by (unfold MAX_FRAME_BYTES, u32_max in *; lia).
  rewrite decide_False by lia. unfold len_N at 1. rewrite Nat2N.id.
  destruct (read_full_flowing s1 _ _ Hfl1 Hd1) as (s2 & H2 & Hd2 & Hfl2).
  rewrite H2. by exists s2.
Qed.

(** A client that sends one byte at a time, each [d] after the one before. *)
Definition drip_events (d : Duration) (bs : list byte) : list (Duration * read_event) :=
  (λ b, (d, RdBytes [b])) <$> bs.

Definition drip (d : Duration) (bs : list byte) : stream := mk_stream 0 (drip_events d bs).

Lemma read_full_loop_drip d l post : ∀ got w,
  read_full_loop (length l) got w (drip_events d (l ++ post)) =
    (ReadOk Complete, got ++ l, mk_stream (w + len_N l * d) (drip_events d post)).
Proof.
  induction l as [|b l IH]; intros got w.
  { cbn. rewrite app_nil_r. replace (w + len_N [] * d)%N with w by (unfold len_N; cbn; lia).
    by destruct post. }
  cbn [length app drip_events fmap list_fmap read_full_loop].
  rewrite decide_False by (cbn; lia). cbn [length]. replace (S (length l) - 1) with (length l) by lia.
  change (list_fmap byte _ (λ b, (d, RdBytes [b])) (l ++ post)) with (drip_events d (l ++ post)).
  rewrite IH, <-app_assoc. unfold len_N. cbn [length]. do 2 f_equal. lia.
Qed.

Lemma read_frame_drip d body frame post :
  encode_frame body = Ok frame →
  read_frame (drip d (frame ++ post)) =
    (FrameOk body, mk_stream (len_N frame * d) (drip_events d post)).
Proof.
  intros [Hmax ->]%encode_frame_Ok. rewrite <-app_assoc.
  unfold read_frame, read_full, drip. cbn [waited events].
  rewrite (read_full_loop_drip d (u32_to_be_bytes (len_N body))). unfold u32_to_be_bytes at 1.
  cbn [app]. unfold decode_frame_len.
  rewrite u32_from_to_be by (unfold MAX_FRAME_BYTES, u32_max in *; lia).
  rewrite decide_False by lia. cbn [waited events]. unfold len_N at 1. rewrite Nat2N.id.
  rewrite read_full_loop_drip. unfold len_N. rewrite length_app. cbn [length app u32_to_be_bytes].
  do 2 f_equal. lia.
Qed.

Section serve_lemmas.
Context `{WireCodec} {S : Type} `{RequestHandler S}.

Lemma send_error_only id code f :
  fail id code = Some f →
  ∃ code', encode_response (Versioned_current (mk_ResponseBody id (ErrorResponse code'))) = Ok f.
Proof. unfold fail, send. intros. repeat case_match; simplify_eq; by eexists. Qed.

Lemma send_fits id body f :
  encode_response (Versioned_current (mk_ResponseBody id body)) = Ok f → send id body = Some f.
Proof. intros Hf. unfold send. by rewrite Hf. Qed.

(** A decoded frame, whatever came before it on the way. *)
Lemma serve_connection_frame s body s' p h :
  read_frame s = (FrameOk body, s') →
  serve_connection s true (Ok p) h =
    match decode_request body with
    | Ok rq =>
        let answer := handler_handle h (req_body (payload rq)) p in
        mk_served (send (Some (req_id (payload rq))) (default (ErrorResponse CodeInternal) answer.1))
          s' answer.2 (Some (req_body (payload rq), p))
    | Err (VersionError v) =>
        mk_served (fail (peek_request_id body) (CodeUnsupportedVersion (found v) (expected v)))
          s' h None
    | Err Malformed => mk_served (fail (peek_request_id body) CodeMalformedRequest) s' h None
    | Err (Framing _) => mk_served (fail (peek_request_id body) CodeOversized) s' h None
    end.
Proof.
  intros Hr. unfold serve_connection. cbn [negb]. rewrite Hr.
  destruct (decode_request body) as [rq|[[]| |]]; try done. by destruct (handler_handle _ _ _).
Qed.

(** A whole frame holding a valid request, delivered in whatever chunks: the
    reply sent, the call made, what is left unread, and what the reply decodes
    to.  A request of another version is answered under its id without a
    call. *)
Lemma serve_connection_exchange (Hlaws : WireCodecLaws) (s : stream) (p : PeerContext) (h : S)
    (rq : Request) (f g post : list byte) :
  let current := bool_decide (version rq = DOMAIN_SCHEMA_VERSION) in
  let id := req_id (payload rq) in
  let answer :=
    if current then default (ErrorResponse CodeInternal) (handler_handle h (req_body (payload rq)) p).1
    else ErrorResponse (CodeUnsupportedVersion (version rq) DOMAIN_SCHEMA_VERSION) in
  let reply := Versioned_current (mk_ResponseBody (Some id) answer) in
  Request_in_range rq → AgentResponse_in_range answer →
  encode_request rq = Ok f → flowing s → stream_data s = f ++ post →
  encode_response reply = Ok g →
  let r := serve_connection s true (Ok p) h in
  sent r = Some g ∧
  called r = (if current then Some (req_body (payload rq), p) else None) ∧
  stream_data (unread r) = post ∧
  handler_state r = (if current then (handler_handle h (req_body (payload rq)) p).2 else h) ∧
  ∃ body, split_frame g = Some body ∧ decode_response body = Ok reply.
Proof.
  intros current id answer reply Hrq Hrs Hf Hfl Hd Hg r.
  assert (Response_in_range reply) as Hrange by (split; [done|]; split; [apply Hrq|exact Hrs]).
  destruct (read_frame_flowing s (request_to_json rq) f post Hfl Hf Hd) as (s' & Hr & Hs' & _).
  apply encode_frame_Ok in Hf as [Hmax _].
  assert (decode_request (request_to_json rq) =
    if current then Ok rq
    else Err (VersionError (mk_UnsupportedVersion (version rq) DOMAIN_SCHEMA_VERSION))) as Hdec.
  { unfold decode_request, peek_version, current.
    rewrite decide_False by lia. rewrite json_request_version by done. cbn.
    rewrite json_request_roundtrip by done. case_decide; case_bool_decide; done. }
  unfold r. rewrite (serve_connection_frame _ _ _ _ _ Hr), Hdec.
  split; [|split; [|split; [|split]]].
  - destruct current; cbn; [by apply send_fits|].
    unfold fail, peek_request_id. rewrite json_request_header by done. by apply send_fits.
  - by destruct current.
  - by destruct current.
  - by destruct current.
  - exists (response_to_json reply). split; [by apply split_frame_encode|].
    apply encode_frame_Ok in Hg as [Hmax' _]. unfold decode_response, peek_version.
    rewrite decide_False by lia. rewrite json_response_version by done. cbn.
    by rewrite json_response_roundtrip.
Qed.

End serve_lemmas.

(** ** Properties *)

Section serve_properties.
Context `{WireCodec} {S : Type} `{RequestHandler S}.

(** C23: the contract of [serve_connection], whatever the socket delivers.  The
    handler is called at most once, exactly when the timeouts were set, the
    peer was derived and one whole frame holding a valid request was read, and
    then with that request and the peer of this socket; in every other case its
    state is untouched and the only thing that can be sent is an [Error].  No
    byte is lost or read twice, no more than one frame is taken from the socket,
    nothing at all from a peer that could not be identified, and of an oversized
    frame the four header bytes only. *)
Theorem serve_connection_contract (s : stream) (timeouts_set : bool)
    (derived : result PeerContext PeerCredentialError) (h : S) :
  let r := serve_connection s timeouts_set derived h in
  (∀ rq p, called r = Some (rq, p) ↔
     timeouts_set = true ∧ derived = Ok p ∧
     ∃ body q, (read_frame s).1 = FrameOk body ∧ decode_request body = Ok q ∧
       req_body (payload q) = rq) ∧
  match called r with
  | Some (rq, p) => handler_state r = (handler_handle h rq p).2
  | None => handler_state r = h ∧
      ∀ f, sent r = Some f → ∃ id code,
        encode_response (Versioned_current (mk_ResponseBody id (ErrorResponse code))) = Ok f
  end ∧
  (∃ taken, stream_data s = taken ++ stream_data (unread r) ∧
    (len_N taken ≤ 4 + MAX_FRAME_BYTES)%N ∧
    (timeouts_set = false ∨ (∃ e, derived = Err e) → taken = []) ∧
    ((read_frame s).1 = FrameOversized → length taken ≤ 4)).
Proof.
  intros r. destruct timeouts_set, derived as [p0|e] eqn:Hdv; cbn [negb] in *.
  - destruct (read_frame s) as [fr s'] eqn:Hf. cbn [fst].
    pose proof (read_frame_exact s fr s' Hf) as (taken & Hd & Hmax & Hfr).
    assert (unread r = s') as Hun.
    { unfold r, serve_connection. cbn [negb]. rewrite Hf.
      destruct fr; try done. destruct (decode_request body) as [|[[]| |]]; try done.
      by destruct (handler_handle _ _ _). }
    split; [|split].
    + intros rq p. split.
      * unfold r, serve_connection. cbn [negb]. rewrite Hf.
        destruct fr; try done. destruct (decode_request body) as [q|[[]| |]] eqn:Hq; try done.
        destruct (handler_handle _ _ _). intros [= <- <-]. eauto 10.
      * intros (_ & [= <-] & body & q & -> & Hq & <-).
        unfold r. by rewrite (serve_connection_frame _ _ _ _ _ Hf), Hq.
    + destruct fr as [| | |body].
      * unfold r, serve_connection. cbn [negb]. by rewrite Hf.
      * unfold r, serve_connection. cbn [negb]. rewrite Hf. cbn. eauto using send_error_only.
      * unfold r, serve_connection. cbn [negb]. rewrite Hf. cbn. eauto using send_error_only.
      * unfold r. rewrite (serve_connection_frame _ _ _ _ _ Hf).
        destruct (decode_request body) as [q|[[]| |]]; cbn; eauto using send_error_only.
    + exists taken. rewrite Hun. split_and!; try done.
      * by intros [|[]].
      * intros ->. by rewrite Hfr.
  - split_and!; try done.
    + intros rq p. split; [done|]. by intros (_ & ? & _).
    + unfold r, serve_connection. cbn. eauto using send_error_only.
    + exists []. split_and!; try done. cbn. lia.
  - split_and!; try done.
    + intros rq p. split; [done|]. by intros (? & _).
    + exists []. split_and!; try done. cbn. lia.
  - split_and!; try done.
    + intros rq p. split; [done|]. by intros (? & _).
    + exists []. split_and!; try done. cbn. lia.
Qed.

(** Framing survives any delivery.  However the network splits and joins the
    bytes of a frame, with interruptions anywhere between them, [read_frame]
    returns the payload that was framed and leaves what follows it unread; and it
    returns a payload only when its frame is what it took. *)
Theorem read_frame_any_chunking (s s' : stream) (body frame post : list byte) :
  (flowing s → encode_frame body = Ok frame → stream_data s = frame ++ post →
    (read_frame s).1 = FrameOk body ∧ stream_data (read_frame s).2 = post) ∧
  (read_frame s = (FrameOk body, s') →
    ∃ frame, encode_frame body = Ok frame ∧ stream_data s = frame ++ stream_data s').
Proof.
  split.
  - intros Hfl He Hd. by destruct (read_frame_flowing s body frame post Hfl He Hd) as (s'' & -> & ? & _).
  - intros (taken & ? & _ & ?)%read_frame_exact. by exists taken.
Qed.

(** [io_timeout] bounds each read and not the connection.  A client that
    sends its request a byte at a time, pausing less than [io_timeout] before
    each, is served normally, and has by then held its thread for the length of
    the frame times the pause: with a pause over half of [io_timeout], longer
    than twice [io_timeout] for any request at all. *)
Theorem io_timeout_not_a_connection_bound (Hlaws : WireCodecLaws) (io_timeout d : Duration)
    (p : PeerContext) (h : S) (rq : Request) (f : list byte) :
  (d < io_timeout < 2 * d)%N → Request_in_range rq → encode_request rq = Ok f → version rq = DOMAIN_SCHEMA_VERSION →
  let s := drip d f in
  let r := serve_connection s true (Ok p) h in
  Forall (λ e, e.1 < io_timeout)%N (events s) ∧
  called r = Some (req_body (payload rq), p) ∧
  waited (unread r) = (len_N f * d)%N ∧
  (2 * io_timeout < waited (unread r))%N.
Proof.
  intros Hd Hrq Hf Hv s r.
  pose proof (read_frame_drip d (request_to_json rq) f [] Hf) as Hr.
  rewrite app_nil_r in Hr. unfold r, s.
  rewrite (serve_connection_frame _ _ _ _ _ Hr).
  apply encode_frame_Ok in Hf as [Hmax Hf].
  unfold decode_request, peek_version. rewrite decide_False by lia.
  rewrite json_request_version by done. cbn [ok_or result_bind]. rewrite decide_False by (by intros []).
  rewrite json_request_roundtrip by done. cbn [ok_or called unread waited]. split_and!; try done.
  - unfold drip, drip_events. cbn [events]. apply Forall_fmap, Forall_true. intros b. cbn. lia.
  - assert (4 ≤ len_N f)%N by (rewrite Hf; unfold len_N; rewrite length_app; cbn [length u32_to_be_bytes]; lia).
    nia.
Qed.

End serve_properties.

(** ** Witnesses *)

Import Fake.

(** A frame delivered in three chunks with interruptions, and the start of the
    next one behind it. *)
Definition sample_chunks (f : list byte) : stream :=
  mk_stream 0 [(1, RdBytes (take 2 f)); (0, RdInterrupted); (1, RdBytes (take 3 (drop 2 f)));
               (2, RdInterrupted); (1, RdBytes (drop 5 f ++ [x00; x01]))]%N.

Definition sample_agent : agent_world FakeBackend () :=
  mk_agent_world sample_handler sample_store sample_backend () (λ n, mk_MonotonicTime n) 1.
Definition sample_granted_reply : Response :=
  Versioned_current (mk_ResponseBody (Some (mk_RequestId 7))
    (LeaseGranted (mk_LeaseView (mk_LeaseId sample_instance 0) 299))).
Definition sample_ask : Request :=
  Versioned_current (mk_RequestBody (mk_RequestId 7) (RequestLease sample_lease_request)).
Definition sample_ask_frame : list byte := framed (@request_to_json BitCodec.codec sample_ask).

Lemma flowing_sample_chunks : flowing (sample_chunks sample_ask_frame).
Proof. repeat constructor; by vm_compute. Qed.

Lemma read_frame_any_chunking_witness :
  (read_frame (sample_chunks sample_ask_frame)).1 =
    FrameOk (@request_to_json BitCodec.codec sample_ask).
Proof.
  destruct (proj1 (read_frame_any_chunking (sample_chunks sample_ask_frame)
    (sample_chunks sample_ask_frame) (@request_to_json BitCodec.codec sample_ask) sample_ask_frame
    [x00; x01])) as [Hr _].
  - apply flowing_sample_chunks.
  - by vm_compute.
  - by vm_compute.
  - exact Hr.
Defined.

(** Pauses of three seconds under a timeout of five. *)
Lemma io_timeout_not_a_connection_bound_witness :
  (2 * 5 < waited (unread (@serve_connection BitCodec.codec _ StatusOnlyHandler_handler
    (drip 3 (framed (@request_to_json BitCodec.codec sample_wire_request))) true
    (Ok sample_peer) ())))%N.
Proof.
  apply (@io_timeout_not_a_connection_bound BitCodec.codec _ StatusOnlyHandler_handler
    BitCodec.codec_laws 5 3 sample_peer () sample_wire_request
    (framed (@request_to_json BitCodec.codec sample_wire_request))).
  - lia.
  - by vm_compute.
  - by vm_compute.
  - done.
Defined.
