(* ===== verification/Wire.v ===== *)
(** * The messages as JSON

    The serde attributes of the types that cross the socket
    ([eltanin-protocol/src/request.rs], [response.rs]; the identifiers, resources and
    the envelope of [eltanin-core]) and the peeks of [framing.rs], written with the
    operations of [Json]: field names and their order, [deny_unknown_fields],
    [transparent], [rename_all], [tag], [other].  They make the codec that [Protocol]
    takes as a parameter, and say which documents a peer accepts. *)

From Stdlib Require Import Strings.Byte.
From S2P Require Import Prelude Json Resource Identity Policy PolicySpec Lease Peer Backend.
From S2P Require Import Protocol Schema LeaseStore Authz AuthzSpec Connection.

Section wire.
Context `{SerdeJson}.

(** ** Requests (request.rs) *)

#[export] Instance RequestId_serde : Serde RequestId := {
  ser i := uint_ser (request_id_num i);
  de j := mk_RequestId <$> visit_uint u64_max j
}.

#[export] Instance LeaseRequest_serde : Serde LeaseRequest := {
  ser r := JObj [("resource", ser (lr_resource r)); ("action", ser (lr_action r))];
  de j :=
    fields ← visit_struct true ["resource"; "action"] j;
    match fields with
    | [r; a] => r ← required de r; a ← required de a; Some (mk_LeaseRequest r a)
    | _ => None
    end
}.

#[export] Instance ReleaseRequest_serde : Serde ReleaseRequest := {
  ser r := JObj [("lease_id", ser (rr_lease_id r))];
  de j :=
    fields ← visit_struct true ["lease_id"] j;
    match fields with
    | [i] => i ← required de i; Some (mk_ReleaseRequest i)
    | _ => None
    end
}.

(** [AgentStatus {}] is a struct variant without fields, under the enum's
    [deny_unknown_fields]. *)
#[export] Instance ClientRequest_serde : Serde ClientRequest := {
  ser rq :=
    match rq with
    | RequestLease r => tag_object "op" "request_lease" (ser r)
    | ReleaseLease r => tag_object "op" "release_lease" (ser r)
    | AgentStatus => JObj [("op", JStr "agent_status")]
    end;
  de j :=
    '(op, rest) ← visit_tagged "op" j;
    if decide (op = "request_lease") then RequestLease <$> de rest
    else if decide (op = "release_lease") then ReleaseLease <$> de rest
    else if decide (op = "agent_status") then
      fields ← visit_struct true [] rest;
      match fields with [] => Some AgentStatus | _ => None end
    else None
}.

#[export] Instance RequestBody_serde : Serde RequestBody := {
  ser r := JObj [("request_id", ser (req_id r)); ("body", ser (req_body r))];
  de j :=
    fields ← visit_struct true ["request_id"; "body"] j;
    match fields with
    | [i; b] => i ← required de i; b ← required de b; Some (mk_RequestBody i b)
    | _ => None
    end
}.

(** ** Responses (response.rs) *)

#[export] Instance LeaseView_serde : Serde LeaseView := {
  ser v := JObj [("lease_id", ser (view_lease_id v)); ("remaining", duration_ser (view_remaining v))];
  de j :=
    fields ← visit_struct false ["lease_id"; "remaining"] j;
    match fields with
    | [i; d] => i ← required de i; d ← required duration_de d; Some (mk_LeaseView i d)
    | _ => None
    end
}.

#[export] Instance DenialReason_serde : Serde DenialReason := {
  ser d := JStr (match d with
                 | DrNoMatchingRule => "no_matching_rule"
                 | DrExplicitDeny => "explicit_deny"
                 | DrIndeterminateEvidence => "indeterminate_evidence"
                 end);
  de j :=
    name ← visit_enum j;
    if decide (name = "no_matching_rule") then Some DrNoMatchingRule
    else if decide (name = "explicit_deny") then Some DrExplicitDeny
    else if decide (name = "indeterminate_evidence") then Some DrIndeterminateEvidence
    else None
}.

#[export] Instance ReleaseOutcome_serde : Serde ReleaseOutcome := {
  ser o := JStr (match o with Protocol.Released => "released" | Refused => "refused" end);
  de j :=
    name ← visit_enum j;
    if decide (name = "released") then Some Protocol.Released
    else if decide (name = "refused") then Some Refused
    else None
}.

#[export] Instance AgentStatusView_serde : Serde AgentStatusView := {
  ser s := JObj [("protocol_version", uint_ser (protocol_version s))];
  de j :=
    fields ← visit_struct false ["protocol_version"] j;
    match fields with
    | [v] => v ← required (visit_uint u16_max) v; Some (mk_AgentStatusView v)
    | _ => None
    end
}.

(** The other members of a unit variant's object are not looked at. *)
#[export] Instance ErrorCode_serde : Serde ErrorCode := {
  ser c :=
    match c with
    | CodeUnsupportedVersion f e =>
        JObj [("error", JStr "unsupported_version"); ("found", uint_ser f); ("expected", uint_ser e)]
    | CodeMalformedRequest => JObj [("error", JStr "malformed_request")]
    | CodeOversized => JObj [("error", JStr "oversized")]
    | CodeUnknownOperation => JObj [("error", JStr "unknown_operation")]
    | CodeInternal => JObj [("error", JStr "internal")]
    end;
  de j :=
    '(name, rest) ← visit_tagged "error" j;
    if decide (name = "unsupported_version") then
      fields ← visit_struct false ["found"; "expected"] rest;
      match fields with
      | [f; e] =>
          f ← required (visit_uint u16_max) f; e ← required (visit_uint u16_max) e;
          Some (CodeUnsupportedVersion f e)
      | _ => None
      end
    else if decide (name = "malformed_request") then Some CodeMalformedRequest
    else if decide (name = "oversized") then Some CodeOversized
    else if decide (name = "unknown_operation") then Some CodeUnknownOperation
    else if decide (name = "internal") then Some CodeInternal
    else None
}.

#[export] Instance AgentResponse_serde : Serde AgentResponse := {
  ser a :=
    match a with
    | LeaseGranted v => JObj [("result", JStr "lease_granted"); ("lease", ser v)]
    | LeaseDenied d => JObj [("result", JStr "lease_denied"); ("reason", ser d)]
    | LeaseReleased o => JObj [("result", JStr "lease_released"); ("outcome", ser o)]
    | Status s => JObj [("result", JStr "status"); ("status", ser s)]
    | ErrorResponse c => JObj [("result", JStr "error"); ("code", ser c)]
    end;
  de j :=
    '(name, rest) ← visit_tagged "result" j;
    if decide (name = "lease_granted") then LeaseGranted <$> one_field de "lease" rest
    else if decide (name = "lease_denied") then LeaseDenied <$> one_field de "reason" rest
    else if decide (name = "lease_released") then LeaseReleased <$> one_field de "outcome" rest
    else if decide (name = "status") then Status <$> one_field de "status" rest
    else if decide (name = "error") then ErrorResponse <$> one_field de "code" rest
    else None
}.

(** [request_id] is an [Option]: [null] when there is none. *)
#[export] Instance ResponseBody_serde : Serde ResponseBody := {
  ser r := JObj [("request_id", match resp_id r with Some i => ser i | None => JNull end);
                 ("body", ser (resp_body r))];
  de j :=
    fields ← visit_struct false ["request_id"; "body"] j;
    match fields with
    | [i; b] => i ← optional de i; b ← required de b; Some (mk_ResponseBody i b)
    | _ => None
    end
}.

(** ** The peeks (framing.rs) *)

Definition VersionPeek_de : Json → option N := one_field (visit_uint u16_max) "version".

Definition HeaderPayloadPeek_de : Json → option RequestId := one_field de "request_id".

Definition HeaderPeek_de : Json → option RequestId := one_field HeaderPayloadPeek_de "payload".

(** The codec of [framing.rs]. *)
Definition serde_codec : WireCodec := {|
  json_version_peek := from_slice VersionPeek_de;
  json_header_peek := from_slice HeaderPeek_de;
  json_to_request := from_slice (de (A := Request));
  json_to_response := from_slice (de (A := Response));
  request_to_json r := to_vec (ser r);
  response_to_json r := to_vec (ser r)
|}.

(** ** Round trips *)

Context (Hlaws : SerdeJsonLaws).

#[local] Hint Resolve uint_roundtrip string_roundtrip LeaseId_roundtrip
  ResourceIdentity_roundtrip Action_roundtrip one_field_single : roundtrip.

Lemma RequestId_roundtrip : roundtrips (λ i, request_id_num i ≤ u64_max)%N.
Proof. intros [n] Hn. cbn [ser de RequestId_serde request_id_num] in *. roundtrip Hlaws. Qed.

Lemma LeaseRequest_roundtrip (r : LeaseRequest) : de (ser r) = Some r.
Proof.
  destruct r as [r a]. cbn [ser de LeaseRequest_serde lr_resource lr_action]. roundtrip Hlaws.
Qed.

Lemma ReleaseRequest_roundtrip : roundtrips (λ r, LeaseId_in_range (rr_lease_id r)).
Proof. intros [i] Hi. cbn [ser de ReleaseRequest_serde rr_lease_id] in *. roundtrip Hlaws. Qed.

Lemma ClientRequest_roundtrip : roundtrips ClientRequest_in_range.
Proof.
  intros [[r a]|[i]|] Hr; cbn [de ClientRequest_serde].
  - pose proof (LeaseRequest_roundtrip (mk_LeaseRequest r a)) as Hd.
    cbn [ser ClientRequest_serde LeaseRequest_serde lr_resource lr_action tag_object] in *.
    roundtrip Hlaws.
  - pose proof (ReleaseRequest_roundtrip (mk_ReleaseRequest i) Hr) as Hd.
    cbn [ser ClientRequest_serde ReleaseRequest_serde rr_lease_id tag_object] in *.
    roundtrip Hlaws.
  - cbn [ser ClientRequest_serde]. roundtrip Hlaws.
Qed.

#[local] Hint Resolve RequestId_roundtrip ClientRequest_roundtrip : roundtrip.

Lemma RequestBody_roundtrip :
  roundtrips (λ r, (request_id_num (req_id r) ≤ u64_max)%N ∧ ClientRequest_in_range (req_body r)).
Proof.
  intros [i b] [Hi Hb]. cbn [ser de RequestBody_serde req_id req_body] in *. roundtrip Hlaws.
Qed.

Lemma LeaseView_roundtrip :
  roundtrips (λ v, LeaseId_in_range (view_lease_id v) ∧ (view_remaining v ≤ Duration_max)%N).
Proof.
  intros [i d] [Hi Hd]. pose proof (duration_roundtrip d Hd).
  cbn [ser de LeaseView_serde view_lease_id view_remaining] in *. roundtrip Hlaws.
Qed.

Lemma DenialReason_roundtrip (d : DenialReason) : de (ser d) = Some d.
Proof. by destruct d; cbn [ser de DenialReason_serde]; rewrite visit_enum_str. Qed.

Lemma ReleaseOutcome_roundtrip (o : ReleaseOutcome) : de (ser o) = Some o.
Proof. by destruct o; cbn [ser de ReleaseOutcome_serde]; rewrite visit_enum_str. Qed.

Lemma AgentStatusView_roundtrip : roundtrips (λ s, protocol_version s ≤ u16_max)%N.
Proof.
  intros [v] Hv. cbn [ser de AgentStatusView_serde protocol_version] in *. roundtrip Hlaws.
Qed.

Lemma ErrorCode_roundtrip :
  roundtrips (λ c, match c with
    | CodeUnsupportedVersion f e => (f ≤ u16_max)%N ∧ (e ≤ u16_max)%N
    | _ => True end).
Proof.
  intros [f e| | | |] Hc; [destruct Hc|..]; cbn [ser de ErrorCode_serde]; roundtrip Hlaws.
Qed.

#[local] Hint Resolve LeaseView_roundtrip DenialReason_roundtrip ReleaseOutcome_roundtrip
  AgentStatusView_roundtrip ErrorCode_roundtrip : roundtrip.

Lemma AgentResponse_roundtrip : roundtrips AgentResponse_in_range.
Proof.
  intros a Ha. assert (∀ c, a = ErrorResponse c → de (ser c) = Some c) as Hcode.
  { intros c ->. by apply ErrorCode_roundtrip; destruct c. }
  destruct a; cbn [ser de AgentResponse_serde AgentResponse_in_range] in *; roundtrip Hlaws.
Qed.

Lemma ResponseBody_roundtrip :
  roundtrips (λ r, from_option (λ i, request_id_num i ≤ u64_max)%N True (resp_id r) ∧
    AgentResponse_in_range (resp_body r)).
Proof.
  intros [i b] [Hi Hb]. pose proof (AgentResponse_roundtrip b Hb) as Hd.
  assert (optional de (Some (match i with Some i => ser i | None => JNull end)) = Some i) as Ho.
  { destruct i; [by apply (optional_Some Hlaws); [|apply RequestId_roundtrip]|].
    cbn [optional]. by rewrite visit_option_null. }
  cbn [ser de ResponseBody_serde resp_id resp_body] in *. roundtrip Hlaws.
Qed.

(** ** What is written can be read *)

#[local] Hint Resolve ResourceIdentity_readable LeaseId_readable duration_readable : readable.

Lemma Request_readable (r : Request) : Request_in_range r → readable recursion_limit (ser r).
Proof.
  intros (Hv & Hi & Hb). apply Versioned_readable; [done|].
  destruct (payload r) as [[i] b]. cbn [ser RequestBody_serde req_id req_body request_id_num] in *.
  destruct b as [[rs a]|[id]|];
    cbn [ser ClientRequest_serde LeaseRequest_serde ReleaseRequest_serde tag_object
         lr_resource lr_action rr_lease_id ClientRequest_in_range] in *; readable.
Qed.

Lemma AgentResponse_readable d (a : AgentResponse) :
  AgentResponse_in_range a → readable (S (S (S d))) (ser a).
Proof.
  intros Ha. destruct a as [[i t]|[]|[]|[v]|[]]; cbn [ser AgentResponse_serde] in *;
    cbn [AgentResponse_in_range view_lease_id view_remaining protocol_version] in Ha;
    repeat match type of Ha with _ ∧ _ => destruct Ha end; readable.
Qed.

#[local] Hint Resolve AgentResponse_readable : readable.

Lemma Response_readable (r : Response) : Response_in_range r → readable recursion_limit (ser r).
Proof.
  intros (Hv & Hi & Hb). apply Versioned_readable; [done|].
  destruct (payload r) as [[[i]|] b]; cbn [ser ResponseBody_serde resp_id resp_body from_option] in *;
    readable.
Qed.

(** ** Which documents are read *)

(** The version and the request id of an envelope, whatever else it holds. *)
Lemma VersionPeek_Some ms v :
  VersionPeek_de (JObj ms) = Some v ↔
    named "version" ms = [("version", uint_ser v)] ∧ (v ≤ u16_max)%N.
Proof.
  unfold VersionPeek_de. rewrite (one_field_Some Hlaws). setoid_rewrite (visit_uint_Some Hlaws).
  naive_solver.
Qed.

Lemma RequestId_Some j i :
  de j = Some i ↔ j = uint_ser (request_id_num i) ∧ (request_id_num i ≤ u64_max)%N.
Proof.
  cbn [de RequestId_serde]. rewrite fmap_Some. setoid_rewrite (visit_uint_Some Hlaws).
  destruct i as [n]. naive_solver.
Qed.

(** A request that was read fits, whatever document it was read from. *)
Lemma ClientRequest_read j (rq : ClientRequest) : de j = Some rq → ClientRequest_in_range rq.
Proof.
  cbn [de ClientRequest_serde]. intros ([op rest] & _ & Hd)%bind_Some.
  case_decide; [by apply fmap_Some in Hd as (q & _ & ->)|]. case_decide.
  - apply fmap_Some in Hd as (q & Hd & ->). cbn [de ReleaseRequest_serde] in Hd.
    apply bind_Some in Hd as ([|oi []] & _ & Hd); try done.
    apply bind_Some in Hd as (i & Hi & [= <-]). apply bind_Some in Hi as (ji & _ & Hi).
    by eapply (LeaseId_read Hlaws).
  - case_decide; [|done]. apply bind_Some in Hd as ([|] & _ & Hd); [|done]. by injection Hd as <-.
Qed.

Lemma Request_read body r : decode_request (H := serde_codec) body = Ok r →
  (request_id_num (req_id (payload r)) ≤ u64_max)%N ∧ ClientRequest_in_range (req_body (payload r)).
Proof.
  unfold decode_request. case_decide; [done|]. destruct (peek_version body); [|done].
  cbn [ok_or result_bind]. case_decide; [done|]. cbn [json_to_request serde_codec].
  destruct (from_slice _ body) as [r'|] eqn:Hr; [|done]. cbn [ok_or]. intros [= ->].
  apply from_slice_Some in Hr as [j Hj]. cbn [de Versioned_serde] in Hj.
  apply bind_Some in Hj as ([|ov [|op []]] & _ & Hj); try done.
  apply bind_Some in Hj as (v & _ & Hj). apply bind_Some in Hj as (p & Hp & [= <-]).
  apply bind_Some in Hp as (jp & _ & Hp). cbn [payload]. cbn [de RequestBody_serde] in Hp.
  apply bind_Some in Hp as ([|oi [|ob []]] & _ & Hp); try done.
  apply bind_Some in Hp as (i & Hi & Hp). apply bind_Some in Hp as (b & Hb & [= <-]).
  apply bind_Some in Hi as (ji & _ & Hi). apply bind_Some in Hb as (jb & _ & Hb).
  apply RequestId_Some in Hi as [_ ?]. apply ClientRequest_read in Hb. by split.
Qed.

Lemma HeaderPeek_Some ms i :
  HeaderPeek_de (JObj ms) = Some i ↔ ∃ p, named "payload" ms = [("payload", p)] ∧
    HeaderPayloadPeek_de p = Some i.
Proof. apply (one_field_Some Hlaws). Qed.

Lemma HeaderPayloadPeek_Some ms i :
  HeaderPayloadPeek_de (JObj ms) = Some i ↔
    named "request_id" ms = [("request_id", uint_ser (request_id_num i))] ∧
    (request_id_num i ≤ u64_max)%N.
Proof.
  unfold HeaderPayloadPeek_de. rewrite (one_field_Some Hlaws). setoid_rewrite RequestId_Some. naive_solver.
Qed.

(** Structs with [deny_unknown_fields]: exactly their fields. *)
Lemma RequestBody_Some ms (r : RequestBody) :
  de (JObj ms) = Some r ↔
    ∃ jb, ms ≡ₚ [("request_id", uint_ser (request_id_num (req_id r))); ("body", jb)] ∧
      (request_id_num (req_id r) ≤ u64_max)%N ∧ de jb = Some (req_body r).
Proof.
  cbn [de RequestBody_serde]. rewrite visit_struct_object. split.
  - intros ([|oi [|ob []]] & Hf & Hr)%bind_Some; try done.
    apply bind_Some in Hr as (i & Hi & Hr). apply bind_Some in Hr as (b & Hb & [= <-]).
    apply bind_Some in Hi as (ji & -> & Hi). apply bind_Some in Hb as (jb & -> & Hb).
    apply RequestId_Some in Hi as [-> Hle]. exists jb.
    apply (object_fields_exact ["request_id"; "body"] ms [_; jb]) in Hf as [_ Hp]; [done|].
    by apply (bool_decide_unpack _); vm_compute.
  - intros (jb & Hp & Hle & Hb).
    assert (object_fields true ["request_id"; "body"] ms =
      Some [Some (uint_ser (request_id_num (req_id r))); Some jb]) as ->.
    { apply (object_fields_exact ["request_id"; "body"] ms [uint_ser (request_id_num (req_id r)); jb]); [|done].
      by apply (bool_decide_unpack _); vm_compute. }
    cbn [mbind option_bind required]. rewrite (proj2 (RequestId_Some _ (req_id r))) by done.
    cbn [mbind option_bind]. rewrite Hb. cbn. by destruct r.
Qed.

Lemma LeaseRequest_Some ms (r : LeaseRequest) :
  de (JObj ms) = Some r ↔
    ∃ jr ja, ms ≡ₚ [("resource", jr); ("action", ja)] ∧
      de jr = Some (lr_resource r) ∧ de ja = Some (lr_action r).
Proof.
  cbn [de LeaseRequest_serde]. rewrite visit_struct_object. split.
  - intros ([|oi [|ob []]] & Hf & Hr)%bind_Some; try done.
    apply bind_Some in Hr as (i & Hi & Hr). apply bind_Some in Hr as (b & Hb & [= <-]).
    apply bind_Some in Hi as (ji & -> & Hi). apply bind_Some in Hb as (jb & -> & Hb).
    exists ji, jb. split; [|done].
    apply (object_fields_exact ["resource"; "action"] ms [ji; jb]) in Hf as [_ Hp]; [done|].
    by apply (bool_decide_unpack _); vm_compute.
  - intros (jr & ja & Hp & Hr & Ha).
    assert (object_fields true ["resource"; "action"] ms = Some [Some jr; Some ja]) as ->.
    { apply (object_fields_exact ["resource"; "action"] ms [jr; ja]); [|done].
      by apply (bool_decide_unpack _); vm_compute. }
    cbn [mbind option_bind required]. rewrite Hr. cbn [mbind option_bind]. rewrite Ha. cbn.
    by destruct r.
Qed.

Lemma ReleaseRequest_Some ms (r : ReleaseRequest) :
  de (JObj ms) = Some r ↔
    ∃ ji, ms = [("lease_id", ji)] ∧ de ji = Some (rr_lease_id r).
Proof.
  cbn [de ReleaseRequest_serde]. rewrite visit_struct_object. split.
  - intros ([|oi []] & Hf & Hr)%bind_Some; try done.
    apply bind_Some in Hr as (i & Hi & [= <-]). apply bind_Some in Hi as (ji & -> & Hi).
    exists ji. split; [|done].
    apply (object_fields_exact ["lease_id"] ms [ji]) in Hf as [_ Hp]; [|apply NoDup_singleton].
    by apply Permutation_singleton_r in Hp.
  - intros (ji & -> & Hi).
    assert (object_fields true ["lease_id"] [("lease_id", ji)] = Some [Some ji]) as ->.
    { by apply (object_fields_exact ["lease_id"] _ [ji]); [apply NoDup_singleton|]. }
    cbn [mbind option_bind required]. rewrite Hi. cbn. by destruct r.
Qed.

(** The operation is the tag, and the rest is exactly what it takes. *)
Lemma ClientRequest_Some ms (rq : ClientRequest) :
  de (JObj ms) = Some rq ↔
    match rq with
    | RequestLease r => ∃ jr ja,
        ms ≡ₚ [("op", JStr "request_lease"); ("resource", jr); ("action", ja)] ∧
        de jr = Some (lr_resource r) ∧ de ja = Some (lr_action r)
    | ReleaseLease r => ∃ ji,
        ms ≡ₚ [("op", JStr "release_lease"); ("lease_id", ji)] ∧ de ji = Some (rr_lease_id r)
    | AgentStatus => ms = [("op", JStr "agent_status")]
    end.
Proof.
  cbn [de ClientRequest_serde]. rewrite visit_tagged_object. split.
  - intros ([op jrest] & Ht & Hr)%bind_Some. apply fmap_Some in Ht as ([op' rest] & Ht & [= -> ->]).
    apply object_tag_Permutation in Ht as [Hp _].
    case_decide as H1; [|case_decide as H2; [|case_decide as H3; [|done]]]; subst op'.
    + apply fmap_Some in Hr as (r & Hr & ->).
      apply LeaseRequest_Some in Hr as (jr & ja & Hrest & ? & ?). exists jr, ja.
      by rewrite Hp, Hrest.
    + apply fmap_Some in Hr as (r & Hr & ->). apply ReleaseRequest_Some in Hr as (ji & -> & ?). by exists ji.
    + rewrite visit_struct_object in Hr. apply bind_Some in Hr as ([|] & Hf & Hr); [|done].
      injection Hr as <-. apply (object_fields_exact [] rest []) in Hf as [_ Hf]; [|constructor].
      apply Permutation_nil_r in Hf as ->. by apply Permutation_singleton_r in Hp.
  - assert (∀ op rest, ms ≡ₚ ("op", JStr op) :: rest → "op" ∉ rest.*1 →
      ∃ rest', (λ '(name, rest), (name, JObj rest)) <$> object_tag "op" ms = Some (op, JObj rest') ∧
        rest' ≡ₚ rest) as Htag.
    { intros op rest Hp Hop. destruct (Permutation_object_tag _ _ _ _ Hp Hop) as (rest' & -> & ?).
      by exists rest'. }
    destruct rq as [r|r|].
    + intros (jr & ja & Hp & Hr & Ha).
      destruct (Htag _ _ Hp) as (rest & -> & Hrest); [by apply (bool_decide_unpack _); vm_compute|].
      cbn [mbind option_bind]. rewrite decide_True by done.
      rewrite (proj2 (LeaseRequest_Some rest r)); [done|]. by exists jr, ja.
    + intros (ji & Hp & Hi).
      destruct (Htag _ _ Hp) as (rest & -> & Hrest); [by apply (bool_decide_unpack _); vm_compute|].
      apply Permutation_singleton_r in Hrest as ->.
      cbn [mbind option_bind]. rewrite decide_False, decide_True by done.
      rewrite (proj2 (ReleaseRequest_Some _ r)); [done|]. by exists ji.
    + intros ->. destruct (Htag "agent_status" [] (reflexivity _)) as (rest & -> & Hrest).
      { apply not_elem_of_nil. }
      apply Permutation_nil_r in Hrest as ->. cbn [mbind option_bind].
      rewrite !decide_False, decide_True by done. by visit_written Hlaws.
Qed.

(** ** The codec of the protocol *)

Lemma serde_codec_laws : @WireCodecLaws serde_codec.
Proof.
  split; cbn [json_to_request json_to_response json_version_peek json_header_peek request_to_json
    response_to_json serde_codec]; intros r Hr;
    rewrite from_slice_to_vec by (by apply Request_readable || by apply Response_readable).
  - by apply (Versioned_roundtrip Hlaws _ RequestBody_roundtrip).
  - apply VersionPeek_Some. split; [done|apply Hr].
  - apply HeaderPeek_Some. eexists. split; [done|]. apply HeaderPayloadPeek_Some.
    split; [done|apply Hr].
  - by apply (Versioned_roundtrip Hlaws _ ResponseBody_roundtrip).
  - apply VersionPeek_Some. split; [done|apply Hr].
Qed.

#[local] Existing Instance serde_codec.

(** What decoding says of a document that fits in a frame, through its version member
    alone. *)
Lemma decode_request_document ms v :
  (len_N (to_vec (JObj ms)) ≤ MAX_FRAME_BYTES)%N →
  named "version" ms = [("version", uint_ser v)] → (v ≤ u16_max)%N →
  decode_request (to_vec (JObj ms)) =
    if decide (v = DOMAIN_SCHEMA_VERSION) then ok_or (from_slice de (to_vec (JObj ms))) Malformed
    else Err (VersionError (mk_UnsupportedVersion v DOMAIN_SCHEMA_VERSION)).
Proof.
  intros Hlen Hv Hle. unfold decode_request, peek_version.
  cbn [json_version_peek json_to_request serde_codec]. rewrite decide_False by lia.
  assert (from_slice VersionPeek_de (to_vec (JObj ms)) = Some v) as ->.
  { etrans; [apply (from_slice_fields Hlaws ["version"])|by apply VersionPeek_Some].
    rewrite filter_one_name, Hv. readable. }
  cbn [ok_or result_bind]. by repeat case_decide.
Qed.

(** The members of an envelope beyond its two are skipped. *)
Lemma envelope_read {T} `{Serde T} ms v p (r : Versioned T) :
  named "version" ms = [("version", uint_ser v)] → (v ≤ u16_max)%N →
  named "payload" ms = [("payload", p)] → readable (Nat.pred recursion_limit) p →
  de (JObj ms) = Some r → from_slice de (to_vec (JObj ms)) = Some r.
Proof.
  intros Hv Hle Hp Hread Hd. etrans; [apply (from_slice_fields Hlaws ["version"; "payload"])|done].
  apply readable_object, Forall_forall. intros [k j] [Hk Hin]%list_elem_of_filter. cbn [fst snd] in *.
  apply elem_of_cons in Hk as [->|Hk]; [|apply list_elem_of_singleton in Hk as ->].
  - assert (("version", j) ∈ named "version" ms) as Hj by by apply list_elem_of_filter.
    rewrite Hv in Hj. apply list_elem_of_singleton in Hj. injection Hj as ->. readable.
  - assert (("payload", j) ∈ named "payload" ms) as Hj by by apply list_elem_of_filter.
    rewrite Hp in Hj. apply list_elem_of_singleton in Hj. by injection Hj as ->.
Qed.

Lemma peek_request_id_document ms ps i :
  named "payload" ms = [("payload", JObj ps)] →
  named "request_id" ps = [("request_id", uint_ser (request_id_num i))] →
  (request_id_num i ≤ u64_max)%N → peek_request_id (to_vec (JObj ms)) = Some i.
Proof.
  intros Hp Hi Hle. unfold peek_request_id. cbn [json_header_peek serde_codec].
  etrans; [apply (from_slice_field_of_field Hlaws de "payload" "request_id" ms ps Hp)|].
  - cbn [nest foldr]. rewrite Hi. readable.
  - by apply HeaderPayloadPeek_Some.
Qed.

(** C17: with the messages' own JSON encoding the two sides understand each other.  A
    request (a response) whose numbers fit their widths, once framed, is decoded as
    itself by the peer when it is of the current version and rejected by its version
    otherwise; the request's id is read from the bytes in either case. *)
Theorem messages_roundtrip (rq : Request) (rs : Response) (f g : list byte)
    (Hrq : Request_in_range rq) (Hrs : Response_in_range rs)
    (Hf : encode_request rq = Ok f) (Hg : encode_response rs = Ok g) :
  (∃ body, split_frame f = Some body ∧ peek_request_id body = Some (req_id (payload rq)) ∧
     decode_request body =
       if decide (version rq = DOMAIN_SCHEMA_VERSION) then Ok rq
       else Err (VersionError (mk_UnsupportedVersion (version rq) DOMAIN_SCHEMA_VERSION))) ∧
  (∃ body, split_frame g = Some body ∧
     decode_response body =
       if decide (version rs = DOMAIN_SCHEMA_VERSION) then Ok rs
       else Err (VersionError (mk_UnsupportedVersion (version rs) DOMAIN_SCHEMA_VERSION))).
Proof. exact (wire_roundtrip serde_codec_laws rq rs f g Hrq Hrs Hf Hg). Qed.

(** C14: which documents are requests.  Of an envelope of the current version whose
    payload and body are objects, what is decoded is fixed by the payload alone: a
    request is read only if the payload holds a request id that fits its width and the
    body, each once and nothing else, and the body holds the operation's tag and exactly
    the members of that operation, in any order.  One more member of the payload or the
    body, a member missing or given twice, and the frame is malformed.  Every such
    payload is read as that request when it is within the limits of [serde_json], which
    refuses deep nesting and out-of-range numbers; further members of the envelope are
    skipped, whatever they hold. *)
Theorem request_documents_exact (ms ps bs : list member) (r : Request)
    (Hlen : (len_N (to_vec (JObj ms)) ≤ MAX_FRAME_BYTES)%N)
    (Hversion : named "version" ms = [("version", uint_ser DOMAIN_SCHEMA_VERSION)])
    (Hpayload : named "payload" ms = [("payload", JObj ps)])
    (Hbody : ("body", JObj bs) ∈ ps) :
  let accepted :=
    version r = DOMAIN_SCHEMA_VERSION ∧
    ps ≡ₚ [("request_id", uint_ser (request_id_num (req_id (payload r)))); ("body", JObj bs)] ∧
    (request_id_num (req_id (payload r)) ≤ u64_max)%N ∧
    match req_body (payload r) with
    | RequestLease q => ∃ jr ja,
        bs ≡ₚ [("op", JStr "request_lease"); ("resource", jr); ("action", ja)] ∧
        de jr = Some (lr_resource q) ∧ de ja = Some (lr_action q)
    | ReleaseLease q => ∃ ji,
        bs ≡ₚ [("op", JStr "release_lease"); ("lease_id", ji)] ∧ de ji = Some (rr_lease_id q)
    | AgentStatus => bs = [("op", JStr "agent_status")]
    end in
  (decode_request (to_vec (JObj ms)) = Ok r → accepted) ∧
  (accepted → readable (Nat.pred recursion_limit) (JObj ps) →
     decode_request (to_vec (JObj ms)) = Ok r) ∧
  (∀ e, decode_request (to_vec (JObj ms)) = Err e → e = Malformed).
Proof.
  intros accepted. rewrite (decode_request_document ms DOMAIN_SCHEMA_VERSION) by done.
  rewrite decide_True by done.
  assert (de (JObj ms) = Some r ↔ accepted) as Hacc.
  { rewrite (Versioned_Some Hlaws ms r), Hversion, Hpayload. unfold accepted. clear accepted.
    setoid_rewrite <-(ClientRequest_Some bs). split.
    - intros ([= Hv] & _ & p & [= <-] & Hp).
      assert (version r = DOMAIN_SCHEMA_VERSION) by (unfold DOMAIN_SCHEMA_VERSION; lia). split; [done|].
      apply RequestBody_Some in Hp as (jb & Hp & Hi & Hb).
      assert (jb = JObj bs) as ->; [|done].
      rewrite Hp in Hbody. apply elem_of_cons in Hbody as [[=]|[= ->]%list_elem_of_singleton]. done.
    - intros (Hv & Hp & Hi & Hb). rewrite Hv. split; [done|]. split; [done|]. exists (JObj ps).
      split; [done|]. apply RequestBody_Some. by exists (JObj bs). }
  rewrite <-Hacc. split; [|split; [|by destruct (from_slice _ _); intros e [= <-]]].
  - destruct (from_slice _ _) as [r'|] eqn:Hf; [|done]. intros [= ->]. by eapply from_slice_sound.
  - intros Hd Hread.
    assert (from_slice (de (A := Request)) (to_vec (JObj ms)) = Some r) as -> by by eapply envelope_read.
    done.
Qed.

(** C18: a document that is no request is answered under its own id.  A frame whose
    envelope states a version and whose payload states a request id, but which is of
    another version or does not decode, is answered with that error under that id - the
    reason, the version found included, reaches the client - without a call to the
    handler and without touching its state. *)
Theorem bad_document_answered {S : Type} `{RequestHandler S} (ms ps : list member) (v : N)
    (i : RequestId) (s s' : stream) (p : PeerContext) (h : S) (g : list byte) :
  let code := if decide (v = DOMAIN_SCHEMA_VERSION) then CodeMalformedRequest
              else CodeUnsupportedVersion v DOMAIN_SCHEMA_VERSION in
  let reply := Versioned_current (mk_ResponseBody (Some i) (ErrorResponse code)) in
  named "version" ms = [("version", uint_ser v)] → (v ≤ u16_max)%N →
  named "payload" ms = [("payload", JObj ps)] →
  named "request_id" ps = [("request_id", uint_ser (request_id_num i))] →
  (request_id_num i ≤ u64_max)%N →
  (v = DOMAIN_SCHEMA_VERSION → de (A := Request) (JObj ms) = None) →
  read_frame s = (FrameOk (to_vec (JObj ms)), s') → encode_response reply = Ok g →
  serve_connection s true (Ok p) h = mk_served (Some g) s' h None ∧
  ∃ body, split_frame g = Some body ∧ decode_response body = Ok reply.
Proof.
  intros code reply Hv Hle Hp Hi Hr Hbad Hf Hg. split.
  - rewrite (serve_connection_frame s _ s' p h Hf).
    assert ((len_N (to_vec (JObj ms)) ≤ MAX_FRAME_BYTES)%N) as Hlen.
    { apply read_frame_exact in Hf as (taken & _ & _ & Hf). by apply encode_frame_Ok in Hf as [? _]. }
    rewrite (decode_request_document ms v) by done.
    pose proof (peek_request_id_document ms ps i Hp Hi Hr) as Hpeek.
    unfold reply, code in Hg. case_decide as Hcur.
    + destruct (from_slice _ _) as [r|] eqn:Hr'; [apply from_slice_sound in Hr'; by rewrite Hbad in Hr'|].
      cbn [ok_or]. rewrite Hpeek. unfold fail. by rewrite (send_fits _ _ g).
    + cbn [found expected]. rewrite Hpeek. unfold fail. by rewrite (send_fits _ _ g).
  - exists (to_vec (ser reply)). split; [by apply split_frame_encode|].
    assert (Response_in_range reply) as Hrange.
    { split; [done|]. split; [done|]. unfold reply, code. cbn. by case_decide. }
    apply encode_frame_Ok in Hg as [Hlen _]. cbn [response_to_json serde_codec] in Hlen.
    unfold decode_response, peek_version. rewrite decide_False by apply N.nlt_ge, Hlen.
    change (to_vec (ser reply)) with (response_to_json reply).
    rewrite (json_response_version (WireCodecLaws := serde_codec_laws)) by done. cbn [ok_or result_bind].
    rewrite decide_False by (intros Hne; by apply Hne).
    by rewrite (json_response_roundtrip (WireCodecLaws := serde_codec_laws)).
Qed.

(** C15: an action this build does not know is never granted.  Whatever else its
    document says, a lease request naming an action other than [compute] is decoded as
    one for an unknown action, no rule of a policy loaded from a file speaks of it, and
    it is refused, by whichever handler and whatever the state of the store. *)
Theorem unknown_action_never_granted {B : Type} `{ComputeBackend B} (bs : list member)
    (rq : ClientRequest) (jr : Json) (name : string) (source : Versioned PolicyDocument)
    (h : AuthorizationHandler) (st : LeaseState) (b : B) (p : PeerContext)
    (now later : MonotonicTime) :
  name ≠ "compute" →
  bs ≡ₚ [("op", JStr "request_lease"); ("resource", jr); ("action", JStr name)] →
  de (JObj bs) = Some rq →
  PolicySet_from_versioned source = Ok (handler_policy h) → handler_ok h st → headroom st →
  ∃ q, rq = RequestLease q ∧ lr_action q = Unknown ∧
    let '((_, resp), st', b') := handle_request_lease h st b q p now later in
    (∀ v, resp ≠ LeaseGranted v) ∧ b' = b ∧ leases st' ⊆ leases st ∧ reserved st' = reserved st.
Proof.
  intros Hname Hp Hd Hpol Hok Hroom. assert (∃ q, rq = RequestLease q ∧ lr_action q = Unknown)
    as (q & -> & Hact).
  { apply ClientRequest_Some in Hd. destruct rq as [q|q|].
    - destruct Hd as (jr' & ja & Hp' & _ & Ha). exists q. split; [done|].
      rewrite Hp in Hp'. assert (("action", JStr name) ∈
        [("op", JStr "request_lease"); ("resource", jr'); ("action", ja)]) as Hin.
      { rewrite <-Hp'. by repeat constructor. }
      repeat (apply elem_of_cons in Hin as [[=]|Hin]); [|by apply elem_of_nil in Hin]. subst ja.
      cbn [de Action_serde] in Ha. rewrite visit_enum_str in Ha. cbn in Ha.
      rewrite decide_False in Ha by done. by injection Ha.
    - destruct Hd as (ji & Hp' & _). rewrite Hp in Hp'. by apply Permutation_length in Hp'.
    - subst bs. by apply Permutation_length in Hp. }
  exists q. split; [done|]. split; [done|].
  pose proof (request_spec h st b q p now later Hok Hroom) as Hs.
  destruct (handle_request_lease h st b q p now later) as [[[out resp] st'] b'].
  pose proof (prune_subseteq st now) as Hsub.
  destruct Hs as [_ [(_ & _ & -> & -> & ->)|(obs & _ & Hs)]]; [done|].
  destruct Hs as [(_ & _ & -> & -> & ->)|(_ & [(_ & _ & -> & -> & ->)|(Hallow & _)])]; [done..|].
  exfalso. apply evaluate_effect_Allow in Hallow as [(r & Hr & _ & [_ Hract] & _) _].
  apply (no_unknown_action source (handler_policy h)) in Hr; [|done]. by rewrite Hract in Hr.
Qed.

End wire.

(** ** Witnesses *)

Section fixtures.
Context `{SerdeJson} (Hlaws : SerdeJsonLaws).

Definition fixture_resource : ResourceIdentity :=
  mk_ResourceIdentity (mk_ResourceVendor "fake") (mk_ResourceKind "gpu") "gpu-0".
Definition fixture_lease_id : LeaseId := mk_LeaseId (mk_IssuerInstanceId "issuer-a") 7.

(** The committed fixtures of [protocol_golden.rs], one per kind of message with data. *)
Definition request_lease_json (action : string) : Json :=
  JObj [("version", JInt 1);
        ("payload", JObj [("request_id", JInt 1);
          ("body", JObj [("op", JStr "request_lease");
             ("resource", JObj [("vendor", JStr "fake"); ("kind", JStr "gpu"); ("local_id", JStr "gpu-0")]);
             ("action", JStr action)])])].
Definition release_lease_json : Json :=
  JObj [("version", JInt 1);
        ("payload", JObj [("request_id", JInt 2);
          ("body", JObj [("op", JStr "release_lease");
             ("lease_id", JObj [("issuer", JStr "issuer-a"); ("sequence", JInt 7)])])])].
Definition response_lease_granted_json : Json :=
  JObj [("version", JInt 1);
        ("payload", JObj [("request_id", JInt 1);
          ("body", JObj [("result", JStr "lease_granted");
             ("lease", JObj [("lease_id", JObj [("issuer", JStr "issuer-a"); ("sequence", JInt 7)]);
                             ("remaining", JObj [("secs", JInt 30); ("nanos", JInt 0)])])])])].
Definition response_error_json : Json :=
  JObj [("version", JInt 1);
        ("payload", JObj [("request_id", JNull);
          ("body", JObj [("result", JStr "error");
             ("code", JObj [("error", JStr "unsupported_version"); ("found", JInt 99);
                            ("expected", JInt 1)])])])].

Definition fixture_request : Request :=
  Versioned_current (mk_RequestBody (mk_RequestId 1) (RequestLease (mk_LeaseRequest fixture_resource Compute))).
Definition fixture_response : Response :=
  Versioned_current (mk_ResponseBody (Some (mk_RequestId 1))
    (LeaseGranted (mk_LeaseView fixture_lease_id (30 * nanos_per_sec)))).

Lemma fixtures_match :
  ser fixture_request = request_lease_json "compute" ∧
  ser (Versioned_current (mk_RequestBody (mk_RequestId 2) (ReleaseLease (mk_ReleaseRequest fixture_lease_id))))
    = release_lease_json ∧
  ser fixture_response = response_lease_granted_json ∧
  ser (Versioned_current (mk_ResponseBody None (ErrorResponse (CodeUnsupportedVersion 99 1))))
    = response_error_json.
Proof.
  split_and!; try done. unfold fixture_response, Versioned_current, response_lease_granted_json.
  cbn -[nanos_per_sec]. by rewrite duration_shape.
Qed.

End fixtures.

#[local] Existing Instance Reference.serde.
#[local] Existing Instance serde_codec.
Import Fake.

Definition fixture_frame : list byte := framed (request_to_json fixture_request).
Definition fixture_reply : list byte := framed (response_to_json fixture_response).

Lemma messages_roundtrip_witness :
  ∃ body, split_frame fixture_frame = Some body ∧ decode_request body = Ok fixture_request.
Proof.
  destruct (messages_roundtrip Reference.serde_laws fixture_request fixture_response
    fixture_frame fixture_reply) as [(body & Hs & _ & Hd) _].
  - by vm_compute.
  - by vm_compute.
  - by vm_compute.
  - by vm_compute.
  - exists body. split; [exact Hs|]. rewrite Hd. by rewrite decide_True.
Defined.

(** The operation's members in another order, and a comment in the envelope. *)
Definition loose_body : list member :=
  [("action", JStr "compute");
   ("resource", JObj [("kind", JStr "gpu"); ("note", JNull); ("local_id", JStr "gpu-0");
                      ("vendor", JStr "fake")]);
   ("op", JStr "request_lease")].
Definition loose_payload : list member := [("body", JObj loose_body); ("request_id", JInt 1)].
Definition loose_document : list member :=
  [("comment", JStr "ignored"); ("payload", JObj loose_payload); ("version", JInt 1)].

Lemma request_documents_exact_witness :
  decode_request (to_vec (JObj loose_document)) = Ok fixture_request.
Proof.
  apply (proj1 (proj2 (request_documents_exact Reference.serde_laws loose_document loose_payload
    loose_body fixture_request ltac:(by vm_compute) eq_refl eq_refl ltac:(by left)))).
  2: by vm_compute.
  - split; [done|]. split; [apply Permutation_swap|]. split; [by vm_compute|].
    eexists _, _. split; [exact (Permutation_rev loose_body)|]. by split; vm_compute.
Defined.

(** An unknown operation, under a request id. *)
Definition unknown_op_payload : list member :=
  [("request_id", JInt 4); ("body", JObj [("op", JStr "shutdown")])].
Definition unknown_op_document : list member :=
  [("version", JInt 1); ("payload", JObj unknown_op_payload)].
Definition unknown_op_bytes : list byte := to_vec (JObj unknown_op_document).
Definition malformed_reply : list byte :=
  framed (response_to_json (Versioned_current
    (mk_ResponseBody (Some (mk_RequestId 4)) (ErrorResponse CodeMalformedRequest)))).

Lemma bad_document_answered_witness :
  let r := serve_connection (drip 1 (framed unknown_op_bytes ++ [])) true (Ok sample_peer) () in
  called r = None ∧ sent r = Some malformed_reply.
Proof.
  cbv zeta. destruct (bad_document_answered (S := ()) Reference.serde_laws unknown_op_document
    unknown_op_payload 1 (mk_RequestId 4) (drip 1 (framed unknown_op_bytes ++ []))
    (mk_stream (len_N (framed unknown_op_bytes) * 1) (drip_events 1 [])) sample_peer ()
    malformed_reply) as [Hs _].
  - done.
  - by vm_compute.
  - done.
  - done.
  - by vm_compute.
  - by vm_compute.
  - apply read_frame_drip. by vm_compute.
  - by vm_compute.
  - rewrite Hs. cbn [called sent]. by split.
Defined.

Definition future_action : list member :=
  [("op", JStr "request_lease"); ("resource", ser fixture_resource); ("action", JStr "train")].

Lemma unknown_action_never_granted_witness :
  ∃ resp, (handle_request_lease sample_handler sample_store sample_backend
    (mk_LeaseRequest fixture_resource Unknown) sample_peer (at_time 1) (at_time 2)).1.1.2 = resp ∧
    ∀ v, resp ≠ LeaseGranted v.
Proof.
  destruct (unknown_action_never_granted Reference.serde_laws future_action
    (RequestLease (mk_LeaseRequest fixture_resource Unknown)) (ser fixture_resource) "train"
    (Versioned_current (document (handler_policy sample_handler))) sample_handler sample_store
    sample_backend sample_peer (at_time 1) (at_time 2)) as (q & Hq & _ & Hr).
  - done.
  - done.
  - by vm_compute.
  - by vm_compute.
  - apply sample_handler_ok.
  - apply sample_headroom.
  - injection Hq as <-.
    destruct (handle_request_lease _ _ _ _ _ _ _) as [[[out resp] st'] b'].
    exists resp. split; [done|]. apply Hr.
Defined.
