(* ===== verification/Records.v ===== *)
(** * Audit records as JSON lines

    The serde attributes of the record schema ([crates/eltanin-audit/src/record.rs]),
    written with the operations of [Json], and the codec they give the sink and the
    reader of [AuditLog]: every record is read back as it was written, and a write that
    tore the log makes the next record unreadable, or the whole log if it tore a character. *)

From Stdlib Require Import Strings.Ascii.
From S2P Require Import Prelude Text Json JsonText Resource Identity Policy PolicySpec Lease.
From S2P Require Import Peer Backend Protocol Schema LeaseStore Authz AuditRecord AuditLog Wire.

Section records.
Context `{SerdeJson}.

(** ** The schema (record.rs) *)

#[export] Instance AuditEventId_serde : Serde AuditEventId := {
  ser i := JObj [("instance", ser (event_instance i)); ("sequence", uint_ser (event_sequence i))];
  de j :=
    fields ← visit_struct false ["instance"; "sequence"] j;
    match fields with
    | [i; n] => i ← required de i; n ← required (visit_uint u64_max) n; Some (mk_AuditEventId i n)
    | _ => None
    end
}.

#[export] Instance WallClockTime_serde : Serde WallClockTime := {
  ser t := JObj [("unix_secs", JInt (unix_secs t)); ("nanos", uint_ser (nanos t))];
  de j :=
    fields ← visit_struct false ["unix_secs"; "nanos"] j;
    match fields with
    | [s; n] =>
        s ← required visit_i64 s; n ← required (visit_uint u32_max) n; Some (mk_WallClockTime s n)
    | _ => None
    end
}.

#[export] Instance RecordedOperation_serde : Serde RecordedOperation := {
  ser o := JStr (match o with
                 | RopRequestLease => "request_lease"
                 | RopReleaseLease => "release_lease"
                 | RopAgentStatus => "agent_status"
                 end);
  de := unit_variant [("request_lease", RopRequestLease); ("release_lease", RopReleaseLease);
                      ("agent_status", RopAgentStatus)]
}.

#[export] Instance RecordedRequest_serde : Serde RecordedRequest := {
  ser r :=
    match r with
    | RreqRequestLease r a =>
        JObj [("op", JStr "request_lease"); ("resource", ser r); ("action", ser a)]
    | RreqReleaseLease i => JObj [("op", JStr "release_lease"); ("lease_id", ser i)]
    | RreqAgentStatus => JObj [("op", JStr "agent_status")]
    end;
  de j :=
    '(name, rest) ← visit_tagged "op" j;
    if decide (name = "request_lease") then
      fields ← visit_struct false ["resource"; "action"] rest;
      match fields with
      | [r; a] => r ← required de r; a ← required de a; Some (RreqRequestLease r a)
      | _ => None
      end
    else if decide (name = "release_lease") then RreqReleaseLease <$> one_field de "lease_id" rest
    else if decide (name = "agent_status") then Some RreqAgentStatus
    else None
}.

#[export] Instance RecordedPeerCredential_serde : Serde RecordedPeerCredential := {
  ser c := JObj [("pid", uint_ser (rec_pid c)); ("effective_uid", uint_ser (rec_effective_uid c));
                 ("effective_gid", uint_ser (rec_effective_gid c))];
  de j :=
    fields ← visit_struct false ["pid"; "effective_uid"; "effective_gid"] j;
    match fields with
    | [p; u; g] =>
        p ← required (visit_uint u32_max) p; u ← required (visit_uint u32_max) u;
        g ← required (visit_uint u32_max) g; Some (mk_RecordedPeerCredential p u g)
    | _ => None
    end
}.

#[export] Instance RecordedPeerConsistency_serde : Serde RecordedPeerConsistency := {
  ser c :=
    match c with
    | RcConsistent => JObj [("consistency", JStr "consistent")]
    | RcCredentialDivergence u r e =>
        JObj [("consistency", JStr "credential_divergence"); ("peer_effective_uid", uint_ser u);
              ("observed_real_uid", Evidence_ser uint_ser r);
              ("observed_effective_uid", Evidence_ser uint_ser e)]
    | RcPeerUnmapped => JObj [("consistency", JStr "peer_unmapped")]
    | RcIndeterminate why => JObj [("consistency", JStr "indeterminate"); ("reason", ser why)]
    end;
  de j :=
    '(name, rest) ← visit_tagged "consistency" j;
    if decide (name = "consistent") then Some RcConsistent
    else if decide (name = "credential_divergence") then
      fields ← visit_struct false
        ["peer_effective_uid"; "observed_real_uid"; "observed_effective_uid"] rest;
      match fields with
      | [u; r; e] =>
          u ← required (visit_uint u32_max) u; r ← required (Evidence_de (visit_uint u32_max)) r;
          e ← required (Evidence_de (visit_uint u32_max)) e; Some (RcCredentialDivergence u r e)
      | _ => None
      end
    else if decide (name = "peer_unmapped") then Some RcPeerUnmapped
    else if decide (name = "indeterminate") then RcIndeterminate <$> one_field de "reason" rest
    else None
}.

#[export] Instance RecordedPeer_serde : Serde RecordedPeer := {
  ser p := JObj [("credential", ser (rec_credential p)); ("consistency", ser (rec_consistency p));
                 ("observed", ser (rec_observed p))];
  de j :=
    fields ← visit_struct false ["credential"; "consistency"; "observed"] j;
    match fields with
    | [k; c; o] =>
        k ← required de k; c ← required de c; o ← required de o; Some (mk_RecordedPeer k c o)
    | _ => None
    end
}.

#[export] Instance RecordedPolicyProvenance_serde : Serde RecordedPolicyProvenance := {
  ser p := JObj [("policy_id", ser (rec_policy_id p));
                 ("policy_revision", uint_ser (rec_policy_revision p));
                 ("schema_version", uint_ser (rec_schema_version p))];
  de j :=
    fields ← visit_struct false ["policy_id"; "policy_revision"; "schema_version"] j;
    match fields with
    | [i; r; v] =>
        i ← required de i; r ← required (visit_uint u32_max) r; v ← required (visit_uint u16_max) v;
        Some (mk_RecordedPolicyProvenance i r v)
    | _ => None
    end
}.

(** A [BTreeSet] is written in the order of its elements and read whatever the order. *)
Definition rule_id_le (a b : RuleId) : Prop := String.le (rule_id_str a) (rule_id_str b).

#[export] Instance rule_id_le_dec a b : Decision (rule_id_le a b).
Proof. unfold rule_id_le. apply _. Defined.

#[export] Instance RuleId_set_serde : Serde (gset RuleId) := {
  ser s := ser (merge_sort rule_id_le (elements s));
  de j := list_to_set <$> de (A := list RuleId) j
}.

#[export] Instance RecordedDecisionReason_serde : Serde RecordedDecisionReason := {
  ser r :=
    match r with
    | RdNoMatchingRule => JObj [("reason", JStr "no_matching_rule")]
    | RdExplicitAllow m => JObj [("reason", JStr "explicit_allow"); ("matched_rules", ser m)]
    | RdExplicitDeny m o =>
        JObj [("reason", JStr "explicit_deny"); ("matched_rules", ser m);
              ("overridden_allow_rules", ser o)]
    | RdIndeterminateEvidence rs => JObj [("reason", JStr "indeterminate_evidence"); ("rules", ser rs)]
    end;
  de j :=
    '(name, rest) ← visit_tagged "reason" j;
    if decide (name = "no_matching_rule") then Some RdNoMatchingRule
    else if decide (name = "explicit_allow") then RdExplicitAllow <$> one_field de "matched_rules" rest
    else if decide (name = "explicit_deny") then
      fields ← visit_struct false ["matched_rules"; "overridden_allow_rules"] rest;
      match fields with
      | [m; o] => m ← required de m; o ← required de o; Some (RdExplicitDeny m o)
      | _ => None
      end
    else if decide (name = "indeterminate_evidence") then
      RdIndeterminateEvidence <$> one_field de "rules" rest
    else None
}.

#[export] Instance RecordedPolicyDecision_serde : Serde RecordedPolicyDecision := {
  ser d := JObj [("effect", ser (rec_effect d)); ("reason", ser (rec_reason d));
                 ("policy", ser (rec_policy d))];
  de j :=
    fields ← visit_struct false ["effect"; "reason"; "policy"] j;
    match fields with
    | [e; r; p] =>
        e ← required de e; r ← required de r; p ← required de p; Some (mk_RecordedPolicyDecision e r p)
    | _ => None
    end
}.

#[export] Instance RecordedLeaseError_serde : Serde RecordedLeaseError := {
  ser e :=
    match e with
    | ReDenied d => JObj [("error", JStr "denied"); ("decision", ser d)]
    | ReNonPositiveTtl => JObj [("error", JStr "non_positive_ttl")]
    | ReTtlExceedsMaximum r m =>
        JObj [("error", JStr "ttl_exceeds_maximum"); ("requested", duration_ser r);
              ("maximum", duration_ser m)]
    | ReExpiryOverflow => JObj [("error", JStr "expiry_overflow")]
    end;
  de j :=
    '(name, rest) ← visit_tagged "error" j;
    if decide (name = "denied") then ReDenied <$> one_field de "decision" rest
    else if decide (name = "non_positive_ttl") then Some ReNonPositiveTtl
    else if decide (name = "ttl_exceeds_maximum") then
      fields ← visit_struct false ["requested"; "maximum"] rest;
      match fields with
      | [r; m] =>
          r ← required duration_de r; m ← required duration_de m; Some (ReTtlExceedsMaximum r m)
      | _ => None
      end
    else if decide (name = "expiry_overflow") then Some ReExpiryOverflow
    else None
}.

#[export] Instance RecordedLeaseValidity_serde : Serde RecordedLeaseValidity := {
  ser v :=
    match v with
    | RvValid r => JObj [("validity", JStr "valid"); ("remaining", duration_ser r)]
    | RvForeignIssuer i => JObj [("validity", JStr "foreign_issuer"); ("issued_by", ser i)]
    | RvRevoked => JObj [("validity", JStr "revoked")]
    | RvResourceMismatch => JObj [("validity", JStr "resource_mismatch")]
    | RvActionMismatch => JObj [("validity", JStr "action_mismatch")]
    | RvWorkloadMismatch => JObj [("validity", JStr "workload_mismatch")]
    | RvWorkloadIndeterminate => JObj [("validity", JStr "workload_indeterminate")]
    | RvExecutableMismatch => JObj [("validity", JStr "executable_mismatch")]
    | RvExpired t => JObj [("validity", JStr "expired"); ("expired_at", ser t)]
    end;
  de j :=
    '(name, rest) ← visit_tagged "validity" j;
    if decide (name = "valid") then RvValid <$> one_field duration_de "remaining" rest
    else if decide (name = "foreign_issuer") then RvForeignIssuer <$> one_field de "issued_by" rest
    else if decide (name = "revoked") then Some RvRevoked
    else if decide (name = "resource_mismatch") then Some RvResourceMismatch
    else if decide (name = "action_mismatch") then Some RvActionMismatch
    else if decide (name = "workload_mismatch") then Some RvWorkloadMismatch
    else if decide (name = "workload_indeterminate") then Some RvWorkloadIndeterminate
    else if decide (name = "executable_mismatch") then Some RvExecutableMismatch
    else if decide (name = "expired") then RvExpired <$> one_field de "expired_at" rest
    else None
}.

Definition option_ser {A} `{Serde A} (o : option A) : Json :=
  match o with
  | Some a => ser a
  | None => JNull
  end.

#[export] Instance RecordedOutcome_serde : Serde RecordedOutcome := {
  ser o :=
    match o with
    | RoGranted i t => JObj [("outcome", JStr "granted"); ("lease_id", ser i); ("expires_at", ser t)]
    | RoPolicyDenied d => JObj [("outcome", JStr "policy_denied"); ("decision", ser d)]
    | RoPeerNotAuthorizable => JObj [("outcome", JStr "peer_not_authorizable")]
    | RoLeaseIssueFailed e => JObj [("outcome", JStr "lease_issue_failed"); ("error", ser e)]
    | RoEnforcementRefused r => JObj [("outcome", JStr "enforcement_refused"); ("result", ser r)]
    | RoBackendFailed e => JObj [("outcome", JStr "backend_failed"); ("error", ser e)]
    | RoCapacityExhausted n =>
        JObj [("outcome", JStr "capacity_exhausted"); ("outstanding", uint_ser n)]
    | RoReleased r b =>
        JObj [("outcome", JStr "released"); ("revocation", ser r); ("backend", option_ser b)]
    | RoReleaseRefused v => JObj [("outcome", JStr "release_refused"); ("validity", ser v)]
    | RoReleaseUnknownLease => JObj [("outcome", JStr "release_unknown_lease")]
    | RoStatusReported => JObj [("outcome", JStr "status_reported")]
    end;
  de j :=
    '(name, rest) ← visit_tagged "outcome" j;
    if decide (name = "granted") then
      fields ← visit_struct false ["lease_id"; "expires_at"] rest;
      match fields with
      | [i; t] => i ← required de i; t ← required de t; Some (RoGranted i t)
      | _ => None
      end
    else if decide (name = "policy_denied") then RoPolicyDenied <$> one_field de "decision" rest
    else if decide (name = "peer_not_authorizable") then Some RoPeerNotAuthorizable
    else if decide (name = "lease_issue_failed") then RoLeaseIssueFailed <$> one_field de "error" rest
    else if decide (name = "enforcement_refused") then
      RoEnforcementRefused <$> one_field de "result" rest
    else if decide (name = "backend_failed") then RoBackendFailed <$> one_field de "error" rest
    else if decide (name = "capacity_exhausted") then
      RoCapacityExhausted <$> one_field (visit_uint u64_max) "outstanding" rest
    else if decide (name = "released") then
      fields ← visit_struct false ["revocation"; "backend"] rest;
      match fields with
      | [r; b] => r ← required de r; b ← optional de b; Some (RoReleased r b)
      | _ => None
      end
    else if decide (name = "release_refused") then RoReleaseRefused <$> one_field de "validity" rest
    else if decide (name = "release_unknown_lease") then Some RoReleaseUnknownLease
    else if decide (name = "status_reported") then Some RoStatusReported
    else None
}.

#[export] Instance AuditRecord_serde : Serde AuditRecord := {
  ser r :=
    JObj [("event_id", ser (event_id r)); ("recorded_at", ser (recorded_at r));
          ("operation", ser (rec_operation r)); ("requested", ser (requested r));
          ("peer", ser (rec_peer r)); ("outcome", ser (rec_outcome r));
          ("response", ser (rec_response r))];
  de j :=
    fields ← visit_struct false ["event_id"; "recorded_at"; "operation"; "requested"; "peer";
                                 "outcome"; "response"] j;
    match fields with
    | [i; t; o; q; p; u; r] =>
        i ← required de i; t ← required de t; o ← required de o; q ← required de q;
        p ← required de p; u ← required de u; r ← required de r; Some (mk_AuditRecord i t o q p u r)
    | _ => None
    end
}.

(** ** Round trips *)

Context (Hlaws : SerdeJsonLaws).

#[local] Hint Resolve uint_roundtrip string_roundtrip LeaseId_roundtrip IssuerInstanceId_roundtrip
  ResourceIdentity_roundtrip Action_roundtrip one_field_single u32_evidence_roundtrip
  ExecutionContext_roundtrip PolicyId_roundtrip Effect_roundtrip MonotonicTime_roundtrip
  RevocationOutcome_roundtrip EnforcementResult_roundtrip BackendError_roundtrip
  AgentResponse_roundtrip duration_roundtrip : roundtrip.

Lemma AuditEventId_roundtrip : roundtrips (λ i, event_sequence i ≤ u64_max)%N.
Proof.
  intros [i n] Hn. cbn [ser de AuditEventId_serde event_instance event_sequence] in *.
  roundtrip Hlaws.
Qed.

Lemma WallClockTime_roundtrip : roundtrips WallClockTime_in_range.
Proof.
  intros [s n] [Hs Hn]. pose proof (visit_i64_int s Hs).
  cbn [ser de WallClockTime_serde unix_secs nanos] in *. roundtrip Hlaws.
Qed.

Lemma RecordedOperation_roundtrip (o : RecordedOperation) : de (ser o) = Some o.
Proof. cbn [ser de RecordedOperation_serde]. by destruct o; apply (unit_roundtrip Hlaws). Qed.

Lemma RecordedRequest_roundtrip : roundtrips RecordedRequest_in_range.
Proof. intros [r a|i|] Hr; cbn [ser de RecordedRequest_serde] in *; roundtrip Hlaws. Qed.

Lemma RecordedPeerCredential_roundtrip :
  roundtrips (λ c, (rec_pid c ≤ u32_max)%N ∧ (rec_effective_uid c ≤ u32_max)%N ∧
    (rec_effective_gid c ≤ u32_max)%N).
Proof.
  intros [p u g] (Hp & Hu & Hg).
  cbn [ser de RecordedPeerCredential_serde rec_pid rec_effective_uid rec_effective_gid] in *.
  roundtrip Hlaws.
Qed.

Lemma RecordedPeerConsistency_roundtrip : roundtrips RecordedPeerConsistency_in_range.
Proof.
  intros [|u r e| |why] Hc; [|destruct Hc as (? & ? & ?)|..];
    cbn [ser de RecordedPeerConsistency_serde]; roundtrip Hlaws.
Qed.

#[local] Hint Resolve RecordedPeerCredential_roundtrip RecordedPeerConsistency_roundtrip : roundtrip.

Lemma RecordedPeer_roundtrip : roundtrips RecordedPeer_in_range.
Proof.
  intros [k c o] (Hp & Hu & Hg & Hc & Ho). cbn [rec_credential rec_consistency rec_observed] in *.
  pose proof (RecordedPeerCredential_roundtrip k (conj Hp (conj Hu Hg))).
  cbn [ser de RecordedPeer_serde rec_credential rec_consistency rec_observed]. roundtrip Hlaws.
Qed.

Lemma RecordedPolicyProvenance_roundtrip :
  roundtrips (λ p, (rec_policy_revision p ≤ u32_max)%N ∧ (rec_schema_version p ≤ u16_max)%N).
Proof.
  intros [i r v] [Hr Hv]. cbn [ser de RecordedPolicyProvenance_serde rec_policy_id
    rec_policy_revision rec_schema_version] in *. roundtrip Hlaws.
Qed.

Lemma RuleId_set_roundtrip (s : gset RuleId) : de (ser s) = Some s.
Proof.
  cbn [ser de RuleId_set_serde].
  pose proof (list_roundtrip Hlaws (λ _, True) (merge_sort rule_id_le (elements s))) as Hl.
  rewrite Hl; [|by intros; apply RuleId_roundtrip|by apply Forall_true]. cbn. f_equal.
  apply set_eq. intros i. by rewrite elem_of_list_to_set, merge_sort_Permutation, elem_of_elements.
Qed.

#[local] Hint Resolve RuleId_set_roundtrip : roundtrip.

Lemma RecordedDecisionReason_roundtrip (r : RecordedDecisionReason) : de (ser r) = Some r.
Proof. destruct r; cbn [ser de RecordedDecisionReason_serde]; roundtrip Hlaws. Qed.

#[local] Hint Resolve RecordedDecisionReason_roundtrip : roundtrip.

Lemma RecordedPolicyDecision_roundtrip : roundtrips RecordedPolicyDecision_in_range.
Proof.
  intros [e r p] Hp. pose proof (RecordedPolicyProvenance_roundtrip p Hp).
  cbn [ser de RecordedPolicyDecision_serde rec_effect rec_reason rec_policy]. roundtrip Hlaws.
Qed.

#[local] Hint Resolve RecordedPolicyDecision_roundtrip : roundtrip.

Lemma RecordedLeaseError_roundtrip : roundtrips RecordedLeaseError_in_range.
Proof.
  intros [d| |r m|] He; [| |destruct He|]; cbn [ser de RecordedLeaseError_serde]; roundtrip Hlaws.
Qed.

Lemma RecordedLeaseValidity_roundtrip : roundtrips RecordedLeaseValidity_in_range.
Proof.
  intros v Hv. destruct v; cbn [ser de RecordedLeaseValidity_serde RecordedLeaseValidity_in_range] in *;
    roundtrip Hlaws.
Qed.

Lemma optional_enforcement (b : option EnforcementResult) : optional de (Some (option_ser b)) = Some b.
Proof.
  destruct b as [r|]; cbn [option_ser]; [|by cbn [optional]; rewrite visit_option_null].
  apply (optional_Some Hlaws); [by destruct r|by apply EnforcementResult_roundtrip].
Qed.

#[local] Hint Resolve RecordedLeaseError_roundtrip RecordedLeaseValidity_roundtrip
  optional_enforcement : roundtrip.

Lemma RecordedOutcome_roundtrip : roundtrips RecordedOutcome_in_range.
Proof.
  intros o Ho. destruct o; [destruct Ho|..]; cbn [RecordedOutcome_in_range] in *;
    cbn [ser de RecordedOutcome_serde]; roundtrip Hlaws.
Qed.

#[local] Hint Resolve AuditEventId_roundtrip WallClockTime_roundtrip RecordedOperation_roundtrip
  RecordedRequest_roundtrip RecordedPeer_roundtrip RecordedOutcome_roundtrip : roundtrip.

Lemma AuditRecord_roundtrip : roundtrips AuditRecord_in_range.
Proof.
  intros [i t o q p u r] (Hi & Ht & Hq & Hp & Hu & Hr).
  cbn [ser de AuditRecord_serde event_id recorded_at rec_operation requested rec_peer rec_outcome
       rec_response] in *. roundtrip Hlaws.
Qed.

(** ** What is written can be read *)

#[local] Hint Resolve duration_readable ResourceIdentity_readable LeaseId_readable
  EnforcementResult_readable BackendError_readable u32_evidence_readable ExecutionContext_readable
  AgentResponse_readable : readable.

Lemma RuleId_set_readable d (s : gset RuleId) : readable (S d) (ser s).
Proof.
  cbn [ser RuleId_set_serde]. apply (list_readable d (λ _, True)); [by intros []|by apply Forall_true].
Qed.

#[local] Hint Resolve RuleId_set_readable : readable.

Lemma RecordedPolicyDecision_readable d (x : RecordedPolicyDecision) :
  RecordedPolicyDecision_in_range x → readable (S (S (S d))) (ser x).
Proof.
  destruct x as [e r [[] v n]]. intros [Hv Hn].
  assert (readable (S (S d)) (ser r)) by (destruct r; cbn [ser RecordedDecisionReason_serde]; readable).
  cbn [rec_policy rec_policy_revision rec_schema_version] in *.
  cbn [ser RecordedPolicyDecision_serde RecordedPolicyProvenance_serde rec_effect rec_reason rec_policy
       rec_policy_id rec_policy_revision rec_schema_version].
  readable.
Qed.

#[local] Hint Resolve RecordedPolicyDecision_readable : readable.

Lemma RecordedOutcome_readable d (o : RecordedOutcome) :
  RecordedOutcome_in_range o → readable (S (S (S (S (S d))))) (ser o).
Proof.
  intros Ho. destruct o as [i [t]|x| |e|r|e|n|r b|v| |]; cbn [RecordedOutcome_in_range as_nanos] in Ho.
  - destruct Ho. cbn [ser RecordedOutcome_serde]. readable.
  - cbn [ser RecordedOutcome_serde]. readable.
  - readable.
  - assert (readable (S (S (S (S d)))) (ser e)).
    { destruct e; [| |destruct Ho|]; cbn [ser RecordedLeaseError_serde RecordedLeaseError_in_range] in *;
        readable. }
    cbn [ser RecordedOutcome_serde]. readable.
  - cbn [ser RecordedOutcome_serde]. readable.
  - cbn [ser RecordedOutcome_serde]. readable.
  - cbn [ser RecordedOutcome_serde]. readable.
  - cbn [ser RecordedOutcome_serde]. destruct b; cbn [option_ser]; readable.
  - assert (readable (S (S (S (S d)))) (ser v)).
    { destruct v as [t|[]| | | | | | |[t]]; cbn [ser RecordedLeaseValidity_serde
        RecordedLeaseValidity_in_range] in *; readable. }
    cbn [ser RecordedOutcome_serde]. readable.
  - readable.
  - readable.
Qed.

Lemma RecordedPeer_readable d (p : RecordedPeer) :
  RecordedPeer_in_range p → readable (S (S (S (S (S (S d)))))) (ser p).
Proof.
  destruct p as [[k u g] c o]. intros (Hk & Hu & Hg & Hc & Ho).
  cbn [rec_credential rec_consistency rec_observed rec_pid rec_effective_uid rec_effective_gid] in *.
  assert (readable (S (S (S (S (S d))))) (ser c)).
  { destruct c as [|pu ru eu| |why]; [|destruct Hc as (? & ? & ?)|..];
      cbn [ser RecordedPeerConsistency_serde]; readable. }
  cbn [ser RecordedPeer_serde RecordedPeerCredential_serde rec_credential rec_consistency rec_observed
       rec_pid rec_effective_uid rec_effective_gid]. readable.
Qed.

#[local] Hint Resolve RecordedOutcome_readable RecordedPeer_readable : readable.

Lemma AuditRecord_readable d (r : AuditRecord) :
  AuditRecord_in_range r → readable (S (S (S (S (S (S (S d))))))) (ser r).
Proof.
  destruct r as [[[] n] [secs ns] o q p u a]. intros (Hi & [Hs Hn] & Hq & Hp & Hu & Ha).
  cbn [event_id recorded_at requested rec_peer rec_outcome rec_response event_sequence unix_secs nanos] in *.
  assert (readable (S (S (S (S (S (S d)))))) (ser q)).
  { destruct q; cbn [ser RecordedRequest_serde RecordedRequest_in_range] in *; readable. }
  assert (readable (S (S (S (S (S d))))) (JInt secs)) by (apply bool_decide_pack; lia).
  cbn [ser AuditRecord_serde AuditEventId_serde WallClockTime_serde event_id recorded_at rec_operation
       requested rec_peer rec_outcome rec_response event_instance event_sequence unix_secs nanos].
  readable.
Qed.

End records.

(** ** The codec of the log *)

Section codec.
Context `{SerdeJsonText}.

(** [serde_json::Value]: of members of one name the last counts. *)
#[local] Instance Value_serde : Serde Json := { ser j := j; de := Some }.

Definition value_member (j : Json) (name : string) : option Json :=
  match j with
  | JObj ms => field name (rev ms)
  | _ => None
  end.

Definition value_str (j : Json) : option string :=
  match j with
  | JStr s => Some s
  | _ => None
  end.

Definition value_u64 (j : Json) : option N :=
  match j with
  | JInt z => if decide (0 ≤ z ≤ Z.of_N u64_max)%Z then Some (Z.to_N z) else None
  | _ => None
  end.

#[export] Instance serde_record_to_json : RecordToJson := {
  record_to_json r := Ok (to_string (ser r))
}.

#[export] Instance serde_log_json : LogJson := {
  Value := Json;
  value_get := value_member;
  value_as_str := value_str;
  value_as_u64 := value_u64;
  envelope_of_json := from_str de;
  record_of_json := from_str de
}.

Context (Hlaws : SerdeJsonLaws) (Htext : SerdeJsonTextLaws).

Lemma from_str_written {A} (de : Json → option A) j a :
  readable recursion_limit j → de j = Some a → from_str de (to_string j) = Ok a.
Proof. apply from_str_reads, parse_to_string. Qed.

Lemma Versioned_record_readable v (r : AuditRecord) :
  (v ≤ u16_max)%N → AuditRecord_in_range r → readable recursion_limit (ser (mk_Versioned v r)).
Proof. intros Hv Hr. apply Versioned_readable; [done|]. by apply (AuditRecord_readable Hlaws). Qed.

Lemma audit_json_laws : AuditJsonLaws.
Proof.
  assert (∀ r s, record_to_json (Versioned_current r) = Ok s → s = to_string (ser (Versioned_current r)))
    as Hwritten by (intros r s Hs; unfold record_to_json, serde_record_to_json in Hs; congruence).
  split; intros r s; [| |intros Hr|intros Hr]; intros ->%Hwritten.
  - apply to_string_line.
  - apply to_string_utf8.
  - exists (ser r). apply (from_str_written (de (A := Versioned Json)));
      [by apply (Versioned_record_readable DOMAIN_SCHEMA_VERSION)|].
    apply (Versioned_roundtrip Hlaws (λ _ : Json, True) ltac:(done)
      (mk_Versioned DOMAIN_SCHEMA_VERSION (ser r))).
    by split; [vm_compute|].
  - cbn [record_of_json serde_log_json]. apply from_str_written; [by apply Versioned_record_readable|].
    by apply (Versioned_roundtrip Hlaws _ (AuditRecord_roundtrip Hlaws) (Versioned_current r)).
Qed.

Lemma recover_written r :
  (event_sequence (event_id r) ≤ u64_max)%N → recover_event_id (ser r) = Some (event_id r).
Proof.
  intros Hn. unfold recover_event_id.
  assert (value_get (ser r) "event_id" = Some (ser (event_id r))) as -> by done.
  destruct (event_id r) as [[i] n]. cbn [mbind option_bind].
  assert (value_get (ser (mk_AuditEventId (mk_IssuerInstanceId i) n)) "instance" = Some (JStr i))
    as -> by done.
  assert (value_get (ser (mk_AuditEventId (mk_IssuerInstanceId i) n)) "sequence" = Some (uint_ser n))
    as -> by done.
  cbn [mbind option_bind value_as_str value_as_u64 serde_log_json value_str value_u64 uint_ser] in *.
  rewrite decide_True by (cbn in Hn; lia). cbn. by rewrite N2Z.id.
Qed.

(** C33: what the sink writes the reader reads.  The line of a record whose integers are
    of their widths is one line; of the current version it is read back as that record;
    of another version it is reported unreadable by its version, on its line, and under
    its own event id, so that it is not taken for a lost write. *)
Theorem record_lines_read (index : N) (v : N) (r : AuditRecord)
    (Hv : (v ≤ u16_max)%N) (Hr : AuditRecord_in_range r) :
  let line := to_string (ser (mk_Versioned v r)) in
  one_line line ∧
  read_line index line =
    Some (if decide (v = DOMAIN_SCHEMA_VERSION) then inl r
          else inr (mk_UnreadableLine (u64_wrapping_add index 1)
                 (UnreadableVersion v DOMAIN_SCHEMA_VERSION) (Some (event_id r)))).
Proof.
  intros line. pose proof (to_string_line (ser (mk_Versioned v r))) as Hline. fold line in Hline.
  split; [done|]. unfold read_line. rewrite (ol_blank _ Hline).
  assert (from_str de line = Ok (mk_Versioned v (ser r))) as Henv.
  { apply (from_str_written (de (A := Versioned Json))); [by apply Versioned_record_readable|].
    by apply (Versioned_roundtrip Hlaws (λ _ : Json, True) ltac:(done) (mk_Versioned v (ser r))). }
  change (envelope_of_json line) with (from_str (de (A := Versioned Json)) line).
  rewrite Henv. cbn [version payload]. case_decide as Hcur.
  - rewrite decide_False by done. do 4 f_equal.
    by apply recover_written, Hr.
  - change (record_of_json line) with (from_str (de (A := Versioned AuditRecord)) line).
    rewrite decide_True by done.
    assert (from_str de line = Ok (mk_Versioned v r)) as ->; [|done].
    apply (from_str_written de (ser (mk_Versioned v r))); [by apply Versioned_record_readable|].
    by apply (Versioned_roundtrip Hlaws _ (AuditRecord_roundtrip Hlaws)).
Qed.

(** An object cut short and followed by another is not an envelope. *)
Lemma torn_unreadable ms1 ms2 k :
  0 < k →
  ∃ m, from_str (de (A := Versioned Json)) (String.substring 0 k (to_string (JObj ms1)) +:+
    to_string (JObj ms2)) = Err m.
Proof.
  intros Hk. destruct (from_str _ _) as [v|m] eqn:Hf; [|by eexists]. exfalso.
  apply from_str_sound in Hf as (j & Hp & Hd).
  destruct (parse_delimited _ _ Hp) as [Hs|Hscan].
  { cbn [de Versioned_serde] in Hd. by rewrite visit_struct_scalar in Hd. }
  assert (∀ ms, scan Before (to_string (JObj ms)) = After) as Hdone.
  { intros ms. by destruct (parse_delimited _ _ (parse_to_string (JObj ms))). }
  destruct (to_string_brace ms1) as [r1 Hr1], (to_string_brace ms2) as [r2 Hr2].
  by apply (torn_no_document _ _ k r1 r2 (Hdone ms1) (Hdone ms2)) in Hscan.
Qed.

(** The lines of two versioned records, the first torn, are one line that is no envelope. *)
Lemma torn_line (r1 r2 : AuditRecord) k :
  let first := to_string (ser (Versioned_current r1)) in
  let second := to_string (ser (Versioned_current r2)) in
  0 < k ≤ String.length first →
  String.substring 0 k (first +:+ newline) = String.substring 0 k first ∧
  one_line (String.substring 0 k first +:+ second) ∧
  (utf8 (String.substring 0 k first +:+ second) ↔ utf8 (String.substring 0 k first)) ∧
  ∃ m, from_str (de (A := Versioned Json)) (String.substring 0 k first +:+ second) = Err m.
Proof.
  intros first second [Hpos Hk]. split; [by apply substring_app_le|].
  destruct (to_string_line (ser (Versioned_current r1))) as [Hn1 Hr1 _].
  destruct (to_string_line (ser (Versioned_current r2))) as [Hn2 Hr2 _].
  fold first in Hn1, Hr1. fold second in Hn2, Hr2.
  destruct (to_string_brace [("version", uint_ser DOMAIN_SCHEMA_VERSION); ("payload", ser r1)]) as [t1 Ht1].
  destruct (to_string_brace [("version", uint_ser DOMAIN_SCHEMA_VERSION); ("payload", ser r2)]) as [t2 Ht2].
  change (first = String "{" t1) in Ht1. change (second = String "{" t2) in Ht2.
  split; [|split].
  - split; [rewrite has_char_app, has_char_substring by done; exact Hn2
           |rewrite has_char_app, has_char_substring by done; exact Hr2|].
    rewrite Ht1. destruct k as [|k]; [lia|]. apply brace_not_blank.
  - pose proof (to_string_utf8 (ser (Versioned_current r2))) as Hu. fold second in Hu.
    rewrite Ht2 in Hu |- *. rewrite utf8_app_ascii by by vm_compute. tauto.
  - apply (torn_unreadable
      [("version", uint_ser DOMAIN_SCHEMA_VERSION); ("payload", ser r1)]
      [("version", uint_ser DOMAIN_SCHEMA_VERSION); ("payload", ser r2)] k Hpos).
Qed.

(** C34: a torn write hides the record after it.  A log holds whole lines, whatever they
    say, and an append fails after some bytes of its line reached the file - any number
    of them, up to the whole record but for its line ending.  The next append succeeds
    and reports its event id, but its line goes on where the torn one broke off, and the
    two together are no JSON.  If the tear is inside a character, the log cannot be read
    at all any more, whatever is appended.  Otherwise what was recorded before and what
    is appended later is read, and the torn line is reported as one that names no event;
    neither of the two ids is ever found, the one that was handed out no more than the
    one whose write failed: explaining either answers [NotFound], as for an id never
    issued, until a later record is written, and that it may be lost from then on. *)
Theorem torn_write_hides_next_record {C : Type} `{AuditClock C} (self : AuditFileSink LogFile C)
    (lines : list string) (k : nat) (p : list (option nat)) (e1 e2 : AuditEntry)
    (es : list AuditEntry) (path : string)
    (Hclock : ∀ c : C, WallClockTime_in_range (audit_now c).1)
    (Hlog : contents (writer self) = log_text lines)
    (Hlines : Forall (λ l, one_line l ∧ utf8 l) lines)
    (Hplan : plan (writer self) = Some k :: None :: p) (Hclean : clean p)
    (Hes : Forall AuditEntry_in_range es)
    (Hlen : (sink_next_sequence self + 2 + len_N es ≤ u64_max)%N)
    (Hcount : (failed_writes self ≤ sink_next_sequence self)%N) :
  let i := sink_instance self in
  let n := sink_next_sequence self in
  let first := to_string (ser (Versioned_current
    (record_of_entry (mk_AuditEventId i n) (audit_now (clock self)).1 e1))) in
  let torn := String.substring 0 k first in
  let before := (read_lines 0 lines).1 in
  let odd := (read_lines 0 lines).2 in
  let '(rs, self') := append_all self (e1 :: e2 :: es) in
  let explained := read_log (λ _, file_text (contents (writer self'))) path in
  0 < k ≤ String.length first →
  (∀ id, seen before odd id → event_instance id = i → (event_sequence id < n)%N) →
  ∃ err rs', rs = Err err :: Ok (mk_AuditEventId i (n + 1)) :: rs' ∧
    (¬ utf8 torn → ∃ why, explained = Err (ExplainIo why)) ∧
    (utf8 torn → ∃ scan kept m, explained = Ok scan ∧
       appended i (n + 2) es rs' kept ∧ records scan = before ++ kept ∧
       unreadable scan =
         odd ++ [mk_UnreadableLine (u64_wrapping_add (len_N lines) 1) (UnreadableMalformed m) None] ∧
       let later := ∃ j id, rs' !! j = Some (Ok id) in
       ∀ q, q = n ∨ q = (n + 1)%N →
         (select scan (SelEvent (mk_AuditEventId i q)) = PossiblyLost ↔ later) ∧
         (select scan (SelEvent (mk_AuditEventId i q)) = NotFound ↔ ¬ later)).
Proof.
  intros i n first torn before odd.
  pose (r2 := record_of_entry (mk_AuditEventId i (n + 1)) (audit_now (audit_now (clock self)).2).1 e2).
  pose (second := to_string (ser (Versioned_current r2))).
  destruct (append_all self (e1 :: e2 :: es)) as [rs self'] eqn:Hrun. intros explained Hk Hold.
  destruct (torn_line (record_of_entry (mk_AuditEventId i n) (audit_now (clock self)).1 e1) r2 k Hk)
    as (Hcut & Hline & Hutf & m & Hbad).
  fold first second torn in Hcut, Hline, Hutf, Hbad.
  pose proof (torn_write_hides_next audit_json_laws Hclock self lines k p e1 e2 es first second m) as Ht.
  cbv zeta in Ht. fold i n in Ht. rewrite Hcut, Hrun in Ht. fold torn in Ht.
  destruct (read_lines 0 lines) as [before' odd'] eqn:Hb. cbn [fst snd] in before, odd. subst before odd.
  destruct Ht as (err & rs' & kept & lines' & -> & Happ & Hj & Hcont & Hstr & Hread); [try done..|].
  { eapply Forall_impl; [exact Hlines|]. by intros l []. }
  exists err, rs'. split; [done|].
  assert (utf8 (contents (writer self')) ↔ utf8 torn) as Hall.
  { rewrite Hcont, log_text_app, utf8_app.
    2: { apply utf8_log_text. eapply Forall_impl; [exact Hlines|]. by intros l []. }
    cbn [log_text].
    change (newline +:+ log_text lines') with (String "010" (log_text lines')).
    rewrite utf8_app_ascii by by vm_compute. rewrite Hutf.
    assert (utf8 (String "010" (log_text lines'))); [|tauto].
    change (utf8 (log_text lines')). apply utf8_log_text. clear -Hj Htext Hlaws.
    induction Hj as [|r s kept lines Hs _ IH]; constructor; [|done]. injection Hs as <-.
    apply to_string_utf8. }
  unfold explained, read_log, file_text. split; intros Htorn.
  - rewrite decide_False by by rewrite Hall. by eexists.
  - rewrite decide_True by by apply Hall. cbn [map_err result_bind]. rewrite Hstr, Hread.
    eexists _, kept, m. split; [done|]. split; [done|]. split; [done|]. split; [done|]. cbv zeta.
    set (us := odd' ++ [_]).
    assert (∀ id, seen (before' ++ kept) us id ↔ seen before' odd' id ∨ id ∈ event_id <$> kept) as Hseen.
    { intros id. unfold seen, us. rewrite !fmap_app, !elem_of_app. cbn. rewrite list_elem_of_singleton.
      naive_solver. }
    intros q Hq. apply select_hidden.
    + rewrite Hseen. intros [Hs|Hs].
      * apply Hold in Hs; [|done]. cbn in Hs. lia.
      * apply list_elem_of_fmap in Hs as (r & Hid & Hr).
        destruct (appended_kept _ _ _ _ _ _ Happ Hr) as (j & _ & _ & _ & _ & Hid' & _).
        rewrite <-Hid in Hid'. injection Hid' as ?. lia.
    + setoid_rewrite Hseen. split.
      * intros (l & [Hs|Hs] & Hlt); [apply Hold in Hs; [|done]; cbn in Hs; lia|].
        apply list_elem_of_fmap in Hs as (r & Hid & Hr).
        destruct (appended_kept _ _ _ _ _ _ Happ Hr) as (j & _ & _ & Hj' & _). eauto.
      * intros (j & id & Hj'). destruct (appended_result _ _ _ _ _ _ _ Happ Hj') as (-> & r & Hr & Hid).
        eexists. split; [right; rewrite <-Hid; by apply list_elem_of_fmap_2|]. lia.
Qed.

End codec.

(** ** Witnesses *)

#[local] Existing Instance Reference.serde.
#[local] Existing Instance TextReference.text.

#[local] Existing Instance TwoRecords.fixed_clock.

Lemma log_record_in_range n : (n ≤ u64_max)%N → AuditRecord_in_range (TwoRecords.log_record n).
Proof.
  intros Hn. by apply record_of_entry_in_range; [|apply TwoRecords.at_zero_in_range
    |apply TwoRecords.status_entry_in_range].
Qed.

Lemma record_lines_read_witness :
  read_line 0 (to_string (ser (mk_Versioned 2 (TwoRecords.log_record 5)))) =
    Some (inr (mk_UnreadableLine 1 (UnreadableVersion 2 1)
      (Some (mk_AuditEventId TwoRecords.log_instance 5)))).
Proof.
  destruct (record_lines_read Reference.serde_laws TextReference.text_laws 0 2 (TwoRecords.log_record 5))
    as [_ Hread].
  - by vm_compute.
  - by apply log_record_in_range.
  - rewrite Hread. by rewrite decide_False.
Defined.

(** Two bytes of the first record reach the log; the next one is not found, until a third
    is written. *)
Definition torn_log (entries : nat) :
    list (result AuditEventId AuditSinkError) * AuditFileSink LogFile () :=
  append_all (AuditFileSink_from_writer (mk_LogFile "" [Some 2; None]) TwoRecords.log_instance ())
    (TwoRecords.status_entry :: TwoRecords.status_entry :: replicate entries TwoRecords.status_entry).

Lemma torn_write_hides_next_record_witness :
  ∃ scan, read_log (λ _, file_text (contents (writer (torn_log 0).2))) "audit.log" = Ok scan ∧
    (torn_log 0).1 !! 1 = Some (Ok (mk_AuditEventId TwoRecords.log_instance 1)) ∧
    select scan (SelEvent (mk_AuditEventId TwoRecords.log_instance 1)) = NotFound.
Proof.
  pose proof (torn_write_hides_next_record Reference.serde_laws TextReference.text_laws
    (AuditFileSink_from_writer (mk_LogFile "" [Some 2; None]) TwoRecords.log_instance ()) [] 2 []
    TwoRecords.status_entry TwoRecords.status_entry [] "audit.log") as Ht.
  cbv zeta in Ht. change (append_all _ _) with (torn_log 0) in Ht. destruct (torn_log 0) as [rs self'].
  destruct Ht as (err & rs' & -> & _ & Hread).
  - intros c. apply TwoRecords.at_zero_in_range.
  - done.
  - constructor.
  - done.
  - by intros k ?%elem_of_nil.
  - constructor.
  - by vm_compute.
  - by vm_compute.
  - split; [lia|]. apply TextReference.document_text_length.
  - intros id [Hid|Hid]; by apply elem_of_nil in Hid.
  - destruct Hread as (scan & kept & m & Hr & Happ & _ & _ & Hsel); [by vm_compute|].
    exists scan. split; [exact Hr|]. split; [reflexivity|].
    apply (Hsel 1%N); [by right|]. intros (j & id & Hj).
    apply appended_length in Happ. destruct rs'; [done|discriminate Happ].
Defined.
