(* ===== verification/Collect.v ===== *)
(** * Collecting evidence about a process

    What the two platform collectors ([Linux], [Macos]) share: programs that read
    the state of the kernel, which may change between two reads; the walk along the
    parent chain that both [ancestry] functions are; and the interface the agent
    sees ([crates/eltanin-agent/src/peer.rs]) with the laws it relies on. *)

From S2P Require Import Prelude Resource Identity Policy PolicySpec Lease.
From S2P Require Import Peer Protocol Connection.

(** ** Programs that read the kernel

    The state is whatever the kernel is in; every read may move it. *)

Definition collect (W A : Type) : Type := W → A * W.

#[export] Instance collect_ret {W} : MRet (collect W) := λ A a w, (a, w).
#[export] Instance collect_bind {W} : MBind (collect W) :=
  λ A B k m w, let '(a, w) := m w in k a w.

(** Whatever the kernel answers, the value satisfies [P]. *)
Definition yields {W A} (P : A → Prop) (m : collect W A) : Prop := ∀ w, P (m w).1.

Lemma yields_ret {W A} (P : A → Prop) (a : A) : P a → yields P (mret a : collect W A).
Proof. by intros ? w. Qed.

Lemma yields_bind {W A B} (P : A → Prop) (Q : B → Prop) (m : collect W A) k :
  yields P m → (∀ a, P a → yields Q (k a)) → yields Q (m ≫= k).
Proof.
  intros Hm Hk w. unfold mbind, collect_bind. specialize (Hm w).
  destruct (m w) as [a w']. by apply Hk.
Qed.

Lemma yields_any {W A} (m : collect W A) : yields (λ _, True) m.
Proof. by intros w. Qed.

#[export] Hint Resolve yields_ret yields_any : eltanin.

(** ** Evidence that came from the kernel *)

Definition kernel_only {T} (e : Evidence T) : Prop :=
  match e with
  | Present _ s => s = KernelObserved
  | Missing _ | EvUnsupported => True
  end.

Definition ancestor_kernel_only (a : ProcessAncestor) : Prop :=
  kernel_only (anc_start a) ∧ kernel_only (anc_executable_path a).

Record identity_kernel_only (w : WorkloadIdentity) : Prop := mk_identity_kernel_only {
  ko_start : kernel_only (process_start w);
  ko_uid : kernel_only (uid w);
  ko_gid : kernel_only (gid w);
  ko_path : kernel_only (executable_path w);
  ko_hash : kernel_only (executable_hash w);
  ko_ancestry : Forall ancestor_kernel_only (ancestry w)
}.

Record context_kernel_only (c : ExecutionContext) : Prop := mk_context_kernel_only {
  ko_workload : identity_kernel_only (workload c);
  ko_cgroup : kernel_only (cgroup_path c);
  ko_namespace : kernel_only (namespace_hint c);
  ko_container : kernel_only (container_hint c);
  ko_session : kernel_only (session_origin c)
}.

Lemma kernel_only_trusted {T} (e : Evidence T) v :
  kernel_only e → Evidence_value e = Some v → trusted e v.
Proof. destruct e; cbn; [|done..]. intros -> [= ->]. by apply trusted_Present. Qed.

(** ** Parent chains *)

(** The specification: [ps] are the successive parents of [p], none of them 0 or
    in [seen] or repeated; the list ends for one of the four reasons. *)
Inductive parent_chain (parent : N → option N) : nat → N → gset N → list N → Prop :=
  | chain_bound p seen : parent_chain parent 0 p seen []
  | chain_unreadable n p seen : parent p = None → parent_chain parent (S n) p seen []
  | chain_stop n p seen q :
      parent p = Some q → q = 0%N ∨ q ∈ seen → parent_chain parent (S n) p seen []
  | chain_hop n p seen q ps :
      parent p = Some q → q ≠ 0%N → q ∉ seen →
      parent_chain parent n q ({[q]} ∪ seen) ps → parent_chain parent (S n) p seen (q :: ps).

Lemma parent_chain_fun parent n p seen l1 l2 :
  parent_chain parent n p seen l1 → parent_chain parent n p seen l2 → l1 = l2.
Proof.
  intros H1. revert l2. induction H1 as [|? ? ? Hp|? ? ? ? Hp Hd|? ? ? ? ? Hp H0 Hs _ IH];
    intros l2; inversion 1; simplify_eq; try done; try tauto.
  f_equal. by apply IH.
Qed.

(** ** The walk along the parent chain

    The loop of both [ancestry] functions: [parent_of] reads the parent of a
    process, [describe] reads what is recorded of it, [seen] is the hash set and
    the fuel is the loop's bound. *)

Section walk.
Context {W : Type}.
Variable parent_of : N → collect W (option N).
Variable describe : N → collect W ProcessAncestor.
Hypothesis describe_pid : ∀ p, yields (λ a, anc_pid a = p) (describe p).

Fixpoint walk (hops : nat) (current : N) (seen : gset N) : collect W (list ProcessAncestor) :=
  match hops with
  | 0 => mret []
  | S hops =>
      o ← parent_of current;
      match o with
      | None => mret []
      | Some parent =>
          if decide (parent = 0%N ∨ parent ∈ seen) then mret []
          else
            a ← describe parent;
            out ← walk hops parent ({[parent]} ∪ seen);
            mret (a :: out)
      end
  end.

(** It ends after [hops] processes at the latest, and no process is visited
    twice, whatever chain the kernel reports. *)
Lemma walk_bounded hops current seen :
  yields (λ out, length out ≤ hops ∧ NoDup (anc_pid <$> out) ∧
                 ∀ p, p ∈ anc_pid <$> out → p ≠ 0%N ∧ p ∉ seen) (walk hops current seen).
Proof.
  assert (∀ s : gset N, (length (@nil ProcessAncestor) ≤ 0) ∧ NoDup (anc_pid <$> []) ∧
    ∀ p, p ∈ anc_pid <$> [] → p ≠ 0%N ∧ p ∉ s) as Hnil.
  { intros s. split; [done|]. split; [constructor|]. intros p Hp. by apply elem_of_nil in Hp. }
  revert current seen. induction hops as [|hops IH]; intros current seen; cbn [walk].
  { apply yields_ret, Hnil. }
  apply (yields_bind (λ _, True)); [apply yields_any|]. intros [parent|] _.
  2: { apply yields_ret. destruct (Hnil seen) as (? & ? & ?). split; [lia|done]. }
  case_decide as Hd.
  { apply yields_ret. destruct (Hnil seen) as (? & ? & ?). split; [lia|done]. }
  eapply yields_bind; [apply describe_pid|]. intros a Ha.
  eapply yields_bind; [apply IH|]. intros out (Hlen & Hnd & Hout).
  apply yields_ret. cbn. split; [lia|]. rewrite Ha. split.
  - constructor; [|done]. intros [_ Hp]%Hout. set_solver.
  - intros p [->|Hp]%elem_of_cons; [tauto|]. apply Hout in Hp. set_solver.
Qed.

(** What holds of the parents read, and of the processes described as parents. *)
Lemma walk_all_from (Q : N → Prop) (P : ProcessAncestor → Prop) hops current seen :
  (∀ p, yields (from_option Q True) (parent_of p)) → (∀ p, Q p → yields P (describe p)) →
  yields (Forall P) (walk hops current seen).
Proof.
  intros HQ HP. revert current seen.
  induction hops as [|hops IH]; intros current seen; cbn [walk]; [by apply yields_ret|].
  eapply yields_bind; [apply HQ|]. intros [parent|] Hq; [|by apply yields_ret].
  case_decide; [by apply yields_ret|].
  eapply yields_bind; [by apply HP|]. intros a Ha.
  eapply yields_bind; [apply IH|]. intros out Hout. apply yields_ret. by constructor.
Qed.

Lemma walk_all (P : ProcessAncestor → Prop) hops current seen :
  (∀ p, yields P (describe p)) → yields (Forall P) (walk hops current seen).
Proof.
  intros HP. apply (walk_all_from (λ _, True)); [|by intros p _].
  intros p w. by destruct (parent_of p w).1.
Qed.

(** *** A kernel that does not change during the walk *)

Section still.
Variable w : W.
Hypothesis parent_of_still : ∀ p, (parent_of p w).2 = w.
Hypothesis describe_still : ∀ p, (describe p w).2 = w.

Let parent (p : N) : option N := (parent_of p w).1.

Lemma walk_still hops current seen :
  (walk hops current seen w).2 = w ∧
  parent_chain parent hops current seen (anc_pid <$> (walk hops current seen w).1).
Proof.
  revert current seen. induction hops as [|hops IH]; intros current seen; cbn [walk].
  { split; [done|constructor]. }
  unfold mbind, collect_bind. pose proof (parent_of_still current) as Hp.
  assert (parent current = (parent_of current w).1) as Hq by done.
  destruct (parent_of current w) as [[q|] w']; cbn in Hp, Hq; subst w';
    [|split; [done|by constructor]].
  case_decide as Hd; [split; [done|by eapply chain_stop]|].
  pose proof (describe_pid q w) as Ha. pose proof (describe_still q) as Hw.
  destruct (describe q w) as [a w']; cbn in Ha, Hw; subst w'.
  destruct (IH q ({[q]} ∪ seen)) as [Hs Hc].
  destruct (walk hops q _ w) as [out w']; cbn in Hs, Hc |- *. subst w'.
  split; [done|]. rewrite Ha. eapply chain_hop; [done|tauto|tauto|done].
Qed.

End still.
End walk.

(** ** The agent's source of peer contexts *)

(** The collector of the platform the agent is built for. *)
Class PlatformIdentity (W : Type) : Type := {
  platform_identity (p : N) : collect W WorkloadIdentity
}.

(** [PeerContextSource::derive] on a connected socket. *)
Class PeerContextSource (W : Type) : Type := {
  derive (stream : N) : collect W (result PeerContext PeerCredentialError)
}.

(** What the agent relies on, whichever platform it is built for: the context is
    the one of the pid in the credential, everything in it was observed by the
    kernel or is absent, and no context that could not be tied to a process is
    [Consistent]. *)
Record peer_kernel_derived (p : PeerContext) : Prop := mk_peer_kernel_derived {
  pk_constructed : constructed p;
  pk_pid : pid (workload (observed p)) = cred_pid (credential p);
  pk_evidence : context_kernel_only (observed p);
  pk_unmapped : cred_pid (credential p) = 0%N → consistency p = PeerUnmapped
}.

Class KernelPeerSource (W : Type) `{PeerContextSource W} : Prop := {
  derive_kernel : ∀ stream w p, (derive stream w).1 = Ok p → peer_kernel_derived p
}.

(** ** Platforms without a collector

    On any other target both crates report [Unsupported] for every field and refuse
    to derive a peer. *)

Definition unsupported_workload_identity (p : N) : WorkloadIdentity :=
  mk_WorkloadIdentity p EvUnsupported EvUnsupported EvUnsupported EvUnsupported EvUnsupported [].

Definition unsupported_execution_context (p : N) : ExecutionContext :=
  mk_ExecutionContext (unsupported_workload_identity p)
    EvUnsupported EvUnsupported EvUnsupported EvUnsupported.

Definition unsupported_peer_context {W} (stream : N) :
    collect W (result PeerContext PeerCredentialError) :=
  mret (Err UnsupportedPlatform).
