(* ===== verification/Metal.v ===== *)
(** * The Metal probe and its workload

    Models [crates/eltanin-apple/src/probe.rs], the compute kernel that the Apple
    crate runs on a real device to see its result, and
    [crates/eltanin-apple/src/bin/metal_workload_fixture.rs], the program around it.
    The Metal library is a class of operations on a world that every call may move;
    its objects are numbers.  A 32-bit float is a [spec_float] of the Standard Library
    with 24 bits of precision, computed with that library's operations. *)

From Stdlib Require Import Strings.Ascii Floats.SpecFloat.
From stdpp Require Import pretty.
From S2P Require Import Prelude Text Resource PolicySpec Backend Collect.

Abbreviation f32 := spec_float.

(** [f32] arithmetic. *)
Definition f32_of_N (n : N) : f32 := binary_normalize 24 128 (Z.of_N n) 0 false.
Definition f32_mul (x y : f32) : f32 := SFmul 24 128 x y.
Definition f32_sub (x y : f32) : f32 := SFsub 24 128 x y.
Definition f32_gt (x y : f32) : bool := SFltb y x.
(** 2 to the -23. *)
Definition f32_EPSILON : f32 := S754_finite false 8388608 (-46).

(** The bits of an [f32]: the sign, eight of exponent, twenty-three of mantissa. *)
Definition f32_bits (x : f32) : N :=
  let signed (s : bool) (n : N) := ((if s then 2147483648 else 0) + n)%N in
  match x with
  | S754_zero s => signed s 0%N
  | S754_infinity s => signed s 2139095040%N
  | S754_nan => 2143289344%N
  | S754_finite s m e =>
      signed s (if decide (8388608 ≤ N.pos m)%N
                then Z.to_N (e + 150) * 8388608 + (N.pos m - 8388608) else N.pos m)%N
  end.

(** [f32::to_le_bytes]. *)
Definition f32_to_le_bytes (x : f32) : list N :=
  let n := f32_bits x in
  [n `mod` 256; (n `div` 256) `mod` 256; (n `div` 65536) `mod` 256;
   (n `div` 16777216) `mod` 256]%N.

(** ** The hash *)

Definition OFFSET_BASIS : N := 14695981039346656037.
Definition PRIME : N := 1099511628211.

Definition fnv1a_step (hash byte : N) : N := u64_wrapping_mul (N.lxor hash byte) PRIME.

Definition fnv1a_64 (bytes : list N) : N := foldl fnv1a_step OFFSET_BASIS bytes.

(** ** The probe *)

(** A text between quotation marks. *)
Definition quoted (s : string) : string :=
  String (ascii_of_nat 34) s +:+ String (ascii_of_nat 34) "".

Record ComputeProbeReport : Type := mk_ComputeProbeReport {
  probed_device_name : string;
  probed_registry_id : N;
  probed_unified_memory : bool;
  input_hash : N;
  element_count : N;
  verified_elements : N
}.

Record MTLSize : Type := mk_MTLSize { width : N; height : N; depth : N }.

Class Metal (W : Type) : Type := {
  MTLCopyAllDevices : collect W (list N);
  metal_name (device : N) : collect W string;
  metal_registryID (device : N) : collect W N;
  metal_hasUnifiedMemory (device : N) : collect W bool;
  newCommandQueue (device : N) : collect W (option N);
  newLibraryWithSource (device : N) (source : string) : collect W (result N string);
  newFunctionWithName (library : N) (name : string) : collect W (option N);
  newComputePipelineState (device function : N) : collect W (result N string);
  newBufferWithLength (device length : N) : collect W (option N);
  write_contents (buffer : N) (bytes : list N) : collect W ();
  commandBuffer (queue : N) : collect W (option N);
  computeCommandEncoder (command_buffer : N) : collect W (option N);
  setComputePipelineState (encoder pipeline : N) : collect W ();
  setBuffer (encoder buffer offset index : N) : collect W ();
  dispatchThreadgroups (encoder : N) (groups threads : MTLSize) : collect W ();
  endEncoding (encoder : N) : collect W ();
  commit (command_buffer : N) : collect W ();
  waitUntilCompleted (command_buffer : N) : collect W ();
  (** The float at an index of the contents of a buffer. *)
  read_contents (buffer : N) (index : nat) : collect W f32
}.

(** [?] on a result and on an option. *)
Definition try_ok {W A B E} (m : collect W (result A E)) (k : A → collect W (result B E)) :
    collect W (result B E) :=
  r ← m; match r with Ok a => k a | Err e => mret (Err e) end.

Definition try_some {W A B E} (m : collect W (option A)) (e : E)
    (k : A → collect W (result B E)) : collect W (result B E) :=
  try_ok (r ← m; mret (ok_or r e)) k.

Definition ELEMENT_COUNT : nat := 16.

Definition KERNEL_SOURCE : string :=
"
        #include <metal_stdlib>
        using namespace metal;

        kernel void double_elements(device const float* input [[buffer(0)]],
                                     device float* output [[buffer(1)]],
                                     uint id [[thread_position_in_grid]]) {
            output[id] = input[id] * 2.0;
        }
    ".

Definition probe_input : list f32 := (λ i, f32_of_N (N.of_nat i)) <$> seq 0 ELEMENT_COUNT.
Definition input_bytes : list N := probe_input ≫= f32_to_le_bytes.
Definition byte_len : N := 64.

(** [Display for f32]: the standard library's. *)
Class F32Display : Type := f32_show : f32 → string.

Definition transient (message : string) : BackendError := Transient message.

(** The test of one output element. *)
Definition is_wrong (value expected : f32) : bool :=
  f32_gt (SFabs (f32_sub value expected)) f32_EPSILON.

Section probe.
Context {W : Type} `{Metal W} `{F32Display}.

(** The loop over the output; the slice is as long as the input. *)
Fixpoint check_output (output : N) (i : nat) (input : list f32) :
    collect W (result () BackendError) :=
  match input with
  | [] => mret (Ok ())
  | x :: input =>
      value ← read_contents output i;
      let expected := f32_mul x (f32_of_N 2) in
      if is_wrong value expected then
        mret (Err (transient ("Metal compute probe produced wrong value at index " +:+
          pretty i +:+ ": expected " +:+ f32_show expected +:+ ", got " +:+ f32_show value)))
      else check_output output (S i) input
  end.

(** What follows the pipeline: the buffers, the command and the wait for it; the
    output buffer. *)
Definition run_kernel (device queue pipeline : N) : collect W (result N BackendError) :=
  try_some (newBufferWithLength device byte_len)
    (transient "Metal device could not allocate the input buffer") (λ input_buffer,
  try_some (newBufferWithLength device byte_len)
    (transient "Metal device could not allocate the output buffer") (λ output_buffer,
  _ ← write_contents input_buffer input_bytes;
  try_some (commandBuffer queue)
    (transient "Metal command queue could not create a command buffer") (λ command_buffer,
  try_some (computeCommandEncoder command_buffer)
    (transient "Metal command buffer could not create a compute encoder") (λ encoder,
  _ ← setComputePipelineState encoder pipeline;
  _ ← setBuffer encoder input_buffer 0 0;
  _ ← setBuffer encoder output_buffer 0 1;
  _ ← dispatchThreadgroups encoder (mk_MTLSize (N.of_nat ELEMENT_COUNT) 1 1)
        (mk_MTLSize 1 1 1);
  _ ← endEncoding encoder;
  _ ← commit command_buffer;
  _ ← waitUntilCompleted command_buffer;
  mret (Ok output_buffer))))).

(** [imp::run_compute_probe], on macOS. *)
Definition imp_run_compute_probe : collect W (result ComputeProbeReport BackendError) :=
  try_some (devices ← MTLCopyAllDevices; mret (head devices))
    (transient "no Metal device is currently present") (λ device,
  device_name ← metal_name device;
  registry_id ← metal_registryID device;
  has_unified_memory ← metal_hasUnifiedMemory device;
  try_some (newCommandQueue device)
    (transient "Metal device could not create a command queue") (λ queue,
  try_ok (r ← newLibraryWithSource device KERNEL_SOURCE;
          mret (map_err (λ e, transient ("Metal kernel source failed to compile: " +:+ e)) r))
    (λ library,
  try_some (newFunctionWithName library "double_elements")
    (transient ("compiled Metal library has no " +:+ quoted "double_elements" +:+ " function"))
    (λ function,
  try_ok (r ← newComputePipelineState device function;
          mret (map_err (λ e, transient ("Metal compute pipeline creation failed: " +:+ e)) r))
    (λ pipeline,
  try_ok (run_kernel device queue pipeline) (λ output_buffer,
  try_ok (check_output output_buffer 0 probe_input) (λ _,
  mret (Ok (mk_ComputeProbeReport device_name registry_id has_unified_memory
    (fnv1a_64 input_bytes) (N.of_nat ELEMENT_COUNT) (N.of_nat ELEMENT_COUNT)))))))))).

Definition run_compute_probe (target_macos : bool) :
    collect W (result ComputeProbeReport BackendError) :=
  if target_macos then imp_run_compute_probe else mret (Err (BUnsupported DiscoverResource)).

End probe.

(** ** The workload fixture *)

Definition SCHEMA_VERSION : N := 1.

Record FixtureHost : Type := mk_FixtureHost { arch : string; os : string }.

Record FixtureDevice : Type := mk_FixtureDevice {
  fixture_device_name : string;
  fixture_registry_id : string;
  fixture_unified_memory : bool
}.

Record FixtureWorkload : Type := mk_FixtureWorkload {
  kernel : string;
  fixture_element_count : N;
  fixture_input_hash : string
}.

Record FixtureResult : Type := mk_FixtureResult {
  fixture_verified_elements : N;
  all_elements_verified : bool;
  gpu_command_completed : bool
}.

Record FixtureEvidence : Type := mk_FixtureEvidence {
  fixture_schema_version : N;
  fixture : string;
  fixture_host : FixtureHost;
  fixture_device : FixtureDevice;
  fixture_workload : FixtureWorkload;
  fixture_result : FixtureResult
}.

(** [{:x}]: [digits] lower-case hexadecimal digits. *)
Definition hex_digit (n : N) : ascii :=
  ascii_of_N (if decide (n < 10)%N then 48 + n else 87 + n)%N.

Fixpoint hex_padded (digits : nat) (n : N) : string :=
  match digits with
  | 0 => ""
  | S digits => hex_padded digits (n `div` 16) +:+ String (hex_digit (n `mod` 16)) ""
  end.

(** Without the zeros in front of the last digit. *)
Fixpoint hex_trim (s : string) : string :=
  match s with
  | String c (String _ _ as rest) => if decide (c = "0"%char) then hex_trim rest else s
  | _ => s
  end.

(** [{:#x}] and [{:#018x}] of a [u64]. *)
Definition hex (n : N) : string := "0x" +:+ hex_trim (hex_padded 16 n).
Definition hex_018 (n : N) : string := "0x" +:+ hex_padded 16 n.

(** [Evidence::from]; [std::env::consts::ARCH] and [OS] are the build's. *)
Definition Evidence_from (build : FixtureHost) (report : ComputeProbeReport) :
    FixtureEvidence :=
  mk_FixtureEvidence SCHEMA_VERSION "eltanin-apple-metal-workload-fixture" build
    (mk_FixtureDevice (probed_device_name report) (hex (probed_registry_id report))
      (probed_unified_memory report))
    (mk_FixtureWorkload "double_elements" (element_count report) (hex_018 (input_hash report)))
    (mk_FixtureResult (verified_elements report)
      (bool_decide (verified_elements report = element_count report)) true).

Fixpoint parse_evidence_out (args : list string) : result (option string) string :=
  match args with
  | [] => Ok None
  | arg :: args =>
      if decide (arg = "--evidence-out") then
        match args with
        | [] => Err "--evidence-out requires a path argument"
        | path :: _ => Ok (Some path)
        end
      else parse_evidence_out args
  end.

(** What is said on the standard error. *)
Inductive fixture_message : Type :=
  | UsageRefused (message : string)
  | EvidenceUnwritten (path e : string)
  | NoMetalHere
  | ComputeFailed (e : BackendError).

(** Files and standard streams; an open file is a number. *)
Class FixtureIo (W : Type) : Type := {
  File_create (path : string) : collect W (result N string);
  write_all (file : N) (text : string) : collect W (result () string);
  println (text : string) : collect W ();
  eprintln (message : fixture_message) : collect W ()
}.

Section fixture.
Context {W : Type} `{Metal W} `{FixtureIo W} `{F32Display}.
Variable target_macos : bool.
Variable build : FixtureHost.
(** [serde_json::to_string_pretty]. *)
Variable to_string_pretty : FixtureEvidence → string.

Definition write_evidence_file (path json : string) : collect W (result () string) :=
  try_ok (File_create path) (λ file,
  try_ok (write_all file json) (λ _,
  write_all file newline)).

(** [main]: the exit status. *)
Definition fixture_main (args : list string) : collect W N :=
  match parse_evidence_out args with
  | Err message => _ ← eprintln (UsageRefused message); mret 1%N
  | Ok evidence_out =>
      r ← run_compute_probe target_macos;
      match r with
      | Ok report =>
          let json := to_string_pretty (Evidence_from build report) in
          _ ← println json;
          match evidence_out with
          | Some path =>
              r ← write_evidence_file path json;
              match r with
              | Err e => _ ← eprintln (EvidenceUnwritten path e); mret 2%N
              | Ok _ => mret 0%N
              end
          | None => mret 0%N
          end
      | Err (BUnsupported _) => _ ← eprintln NoMetalHere; mret 1%N
      | Err other => _ ← eprintln (ComputeFailed other); mret 2%N
      end
  end.

End fixture.

(** ** A concrete device

    Whatever is dispatched, the output buffer holds [sim_output]. *)

Record SimGpu : Type := mk_SimGpu {
  sim_devices : list N;
  sim_output : nat → f32;
  printed_lines : list string
}.

#[export] Instance SimGpu_metal : Metal SimGpu := {
  MTLCopyAllDevices := λ w, (sim_devices w, w);
  metal_name _ := mret "Apple M3 Max";
  metal_registryID _ := mret 4294968406%N;
  metal_hasUnifiedMemory _ := mret true;
  newCommandQueue _ := mret (Some 1%N);
  newLibraryWithSource _ _ := mret (Ok 2%N);
  newFunctionWithName _ _ := mret (Some 3%N);
  newComputePipelineState _ _ := mret (Ok 4%N);
  newBufferWithLength _ _ := mret (Some 5%N);
  write_contents _ _ := mret ();
  commandBuffer _ := mret (Some 6%N);
  computeCommandEncoder _ := mret (Some 7%N);
  setComputePipelineState _ _ := mret ();
  setBuffer _ _ _ _ := mret ();
  dispatchThreadgroups _ _ _ := mret ();
  endEncoding _ := mret ();
  commit _ := mret ();
  waitUntilCompleted _ := mret ();
  read_contents _ i := λ w, (sim_output w i, w)
}.

#[export] Instance SimGpu_io : FixtureIo SimGpu := {
  File_create _ := mret (Err "read-only file system");
  write_all _ _ := mret (Ok ());
  println text := λ w, ((), mk_SimGpu (sim_devices w) (sim_output w) (printed_lines w ++ [text]));
  eprintln _ := mret ()
}.

#[export] Instance no_digits : F32Display := λ _, "float".

(** The same device with no state at all. *)
Definition still_metal (f : nat → f32) : Metal () := {|
  MTLCopyAllDevices := mret [1%N];
  metal_name _ := mret "still";
  metal_registryID _ := mret 1%N;
  metal_hasUnifiedMemory _ := mret true;
  newCommandQueue _ := mret (Some 1%N);
  newLibraryWithSource _ _ := mret (Ok 2%N);
  newFunctionWithName _ _ := mret (Some 3%N);
  newComputePipelineState _ _ := mret (Ok 4%N);
  newBufferWithLength _ _ := mret (Some 5%N);
  write_contents _ _ := mret ();
  commandBuffer _ := mret (Some 6%N);
  computeCommandEncoder _ := mret (Some 7%N);
  setComputePipelineState _ _ := mret ();
  setBuffer _ _ _ _ := mret ();
  dispatchThreadgroups _ _ _ := mret ();
  endEncoding _ := mret ();
  commit _ := mret ();
  waitUntilCompleted _ := mret ();
  read_contents _ i := mret (f i)
|}.

Definition doubling_gpu : SimGpu :=
  mk_SimGpu [1%N] (λ i, f32_mul (f32_of_N (N.of_nat i)) (f32_of_N 2)) [].

(** The report of the run recorded in docs/qa/evidence/HORO-1015. *)
Example recorded_run :
  Evidence_from (mk_FixtureHost "aarch64" "macos") <$>
    match (run_compute_probe true doubling_gpu).1 with Ok r => Some r | Err _ => None end =
  Some (mk_FixtureEvidence 1 "eltanin-apple-metal-workload-fixture"
    (mk_FixtureHost "aarch64" "macos")
    (mk_FixtureDevice "Apple M3 Max" "0x100000456" true)
    (mk_FixtureWorkload "double_elements" 16 "0x13fdf84d829c1708")
    (mk_FixtureResult 16 true true)).
Proof. by vm_compute. Qed.

(** The published reference values. *)
Example fnv1a_64_reference :
  fnv1a_64 [] = 14695981039346656037%N ∧ fnv1a_64 [97%N] = 12638187200555641996%N ∧
  fnv1a_64 [102; 111; 111; 98; 97; 114]%N = 9625390261332436968%N.
Proof. by vm_compute. Qed.

(** ** Lemmas *)

(** The inverse of [PRIME] modulo 2 to the 64. *)
Definition PRIME_inverse : N := 14886173955864302971.

Lemma u64_word_pow : (u64_max + 1 = 2 ^ 64)%N.
Proof. done. Qed.

Lemma fnv1a_64_snoc bytes b : fnv1a_64 (bytes ++ [b]) = fnv1a_step (fnv1a_64 bytes) b.
Proof. unfold fnv1a_64. by rewrite foldl_app. Qed.

Lemma fnv1a_64_bound bytes : (fnv1a_64 bytes < 2 ^ 64)%N.
Proof.
  destruct bytes as [|b bytes] using rev_ind; [done|].
  rewrite fnv1a_64_snoc. unfold fnv1a_step, u64_wrapping_mul. rewrite u64_word_pow.
  by apply N.mod_upper_bound.
Qed.

Lemma lxor_bound n a b : (a < 2 ^ n → b < 2 ^ n → N.lxor a b < 2 ^ n)%N.
Proof.
  intros Ha Hb. destruct (decide (N.lxor a b = 0%N)) as [->|Hne]; [lia|].
  apply N.log2_lt_pow2; [lia|]. pose proof (N.log2_lxor a b).
  assert (a ≠ 0 ∨ b ≠ 0)%N as Hnz.
  { destruct (decide (a = 0%N)) as [->|]; [|by left]. right. intros ->. done. }
  assert (∀ x, x < 2 ^ n → N.log2 x < n ∨ x = 0)%N as Hlog.
  { intros x Hx. destruct (decide (x = 0%N)); [by right|left]. apply N.log2_lt_pow2; lia. }
  destruct (Hlog a Ha) as [?| ->], (Hlog b Hb) as [?| ->]; cbn [N.log2] in *; lia.
Qed.

(** A step is injective in the word that it multiplies. *)
Lemma wrapping_mul_prime_inj x y :
  (x < 2 ^ 64)%N → (y < 2 ^ 64)%N →
  u64_wrapping_mul x PRIME = u64_wrapping_mul y PRIME → x = y.
Proof.
  unfold u64_wrapping_mul. rewrite u64_word_pow. intros Hx Hy Heq.
  assert (∀ z, z < 2 ^ 64 → ((z * PRIME) mod 2 ^ 64 * PRIME_inverse) mod 2 ^ 64 = z)%N as Hinv.
  { intros z Hz. rewrite N.Div0.mul_mod_idemp_l, <-N.mul_assoc.
    rewrite <-N.Div0.mul_mod_idemp_r.
    replace ((PRIME * PRIME_inverse) mod 2 ^ 64)%N with 1%N by (by vm_compute).
    rewrite N.mul_1_r. by apply N.mod_small. }
  rewrite <-(Hinv x Hx), <-(Hinv y Hy). by rewrite Heq.
Qed.

Lemma fnv1a_step_inj h h' b b' :
  (h < 2 ^ 64)%N → (h' < 2 ^ 64)%N → (b < 256)%N → (b' < 256)%N →
  fnv1a_step h b = fnv1a_step h' b' → N.lxor h b = N.lxor h' b'.
Proof. intros ????. by apply wrapping_mul_prime_inj; apply lxor_bound; [|lia..]. Qed.

(** Appending the same bytes keeps two hashes apart. *)
Lemma fnv1a_64_app_inj l l' post :
  Forall (λ b, b < 256)%N post → fnv1a_64 (l ++ post) = fnv1a_64 (l' ++ post) →
  fnv1a_64 l = fnv1a_64 l'.
Proof.
  induction post as [|b post IH] using rev_ind; [by rewrite !app_nil_r|].
  rewrite Forall_app, Forall_singleton. intros [Hpost Hb]. rewrite !(assoc_L (++)), !fnv1a_64_snoc.
  intros Heq. apply fnv1a_step_inj in Heq; [|by apply fnv1a_64_bound..|done|done].
  apply IH; [done|]. apply (f_equal (λ x, N.lxor x b)) in Heq.
  by rewrite !N.lxor_assoc, !N.lxor_nilpotent, !N.lxor_0_r in Heq.
Qed.

(** Comparison with [f32_EPSILON] is total but for NaN. *)
Lemma is_wrong_false value expected :
  is_wrong value expected = false ↔
  f32_sub value expected = S754_nan ∨
  SFleb (SFabs (f32_sub value expected)) f32_EPSILON = true.
Proof.
  unfold is_wrong, f32_gt, SFltb, SFleb, f32_EPSILON.
  destruct (f32_sub value expected) as [s|s| |s m e]; cbn -[Z.compare Pos.compare_cont];
    [naive_solver..|].
  rewrite (Z.compare_antisym (-46) e).
  assert (Pos.compare_cont Eq 8388608 m = CompOpp (Pos.compare_cont Eq m 8388608)) as ->.
  { by rewrite Pos.compare_cont_antisym. }
  destruct (Z.compare (-46) e); cbn -[Pos.compare_cont];
    [destruct (Pos.compare_cont Eq m 8388608); cbn|..]; naive_solver.
Qed.

(** What the check accepts of the element with a number. *)
Definition accepted (i : nat) (value : f32) : Prop :=
  f32_sub value (f32_of_N (2 * N.of_nat i)) = S754_nan ∨
  SFleb (SFabs (f32_sub value (f32_of_N (2 * N.of_nat i)))) f32_EPSILON = true.

Lemma probe_input_doubled i x :
  probe_input !! i = Some x → f32_mul x (f32_of_N 2) = f32_of_N (2 * N.of_nat i).
Proof.
  intros Hx. assert (i < ELEMENT_COUNT) as Hi.
  { apply lookup_lt_Some in Hx. by unfold probe_input in Hx; rewrite length_fmap, length_seq in Hx. }
  revert Hx. do 16 (destruct i as [|i]; [by intros [= <-]|]). unfold ELEMENT_COUNT in Hi. lia.
Qed.

Lemma accepted_double i : i < ELEMENT_COUNT → accepted i (f32_of_N (2 * N.of_nat i)).
Proof.
  unfold ELEMENT_COUNT. intros Hi. right. do 16 (destruct i as [|i]; [by vm_compute|]). lia.
Qed.

Lemma not_accepted_infinity i s : i < ELEMENT_COUNT → ¬ accepted i (S754_infinity s).
Proof.
  unfold ELEMENT_COUNT. intros Hi.
  do 16 (destruct i as [|i]; [by destruct s; intros []|]). lia.
Qed.

Lemma drop_probe_input i x input :
  drop i probe_input = x :: input →
  probe_input !! i = Some x ∧ drop (S i) probe_input = input.
Proof.
  intros Hd. split.
  - rewrite <-(Nat.add_0_r i), <-lookup_drop. by rewrite Hd.
  - rewrite <-Nat.add_1_r, <-drop_drop. by rewrite Hd.
Qed.

(** A result that does not say the target is unsupported. *)
Definition supported {A} (r : result A BackendError) : Prop := ∀ c, r ≠ Err (BUnsupported c).

Section probe_lemmas.
Context {W : Type} `{Metal W} `{F32Display}.

Lemma yields_try_ok {A B} (m : collect W (result A BackendError)) k :
  yields supported m → (∀ a, yields (W := W) supported (k a : collect W (result B BackendError))) →
  yields supported (try_ok m k).
Proof.
  intros Hm Hk. eapply yields_bind; [exact Hm|]. intros [a|e] Hr; [apply Hk|].
  apply yields_ret. intros c. specialize (Hr c). congruence.
Qed.

Lemma yields_try_some {A B} (m : collect W (option A)) message k :
  (∀ a, yields (W := W) supported (k a : collect W (result B BackendError))) →
  yields supported (try_some m (transient message) k).
Proof.
  intros Hk. apply yields_try_ok; [|done]. eapply yields_bind; [apply yields_any|].
  intros [a|] _; by apply yields_ret.
Qed.

Lemma yields_map_transient {A} (m : collect W (result A string)) (text : string → string) :
  yields supported (r ← m; mret (map_err (λ e, transient (text e)) r)).
Proof. eapply yields_bind; [apply yields_any|]. intros [a|e] _; by apply yields_ret. Qed.

Lemma yields_seq {B} (m : collect W ()) (k : () → collect W (result B BackendError)) :
  (∀ u, yields supported (k u)) → yields supported (m ≫= k).
Proof. intros Hk. eapply yields_bind; [apply yields_any|]. intros u _. apply Hk. Qed.

Lemma check_output_supported b i input : yields supported (check_output b i input).
Proof.
  revert i. induction input as [|x input IH]; intros i; cbn [check_output]; [by apply yields_ret|].
  eapply yields_bind; [apply yields_any|]. intros value _. cbv zeta.
  destruct (is_wrong value _); [by apply yields_ret|apply IH].
Qed.

Lemma run_kernel_supported d q p : yields supported (run_kernel d q p).
Proof.
  unfold run_kernel. repeat first [apply yields_try_some; intros ?|apply yields_seq; intros ?].
  by apply yields_ret.
Qed.

(** On macOS the probe never answers that the target is unsupported. *)
Lemma imp_run_compute_probe_supported : yields supported imp_run_compute_probe.
Proof.
  unfold imp_run_compute_probe. apply yields_try_some. intros d.
  do 3 (eapply yields_bind; [apply yields_any|]; intros ? _).
  apply yields_try_some. intros q.
  apply yields_try_ok; [apply yields_map_transient|]. intros l. apply yields_try_some. intros f.
  apply yields_try_ok; [apply yields_map_transient|]. intros p.
  apply yields_try_ok; [apply run_kernel_supported|]. intros b.
  apply yields_try_ok; [apply check_output_supported|]. intros []. by apply yields_ret.
Qed.

Lemma try_ok_Ok {A B E} (m : collect W (result A E)) (k : A → collect W (result B E)) w b w' :
  try_ok m k w = (Ok b, w') → ∃ a w1, m w = (Ok a, w1) ∧ k a w1 = (Ok b, w').
Proof.
  unfold try_ok, mbind, collect_bind. destruct (m w) as [[a|e] w1]; [|done]. by exists a, w1.
Qed.

Lemma try_some_Ok {A B E} (m : collect W (option A)) e (k : A → collect W (result B E)) w b w' :
  try_some m e k w = (Ok b, w') → ∃ a w1, m w = (Some a, w1) ∧ k a w1 = (Ok b, w').
Proof.
  unfold try_some. intros (a & w1 & Hm & Hk)%try_ok_Ok. exists a, w1. split; [|done].
  revert Hm. unfold mbind, collect_bind. destruct (m w) as [[a'|] w2]; [|done].
  by intros [= -> ->].
Qed.

Lemma bind_inv {A B} (m : collect W A) (k : A → collect W B) w r :
  (m ≫= k) w = r → ∃ a w1, m w = (a, w1) ∧ k a w1 = r.
Proof.
  unfold mbind, collect_bind. destruct (m w) as [a w1]. by exists a, w1.
Qed.

Lemma bind_eq {A B} (m : collect W A) (k : A → collect W B) w a w1 :
  m w = (a, w1) → (m ≫= k) w = k a w1.
Proof. unfold mbind, collect_bind. by intros ->. Qed.

(** A dispatch that succeeds ends with the wait for its command. *)
Lemma run_kernel_Ok d q p w b w' :
  run_kernel d q p w = (Ok b, w') → ∃ cb w1, w' = (waitUntilCompleted cb w1).2.
Proof.
  unfold run_kernel.
  intros (ib & w1 & _ & (ob & w2 & _ & (? & w3 & _ & Hc)%bind_inv)%try_some_Ok)%try_some_Ok.
  apply try_some_Ok in Hc as (cb & w4 & _ & (enc & w5 & _ & Hs)%try_some_Ok).
  repeat (apply bind_inv in Hs as (? & ? & ?Hlast & Hs)).
  injection Hs as _ <-. eexists cb, _. by rewrite Hlast5.
Qed.

Lemma mapM_cons_collect {A B} (f : A → collect W B) x l w y w1 ys w2 :
  f x w = (y, w1) → mapM f l w1 = (ys, w2) → mapM f (x :: l) w = (y :: ys, w2).
Proof.
  intros Hf Hl. change (mapM f (x :: l)) with (y ← f x; k ← mapM f l; mret (y :: k)).
  by rewrite (bind_eq _ _ _ _ _ Hf), (bind_eq _ _ _ _ _ Hl).
Qed.

Lemma check_output_Ok b i input w w' :
  drop i probe_input = input → check_output b i input w = (Ok (), w') →
  ∃ values, mapM (read_contents b) (seq i (length input)) w = (values, w') ∧
    ∀ k v, values !! k = Some v → accepted (i + k) v.
Proof.
  revert i w. induction input as [|x input IH]; intros i w Hd; cbn [check_output].
  { intros [= <-]. by exists []. }
  apply drop_probe_input in Hd as [Hx Hd]. intros (value & w1 & Hr & Hc)%bind_inv.
  cbv zeta in Hc. destruct (is_wrong value _) eqn:Hw; [done|].
  destruct (IH (S i) w1 Hd Hc) as (values & Hm & Hv). exists (value :: values). split.
  - change (seq i (length (x :: input))) with (i :: seq (S i) (length input)).
    by apply (mapM_cons_collect _ _ _ _ value w1 values).
  - rewrite (probe_input_doubled i x Hx) in Hw. apply is_wrong_false in Hw.
    intros [|k] v; [intros [= ->]|]; [by rewrite Nat.add_0_r|]. intros Hk.
    rewrite <-plus_n_Sm. by apply (Hv k).
Qed.

(** Of a buffer that does not change, the check accepts exactly the acceptable. *)
Lemma check_output_static b (f : nat → f32) i input w :
  (∀ k w, (read_contents b k w).1 = f k) → drop i probe_input = input →
  (check_output b i input w).1 = Ok () ↔ ∀ k, i ≤ k < ELEMENT_COUNT → accepted k (f k).
Proof.
  intros Hf. revert i w. induction input as [|x input IH]; intros i w Hd; cbn [check_output].
  { split; [|done]. intros _ k [Hk1 Hk2]. apply (f_equal length) in Hd.
    rewrite length_drop in Hd. unfold probe_input in Hd.
    rewrite length_fmap, length_seq in Hd. cbn [length] in Hd. lia. }
  apply drop_probe_input in Hd as [Hx Hd].
  assert (i < ELEMENT_COUNT) as Hi.
  { apply lookup_lt_Some in Hx. by unfold probe_input in Hx; rewrite length_fmap, length_seq in Hx. }
  unfold mbind, collect_bind. specialize (Hf i w) as Hv. destruct (read_contents b i w) as [v w1].
  cbn [fst] in Hv. subst v. cbv zeta. rewrite (probe_input_doubled i x Hx).
  destruct (is_wrong (f i) _) eqn:Hw.
  - split; [done|]. intros Hall. specialize (Hall i ltac:(lia)). apply is_wrong_false in Hall.
    congruence.
  - rewrite (IH (S i) w1 Hd). apply is_wrong_false in Hw. split; intros Hall k Hk.
    + destruct (decide (k = i)) as [->|]; [done|]. apply Hall. lia.
    + apply Hall. lia.
Qed.

End probe_lemmas.

(** ** Properties *)

(** One wrong byte always shows: two inputs that differ in one byte have different
    hashes, and a hash fits 64 bits. *)
Theorem fnv1a_64_single_byte (pre post : list N) (a b : N)
    (Ha : (a < 256)%N) (Hb : (b < 256)%N) (Hne : a ≠ b) (Hpost : Forall (λ x, x < 256)%N post) :
  fnv1a_64 (pre ++ a :: post) ≠ fnv1a_64 (pre ++ b :: post) ∧
  (fnv1a_64 (pre ++ a :: post) ≤ u64_max)%N.
Proof.
  split; [|pose proof (fnv1a_64_bound (pre ++ a :: post)); unfold u64_max; lia].
  rewrite !(cons_middle _ pre). intros Heq. rewrite !(assoc_L (++)) in Heq.
  apply fnv1a_64_app_inj in Heq; [|done]. rewrite !fnv1a_64_snoc in Heq.
  apply fnv1a_step_inj in Heq; [|by apply fnv1a_64_bound..|done|done].
  apply (f_equal (N.lxor (fnv1a_64 pre))) in Heq.
  rewrite <-!N.lxor_assoc, !N.lxor_nilpotent, !N.lxor_0_l in Heq. done.
Qed.

Section properties.
Context {W : Type} `{Metal W} `{FixtureIo W} `{F32Display}.

(** A report is about a run that happened.  Whatever the Metal
    library answers, the probe reports success only on macOS, after the wait for a
    command, when all sixteen values then read from the output buffer were
    accepted: each is within [f32_EPSILON] of twice its index, or is not a number at
    all.  The report's hash is that of the recorded runs. *)
Theorem probe_report_sound (target_macos : bool) (w w' : W) (r : ComputeProbeReport)
    (Hok : run_compute_probe target_macos w = (Ok r, w')) :
  target_macos = true ∧ element_count r = 16%N ∧ verified_elements r = 16%N ∧
  hex_018 (input_hash r) = "0x13fdf84d829c1708" ∧
  ∃ command output w1 values,
    mapM (read_contents output) (seq 0 ELEMENT_COUNT) (waitUntilCompleted command w1).2 =
      (values, w') ∧
    ∀ i v, values !! i = Some v → accepted i v.
Proof.
  destruct target_macos; [|done]. split; [done|].
  unfold run_compute_probe, imp_run_compute_probe in Hok.
  apply try_some_Ok in Hok as (d & w1 & _ & Hok).
  apply bind_inv in Hok as (name & w2 & _ & Hok). apply bind_inv in Hok as (id & w3 & _ & Hok).
  apply bind_inv in Hok as (unified & w4 & _ & Hok).
  apply try_some_Ok in Hok as (q & w5 & _ & Hok). apply try_ok_Ok in Hok as (l & w6 & _ & Hok).
  apply try_some_Ok in Hok as (f & w7 & _ & Hok). apply try_ok_Ok in Hok as (p & w8 & _ & Hok).
  apply try_ok_Ok in Hok as (output & w9 & Hd & Hok).
  apply try_ok_Ok in Hok as ([] & w10 & Hc & Hok).
  injection Hok as <- <-. split; [done|]. split; [done|]. split; [by vm_compute|].
  apply run_kernel_Ok in Hd as (command & w11 & ->).
  apply (check_output_Ok output 0 probe_input) in Hc as (values & Hm & Hv); [|done].
  by exists command, output, w11, values.
Qed.

(** The evidence was written, when a path was given. *)
Definition evidence_written (build : FixtureHost) (to_json : FixtureEvidence → string)
    (out : option string) (r : ComputeProbeReport) (w : W) : Prop :=
  ∀ path, out = Some path →
    let json := to_json (Evidence_from build r) in
    (write_evidence_file path json (println json w).2).1 = Ok ().

(** The exit status, without what is said. *)
Lemma fixture_main_status target_macos build to_json args w :
  (fixture_main target_macos build to_json args w).1 =
  match parse_evidence_out args with
  | Err _ => 1%N
  | Ok out =>
      match run_compute_probe target_macos w with
      | (Ok r, w1) =>
          let json := to_json (Evidence_from build r) in
          match out with
          | None => 0%N
          | Some path =>
              match (write_evidence_file path json (println json w1).2).1 with
              | Ok _ => 0%N
              | Err _ => 2%N
              end
          end
      | (Err (BUnsupported _), _) => 1%N
      | (Err _, _) => 2%N
      end
  end.
Proof.
  unfold fixture_main, mbind, collect_bind. destruct (parse_evidence_out args) as [out|m].
  2: { by destruct (eprintln (UsageRefused m) w). }
  destruct (run_compute_probe target_macos w) as [[r|e] w1].
  2: { destruct e; by destruct (eprintln _ w1). }
  cbv zeta. destruct (println _ w1) as [u w2]. destruct out as [path|]; [|done]. cbn [snd].
  destruct (write_evidence_file path _ w2) as [[[]|e] w3]; [done|].
  by destruct (eprintln (EvidenceUnwritten path e) w3).
Qed.

Ltac status_case :=
  repeat split; intros; repeat match goal with
    | Hex : ∃ _, _ |- _ => destruct Hex
    | Hand : _ ∧ _ |- _ => destruct Hand
    | Hor : _ ∨ _ |- _ => destruct Hor
    end; simplify_eq; try lia; try done.

(** What the fixture's exit status says.  It is 1 exactly when the
    arguments are refused or the target is not macOS, 0 exactly when the probe
    reported and the evidence asked for was written, and otherwise 2.  So a Mac
    without a Metal device answers 2, and not 1 as documented. *)
Theorem fixture_status (target_macos : bool) (build : FixtureHost)
    (to_json : FixtureEvidence → string) (args : list string) (w : W) :
  let status := (fixture_main target_macos build to_json args w).1 in
  (status = 1%N ↔ (∃ m, parse_evidence_out args = Err m) ∨ target_macos = false) ∧
  (status = 0%N ↔ ∃ out r w1, parse_evidence_out args = Ok out ∧
     run_compute_probe target_macos w = (Ok r, w1) ∧ evidence_written build to_json out r w1) ∧
  (status ≤ 2)%N ∧
  (∀ out, parse_evidence_out args = Ok out → target_macos = true →
     (MTLCopyAllDevices w).1 = [] → status = 2%N).
Proof.
  intros status. subst status. rewrite fixture_main_status.
  pose proof (imp_run_compute_probe_supported w) as Hsup.
  assert ((MTLCopyAllDevices w).1 = [] → ∃ e, (imp_run_compute_probe w).1 = Err (transient e))
    as Hnone.
  { intros Hd. unfold imp_run_compute_probe, try_some, try_ok, mbind, collect_bind.
    destruct (MTLCopyAllDevices w) as [ds w1]. cbn in Hd. subst ds. cbn. by eexists. }
  unfold evidence_written.
  destruct (parse_evidence_out args) as [out|m]; [|by status_case; left; exists m].
  destruct target_macos; [|by cbn; status_case; right]. cbn [run_compute_probe].
  destruct (imp_run_compute_probe w) as [[r|e] w1]; cbn [fst] in Hsup, Hnone.
  - assert ((MTLCopyAllDevices w).1 ≠ []) as Hsome by (intros Hd; by destruct (Hnone Hd)).
    cbv zeta. destruct out as [path|]; [|by status_case; exists None, r, w1].
    destruct ((write_evidence_file path _ _).1) as [[]|e] eqn:Hw; status_case.
    + exists (Some path), r, w1. split; [done|]. split; [done|]. by intros ? [= <-].
    + match goal with Hall : ∀ p, _ → _ = Ok () |- _ => specialize (Hall path eq_refl) end.
      congruence.
  - destruct e as [c| | | |]; [by destruct (Hsup c)|..]; status_case.
Qed.

(** What the check of the output catches.  When the output buffer holds
    [f], the check passes exactly when every one of the sixteen values is accepted.
    So it passes when the kernel doubled the input, and an output that was never
    written, or is the input itself, or holds an infinity, is refused; but an output
    of values that are not numbers passes. *)
Theorem output_check_exact (b : N) (f : nat → f32) (w : W)
    (Hf : ∀ i w, (read_contents b i w).1 = f i) :
  let passes := (check_output b 0 probe_input w).1 = Ok () in
  (passes ↔ ∀ i, i < ELEMENT_COUNT → accepted i (f i)) ∧
  ((∀ i, f i = f32_of_N (2 * N.of_nat i)) → passes) ∧
  ((∀ i, f i = f32_of_N 0) ∨ (∀ i, f i = f32_of_N (N.of_nat i)) ∨
     (∃ i s, i < ELEMENT_COUNT ∧ f i = S754_infinity s) → ¬ passes) ∧
  ((∀ i, f i = S754_nan) → passes).
Proof.
  cbv zeta.
  assert ((check_output b 0 probe_input w).1 = Ok () ↔
    ∀ i, i < ELEMENT_COUNT → accepted i (f i)) as Hiff.
  { rewrite (check_output_static b f 0 probe_input w Hf) by done. naive_solver lia. }
  split; [done|]. rewrite Hiff. split; [|split].
  - intros Hd i Hi. rewrite Hd. by apply accepted_double.
  - intros [Hz|[Hc|(i & s & Hi & Hs)]] Hall.
    + specialize (Hall 1 ltac:(unfold ELEMENT_COUNT; lia)). rewrite Hz in Hall.
      by destruct Hall.
    + specialize (Hall 1 ltac:(unfold ELEMENT_COUNT; lia)). rewrite Hc in Hall.
      by destruct Hall.
    + specialize (Hall i Hi). rewrite Hs in Hall. by apply (not_accepted_infinity i s).
  - intros Hn i _. rewrite Hn. by left.
Qed.

End properties.

(** ** Witnesses *)

Definition nan_gpu : SimGpu := mk_SimGpu [1%N] (λ _, S754_nan) [].

(** A device whose every answer is not a number is reported as verified. *)
Example nan_output_reported_verified :
  fixture_main true (mk_FixtureHost "aarch64" "macos")
    (λ e, if all_elements_verified (fixture_result e) then "verified" else "not verified")
    [] nan_gpu = (0%N, mk_SimGpu [1%N] (λ _, S754_nan) ["verified"]).
Proof. by vm_compute. Qed.

Lemma fnv1a_64_single_byte_witness :
  fnv1a_64 ([1] ++ 2 :: [3])%N ≠ fnv1a_64 ([1] ++ 4 :: [3])%N.
Proof. apply (fnv1a_64_single_byte [1%N] [3%N] 2 4); [lia|lia|done|by constructor]. Defined.

Definition doubled (i : nat) : f32 := f32_mul (f32_of_N (N.of_nat i)) (f32_of_N 2).

#[local] Instance still_doubling : Metal () := still_metal doubled.

Lemma probe_report_sound_witness :
  ∃ output command values,
    mapM (read_contents output) (seq 0 ELEMENT_COUNT) (waitUntilCompleted command ()).2 =
      (values, ()) ∧
    ∀ i v, values !! i = Some v → accepted i v.
Proof.
  destruct (probe_report_sound true () ()
    (mk_ComputeProbeReport "still" 1 true 1440580467615864584 16 16))
    as (_ & _ & _ & _ & command & output & [] & values & Hm & Hv); [by vm_compute|].
  by exists output, command, values.
Defined.

Lemma fixture_status_witness :
  (fixture_main true (mk_FixtureHost "aarch64" "macos") (λ _, "")
    ["--evidence-out"; "evidence.json"] (mk_SimGpu [] (λ _, S754_nan) [])).1 = 2%N.
Proof.
  apply (fixture_status true (mk_FixtureHost "aarch64" "macos") (λ _, "")
    ["--evidence-out"; "evidence.json"] (mk_SimGpu [] (λ _, S754_nan) []))
    with (out := Some "evidence.json"); reflexivity.
Defined.

Lemma output_check_exact_witness :
  (@check_output _ (still_metal (λ _, S754_nan)) _ 5 0 probe_input ()).1 = Ok ().
Proof.
  apply (@output_check_exact _ (still_metal (λ _, S754_nan)) _ 5 (λ _, S754_nan) ());
    [by intros|done].
Defined.
