(* ===== verification/Linux.v ===== *)
(** * Linux evidence

    Models [crates/eltanin-linux/src/lib.rs] and [peer.rs]: the identity and
    execution context of a process from [/proc], and the peer of a socket from
    [SO_PEERCRED], cross-checked with [/proc/PID/status].  The kernel is a state
    that answers reads of files and links; the texts it writes in the theorems are
    those documented in proc(5). *)

From Stdlib Require Import Strings.Ascii.
From S2P Require Import Prelude Text Resource Identity PolicySpec.
From S2P Require Import Peer Protocol Connection Collect.

(** [ucred] of a connected socket; the process id is a non-zero [i32]. *)
Record UCred : Type := mk_UCred {
  ucred_pid : Z;
  ucred_uid : N;
  ucred_gid : N
}.

(** [std::fs::read_to_string], [read_link] with its target as text
    ([to_string_lossy]), and [rustix::net::sockopt::socket_peercred]; an error is
    its display text. *)
Class LinuxKernel (W : Type) : Type := {
  read_to_string (path : string) : collect W (result string string);
  read_link (path : string) : collect W (result string string);
  socket_peercred (stream : N) : collect W (result UCred string)
}.

(** The text of a string formatted with [{:?}]. *)
Class StrDebug : Type := { str_debug : string → string }.

Definition proc_file (p : N) (name : string) : string := "/proc/" +:+ pretty p +:+ "/" +:+ name.

Definition MAX_ANCESTRY_DEPTH : nat := 32.

(** ** Parsers *)

Record StatFields : Type := mk_StatFields {
  ppid : N;
  starttime : N
}.

#[export] Instance StatFields_eq_dec : EqDecision StatFields.
Proof. solve_decision. Defined.

Section linux.
Context {W : Type} `{LinuxKernel W} `{StrDebug}.

(** [parse_stat] after its read: the fields from the third on follow the last
    closing parenthesis. *)
Definition parse_stat_text (observed_pid : N) (raw : string) : result StatFields string :=
  let? after_comm := ok_or (snd <$> rsplit_once ")"%char raw)
    (proc_file observed_pid "stat" +:+ " missing ')': " +:+ str_debug raw) in
  let fields := split_whitespace after_comm in
  let? parent_field := ok_or (fields !! (4 - 3)) "missing ppid field" in
  let? parent := map_err (λ e, "parse ppid: " +:+ ParseIntError_text e)
    (parse_uint u32_max parent_field) in
  let? start_field := ok_or (fields !! (22 - 3)) "missing starttime field" in
  let? start := map_err (λ e, "parse starttime: " +:+ ParseIntError_text e)
    (parse_uint u64_max start_field) in
  Ok (mk_StatFields parent start).

Definition parse_stat (observed_pid : N) : collect W (result StatFields string) :=
  r ← read_to_string (proc_file observed_pid "stat");
  mret (let? raw := map_err
          (λ e, "read " +:+ proc_file observed_pid "stat" +:+ ": " +:+ e) r in
        parse_stat_text observed_pid raw).

Definition process_start_of (p : N) : collect W (Evidence ProcessStartToken) :=
  r ← parse_stat p;
  mret match r with
       | Ok stat => Present (mk_ProcessStartToken (starttime stat)) KernelObserved
       | Err reason => Missing reason
       end.

Definition parent_pid (p : N) : collect W (option N) :=
  r ← parse_stat p;
  mret match r with
       | Ok s => Some (ppid s)
       | Err _ => None
       end.

(** The closure [parse] of [read_status_ids]. *)
Definition parse_status_field (label line which : string) (raw : option string) : Evidence N :=
  match parse_uint u32_max <$> raw with
  | Some (Ok value) => Present value KernelObserved
  | Some (Err e) =>
      Missing ("parse " +:+ label +:+ " " +:+ which +:+ ": " +:+ ParseIntError_text e)
  | None => Missing (label +:+ " line missing " +:+ which +:+ " value: " +:+ str_debug line)
  end.

(** [read_status_ids] after its read. *)
Definition parse_status_ids (p : N) (label raw : string) : Evidence N * Evidence N :=
  match list_find (λ l, String.prefix label l = true) (str_lines raw) with
  | None =>
      let reason := "no " +:+ label +:+ " line in " +:+ proc_file p "status" in
      (Missing reason, Missing reason)
  | Some (_, line) =>
      let fields := drop 1 (split_whitespace line) in
      (parse_status_field label line "real" (fields !! 0),
       parse_status_field label line "effective" (fields !! 1))
  end.

Definition read_status_ids (p : N) (label : string) : collect W (Evidence N * Evidence N) :=
  r ← read_to_string (proc_file p "status");
  mret match r with
       | Err e =>
           let reason := "read " +:+ proc_file p "status" +:+ ": " +:+ e in
           (Missing reason, Missing reason)
       | Ok raw => parse_status_ids p label raw
       end.

Definition read_status_id (p : N) (label : string) : collect W (Evidence N) :=
  ids ← read_status_ids p label;
  mret ids.1.

Definition executable_path_of (p : N) : collect W (Evidence string) :=
  r ← read_link (proc_file p "exe");
  mret match r with
       | Ok path => Present path KernelObserved
       | Err e => Missing ("readlink " +:+ proc_file p "exe" +:+ ": " +:+ e)
       end.

Definition executable_hash_of (p : N) : Evidence string :=
  Missing "executable hashing not implemented by this collector".

(** What the walk records of a parent. *)
Definition describe_ancestor (parent : N) : collect W ProcessAncestor :=
  start ← process_start_of parent;
  path ← executable_path_of parent;
  mret (mk_ProcessAncestor parent start path).

Definition ancestry_of (start_pid : N) : collect W (list ProcessAncestor) :=
  walk parent_pid describe_ancestor MAX_ANCESTRY_DEPTH start_pid {[start_pid]}.

(** [cgroup_path] after its read: the path of the last line. *)
Definition parse_cgroup (p : N) (raw : string) : Evidence string :=
  match last (str_lines raw) with
  | None => Missing (proc_file p "cgroup" +:+ " is empty")
  | Some l =>
      match splitn 3 ":"%char l !! 2 with
      | Some path => Present path KernelObserved
      | None => Missing ("malformed " +:+ proc_file p "cgroup" +:+ " line: " +:+ str_debug l)
      end
  end.

Definition cgroup_path_of (p : N) : collect W (Evidence string) :=
  r ← read_to_string (proc_file p "cgroup");
  mret match r with
       | Err e => Missing ("read " +:+ proc_file p "cgroup" +:+ ": " +:+ e)
       | Ok raw => parse_cgroup p raw
       end.

Definition collect_workload_identity (p : N) : collect W WorkloadIdentity :=
  start ← process_start_of p;
  u ← read_status_id p "Uid:";
  g ← read_status_id p "Gid:";
  path ← executable_path_of p;
  ancestors ← ancestry_of p;
  mret (mk_WorkloadIdentity p start u g path (executable_hash_of p) ancestors).

Definition collect_execution_context (p : N) : collect W ExecutionContext :=
  w ← collect_workload_identity p;
  cgroup ← cgroup_path_of p;
  mret (mk_ExecutionContext w cgroup EvUnsupported EvUnsupported EvUnsupported).

(** ** The peer of a socket (peer.rs) *)

Definition collect_peer_context (stream : N) : collect W (result PeerContext PeerCredentialError) :=
  r ← socket_peercred stream;
  match r with
  | Err e => mret (Err (PeerIo e))
  | Ok ucred =>
      let p := u32_or_zero (ucred_pid ucred) in
      let cred := PeerCredential_from_kernel p (ucred_uid ucred) (ucred_gid ucred) in
      if decide (p = 0%N) then
        obs ← collect_execution_context 0;
        mret (Ok (PeerContext_peer_unmapped cred obs))
      else
        obs ← collect_execution_context p;
        ids ← read_status_ids p "Uid:";
        mret (Ok (PeerContext_from_kernel_observation cred obs ids.1 ids.2))
  end.

End linux.

(** [OsPeerContextSource] on Linux. *)
#[export] Instance Linux_identity {W} `{LinuxKernel W} `{StrDebug} : PlatformIdentity W := {
  platform_identity := collect_workload_identity
}.

#[export] Instance Linux_source {W} `{LinuxKernel W} `{StrDebug} : PeerContextSource W := {
  derive := collect_peer_context
}.

(** ** A concrete kernel

    The files, links and sockets of an unchanging system. *)

Record Snapshot : Type := mk_Snapshot {
  files : gmap string string;
  links : gmap string string;
  sockets : gmap N UCred
}.

Definition no_such_file : string := "No such file or directory (os error 2)".

#[export] Instance Snapshot_kernel : LinuxKernel Snapshot := {
  read_to_string path := λ w, (ok_or (files w !! path) no_such_file, w);
  read_link path := λ w, (ok_or (links w !! path) no_such_file, w);
  socket_peercred stream := λ w,
    (match sockets w !! stream with
     | Some c => if decide (ucred_uid c ≤ u32_max ∧ ucred_gid c ≤ u32_max)%N then Ok c
                 else Err "Invalid argument"
     | None => Err "Socket not connected"
     end, w)
}.

(** ** Lemmas *)

(** A field of the kernel's status line: no white space, no parenthesis. *)
Definition stat_field (f : string) : bool := is_token f && negb (has_char ")"%char f).

(** [/proc/PID/stat], proc(5): the pid, the command in parentheses as the process
    chose it, the state, the parent, seventeen more fields, the start time, and the
    fields after it. *)
Definition stat_line (p : N) (comm state : string) (parent : N) (mid : list string)
    (start : N) (rest : list string) (final : string) : string :=
  pretty p +:+ " (" +:+ comm +:+ ") " +:+
  fields_text " "%char ([state; pretty parent] ++ mid ++ [pretty start] ++ rest)
    (final +:+ newline).

Lemma has_char_fields_text c a fs s :
  c ≠ a → Forall (λ f, has_char c f = false) fs → has_char c s = false →
  has_char c (fields_text a fs s) = false.
Proof.
  intros Ha Hfs Hs. induction Hfs as [|f fs Hf _ IH]; [done|]. cbn [fields_text].
  rewrite has_char_app, Hf. cbn [has_char]. by rewrite bool_decide_false, IH.
Qed.

Lemma pretty_stat_field (n : N) : stat_field (pretty n) = true.
Proof.
  unfold stat_field. rewrite pretty_N_token.
  by rewrite (every_not_has_char is_digit) by (done || apply pretty_N_digits).
Qed.

Lemma Forall_stat_field fs :
  Forall (λ f, stat_field f = true) fs →
  Forall (λ f, is_token f = true) fs ∧ Forall (λ f, has_char ")"%char f = false) fs.
Proof.
  unfold stat_field. intros Hfs. split; (eapply Forall_impl; [exact Hfs|]); intros f;
    cbn; by intros [? ?%negb_true_iff]%andb_true_iff.
Qed.

Section lemmas.
Context {W : Type} `{LinuxKernel W} `{StrDebug}.

Lemma parse_stat_text_line p comm state parent mid start rest final :
  length mid = 17 →
  Forall (λ f, stat_field f = true) (state :: mid ++ rest ++ [final]) →
  (parent ≤ u32_max)%N → (start ≤ u64_max)%N →
  parse_stat_text p (stat_line p comm state parent mid start rest final) =
    Ok (mk_StatFields parent start).
Proof.
  intros Hmid Hf Hparent Hstart.
  set (fs := [state; pretty parent] ++ mid ++ [pretty start] ++ rest).
  assert (Forall (λ f, stat_field f = true) (fs ++ [final])) as Hfs.
  { unfold fs. revert Hf. cbn [app]. repeat (rewrite Forall_cons || rewrite Forall_app).
    pose proof (pretty_stat_field parent). pose proof (pretty_stat_field start). tauto. }
  apply Forall_stat_field in Hfs as [[Htok Hlast]%Forall_app [Hpar Hplast]%Forall_app].
  rewrite ->Forall_singleton in Hlast, Hplast.
  set (tail := String " "%char (fields_text " "%char fs (final +:+ newline))).
  assert (stat_line p comm state parent mid start rest final =
    (pretty p +:+ " (" +:+ comm) +:+ String ")"%char tail) as ->.
  { unfold stat_line, tail. fold fs. by rewrite <-!string_app_assoc. }
  unfold parse_stat_text. rewrite rsplit_once_last.
  2: { unfold tail. cbn [has_char]. apply has_char_fields_text; [done|done|].
       by rewrite has_char_app, Hplast. }
  cbn [fmap option_fmap option_map snd ok_or result_bind]. unfold tail.
  rewrite split_whitespace_space, split_whitespace_fields by done.
  unfold newline. rewrite split_whitespace_token by done.
  assert (((fs ++ final :: split_whitespace "") !! (4 - 3)) = Some (pretty parent)) as -> by done.
  assert (((fs ++ final :: split_whitespace "") !! (22 - 3)) = Some (pretty start)) as ->.
  { change (((mid ++ [pretty start] ++ rest) ++ final :: split_whitespace "") !! 17 =
      Some (pretty start)). rewrite <-!app_assoc, lookup_app_r by lia. by rewrite Hmid. }
  cbn [ok_or result_bind]. by rewrite !parse_uint_pretty.
Qed.

Lemma process_start_kernel_only p : yields kernel_only (process_start_of p).
Proof. eapply yields_bind; [apply yields_any|]. intros [s|e] _; by apply yields_ret. Qed.

Lemma executable_path_kernel_only p : yields kernel_only (executable_path_of p).
Proof. eapply yields_bind; [apply yields_any|]. intros [s|e] _; by apply yields_ret. Qed.

Lemma cgroup_path_kernel_only p : yields kernel_only (cgroup_path_of p).
Proof.
  eapply yields_bind; [apply yields_any|]. intros [s|e] _; apply yields_ret; [|done].
  unfold parse_cgroup. destruct (last _) as [l|]; [|done]. by destruct (_ !! _).
Qed.

Lemma parse_status_field_kernel_only label line which raw :
  kernel_only (parse_status_field label line which raw).
Proof. unfold parse_status_field. by destruct (_ <$> _) as [[]|]. Qed.

Lemma read_status_ids_kernel_only p label :
  yields (λ ids, kernel_only ids.1 ∧ kernel_only ids.2) (read_status_ids p label).
Proof.
  eapply yields_bind; [apply yields_any|]. intros [raw|e] _; apply yields_ret; [|done].
  unfold parse_status_ids. destruct (list_find _ _) as [[i line]|]; [|done].
  split; apply parse_status_field_kernel_only.
Qed.

Lemma read_status_id_kernel_only p label : yields kernel_only (read_status_id p label).
Proof.
  eapply yields_bind; [apply read_status_ids_kernel_only|]. intros ids [? ?]. by apply yields_ret.
Qed.

Lemma describe_ancestor_spec p :
  yields (λ a, anc_pid a = p ∧ ancestor_kernel_only a) (describe_ancestor p).
Proof.
  eapply yields_bind; [apply process_start_kernel_only|]. intros s Hs.
  eapply yields_bind; [apply executable_path_kernel_only|]. intros e He.
  by apply yields_ret.
Qed.

Lemma describe_ancestor_pid p : yields (λ a, anc_pid a = p) (describe_ancestor p).
Proof. intros w. apply describe_ancestor_spec. Qed.

Lemma collect_workload_identity_spec p :
  yields (λ i, identity_kernel_only i ∧ pid i = p ∧ Evidence_value (executable_hash i) = None)
    (collect_workload_identity p).
Proof.
  eapply yields_bind; [apply process_start_kernel_only|]. intros s Hs.
  eapply yields_bind; [apply read_status_id_kernel_only|]. intros u Hu.
  eapply yields_bind; [apply read_status_id_kernel_only|]. intros g Hg.
  eapply yields_bind; [apply executable_path_kernel_only|]. intros e He.
  eapply yields_bind.
  { apply (walk_all parent_pid describe_ancestor ancestor_kernel_only). intros a w.
    apply describe_ancestor_spec. }
  intros anc Hanc. by apply yields_ret.
Qed.

Lemma collect_execution_context_spec p :
  yields (λ c, context_kernel_only c ∧ pid (workload c) = p) (collect_execution_context p).
Proof.
  eapply yields_bind; [apply collect_workload_identity_spec|]. intros i (Hi & Hp & _).
  eapply yields_bind; [apply cgroup_path_kernel_only|]. intros cg Hcg. by apply yields_ret.
Qed.

Lemma collect_peer_context_cases stream :
  yields (λ r, ∀ p, r = Ok p → peer_kernel_derived p) (collect_peer_context stream).
Proof.
  eapply yields_bind; [apply yields_any|]. intros [ucred|e] _; [|by apply yields_ret].
  cbv beta iota zeta. case_decide as Hz.
  - eapply yields_bind; [apply collect_execution_context_spec|]. intros obs [Hobs Hpid].
    apply yields_ret. intros p [= <-]. split; [constructor|cbn; congruence|done|done].
  - eapply yields_bind; [apply collect_execution_context_spec|]. intros obs [Hobs Hpid].
    eapply yields_bind; [apply read_status_ids_kernel_only|]. intros ids _.
    apply yields_ret. intros p [= <-]. split; [constructor|done|done|done].
Qed.

#[export] Instance Linux_kernel_source : KernelPeerSource W.
Proof. constructor. intros stream w p Hp. by apply (collect_peer_context_cases stream w). Qed.

End lemmas.

(** ** Properties *)

(** The kernel answers the reads of a walk without changing. *)
Definition still {W} `{LinuxKernel W} (w : W) : Prop :=
  ∀ path, (read_to_string path w).2 = w ∧ (read_link path w).2 = w.

(** The status file names [u] as its real or its effective user id: on its first
    line that starts with [Uid:], in the first or second field after the label. *)
Definition status_names_uid (raw : string) (u : N) : Prop :=
  ∃ i line f, list_find (λ l, String.prefix "Uid:" l = true) (str_lines raw) = Some (i, line) ∧
    f ∈ take 2 (drop 1 (split_whitespace line)) ∧ parse_uint u32_max f = Ok u.

Section properties.
Context {W : Type} `{LinuxKernel W} `{StrDebug}.

(** A process cannot forge its start time or its parent through its name.
    The kernel writes the name, chosen by the process, into the middle of the
    line that is parsed; whatever bytes it holds, parentheses, spaces and
    newlines included, the parent and the start time read are the kernel's. *)
Theorem stat_survives_any_comm (w w' : W) (p : N) (comm state : string) (parent : N)
    (mid : list string) (start : N) (rest : list string) (final : string)
    (Hmid : length mid = 17)
    (Hfields : Forall (λ f, stat_field f = true) (state :: mid ++ rest ++ [final]))
    (Hparent : (parent ≤ u32_max)%N) (Hstart : (start ≤ u64_max)%N)
    (Hread : read_to_string (proc_file p "stat") w =
               (Ok (stat_line p comm state parent mid start rest final), w')) :
  process_start_of p w = (Present (mk_ProcessStartToken start) KernelObserved, w') ∧
  parent_pid p w = (Some parent, w').
Proof.
  unfold process_start_of, parent_pid, parse_stat, mbind, collect_bind. rewrite Hread.
  cbn [map_err result_bind mret collect_ret]. by rewrite parse_stat_text_line.
Qed.

(** C29: the ancestry walk always ends, after at most 32 processes, lists no
    process twice and neither the process itself nor pid 0, even against a [/proc]
    that changes during the walk or reports a cycle; and when [/proc] does not
    change it is the chain of parents, cut only where a parent cannot be read, is
    0, was seen, or the bound is reached. *)
Theorem ancestry_is_parent_chain (w : W) (p : N) (Hstill : still w) :
  (∀ w', let out := anc_pid <$> (ancestry_of p w').1 in
     length out ≤ MAX_ANCESTRY_DEPTH ∧ NoDup (p :: out) ∧ 0%N ∉ out) ∧
  parent_chain (λ q, (parent_pid q w).1) MAX_ANCESTRY_DEPTH p {[p]}
    (anc_pid <$> (ancestry_of p w).1).
Proof.
  split.
  - intros w' out. unfold ancestry_of in out.
    pose proof (walk_bounded parent_pid describe_ancestor describe_ancestor_pid
      MAX_ANCESTRY_DEPTH p {[p]} w') as (Hlen & Hnd & Hout).
    split; [by unfold out; rewrite length_fmap|]. split.
    + constructor; [|done]. intros [_ Hp]%Hout. by apply Hp, elem_of_singleton_2.
    + by intros [? _]%Hout.
  - assert (∀ q, (parse_stat q w).2 = w) as Hstat.
    { intros q. unfold parse_stat, mbind, collect_bind.
      pose proof (proj1 (Hstill (proc_file q "stat"))). by destruct (read_to_string _ w). }
    assert (∀ q, (executable_path_of q w).2 = w) as Hexe.
    { intros q. unfold executable_path_of, mbind, collect_bind.
      pose proof (proj2 (Hstill (proc_file q "exe"))). by destruct (read_link _ w). }
    apply walk_still; [apply describe_ancestor_pid|..]; intros q.
    + unfold parent_pid, mbind, collect_bind. pose proof (Hstat q). by destruct (parse_stat q w).
    + unfold describe_ancestor, process_start_of, mbind, collect_bind.
      specialize (Hstat q). specialize (Hexe q). destruct (parse_stat q w) as [r w1].
      cbn in Hstat |- *. subst w1. by destruct (executable_path_of q w).
Qed.

(** What the collector can say at all.  Every piece of evidence in a
    collected context was observed by the kernel, is missing, or is unsupported:
    none is the workload's own claim or a guess; the pid is the one asked for, and
    the ancestors' evidence is of the same kind. *)
Theorem collected_evidence_kernel_only (p : N) (w : W) :
  let c := (collect_execution_context p w).1 in
  context_kernel_only c ∧ pid (workload c) = p ∧
  Evidence_value (executable_hash (workload c)) = None ∧
  namespace_hint c = EvUnsupported ∧ container_hint c = EvUnsupported ∧
  session_origin c = EvUnsupported.
Proof.
  pose proof (collect_execution_context_spec p w) as [Hc Hp].
  unfold collect_execution_context, mbind, collect_bind in *.
  pose proof (collect_workload_identity_spec p w) as (_ & _ & Hh).
  destruct (collect_workload_identity p w) as [i w1]. destruct (cgroup_path_of p w1).
  by split_and!.
Qed.

(** What two collected identities can establish.  They are the same process
    exactly when the pids are equal and the kernel reported the same start time for
    both; they run the same executable exactly when the kernel reported the same
    path for both, whatever the files contain, since no hash is collected. *)
Theorem collected_comparisons (p q : N) (w v : W) :
  let a := (collect_workload_identity p w).1 in
  let b := (collect_workload_identity q v).1 in
  (WorkloadIdentity_compare_process a b = Same ↔
     p = q ∧ ∃ t, process_start a = Present t KernelObserved ∧
                  process_start b = Present t KernelObserved) ∧
  (WorkloadIdentity_compare_executable a b = Same ↔
     ∃ path, executable_path a = Present path KernelObserved ∧
             executable_path b = Present path KernelObserved).
Proof.
  intros a b.
  assert (∀ T (e : Evidence T) t, kernel_only e → trusted e t ↔ e = Present t KernelObserved)
    as Ht.
  { intros T e t He. split; [|intros ->; by apply trusted_Present].
    intros (s & -> & _). cbn in He. by subst. }
  pose proof (collect_workload_identity_spec p w) as (Ka & Hpa & Hha).
  pose proof (collect_workload_identity_spec q v) as (Kb & Hpb & Hhb).
  fold a in Ka, Hpa, Hha. fold b in Kb, Hpb, Hhb. clearbody a b.
  split.
  - rewrite compare_process_Same_iff, Hpa, Hpb.
    setoid_rewrite (Ht _ _ _ (ko_start _ Ka)). by setoid_rewrite (Ht _ _ _ (ko_start _ Kb)).
  - rewrite compare_executable_Same_iff.
    setoid_rewrite (Ht _ _ _ (ko_path _ Ka)). setoid_rewrite (Ht _ _ _ (ko_path _ Kb)).
    split; [intros [(h & Hh & _)|[_ ?]]; [|done]|].
    + destruct Hh as (s & Hs & _). by rewrite Hs in Hha.
    + intros Hp. right. split; [|done]. left. intros h (s & Hs & _). by rewrite Hs in Hha.
Qed.

Lemma elem_of_take_2 (l : list string) f : f ∈ take 2 l ↔ l !! 0 = Some f ∨ l !! 1 = Some f.
Proof. destruct l as [|a [|b l]]; cbn; [set_solver|set_solver|]. set_solver. Qed.

Lemma parse_status_field_trusted label line which raw u :
  trusted (parse_status_field label line which raw) u ↔
  ∃ f, raw = Some f ∧ parse_uint u32_max f = Ok u.
Proof.
  unfold parse_status_field. destruct raw as [f|]; cbn.
  - destruct (parse_uint u32_max f) as [n|e] eqn:Hf.
    + split; [intros (s & [= -> _] & _); by exists f|].
      intros (f' & [= <-] & Hf'). rewrite Hf in Hf'. injection Hf' as ->. by apply trusted_Present.
    + split; [by intros (? & ? & _)|]. intros (? & [= <-] & ?). congruence.
  - split; [by intros (? & ? & _)|by intros (? & ? & _)].
Qed.

Lemma parse_status_ids_trusted p raw u :
  trusted (parse_status_ids p "Uid:" raw).1 u ∨ trusted (parse_status_ids p "Uid:" raw).2 u ↔
  status_names_uid raw u.
Proof.
  unfold parse_status_ids, status_names_uid.
  destruct (list_find _ (str_lines raw)) as [[i line]|]; cbn [fst snd].
  - rewrite !parse_status_field_trusted. setoid_rewrite elem_of_take_2. split.
    + intros [(f & ? & ?)|(f & ? & ?)]; exists i, line, f; auto.
    + intros (? & ? & f & [= <- <-] & [Hf|Hf] & Hu); [left|right]; by exists f.
  - split; [|by intros (? & ? & ? & ? & _)]. intros [(? & ? & _)|(? & ? & _)]; done.
Qed.

(** C19: who is admitted on Linux.  The peer of a socket can be authorized
    exactly when the kernel gave its credential with a usable pid, and the status
    file of that pid, read after its context was collected, names the credential's
    effective user id as its real or effective one; what is authorized is then
    the context collected for that pid. *)
Theorem linux_peer_gate (stream : N) (w : W) (ctx : ExecutionContext) :
  (∃ p, (collect_peer_context stream w).1 = Ok p ∧ PeerContext_authorizable p = Some ctx) ↔
  ∃ ucred w1 w2 raw w3, socket_peercred stream w = (Ok ucred, w1) ∧
    (0 < ucred_pid ucred ≤ Z.of_N u32_max)%Z ∧
    collect_execution_context (Z.to_N (ucred_pid ucred)) w1 = (ctx, w2) ∧
    read_to_string (proc_file (Z.to_N (ucred_pid ucred)) "status") w2 = (Ok raw, w3) ∧
    status_names_uid raw (ucred_uid ucred).
Proof.
  unfold collect_peer_context, mbind, collect_bind.
  destruct (socket_peercred stream w) as [[ucred|e] w1].
  2: { split; [by intros (p & ? & _)|by intros (? & ? & ? & ? & ? & ? & _)]. }
  cbv beta iota zeta. destruct (u32_or_zero_spec (ucred_pid ucred)) as [[-> Hr]|(-> & Hr & Hz)].
  { rewrite decide_True by done. destruct (collect_execution_context 0 w1); cbn.
    split; [by intros (p & [= <-] & ?)|].
    by intros (? & ? & ? & ? & ? & [= <- <-] & ? & _). }
  rewrite decide_False by done.
  destruct (collect_execution_context (Z.to_N (ucred_pid ucred)) w1) as [obs w2] eqn:Hobs.
  unfold read_status_ids, mbind, collect_bind.
  destruct (read_to_string _ w2) as [[raw|e] w3] eqn:Hraw; cbn [fst mret collect_ret].
  - split.
    + intros (p & [= <-] & [Hc Ho]%authorizable_Some). cbn in Hc, Ho. subst obs.
      apply classify_Consistent in Hc. rewrite parse_status_ids_trusted in Hc.
      exists ucred, w1, w2, raw, w3. split_and!; [done|lia|lia|exact Hobs|exact Hraw|exact Hc].
    + intros (uc & w1' & w2' & raw' & w3' & Heq & _ & Hctx & Hr' & Hn).
      simplify_eq. rewrite Hobs in Hctx. simplify_eq. rewrite Hraw in Hr'. simplify_eq.
      eexists. split; [done|]. apply authorizable_Some. split; [|done]. cbn.
      apply classify_Consistent. exact (proj2 (parse_status_ids_trusted _ _ _) Hn).
  - split.
    + by intros (p & [= <-] & [Hc _]%authorizable_Some).
    + intros (uc & w1' & w2' & raw' & w3' & Heq & _ & Hctx & Hr' & Hn).
      simplify_eq. rewrite Hobs in Hctx. simplify_eq. by rewrite Hraw in Hr'.
Qed.

End properties.

(** ** Sample data *)

(** A process whose name looks like the end of a status line. *)
Definition sample_mid : list string :=
  ["333"; "444"; "0"; "-1"; "4194304"; "100"; "0"; "0"; "0"; "0"; "0"; "0"; "0"; "20"; "0";
   "1"; "0"].

Definition evil_comm : string := "1) S 7 7 (x".

Definition sample_stat : string :=
  stat_line 42 evil_comm "S" 7 sample_mid 123456 ["0"; "0"] "18446744073709551615".

Definition sample_status : string :=
  "Name:" +:+ String "009"%char ("evil" +:+ newline +:+ "Uid:") +:+ String "009"%char
    ("1000" +:+ String "009"%char ("1001" +:+ newline)).

Definition sample_snapshot : Snapshot :=
  mk_Snapshot
    (<[proc_file 42 "stat" := sample_stat]> (<[proc_file 42 "status" := sample_status]>
      (<[proc_file 42 "cgroup" := "0::/user.slice" +:+ newline]> ∅)))
    (<[proc_file 42 "exe" := "/usr/bin/evil"]> ∅)
    (<[3%N := mk_UCred 42 1001 1001]> ∅).

#[local] Instance plain_debug : StrDebug := { str_debug s := s }.

Lemma stat_survives_any_comm_witness :
  process_start_of 42 sample_snapshot =
    (Present (mk_ProcessStartToken 123456) KernelObserved, sample_snapshot) ∧
  parent_pid 42 sample_snapshot = (Some 7%N, sample_snapshot).
Proof.
  apply (stat_survives_any_comm sample_snapshot sample_snapshot 42 evil_comm "S" 7 sample_mid
    123456 ["0"; "0"] "18446744073709551615"); [done| |done|done|by vm_compute].
  repeat constructor.
Defined.

Lemma ancestry_is_parent_chain_witness :
  (∀ w', let out := anc_pid <$> (ancestry_of 42 (w' : Snapshot)).1 in
     length out ≤ MAX_ANCESTRY_DEPTH ∧ NoDup (42%N :: out) ∧ 0%N ∉ out) ∧
  parent_chain (λ q, (parent_pid q sample_snapshot).1) MAX_ANCESTRY_DEPTH 42 {[42%N]}
    (anc_pid <$> (ancestry_of 42 sample_snapshot).1).
Proof. apply ancestry_is_parent_chain. by intros path. Defined.

(** The admitted peer of the sample: the effective user id is the second one. *)
Example sample_peer_admitted :
  match (collect_peer_context 3 sample_snapshot).1 with
  | Ok p => PeerContext_authorizable p ≠ None ∧
      cgroup_path (observed p) = Present "/user.slice" KernelObserved
  | Err _ => False
  end.
Proof. vm_compute. done. Qed.
