(* ===== verification/Macos.v ===== *)
(** * macOS evidence

    Models [crates/eltanin-macos/src/lib.rs] and [peer.rs]: the identity of a
    process from [proc_pidinfo] and [proc_pidpath], and the peer of a socket from
    [LOCAL_PEERCRED] and [LOCAL_PEERPID], which are two separate reads: the first is
    fixed when the peer connects, the second is not.  [libproc] and [nix] are a
    class of functions that read the state of the kernel. *)

From S2P Require Import Prelude Text Resource Identity PolicySpec.
From S2P Require Import Peer Protocol Connection Collect.

(** The fields of [proc_bsdinfo] the collector reads; [u32] and [u64]. *)
Record BSDInfo : Type := mk_BSDInfo {
  pbi_ppid : N;
  pbi_uid : N;
  pbi_ruid : N;
  pbi_rgid : N;
  pbi_start_tvsec : N;
  pbi_start_tvusec : N
}.

(** [xucred] of a connected socket. *)
Record XuCred : Type := mk_XuCred {
  xu_version : N;
  xu_uid : N;
  xu_groups : list N
}.

Class MacKernel (W : Type) : Type := {
  pidinfo (signed_pid : Z) : collect W (result BSDInfo string);
  pidpath (signed_pid : Z) : collect W (result string string);
  local_peer_cred (stream : N) : collect W (result XuCred string);
  local_peer_pid (stream : N) : collect W (result Z string);
  XUCRED_VERSION : N
}.

Definition i32_max : Z := 2147483647.

(** [i32::try_from] on a [u32], and the text of its error. *)
Definition i32_try_from (p : N) : result Z string :=
  if decide (Z.of_N p ≤ i32_max)%Z then Ok (Z.of_N p)
  else Err "out of range integral type conversion attempted".

Definition MAX_ANCESTRY_DEPTH : nat := 32.

Section macos.
Context {W : Type} `{MacKernel W}.

Definition out_of_range (p : N) (e : string) : string :=
  "pid " +:+ pretty p +:+ " out of range: " +:+ e.

Definition bsd_info (p : N) : collect W (result BSDInfo string) :=
  match i32_try_from p with
  | Err e => mret (Err (out_of_range p e))
  | Ok signed_pid => pidinfo signed_pid
  end.

Definition start_token (info : BSDInfo) : Evidence ProcessStartToken :=
  let micros := u64_saturating_add
    (u64_saturating_mul (pbi_start_tvsec info) 1000000) (pbi_start_tvusec info) in
  Present (mk_ProcessStartToken micros) KernelObserved.

Definition executable_path_of (p : N) : collect W (Evidence string) :=
  match i32_try_from p with
  | Err e => mret (Missing (out_of_range p e))
  | Ok signed_pid =>
      r ← pidpath signed_pid;
      mret match r with
           | Ok path => Present path KernelObserved
           | Err e => Missing ("proc_pidpath(" +:+ pretty p +:+ "): " +:+ e)
           end
  end.

Definition executable_hash_of (p : N) : Evidence string :=
  Missing "executable hashing not implemented by this collector".

Definition parent_pid (p : N) : collect W (option N) :=
  r ← bsd_info p;
  mret match r with
       | Ok info => Some (pbi_ppid info)
       | Err _ => None
       end.

Definition describe_ancestor (parent : N) : collect W ProcessAncestor :=
  r ← bsd_info parent;
  path ← executable_path_of parent;
  let start :=
    match r with
    | Ok info => start_token info
    | Err _ =>
        Missing ("proc_pidinfo(" +:+ pretty parent +:+ ") failed while walking ancestry")
    end in
  mret (mk_ProcessAncestor parent start path).

Definition ancestry_of (start_pid : N) : collect W (list ProcessAncestor) :=
  walk parent_pid describe_ancestor MAX_ANCESTRY_DEPTH start_pid {[start_pid]}.

Definition collect_workload_identity (p : N) : collect W WorkloadIdentity :=
  r ← bsd_info p;
  match r with
  | Ok info =>
      path ← executable_path_of p;
      ancestors ← ancestry_of p;
      mret (mk_WorkloadIdentity p (start_token info)
        (Present (pbi_ruid info) KernelObserved) (Present (pbi_rgid info) KernelObserved)
        path (executable_hash_of p) ancestors)
  | Err reason =>
      path ← executable_path_of p;
      mret (mk_WorkloadIdentity p (Missing reason) (Missing reason) (Missing reason)
        path (executable_hash_of p) [])
  end.

Definition collect_execution_context (p : N) : collect W ExecutionContext :=
  w ← collect_workload_identity p;
  mret (mk_ExecutionContext w EvUnsupported EvUnsupported EvUnsupported EvUnsupported).

(** ** The peer of a socket (peer.rs) *)

Definition read_uids (p : N) : collect W (Evidence N * Evidence N) :=
  match i32_try_from p with
  | Err e => let reason := out_of_range p e in mret (Missing reason, Missing reason)
  | Ok signed_pid =>
      r ← pidinfo signed_pid;
      mret match r with
           | Ok info =>
               (Present (pbi_ruid info) KernelObserved, Present (pbi_uid info) KernelObserved)
           | Err e =>
               let reason := "proc_pidinfo(" +:+ pretty p +:+ "): " +:+ e in
               (Missing reason, Missing reason)
           end
  end.

Definition collect_peer_context (stream : N) : collect W (result PeerContext PeerCredentialError) :=
  r ← local_peer_cred stream;
  match r with
  | Err e => mret (Err (PeerIo ("LOCAL_PEERCRED: " +:+ e)))
  | Ok xucred =>
      if decide (xu_version xucred ≠ XUCRED_VERSION) then
        mret (Err (PeerIo ("LOCAL_PEERCRED returned unexpected xucred version " +:+
          pretty (xu_version xucred) +:+ " (expected " +:+ pretty XUCRED_VERSION +:+ ")")))
      else
        match head (xu_groups xucred) with
        | None => mret (Err (PeerIo
            "LOCAL_PEERCRED returned an empty group list; no effective gid available"))
        | Some group =>
            r ← local_peer_pid stream;
            match r with
            | Err e => mret (Err (PeerIo ("LOCAL_PEERPID: " +:+ e)))
            | Ok peer_pid =>
                if decide (peer_pid ≤ 0)%Z then
                  obs ← collect_execution_context 0;
                  mret (Ok (PeerContext_peer_unmapped
                    (PeerCredential_from_kernel 0 (xu_uid xucred) group) obs))
                else
                  let p := u32_or_zero peer_pid in
                  obs ← collect_execution_context p;
                  uids ← read_uids p;
                  mret (Ok (PeerContext_from_kernel_observation
                    (PeerCredential_from_kernel p (xu_uid xucred) group) obs uids.1 uids.2))
            end
        end
  end.

End macos.

(** [OsPeerContextSource] on macOS. *)
#[export] Instance Macos_identity {W} `{MacKernel W} : PlatformIdentity W := {
  platform_identity := collect_workload_identity
}.

#[export] Instance Macos_source {W} `{MacKernel W} : PeerContextSource W := {
  derive := collect_peer_context
}.

(** A process id is an [i32]. *)
Class MacTypes (W : Type) `{MacKernel W} : Prop := {
  peer_pid_i32 : ∀ stream w z, (local_peer_pid stream w).1 = Ok z → (z ≤ i32_max)%Z
}.

(** ** Lemmas *)

Lemma i32_try_from_Ok p z : i32_try_from p = Ok z ↔ z = Z.of_N p ∧ (Z.of_N p ≤ i32_max)%Z.
Proof. unfold i32_try_from. case_decide; naive_solver. Qed.

Lemma u32_or_zero_i32 z :
  (0 < z ≤ i32_max)%Z → u32_or_zero z = Z.to_N z ∧ Z.to_N z ≠ 0%N ∧ i32_try_from (Z.to_N z) = Ok z.
Proof.
  unfold i32_max. intros Hz. unfold u32_or_zero, u32_max. rewrite decide_True by lia.
  split_and!; [done|lia|]. apply i32_try_from_Ok. unfold i32_max. lia.
Qed.

Section lemmas.
Context {W : Type} `{MacKernel W}.

Lemma mac_executable_path_kernel_only p : yields kernel_only (executable_path_of p).
Proof.
  unfold executable_path_of. destruct (i32_try_from p); [|by apply yields_ret].
  eapply yields_bind; [apply yields_any|]. intros [s|e] _; by apply yields_ret.
Qed.

Lemma mac_describe_ancestor_spec p :
  yields (λ a, anc_pid a = p ∧ ancestor_kernel_only a) (describe_ancestor p).
Proof.
  eapply yields_bind; [apply yields_any|]. intros r _.
  eapply yields_bind; [apply mac_executable_path_kernel_only|]. intros e He.
  apply yields_ret. split; [done|]. split; [|done]. by destruct r.
Qed.

Lemma mac_describe_ancestor_pid p : yields (λ a, anc_pid a = p) (describe_ancestor p).
Proof. intros w. apply mac_describe_ancestor_spec. Qed.

Lemma ancestry_kernel_only p : yields (Forall ancestor_kernel_only) (ancestry_of p).
Proof. apply walk_all. intros a w. apply mac_describe_ancestor_spec. Qed.

Lemma mac_collect_workload_identity_spec p :
  yields (λ i, identity_kernel_only i ∧ pid i = p ∧ Evidence_value (executable_hash i) = None)
    (collect_workload_identity p).
Proof.
  eapply yields_bind; [apply yields_any|]. intros [info|e] _;
    (eapply yields_bind; [apply mac_executable_path_kernel_only|]; intros path Hpath).
  - eapply yields_bind; [apply ancestry_kernel_only|]. intros anc Hanc. by apply yields_ret.
  - by apply yields_ret.
Qed.

Lemma mac_collect_execution_context_spec p :
  yields (λ c, context_kernel_only c ∧ pid (workload c) = p) (collect_execution_context p).
Proof.
  eapply yields_bind; [apply mac_collect_workload_identity_spec|]. intros i (Hi & Hp & _).
  by apply yields_ret.
Qed.

#[export] Instance Macos_kernel_source `{!MacTypes W} : KernelPeerSource W.
Proof.
  constructor. intros stream w. cbn [derive Macos_source].
  unfold collect_peer_context, mbind, collect_bind.
  destruct (local_peer_cred stream w) as [[xucred|e] w1]; [|done].
  case_decide; [done|]. destruct (head (xu_groups xucred)) as [g|]; [|done].
  pose proof (peer_pid_i32 stream w1) as Hz.
  destruct (local_peer_pid stream w1) as [[z|e] w2]; [|done]. specialize (Hz z eq_refl).
  case_decide as Hpos.
  - pose proof (mac_collect_execution_context_spec 0 w2) as [Ho Hpid].
    destruct (collect_execution_context 0 w2). intros p [= <-].
    split; [constructor|done|done|done].
  - destruct (u32_or_zero_i32 z) as (-> & Hne & _); [lia|].
    pose proof (mac_collect_execution_context_spec (Z.to_N z) w2) as [Ho Hpid].
    destruct (collect_execution_context (Z.to_N z) w2) as [obs w3].
    destruct (read_uids (Z.to_N z) w3) as [uids w4]. intros p [= <-].
    split; [constructor|done|done|done].
Qed.

(** Conjuncts that the properties share with the Linux collector. *)
Lemma ancestry_bounded p (w : W) :
  let out := anc_pid <$> (ancestry_of p w).1 in
  length out ≤ MAX_ANCESTRY_DEPTH ∧ NoDup (p :: out) ∧ 0%N ∉ out.
Proof.
  pose proof (walk_bounded parent_pid describe_ancestor mac_describe_ancestor_pid
    MAX_ANCESTRY_DEPTH p {[p]} w) as (Hlen & Hnd & Hout).
  split; [by rewrite length_fmap|]. split.
  - constructor; [|done]. intros [_ Hp]%Hout. by apply Hp, elem_of_singleton_2.
  - by intros [? _]%Hout.
Qed.

End lemmas.

(** ** Properties *)

Section properties.
Context {W : Type} `{MacKernel W} `{!MacTypes W}.

(** Who is admitted on macOS.  The peer of a socket can be authorized exactly
    when the kernel gave a credential of the version expected with at least one
    group, a positive pid for the socket, and, in a read made after that pid's
    context was collected, the credential's effective user id as the real or the
    effective one of that pid.  The credential and the pid come from two reads, so
    this cross-check is all that ties them together. *)
Theorem macos_peer_gate (stream : N) (w : W) (ctx : ExecutionContext) :
  (∃ p, (collect_peer_context stream w).1 = Ok p ∧ PeerContext_authorizable p = Some ctx) ↔
  ∃ xucred w1 group z w2 w3 info w4, local_peer_cred stream w = (Ok xucred, w1) ∧
    xu_version xucred = XUCRED_VERSION ∧ head (xu_groups xucred) = Some group ∧
    local_peer_pid stream w1 = (Ok z, w2) ∧ (0 < z)%Z ∧
    collect_execution_context (Z.to_N z) w2 = (ctx, w3) ∧
    pidinfo z w3 = (Ok info, w4) ∧
    (pbi_ruid info = xu_uid xucred ∨ pbi_uid info = xu_uid xucred).
Proof.
  assert (∀ a b : N, trusted (Present a KernelObserved) b ↔ a = b) as Ht.
  { intros a b. split; [by intros (? & [= -> _] & _)|intros ->; by apply trusted_Present]. }
  unfold collect_peer_context, mbind, collect_bind.
  destruct (local_peer_cred stream w) as [[xucred|e] w1]; [|naive_solver].
  case_decide as Hv; [naive_solver|].
  destruct (head (xu_groups xucred)) as [g|] eqn:Hg; [|naive_solver].
  pose proof (peer_pid_i32 stream w1) as Hz.
  destruct (local_peer_pid stream w1) as [[z|e] w2] eqn:Hpp.
  2: { split; [by intros (? & ? & _)|].
       intros (? & ? & ? & ? & ? & ? & ? & ? & [= <- <-] & _ & _ & Hpp' & _).
       by rewrite Hpp in Hpp'. }
  specialize (Hz z eq_refl). case_decide as Hpos.
  { destruct (collect_execution_context 0 w2). split; [by intros (p & [= <-] & ?)|].
    intros (? & ? & ? & z' & ? & ? & ? & ? & [= <- <-] & _ & _ & Hpp' & ? & _).
    rewrite Hpp in Hpp'. simplify_eq. lia. }
  destruct (u32_or_zero_i32 z) as (-> & Hne & Hi32); [lia|].
  destruct (collect_execution_context (Z.to_N z) w2) as [obs w3] eqn:Hobs.
  unfold read_uids. rewrite Hi32. unfold mbind, collect_bind.
  destruct (pidinfo z w3) as [[info|e] w4] eqn:Hinfo; cbn [fst snd mret collect_ret].
  - split.
    + intros (p & [= <-] & [Hc Ho]%authorizable_Some). cbn in Hc, Ho. subst obs.
      apply classify_Consistent in Hc. rewrite !Ht in Hc.
      exists xucred, w1, g, z, w2, w3, info, w4. split_and!; [done..|lia|done|done|exact Hc].
    + intros (? & ? & ? & ? & ? & ? & ? & ? & [= <- <-] & _ & _ & Hpp' & _ & Hobs' & Hinfo' & Hu).
      rewrite Hpp in Hpp'. simplify_eq. rewrite Hobs in Hobs'. simplify_eq.
      rewrite Hinfo in Hinfo'. simplify_eq.
      eexists. split; [done|]. apply authorizable_Some. split; [|done].
      apply classify_Consistent. by rewrite !Ht.
  - split; [by intros (p & [= <-] & [Hc _]%authorizable_Some)|].
    intros (? & ? & ? & ? & ? & ? & ? & ? & [= <- <-] & _ & _ & Hpp' & _ & Hobs' & Hinfo' & Hu).
    rewrite Hpp in Hpp'. simplify_eq. rewrite Hobs in Hobs'. simplify_eq.
    by rewrite Hinfo in Hinfo'.
Qed.

(** The start token tells processes apart.  It never leaves 64 bits; and two
    start times given as seconds and microseconds, the latter less than a million
    as the kernel keeps them, get the same token only when they are equal or lie
    beyond the largest microsecond count. *)
Theorem start_token_faithful (a b : BSDInfo) (x y : ProcessStartToken)
    (Ha : start_token a = Present x KernelObserved)
    (Hb : start_token b = Present y KernelObserved)
    (Hua : (pbi_start_tvusec a < 1000000)%N) (Hub : (pbi_start_tvusec b < 1000000)%N) :
  (token x ≤ u64_max)%N ∧
  ((token x < u64_max)%N →
   x = y ↔ pbi_start_tvsec a = pbi_start_tvsec b ∧ pbi_start_tvusec a = pbi_start_tvusec b).
Proof.
  unfold start_token in *. injection Ha as <-. injection Hb as <-. cbn [token].
  unfold u64_saturating_add, u64_saturating_mul, u64_max. split; [lia|]. intros Hlt. split.
  - intros [= He]. lia.
  - by intros [-> ->].
Qed.

End properties.

(** ** Sample data *)

(** An unchanging system: process 7 is init's child, 9 its child. *)
Record Snapshot : Type := mk_Snapshot {
  processes : gmap Z (BSDInfo * string);
  peers : gmap N (XuCred * Z)
}.

#[export] Instance Snapshot_kernel : MacKernel Snapshot := {
  pidinfo z := λ w,
    (match processes w !! z with
     | Some (info, _) =>
         if decide (pbi_ppid info ≤ u32_max ∧ pbi_uid info ≤ u32_max ∧ pbi_ruid info ≤ u32_max ∧
                    pbi_rgid info ≤ u32_max)%N
         then Ok info else Err "Invalid argument"
     | None => Err "No such process"
     end, w);
  pidpath z := λ w, (ok_or (snd <$> processes w !! z) "No such process", w);
  local_peer_cred s := λ w,
    (match peers w !! s with
     | Some (c, _) =>
         if decide (xu_uid c ≤ u32_max ∧ Forall (λ g, g ≤ u32_max) (xu_groups c))%N
         then Ok c else Err "Invalid argument"
     | None => Err "Socket is not connected"
     end, w);
  local_peer_pid s := λ w,
    (match peers w !! s with
     | Some (_, z) => if decide (z ≤ i32_max)%Z then Ok z else Err "Invalid argument"
     | None => Err "Socket is not connected"
     end, w);
  XUCRED_VERSION := 0
}.

#[export] Instance Snapshot_types : MacTypes Snapshot.
Proof.
  constructor. intros s w z. cbn. destruct (peers w !! s) as [[c z']|]; [|done].
  case_decide; [|done]. by intros [= <-].
Qed.

Definition sample_info (parent : N) (usec : N) : BSDInfo :=
  mk_BSDInfo parent 501 501 20 1700000000 usec.

Definition sample_snapshot : Snapshot :=
  mk_Snapshot
    (<[9%Z := (sample_info 7 250, "/usr/local/bin/job")]>
      (<[7%Z := (sample_info 1 10, "/bin/zsh")]>
        (<[1%Z := (mk_BSDInfo 0 0 0 0 1690000000 1, "/sbin/launchd")]> ∅)))
    (<[3%N := (mk_XuCred 0 501 [20%N; 12%N], 9%Z)]> ∅).

Example sample_ancestry :
  anc_pid <$> (ancestry_of 9 sample_snapshot).1 = [7%N; 1%N].
Proof. vm_compute. done. Qed.

Lemma macos_peer_gate_witness :
  (∃ p, (collect_peer_context 3 sample_snapshot).1 = Ok p ∧
     PeerContext_authorizable p = Some (collect_execution_context 9 sample_snapshot).1) ∧
  xu_uid (mk_XuCred 0 501 [20%N; 12%N]) = 501%N.
Proof.
  split; [|done].
  apply (macos_peer_gate 3 sample_snapshot (collect_execution_context 9 sample_snapshot).1).
  eexists _, _, _, _, _, _, _, _. split_and!; [by vm_compute..|]. left. by vm_compute.
Defined.

Lemma start_token_faithful_witness :
  (1700000000000250 ≤ u64_max)%N ∧
  ((1700000000000250 < u64_max)%N →
   mk_ProcessStartToken 1700000000000250 = mk_ProcessStartToken 1700000000000010 ↔
   pbi_start_tvsec (sample_info 7 250) = pbi_start_tvsec (sample_info 1 10) ∧
   pbi_start_tvusec (sample_info 7 250) = pbi_start_tvusec (sample_info 1 10)).
Proof.
  apply (start_token_faithful (sample_info 7 250) (sample_info 1 10)
    (mk_ProcessStartToken 1700000000000250) (mk_ProcessStartToken 1700000000000010));
    by vm_compute.
Defined.
