(* ===== verification/Widths.v ===== *)
(** * What is collected fits its width

    The collectors of [crates/eltanin-linux] and [crates/eltanin-macos] put numbers of
    the kernel into credentials and identities of [u32] and [u64] fields: every number
    in a peer context that either of them derives fits its field, whatever the kernel
    answers, so that what is sent and recorded of a peer is what was collected. *)

From S2P Require Import Prelude Text Resource Identity PolicySpec.
From S2P Require Import Peer Protocol Schema AuditRecord Connection Collect.
From S2P Require Import Linux Macos.

(** ** Peer contexts *)

Definition PeerContext_in_range (p : PeerContext) : Prop := RecordedPeer_in_range (recorded_peer p).

(** What a source of peer contexts owes those who write them down. *)
Class FittingPeerSource (W : Type) `{PeerContextSource W} : Prop := {
  derive_fits : ∀ stream w p, (derive stream w).1 = Ok p → PeerContext_in_range p
}.

Definition credential_in_range (c : PeerCredential) : Prop :=
  (cred_pid c ≤ u32_max)%N ∧ (effective_uid c ≤ u32_max)%N ∧ (effective_gid c ≤ u32_max)%N.

Definition ids_in_range (ids : Evidence N * Evidence N) : Prop :=
  u32_evidence ids.1 ∧ u32_evidence ids.2.

Lemma unmapped_in_range c obs :
  credential_in_range c → WorkloadIdentity_in_range (workload obs) →
  PeerContext_in_range (PeerContext_peer_unmapped c obs).
Proof. by intros (? & ? & ?) ?. Qed.

Lemma observation_in_range c obs ids :
  credential_in_range c → WorkloadIdentity_in_range (workload obs) → ids_in_range ids →
  PeerContext_in_range (PeerContext_from_kernel_observation c obs ids.1 ids.2).
Proof.
  intros (? & ? & ?) ? [? ?]. split_and!; try done. cbn. unfold classify_consistency.
  destruct (_ || _); [done|]. by destruct ids.1, ids.2.
Qed.

Lemma u32_or_zero_le z : (u32_or_zero z ≤ u32_max)%N.
Proof. unfold u32_or_zero. case_decide; [lia|]. unfold u32_max. lia. Qed.

Definition ancestor_in_range (a : ProcessAncestor) : Prop :=
  (anc_pid a ≤ u32_max)%N ∧ token_evidence (anc_start a).

(** ** Linux *)

(** [uid_t] and [gid_t] are [u32]. *)
Class LinuxTypes (W : Type) `{Linux.LinuxKernel W} : Prop := {
  ucred_u32 : ∀ stream w c, (Linux.socket_peercred stream w).1 = Ok c →
    (Linux.ucred_uid c ≤ u32_max)%N ∧ (Linux.ucred_gid c ≤ u32_max)%N
}.

Section linux.
Context {W : Type} `{Linux.LinuxKernel W} `{Linux.StrDebug}.

Lemma parse_stat_text_fits p raw s :
  Linux.parse_stat_text p raw = Ok s → (Linux.ppid s ≤ u32_max)%N ∧ (Linux.starttime s ≤ u64_max)%N.
Proof.
  unfold Linux.parse_stat_text. intros (after & _ & Hs)%result_bind_Ok.
  apply result_bind_Ok in Hs as (f4 & _ & Hs).
  apply result_bind_Ok in Hs as (parent & Hp & Hs). apply result_bind_Ok in Hs as (f22 & _ & Hs).
  apply result_bind_Ok in Hs as (start & Ht & [= <-]). cbn [Linux.ppid Linux.starttime].
  destruct (parse_uint u32_max f4) as [n|] eqn:H4; [|done]. injection Hp as <-.
  destruct (parse_uint u64_max f22) as [m|] eqn:H22; [|done]. injection Ht as <-.
  split; by eapply parse_radix_bound.
Qed.

Lemma parse_stat_fits p :
  yields (λ r, ∀ s, r = Ok s → (Linux.ppid s ≤ u32_max)%N ∧ (Linux.starttime s ≤ u64_max)%N)
    (Linux.parse_stat p).
Proof.
  eapply yields_bind; [apply yields_any|]. intros r _. apply yields_ret.
  intros s (raw & _ & Hs)%result_bind_Ok. by apply parse_stat_text_fits in Hs.
Qed.

Lemma linux_process_start_fits p : yields token_evidence (Linux.process_start_of p).
Proof.
  eapply yields_bind; [apply parse_stat_fits|]. intros [s|e] Hs; apply yields_ret; [|done].
  by apply (Hs s eq_refl).
Qed.

Lemma linux_parent_fits p : yields (from_option (λ q, q ≤ u32_max)%N True) (Linux.parent_pid p).
Proof.
  eapply yields_bind; [apply parse_stat_fits|]. intros [s|e] Hs; apply yields_ret; [|done].
  by apply (Hs s eq_refl).
Qed.

Lemma linux_status_ids_fit p label : yields ids_in_range (Linux.read_status_ids p label).
Proof.
  assert (∀ line which raw, u32_evidence (Linux.parse_status_field label line which raw)) as Hf.
  { intros line which [t|]; [|done]. unfold Linux.parse_status_field. cbn [fmap option_fmap option_map].
    destruct (parse_uint u32_max t) as [n|] eqn:Hn; [|done]. by apply parse_radix_bound in Hn. }
  eapply yields_bind; [apply yields_any|]. intros [raw|e] _; apply yields_ret; [|done].
  unfold Linux.parse_status_ids. destruct (list_find _ _) as [[i line]|]; [|done].
  split; apply Hf.
Qed.

Lemma linux_status_id_fits p label : yields u32_evidence (Linux.read_status_id p label).
Proof.
  eapply yields_bind; [apply linux_status_ids_fit|]. intros ids [? _]. by apply yields_ret.
Qed.

Lemma linux_ancestry_fits p : yields (Forall ancestor_in_range) (Linux.ancestry_of p).
Proof.
  apply (walk_all_from _ _ (λ q, q ≤ u32_max)%N); [apply linux_parent_fits|]. intros q Hq.
  eapply yields_bind; [apply linux_process_start_fits|]. intros s Hs.
  eapply yields_bind; [apply yields_any|]. intros path _. by apply yields_ret.
Qed.

Lemma linux_context_fits p :
  (p ≤ u32_max)%N →
  yields (λ c, WorkloadIdentity_in_range (workload c)) (Linux.collect_execution_context p).
Proof.
  intros Hp. eapply yields_bind.
  - eapply yields_bind; [apply linux_process_start_fits|]. intros s Hs.
    eapply yields_bind; [apply linux_status_id_fits|]. intros u Hu.
    eapply yields_bind; [apply linux_status_id_fits|]. intros g Hg.
    eapply yields_bind; [apply yields_any|]. intros path _.
    eapply yields_bind; [apply linux_ancestry_fits|]. intros anc Hanc.
    apply (yields_ret WorkloadIdentity_in_range). by split_and!.
  - intros w Hw. eapply yields_bind; [apply yields_any|]. intros cg _. by apply yields_ret.
Qed.

Lemma ucred_fits `{!LinuxTypes W} stream :
  yields (λ r, ∀ c, r = Ok c → (Linux.ucred_uid c ≤ u32_max)%N ∧ (Linux.ucred_gid c ≤ u32_max)%N)
    (Linux.socket_peercred stream).
Proof. intros w c. apply ucred_u32. Qed.

#[export] Instance Linux_fitting `{!LinuxTypes W} : FittingPeerSource W.
Proof.
  constructor. intros stream. cbn [derive Linux_source].
  enough (yields (λ r, ∀ ctx, r = Ok ctx → PeerContext_in_range ctx)
    (Linux.collect_peer_context stream)) as Hy by (intros w; apply Hy).
  eapply yields_bind; [apply ucred_fits|]. intros [c|e] Hc; [|by apply yields_ret].
  destruct (Hc c eq_refl) as [Hu Hg]. cbv zeta.
  pose proof (u32_or_zero_le (Linux.ucred_pid c)) as Hp. case_decide.
  - eapply yields_bind; [by apply linux_context_fits|]. intros obs Hobs. apply yields_ret.
    intros ctx [= <-]. by apply unmapped_in_range.
  - eapply yields_bind; [by apply linux_context_fits|]. intros obs Hobs.
    eapply yields_bind; [apply linux_status_ids_fit|]. intros ids Hids. apply yields_ret.
    intros ctx [= <-]. by apply observation_in_range.
Qed.

End linux.

(** ** macOS *)

(** [xucred] and [proc_bsdinfo] have [u32] ids. *)
Class MacWidths (W : Type) `{Macos.MacKernel W} : Prop := {
  bsd_u32 : ∀ z w info, (Macos.pidinfo z w).1 = Ok info →
    (Macos.pbi_ppid info ≤ u32_max)%N ∧ (Macos.pbi_uid info ≤ u32_max)%N ∧
    (Macos.pbi_ruid info ≤ u32_max)%N ∧ (Macos.pbi_rgid info ≤ u32_max)%N;
  xucred_u32 : ∀ stream w c, (Macos.local_peer_cred stream w).1 = Ok c →
    (Macos.xu_uid c ≤ u32_max)%N ∧ Forall (λ g, g ≤ u32_max)%N (Macos.xu_groups c)
}.

Section macos.
Context {W : Type} `{Macos.MacKernel W} `{!MacWidths W}.

Definition bsd_in_range (info : Macos.BSDInfo) : Prop :=
  (Macos.pbi_ppid info ≤ u32_max)%N ∧ (Macos.pbi_uid info ≤ u32_max)%N ∧
  (Macos.pbi_ruid info ≤ u32_max)%N ∧ (Macos.pbi_rgid info ≤ u32_max)%N.

Lemma pidinfo_fits z : yields (λ r, ∀ info, r = Ok info → bsd_in_range info) (Macos.pidinfo z).
Proof. intros w info. apply bsd_u32. Qed.

Lemma bsd_info_fits p : yields (λ r, ∀ info, r = Ok info → bsd_in_range info) (Macos.bsd_info p).
Proof.
  unfold Macos.bsd_info. destruct (Macos.i32_try_from p); [apply pidinfo_fits|by apply yields_ret].
Qed.

Lemma start_token_fits info : token_evidence (Macos.start_token info).
Proof. cbn. unfold u64_saturating_add. lia. Qed.

Lemma mac_ancestry_fits p : yields (Forall ancestor_in_range) (Macos.ancestry_of p).
Proof.
  apply (walk_all_from _ _ (λ q, q ≤ u32_max)%N).
  - intros q. eapply yields_bind; [apply bsd_info_fits|]. intros [info|e] Hi; apply yields_ret; [|done].
    by apply (Hi info eq_refl).
  - intros q Hq. eapply yields_bind; [apply yields_any|]. intros r _.
    eapply yields_bind; [apply yields_any|]. intros path _. apply yields_ret. split; [done|].
    destruct r as [info|e]; [apply start_token_fits|done].
Qed.

Lemma mac_context_fits p :
  (p ≤ u32_max)%N →
  yields (λ c, WorkloadIdentity_in_range (workload c)) (Macos.collect_execution_context p).
Proof.
  intros Hp. eapply yields_bind; [|by intros w Hw; apply yields_ret].
  eapply yields_bind; [apply bsd_info_fits|]. intros [info|e] Hi;
    (eapply yields_bind; [apply yields_any|]; intros path _).
  - destruct (Hi info eq_refl) as (_ & _ & ? & ?).
    eapply yields_bind; [apply mac_ancestry_fits|]. intros anc Hanc.
    apply (yields_ret WorkloadIdentity_in_range). split_and!; try done. apply start_token_fits.
  - apply (yields_ret WorkloadIdentity_in_range). by split_and!.
Qed.

Lemma read_uids_fit p : yields ids_in_range (Macos.read_uids p).
Proof.
  unfold Macos.read_uids. destruct (Macos.i32_try_from p) as [z|]; [|by apply yields_ret].
  eapply yields_bind; [apply pidinfo_fits|]. intros [info|e] Hi; apply yields_ret; [|done].
  by destruct (Hi info eq_refl) as (_ & ? & ? & _).
Qed.

Lemma mac_credential_fits stream :
  yields (λ r, ∀ c g, r = Ok c → head (Macos.xu_groups c) = Some g →
    ∀ p, (p ≤ u32_max)%N → credential_in_range (PeerCredential_from_kernel p (Macos.xu_uid c) g))
    (Macos.local_peer_cred stream).
Proof.
  intros w c g Hc Hg p Hp. apply xucred_u32 in Hc as [Hu Hgs]. split_and!; [done|done|].
  destruct (Macos.xu_groups c); [done|]. injection Hg as ->. by apply Forall_cons in Hgs as [? _].
Qed.

#[export] Instance Macos_fitting : FittingPeerSource W.
Proof.
  constructor. intros stream. cbn [derive Macos_source].
  enough (yields (λ r, ∀ ctx, r = Ok ctx → PeerContext_in_range ctx)
    (Macos.collect_peer_context stream)) as Hy by (intros w; apply Hy).
  eapply yields_bind; [apply mac_credential_fits|]. intros [c|e] Hc; [|by apply yields_ret].
  case_decide; [by apply yields_ret|].
  destruct (head (Macos.xu_groups c)) as [g|] eqn:Hg; [|by apply yields_ret].
  specialize (Hc c g eq_refl Hg). eapply yields_bind; [apply yields_any|].
  intros [z|e] _; [|by apply yields_ret]. case_decide.
  - eapply yields_bind; [by apply mac_context_fits|]. intros obs Hobs. apply yields_ret.
    intros ctx [= <-]. by apply unmapped_in_range; [apply Hc|].
  - pose proof (u32_or_zero_le z) as Hp. eapply yields_bind; [by apply mac_context_fits|].
    intros obs Hobs. eapply yields_bind; [apply read_uids_fit|]. intros ids Hids. apply yields_ret.
    intros ctx [= <-]. by apply observation_in_range; [apply Hc|..].
Qed.

End macos.

(** ** Property *)

(** C20: what the collectors report is well formed.  Whatever the kernel answers, and
    whether or not it changes between two reads, the context that either collector
    derives for the peer of a socket is one of the two the source constructs, about the
    process of the credential; every piece of evidence in it is the kernel's or absent;
    and every number in it fits the width of its field. *)
Theorem collected_peers_typed {L M : Type} `{LinuxTypes L, StrDebug}
    `{!Macos.MacKernel M, !Macos.MacTypes M, !MacWidths M} (fd : N) (l : L) (m : M)
    (p : PeerContext) :
  (Linux.collect_peer_context fd l).1 = Ok p ∨ (Macos.collect_peer_context fd m).1 = Ok p →
  PeerContext_in_range p ∧ peer_kernel_derived p.
Proof.
  intros [Hp|Hp].
  - split; [by apply (derive_fits fd l)|by apply (derive_kernel fd l)].
  - split; [by apply (derive_fits fd m)|by apply (derive_kernel fd m)].
Qed.

(** ** Witness *)

#[export] Instance Linux_snapshot_types : LinuxTypes Linux.Snapshot.
Proof.
  constructor. intros stream w c. cbn. destruct (Linux.sockets w !! stream) as [x|]; [|done].
  case_decide; [|done]. by intros [= <-].
Qed.

#[export] Instance Macos_snapshot_widths : MacWidths Macos.Snapshot.
Proof.
  constructor; intros s w c; cbn.
  - destruct (Macos.processes w !! s) as [[x ?]|]; [|done]. case_decide; [|done]. by intros [= <-].
  - destruct (Macos.peers w !! s) as [[x ?]|]; [|done]. case_decide; [|done]. by intros [= <-].
Qed.

#[local] Instance debug_text : StrDebug := { str_debug s := s }.

Lemma collected_peers_typed_witness :
  ∃ p, (Linux.collect_peer_context 3 Linux.sample_snapshot).1 = Ok p ∧ PeerContext_in_range p.
Proof.
  destruct (Linux.collect_peer_context 3 Linux.sample_snapshot).1 as [p|] eqn:Hp; [|by vm_compute in Hp].
  exists p. split; [done|].
  apply (collected_peers_typed 3 Linux.sample_snapshot Macos.sample_snapshot p). by left.
Defined.
