(* ===== verification/Listener.v ===== *)
(** * The agent's socket

    Models [crates/eltanin-agent/src/listener.rs] and [config.rs]: the checks on the
    parent directory, the recovery of a stale socket file, binding, and the removal
    of the path when the socket is dropped.  The code is a script of system calls;
    a small file system answers them, for one agent alone and for several agents
    whose calls interleave. *)

From Stdlib Require Import Strings.Ascii.
From S2P Require Import Prelude Text.

(** ** Paths

    A [Path] is compared by its components; [absolute] says whether the first is the
    root directory, and a relative path without components is the empty path. *)

Record Path : Type := mk_Path {
  absolute : bool;
  components : list string
}.

#[export] Instance Path_eq_dec : EqDecision Path.
Proof. solve_decision. Defined.
#[export] Instance Path_countable : Countable Path.
Proof.
  refine (inj_countable' (λ p, (absolute p, components p)) (λ x, mk_Path x.1 x.2) _).
  by intros [].
Defined.

Definition Path_empty : Path := mk_Path false [].

(** [Path::parent]: all components but the last; the root and the empty path have
    none. *)
Definition Path_parent (p : Path) : option Path :=
  match components p with
  | [] => None
  | _ => Some (mk_Path (absolute p) (removelast (components p)))
  end.

(** The components of a path's text: empty ones and dots are skipped, but for a
    leading dot of a relative path. *)
Definition Path_of_text (s : string) : Path :=
  match s with
  | String "/" rest =>
      mk_Path true (filter (λ c, c ≠ "" ∧ c ≠ ".") (split_on "/"%char rest))
  | _ =>
      match split_on "/"%char s with
      | [] => Path_empty
      | first :: rest =>
          mk_Path false (filter (λ c, c ≠ "") [first] ++ filter (λ c, c ≠ "" ∧ c ≠ ".") rest)
      end
  end.

(** ** Configuration (config.rs) *)

Definition DEFAULT_SOCKET_PATH : Path := mk_Path true ["run"; "eltanin"; "agent.sock"].
(** Octal 666 and 660. *)
Definition MODE_ALL_LOCAL_USERS : N := 438.
Definition MODE_OWNER_GROUP : N := 432.
Definition DEFAULT_IO_TIMEOUT : Duration := Duration_from_secs 5.
Definition DEFAULT_MAX_CONNECTIONS : N := 64.
Definition DEFAULT_DRAIN_TIMEOUT : Duration := Duration_from_secs 10.

Record AgentConfig : Type := mk_AgentConfig {
  socket_path : Path;
  socket_mode : N;
  io_timeout : Duration;
  max_connections : N;
  drain_timeout : Duration
}.

Definition AgentConfig_new (path : Path) (mode : N) : AgentConfig :=
  mk_AgentConfig path mode DEFAULT_IO_TIMEOUT DEFAULT_MAX_CONNECTIONS DEFAULT_DRAIN_TIMEOUT.

Definition AgentConfig_with_io_timeout (self : AgentConfig) (timeout : Duration) : AgentConfig :=
  mk_AgentConfig (socket_path self) (socket_mode self) timeout (max_connections self)
    (drain_timeout self).

Definition AgentConfig_with_max_connections (self : AgentConfig) (max : N) : AgentConfig :=
  mk_AgentConfig (socket_path self) (socket_mode self) (io_timeout self) max
    (drain_timeout self).

Definition AgentConfig_with_drain_timeout (self : AgentConfig) (timeout : Duration) :
    AgentConfig :=
  mk_AgentConfig (socket_path self) (socket_mode self) (io_timeout self)
    (max_connections self) timeout.

(** ** System calls *)

(** The kinds of [std::io::Error] the code tells apart. *)
Inductive io_error : Type :=
  | IoNotFound
  | AddrInUse
  | ConnectionRefused
  | IoOther (why : string).

#[export] Instance io_error_eq_dec : EqDecision io_error.
Proof. solve_decision. Defined.

(** A socket is known by the number of its inode. *)
Inductive file_kind : Type :=
  | KDir
  | KSymlink
  | KFile
  | KSocket (sock : N).

#[export] Instance file_kind_eq_dec : EqDecision file_kind.
Proof. solve_decision. Defined.

Record Metadata : Type := mk_Metadata {
  kind : file_kind;
  mode : N;
  owner : N
}.

#[export] Instance Metadata_eq_dec : EqDecision Metadata.
Proof. solve_decision. Defined.

Inductive call : Type :=
  | SymlinkMetadata (p : Path)
  | Geteuid
  | CreateDirAll (p : Path)
  | SetPermissions (p : Path) (m : N)
  | BindSocket (p : Path)
  | Listen (s : N)
  | Connect (p : Path)
  | RemoveFile (p : Path)
  | Close (s : N).

Definition reply (c : call) : Type :=
  match c with
  | SymlinkMetadata _ => result Metadata io_error
  | Geteuid => N
  | BindSocket _ => result N io_error
  | CreateDirAll _ | SetPermissions _ _ | Listen _ | Connect _ | RemoveFile _ =>
      result () io_error
  | Close _ => ()
  end.

(** A script: calls, each continued with its reply. *)
Inductive script (A : Type) : Type :=
  | Ret (a : A)
  | Do (c : call) (k : reply c → script A).
Arguments Ret {A} a.
Arguments Do {A} c k.

#[export] Instance script_ret : MRet script := @Ret.
#[export] Instance script_bind : MBind script := λ A B f,
  fix go (m : script A) : script B :=
    match m with
    | Ret a => f a
    | Do c k => Do c (λ r, go (k r))
    end.

Definition do (c : call) : script (reply c) := Do c Ret.

(** [?] in a script. *)
Definition and_then {A B E} (m : script (result A E)) (k : A → script (result B E)) :
    script (result B E) :=
  r ← m;
  match r with
  | Ok a => k a
  | Err e => mret (Err e)
  end.

(** ** listener.rs *)

(** The texts are not modelled: a reason keeps the data its text is made of. *)
Inductive UnsafeReason : Type :=
  | IsSymlink
  | NotDirectory
  | GroupOtherWritable (m : N)
  | OwnedBy (u own_euid : N).

Inductive IoStep : Type :=
  | AtBind
  | AtBindAfterRecovery
  | AtChmod
  | AtCreateParent
  | AtChmodParent
  | AtStatParent
  | AtStat
  | AtRemoveStale
  | AtProbe
  | AtSignals.

Inductive StartupError : Type :=
  | ParentDirectoryUnsafe (p : Path) (why : UnsafeReason)
  | SocketInUse (p : Path)
  | StaleSocketPathNotASocket (p : Path)
  | StartupIo (at_ : IoStep) (e : io_error).

#[export] Instance UnsafeReason_eq_dec : EqDecision UnsafeReason.
Proof. solve_decision. Defined.
#[export] Instance IoStep_eq_dec : EqDecision IoStep.
Proof. solve_decision. Defined.
#[export] Instance StartupError_eq_dec : EqDecision StartupError.
Proof. solve_decision. Defined.

Record BoundSocket : Type := mk_BoundSocket {
  listener : N;
  bound_path : Path
}.

(** [UnixListener::bind] of the standard library: [socket] and [bind], then
    [listen]; the socket is closed when that fails. *)
Definition UnixListener_bind (p : Path) : script (result N io_error) :=
  and_then (do (BindSocket p)) (λ s,
    r ← do (Listen s);
    match r with
    | Ok _ => mret (Ok s)
    | Err e => _ ← do (Close s); mret (Err e)
    end).

Definition is_socket (m : Metadata) : bool :=
  match kind m with KSocket _ => true | _ => false end.

(** The masks are octal 022, group and others' write, and octal 777; a created
    parent gets octal 700. *)
Definition ensure_parent_directory_is_safe (parent : Path) : script (result () StartupError) :=
  r ← do (SymlinkMetadata parent);
  match r with
  | Ok meta =>
      if decide (kind meta = KSymlink) then mret (Err (ParentDirectoryUnsafe parent IsSymlink))
      else if decide (kind meta ≠ KDir) then
        mret (Err (ParentDirectoryUnsafe parent NotDirectory))
      else if decide (N.land (mode meta) 18 ≠ 0%N) then
        mret (Err (ParentDirectoryUnsafe parent (GroupOtherWritable (N.land (mode meta) 511))))
      else
        own_euid ← do Geteuid;
        if decide (owner meta ≠ own_euid) then
          mret (Err (ParentDirectoryUnsafe parent (OwnedBy (owner meta) own_euid)))
        else mret (Ok ())
  | Err IoNotFound =>
      r ← do (CreateDirAll parent);
      match r with
      | Err e => mret (Err (StartupIo AtCreateParent e))
      | Ok _ =>
          r ← do (SetPermissions parent 448);
          mret (map_err (StartupIo AtChmodParent) r)
      end
  | Err e => mret (Err (StartupIo AtStatParent e))
  end.

Definition recover_stale_socket (p : Path) : script (result () StartupError) :=
  r ← do (SymlinkMetadata p);
  match r with
  | Err e => mret (Err (StartupIo AtStat e))
  | Ok meta =>
      if decide (kind meta = KSymlink ∨ is_socket meta = false) then
        mret (Err (StaleSocketPathNotASocket p))
      else
        r ← do (Connect p);
        match r with
        | Ok _ => mret (Err (SocketInUse p))
        | Err ConnectionRefused =>
            r ← do (RemoveFile p);
            mret (map_err (StartupIo AtRemoveStale) r)
        | Err e => mret (Err (StartupIo AtProbe e))
        end
  end.

(** The listener of [bind], with the recovery of a stale socket. *)
Definition bind_recovering (p : Path) : script (result N StartupError) :=
  r ← UnixListener_bind p;
  match r with
  | Ok l => mret (Ok l)
  | Err AddrInUse =>
      and_then (recover_stale_socket p) (λ _,
        r ← UnixListener_bind p;
        mret (map_err (StartupIo AtBindAfterRecovery) r))
  | Err e => mret (Err (StartupIo AtBind e))
  end.

Definition parent_of (p : Path) : Path := default (mk_Path false ["."]) (Path_parent p).

(** When the mode cannot be set the listener is dropped, and with it closed; the
    path stays, since no [BoundSocket] exists yet. *)
Definition BoundSocket_bind (config : AgentConfig) : script (result BoundSocket StartupError) :=
  let p := socket_path config in
  and_then (ensure_parent_directory_is_safe (parent_of p)) (λ _,
  and_then (bind_recovering p) (λ l,
    r ← do (SetPermissions p (socket_mode config));
    match r with
    | Ok _ => mret (Ok (mk_BoundSocket l p))
    | Err e => _ ← do (Close l); mret (Err (StartupIo AtChmod e))
    end)).

(** [Drop]: the path is removed, then the listener is closed. *)
Definition BoundSocket_drop (self : BoundSocket) : script () :=
  _ ← do (RemoveFile (bound_path self));
  do (Close (listener self)).

(** ** A file system

    Directories, symbolic links, files and sockets by path; [listening] are the
    sockets some process listens on.  Paths are looked up by their text: a link in
    the middle of a path is not followed, and a call that would follow a link fails. *)

Record system : Type := mk_system {
  nodes : gmap Path Metadata;
  listening : gset N;
  next_sock : N;
  umask : N
}.

Definition lookup_node (σ : system) (p : Path) : option Metadata :=
  if decide (p = Path_empty) then None else nodes σ !! p.

Definition with_nodes (σ : system) (ns : gmap Path Metadata) : system :=
  mk_system ns (listening σ) (next_sock σ) (umask σ).

Definition with_listening (σ : system) (l : gset N) : system :=
  mk_system (nodes σ) l (next_sock σ) (umask σ).

(** The ancestors of a path and itself, outermost first, the empty one left out. *)
Definition prefixes (p : Path) : list Path :=
  (λ k, mk_Path (absolute p) (take k (components p))) <$> seq 1 (length (components p)).

(** [create_dir_all]: every missing ancestor is created; one that is not a directory
    stops it. *)
Fixpoint create_dirs (euid mask : N) (ns : gmap Path Metadata) (ps : list Path) :
    result () io_error * gmap Path Metadata :=
  match ps with
  | [] => (Ok (), ns)
  | p :: ps =>
      match ns !! p with
      | Some n =>
          if decide (kind n = KDir) then create_dirs euid mask ns ps
          else (Err (IoOther "File exists"), ns)
      | None =>
          create_dirs euid mask (<[p := mk_Metadata KDir (N.ldiff 511 mask) euid]> ns) ps
      end
  end.

Definition parent_exists (σ : system) (p : Path) : bool :=
  match Path_parent p with
  | None => false
  | Some q => bool_decide (q = Path_empty) ||
      match nodes σ !! q with
      | Some n => bool_decide (kind n = KDir)
      | None => bool_decide (components q = [])
      end
  end.

(** What a call does when nothing out of the ordinary prevents it. *)
Definition sys_do (euid : N) (σ : system) (c : call) : reply c * system :=
  match c with
  | SymlinkMetadata p => (ok_or (lookup_node σ p) IoNotFound, σ)
  | Geteuid => (euid, σ)
  | CreateDirAll p =>
      let '(r, ns) := create_dirs euid (umask σ) (nodes σ) (prefixes p) in (r, with_nodes σ ns)
  | SetPermissions p m =>
      match lookup_node σ p with
      | None => (Err IoNotFound, σ)
      | Some n =>
          if decide (kind n = KSymlink) then (Err (IoOther "symbolic link"), σ)
          else if decide (owner n = euid ∨ euid = 0%N) then
            (Ok (), with_nodes σ (<[p := mk_Metadata (kind n) (N.land m 4095) (owner n)]> (nodes σ)))
          else (Err (IoOther "Operation not permitted"), σ)
      end
  | BindSocket p =>
      match lookup_node σ p with
      | Some _ => (Err AddrInUse, σ)
      | None =>
          if parent_exists σ p then
            let s := next_sock σ in
            (Ok s, mk_system (<[p := mk_Metadata (KSocket s) (N.ldiff 511 (umask σ)) euid]> (nodes σ))
                     (listening σ) (s + 1) (umask σ))
          else (Err IoNotFound, σ)
      end
  | Listen s => (Ok (), with_listening σ ({[s]} ∪ listening σ))
  | Connect p =>
      match lookup_node σ p with
      | None => (Err IoNotFound, σ)
      | Some n =>
          match kind n with
          | KSymlink => (Err (IoOther "symbolic link"), σ)
          | KSocket s => (if decide (s ∈ listening σ) then Ok () else Err ConnectionRefused, σ)
          | KDir | KFile => (Err ConnectionRefused, σ)
          end
      end
  | RemoveFile p =>
      match lookup_node σ p with
      | None => (Err IoNotFound, σ)
      | Some n =>
          if decide (kind n = KDir) then (Err (IoOther "Is a directory"), σ)
          else (Ok (), with_nodes σ (delete p (nodes σ)))
      end
  | Close s => ((), with_listening σ (listening σ ∖ {[s]}))
  end.

(** Any fallible call may also fail for a reason of its own, and then does
    nothing. *)
Definition failure (c : call) (why : string) : option (reply c) :=
  match c with
  | Geteuid | Close _ => None
  | SymlinkMetadata _ | CreateDirAll _ | SetPermissions _ _ | BindSocket _ | Listen _
  | Connect _ | RemoveFile _ => Some (Err (IoOther why))
  end.

Inductive sys_step (euid : N) (σ : system) (c : call) : reply c → system → Prop :=
  | sys_ok : sys_step euid σ c (sys_do euid σ c).1 (sys_do euid σ c).2
  | sys_fail r why : failure c why = Some r → sys_step euid σ c r σ.

(** One script alone: with any failures, and without. *)
Inductive runs (euid : N) {A} : system → script A → A → system → Prop :=
  | runs_ret σ a : runs euid σ (Ret a) a σ
  | runs_do σ c k r σ' a σ'' :
      sys_step euid σ c r σ' → runs euid σ' (k r) a σ'' → runs euid σ (Do c k) a σ''.

Fixpoint run_do (euid : N) {A} (m : script A) (σ : system) : A * system :=
  match m with
  | Ret a => (a, σ)
  | Do c k => let '(r, σ) := sys_do euid σ c in run_do euid (k r) σ
  end.

(** ** Several agents

    Agents of one user, each starting, serving, stopping or gone; a crash closes the
    listener and leaves the path. *)

Inductive agent : Type :=
  | Starting (m : script (result BoundSocket StartupError))
  | Up (b : BoundSocket)
  | Stopping (m : script ())
  | Down.

Record world : Type := mk_world {
  sys : system;
  agents : list agent
}.

(** Agent [i] does one thing. *)
Inductive agent_step (euid : N) : agent → system → agent → system → Prop :=
  | step_start σ c k r σ' :
      sys_step euid σ c r σ' → agent_step euid (Starting (Do c k)) σ (Starting (k r)) σ'
  | step_up σ b : agent_step euid (Starting (Ret (Ok b))) σ (Up b) σ
  | step_refused σ e : agent_step euid (Starting (Ret (Err e))) σ Down σ
  | step_stop σ b : agent_step euid (Up b) σ (Stopping (BoundSocket_drop b)) σ
  | step_stopping σ c k r σ' :
      sys_step euid σ c r σ' → agent_step euid (Stopping (Do c k)) σ (Stopping (k r)) σ'
  | step_down σ u : agent_step euid (Stopping (Ret u)) σ Down σ
  | step_crash σ b :
      agent_step euid (Up b) σ Down (with_listening σ (listening σ ∖ {[listener b]})).

Inductive world_step (euid : N) : world → world → Prop :=
  | world_at i a a' w σ' :
      agents w !! i = Some a → agent_step euid a (sys w) a' σ' →
      world_step euid w (mk_world σ' (<[i := a']> (agents w))).

(** A schedule names the agent that moves; nothing fails, and an agent that is up
    stops. *)
Definition agent_do (euid : N) (a : agent) (σ : system) : agent * system :=
  match a with
  | Starting (Do c k) => let '(r, σ) := sys_do euid σ c in (Starting (k r), σ)
  | Starting (Ret (Ok b)) => (Up b, σ)
  | Starting (Ret (Err _)) => (Down, σ)
  | Up b => (Stopping (BoundSocket_drop b), σ)
  | Stopping (Do c k) => let '(r, σ) := sys_do euid σ c in (Stopping (k r), σ)
  | Stopping (Ret _) => (Down, σ)
  | Down => (Down, σ)
  end.

Fixpoint schedule (euid : N) (turns : list nat) (w : world) : world :=
  match turns with
  | [] => w
  | i :: turns =>
      match agents w !! i with
      | None => schedule euid turns w
      | Some a =>
          let '(a', σ') := agent_do euid a (sys w) in
          schedule euid turns (mk_world σ' (<[i := a']> (agents w)))
      end
  end.

(** ** Reasoning about scripts *)

(** [m] never does [Q]'s negation: every run from [σ] ends in [Q]. *)
Fixpoint wp (euid : N) {A} (m : script A) (Q : A → system → Prop) (σ : system) : Prop :=
  match m with
  | Ret a => Q a σ
  | Do c k => ∀ r σ', sys_step euid σ c r σ' → wp euid (k r) Q σ'
  end.

Lemma wp_runs euid {A} (m : script A) Q σ a σ' : wp euid m Q σ → runs euid σ m a σ' → Q a σ'.
Proof. intros Hw Hr. induction Hr as [|σ c k r σ' a σ'' Hs _ IH]; [done|]. apply IH. by apply Hw. Qed.

Lemma wp_mono euid {A} (m : script A) (P Q : A → system → Prop) σ :
  (∀ a σ', P a σ' → Q a σ') → wp euid m P σ → wp euid m Q σ.
Proof. intros HPQ. revert σ. induction m as [a|c k IH]; intros σ; cbn; [apply HPQ|eauto]. Qed.

Lemma wp_bind euid {A B} (m : script A) (f : A → script B) Q σ :
  wp euid m (λ a, wp euid (f a) Q) σ → wp euid (m ≫= f) Q σ.
Proof. revert σ. induction m as [a|c k IH]; intros σ; cbn; [done|]. intros Hk r σ' Hs. apply IH, Hk, Hs. Qed.

Lemma wp_and_then euid {A B E} (m : script (result A E)) (k : A → script (result B E)) Q σ :
  wp euid m (λ r, match r with Ok a => wp euid (k a) Q | Err e => Q (Err e) end) σ →
  wp euid (and_then m k) Q σ.
Proof.
  intros Hm. apply wp_bind. eapply wp_mono; [|exact Hm]. intros [a|e] σ'; by cbn.
Qed.

Lemma wp_do euid (c : call) Q σ :
  (∀ r σ', sys_step euid σ c r σ' → Q r σ') → wp euid (do c) Q σ.
Proof. done. Qed.

(** *** What a call can do *)

Lemma step_stat euid σ p r σ' :
  sys_step euid σ (SymlinkMetadata p) r σ' →
  σ' = σ ∧ match r with
           | Ok n => lookup_node σ p = Some n
           | Err IoNotFound => lookup_node σ p = None
           | Err AddrInUse | Err ConnectionRefused => False
           | Err (IoOther _) => True
           end.
Proof.
  intros Hs. inversion Hs as [|? why Hf]; simplify_eq; cbn in *.
  - split; [done|]. by destruct (lookup_node σ p).
  - by simplify_eq.
Qed.

Lemma lookup_node_Some σ p n : lookup_node σ p = Some n ↔ p ≠ Path_empty ∧ nodes σ !! p = Some n.
Proof. unfold lookup_node. case_decide; naive_solver. Qed.

Lemma lookup_node_None σ p :
  p ≠ Path_empty → lookup_node σ p = None → nodes σ !! p = None.
Proof. intros Hp. unfold lookup_node. by rewrite decide_False. Qed.

Lemma create_dirs_spec euid mask ns ps :
  let '(r, ns') := create_dirs euid mask ns ps in
  ns ⊆ ns' ∧
  (∀ q n, ns' !! q = Some n → ns !! q = Some n ∨ (q ∈ ps ∧ kind n = KDir ∧ owner n = euid)) ∧
  (r = Ok () → ∀ q, q ∈ ps → ∃ n, ns' !! q = Some n ∧ kind n = KDir) ∧
  (∀ e, r = Err e → ∃ why, e = IoOther why).
Proof.
  revert ns. induction ps as [|p ps IH]; intros ns; cbn [create_dirs].
  { split_and!; [reflexivity|by left| |done]. intros _ q Hq. by apply elem_of_nil in Hq. }
  destruct (ns !! p) as [n|] eqn:Hp.
  - case_decide as Hk.
    2: { split_and!; [reflexivity|by left|done|]. intros e [= <-]. by eexists. }
    specialize (IH ns). destruct (create_dirs euid mask ns ps) as [r ns'].
    destruct IH as (Hsub & Hnew & Hok & He). split_and!; [done| | |done].
    + intros q m [?|(? & ?)]%Hnew; [by left|right]. split; [by right|done].
    + intros Hr q [->|Hq]%elem_of_cons; [|by apply Hok].
      exists n. split; [|done]. by eapply lookup_weaken.
  - specialize (IH (<[p:=mk_Metadata KDir (N.ldiff 511 mask) euid]> ns)).
    destruct (create_dirs euid mask _ ps) as [r ns'].
    destruct IH as (Hsub & Hnew & Hok & He). split_and!; [| | |done].
    + etrans; [|exact Hsub]. by apply insert_subseteq.
    + intros q m [Hq|(? & ?)]%Hnew; [|right; split; [by right|done]].
      apply lookup_insert_Some in Hq as [[<- <-]|[_ ?]]; [|by left].
      right. split; [by left|done].
    + intros Hr q [->|Hq]%elem_of_cons; [|by apply Hok]. eexists.
      split; [eapply lookup_weaken; [apply lookup_insert_eq|exact Hsub]|done].
Qed.

Lemma step_create euid σ p r σ' :
  sys_step euid σ (CreateDirAll p) r σ' →
  nodes σ ⊆ nodes σ' ∧ listening σ' = listening σ ∧ next_sock σ' = next_sock σ ∧
  umask σ' = umask σ ∧
  (∀ q n, nodes σ' !! q = Some n →
     nodes σ !! q = Some n ∨ (q ∈ prefixes p ∧ kind n = KDir ∧ owner n = euid)) ∧
  (r = Ok () → ∀ q, q ∈ prefixes p → ∃ n, nodes σ' !! q = Some n ∧ kind n = KDir).
Proof.
  intros Hs. inversion Hs as [|? why Hf]; simplify_eq; cbn.
  - pose proof (create_dirs_spec euid (umask σ) (nodes σ) (prefixes p)) as Hc.
    destruct (create_dirs _ _ _ _) as [r' ns']. destruct Hc as (? & ? & ? & ?). by split_and!.
  - cbn in Hf. simplify_eq. split_and!; [reflexivity|done..|by left|done].
Qed.

Lemma step_chmod euid σ p m r σ' :
  sys_step euid σ (SetPermissions p m) r σ' →
  match r with
  | Ok _ => ∃ n, lookup_node σ p = Some n ∧ kind n ≠ KSymlink ∧
      σ' = with_nodes σ (<[p := mk_Metadata (kind n) (N.land m 4095) (owner n)]> (nodes σ))
  | Err e => σ' = σ
  end.
Proof.
  intros Hs. inversion Hs as [|? why Hf]; simplify_eq; cbn; [|by cbn in Hf; simplify_eq].
  destruct (lookup_node σ p) as [n|]; [|done]. repeat case_decide; cbn; [done|..|done].
  by exists n.
Qed.

Lemma step_bind euid σ p r σ' :
  sys_step euid σ (BindSocket p) r σ' →
  match r with
  | Ok s => p ≠ Path_empty ∧ nodes σ !! p = None ∧ s = next_sock σ ∧
      σ' = mk_system (<[p := mk_Metadata (KSocket s) (N.ldiff 511 (umask σ)) euid]> (nodes σ))
             (listening σ) (s + 1) (umask σ)
  | Err e => σ' = σ ∧ (e = AddrInUse → ∃ n, lookup_node σ p = Some n) ∧ e ≠ ConnectionRefused
  end.
Proof.
  intros Hs. inversion Hs as [|? why Hf]; simplify_eq; cbn; [|by cbn in Hf; simplify_eq].
  destruct (lookup_node σ p) as [n|] eqn:Hn; [by split_and!; eauto|].
  destruct (parent_exists σ p) eqn:Hp; [|done]. cbn.
  assert (p ≠ Path_empty) as Hne by (intros ->; done).
  split_and!; [done|by apply lookup_node_None|done..].
Qed.

Lemma step_listen euid σ s r σ' :
  sys_step euid σ (Listen s) r σ' →
  match r with
  | Ok _ => σ' = with_listening σ ({[s]} ∪ listening σ)
  | Err e => σ' = σ ∧ ∃ why, e = IoOther why
  end.
Proof.
  intros Hs. inversion Hs as [|? why Hf]; simplify_eq; cbn; [done|].
  cbn in Hf. simplify_eq. eauto.
Qed.

Lemma step_connect euid σ p r σ' :
  sys_step euid σ (Connect p) r σ' →
  σ' = σ ∧
  match r with
  | Ok _ => ∃ n s, lookup_node σ p = Some n ∧ kind n = KSocket s ∧ s ∈ listening σ
  | Err ConnectionRefused => ∃ n, lookup_node σ p = Some n ∧
      ∀ s, kind n = KSocket s → s ∉ listening σ
  | Err _ => True
  end.
Proof.
  intros Hs. inversion Hs as [|? why Hf]; simplify_eq; cbn; [|by cbn in Hf; simplify_eq].
  destruct (lookup_node σ p) as [n|]; [|done]. destruct (kind n) as [| | |s] eqn:Hk; cbn; try done.
  1, 2: (split; [done|]; exists n; split; [done|]; congruence).
  case_decide; (split; [done|]); [by exists n, s|]. exists n. split; [done|]. congruence.
Qed.

Lemma step_remove euid σ p r σ' :
  sys_step euid σ (RemoveFile p) r σ' →
  match r with
  | Ok _ => ∃ n, lookup_node σ p = Some n ∧ kind n ≠ KDir ∧ σ' = with_nodes σ (delete p (nodes σ))
  | Err _ => σ' = σ
  end.
Proof.
  intros Hs. inversion Hs as [|? why Hf]; simplify_eq; cbn; [|by cbn in Hf; simplify_eq].
  destruct (lookup_node σ p) as [n|]; [|done]. case_decide; [done|]. by exists n.
Qed.

Lemma step_close euid σ s r σ' :
  sys_step euid σ (Close s) r σ' → σ' = with_listening σ (listening σ ∖ {[s]}).
Proof. intros Hs. by inversion Hs. Qed.

Lemma step_geteuid euid σ r σ' : sys_step euid σ Geteuid r σ' → r = euid ∧ σ' = σ.
Proof. intros Hs. by inversion Hs. Qed.

(** *** Paths and their parents *)

Lemma not_prefix_of_parent p : p ∉ prefixes (parent_of p).
Proof.
  unfold prefixes, parent_of, Path_parent. rewrite list_elem_of_fmap.
  intros (k & Hp & Hk%elem_of_seq). destruct p as [a cs]. destruct cs as [|c cs]; cbn in Hp.
  - destruct k; [lia|done].
  - apply (f_equal (λ p, length (components p))) in Hp. cbn [components] in Hp.
    rewrite length_take in Hp. change (c :: cs) with ([c] ++ cs) in Hp.
    pose proof (app_removelast_last c (l := c :: cs) ltac:(done)) as Hl.
    apply (f_equal length) in Hl. rewrite length_app in Hl. cbn in Hp, Hl. lia.
Qed.

Lemma prefix_self p : components p ≠ [] → p ∈ prefixes p.
Proof.
  intros Hne. unfold prefixes. apply list_elem_of_fmap. exists (length (components p)).
  destruct p as [a cs]. cbn in *. split; [by rewrite firstn_all|].
  apply elem_of_seq. destruct cs; [done|]. cbn. lia.
Qed.

Lemma parent_of_ne p : parent_of p ≠ p.
Proof.
  intros Hp. destruct (components p) eqn:Hc.
  - apply (f_equal components) in Hp. revert Hp. unfold parent_of, Path_parent. by rewrite Hc.
  - apply (not_prefix_of_parent p). rewrite Hp. apply prefix_self. by rewrite Hc.
Qed.

(** ** One agent alone *)

(** A directory nobody but this user can change. *)
Definition safe_dir (euid : N) (n : Metadata) : Prop :=
  kind n = KDir ∧ N.land (mode n) 18 = 0%N ∧ owner n = euid.

#[export] Instance safe_dir_dec euid n : Decision (safe_dir euid n).
Proof. unfold safe_dir. apply _. Defined.

(** A socket file nobody listens on. *)
Definition stale (σ : system) (n : Metadata) : Prop :=
  ∃ s, kind n = KSocket s ∧ s ∉ listening σ.

(** Sockets are numbered as they are made. *)
Definition system_ok (σ : system) : Prop := ∀ s, s ∈ listening σ → (s < next_sock σ)%N.

(** The parent check leaves everything as it was, but for directories it creates. *)
Definition after_parent_check (euid : N) (p : Path) (σ : system)
    (r : result () StartupError) (σ' : system) : Prop :=
  nodes σ ⊆ nodes σ' ∧ nodes σ' !! p = nodes σ !! p ∧ listening σ' = listening σ ∧
  next_sock σ' = next_sock σ ∧
  (∀ q n, nodes σ' !! q = Some n →
     nodes σ !! q = Some n ∨ (q ∈ prefixes (parent_of p) ∧ kind n = KDir ∧ owner n = euid)) ∧
  match r with
  | Ok _ => ∃ d, lookup_node σ' (parent_of p) = Some d ∧ safe_dir euid d
  | Err (ParentDirectoryUnsafe q _) =>
      q = parent_of p ∧ ∃ d, nodes σ !! parent_of p = Some d ∧ ¬ safe_dir euid d
  | Err (StartupIo _ _) => True
  | Err _ => False
  end.

Lemma parent_check_wp euid p σ :
  wp euid (ensure_parent_directory_is_safe (parent_of p)) (after_parent_check euid p σ) σ.
Proof.
  assert (∀ r, match r with
    | Ok _ => ∃ d, lookup_node σ (parent_of p) = Some d ∧ safe_dir euid d
    | Err (ParentDirectoryUnsafe q _) =>
        q = parent_of p ∧ ∃ d, nodes σ !! parent_of p = Some d ∧ ¬ safe_dir euid d
    | Err (StartupIo _ _) => True
    | Err _ => False
    end → after_parent_check euid p σ r σ) as Hsame by (intros r Hr; split_and!; auto).
  apply wp_bind, wp_do. intros r σ1 [-> Hr]%step_stat.
  destruct r as [d|[]]; cbn; try done; try by apply Hsame.
  - assert (∀ why, ¬ safe_dir euid d → after_parent_check euid p σ
      (Err (ParentDirectoryUnsafe (parent_of p) why)) σ) as Hun.
    { intros why Hd. apply Hsame. split; [done|]. apply lookup_node_Some in Hr as [_ Hr].
      by exists d. }
    case_decide as Hk; [apply Hun; intros (? & _); congruence|].
    case_decide as Hk'; [apply Hun; by intros (? & _)|].
    case_decide as Hm; [apply Hun; by intros (_ & ? & _)|].
    intros r σ1 [-> ->]%step_geteuid. case_decide as Ho; [apply Hun; by intros (_ & _ & ?)|].
    apply Hsame. by exists d.
  - intros r σ1 (Hsub & Hl & Hn & _ & Hnew & Hok)%step_create.
    assert (nodes σ1 !! p = nodes σ !! p) as Hp.
    { destruct (nodes σ !! p) as [n|] eqn:Hn0; [by eapply lookup_weaken|].
      apply eq_None_not_Some. intros [n [?|[Hpre _]]%Hnew]; [congruence|].
      by apply (not_prefix_of_parent p). }
    destruct r as [[]|e]; cbn; [|by split_and!].
    intros r σ2 Hc%step_chmod. destruct r as [u|e]; cbn; [|by subst; split_and!].
    destruct Hc as (n & Hln & Hks & ->). apply lookup_node_Some in Hln as [Hne Hln].
    assert (nodes σ !! parent_of p = None) as Hnone by by apply lookup_node_None.
    pose proof (parent_of_ne p) as Hpp.
    destruct (Hnew _ _ Hln) as [?|(_ & Hkd & Hown)]; [congruence|].
    split_and!; cbn; [|by rewrite lookup_insert_ne|done|done| |].
    + apply map_subseteq_spec. intros q m Hq.
      rewrite lookup_insert_ne by congruence. by eapply lookup_weaken.
    + intros q m [[<- <-]|[_ Hq]]%lookup_insert_Some; [|by apply Hnew]. right.
      destruct (Hnew _ _ Hln) as [?|(? & _)]; [congruence|done].
    + eexists. split; [apply lookup_node_Some; split; [done|apply lookup_insert_eq]|].
      by split_and!.
Qed.

(** Binding, when no other agent runs: the listener is new, and only a stale socket
    gives way to it. *)
Lemma unix_bind_wp euid p σ :
  system_ok σ →
  wp euid (UnixListener_bind p) (λ r σ',
    (∀ q, q ≠ p → nodes σ' !! q = nodes σ !! q) ∧
    match r with
    | Ok s => p ≠ Path_empty ∧ nodes σ !! p = None ∧ s = next_sock σ ∧
        nodes σ' !! p = Some (mk_Metadata (KSocket s) (N.ldiff 511 (umask σ)) euid) ∧
        listening σ' = {[s]} ∪ listening σ
    | Err e => listening σ' = listening σ ∧
        (nodes σ' = nodes σ ∨ nodes σ !! p = None) ∧
        (e = AddrInUse → σ' = σ ∧ ∃ n, lookup_node σ p = Some n)
    end) σ.
Proof.
  intros Hwf. apply wp_and_then, wp_do. intros r σ1 Hb%step_bind.
  destruct r as [s|e].
  2: { destruct Hb as (-> & He & _). split; [done|]. split; [done|]. split; [by left|]. auto. }
  destruct Hb as (Hne & Hnone & Hs & ->).
  assert (∀ q (ns : gmap Path Metadata) m, q ≠ p → <[p:=m]> ns !! q = ns !! q) as Hins
    by (intros; by rewrite lookup_insert_ne).
  apply wp_bind, wp_do. intros r σ2 Hl%step_listen. destruct r as [u|e]; cbn.
  - subst σ2. cbn. split; [intros q; apply Hins|].
    split_and!; [done..|apply lookup_insert_eq|done].
  - destruct Hl as (-> & why & ->). intros r σ3 ->%step_close. cbn.
    split; [intros q; apply Hins|]. split; [|split; [by right|done]].
    assert (s ∉ listening σ) by (intros Hin%Hwf; lia). set_solver.
Qed.

Definition bound_alone (euid : N) (p : Path) (σ : system) (r : result N StartupError)
    (σ' : system) : Prop :=
  (∀ q, q ≠ p → nodes σ' !! q = nodes σ !! q) ∧
  (∀ n, nodes σ !! p = Some n → nodes σ' !! p = Some n ∨ stale σ n) ∧
  match r with
  | Ok s => p ≠ Path_empty ∧ (s = next_sock σ) ∧ listening σ' = {[s]} ∪ listening σ ∧
      (∃ m, nodes σ' !! p = Some (mk_Metadata (KSocket s) m euid)) ∧
      (∀ n, nodes σ !! p = Some n → stale σ n)
  | Err (SocketInUse q) => q = p ∧ σ' = σ ∧
      ∃ n s, nodes σ !! p = Some n ∧ kind n = KSocket s ∧ s ∈ listening σ
  | Err (StaleSocketPathNotASocket q) => q = p ∧ σ' = σ ∧
      ∃ n, nodes σ !! p = Some n ∧ is_socket n = false
  | Err (StartupIo _ _) => listening σ' = listening σ
  | Err (ParentDirectoryUnsafe _ _) => False
  end.

(** Only a socket that refuses is removed. *)
Lemma recover_wp euid p σ n :
  lookup_node σ p = Some n →
  wp euid (recover_stale_socket p) (λ r σ',
    match r with
    | Ok _ => stale σ n ∧ σ' = with_nodes σ (delete p (nodes σ))
    | Err e => σ' = σ ∧
        match e with
        | SocketInUse q => q = p ∧ ∃ s, kind n = KSocket s ∧ s ∈ listening σ
        | StaleSocketPathNotASocket q => q = p ∧ is_socket n = false
        | StartupIo _ _ => True
        | ParentDirectoryUnsafe _ _ => False
        end
    end) σ.
Proof.
  intros Hn. apply wp_bind, wp_do. intros r σ1 [-> Hr]%step_stat.
  destruct r as [m|e]; cbn; [|done]. assert (m = n) as -> by congruence.
  destruct (is_socket n) eqn:Hs.
  2: { rewrite decide_True by by right. done. }
  rewrite decide_False.
  2: { unfold is_socket in Hs. intros [Hk|?]; [by rewrite Hk in Hs|done]. }
  cbn. intros r σ1 [-> Hc]%step_connect. destruct r as [u|[]]; cbn; try done.
  { destruct Hc as (n' & s & Hn' & Hk & Hin). assert (n' = n) as -> by congruence. eauto. }
  destruct Hc as (n' & Hn' & Hnl). assert (n' = n) as -> by congruence.
  intros r σ1 Hrm%step_remove. destruct r as [u|e]; cbn; [|done].
  destruct Hrm as (_ & _ & _ & ->). split; [|done].
  unfold is_socket in Hs. destruct (kind n) as [| | |s] eqn:Hk; try done. exists s. auto.
Qed.

Lemma bind_recovering_wp euid p σ :
  system_ok σ → wp euid (bind_recovering p) (bound_alone euid p σ) σ.
Proof.
  intros Hwf. apply wp_bind. eapply wp_mono; [|by apply unix_bind_wp].
  intros r σ1 (Hq & Hr). destruct r as [s|e].
  { destruct Hr as (Hne & Hnone & Hs & Hp & Hl). cbn.
    split_and!; [done|congruence|done|done|done|by eexists|congruence]. }
  destruct Hr as (Hl & Hp & He).
  assert (∀ n, nodes σ !! p = Some n → nodes σ1 !! p = Some n ∨ stale σ n) as Hkeep.
  { intros n Hn. left. destruct Hp as [->|?]; congruence. }
  destruct e; try by (split_and!; [done..]).
  destruct (He eq_refl) as (-> & n & Hln). clear He Hl Hp Hkeep Hq.
  pose proof Hln as [Hne Hn]%lookup_node_Some.
  apply wp_and_then. eapply wp_mono; [|by apply recover_wp].
  intros r σ1 Hr. destruct r as [u|e].
  2: { destruct Hr as [-> Hr]. split; [done|]. split; [by left|].
       destruct e; try done; [|]; destruct Hr as [-> ?]; naive_solver. }
  destruct Hr as [Hst ->].
  apply wp_bind. eapply wp_mono; [|by apply unix_bind_wp].
  intros r σ2 (Hq & Hr).
  assert (∀ q, q ≠ p → nodes σ2 !! q = nodes σ !! q) as Hq'
    by (intros q ?; rewrite Hq by done; by apply lookup_delete_ne).
  assert (∀ m, nodes σ !! p = Some m → stale σ m) as Hstale
    by (intros m ?; by assert (m = n) as -> by congruence).
  destruct r as [s|e]; cbn.
  - destruct Hr as (_ & _ & -> & Hp & Hl2). split_and!; [done|auto|done|done|done|by eexists|done].
  - destruct Hr as (Hl2 & _). split_and!; [done|auto|done].
Qed.

(** How starting an agent alone may end. *)
Definition started_alone (euid : N) (c : AgentConfig) (σ : system)
    (r : result BoundSocket StartupError) (σ' : system) : Prop :=
  (∀ p n, nodes σ !! p = Some n →
     nodes σ' !! p = Some n ∨ (p = socket_path c ∧ stale σ n)) ∧
  (∀ p n, nodes σ' !! p = Some n →
     nodes σ !! p = Some n ∨ p = socket_path c ∨
     (p ∈ prefixes (parent_of (socket_path c)) ∧ kind n = KDir ∧ owner n = euid)) ∧
  listening σ' = match r with Ok b => {[listener b]} ∪ listening σ | Err _ => listening σ end ∧
  match r with
  | Ok b => bound_path b = socket_path c ∧ (listener b ∉ listening σ) ∧
      nodes σ' !! socket_path c =
        Some (mk_Metadata (KSocket (listener b)) (N.land (socket_mode c) 4095) euid) ∧
      (∃ d, lookup_node σ' (parent_of (socket_path c)) = Some d ∧ safe_dir euid d)
  | Err (ParentDirectoryUnsafe q _) => q = parent_of (socket_path c) ∧
      ∃ d, nodes σ !! parent_of (socket_path c) = Some d ∧ ¬ safe_dir euid d
  | Err (SocketInUse q) => q = socket_path c ∧
      ∃ n s, nodes σ !! socket_path c = Some n ∧ kind n = KSocket s ∧ s ∈ listening σ
  | Err (StaleSocketPathNotASocket q) => q = socket_path c ∧
      ∃ n, nodes σ !! socket_path c = Some n ∧ is_socket n = false
  | Err (StartupIo _ _) => True
  end.

Lemma startup_wp euid σ c :
  system_ok σ → wp euid (BoundSocket_bind c) (started_alone euid c σ) σ.
Proof.
  unfold started_alone.
  intros Hok. apply wp_and_then. eapply wp_mono; [|apply parent_check_wp].
  intros r1 σ1 (Hsub & Hp & Hl & Hnx & Hnew & Hr1).
  assert (∀ q n, nodes σ !! q = Some n → nodes σ1 !! q = Some n) as Hk1
    by (intros q n ?; by eapply lookup_weaken).
  destruct r1 as [u|e].
  2: { split; [by left; auto|]. split; [naive_solver|]. split; [done|]. by destruct e. }
  destruct Hr1 as (d & Hd & Hsafe). pose proof Hd as [Hdne Hd1]%lookup_node_Some.
  assert (system_ok σ1) as Hok1 by (intros s; rewrite Hl, Hnx; apply Hok).
  assert (∀ n, stale σ1 n → stale σ n) as Hst by (intros n (s & ? & ?); exists s; by rewrite <-Hl).
  apply wp_and_then. eapply wp_mono; [|by apply bind_recovering_wp].
  intros r2 σ2 (Hq & Hpath & Hr2).
  assert (∀ q n, nodes σ !! q = Some n → nodes σ2 !! q = Some n ∨ (q = socket_path c ∧ stale σ n)) as Hk2.
  { intros q n Hn. destruct (decide (q = socket_path c)) as [->|]; [|left; rewrite Hq by done; auto].
    destruct (Hpath n) as [?|?]; auto. }
  assert (∀ q n, nodes σ2 !! q = Some n → nodes σ !! q = Some n ∨ q = socket_path c ∨
    (q ∈ prefixes (parent_of (socket_path c)) ∧ kind n = KDir ∧ owner n = euid)) as Hnew2.
  { intros q n Hn. destruct (decide (q = socket_path c)) as [->|]; [by auto|].
    rewrite Hq in Hn by done. naive_solver. }
  destruct r2 as [s|e].
  2: { split; [done|]. split; [done|]. rewrite Hp in Hr2. destruct e; [done|..|].
       - destruct Hr2 as (-> & -> & ? & ? & ? & ? & ?). rewrite Hl in *. split_and!; eauto 10.
       - destruct Hr2 as (-> & -> & ? & ? & ?). rewrite Hl. split_and!; eauto.
       - split; [congruence|done]. }
  destruct Hr2 as (Hne & Hs & Hl2 & (m & Hm) & Hold).
  assert (s ∉ listening σ) as Hfresh by (rewrite <-Hl; intros ?%Hok1; lia).
  apply wp_bind, wp_do. intros r σ3 Hc%step_chmod. destruct r as [v|e]; cbn.
  - destruct Hc as (n & [_ Hn]%lookup_node_Some & _ & ->). rewrite Hm in Hn. simplify_eq. cbn.
    split.
    { intros q n Hn. destruct (decide (q = socket_path c)) as [->|]; [right; split; [done|]|].
      - apply Hst, Hold. by rewrite Hp.
      - rewrite lookup_insert_ne by done. destruct (Hk2 q n Hn) as [?|[? _]]; [by left|done]. }
    split; [intros q n [[<- _]|[_ ?]]%lookup_insert_Some; auto|].
    split; [congruence|]. split_and!; [done|done|apply lookup_insert_eq|].
    exists d. split; [|done]. apply lookup_node_Some. split; [done|]. cbn.
    pose proof (parent_of_ne (socket_path c)). rewrite lookup_insert_ne by done. by rewrite Hq.
  - subst σ3. intros r σ3 ->%step_close. cbn. split; [done|]. split; [done|]. split; [|done].
    rewrite Hl2. set_solver.
Qed.

Lemma bind_not_empty_wp euid σ c :
  system_ok σ →
  wp euid (BoundSocket_bind c) (λ r _, ∀ b, r = Ok b → socket_path c ≠ Path_empty) σ.
Proof.
  intros Hok. apply wp_and_then. eapply wp_mono; [|apply parent_check_wp].
  intros [u|e] σ1 (_ & _ & Hl & Hn & _); [|done].
  assert (system_ok σ1) as Hok1 by (intros s; rewrite Hl, Hn; apply Hok).
  apply wp_and_then. eapply wp_mono; [|by apply bind_recovering_wp].
  intros [s|e] σ2 (_ & _ & Hr); [|done]. destruct Hr as [Hne _].
  apply wp_bind, wp_do. intros [v|e] σ3 _; [by intros b _|]. by intros r σ4 _ b.
Qed.

(** *** Runs in which nothing goes wrong *)

Lemma run_do_runs euid {A} (m : script A) σ : runs euid σ m (run_do euid m σ).1 (run_do euid m σ).2.
Proof.
  revert σ. induction m as [a|c k IH]; intros σ; cbn; [constructor|].
  pose proof (sys_ok euid σ c) as Hs. destruct (sys_do euid σ c) as [r σ']. cbn in Hs.
  by econstructor.
Qed.

Lemma run_do_bind euid {A B} (m : script A) (f : A → script B) σ :
  run_do euid (m ≫= f) σ = let '(a, σ') := run_do euid m σ in run_do euid (f a) σ'.
Proof.
  revert σ. induction m as [a|c k IH]; intros σ; [done|].
  change (Do c k ≫= f) with (Do c (λ r, k r ≫= f)). cbn [run_do].
  destruct (sys_do euid σ c) as [r σ']. apply IH.
Qed.

Lemma run_do_and_then euid {A B E} (m : script (result A E)) (k : A → script (result B E)) σ a σ' :
  run_do euid m σ = (Ok a, σ') → run_do euid (and_then m k) σ = run_do euid (k a) σ'.
Proof. intros Hm. unfold and_then. by rewrite run_do_bind, Hm. Qed.

Lemma run_parent_safe euid p σ d :
  lookup_node σ p = Some d → safe_dir euid d →
  run_do euid (ensure_parent_directory_is_safe p) σ = (Ok (), σ).
Proof.
  intros Hd (Hk & Hm & Ho). unfold ensure_parent_directory_is_safe.
  rewrite run_do_bind. cbn. rewrite Hd. cbn.
  rewrite decide_False by (by rewrite Hk). rewrite decide_False by (intros Hn; by apply Hn).
  rewrite decide_False by (intros Hn; by apply Hn). cbn.
  rewrite decide_False by (intros Hn; by apply Hn). done.
Qed.

Lemma run_unix_bind euid p σ :
  lookup_node σ p = None → parent_exists σ p = true →
  run_do euid (UnixListener_bind p) σ =
    (Ok (next_sock σ),
     mk_system (<[p := mk_Metadata (KSocket (next_sock σ)) (N.ldiff 511 (umask σ)) euid]> (nodes σ))
       ({[next_sock σ]} ∪ listening σ) (next_sock σ + 1) (umask σ)).
Proof.
  intros Hn Hp. unfold UnixListener_bind, and_then. rewrite run_do_bind. cbn. by rewrite Hn, Hp.
Qed.

Lemma run_unix_bind_used euid p σ n :
  lookup_node σ p = Some n → run_do euid (UnixListener_bind p) σ = (Err AddrInUse, σ).
Proof.
  intros Hn. unfold UnixListener_bind, and_then. rewrite run_do_bind. cbn. by rewrite Hn.
Qed.

Lemma run_recover euid p σ n :
  lookup_node σ p = Some n → stale σ n →
  run_do euid (recover_stale_socket p) σ = (Ok (), with_nodes σ (delete p (nodes σ))).
Proof.
  intros Hn (s & Hk & Hs). unfold recover_stale_socket. rewrite run_do_bind. cbn. rewrite Hn. cbn.
  unfold is_socket. rewrite Hk. rewrite decide_False by naive_solver. cbn. rewrite Hn, Hk.
  rewrite decide_False by done. cbn. rewrite Hn, Hk. by rewrite decide_False.
Qed.

Lemma parent_exists_delete σ p :
  parent_exists σ p = true → parent_exists (with_nodes σ (delete p (nodes σ))) p = true.
Proof.
  unfold parent_exists. pose proof (parent_of_ne p) as Hne. unfold parent_of in Hne.
  destruct (Path_parent p) as [q|]; [|done]. cbn in *. by rewrite lookup_delete_ne.
Qed.

Lemma run_bind_recovering euid p σ :
  parent_exists σ p = true →
  (nodes σ !! p = None ∨ ∃ n, nodes σ !! p = Some n ∧ stale σ n) →
  ∃ s σ', run_do euid (bind_recovering p) σ = (Ok s, σ') ∧
    nodes σ' !! p = Some (mk_Metadata (KSocket s) (N.ldiff 511 (umask σ)) euid).
Proof.
  intros Hp Hn. assert (p ≠ Path_empty) as Hne by (intros ->; done).
  unfold bind_recovering. rewrite run_do_bind. destruct Hn as [Hn|(n & Hn & Hst)].
  - rewrite run_unix_bind by (done || unfold lookup_node; by rewrite decide_False).
    cbn. eexists _, _. split; [done|]. apply lookup_insert_eq.
  - assert (lookup_node σ p = Some n) as Hl by by apply lookup_node_Some.
    rewrite (run_unix_bind_used _ _ _ n Hl).
    rewrite (run_do_and_then _ _ _ _ () _ (run_recover _ _ _ _ Hl Hst)), run_do_bind.
    rewrite run_unix_bind; [|unfold lookup_node; rewrite decide_False by done;
      apply lookup_delete_eq|by apply parent_exists_delete].
    cbn. eexists _, _. split; [done|]. apply lookup_insert_eq.
Qed.

(** ** Properties *)

(** C24: what starting an agent does to the file system, with any failures on the
    way, when no other agent is starting.  Whatever the outcome, nothing that
    existed is changed or removed except, at the socket's path, a socket nobody
    listened on, and nothing is created but the path and missing directories above it.
    An agent that starts listens on its own new socket, at its path and with its mode, in
    a directory of its own that nobody else can write.  One that does not start leaves
    exactly the listening sockets that were there: none of its own stays open, on
    whichever step it failed, and none of another's is closed.  Each refusal names what
    was found. *)
Theorem startup_contract (euid : N) (σ σ' : system) (c : AgentConfig)
    (r : result BoundSocket StartupError) (Hok : system_ok σ)
    (Hrun : runs euid σ (BoundSocket_bind c) r σ') :
  (∀ p n, nodes σ !! p = Some n →
     nodes σ' !! p = Some n ∨ (p = socket_path c ∧ stale σ n)) ∧
  (∀ p n, nodes σ' !! p = Some n →
     nodes σ !! p = Some n ∨ p = socket_path c ∨
     (p ∈ prefixes (parent_of (socket_path c)) ∧ kind n = KDir ∧ owner n = euid)) ∧
  listening σ' = match r with Ok b => {[listener b]} ∪ listening σ | Err _ => listening σ end ∧
  match r with
  | Ok b => bound_path b = socket_path c ∧ (listener b ∉ listening σ) ∧
      nodes σ' !! socket_path c =
        Some (mk_Metadata (KSocket (listener b)) (N.land (socket_mode c) 4095) euid) ∧
      (∃ d, lookup_node σ' (parent_of (socket_path c)) = Some d ∧ safe_dir euid d)
  | Err (ParentDirectoryUnsafe q _) => q = parent_of (socket_path c) ∧
      ∃ d, nodes σ !! parent_of (socket_path c) = Some d ∧ ¬ safe_dir euid d
  | Err (SocketInUse q) => q = socket_path c ∧
      ∃ n s, nodes σ !! socket_path c = Some n ∧ kind n = KSocket s ∧ s ∈ listening σ
  | Err (StaleSocketPathNotASocket q) => q = socket_path c ∧
      ∃ n, nodes σ !! socket_path c = Some n ∧ is_socket n = false
  | Err (StartupIo _ _) => True
  end.
Proof. exact (wp_runs euid _ _ _ _ _ (startup_wp euid σ c Hok) Hrun). Qed.

(** Exactly when an agent starts.  With its directory present and nothing going
    wrong, it starts if and only if the directory is safe and its path is free or
    holds a socket nobody listens on; so a path left by a crash never needs an
    operator, and anything else at the path always does. *)
Theorem startup_succeeds_iff (euid : N) (σ : system) (c : AgentConfig) (d : Metadata)
    (Hd : lookup_node σ (parent_of (socket_path c)) = Some d)
    (Hp : parent_exists σ (socket_path c) = true) (Hl : system_ok σ) :
  (∃ b, (run_do euid (BoundSocket_bind c) σ).1 = Ok b) ↔
  safe_dir euid d ∧ (nodes σ !! socket_path c = None ∨
    ∃ n, nodes σ !! socket_path c = Some n ∧ stale σ n).
Proof.
  split.
  - intros [b Hb].
    pose proof (run_do_runs euid (BoundSocket_bind c) σ) as Hrun. rewrite Hb in Hrun.
    destruct (wp_runs euid _ _ _ _ _ (startup_wp euid σ c Hl) Hrun)
      as (Hkeep & _ & _ & _ & Hfresh & Hnode & d' & Hd' & Hsafe).
    apply lookup_node_Some in Hd as [_ Hd], Hd' as [_ Hd'].
    split.
    + destruct (Hkeep _ _ Hd) as [Hd2|[Heq _]]; [by simplify_eq|]. by apply parent_of_ne in Heq.
    + destruct (nodes σ !! socket_path c) as [n|] eqn:Hn; [right|by left]. exists n. split; [done|].
      destruct (Hkeep _ _ Hn) as [Hn2|[_ ?]]; [|done]. rewrite Hnode in Hn2. simplify_eq.
      by exists (listener b).
  - intros [Hsafe Hfree].
    destruct (run_bind_recovering euid (socket_path c) σ Hp Hfree) as (s & σ' & Hrun & Hn).
    unfold BoundSocket_bind.
    rewrite (run_do_and_then _ _ _ _ () _ (run_parent_safe _ _ _ _ Hd Hsafe)).
    rewrite (run_do_and_then _ _ _ _ s _ Hrun), run_do_bind. cbn.
    assert (socket_path c ≠ Path_empty) as Hne by (intros Hpe; by rewrite Hpe in Hp).
    rewrite (proj2 (lookup_node_Some _ _ _) (conj Hne Hn)). cbn.
    rewrite decide_False by done. rewrite decide_True by by left. cbn. by eexists.
Qed.

(** A socket path without a directory never works.  The code means to use the
    current directory when a path has no parent, but the parent of a bare file name
    is the empty path, which cannot be examined: starting fails at the parent
    directory, whatever the file system holds, and changes nothing. *)
Theorem bare_name_never_starts (euid : N) (σ σ' : system) (c : AgentConfig) (name : string)
    (r : result BoundSocket StartupError) (Hname : socket_path c = mk_Path false [name])
    (Hrun : runs euid σ (BoundSocket_bind c) r σ') :
  σ' = σ ∧ ∃ at_ e, r = Err (StartupIo at_ e) ∧
    (at_ = AtStatParent ∨ at_ = AtCreateParent ∨ at_ = AtChmodParent).
Proof.
  refine (wp_runs euid _ (λ r σ', _) _ _ _ _ Hrun). apply wp_and_then. rewrite Hname.
  unfold ensure_parent_directory_is_safe. apply wp_bind, wp_do.
  intros q σ1 [-> Hq]%step_stat. change (lookup_node σ _) with (@None Metadata) in Hq.
  destruct q as [d|[]]; cbn; try done; [|by eauto 10].
  intros q σ1 Hs. inversion Hs as [|? why Hf]; simplify_eq; cbn in *; simplify_eq; cbn; [|by eauto 10].
  assert (with_nodes σ (nodes σ) = σ) as -> by by destruct σ.
  intros q σ1 Hc. pose proof Hc as Hc'%step_chmod. destruct q as [u|e]; cbn in *.
  - by destruct Hc' as (n & ? & _).
  - subst. by eauto 10.
Qed.

(** ** Several agents, interleaved *)

Section interleaved.
Variable euid : N.
Variable σ0 : system.
Variable c : AgentConfig.

Abbreviation p := (socket_path c).

(** What every agent leaves alone: all but a socket at the path. *)
Definition others_kept (σ : system) : Prop :=
  ∀ q n, nodes σ0 !! q = Some n → q ≠ p ∨ is_socket n = false → nodes σ !! q = Some n.

(** The path is free for agents: nothing was there, or a socket. *)
Definition path_is_theirs : Prop := ∀ n, nodes σ0 !! p = Some n → is_socket n = true.

(** From every file system that keeps the others, each call of the script keeps
    them, whatever other agents do in between. *)
Fixpoint keeps {A} (m : script A) (Q : A → Prop) : Prop :=
  match m with
  | Ret a => Q a
  | Do c k => ∀ σ r σ', others_kept σ → sys_step euid σ c r σ' → others_kept σ' ∧ keeps (k r) Q
  end.

Lemma keeps_bind {A B} (m : script A) (f : A → script B) P Q :
  keeps m P → (∀ a, P a → keeps (f a) Q) → keeps (m ≫= f) Q.
Proof.
  intros Hm Hf. induction m as [a|c' k IH]; [by apply Hf|].
  intros σ r σ' Hσ Hs. destruct (Hm σ r σ' Hσ Hs) as [? Hk]. split; [done|]. by apply IH.
Qed.

Lemma keeps_do (c' : call) Q :
  (∀ σ r σ', others_kept σ → sys_step euid σ c' r σ' → others_kept σ' ∧ Q r) → keeps (do c') Q.
Proof. done. Qed.

Lemma others_kept_nodes σ σ' : nodes σ' = nodes σ → others_kept σ → others_kept σ'.
Proof. intros Hn Hσ q n ? ?. rewrite Hn. by apply Hσ. Qed.

Lemma others_kept_insert σ q m l k u :
  (∀ n, nodes σ0 !! q = Some n → q = p ∧ is_socket n = true) →
  others_kept σ → others_kept (mk_system (<[q := m]> (nodes σ)) l k u).
Proof.
  intros Hq Hσ q' n Hn Hor. cbn. destruct (decide (q' = q)) as [->|].
  - destruct (Hq n Hn). destruct Hor; congruence.
  - rewrite lookup_insert_ne by done. by apply Hσ.
Qed.

Lemma theirs_insert q : path_is_theirs → q = p → ∀ n, nodes σ0 !! q = Some n → q = p ∧ is_socket n = true.
Proof. intros Ht -> n Hn. split; [done|by apply Ht]. Qed.

Lemma keeps_unix_bind : keeps (UnixListener_bind p) (λ r, ∀ s, r = Ok s → path_is_theirs).
Proof.
  unfold UnixListener_bind, and_then.
  eapply (keeps_bind _ _ (λ r, ∀ s, r = Ok s → path_is_theirs)).
  - apply keeps_do. intros σ r σ' Hσ Hs%step_bind. destruct r as [s|e]; [|by destruct Hs as [-> _]].
    destruct Hs as (_ & Hn & _ & ->).
    assert (path_is_theirs) as Ht.
    { intros n Hn0. destruct (is_socket n) eqn:Hk; [done|].
      rewrite (Hσ p n) in Hn; [done|done|by right]. }
    split; [|done]. apply others_kept_insert; [|done]. by apply theirs_insert.
  - intros [s|e] Ht; [|done]. apply (keeps_bind _ _ (λ _, True)).
    + apply keeps_do. intros σ r σ' Hσ Hl%step_listen. split; [|done].
      destruct r; [subst|by destruct Hl as [-> _]]. by apply (others_kept_nodes σ).
    + intros [u|e] _; [intros s' _; by eapply Ht|].
      intros σ r σ' Hσ ->%step_close. split; [by apply (others_kept_nodes σ)|done].
Qed.

Lemma keeps_recover : keeps (recover_stale_socket p) (λ _, True).
Proof.
  apply (keeps_bind _ _ (λ r, ∀ n, r = Ok n → is_socket n = true → path_is_theirs)).
  - apply keeps_do. intros σ r σ' Hσ [-> Hr]%step_stat. split; [done|]. intros m -> Hm n Hn.
    destruct (is_socket n) eqn:Hk; [done|]. apply lookup_node_Some in Hr as [_ Hr].
    rewrite (Hσ p n) in Hr by (done || by right). congruence.
  - intros [m|e] Ht; [|done]. case_decide as Hd; [done|].
    assert (path_is_theirs) as Hth.
    { apply (Ht m); [done|]. destruct (is_socket m) eqn:?; [done|]. destruct Hd. by right. }
    apply (keeps_bind _ _ (λ _, True)).
    { apply keeps_do. by intros σ r σ' Hσ [-> _]%step_connect. }
    intros [u|[]] _; try done. apply (keeps_bind _ _ (λ _, True)); [|by intros].
    apply keeps_do. intros σ r σ' Hσ Hr%step_remove. split; [|done].
    destruct r; [|by subst]. destruct Hr as (n & _ & _ & ->).
    intros q n' Hn' Hor. cbn. destruct (decide (q = p)) as [->|]; [|rewrite lookup_delete_ne by done; by apply Hσ].
    apply Hth in Hn'. destruct Hor; congruence.
Qed.

Lemma keeps_parent_check : keeps (ensure_parent_directory_is_safe (parent_of p)) (λ _, True).
Proof.
  apply (keeps_bind _ _ (λ r, r = Err IoNotFound →
    parent_of p = Path_empty ∨ nodes σ0 !! parent_of p = None)).
  - apply keeps_do. intros σ r σ' Hσ [-> Hr]%step_stat. split; [done|]. intros ->.
    destruct (decide (parent_of p = Path_empty)) as [|Hne]; [by left|right].
    apply (lookup_node_None _ _ Hne) in Hr. destruct (nodes σ0 !! parent_of p) as [n|] eqn:Hn; [|done].
    rewrite (Hσ _ n) in Hr; [done|done|left; apply parent_of_ne].
  - intros [d|[]] Hp; try done.
    + repeat (case_decide; [done|]). apply (keeps_bind _ _ (λ _, True)).
      * apply keeps_do. by intros σ r σ' Hσ [_ ->]%step_geteuid.
      * intros u _. by case_decide.
    + apply (keeps_bind _ _ (λ _, True)).
      * apply keeps_do. intros σ r σ' Hσ (Hsub & _)%step_create. split; [|done].
        intros q n ? ?. eapply lookup_weaken; [|done]. by apply Hσ.
      * intros [u|e] _; [|done]. apply (keeps_bind _ _ (λ _, True)); [|by intros].
        apply keeps_do. intros σ r σ' Hσ Hc%step_chmod. split; [|done].
        destruct r; [|by subst]. destruct Hc as (n & [Hne Hn]%lookup_node_Some & _ & ->).
        apply others_kept_insert; [|done]. intros n' Hn'.
        destruct (Hp eq_refl) as [?|?]; congruence.
Qed.

Lemma keeps_bind_recovering : keeps (bind_recovering p) (λ r, ∀ s, r = Ok s → path_is_theirs).
Proof.
  eapply keeps_bind; [apply keeps_unix_bind|]. intros [s|[]] Ht; try done.
  { intros s' _. by eapply Ht. }
  eapply keeps_bind; [apply keeps_recover|]. intros [u|e] _; [|done].
  eapply keeps_bind; [apply keeps_unix_bind|]. intros [s|e] Ht'; [|done].
  intros s' _. by eapply Ht'.
Qed.

Lemma keeps_bound_socket :
  keeps (BoundSocket_bind c) (λ r, ∀ b, r = Ok b → bound_path b = p ∧ path_is_theirs).
Proof.
  eapply keeps_bind; [apply keeps_parent_check|]. intros [u|e] _; [|done].
  eapply keeps_bind; [apply keeps_bind_recovering|]. intros [s|e] Ht; [|done].
  specialize (Ht s eq_refl). apply (keeps_bind _ _ (λ _, True)).
  - apply keeps_do. intros σ r σ' Hσ Hc%step_chmod. split; [|done].
    destruct r; [|by subst]. destruct Hc as (n & _ & _ & ->).
    apply others_kept_insert; [|done]. by apply theirs_insert.
  - intros [v|e] _; [by intros b [= <-]|].
    intros σ r σ' Hσ ->%step_close. split; [by apply (others_kept_nodes σ)|done].
Qed.

Lemma keeps_drop b : bound_path b = p → path_is_theirs → keeps (BoundSocket_drop b) (λ _, True).
Proof.
  intros Hb Ht. unfold BoundSocket_drop. rewrite Hb. apply (keeps_bind _ _ (λ _, True)).
  - apply keeps_do. intros σ r σ' Hσ Hr%step_remove. split; [|done].
    destruct r; [|by subst]. destruct Hr as (n & _ & _ & ->). intros q n' Hn' Hor. cbn.
    destruct (decide (q = p)) as [->|]; [|rewrite lookup_delete_ne by done; by apply Hσ].
    apply Ht in Hn'. destruct Hor; congruence.
  - intros _ _ σ r σ' Hσ ->%step_close. split; [by apply (others_kept_nodes σ)|done].
Qed.

Definition agent_ok (a : agent) : Prop :=
  match a with
  | Starting m => keeps m (λ r, ∀ b, r = Ok b → bound_path b = p ∧ path_is_theirs)
  | Up b => bound_path b = p ∧ path_is_theirs
  | Stopping m => keeps m (λ _, True)
  | Down => True
  end.

Lemma agent_step_ok a σ a' σ' :
  agent_step euid a σ a' σ' → agent_ok a → others_kept σ → agent_ok a' ∧ others_kept σ'.
Proof.
  intros Hs Ha Hσ. destruct Hs as [σ c' k r σ' Hs|σ b|σ e|σ b|σ c' k r σ' Hs|σ u|σ b]; cbn in *.
  - destruct (Ha σ r σ' Hσ Hs). done.
  - by destruct (Ha b eq_refl).
  - done.
  - split; [|done]. destruct Ha. by apply keeps_drop.
  - destruct (Ha σ r σ' Hσ Hs). done.
  - done.
  - split; [done|]. by apply (others_kept_nodes σ).
Qed.

End interleaved.

(** Whatever any number of agents of one configuration do at the same time,
    starting, failing, crashing and stopping, no file of anyone else is ever changed
    or removed: everything that existed stays as it was, but for a socket at the
    agents' own path. *)
Theorem agents_keep_other_files (euid : N) (c : AgentConfig) (σ0 : system) (count : nat)
    (w : world)
    (Hreach : rtc (world_step euid)
      (mk_world σ0 (replicate count (Starting (BoundSocket_bind c)))) w)
    (q : Path) (n : Metadata) (Hn : nodes σ0 !! q = Some n)
    (Hother : q ≠ socket_path c ∨ is_socket n = false) :
  nodes (sys w) !! q = Some n.
Proof.
  enough (others_kept σ0 c (sys w) ∧ Forall (agent_ok euid σ0 c) (agents w)) as [Hk _]
    by by apply Hk.
  apply (rtc_ind_r (λ w, others_kept σ0 c (sys w) ∧ Forall (agent_ok euid σ0 c) (agents w))
    _) in Hreach; [done| |].
  - split; [by intros ???|]. apply Forall_replicate, keeps_bound_socket.
  - intros w1 w2 _ Hs [Hk Ha]. destruct Hs as [i a a' w' σ' Hi Hs]. cbn.
    destruct (agent_step_ok euid σ0 c a (sys w') a' σ' Hs) as [? ?];
      [by eapply Forall_lookup_1|done|]. split; [done|]. by apply Forall_insert.
Qed.

Lemma agent_do_step euid a σ :
  agent_step euid a σ (agent_do euid a σ).1 (agent_do euid a σ).2 ∨ agent_do euid a σ = (a, σ).
Proof.
  destruct a as [[[b|e]|c k]|b|[u|c k]|]; cbn.
  - left. apply step_up.
  - left. apply step_refused.
  - pose proof (sys_ok euid σ c) as Hs. destruct (sys_do euid σ c). left. by apply step_start.
  - left. apply step_stop.
  - left. apply step_down.
  - pose proof (sys_ok euid σ c) as Hs. destruct (sys_do euid σ c). left. by apply step_stopping.
  - by right.
Qed.

Lemma schedule_reachable euid turns w : rtc (world_step euid) w (schedule euid turns w).
Proof.
  revert w. induction turns as [|i turns IH]; intros w; cbn [schedule]; [done|].
  destruct (agents w !! i) as [a|] eqn:Hi; [|apply IH].
  pose proof (agent_do_step euid a (sys w)) as Hs.
  destruct (agent_do euid a (sys w)) as [a' σ']. cbn in Hs.
  destruct Hs as [Hs|[= -> ->]].
  - eapply rtc_l; [by eapply world_at|]. apply IH.
  - rewrite list_insert_id by done. destruct w. apply IH.
Qed.

(** A system where an agent died: its socket is still at the path. *)
Definition crashed_system : system :=
  mk_system
    (<[mk_Path true ["run"; "eltanin"] := mk_Metadata KDir 448 0]>
      (<[DEFAULT_SOCKET_PATH := mk_Metadata (KSocket 0) 438 0]> ∅)) ∅ 1 18.

Definition two_agents : world :=
  let c := AgentConfig_new DEFAULT_SOCKET_PATH MODE_ALL_LOCAL_USERS in
  mk_world crashed_system [Starting (BoundSocket_bind c); Starting (BoundSocket_bind c)].

(** Both probe the stale socket before either removes it. *)
Definition race_schedule : list nat :=
  replicate 5 0 ++ replicate 5 1 ++ replicate 5 0 ++ replicate 5 1.

(** C36: a live agent's socket can be unlinked.  The probe that finds a stale socket
    and its removal are two steps; when two agents start after a crash and both probe
    before either removes, both come up, but the path leads to the second only: the
    first listens on a socket no path leads to, and no client can reach it.  When the
    first then stops it removes the path of the second, which goes on serving
    unreachable. *)
Theorem live_socket_unlinked :
  ∃ w w' a b,
    rtc (world_step 0) two_agents w ∧ agents w = [Up a; Up b] ∧
    listener a ∈ listening (sys w) ∧
    map_Forall (λ _ n, kind n ≠ KSocket (listener a)) (nodes (sys w)) ∧
    rtc (world_step 0) w w' ∧ agents w' = [Down; Up b] ∧
    listener b ∈ listening (sys w') ∧ nodes (sys w') !! DEFAULT_SOCKET_PATH = None.
Proof.
  exists (schedule 0 race_schedule two_agents).
  exists (schedule 0 (replicate 4 0) (schedule 0 race_schedule two_agents)).
  exists (mk_BoundSocket 1 DEFAULT_SOCKET_PATH), (mk_BoundSocket 2 DEFAULT_SOCKET_PATH).
  split; [apply schedule_reachable|].
  split; [by vm_compute|].
  split; [by apply (bool_decide_unpack _); vm_compute|].
  split; [by apply (bool_decide_unpack _); vm_compute|].
  split; [apply schedule_reachable|].
  split; [by vm_compute|].
  split; [by apply (bool_decide_unpack _); vm_compute|by vm_compute].
Qed.

(** ** Witnesses *)

Definition sample_config : AgentConfig := AgentConfig_new DEFAULT_SOCKET_PATH MODE_OWNER_GROUP.

(** The crashed system with a file of someone else in it. *)
Definition sample_system : system :=
  with_nodes crashed_system
    (<[mk_Path true ["etc"; "passwd"] := mk_Metadata KFile 420 0]> (nodes crashed_system)).

Lemma system_ok_sample : system_ok sample_system.
Proof. intros s Hs. by apply elem_of_empty in Hs. Qed.

Lemma startup_contract_witness :
  let b := mk_BoundSocket 1 DEFAULT_SOCKET_PATH in
  let σ' := (run_do 0 (BoundSocket_bind sample_config) sample_system).2 in
  bound_path b = DEFAULT_SOCKET_PATH ∧ listener b ∈ listening σ' ∧
  nodes σ' !! DEFAULT_SOCKET_PATH = Some (mk_Metadata (KSocket 1) 432 0).
Proof.
  intros b σ'.
  assert (runs 0 sample_system (BoundSocket_bind sample_config) (Ok b) σ') as Hrun.
  { pose proof (run_do_runs 0 (BoundSocket_bind sample_config) sample_system) as Hr.
    by assert ((run_do 0 (BoundSocket_bind sample_config) sample_system).1 = Ok b) as <-
      by by vm_compute. }
  destruct (startup_contract 0 sample_system σ' sample_config (Ok b) system_ok_sample Hrun)
    as (_ & _ & Hl & Hp & _ & Hn & _). split; [exact Hp|]. split; [|exact Hn].
  rewrite Hl. apply elem_of_union_l, elem_of_singleton_2. reflexivity.
Defined.

Lemma startup_succeeds_iff_witness :
  ∃ b, (run_do 0 (BoundSocket_bind sample_config) sample_system).1 = Ok b.
Proof.
  apply (startup_succeeds_iff 0 sample_system sample_config (mk_Metadata KDir 448 0));
    [by vm_compute|by vm_compute|apply system_ok_sample|].
  split; [by vm_compute|]. right. exists (mk_Metadata (KSocket 0) 438 0).
  split; [by vm_compute|]. exists 0%N. split; [done|]. apply not_elem_of_empty.
Defined.

Lemma bare_name_never_starts_witness :
  let c := AgentConfig_new (Path_of_text "agent.sock") MODE_OWNER_GROUP in
  let out := run_do 0 (BoundSocket_bind c) sample_system in
  out.2 = sample_system ∧ ∃ at_ e, out.1 = Err (StartupIo at_ e) ∧
    (at_ = AtStatParent ∨ at_ = AtCreateParent ∨ at_ = AtChmodParent).
Proof.
  intros c out. apply (bare_name_never_starts 0 sample_system out.2 c "agent.sock" out.1);
    [done|apply run_do_runs].
Defined.

Lemma agents_keep_other_files_witness :
  nodes (sys (schedule 0 race_schedule (mk_world sample_system
    (replicate 2 (Starting (BoundSocket_bind sample_config)))))) !! mk_Path true ["etc"; "passwd"] =
  Some (mk_Metadata KFile 420 0).
Proof.
  apply (agents_keep_other_files 0 sample_config sample_system 2);
    [apply schedule_reachable|by vm_compute|by right].
Defined.
