(* ===== verification/Server.v ===== *)
(** * The accept loop, its connection slots, and shutdown

    Models [crates/eltanin-agent/src/server.rs].  The accept loop, the connection
    threads and the callers of [shutdown] run at the same time and share an atomic
    counter and a flag: the loop is a machine whose steps are its accesses to them,
    interleaved with the others' by a step relation.  The drain, which only polls,
    is a function of the world it polls. *)

From S2P Require Import Prelude Listener.

(** ** The accept loop *)

(** A connection thread: serving, then its slot given back by the guard, then done.
    A panic of the handler is caught, so serving ends in the same way. *)
Inductive ThreadState : Type :=
  | Serving
  | SlotFreed
  | Finished.

#[export] Instance ThreadState_eq_dec : EqDecision ThreadState.
Proof. solve_decision. Defined.

(** Where the accept loop is: before [accept], and after it with what it returned;
    before the capacity check, [fetch_add], [thread::spawn], the [fetch_sub] after a
    failed spawn; out of the loop. *)
Inductive Acceptor : Type :=
  | AtAccept
  | AtFlag (incoming : option N)
  | AtCapacity (stream : N)
  | AtReserve (stream : N)
  | AtSpawn (stream : N)
  | AtUnreserve
  | AtDrain.

#[export] Instance Acceptor_eq_dec : EqDecision Acceptor.
Proof. solve_decision. Defined.

(** [handles] are the ids of the threads pushed on [connection_threads]; [threads]
    holds the stream and the state of each; [backlog] the connections waiting. *)
Record Server : Type := mk_Server {
  pc : Acceptor;
  active : N;
  handles : list N;
  threads : gmap N (N * ThreadState);
  shutdown_flag : bool;
  backlog : list N
}.

Definition AgentServer_start : Server := mk_Server AtAccept 0 [] ∅ false [].

Definition at_ (s : Server) (a : Acceptor) : Server :=
  mk_Server a (active s) (handles s) (threads s) (shutdown_flag s) (backlog s).

(** One step of the loop of [run].  [accepted] is what [accept] returned when the
    loop is there, [spawned] the id of the new thread unless spawning failed. *)
Definition accept_loop_next (max_connections : N) (accepted : option N) (spawned : option N)
    (s : Server) : Server :=
  match pc s with
  | AtAccept =>
      mk_Server (AtFlag accepted) (active s) (handles s) (threads s) (shutdown_flag s)
        (match accepted with Some _ => tail (backlog s) | None => backlog s end)
  | AtFlag incoming =>
      if shutdown_flag s then at_ s AtDrain
      else match incoming with
           | None => at_ s AtAccept
           | Some stream => at_ s (AtCapacity stream)
           end
  | AtCapacity stream =>
      if decide (max_connections ≤ active s)%N then at_ s AtAccept else at_ s (AtReserve stream)
  | AtReserve stream =>
      mk_Server (AtSpawn stream) (active s + 1) (handles s) (threads s) (shutdown_flag s)
        (backlog s)
  | AtSpawn stream =>
      match spawned with
      | Some t =>
          mk_Server AtAccept (active s) (handles s ++ [t]) (<[t := (stream, Serving)]> (threads s))
            (shutdown_flag s) (backlog s)
      | None => at_ s AtUnreserve
      end
  | AtUnreserve =>
      mk_Server AtAccept (active s - 1) (handles s) (threads s) (shutdown_flag s) (backlog s)
  | AtDrain => s
  end.

(** One step of a connection thread: [SlotGuard]'s drop, then the end. *)
Definition thread_next (t : N) (s : Server) : Server :=
  match threads s !! t with
  | Some (stream, Serving) =>
      mk_Server (pc s) (active s - 1) (handles s) (<[t := (stream, SlotFreed)]> (threads s))
        (shutdown_flag s) (backlog s)
  | Some (stream, SlotFreed) =>
      mk_Server (pc s) (active s) (handles s) (<[t := (stream, Finished)]> (threads s))
        (shutdown_flag s) (backlog s)
  | _ => s
  end.

(** [ShutdownHandle::shutdown] is two steps: the flag is stored, then a connection
    is made to the socket's path, which may fail. *)
Definition ShutdownHandle_store (s : Server) : Server :=
  mk_Server (pc s) (active s) (handles s) (threads s) true (backlog s).

(** A connection, of a client or of [shutdown] itself, is queued. *)
Definition connect (stream : N) (s : Server) : Server :=
  mk_Server (pc s) (active s) (handles s) (threads s) (shutdown_flag s) (backlog s ++ [stream]).

(** The loop can move: it waits in [accept] for a connection or an error. *)
Inductive loop_step (max_connections : N) (s : Server) : Server → Prop :=
  | loop_accept stream rest :
      pc s = AtAccept → backlog s = stream :: rest →
      loop_step max_connections s (accept_loop_next max_connections (Some stream) None s)
  | loop_accept_error :
      pc s = AtAccept → loop_step max_connections s (accept_loop_next max_connections None None s)
  | loop_spawn stream spawned :
      pc s = AtSpawn stream → (∀ t, spawned = Some t → threads s !! t = None) →
      loop_step max_connections s (accept_loop_next max_connections None spawned s)
  | loop_other :
      pc s ≠ AtAccept → pc s ≠ AtDrain → (∀ stream, pc s ≠ AtSpawn stream) →
      loop_step max_connections s (accept_loop_next max_connections None None s).

Inductive other_step (s : Server) : Server → Prop :=
  | other_thread t : other_step s (thread_next t s)
  | other_connect stream : other_step s (connect stream s)
  | other_shutdown : other_step s (ShutdownHandle_store s).

Definition server_step (max_connections : N) (s s' : Server) : Prop :=
  loop_step max_connections s s' ∨ other_step s s'.

(** ** Draining *)

Record ShutdownReport : Type := mk_ShutdownReport {
  drained : N;
  abandoned : N
}.

#[export] Instance ShutdownReport_eq_dec : EqDecision ShutdownReport.
Proof. solve_decision. Defined.

(** What the drain asks: whether a thread has finished, the time, and to sleep. *)
Class DrainWorld (W : Type) : Type := {
  is_finished (t : N) : W → bool * W;
  instant_now : W → Instant * W;
  sleep (d : Duration) : W → W
}.

Definition poll_interval : Duration := Duration_from_millis 20.

Section drain.
Context {W : Type} `{DrainWorld W}.

(** The inner loop for one handle: whether it finished; [None] when the polls run
    out. *)
Fixpoint drain_handle (polls : nat) (deadline : Instant) (t : N) (w : W) : option bool * W :=
  match polls with
  | 0 => (None, w)
  | S polls =>
      let '(finished, w) := is_finished t w in
      if finished then (Some true, w)
      else
        let '(now, w) := instant_now w in
        if decide (deadline ≤ now)%N then (Some false, w)
        else drain_handle polls deadline t (sleep poll_interval w)
  end.

Fixpoint drain_handles (polls : nat) (deadline : Instant) (ts : list N) (r : ShutdownReport)
    (w : W) : option ShutdownReport * W :=
  match ts with
  | [] => (Some r, w)
  | t :: ts =>
      match drain_handle polls deadline t w with
      | (None, w) => (None, w)
      | (Some true, w) =>
          drain_handles polls deadline ts (mk_ShutdownReport (drained r + 1) (abandoned r)) w
      | (Some false, w) =>
          drain_handles polls deadline ts (mk_ShutdownReport (drained r) (abandoned r + 1)) w
      end
  end.

(** [drain].  The sum of now and the timeout panics when no [Instant] holds it. *)
Definition drain (polls : nat) (ts : list N) (timeout : Duration) (w : W) :
    option ShutdownReport * W :=
  let '(now, w) := instant_now w in
  match Instant_checked_add now timeout with
  | None => (None, w)
  | Some deadline => drain_handles polls deadline ts (mk_ShutdownReport 0 0) w
  end.

End drain.

(** A clock that reads [clock], never goes back, and moves at least by what is
    slept. *)
Class DrainClock (W : Type) `{DrainWorld W} : Type := {
  clock : W → Instant;
  clock_finished : ∀ t w, (clock w ≤ clock (is_finished t w).2)%N;
  clock_now : ∀ w, (clock w ≤ (instant_now w).1)%N ∧
                   ((instant_now w).1 ≤ clock (instant_now w).2)%N;
  clock_sleep : ∀ d w, (clock w + d ≤ clock (sleep d w))%N
}.

(** ** Lemmas *)

(** The threads that hold a slot. *)
Definition serving (ts : gmap N (N * ThreadState)) : N :=
  N.of_nat (size (filter (λ kv, kv.2.2 = Serving) ts)).

Lemma serving_insert_new ts t stream :
  ts !! t = None → serving (<[t := (stream, Serving)]> ts) = (serving ts + 1)%N.
Proof.
  intros Ht. unfold serving. rewrite map_filter_insert_True by done.
  rewrite map_size_insert_None; [lia|]. apply map_lookup_filter_None. by left.
Qed.

Lemma serving_freed ts t stream st :
  ts !! t = Some (stream, Serving) → st ≠ Serving →
  serving ts = (serving (<[t := (stream, st)]> ts) + 1)%N.
Proof.
  intros Ht Hst. unfold serving.
  rewrite map_filter_insert_False by done. rewrite map_filter_delete.
  rewrite map_size_delete_Some; [|exists (stream, Serving); by apply map_lookup_filter_Some].
  assert (size (filter (λ kv, kv.2.2 = Serving) ts) ≠ 0); [|lia].
  intros Hz%map_size_empty_inv.
  by apply (map_filter_empty_not_lookup _ _ t (stream, Serving) Hz).
Qed.

Lemma serving_not ts t stream st st' :
  ts !! t = Some (stream, st) → st ≠ Serving → st' ≠ Serving →
  serving (<[t := (stream, st')]> ts) = serving ts.
Proof.
  intros Ht Hst Hst'. unfold serving. rewrite map_filter_insert_False by done.
  rewrite map_filter_delete. rewrite delete_id; [done|].
  apply map_lookup_filter_None. right. intros [s' st''] Ht'. cbn. naive_solver.
Qed.

(** ** The slot invariant *)

(** The slot the loop itself holds between the reservation and the spawn. *)
Definition loop_slot (a : Acceptor) : N :=
  match a with
  | AtSpawn _ | AtUnreserve => 1
  | _ => 0
  end.

Record server_ok (max_connections : N) (s : Server) : Prop := mk_server_ok {
  so_active : active s = (serving (threads s) + loop_slot (pc s))%N;
  so_bound : (active s ≤ max_connections)%N;
  so_room : ∀ stream, pc s = AtReserve stream → (active s < max_connections)%N;
  so_handles : NoDup (handles s);
  so_threads : ∀ t, t ∈ handles s ↔ is_Some (threads s !! t)
}.

Lemma server_ok_start max : server_ok max AgentServer_start.
Proof.
  split; cbn; [done|lia|done|constructor|].
  intros t. rewrite lookup_empty. split; [by intros ?%elem_of_nil|by intros [? ?]].
Qed.

Lemma server_ok_loop max s s' : loop_step max s s' → server_ok max s → server_ok max s'.
Proof.
  intros Hs [Ha Hb Hr Hh Ht].
  destruct Hs as [stream rest Hpc Hq|Hpc|stream spawned Hpc Hnew|Hna Hnd Hns];
    unfold accept_loop_next.
  - rewrite Hpc in *. by split.
  - rewrite Hpc in *. by split.
  - rewrite Hpc in *. cbn in Ha. destruct spawned as [t|]; [|by split].
    specialize (Hnew t eq_refl). split; cbn; [by rewrite serving_insert_new, N.add_0_r|done..| |].
    + apply NoDup_app. split_and!; [done| |apply NoDup_singleton].
      intros t' Hin ->%list_elem_of_singleton. apply Ht in Hin as [? ?]. congruence.
    + intros t'. rewrite elem_of_app, list_elem_of_singleton, lookup_insert_is_Some', Ht.
      split; (intros [?|?]; [|subst]; auto).
  - destruct (pc s) as [|incoming|stream|stream|stream| |] eqn:Hpc; try done.
    + destruct (shutdown_flag s), incoming; split; cbn in *; done.
    + case_decide as Hmax; split; cbn; try done. intros stream' [= <-]. lia.
    + specialize (Hr stream eq_refl). cbn in Ha. split; cbn; [lia|lia|done..].
    + cbn in Ha. split; cbn; [lia|lia|done..].
Qed.

Lemma server_ok_thread max t s : server_ok max s → server_ok max (thread_next t s).
Proof.
  intros [Ha Hb Hr Hh Ht]. unfold thread_next.
  destruct (threads s !! t) as [[stream []]|] eqn:Hl; [| |by split|by split].
  - pose proof (serving_freed _ _ _ SlotFreed Hl ltac:(done)) as Hs.
    split; cbn; [lia|lia| |done|].
    + intros stream' Hpc. specialize (Hr stream' Hpc). lia.
    + intros t'. rewrite lookup_insert_is_Some', Ht. naive_solver.
  - pose proof (serving_not _ _ _ _ Finished Hl ltac:(done) ltac:(done)) as Hs.
    split; cbn; [by rewrite Hs|done..|].
    intros t'. rewrite lookup_insert_is_Some', Ht. naive_solver.
Qed.

Lemma server_ok_step max s s' : server_step max s s' → server_ok max s → server_ok max s'.
Proof.
  intros [Hl|[t|stream|]]; [by apply server_ok_loop|by apply server_ok_thread|..];
    by intros [Ha Hb Hr Hh Ht].
Qed.

Lemma server_ok_reachable max s :
  rtc (server_step max) AgentServer_start s → server_ok max s.
Proof.
  intros Hr. apply (rtc_ind_r (server_ok max) AgentServer_start) in Hr;
    [done|apply server_ok_start|]. intros s1 s2 _ Hs. by apply server_ok_step.
Qed.

(** ** Properties *)

(** C25: the connection slots, for every interleaving of the accept loop, the
    connection threads and any callers of [shutdown].  The counter is exactly the
    number of threads being served, plus the one the loop has reserved and not yet
    spawned; it never exceeds the limit, so neither do the threads; a failed spawn and
    a handler that panics give their slot back.  Every thread ever spawned is in the
    list that the drain joins, once. *)
Theorem slots_exact (max_connections : N) (s : Server)
    (Hreach : rtc (server_step max_connections) AgentServer_start s) :
  active s = (serving (threads s) + loop_slot (pc s))%N ∧
  (active s ≤ max_connections)%N ∧
  (∀ stream, pc s = AtReserve stream → (active s < max_connections)%N) ∧
  NoDup (handles s) ∧ (∀ t, t ∈ handles s ↔ is_Some (threads s !! t)).
Proof. by destruct (server_ok_reachable _ _ Hreach). Qed.

(** The connections the loop is committed to. *)
Definition committed (a : Acceptor) : nat :=
  match a with
  | AtCapacity _ | AtReserve _ | AtSpawn _ => 1
  | _ => 0
  end.

Lemma size_insert_Some ts t v w :
  ts !! t = Some v → size (<[t := w]> (ts : gmap N (N * ThreadState))) = size ts.
Proof. intros Ht. by rewrite map_size_insert, Ht. Qed.

Lemma step_after_flag max s s' :
  server_step max s s' → shutdown_flag s = true →
  shutdown_flag s' = true ∧
  (size (threads s') + committed (pc s') ≤ size (threads s) + committed (pc s)).
Proof.
  intros [Hl|Ho] Hf.
  - destruct Hl as [stream rest Hpc _|Hpc|stream spawned Hpc Hnew|Hna Hnd Hns];
      unfold accept_loop_next.
    + rewrite Hpc. cbn. by split; [|lia].
    + rewrite Hpc. cbn. by split; [|lia].
    + rewrite Hpc. destruct spawned as [t|]; cbn; [|split; [done|lia]]. split; [done|].
      rewrite map_size_insert_None by auto. lia.
    + destruct (pc s) eqn:Hpc; try done; rewrite ?Hf; try case_decide; cbn; (split; [done|lia]).
  - destruct Ho as [t|stream|]; [|by split..]. unfold thread_next.
    destruct (threads s !! t) as [[stream []]|] eqn:Ht; cbn; rewrite ?(size_insert_Some _ _ _ _ Ht);
      (split; [done|lia]).
Qed.

(** Once shutdown is requested at most one more connection is ever dispatched:
    the one the loop had already accepted and checked the flag for.  Nothing accepted
    after the flag was set, the connection that wakes the loop included, reaches the
    handler, however the other threads and clients interleave. *)
Theorem shutdown_stops_dispatch (max_connections : N) (s s' : Server)
    (Hflag : shutdown_flag s = true) (Hlater : rtc (server_step max_connections) s s') :
  shutdown_flag s' = true ∧
  size (threads s') ≤ size (threads s) + committed (pc s) ∧
  (committed (pc s) = 0 → size (threads s') ≤ size (threads s)).
Proof.
  enough (shutdown_flag s' = true ∧
    size (threads s') + committed (pc s') ≤ size (threads s) + committed (pc s)) as [? ?]
    by (split_and!; [done|lia|lia]).
  induction Hlater as [s|s s1 s2 Hs _ IH]; [by split|].
  destruct (step_after_flag _ _ _ Hs Hflag) as [Hf Hle]. destruct (IH Hf). split; [done|lia].
Qed.

(** How many steps the loop is away from its end, once the flag is set and something
    is there to accept. *)
Definition loop_rank (a : Acceptor) : nat :=
  match a with
  | AtDrain => 0
  | AtFlag _ => 1
  | AtAccept => 2
  | AtUnreserve => 3
  | AtSpawn _ => 4
  | AtReserve _ => 5
  | AtCapacity _ => 6
  end.

(** The loop is blocked in [accept]: nothing is queued, and only a new connection or an
    error of [accept] moves it. *)
Definition waiting (s : Server) : Prop := pc s = AtAccept ∧ backlog s = [].

(** The loop has something to wake it: a connection is queued, or it is not in
    [accept] any more. *)
Definition woken (s : Server) : Prop := backlog s ≠ [] ∨ loop_rank (pc s) ≤ 1.

Lemma woken_not_waiting s : woken s → ¬ waiting s.
Proof. intros [?|Hr] [Hpc ?]; [done|]. rewrite Hpc in Hr. cbn in Hr. lia. Qed.

(** A step that brings neither a connection nor an error of a blocked [accept]: one of
    the loop when it is not blocked, of a connection thread, of another [shutdown] that
    stores the flag. *)
Inductive unwoken_step (max_connections : N) (s : Server) : Server → Prop :=
  | unwoken_loop s' : ¬ waiting s → loop_step max_connections s s' → unwoken_step max_connections s s'
  | unwoken_thread t : unwoken_step max_connections s (thread_next t s)
  | unwoken_store : unwoken_step max_connections s (ShutdownHandle_store s).

Lemma unwoken_waiting max s s' : unwoken_step max s s' → waiting s → waiting s'.
Proof.
  intros [s1 Hn|t|] Hw; [done| |done]. unfold thread_next, waiting in *.
  by destruct (threads s !! t) as [[stream []]|].
Qed.

(** An execution, with the number of steps of the loop in it. *)
Inductive server_steps (max_connections : N) : nat → Server → Server → Prop :=
  | steps_nil s : server_steps max_connections 0 s s
  | steps_loop n s s1 s2 :
      loop_step max_connections s s1 → server_steps max_connections n s1 s2 →
      server_steps max_connections (S n) s s2
  | steps_other n s s1 s2 :
      other_step s s1 → server_steps max_connections n s1 s2 →
      server_steps max_connections n s s2.

Lemma loop_step_rank max s s' :
  loop_step max s s' → shutdown_flag s = true → woken s →
  shutdown_flag s' = true ∧ woken s' ∧ loop_rank (pc s') < loop_rank (pc s).
Proof.
  unfold woken. intros Hl Hf Hw.
  destruct Hl as [stream rest Hpc _|Hpc|stream spawned Hpc Hnew|Hna Hnd Hns];
    unfold accept_loop_next.
  - rewrite Hpc. cbn. split; [done|]. split; [by right|lia].
  - rewrite Hpc. cbn. split; [done|]. split; [by right|lia].
  - rewrite Hpc in Hw |- *. destruct Hw as [Hw|Hw]; [|cbn in Hw; lia].
    destruct spawned; cbn; (split; [done|]; split; [by left|lia]).
  - destruct (pc s) as [| | | |stream| |] eqn:Hpc; try done; try (by destruct (Hns stream)); cbn in Hw.
    all: try (destruct Hw as [Hw|Hw]; [|lia]).
    all: rewrite ?Hf; try case_decide; cbn; (split; [done|]; split; [|lia]).
    all: by auto || (right; lia).
Qed.

Lemma other_step_rank s s' :
  other_step s s' → shutdown_flag s = true → woken s →
  shutdown_flag s' = true ∧ woken s' ∧ pc s' = pc s.
Proof.
  unfold woken. intros [t|stream|] Hf Hw.
  - unfold thread_next. destruct (threads s !! t) as [[stream []]|]; by split_and!.
  - cbn. split; [done|]. split; [|done]. left. by destruct (backlog s).
  - by split_and!.
Qed.

Lemma loop_not_stuck max s : ¬ waiting s → pc s ≠ AtDrain → ∃ s', loop_step max s s'.
Proof.
  intros Hw Hd. destruct (pc s) as [| | | |stream| |] eqn:Hpc; try done.
  - destruct (backlog s) as [|stream rest] eqn:Hb; [by destruct Hw|]. eexists. by eapply loop_accept.
  - eexists. apply loop_other; by rewrite Hpc.
  - eexists. apply loop_other; by rewrite Hpc.
  - eexists. apply loop_other; by rewrite Hpc.
  - eexists. by eapply (loop_spawn _ _ stream None).
  - eexists. apply loop_other; by rewrite Hpc.
Qed.

Lemma flag_stays max s s' : rtc (server_step max) s s' → shutdown_flag s = true → shutdown_flag s' = true.
Proof. induction 1 as [|s s1 s' Hs _ IH]; [done|]. intros Hf. by apply IH, (step_after_flag max s). Qed.

(** C39: shutdown ends the accept loop, and its connection is what does it.  A caller of
    [shutdown] stores the flag; anything happens; it connects to the socket.  From then
    on the loop is never blocked in [accept] and can always move, and it is out after at
    most six steps of its own, whatever the other threads, clients and failures do in
    between.  Without the connection it is not so: a loop blocked in [accept] stays there,
    flag or not, for as long as no client connects and [accept] does not fail. *)
Theorem shutdown_reaches_drain (max_connections : N) (wake : N) (s s1 : Server)
    (Hbetween : rtc (server_step max_connections) (ShutdownHandle_store s) s1) :
  (∀ n s', server_steps max_connections n (connect wake s1) s' →
     n ≤ 6 ∧ (n = loop_rank (pc s1) → pc s' = AtDrain) ∧
     (pc s' ≠ AtDrain → ¬ waiting s' ∧ ∃ s'', loop_step max_connections s' s'')) ∧
  (waiting s1 → ∀ s2, rtc (unwoken_step max_connections) s1 s2 → pc s2 = AtAccept).
Proof.
  pose proof (flag_stays _ _ _ Hbetween eq_refl) as Hflag. split.
  - assert (shutdown_flag (connect wake s1) = true ∧ woken (connect wake s1)) as [Hf Hw].
    { split; [done|]. left. cbn. by destruct (backlog s1). }
    change (pc s1) with (pc (connect wake s1)). generalize dependent (connect wake s1).
    clear s s1 Hbetween Hflag. intros s Hf Hw n s' Hsteps.
    assert (woken s' ∧ n + loop_rank (pc s') ≤ loop_rank (pc s)) as [Hw' Hrank].
    { induction Hsteps as [s|n s s1 s2 Hl _ IH|n s s1 s2 Ho _ IH]; [done|..].
      - destruct (loop_step_rank _ _ _ Hl Hf Hw) as (Hf1 & Hw1 & Hlt).
        destruct (IH Hf1 Hw1). split; [done|lia].
      - destruct (other_step_rank _ _ Ho Hf Hw) as (Hf1 & Hw1 & Hpc).
        destruct (IH Hf1 Hw1) as [? Hle]. by rewrite Hpc in Hle. }
    split; [|split].
    + assert (loop_rank (pc s) ≤ 6) by (destruct (pc s); cbn; lia). lia.
    + intros ->. destruct (pc s'); cbn in Hrank; lia || done.
    + intros Hd. apply woken_not_waiting in Hw'. split; [done|]. by apply loop_not_stuck.
  - intros Hw s2 Hr. enough (waiting s2) as [? _] by done.
    clear Hbetween Hflag. induction Hr as [|s1 s' s2 Hs _ IH]; [done|].
    by apply IH; [eapply unwoken_waiting].
Qed.

(** *** The drain *)

Section drain_lemmas.
Context {W : Type} `{DrainClock W}.

(** [n] polls from [w] reach the deadline. *)
Definition reaches (n : nat) (deadline : Instant) (w : W) : Prop :=
  (deadline ≤ clock w + N.of_nat n * poll_interval)%N.

Lemma reaches_later n deadline w w' :
  (clock w ≤ clock w')%N → reaches n deadline w → reaches n deadline w'.
Proof. unfold reaches. lia. Qed.

Lemma drain_handle_ends n polls deadline t w :
  n < polls → reaches n deadline w →
  ∃ b w', drain_handle polls deadline t w = (Some b, w') ∧ (clock w ≤ clock w')%N.
Proof.
  revert n w. induction polls as [|polls IH]; intros n w Hn Hr; [lia|]. cbn [drain_handle].
  pose proof (clock_finished t w) as Hf. destruct (is_finished t w) as [[] w1]; cbn in Hf; [eauto|].
  pose proof (clock_now w1) as [Hnow Hc]. destruct (instant_now w1) as [now w2]; cbn in Hnow, Hc.
  case_decide as Hd; [exists false, w2; split; [done|lia]|].
  pose proof (clock_sleep poll_interval w2) as Hs. unfold reaches in *.
  destruct n as [|n]; [lia|].
  destruct (IH n (sleep poll_interval w2)) as (b & w' & -> & Hw'); [lia|lia|].
  exists b, w'. split; [done|lia].
Qed.

Lemma drain_handles_ends n polls deadline ts r w :
  n < polls → reaches n deadline w →
  ∃ r' w', drain_handles polls deadline ts r w = (Some r', w') ∧
    (drained r' + abandoned r' = drained r + abandoned r + N.of_nat (length ts))%N.
Proof.
  intros Hn. revert r w. induction ts as [|t ts IH]; intros r w Hr; cbn [drain_handles].
  { exists r, w. cbn. split; [done|lia]. }
  destruct (drain_handle_ends n polls deadline t w Hn Hr) as (b & w1 & -> & Hw1).
  apply (reaches_later _ _ _ w1 Hw1) in Hr.
  destruct b.
  - destruct (IH (mk_ShutdownReport (drained r + 1) (abandoned r)) w1 Hr) as (r' & w' & -> & He).
    exists r', w'. cbn in He |- *. split; [done|lia].
  - destruct (IH (mk_ShutdownReport (drained r) (abandoned r + 1)) w1 Hr) as (r' & w' & -> & He).
    exists r', w'. cbn in He |- *. split; [done|lia].
Qed.

(** A clock that nothing moves but sleeping, and that by exactly what is slept. *)
Definition exact_clock : Prop :=
  (∀ t w, clock (is_finished t w).2 = clock w) ∧
  (∀ w, (instant_now w).1 = clock w ∧ clock (instant_now w).2 = clock w) ∧
  (∀ d w, clock (sleep d w) = (clock w + d)%N).

Lemma drain_handle_time polls deadline t w :
  exact_clock →
  (clock (drain_handle polls deadline t w).2 ≤ N.max (clock w) (deadline + poll_interval))%N.
Proof.
  intros (Hf & Hn & Hs). revert w.
  induction polls as [|polls IH]; intros w; cbn [drain_handle]; [cbn; lia|].
  specialize (Hf t w). destruct (is_finished t w) as [[] w1]; cbn in Hf |- *; [lia|].
  destruct (Hn w1) as [Hn1 Hn2]. destruct (instant_now w1) as [now w2]; cbn in Hn1, Hn2.
  case_decide; cbn; [lia|]. specialize (IH (sleep poll_interval w2)). rewrite Hs in IH. lia.
Qed.

Lemma drain_handles_time polls deadline ts r w :
  exact_clock →
  (clock (drain_handles polls deadline ts r w).2 ≤ N.max (clock w) (deadline + poll_interval))%N.
Proof.
  intros He. revert r w. induction ts as [|t ts IH]; intros r w; cbn [drain_handles]; [cbn; lia|].
  pose proof (drain_handle_time polls deadline t w He) as Hh.
  destruct (drain_handle polls deadline t w) as [[[]|] w1]; cbn in Hh |- *; [| |lia].
  - specialize (IH (mk_ShutdownReport (drained r + 1) (abandoned r)) w1). lia.
  - specialize (IH (mk_ShutdownReport (drained r) (abandoned r + 1)) w1). lia.
Qed.

(** The drain always ends, with every thread accounted for.  On any clock that
    sleeping moves, enough polls to cover the timeout are enough for any number of
    threads, and the report counts each of them once, as drained or as abandoned; on a
    clock that only sleeping moves it takes no longer than the timeout and one poll,
    however many threads never finish. *)
Theorem drain_ends (polls : nat) (ts : list N) (timeout : Duration) (w : W)
    (Htimeout : ((instant_now w).1 + timeout ≤ Instant_max)%N)
    (Hpolls : (timeout + poll_interval ≤ N.of_nat polls * poll_interval)%N) :
  ∃ r w', drain polls ts timeout w = (Some r, w') ∧
    (drained r + abandoned r = N.of_nat (length ts))%N ∧
    (exact_clock → (clock w' ≤ clock w + timeout + poll_interval)%N).
Proof.
  unfold drain. pose proof (clock_now w) as [Hnow Hc].
  destruct (instant_now w) as [now w1] eqn:Hw1; cbn in Htimeout, Hnow, Hc.
  unfold Instant_checked_add. rewrite decide_True by done.
  assert (0 < poll_interval)%N as Hpos by done. destruct polls as [|n]; [lia|].
  destruct (drain_handles_ends n (S n) (now + timeout) ts (mk_ShutdownReport 0 0) w1)
    as (r & w' & Hr & He); [lia|unfold reaches; lia|].
  exists r, w'. cbn in He. split; [done|]. split; [lia|]. intros Hex.
  pose proof (drain_handles_time (S n) (now + timeout) ts (mk_ShutdownReport 0 0) w1 Hex) as Ht.
  rewrite Hr in Ht. cbn in Ht. destruct Hex as (_ & Hn & _). specialize (Hn w).
  rewrite Hw1 in Hn. cbn in Hn. lia.
Qed.

Lemma drain_handles_finished polls deadline ts r w :
  0 < polls → (∀ t w, (is_finished t w).1 = true) →
  (drain_handles polls deadline ts r w).1 =
    Some (mk_ShutdownReport (drained r + N.of_nat (length ts)) (abandoned r)).
Proof.
  intros Hp Hf. destruct polls as [|polls]; [lia|]. revert r w.
  induction ts as [|t ts IH]; intros r w; cbn [drain_handles].
  { cbn. f_equal. destruct r. cbn. f_equal. lia. }
  cbn [drain_handle]. specialize (Hf t w) as Ht. destruct (is_finished t w) as [b w1].
  cbn in Ht. subst b. rewrite IH. cbn [drained abandoned length]. do 2 f_equal. lia.
Qed.

(** The report counts more than the drain.  The handle of a finished connection
    is kept until shutdown, so the list grows with every connection ever served; and
    an agent that shuts down with nothing outstanding reports every one of them as
    drained. *)
Theorem drained_counts_every_connection (max_connections : N) (s : Server) (polls : nat)
    (timeout : Duration) (w : W)
    (Hreach : rtc (server_step max_connections) AgentServer_start s) (Hpc : pc s = AtDrain)
    (Hidle : map_Forall (λ _ v, v.2 = Finished) (threads s))
    (Hfinished : ∀ t w, (is_finished t w).1 = true)
    (Htimeout : ((instant_now w).1 + timeout ≤ Instant_max)%N) (Hpolls : 0 < polls) :
  serving (threads s) = 0%N ∧
  (drain polls (handles s) timeout w).1 =
    Some (mk_ShutdownReport (N.of_nat (size (threads s))) 0).
Proof.
  pose proof (server_ok_reachable _ _ Hreach) as [_ _ _ Hnd Hdom]. split.
  - unfold serving. rewrite map_empty_filter_2; [done|]. intros t v Hv Hs.
    specialize (Hidle t v Hv). cbn in Hidle, Hs. congruence.
  - unfold drain. destruct (instant_now w) as [now w1]. cbn in Htimeout.
    unfold Instant_checked_add. rewrite decide_True by done.
    rewrite drain_handles_finished by done. cbn. do 2 f_equal.
    assert (dom (threads s) = list_to_set (handles s) :> gset N) as Hd.
    { apply set_eq. intros t. rewrite elem_of_list_to_set, elem_of_dom. by rewrite Hdom. }
    by rewrite <-(size_dom (D := gset N)), Hd, size_list_to_set.
Qed.

End drain_lemmas.

(** ** Sample data *)

(** A clock, and when each thread finishes. *)
Record Stage : Type := mk_Stage {
  stage_clock : Instant;
  finishes : gmap N Instant
}.

#[export] Instance Stage_world : DrainWorld Stage := {
  is_finished t := λ w, (bool_decide (default 0%N (finishes w !! t) ≤ stage_clock w)%N, w);
  instant_now := λ w, (stage_clock w, w);
  sleep d := λ w, mk_Stage (stage_clock w + d) (finishes w)
}.

#[export] Instance Stage_clock : DrainClock Stage.
Proof.
  refine {| clock := stage_clock |}.
  - done.
  - by intros w.
  - by intros d w.
Defined.

(** Two connections, one of them served, and a shutdown: the loop's own steps. *)
Definition run_loop (max : N) (answers : list (option N * option N)) (s : Server) : Server :=
  foldl (λ s a, accept_loop_next max a.1 a.2 s) s answers.

Definition busy_server : Server :=
  run_loop 1 [(Some 7%N, None); (None, None); (None, None); (None, None); (None, Some 1%N)]
    (connect 7 AgentServer_start).

Ltac loop_steps :=
  repeat (vm_compute; first
    [ apply rtc_refl
    | eapply rtc_l; [left; eapply loop_accept; reflexivity|]
    | eapply rtc_l; [left; eapply (loop_spawn _ _ _ (Some 1%N)); [reflexivity|by intros ? [= <-]]|]
    | eapply rtc_l; [left; apply loop_other; by intros|] ]).

Lemma busy_server_reachable : rtc (server_step 1) AgentServer_start busy_server.
Proof.
  eapply rtc_l; [right; apply (other_connect _ 7)|]. loop_steps.
Qed.

Lemma slots_exact_witness : active busy_server = 1%N ∧ (active busy_server ≤ 1)%N.
Proof.
  split; [by vm_compute|]. apply (slots_exact 1 busy_server busy_server_reachable).
Defined.

(** Shutdown is requested while the loop has accepted a connection and passed the
    check: that one is still dispatched. *)
Definition late_server : Server :=
  ShutdownHandle_store
    (run_loop 4 [(Some 7%N, None); (None, None)] (connect 7 AgentServer_start)).

Definition late_dispatched : Server :=
  run_loop 4 [(None, None); (None, None); (None, Some 1%N)] late_server.

Lemma shutdown_stops_dispatch_witness :
  rtc (server_step 4) late_server late_dispatched ∧ size (threads late_dispatched) = 1 ∧
  size (threads late_dispatched) ≤ size (threads late_server) + committed (pc late_server).
Proof.
  assert (rtc (server_step 4) late_server late_dispatched) as Hr by loop_steps.
  split; [done|]. split; [by vm_compute|].
  apply (shutdown_stops_dispatch 4 late_server late_dispatched); done.
Defined.

(** The same, with the connection that [shutdown] makes; and a server nobody has
    connected to, which the flag alone does not end. *)
Lemma shutdown_reaches_drain_witness :
  (∃ s', server_steps 4 6 (connect 8 late_server) s' ∧ pc s' = AtDrain) ∧
  pc (thread_next 1 (ShutdownHandle_store AgentServer_start)) = AtAccept.
Proof.
  split.
  - exists (run_loop 4 [(None, None); (None, None); (None, None); (None, None); (Some 8%N, None);
      (None, None)] (connect 8 late_server)).
    assert (server_steps 4 6 (connect 8 late_server)
      (run_loop 4 [(None, None); (None, None); (None, None); (None, None); (Some 8%N, None);
        (None, None)] (connect 8 late_server))) as Hs.
    { eapply steps_loop; [apply loop_other; by intros|].
      eapply steps_loop; [apply loop_other; by intros|].
      eapply steps_loop; [eapply (loop_spawn _ _ _ None); [reflexivity|done]|].
      eapply steps_loop; [apply loop_other; by intros|].
      eapply steps_loop; [eapply loop_accept; reflexivity|].
      eapply steps_loop; [apply loop_other; by intros|]. apply steps_nil. }
    split; [exact Hs|].
    apply (proj1 (shutdown_reaches_drain 4 8 late_server late_server (rtc_refl _ _)) 6 _ Hs). reflexivity.
  - apply (proj2 (shutdown_reaches_drain 4 8 AgentServer_start (ShutdownHandle_store AgentServer_start)
      (rtc_refl _ _))); [done|]. apply rtc_once, unwoken_thread.
Defined.

(** One connection is done, another never ends. *)
Definition sample_stage : Stage :=
  mk_Stage 1000 (<[1%N := 500%N]> (<[2%N := Instant_max]> ∅)).

Example sample_drain :
  (drain 501 [1%N; 2%N] DEFAULT_DRAIN_TIMEOUT sample_stage).1 = Some (mk_ShutdownReport 1 1).
Proof. by vm_compute. Qed.

Lemma stage_exact : @exact_clock Stage Stage_world Stage_clock.
Proof. split; [by intros|split; by intros]. Qed.

Lemma drain_ends_witness :
  ∃ r w', drain 501 [1%N; 2%N] DEFAULT_DRAIN_TIMEOUT sample_stage = (Some r, w') ∧
    (drained r + abandoned r = 2)%N ∧ (stage_clock w' ≤ 10020001000)%N.
Proof.
  destruct (drain_ends 501 [1%N; 2%N] DEFAULT_DRAIN_TIMEOUT sample_stage)
    as (r & w' & Hd & Ha & Ht); [by vm_compute|by vm_compute|].
  exists r, w'. split; [exact Hd|]. split; [exact Ha|].
  exact (Ht stage_exact).
Defined.

(** A world whose threads are all done. *)
Definition done_world : DrainWorld Instant := {|
  is_finished t := λ w, (true, w);
  instant_now := λ w, (w, w);
  sleep d := λ w, (w + d)%N
|}.

Definition idle_server : Server :=
  run_loop 1 [(Some 9%N, None); (None, None)]
    (ShutdownHandle_store (connect 9 (thread_next 1 (thread_next 1 busy_server)))).

Lemma drained_counts_every_connection_witness :
  serving (threads idle_server) = 0%N ∧
  (@drain _ done_world 1 (handles idle_server) DEFAULT_DRAIN_TIMEOUT 0%N).1 =
    Some (mk_ShutdownReport 1 0).
Proof.
  apply (@drained_counts_every_connection _ done_world 1 idle_server 1 DEFAULT_DRAIN_TIMEOUT 0%N);
    [|reflexivity| |done|by vm_compute|lia].
  - etrans; [apply busy_server_reachable|].
    eapply rtc_l; [right; apply (other_thread _ 1)|].
    eapply rtc_l; [right; apply (other_thread _ 1)|].
    eapply rtc_l; [right; apply (other_connect _ 9)|].
    eapply rtc_l; [right; apply other_shutdown|]. loop_steps.
  - apply (bool_decide_unpack _). by vm_compute.
Defined.
