(* ===== verification/Threads.v ===== *)
(** * The accept loop and the handler, together

    [crates/eltanin-agent/src/server.rs] spawns a thread per connection, up to its
    limit; [connection.rs] has it serve exactly one request; [authz/mod.rs] handles
    that request in locked regions with backend calls between them.  This file puts
    the accept loop of [Server] and the interleaved handler of [AuthzConcurrent], with
    the panics of [Unwind], into one system: a grant is begun by a thread that is
    being served, and that thread gives its slot back when its request is settled, or
    when a panic has unwound it. *)

From S2P Require Import Prelude Resource Identity Policy PolicySpec Lease.
From S2P Require Import Peer Backend Protocol LeaseStore Authz AuthzSpec.
From S2P Require Import Server AuthzConcurrent Unwind.

Section threads.
Context {B : Type} `{ComputeBackend B} (h : AuthorizationHandler) (max_connections : N).

(** [begun] are the threads that already began a grant: a connection serves one
    request.  The grant of thread [t] is filed under [t]. *)
Record daemon : Type := mk_daemon {
  d_server : Server;
  d_machine : machine B;
  begun : gset N
}.

Definition in_flight_of (d : daemon) (t : N) : option grant :=
  ag_grants (m_agent (d_machine d)) !! N.to_nat t.

(** The request of thread [t] is over: nothing of it is in flight, or a panic ended
    it. *)
Definition request_over (d : daemon) (t : N) : Prop :=
  in_flight_of d t = None ∨ N.to_nat t ∈ unwound (d_machine d).

Definition being_served (s : Server) (t : N) : Prop :=
  ∃ stream, threads s !! t = Some (stream, Serving).

Inductive daemon_step (d : daemon) : daemon → Prop :=
  | daemon_loop s' :
      loop_step max_connections (d_server d) s' →
      daemon_step d (mk_daemon s' (d_machine d) (begun d))
  | daemon_thread t :
      (being_served (d_server d) t → request_over d t) →
      daemon_step d (mk_daemon (thread_next t (d_server d)) (d_machine d) (begun d))
  | daemon_connect stream :
      daemon_step d (mk_daemon (connect stream (d_server d)) (d_machine d) (begun d))
  | daemon_shutdown :
      daemon_step d (mk_daemon (ShutdownHandle_store (d_server d)) (d_machine d) (begun d))
  | daemon_begin t m' :
      being_served (d_server d) t → t ∉ begun d → in_flight_of d t = None →
      machine_step h (d_machine d) m' →
      dom (ag_grants (m_agent m')) = {[N.to_nat t]} ∪ dom (ag_grants (m_agent (d_machine d))) →
      daemon_step d (mk_daemon (d_server d) m' ({[t]} ∪ begun d))
  | daemon_handle m' :
      machine_step h (d_machine d) m' →
      dom (ag_grants (m_agent m')) ⊆ dom (ag_grants (m_agent (d_machine d))) →
      daemon_step d (mk_daemon (d_server d) m' (begun d)).

Definition daemon_start (st : LeaseState) (b : B) (now : MonotonicTime) : daemon :=
  mk_daemon AgentServer_start (mk_machine (agent_init st b now) ∅) ∅.

(** ** The invariant *)

(** Every grant in flight that no panic ended is of a thread being served. *)
Record daemon_ok (d : daemon) : Prop := mk_daemon_ok {
  dok_server : server_ok max_connections (d_server d);
  dok_machine : machine_ok h (d_machine d);
  dok_grants : ∀ i, i ∈ dom (ag_grants (m_agent (d_machine d))) →
    i ∈ unwound (d_machine d) ∨ being_served (d_server d) (N.of_nat i)
}.

(** Steps of the server that stop serving no thread, or only one whose request is
    over. *)
Lemma daemon_ok_server d s' :
  daemon_ok d → server_step max_connections (d_server d) s' →
  (∀ t, being_served (d_server d) t → ¬ request_over d t → being_served s' t) →
  daemon_ok (mk_daemon s' (d_machine d) (begun d)).
Proof.
  intros [Hs Hm Hg] Hstep Hkeep. split; cbn; [by eapply server_ok_step|done|].
  intros i Hi. destruct (Hg i Hi) as [?|Hserved]; [by left|].
  destruct (decide (i ∈ unwound (d_machine d))) as [?|Hlive]; [by left|right].
  apply Hkeep; [done|]. unfold request_over, in_flight_of. rewrite Nat2N.id.
  apply elem_of_dom in Hi as [g Hi]. rewrite Hi. by intros [?|?].
Qed.

Lemma loop_keeps_serving s s' t :
  loop_step max_connections s s' → being_served s t → being_served s' t.
Proof.
  intros Hl [stream Ht]. exists stream.
  destruct Hl as [stream' rest Hpc _|Hpc|stream' spawned Hpc Hnew|Hna Hnd Hns];
    unfold accept_loop_next; try (by rewrite Hpc).
  - rewrite Hpc. destruct spawned as [t'|]; [|done]. cbn. rewrite lookup_insert_ne; [done|].
    intros ->. by rewrite Hnew in Ht.
  - destruct (pc s) as [|[]| | | | |]; try done; repeat case_match; done.
Qed.

Lemma thread_keeps_serving s t t' : t' ≠ t → being_served s t' → being_served (thread_next t s) t'.
Proof.
  intros Hne [stream Ht]. exists stream. unfold thread_next.
  destruct (threads s !! t) as [[? []]|]; cbn; by rewrite ?lookup_insert_ne.
Qed.

Lemma unwound_step (m m' : machine B) : machine_step h m m' → unwound m ⊆ unwound m'.
Proof. intros Hs. by eapply unwound_grows, rtc_once. Qed.

Lemma daemon_ok_step d d' : daemon_ok d → daemon_step d d' → daemon_ok d'.
Proof.
  intros Hok Hstep.
  destruct Hstep as [s' Hl|t Hover|stream| |t m' Hserved Hnew Hnone Hm Hdom|m' Hm Hdom].
  - apply daemon_ok_server; [done|by left|]. intros t Ht _. by eapply loop_keeps_serving.
  - apply daemon_ok_server; [done|right; apply other_thread|]. intros t' Ht' Hrun.
    apply thread_keeps_serving; [|done]. intros ->. by apply Hrun, Hover.
  - apply daemon_ok_server; [done|right; apply other_connect|]. by intros t [? ?]; eexists.
  - apply daemon_ok_server; [done|right; apply other_shutdown|]. by intros t [? ?]; eexists.
  - destruct Hok as [Hs Hmok Hg]. split; cbn; [done|by eapply machine_ok_step|].
    pose proof (unwound_step _ _ Hm) as Hun. rewrite Hdom.
    intros i [->%elem_of_singleton|Hi]%elem_of_union; [right; by rewrite N2Nat.id|].
    destruct (Hg i Hi); [left; by apply Hun|by right].
  - destruct Hok as [Hs Hmok Hg]. split; cbn; [done|by eapply machine_ok_step|].
    pose proof (unwound_step _ _ Hm) as Hun. intros i Hi%Hdom.
    destruct (Hg i Hi); [left; by apply Hun|by right].
Qed.

Lemma daemon_ok_start st b now :
  handler_ok h st → reserved st = 0%N → daemon_ok (daemon_start st b now).
Proof.
  intros Hok Hr. split; cbn; [apply server_ok_start| |].
  - split; [by apply agent_ok_init|]. by intros i ?%not_elem_of_empty.
  - intros i. rewrite dom_empty_L. by intros ?%not_elem_of_empty.
Qed.

Lemma daemon_ok_rtc d d' : daemon_ok d → rtc daemon_step d d' → daemon_ok d'.
Proof. intros Hok Hr. induction Hr; [done|]. by eauto using daemon_ok_step. Qed.

(** The threads being served, as a set. *)
Definition serving_threads (s : Server) : gset N :=
  dom (filter (λ kv, kv.2.2 = Serving) (threads s)).

Lemma serving_threads_spec s t : t ∈ serving_threads s ↔ being_served s t.
Proof.
  unfold serving_threads, being_served. rewrite elem_of_dom. split.
  - intros [[stream st] Ht]. apply map_lookup_filter_Some in Ht as [Ht Hst]. cbn in Hst.
    exists stream. by rewrite Ht, Hst.
  - intros [stream Ht]. exists (stream, Serving). by apply map_lookup_filter_Some.
Qed.

Lemma serving_threads_size s : N.of_nat (size (serving_threads s)) = serving (threads s).
Proof. unfold serving_threads, serving. by rewrite size_dom. Qed.

(** ** Counting *)

Lemma size_add_le {A} `{Countable A} (x : A) (X : gset A) : size ({[x]} ∪ X) ≤ S (size X).
Proof.
  destruct (decide (x ∈ X)) as [Hx|Hx].
  - rewrite subseteq_union_1_L; [lia|]. by apply singleton_subseteq_l.
  - rewrite size_union, size_singleton; [lia|]. by apply disjoint_singleton_l.
Qed.

Lemma size_set_map_le (f : N → nat) (X : gset N) : size (set_map f X : gset nat) ≤ size X.
Proof.
  induction X as [|x X Hx IH] using set_ind_L; [by rewrite set_map_empty, !size_empty|].
  rewrite set_map_union_L, set_map_singleton_L, (size_union {[x]} X), size_singleton
    by by apply disjoint_singleton_l.
  etrans; [apply size_add_le|]. lia.
Qed.

Lemma size_union_le {A} `{Countable A} (X Y : gset A) : size (X ∪ Y) ≤ size X + size Y.
Proof. rewrite size_union_alt. apply Nat.add_le_mono_l, subseteq_size, subseteq_difference_l. done. Qed.

(** The grants in flight: of threads being served, or lost to a panic. *)
Lemma grants_counted d :
  daemon_ok d →
  (N.of_nat (size (ag_grants (m_agent (d_machine d)))) ≤
     serving (threads (d_server d)) + N.of_nat (size (unwound (d_machine d))))%N.
Proof.
  intros [_ _ Hg]. rewrite <-serving_threads_size, <-(size_dom (D := gset nat)).
  assert (dom (ag_grants (m_agent (d_machine d))) ⊆
    set_map N.to_nat (serving_threads (d_server d)) ∪ unwound (d_machine d)) as Hsub.
  { intros i Hi. apply elem_of_union. destruct (Hg i Hi) as [?|Hs]; [by right|left].
    apply elem_of_map. exists (N.of_nat i). rewrite Nat2N.id. split; [done|].
    by apply serving_threads_spec. }
  apply subseteq_size in Hsub. pose proof (size_union_le (A := nat)
    (set_map N.to_nat (serving_threads (d_server d))) (unwound (d_machine d))).
  pose proof (size_set_map_le N.to_nat (serving_threads (d_server d))). lia.
Qed.

(** Identifiers are used up by the steps that begin a grant, one each. *)
Lemma agent_step_next a a' :
  agent_ok h a → agent_step h a a' →
  next_sequence (store_issuer (ag_store a')) = next_sequence (store_issuer (ag_store a)) ∨
  next_sequence (store_issuer (ag_store a')) = (next_sequence (store_issuer (ag_store a)) + 1)%N ∧
  ¬ dom (ag_grants a') ⊆ dom (ag_grants a).
Proof.
  intros Ha Hstep.
  assert (∀ st (b : B) now gs i g r later answer st', agent_ok h (mk_agent st b now gs) →
    gs !! i = Some g → finish_request_lease st (grant_lease g) r later = (answer, st') →
    next_sequence (store_issuer st') = next_sequence (store_issuer st)) as Hfinish.
  { intros st b now gs i g r later answer st' Hok Hi Hf.
    pose proof (finish_request_spec h st (grant_lease g) r later (aok_handler _ _ Hok)
      (agent_in_flight h _ _ _ Hok Hi)) as Hs.
    rewrite Hf in Hs. destruct answer. by destruct Hs as (_ & _ & Hn & _). }
  destruct Hstep as [st b now now' gs _|st b now gs i q p l st' Hroom Hi Hb
    |st b now gs q p answer st' Hroom Hb|st b now gs i l r b' Hi _|st b now gs i l Hi
    |st b now gs i l later answer st' Hi Hf|st b now gs i l r answer st' Hi _ Hf
    |st b now gs q p answer st' b' _ Hrel]; cbn.
  - by left.
  - right. pose proof (begin_spec h st q p now (aok_handler _ _ Ha) Hroom) as Hs. rewrite Hb in Hs.
    destruct Hs as [_ (obs & _ & _ & _ & _ & _ & _ & _ & _ & _ & _ & _ & Hn & _)].
    split; [done|]. intros Hsub. assert (i ∈ dom gs) as Hin.
    { apply Hsub, elem_of_dom. rewrite lookup_insert_eq. by eexists. }
    apply elem_of_dom in Hin as [? ?]. congruence.
  - left. pose proof (begin_spec h st q p now (aok_handler _ _ Ha) Hroom) as Hs. rewrite Hb in Hs.
    by destruct Hs as [_ [-> | ->]].
  - by left.
  - by left.
  - left. by eapply (Hfinish _ _ _ _ _ (GStamped l later)).
  - left. by eapply (Hfinish _ _ _ _ _ (GEnforced l r)).
  - left. pose proof (release_spec h st b q p now (aok_handler _ _ Ha)) as Hs. rewrite Hrel in Hs.
    destruct answer as [out resp]. destruct Hs as [_ Hs].
    destruct Hs as [(_ & _ & _ & -> & _)|(obs & _ & Hs)]; [done|].
    destruct Hs as [(_ & _ & _ & -> & _)|(l0 & _ & _ & Hs)]; [done|].
    destruct Hs as [(_ & _ & _ & -> & _)|(_ & _ & _ & _ & _ & _ & Hn & _)]; done.
Qed.

Lemma machine_step_next (m m' : machine B) :
  machine_ok h m → machine_step h m m' →
  let next m := next_sequence (store_issuer (ag_store (m_agent m))) in
  (next m' ≤ next m + 1)%N ∧
  (dom (ag_grants (m_agent m')) ⊆ dom (ag_grants (m_agent m)) → next m' = next m).
Proof.
  intros [Ha _] Hs. destruct Hs as [a a' gone Hs _|st b now gs b' gone i l _ _]; cbn in *.
  - destruct (agent_step_next a a' Ha Hs) as [->|[-> Hno]]; (split; [lia|]); tauto.
  - split; [lia|done].
Qed.

(** How many more identifiers may be used up once no further connection is
    dispatched: one for each thread that has not begun its grant, and for the
    connection the loop is committed to. *)
Definition may_begin (d : daemon) : nat :=
  size (serving_threads (d_server d) ∖ begun d) + committed (pc (d_server d)).

Lemma may_begin_le d s' :
  serving_threads s' ⊆ serving_threads (d_server d) → committed (pc s') ≤ committed (pc (d_server d)) →
  may_begin (mk_daemon s' (d_machine d) (begun d)) ≤ may_begin d.
Proof.
  intros Hsub Hc. unfold may_begin. cbn.
  assert (serving_threads s' ∖ begun d ⊆ serving_threads (d_server d) ∖ begun d) as Hd%subseteq_size
    by by apply difference_mono_r.
  lia.
Qed.

Lemma may_begin_loop d s' :
  loop_step max_connections (d_server d) s' → shutdown_flag (d_server d) = true →
  may_begin (mk_daemon s' (d_machine d) (begun d)) ≤ may_begin d.
Proof.
  intros Hl Hf. set (s := d_server d) in *.
  destruct Hl as [stream rest Hpc _|Hpc|stream spawned Hpc Hnew|Hna Hnd Hns];
    unfold accept_loop_next.
  - rewrite Hpc. apply may_begin_le; [done|cbn; lia].
  - rewrite Hpc. apply may_begin_le; [done|cbn; lia].
  - rewrite Hpc. destruct spawned as [t|]; [|apply may_begin_le; [done|cbn; lia]].
    unfold may_begin. cbn. fold s. rewrite Hpc. cbn.
    assert (serving_threads (mk_Server AtAccept (active s) (handles s ++ [t])
        (<[t:=(stream, Serving)]> (threads s)) (shutdown_flag s) (backlog s)) ⊆
      {[t]} ∪ serving_threads s) as Hsub.
    { intros t' Ht'%serving_threads_spec. destruct Ht' as [str Ht']. cbn in Ht'.
      apply lookup_insert_Some in Ht' as [[<- _]|[_ Ht']]; [by apply elem_of_union_l, elem_of_singleton|].
      apply elem_of_union_r, serving_threads_spec. by exists str. }
    apply (difference_mono_r _ _ (begun d)), subseteq_size in Hsub.
    rewrite difference_union_distr_l_L in Hsub.
    pose proof (size_union_le ({[t]} ∖ begun d) (serving_threads s ∖ begun d)).
    assert (size ({[t]} ∖ begun d) ≤ 1); [|lia].
    rewrite <-(size_singleton (C := gset N) t). by apply subseteq_size, subseteq_difference_l.
  - destruct (pc s) as [|incoming|stream|stream|stream| |] eqn:Hpc; try done;
      rewrite ?Hf; try case_decide; apply may_begin_le; cbn; fold s; rewrite ?Hpc; done || (cbn; lia).
Qed.

Lemma thread_next_serving t s : serving_threads (thread_next t s) ⊆ serving_threads s.
Proof.
  intros t' Ht'%serving_threads_spec. apply serving_threads_spec.
  destruct Ht' as [stream Ht']. revert Ht'. unfold thread_next.
  destruct (threads s !! t) as [[stream' []]|] eqn:Ht; cbn; [..|by eexists|by eexists];
    intros [[_ ?]|[_ ?]]%lookup_insert_Some; try done; by eexists.
Qed.

Definition issued (d : daemon) : N :=
  next_sequence (store_issuer (ag_store (m_agent (d_machine d)))).

Lemma issued_grows d d' : daemon_ok d → daemon_step d d' → (issued d ≤ issued d')%N.
Proof.
  intros [_ [Ha _] _] Hs. unfold issued.
  assert (∀ m', machine_step h (d_machine d) m' → (issued d ≤
    next_sequence (store_issuer (ag_store (m_agent m'))))%N) as Hm.
  { intros m' Hm. unfold issued. destruct d as [s m bg]. cbn in *.
    destruct Hm as [a a' gone Hstep _|]; cbn in *; [|lia].
    destruct (agent_step_next a a' Ha Hstep) as [->|[-> _]]; lia. }
  destruct Hs; cbn; try lia; by apply Hm.
Qed.

(** Once the flag is set, what was issued and what may still begin only shrink. *)
Lemma issued_after_flag d d' :
  daemon_ok d → daemon_step d d' → shutdown_flag (d_server d) = true →
  shutdown_flag (d_server d') = true ∧
  (issued d' + N.of_nat (may_begin d') ≤ issued d + N.of_nat (may_begin d))%N.
Proof.
  intros Hok Hstep Hf. pose proof (dok_machine _ Hok) as Hm0.
  assert (∀ s', server_step max_connections (d_server d) s' → shutdown_flag s' = true) as Hflag.
  { intros s' Hs. by apply (step_after_flag max_connections (d_server d)). }
  destruct Hstep as [s' Hl|t Hover|stream| |t m' Hserved Hnew Hnone Hm Hdom|m' Hm Hdom].
  - split; [apply Hflag; by left|]. pose proof (may_begin_loop d s' Hl Hf). unfold issued. cbn. lia.
  - split; [apply Hflag; right; apply other_thread|].
    assert (may_begin (mk_daemon (thread_next t (d_server d)) (d_machine d) (begun d)) ≤ may_begin d).
    { apply may_begin_le; [apply thread_next_serving|]. unfold thread_next.
      destruct (threads (d_server d) !! t) as [[? []]|]; done. }
    unfold issued. cbn. lia.
  - split; [done|]. change (may_begin (mk_daemon (connect stream (d_server d)) (d_machine d) (begun d)))
      with (may_begin d). done.
  - split; [done|]. change (may_begin (mk_daemon (ShutdownHandle_store (d_server d)) (d_machine d)
      (begun d))) with (may_begin d). done.
  - split; [done|]. destruct (machine_step_next _ _ Hm0 Hm) as [Hle _]. unfold issued, may_begin in *.
    cbn. rewrite (union_comm_L {[t]}), <-difference_difference_l_L.
    rewrite size_difference, size_singleton.
    + assert (t ∈ serving_threads (d_server d) ∖ begun d) as Hin.
      { apply elem_of_difference. split; [by apply serving_threads_spec|done]. }
      assert (size (serving_threads (d_server d) ∖ begun d) ≠ 0); [|lia].
      intros Hz%size_empty_inv. set_solver.
    + apply singleton_subseteq_l, elem_of_difference. split; [by apply serving_threads_spec|done].
  - split; [done|]. destruct (machine_step_next _ _ Hm0 Hm) as [_ Heq]. unfold issued, may_begin in *.
    cbn. rewrite (Heq Hdom). lia.
Qed.

(** ** Properties *)

(** C8: the agent as a whole keeps within its two bounds.  However the accept loop,
    the connection threads, the backend's panics and shutdown interleave: a grant in
    flight is of a connection being served, unless a panic ended it; so reservations
    never exceed the connections being served by more than the panics so far, and no
    more leases are stored and reserved than configured; and when the threads have all
    finished without a panic, as after a complete drain, nothing is in flight and no
    reservation is left. *)
Theorem grants_within_connections (st : LeaseState) (b : B) (now : MonotonicTime) (d : daemon)
    (Hok : handler_ok h st) (Hres : reserved st = 0%N)
    (Hreach : rtc daemon_step (daemon_start st b now) d) :
  let store := ag_store (m_agent (d_machine d)) in
  let panics := N.of_nat (size (unwound (d_machine d))) in
  (∀ t g, in_flight_of d t = Some g → N.to_nat t ∉ unwound (d_machine d) →
     being_served (d_server d) t) ∧
  (reserved store ≤ serving (threads (d_server d)) + panics)%N ∧
  (reserved store ≤ max_connections + panics)%N ∧
  (outstanding store + reserved store ≤ max_outstanding_leases h)%N ∧
  ((∀ t stream state, threads (d_server d) !! t = Some (stream, state) → state = Finished) →
   unwound (d_machine d) = ∅ → ag_grants (m_agent (d_machine d)) = ∅ ∧ reserved store = 0%N).
Proof.
  intros store panics. assert (daemon_ok d) as Hd.
  { eapply daemon_ok_rtc; [by apply daemon_ok_start|exact Hreach]. }
  pose proof (grants_counted d Hd) as Hcount. pose proof Hd as [Hs [[Hh Hr _ _] _] Hg].
  assert (serving (threads (d_server d)) ≤ max_connections)%N as Hslots.
  { pose proof (so_active _ _ Hs). pose proof (so_bound _ _ Hs). lia. }
  unfold store, panics. rewrite Hr. split; [|split; [done|split; [lia|split]]].
  - intros t g Hin Hlive. destruct (Hg (N.to_nat t)) as [?|Hsv]; [|done|by rewrite N2Nat.id in Hsv].
    apply elem_of_dom. by exists g.
  - pose proof (swf_capacity _ (hok_store _ _ Hh)) as Hc. rewrite (hok_capacity _ _ Hh), Hr in Hc. done.
  - intros Hfin Hun. assert (ag_grants (m_agent (d_machine d)) = ∅) as ->; [|done].
    apply map_empty. intros i. apply not_elem_of_dom. intros Hi.
    destruct (Hg i Hi) as [Hgone|[stream Hsv]]; [by rewrite Hun in Hgone|].
    specialize (Hfin _ _ _ Hsv). done.
Qed.

(** C26: shutdown bounds what is still granted.  From the moment the flag is set, at
    most as many further leases are issued as there were connections being served that
    had not begun a grant, and one for the connection the loop had already accepted:
    never more than the limit of connections and one, however clients go on
    connecting. *)
Theorem shutdown_bounds_grants (st : LeaseState) (b : B) (now : MonotonicTime) (d d' : daemon)
    (Hok : handler_ok h st) (Hres : reserved st = 0%N)
    (Hreach : rtc daemon_step (daemon_start st b now) d)
    (Hflag : shutdown_flag (d_server d) = true) (Hlater : rtc daemon_step d d') :
  (issued d ≤ issued d' ≤ issued d + N.of_nat (may_begin d))%N ∧
  (issued d' ≤ issued d + max_connections + 1)%N.
Proof.
  assert (daemon_ok d) as Hd.
  { eapply daemon_ok_rtc; [by apply daemon_ok_start|exact Hreach]. }
  assert (N.of_nat (may_begin d) ≤ max_connections + 1)%N as Hmay.
  { destruct Hd as [Hs _ _]. pose proof (so_active _ _ Hs). pose proof (so_bound _ _ Hs).
    unfold may_begin. pose proof (serving_threads_size (d_server d)).
    assert (serving_threads (d_server d) ∖ begun d ⊆ serving_threads (d_server d)) as Hsub%subseteq_size
      by by apply subseteq_difference_l.
    assert (committed (pc (d_server d)) ≤ 1) by (destruct (pc (d_server d)); cbn; lia). lia. }
  enough (issued d ≤ issued d' ∧
    issued d' + N.of_nat (may_begin d') ≤ issued d + N.of_nat (may_begin d))%N as [? ?] by lia.
  clear Hreach Hmay. induction Hlater as [d|d d1 d' Hs _ IH]; [lia|].
  destruct (issued_after_flag _ _ Hd Hs Hflag) as [Hf1 Hle].
  destruct (IH Hf1 (daemon_ok_step _ _ Hd Hs)) as [Hge1 Hle1].
  pose proof (issued_grows _ _ Hd Hs). lia.
Qed.

End threads.

(** ** Witnesses

    One connection is accepted and spawned, its thread begins a grant, and shutdown is
    requested. *)

Import Fake.

(** The steps of the loop, with the result of [accept] and of the spawn. *)
Definition sample_loop : list (option N * option N) :=
  [(Some 7%N, None); (None, None); (None, None); (None, None); (None, Some 0%N)].

Definition loop_states (n : nat) : Server :=
  foldl (λ s '(accepted, spawned), accept_loop_next 4 accepted spawned s)
    (connect 7 AgentServer_start) (take n sample_loop).

Definition begun_machine : machine FakeBackend :=
  mk_machine (mk_agent race_st1 sample_backend (at_time 5) (<[0 := GIssued (race_lease 0)]> ∅)) ∅.

Definition sample_daemon : daemon :=
  mk_daemon (ShutdownHandle_store (loop_states 5)) begun_machine ({[0%N]} ∪ ∅).

Lemma sample_daemon_reachable :
  rtc (daemon_step sample_handler 4) (daemon_start sample_store sample_backend (at_time 5))
    sample_daemon.
Proof.
  eapply rtc_l; [by eapply (daemon_connect _ _ _ 7)|].
  eapply rtc_l; [apply daemon_loop, (loop_accept _ _ 7 []); done|].
  eapply rtc_l; [by apply daemon_loop, loop_other|].
  eapply rtc_l; [by apply daemon_loop, loop_other|].
  eapply rtc_l; [by apply daemon_loop, loop_other|].
  eapply rtc_l; [apply daemon_loop, (loop_spawn _ _ 7 (Some 0%N)); [done|by intros t [= <-]]|].
  eapply rtc_l; [apply (daemon_begin _ _ _ 0 begun_machine)|].
  - by exists 7%N.
  - apply not_elem_of_empty.
  - done.
  - apply machine_live; [|by intros i ?%not_elem_of_empty].
    by apply (step_begin _ _ _ _ _ _ 0 sample_lease_request sample_peer); [done|done|vm_compute].
  - cbn [ag_grants m_agent begun_machine]. by rewrite dom_insert_L.
  - apply rtc_once. exact (daemon_shutdown _ _ _).
Qed.

Lemma grants_within_connections_witness :
  reserved (ag_store (m_agent (d_machine sample_daemon))) = 1%N ∧
  (reserved (ag_store (m_agent (d_machine sample_daemon))) ≤ 4)%N.
Proof.
  split; [by vm_compute|].
  destruct (grants_within_connections sample_handler 4 sample_store sample_backend (at_time 5)
    sample_daemon sample_handler_ok eq_refl sample_daemon_reachable) as (_ & _ & Hle & _).
  exact Hle.
Defined.

Lemma shutdown_bounds_grants_witness :
  (issued sample_daemon ≤ issued sample_daemon + 4 + 1)%N.
Proof.
  apply (shutdown_bounds_grants sample_handler 4 sample_store sample_backend (at_time 5)
    sample_daemon sample_daemon sample_handler_ok eq_refl sample_daemon_reachable eq_refl
    (rtc_refl _ _)).
Defined.
