(* ===== verification/Runtime.v ===== *)
(** * The agent process

    Models [crates/eltanin-agent/src/runtime.rs] and [daemon.rs]: the agent's clock,
    the identity of one agent process, and its life from binding the socket to
    removing it. *)

From Stdlib Require Import Strings.Ascii.
From S2P Require Import Prelude Text Resource Identity Policy PolicySpec Lease.
From S2P Require Import Collect Linux Listener Server.

(** ** The clock *)

(** [AgentClock]: the instant it was made; [Instant::elapsed] does not go below
    zero. *)
Record AgentClock : Type := mk_AgentClock { base : Instant }.

Definition AgentClock_now (self : AgentClock) (now : Instant) : MonotonicTime :=
  mk_MonotonicTime (default u64_max (u64_try_from (saturating_sub now (base self)))).

(** ** The issuer's identity *)

Inductive InstanceIdError : Type :=
  | StartTokenUnavailable (reason : string).

Definition instance_text (p t : N) : string :=
  "agent-pid-" +:+ pretty p +:+ "-start-" +:+ pretty t.

Definition instance_of_identity (p : N) (i : WorkloadIdentity) :
    result IssuerInstanceId InstanceIdError :=
  match process_start i with
  | Present value _ => Ok (mk_IssuerInstanceId (instance_text p (token value)))
  | Missing reason => Err (StartTokenUnavailable reason)
  | EvUnsupported => Err (StartTokenUnavailable
      "process start token collection is unsupported on this platform")
  end.

(** [own_pid] is [std::process::id]. *)
Definition issuer_instance_id {W} `{PlatformIdentity W} (own_pid : N) :
    collect W (result IssuerInstanceId InstanceIdError) :=
  i ← platform_identity own_pid;
  mret (instance_of_identity own_pid i).

(** ** The daemon *)

(** [daemon::run]: [signals] is the registration of the handlers, [serve] what
    [AgentServer::run] reports.  Every way out drops the socket. *)
Definition daemon_run (config : AgentConfig) (signals : result () io_error)
    (serve : BoundSocket → ShutdownReport) : script (result ShutdownReport StartupError) :=
  and_then (BoundSocket_bind config) (λ socket,
    match signals with
    | Err e => _ ← BoundSocket_drop socket; mret (Err (StartupIo AtSignals e))
    | Ok _ =>
        let report := serve socket in
        _ ← BoundSocket_drop socket;
        mret (Ok report)
    end).

(** ** Lemmas *)

Lemma string_app_inj (a b c : string) : a +:+ b = a +:+ c → b = c.
Proof.
  induction a as [|x a IH]; [done|].
  change (String x (a +:+ b) = String x (a +:+ c) → b = c). intros [= ?]. auto.
Qed.

(** A text of digits ends where the next character is no digit. *)
Lemma digits_split (s t u v : string) (c : Ascii.ascii) :
  every is_digit s = true → every is_digit t = true → is_digit c = false →
  s +:+ String c u = t +:+ String c v → s = t ∧ u = v.
Proof.
  intros Hs Ht Hc. revert t Ht. induction s as [|x s IH]; intros [|y t] Ht; cbn [every] in *.
  - by intros [= ->].
  - change ("" +:+ String c u) with (String c u).
    change (String y t +:+ String c v) with (String y (t +:+ String c v)).
    intros [= -> _]. apply andb_true_iff in Ht as [Ht _]. congruence.
  - change ("" +:+ String c v) with (String c v).
    change (String x s +:+ String c u) with (String x (s +:+ String c u)).
    intros [= -> _]. apply andb_true_iff in Hs as [Hs _]. congruence.
  - change (String x s +:+ String c u) with (String x (s +:+ String c u)).
    change (String y t +:+ String c v) with (String y (t +:+ String c v)).
    intros [= -> He]. apply andb_true_iff in Hs as [_ Hs], Ht as [_ Ht].
    destruct (IH Hs t Ht He) as [-> ->]. done.
Qed.

Lemma instance_text_inj p t q u : instance_text p t = instance_text q u → p = q ∧ t = u.
Proof.
  unfold instance_text. intros He%string_app_inj.
  apply (digits_split _ _ _ _ "-"%char) in He as [Hp Ht];
    [|apply pretty_N_digits|apply pretty_N_digits|done].
  apply (inj pretty) in Hp as ->. apply (string_app_inj "start-") in Ht.
  by apply (inj pretty) in Ht as ->.
Qed.

Lemma instance_of_identity_Ok p i x :
  instance_of_identity p i = Ok x ↔
  ∃ t s, process_start i = Present t s ∧ x = mk_IssuerInstanceId (instance_text p (token t)).
Proof.
  unfold instance_of_identity. destruct (process_start i); split; naive_solver.
Qed.

(** Dropping a socket whose path is there removes it, and then closes. *)
Lemma run_drop euid σ b n :
  lookup_node σ (bound_path b) = Some n → kind n ≠ KDir →
  run_do euid (BoundSocket_drop b) σ =
    ((), with_listening (with_nodes σ (delete (bound_path b) (nodes σ)))
           (listening σ ∖ {[listener b]})).
Proof.
  intros Hn Hk. unfold BoundSocket_drop. rewrite run_do_bind. cbn. rewrite Hn.
  by rewrite decide_False.
Qed.

(** ** Properties *)

(** C21: no lease outlives the agent process that issued it.  An agent gets an
    identity only from a start time the platform reported for it; two agent processes
    that differ in pid or start time have different identities; so every lease the
    first issued is foreign to the second, which neither accepts nor revokes it nor
    issues its id again. *)
Theorem restart_needs_new_leases {W} `{PlatformIdentity W} (p q : N) (w v : W)
    (i j : IssuerInstanceId) (m m' : Duration) (ls ls' : list ComputeLease) (s s' : LeaseIssuer)
    (l : ComputeLease) (pr : ProvenanceRecord) (now : MonotonicTime)
    (Hi : (issuer_instance_id p w).1 = Ok i) (Hj : (issuer_instance_id q v).1 = Ok j)
    (Hother : p ≠ q ∨ Evidence_value (process_start (platform_identity p w).1) ≠
                      Evidence_value (process_start (platform_identity q v).1))
    (Hold : issuer_run (LeaseIssuer_new i m) ls s) (Hl : l ∈ ls)
    (Hnew : issuer_run (LeaseIssuer_new j m') ls' s') :
  LeaseIssuer_validate s' l pr now = ForeignIssuer i ∧
  LeaseIssuer_revoke s' (lease_id l) = (RevokeForeignIssuer, s') ∧
  lease_id l ∉ lease_id <$> ls'.
Proof.
  eapply restart_invalidates; [|done|done|done]. revert Hi Hj Hother.
  unfold issuer_instance_id, mbind, collect_bind.
  destruct (platform_identity p w) as [a wa], (platform_identity q v) as [b wb].
  cbn [fst mret collect_ret].
  intros (t & st & Ht & ->)%instance_of_identity_Ok (u & su & Hu & ->)%instance_of_identity_Ok.
  rewrite Ht, Hu. cbn [Evidence_value]. intros Hother Heq%(f_equal instance_str).
  cbn [instance_str] in Heq. symmetry in Heq. apply instance_text_inj in Heq as [-> Htu]. destruct t as [t], u as [u]. cbn in Htu. subst.
  by destruct Hother.
Qed.

(** The agent's clock never runs backwards, counts nanoseconds exactly until
    its 64 bits are full, and then stays at their maximum, where no lease is valid any
    more: a clock that runs out closes rather than wraps. *)
Theorem clock_fails_closed (self : AgentClock) (t1 t2 : Instant) (s : LeaseIssuer)
    (l : ComputeLease) (pr : ProvenanceRecord) (r : Duration)
    (Ht : (t1 ≤ t2)%N) (Hl : (as_nanos (expires_at l) ≤ u64_max)%N) :
  (as_nanos (AgentClock_now self t1) ≤ as_nanos (AgentClock_now self t2) ≤ u64_max)%N ∧
  ((base self ≤ t1)%N → (t2 ≤ base self + u64_max)%N →
   as_nanos (AgentClock_now self t2) = (as_nanos (AgentClock_now self t1) + (t2 - t1))%N) ∧
  ((base self + u64_max ≤ t2)%N →
   as_nanos (AgentClock_now self t2) = u64_max ∧
   LeaseIssuer_validate s l pr (AgentClock_now self t2) ≠ Valid r).
Proof.
  unfold AgentClock_now, u64_try_from, saturating_sub. cbn [as_nanos].
  split; [repeat case_decide; cbn; lia|]. split.
  - intros Hb H2. rewrite !decide_True by lia. cbn. lia.
  - intros H2. assert (default u64_max (if decide (t2 - base self ≤ u64_max)%N
      then Some (t2 - base self)%N else None) = u64_max) as -> by (case_decide; cbn; lia).
    split; [done|]. intros (_ & _ & _ & Hlt & _)%validate_Valid. cbn in Hlt. lia.
Qed.

(** An agent that comes up leaves nothing behind when it goes.  Alone and with
    nothing going wrong, [daemon::run] that reports a shutdown has removed its path and
    closed its listener and nobody else's; one that could not register its signals
    does the same. *)
Theorem daemon_cleans_up (euid : N) (σ : system) (c : AgentConfig) (signals : result () io_error)
    (serve : BoundSocket → ShutdownReport) (b : BoundSocket) (Hok : system_ok σ)
    (Hup : (run_do euid (BoundSocket_bind c) σ).1 = Ok b) :
  let '(r, σ') := run_do euid (daemon_run c signals serve) σ in
  r = match signals with
      | Ok _ => Ok (serve b)
      | Err e => Err (StartupIo AtSignals e)
      end ∧
  nodes σ' !! socket_path c = None ∧
  listening σ ⊆ listening σ' ∧ (listener b ∉ listening σ').
Proof.
  pose proof (run_do_runs euid (BoundSocket_bind c) σ) as Hrun. rewrite Hup in Hrun.
  destruct (run_do euid (BoundSocket_bind c) σ) as [r1 σ1] eqn:Hb. cbn in Hup, Hrun. subst r1.
  pose proof (wp_runs euid _ _ _ _ _ (startup_wp euid σ c Hok) Hrun)
    as (_ & _ & Hl & Hp & Hnin & Hn & _).
  pose proof (wp_runs euid _ _ _ _ _ (bind_not_empty_wp euid σ c Hok) Hrun b eq_refl) as Hne.
  unfold daemon_run. rewrite (run_do_and_then _ _ _ _ b _ Hb).
  pose proof (run_drop euid σ1 b _ (proj2 (lookup_node_Some _ _ _)
    (conj (eq_ind_r (λ p, p ≠ Path_empty) Hne Hp) (eq_ind_r (λ p, nodes σ1 !! p = _) Hn Hp)))
    ltac:(done)) as Hd.
  destruct signals as [u|e]; rewrite run_do_bind, Hd; cbn [run_do mret script_ret];
    (split; [done|]); cbn; rewrite Hp; (split; [apply lookup_delete_eq|set_solver]).
Qed.

(** ** Witnesses *)

(** A host whose only process is the agent: its first run, and its second. *)
Definition agent_host (p start : N) : Snapshot :=
  mk_Snapshot (<[proc_file p "stat" := stat_line p "eltanin-agentd" "S" 0 sample_mid start ["0"] "0"]> ∅)
    ∅ ∅.

#[local] Instance shown_plainly : StrDebug := { str_debug s := s }.

Lemma restart_needs_new_leases_witness :
  let new := LeaseIssuer_new (mk_IssuerInstanceId "agent-pid-1-start-9") 600 in
  LeaseIssuer_validate new sample_lease sample_origin (mk_MonotonicTime 6) =
    ForeignIssuer sample_instance ∧
  LeaseIssuer_revoke new (lease_id sample_lease) = (RevokeForeignIssuer, new) ∧
  lease_id sample_lease ∉ lease_id <$> [].
Proof.
  apply (restart_needs_new_leases 1 1 (agent_host 1 7) (agent_host 1 9) sample_instance
    (mk_IssuerInstanceId "agent-pid-1-start-9") 600 600 [sample_lease] [] sample_issuer_1).
  - by vm_compute.
  - by vm_compute.
  - right. by vm_compute.
  - exact sample_run.
  - by apply list_elem_of_singleton.
  - apply run_nil.
Defined.

Lemma clock_fails_closed_witness :
  as_nanos (AgentClock_now (mk_AgentClock 5) (5 + u64_max)) = u64_max ∧
  LeaseIssuer_validate sample_issuer sample_lease sample_origin
    (AgentClock_now (mk_AgentClock 5) (5 + u64_max)) ≠ Valid 300.
Proof.
  apply (clock_fails_closed (mk_AgentClock 5) 5 (5 + u64_max) sample_issuer sample_lease
    sample_origin 300); by vm_compute.
Defined.

Lemma daemon_cleans_up_witness :
  let report := mk_ShutdownReport 3 0 in
  let out := run_do 0 (daemon_run sample_config (Ok ()) (λ _, report)) sample_system in
  out.1 = Ok report ∧ nodes out.2 !! DEFAULT_SOCKET_PATH = None.
Proof.
  intros report out.
  pose proof (daemon_cleans_up 0 sample_system sample_config (Ok ()) (λ _, report)
    (mk_BoundSocket 1 DEFAULT_SOCKET_PATH) system_ok_sample ltac:(by vm_compute)) as Hd.
  unfold out. destruct (run_do 0 (daemon_run _ _ _) sample_system) as [r σ'].
  destruct Hd as (-> & Hn & _). by split.
Defined.
