(* ===== verification/Agentd.v ===== *)
(** * The agent, assembled

    Models [crates/eltanin-agent/src/bin/eltanin-agentd.rs]: the daemon's
    configuration from its environment, the backend it seeds from the policy, and its
    exit status; and puts the parts of the agent together, from the kernel's report of
    a peer to the lease the handler stores. *)

From Stdlib Require Import Strings.Ascii.
From S2P Require Import Prelude Text Resource Identity Policy PolicySpec Lease.
From S2P Require Import Peer Backend Protocol LeaseStore Authz AuthzSpec.
From S2P Require Import Connection Collect Linux Listener Server Runtime.
Import Fake.

(** ** Configuration *)

(** The value of an environment variable; one that is not Unicode has a lossy text. *)
Inductive env_value : Type :=
  | EnvText (s : string)
  | EnvNotUnicode (lossy : string).

Definition environment : Type := string → option env_value.

(** [env::var]: unset and not Unicode are both errors. *)
Definition env_var (env : environment) (name : string) : option string :=
  match env name with
  | Some (EnvText s) => Some s
  | _ => None
  end.

(** What goes wrong, with the data of its message. *)
Inductive AgentdError : Type :=
  | MissingVar (name : string)
  | BadMode (text : string) (e : ParseIntError)
  | BadPolicy (path : string) (e : PolicyLoadError)
  | BadTtl (text : string) (e : ParseIntError)
  | InvalidTtl (e : ConfigError)
  | NoInstance (e : InstanceIdError)
  | AuditNotUnicode (lossy : string)
  | AuditUnopened (e : string)
  | StartupFailed (e : StartupError).

Definition required_var (env : environment) (name : string) : result string AgentdError :=
  ok_or (env_var env name) (MissingVar name).

(** The resource as the fake backend gets it: what a device needs to be enforced on. *)
Definition seeded_resource (i : ResourceIdentity) : ProtectedResource :=
  mk_ProtectedResource i (ResourceCapabilities_new [DeviceEnforce; DeviceRevoke]) NotReportable.

Definition seed_backend (p : PolicySet) : FakeBackend :=
  foldl (λ b i, FakeBackend_insert b (seeded_resource i)) FakeBackend_new (PolicySet_resources p).

Record AgentSetup : Type := mk_AgentSetup {
  setup_config : AgentConfig;
  setup_authz : AuthorizationConfig;
  setup_policy : PolicySet;
  setup_instance : IssuerInstanceId;
  setup_audit_log : option string;
  setup_backend : FakeBackend
}.

Section agentd.
Variable env : environment.
Variable load : string → result PolicySet PolicyLoadError.
Variable own_instance : result IssuerInstanceId InstanceIdError.
Variable open_audit : string → result () string.

(** [run] up to the handler. *)
Definition agentd_setup : result AgentSetup AgentdError :=
  let path :=
    match env_var env "ELTANIN_AGENT_SOCKET" with
    | Some s => Path_of_text s
    | None => DEFAULT_SOCKET_PATH
    end in
  let? mode_str := required_var env "ELTANIN_AGENT_SOCKET_MODE" in
  let? m := map_err (BadMode mode_str)
    (parse_radix 8 u32_max (trim_start_pair "0"%char "o"%char mode_str)) in
  let? policy_path := required_var env "ELTANIN_AGENT_POLICY" in
  let? p := map_err (BadPolicy policy_path) (load policy_path) in
  let? ttl_str := required_var env "ELTANIN_AGENT_LEASE_TTL_SECS" in
  let? ttl_secs := map_err (BadTtl ttl_str) (parse_uint u64_max ttl_str) in
  let? authz_config := map_err InvalidTtl
    (AuthorizationConfig_new (Duration_from_secs ttl_secs)) in
  let? i := map_err NoInstance own_instance in
  let? audit :=
    match env "ELTANIN_AUDIT_LOG" with
    | None => Ok None
    | Some (EnvNotUnicode lossy) => Err (AuditNotUnicode lossy)
    | Some (EnvText log) => let? _ := map_err AuditUnopened (open_audit log) in Ok (Some log)
    end in
  Ok (mk_AgentSetup (AgentConfig_new path m) authz_config p i audit (seed_backend p)).

Definition setup_handler (s : AgentSetup) : AuthorizationHandler * LeaseState :=
  AuthorizationHandler_new (setup_instance s) (setup_policy s) (setup_authz s).

(** [run]: the daemon serves with the handler it was set up with. *)
Definition agentd_run (signals : result () io_error)
    (serve : AuthorizationHandler * LeaseState → FakeBackend → BoundSocket → ShutdownReport) :
    script (result ShutdownReport AgentdError) :=
  match agentd_setup with
  | Err e => mret (Err e)
  | Ok s =>
      r ← daemon_run (setup_config s) signals (serve (setup_handler s) (setup_backend s));
      mret (map_err StartupFailed r)
  end.

(** [main]: [ExitCode::SUCCESS] or [ExitCode::FAILURE]. *)
Definition agentd_exit (r : result ShutdownReport AgentdError) : N :=
  match r with
  | Ok _ => 0
  | Err _ => 1
  end.

End agentd.

(** ** Lemmas *)

Lemma seed_backend_from b ids i :
  resources (foldl (λ b i, FakeBackend_insert b (seeded_resource i)) b ids) !! i =
    if decide (i ∈ ids) then Some (seeded_resource i) else resources b !! i.
Proof.
  revert b. induction ids as [|j ids IH]; intros b; cbn [foldl]; [done|].
  rewrite IH. cbn. destruct (decide (i ∈ ids)) as [Hin|Hin].
  - by rewrite decide_True by (by right).
  - destruct (decide (i = j)) as [->|Hne].
    + rewrite decide_True by by left. by rewrite lookup_insert_eq.
    + rewrite decide_False by (intros [?|?]%elem_of_cons; done). by rewrite lookup_insert_ne.
Qed.

Lemma seed_backend_scripts b ids :
  scripted_enforcement (foldl (λ b i, FakeBackend_insert b (seeded_resource i)) b ids) =
    scripted_enforcement b.
Proof. revert b. induction ids as [|i ids IH]; intros b; cbn [foldl]; [done|]. by rewrite IH. Qed.

Lemma permitted_names_resource p c q : permitted p c q → resource q ∈ PolicySet_resources p.
Proof.
  intros [(r & Hr & _ & [[Hres _] _]) _]. unfold PolicySet_resources.
  apply (resources_loop_spec (rules (document p)) ∅ []); [set_solver|constructor|].
  right. rewrite <-Hres. by apply list_elem_of_fmap_2.
Qed.

Lemma seeded_enforce p q b :
  resources b = resources (seed_backend p) →
  scripted_enforcement b = scripted_enforcement (seed_backend p) →
  resource q ∈ PolicySet_resources p → FakeBackend_enforce b q = Ok Allowed.
Proof.
  intros Hr Hs Hin. unfold FakeBackend_enforce, FakeBackend_observe.
  unfold seed_backend in *. rewrite Hr, Hs, seed_backend_from, seed_backend_scripts.
  rewrite decide_True by done. done.
Qed.

(** The setup succeeds when every choice was made and is sound. *)
Lemma agentd_setup_Ok env load own open s :
  agentd_setup env load own open = Ok s →
  ∃ mode_str policy_path ttl_str ttl m i,
    env_var env "ELTANIN_AGENT_SOCKET_MODE" = Some mode_str ∧
    parse_radix 8 u32_max (trim_start_pair "0"%char "o"%char mode_str) = Ok m ∧
    env_var env "ELTANIN_AGENT_POLICY" = Some policy_path ∧
    load policy_path = Ok (setup_policy s) ∧
    env_var env "ELTANIN_AGENT_LEASE_TTL_SECS" = Some ttl_str ∧
    parse_uint u64_max ttl_str = Ok ttl ∧
    AuthorizationConfig_new (Duration_from_secs ttl) = Ok (setup_authz s) ∧
    own = Ok i ∧ setup_instance s = i ∧ socket_mode (setup_config s) = m ∧
    setup_backend s = seed_backend (setup_policy s) ∧
    setup_audit_log s = env_var env "ELTANIN_AUDIT_LOG" ∧
    match env "ELTANIN_AUDIT_LOG" with
    | None => True
    | Some (EnvText log) => open log = Ok ()
    | Some (EnvNotUnicode _) => False
    end.
Proof.
  unfold agentd_setup, required_var. set (path := match env_var _ _ with Some _ => _ | _ => _ end).
  destruct (env_var env "ELTANIN_AGENT_SOCKET_MODE") as [ms|]; [|done]. cbn [ok_or result_bind].
  destruct (parse_radix 8 u32_max _) as [m|e] eqn:Hm; [|done]. cbn [map_err result_bind].
  destruct (env_var env "ELTANIN_AGENT_POLICY") as [pp|]; [|done]. cbn [ok_or result_bind].
  destruct (load pp) as [p|e] eqn:Hp; [|done]. cbn [map_err result_bind].
  destruct (env_var env "ELTANIN_AGENT_LEASE_TTL_SECS") as [ts|]; [|done].
  cbn [ok_or result_bind].
  destruct (parse_uint u64_max ts) as [t|e] eqn:Ht; [|done]. cbn [map_err result_bind].
  destruct (AuthorizationConfig_new _) as [a|e] eqn:Ha; [|done]. cbn [map_err result_bind].
  destruct own as [i|e] eqn:Hi; [|done]. cbn [map_err result_bind].
  unfold env_var. destruct (env "ELTANIN_AUDIT_LOG") as [[log|lossy]|] eqn:Hl.
  - destruct (open log) as [[]|e] eqn:Ho; [|done]. cbn. intros [= <-].
    exists ms, pp, ts, t, m, i. cbn. by split_and!.
  - done.
  - cbn. intros [= <-]. exists ms, pp, ts, t, m, i. cbn. by split_and!.
Qed.

(** ** Properties *)

(** A configured agent starts sound.  Whenever the environment gives a setup,
    the handler starts in the invariant on which every property of the handler rests,
    with a lifetime of at least a second, an identity of its own and room for leases;
    and the backend it starts with, and any it becomes by serving, enforces whatever
    the policy permits, so that no permitted request is refused by the backend. *)
Theorem configured_agent_sound (env : environment) (load : string → result PolicySet PolicyLoadError)
    (own : result IssuerInstanceId InstanceIdError) (open_audit : string → result () string)
    (s : AgentSetup) (Hs : agentd_setup env load own open_audit = Ok s) :
  let '(h, st) := setup_handler s in
  handler_ok h st ∧ headroom st ∧ (nanos_per_sec ≤ lease_ttl h)%N ∧ reserved st = 0%N ∧
  handler_policy h = setup_policy s ∧ own = Ok (instance (store_issuer st)) ∧
  (socket_mode (setup_config s) ≤ u32_max)%N ∧
  ∀ b c q, resources b = resources (setup_backend s) →
    scripted_enforcement b = scripted_enforcement (setup_backend s) →
    permitted (handler_policy h) c q → enforce b q = (Ok Allowed, b).
Proof.
  apply agentd_setup_Ok in Hs as (ms & pp & ts & ttl & m & i & _ & Hm & _ & _ & _ & _ & Ha & Hown
    & Hi & Hmode & Hback & _).
  assert (cfg_max_outstanding_leases (setup_authz s) ≤ u64_max)%N as Hmax.
  { revert Ha. unfold AuthorizationConfig_new. case_match; [done|]. by intros [= <-]. }
  pose proof (handler_ok_new (setup_instance s) (setup_policy s) _ _ Ha Hmax) as Hok.
  unfold setup_handler. cbn in Hok |- *. split; [exact Hok|]. split_and!; try done.
  - revert Ha. unfold AuthorizationConfig_new, Duration_is_zero. case_bool_decide as Hz; [done|].
    intros [= <-]. cbn. unfold Duration_from_secs in *. assert (ttl ≠ 0)%N by (intros ->; done). nia.
  - by rewrite Hown, Hi.
  - rewrite Hmode. by apply parse_radix_bound in Hm.
  - intros b c q Hr Hsc Hp. rewrite Hback in *.
    by rewrite (seeded_enforce (setup_policy s) q b Hr Hsc) by by eapply permitted_names_resource.
Qed.

(** The daemon fails closed.  It serves only when the socket mode, the policy
    and the lease lifetime are all set and sound, its own start time is known, and an
    audit log that is asked for can be opened; in every other case it exits with a
    failure before it touches the file system. *)
Theorem agentd_fails_closed (env : environment) (load : string → result PolicySet PolicyLoadError)
    (own : result IssuerInstanceId InstanceIdError) (open_audit : string → result () string)
    (signals : result () io_error)
    (serve : AuthorizationHandler * LeaseState → FakeBackend → BoundSocket → ShutdownReport)
    (euid : N) (σ : system) :
  ((∃ s, agentd_setup env load own open_audit = Ok s) ↔
   (∃ mode_str m, env_var env "ELTANIN_AGENT_SOCKET_MODE" = Some mode_str ∧
      parse_radix 8 u32_max (trim_start_pair "0"%char "o"%char mode_str) = Ok m) ∧
   (∃ path p, env_var env "ELTANIN_AGENT_POLICY" = Some path ∧ load path = Ok p) ∧
   (∃ ttl_str ttl, env_var env "ELTANIN_AGENT_LEASE_TTL_SECS" = Some ttl_str ∧
      parse_uint u64_max ttl_str = Ok ttl ∧ ttl ≠ 0%N) ∧
   (∃ i, own = Ok i) ∧
   match env "ELTANIN_AUDIT_LOG" with
   | None => True
   | Some (EnvText log) => open_audit log = Ok ()
   | Some (EnvNotUnicode _) => False
   end) ∧
  match agentd_setup env load own open_audit with
  | Err e => run_do euid (agentd_run env load own open_audit signals serve) σ = (Err e, σ) ∧
      agentd_exit (Err e) = 1%N
  | Ok _ => True
  end.
Proof.
  assert (∀ ttl, (∃ a, AuthorizationConfig_new (Duration_from_secs ttl) = Ok a) ↔ ttl ≠ 0%N) as Httl.
  { intros ttl. unfold AuthorizationConfig_new, Duration_is_zero, Duration_from_secs.
    case_bool_decide as Hz; split; [by intros [??]|unfold nanos_per_sec in *; lia| |by eauto].
    intros _ ->. done. }
  split.
  - split.
    + intros [s (ms & pp & ts & ttl & m & i & ? & ? & ? & ? & ? & ? & ? & ? & _ & _ & _ & _ & ?)%agentd_setup_Ok].
      split_and!; eauto. exists ts, ttl. split_and!; [done..|]. apply Httl. eauto.
    + intros ((ms & m & Hms & Hm) & (pp & p & Hpp & Hp) & (ts & ttl & Hts & Ht & Hne) & (i & Hi) & Hl).
      apply Httl in Hne as [a Ha]. unfold agentd_setup, required_var.
      rewrite Hms. cbn [ok_or result_bind]. rewrite Hm. cbn [map_err result_bind].
      rewrite Hpp. cbn [ok_or result_bind]. rewrite Hp. cbn [map_err result_bind].
      rewrite Hts. cbn [ok_or result_bind]. rewrite Ht. cbn [map_err result_bind].
      rewrite Ha, Hi. cbn [map_err result_bind].
      destruct (env "ELTANIN_AUDIT_LOG") as [[log|lossy]|]; [|done|by eauto].
      rewrite Hl. cbn. eauto.
  - unfold agentd_run. by destruct (agentd_setup _ _ _ _).
Qed.

(** ** From the kernel to the lease *)

(** A condition met by what the kernel reported. *)
Definition condition_kernel (cond : Condition) (c : ExecutionContext) : Prop :=
  match cond with
  | Uid m => uid (workload c) = Present (em_expected m) KernelObserved
  | Gid m => gid (workload c) = Present (em_expected m) KernelObserved
  | ExecutablePath m => executable_path (workload c) = Present (em_expected m) KernelObserved
  | ExecutableHash m => executable_hash (workload c) = Present (em_expected m) KernelObserved
  | CgroupPath m => cgroup_path c = Present (em_expected m) KernelObserved
  end.

Lemma condition_trusted_kernel cond c :
  context_kernel_only c → condition_trusted cond c → condition_kernel cond c.
Proof.
  assert (∀ T (e : Evidence T) v, kernel_only e → trusted e v → e = Present v KernelObserved) as Ht.
  { intros T e v He (s & -> & _). cbn in He. by subst. }
  intros [Hw Hcg _ _ _]. destruct Hw as [_ Hu Hg Hp Hh _].
  destruct cond; cbn; intros Hc; by apply Ht.
Qed.

Lemma serve_called {S} `{WireCodec} `{RequestHandler S} s ts derived h rq p :
  called (serve_connection s ts derived h) = Some (rq, p) →
  derived = Ok p ∧ handler_state (serve_connection s ts derived h) = (handler_handle h rq p).2.
Proof.
  unfold serve_connection. destruct ts; [|done]. cbn [negb].
  destruct derived as [p0|e]; [|done]. destruct (read_frame s) as [[| | |body] s']; try done.
  destruct (decode_request body) as [r|[[]| |]]; try done.
  destruct (handler_handle h _ p0) as [a h'] eqn:Hh. cbn. intros [= <- <-].
  split; [done|]. by rewrite Hh.
Qed.

Section end_to_end.
Context {W : Type} `{KernelPeerSource W} `{WireCodec}.
Context {B K : Type} `{ComputeBackend B} `{EventSink K}.

(** A call that is answered with a grant: the stored lease is bound to the context
    collected for the process the kernel named, every piece of evidence in it was observed
    by the kernel, and some allow rule of the policy had each of its conditions met by such
    evidence.  For every platform source with the collectors' laws, every backend and every
    sink. *)
Lemma called_grant_kernel (fd : N) (w : W) (s : stream) (timeouts_set : bool)
    (aw : agent_world B K) (q : LeaseRequest) (p : PeerContext) (v : LeaseView)
    (Hok : handler_ok (aw_handler aw) (aw_store aw)) (Hroom : headroom (aw_store aw))
    (Hcalled : called (serve_connection s timeouts_set (derive fd w).1 aw) =
                 Some (RequestLease q, p))
    (Hgrant : (handler_handle aw (RequestLease q) p).1 = Some (LeaseGranted v)) :
  (derive fd w).1 = Ok p ∧
  ∃ c l r,
    leases (aw_store (handler_state (serve_connection s timeouts_set (derive fd w).1 aw)))
      !! view_lease_id v = Some l ∧
    origin l = provenance_for q c ∧ PeerContext_authorizable p = Some c ∧
    pid (workload c) = cred_pid (credential p) ∧ cred_pid (credential p) ≠ 0%N ∧
    context_kernel_only c ∧
    r ∈ rules (document (handler_policy (aw_handler aw))) ∧ rule_effect r = Allow ∧
    relevant r (request (origin l)) ∧
    Forall (λ cond, condition_kernel cond c) (conditions r).
Proof.
  destruct (serve_called _ _ _ _ _ _ Hcalled) as [Hd ->]. split; [done|].
  pose proof (derive_kernel fd w p Hd) as [_ Hpid Hev Hun].
  revert Hgrant. unfold handler_handle, AuthorizationHandler_handler, handle, dispatch.
  set (now := aw_clock aw _). set (later := aw_clock aw (_ + 1)%N).
  pose proof (request_spec (aw_handler aw) (aw_store aw) (aw_backend aw) q p now later Hok Hroom)
    as Hs.
  destruct (handle_request_lease _ _ _ q p now later) as [[[out resp] st'] b'].
  destruct Hs as [_ [(_ & _ & -> & _)|(c & Hauth & Hs)]]; [done|]. cbn. intros [= ->].
  cbn in Hs. destruct Hs as [(_ & _ & ? & _)|(_ & [(_ & _ & ? & _)|(He & Hs)])]; [done..|].
  destruct Hs as [(_ & _ & ? & _)|(_ & st1 & l & Hpost & _ & Hf)]; [done|].
  destruct Hpost as (_ & _ & Horig & _ & [Hp _] & _).
  destruct Hf as (_ & _ & _ & [(_ & _ & _ & [= ->] & Hl & _)|(_ & ? & _)]); [|done].
  destruct Hp as [(r & Hr & Heff & Hrel & Hconds) _]. rewrite Horig in Hrel, Hconds.
  pose proof Hauth as [Hcons Hobs]%authorizable_Some. subst c.
  exists (observed p), l, r. cbn. rewrite Hl, lookup_insert_eq, Horig.
  split_and!; try done; [|].
  - intros Hz. rewrite (Hun Hz) in Hcons. done.
  - eapply Forall_impl; [exact Hconds|]. intros cond Hm.
    apply condition_trusted_kernel; [done|]. by apply Condition_Matched_trusted.
Qed.

End end_to_end.

(** ** Witnesses *)

Definition sample_env : environment := λ name,
  if decide (name = "ELTANIN_AGENT_SOCKET_MODE") then Some (EnvText "0o660")
  else if decide (name = "ELTANIN_AGENT_POLICY") then Some (EnvText "/etc/eltanin/policy.json")
  else if decide (name = "ELTANIN_AGENT_LEASE_TTL_SECS") then Some (EnvText "300")
  else None.

Definition sample_setup : AgentSetup :=
  mk_AgentSetup (AgentConfig_new DEFAULT_SOCKET_PATH MODE_OWNER_GROUP)
    (mk_AuthorizationConfig (Duration_from_secs 300) DEFAULT_MAX_OUTSTANDING_LEASES)
    sample_policy sample_instance None (seed_backend sample_policy).

Lemma configured_agent_sound_witness :
  enforce (setup_backend sample_setup) sample_request = (Ok Allowed, setup_backend sample_setup).
Proof.
  destruct (configured_agent_sound sample_env (λ _, Ok sample_policy) (Ok sample_instance)
    (λ _, Ok ()) sample_setup ltac:(by vm_compute)) as (_ & _ & _ & _ & _ & _ & _ & He).
  apply (He _ sample_context); [done|done|]. apply evaluate_effect_Allow. by vm_compute.
Defined.

(** A host with one client process, whose effective user id is its second one. *)
Definition client_status : string :=
  fields_text "010"%char
    ["Name:" +:+ String "009"%char "job";
     "Uid:" +:+ String "009"%char ("1000" +:+ String "009"%char "1001");
     "Gid:" +:+ String "009"%char ("1000" +:+ String "009"%char "1000")] "".

Definition client_host : Snapshot :=
  mk_Snapshot
    (<[proc_file 42 "stat" := stat_line 42 "job" "S" 0 sample_mid 123456 ["0"] "0"]>
      (<[proc_file 42 "status" := client_status]> ∅))
    (<[proc_file 42 "exe" := "/usr/bin/tool"]> ∅)
    (<[3%N := mk_UCred 42 1001 1000]> ∅).

#[local] Instance debug_plainly : StrDebug := { str_debug s := s }.

Definition client_peer : PeerContext :=
  match (collect_peer_context 3 client_host).1 with
  | Ok p => p
  | Err _ => PeerContext_peer_unmapped (mk_PeerCredential 0 0 0) sample_context
  end.
