(* ===== verification/Accounts.v ===== *)
(** * What a client read, and what is behind it

    The handler of [crates/eltanin-agent/src/authz/mod.rs] behind [connection.rs], set up
    as [crates/eltanin-agent/src/bin/eltanin-agentd.rs] does, the connections served one
    after another, their peers derived by a collector: what a grant that a client reads
    rests on; and, the events going to the audit log of [crates/eltanin-audit], what
    [eltanin-explain] says afterwards about each answer a client read. *)

From Stdlib Require Import Strings.Byte.
From S2P Require Import Prelude Text Json JsonText Resource Identity Policy PolicySpec Lease.
From S2P Require Import Peer Backend Protocol Schema LeaseStore Authz AuthzSpec.
From S2P Require Import AuditRecord Fits AuditLog Explain Connection Wire Records.
From S2P Require Import Collect Linux Widths Runtime Agentd.

Import Fake.

(** ** One connection after another *)

Section sequence.
Context {S : Type} `{WireCodec} `{RequestHandler S}.

(** A connection as the agent meets it: what it delivers, whether the timeouts could be
    set, and what the kernel said of its peer. *)
Record connection : Type := mk_connection {
  conn_stream : stream;
  conn_timeouts : bool;
  conn_peer : result PeerContext PeerCredentialError
}.

Fixpoint serve_all (w : S) (cs : list connection) : list (served S) * S :=
  match cs with
  | [] => ([], w)
  | c :: cs =>
      let sv := serve_connection (conn_stream c) (conn_timeouts c) (conn_peer c) w in
      let '(svs, w) := serve_all (handler_state sv) cs in
      (sv :: svs, w)
  end.

(** The calls that were made, each with what was sent for it. *)
Definition calls_of (svs : list (served S)) :
    list (option (list byte) * (ClientRequest * PeerContext)) :=
  omap (λ sv, pair (sent sv) <$> called sv) svs.

End sequence.

(** ** What a client reads *)

Section replies.
Context `{SerdeJson} (Hlaws : SerdeJsonLaws).
#[local] Existing Instance serde_codec.

Definition reads (g : list byte) (r : Response) : Prop :=
  ∃ body, split_frame g = Some body ∧ decode_response body = Ok r.

Lemma reads_functional g r r' : reads g r → reads g r' → r = r'.
Proof. intros (body & Hs & Hd) (body' & Hs' & Hd'). congruence. Qed.

Lemma encoded_reads r g :
  Response_in_range r → version r = DOMAIN_SCHEMA_VERSION → encode_response r = Ok g → reads g r.
Proof.
  intros Hr Hv Hg. exists (response_to_json r). split; [by apply split_frame_encode|].
  apply encode_frame_Ok in Hg as [Hmax _]. unfold decode_response, peek_version.
  rewrite decide_False by lia.
  rewrite (json_response_version (WireCodecLaws := serde_codec_laws Hlaws)) by done. cbn [ok_or result_bind].
  rewrite decide_False by (intros Hne; by apply Hne).
  by rewrite (json_response_roundtrip (WireCodecLaws := serde_codec_laws Hlaws)).
Qed.

(** The answer, or the error in its place when it is too long for a frame. *)
Lemma sent_reads oi a g :
  from_option (λ i, request_id_num i ≤ u64_max)%N True oi → AgentResponse_in_range a →
  send oi a = Some g →
  ∃ answer, reads g (Versioned_current (mk_ResponseBody oi answer)) ∧
    (answer = a ∨ answer = ErrorResponse CodeInternal).
Proof.
  intros Hi Ha. unfold send. case_match eqn:Hf; [|case_match eqn:Hf'; [|done]]; intros [= ->].
  - exists a. split; [by apply encoded_reads|by left].
  - exists (ErrorResponse CodeInternal). split; [by apply encoded_reads|by right].
Qed.

(** What a frame says of its id and of its version fits their widths. *)
Lemma one_field_read {A} (de : Json → option A) n j a : one_field de n j = Some a → ∃ j', de j' = Some a.
Proof.
  unfold one_field. intros ([|o []] & _ & Ha)%bind_Some; try done.
  apply bind_Some in Ha as (j' & _ & Ha). by exists j'.
Qed.

Lemma peeked_id_in_range body :
  from_option (λ i, request_id_num i ≤ u64_max)%N True (peek_request_id body).
Proof.
  unfold peek_request_id. cbn [json_header_peek serde_codec].
  destruct (from_slice HeaderPeek_de body) as [i|] eqn:Hi; [|done]. cbn.
  apply from_slice_Some in Hi as [j Hi]. apply one_field_read in Hi as [j1 Hi].
  apply one_field_read in Hi as [j2 Hi]. by apply (RequestId_Some Hlaws) in Hi as [_ ?].
Qed.

Lemma found_version_in_range body v :
  decode_request body = Err (VersionError v) → (found v ≤ u16_max)%N ∧ (expected v ≤ u16_max)%N.
Proof.
  unfold decode_request. case_decide; [done|]. unfold peek_version. cbn [json_version_peek serde_codec].
  destruct (from_slice VersionPeek_de body) as [n|] eqn:Hn; [|done]. cbn [ok_or result_bind].
  case_decide; [|by destruct (json_to_request body)]. intros [= <-]. split; [|done]. cbn.
  apply from_slice_Some in Hn as [j Hn]. apply one_field_read in Hn as [j1 Hn].
  by apply (visit_uint_Some Hlaws) in Hn as [_ ?].
Qed.

(** An error is read as an error. *)
Lemma failed_reads oi code g r :
  from_option (λ i, request_id_num i ≤ u64_max)%N True oi →
  AgentResponse_in_range (ErrorResponse code) → fail oi code = Some g → reads g r →
  ∃ code', resp_body (payload r) = ErrorResponse code'.
Proof.
  intros Hi Hc Hg Hr. destruct (sent_reads oi _ g Hi Hc Hg) as (answer & Hr' & Ha).
  rewrite (reads_functional g r _ Hr Hr'). cbn. destruct Ha as [-> | ->]; by eexists.
Qed.

(** A grant that was read was the answer to a call. *)
Lemma grant_read_called {S : Type} `{RequestHandler S} (s : stream) (ts : bool)
    (derived : result PeerContext PeerCredentialError) (h : S) g r v :
  (∀ rq p a h', handler_handle h rq p = (Some a, h') → AgentResponse_in_range a) →
  sent (serve_connection s ts derived h) = Some g → reads g r →
  resp_body (payload r) = LeaseGranted v →
  ∃ rq p, called (serve_connection s ts derived h) = Some (rq, p) ∧
    (handler_handle h rq p).1 = Some (LeaseGranted v).
Proof.
  intros Hfit Hsent Hr Hv. assert (∀ oi code, from_option (λ i, request_id_num i ≤ u64_max)%N True oi →
    AgentResponse_in_range (ErrorResponse code) → fail oi code ≠ Some g) as Hfail.
  { intros oi code Hi Hc Hg. destruct (failed_reads oi code g r Hi Hc Hg Hr). congruence. }
  revert Hsent. unfold serve_connection. destruct ts; [|done]. cbn [negb].
  destruct derived as [p|e]; [|by intros ?%Hfail].
  destruct (read_frame s) as [[| | |body] s']; [done|by intros ?%Hfail..|].
  destruct (decode_request body) as [rq|[[]| |w]] eqn:Hd.
  2, 3: by intros ?%Hfail; [|apply peeked_id_in_range|].
  2: { intros ?%Hfail; [done|apply peeked_id_in_range|]. by apply found_version_in_range in Hd. }
  apply (Request_read Hlaws) in Hd as [Hi _].
  destruct (handler_handle h _ p) as [a h'] eqn:Hh. cbn. intros Hg. exists (req_body (payload rq)), p.
  split; [done|]. rewrite Hh. cbn.
  assert (AgentResponse_in_range (default (ErrorResponse CodeInternal) a)) as Ha.
  { destruct a as [a|]; [by eapply Hfit|done]. }
  destruct (sent_reads (Some _) _ _ Hi Ha Hg) as (answer & Hr' & Hans).
  rewrite (reads_functional g r _ Hr Hr') in Hv. cbn in Hv. subst answer.
  destruct Hans as [Hans|]; [|done]. destruct a as [a|]; cbn in Hans; congruence.
Qed.

End replies.

(** ** The handler behind its connections *)

Section worlds.
Context {B K : Type} `{ComputeBackend B} `{EventSink K}.

Definition world_ok (w : agent_world B K) (n : nat) : Prop :=
  handler_ok (aw_handler w) (aw_store w) ∧ handler_fits (aw_handler w) (aw_store w) ∧
  (next_sequence (store_issuer (aw_store w)) + N.of_nat n ≤ u64_max)%N.

Lemma world_ok_headroom w n : world_ok w (S n) → headroom (aw_store w).
Proof. intros (_ & _ & Hn). unfold headroom. lia. Qed.

Lemma world_ok_less w n : world_ok w (S n) → world_ok w n.
Proof. intros (? & ? & ?). split; [done|]. split; [done|]. lia. Qed.

(** One call: its event, what is answered, and the world after it. *)
Lemma handler_call (w : agent_world B K) n rq p :
  world_ok w (S n) →
  ∃ op out resp w', handler_handle w rq p = (Some resp, w') ∧ answer_fits out resp ∧
    aw_sink w' = record (aw_sink w) (mk_AuthorizationEvent op rq p out resp) ∧
    aw_handler w' = aw_handler w ∧ world_ok w' n.
Proof.
  intros Hw. pose proof (world_ok_headroom w n Hw) as Hroom. destruct Hw as (Hok & Hfit & Hn).
  cbn [handler_handle AuthorizationHandler_handler].
  set (now := aw_clock w (aw_reads w)). set (later := aw_clock w (aw_reads w + 1)%N).
  pose proof (dispatch_fits (aw_handler w) (aw_store w) (aw_backend w) rq p now later Hok Hroom Hfit)
    as Hcall.
  pose proof (dispatch_ok (aw_handler w) (aw_store w) (aw_backend w) rq p now later Hok Hroom) as Hok'.
  unfold handle. destruct (dispatch _ _ _ rq p now later) as [[[op [out resp]] st'] b'].
  destruct Hcall as (Ha & Hfit' & Hseq). exists op, out, resp. eexists. split; [reflexivity|].
  split; [done|]. split; [done|]. split; [done|]. split; [done|]. split; [done|]. cbn. lia.
Qed.

(** The [k]-th connection was served by the same handler, in some sound state. *)
Lemma serve_all_nth `{WireCodec} (cs : list connection) : ∀ (w : agent_world B K) k c sv,
  world_ok w (length cs) → cs !! k = Some c → (serve_all w cs).1 !! k = Some sv →
  ∃ w' n, sv = serve_connection (conn_stream c) (conn_timeouts c) (conn_peer c) w' ∧
    world_ok w' (S n) ∧ aw_handler w' = aw_handler w.
Proof.
  induction cs as [|c0 cs IH]; intros w k c sv Hw Hc Hs; [done|]. cbn [serve_all length] in *.
  set (sv0 := serve_connection _ _ _ w) in *.
  destruct (serve_all (handler_state sv0) cs) as [svs w2] eqn:Hall.
  destruct k as [|k]; [injection Hc as ->; injection Hs as <-; by exists w, (length cs)|].
  assert (world_ok (handler_state sv0) (length cs) ∧ aw_handler (handler_state sv0) = aw_handler w)
    as [Hw' Hh].
  { assert (handler_state sv0 = w ∨ ∃ rq p, handler_state sv0 = (handler_handle w rq p).2)
      as [->|(rq & p & ->)].
    - unfold sv0, serve_connection. destruct (conn_timeouts c0); [|by left]. cbn [negb].
      destruct (conn_peer c0) as [p|]; [|by left].
      destruct (read_frame _) as [[| | |body] s']; try by left.
      destruct (decode_request body) as [rq|[[]| |]]; try by left.
      right. exists (req_body (payload rq)), p. by destruct (handler_handle w _ p).
    - split; [by apply world_ok_less|done].
    - destruct (handler_call w (length cs) rq p Hw) as (op & out & resp & w' & -> & _ & _ & Hh & Hw').
      by split. }
  rewrite <-Hh. specialize (IH (handler_state sv0) k c sv Hw' Hc). rewrite Hall in IH. by apply IH.
Qed.

End worlds.

(** ** What a grant rests on *)

Section grants.
Context `{SerdeJson} (Hlaws : SerdeJsonLaws).
#[local] Existing Instance serde_codec.

(** C4: what a grant that a client reads rests on, from its socket to the policy file.
    The agent is set up from its environment and serves any connections with whatever
    sink and clock, their peers derived from their sockets by a collector.  When the
    bytes sent on a connection read as a lease granted, the agent made a call on that
    connection for a lease, for the peer derived from that connection's socket; the
    stored lease is bound to the context collected for the process the kernel named;
    every piece of evidence in it was observed by the kernel; and some allow rule, of the
    policy loaded from the file the environment names, for that resource and action had
    each of its conditions met by such evidence.  It holds for every platform source with
    the collectors' laws. *)
Theorem grant_rests_on_the_kernel {P K : Type} `{KernelPeerSource P} `{EventSink K}
    (env : environment) (load : string → result PolicySet PolicyLoadError)
    (own : result IssuerInstanceId InstanceIdError) (open_audit : string → result () string)
    (s : AgentSetup) (sink : K) (clk : N → MonotonicTime) (cs : list connection)
    (Hsetup : agentd_setup env load own open_audit = Ok s)
    (Hrevision : (revision (document (setup_policy s)) ≤ u32_max)%N)
    (Hpeers : Forall (λ c, ∃ fd (k : P), conn_peer c = (derive fd k).1) cs)
    (Hmany : (len_N cs ≤ u64_max)%N)
    (k : nat) (c : connection) (sv : served (agent_world FakeBackend K)) (g : list byte)
    (oi : option RequestId) (v : LeaseView) :
  let '(h, st) := setup_handler s in
  let w := mk_agent_world h st (setup_backend s) sink clk 0 in
  cs !! k = Some c → (serve_all w cs).1 !! k = Some sv →
  sent sv = Some g → reads g (Versioned_current (mk_ResponseBody oi (LeaseGranted v))) →
  ∃ q p x l path policy r,
    called sv = Some (RequestLease q, p) ∧ conn_peer c = Ok p ∧
    leases (aw_store (handler_state sv)) !! view_lease_id v = Some l ∧
    origin l = provenance_for q x ∧ PeerContext_authorizable p = Some x ∧
    pid (workload x) = cred_pid (credential p) ∧ cred_pid (credential p) ≠ 0%N ∧
    context_kernel_only x ∧
    env_var env "ELTANIN_AGENT_POLICY" = Some path ∧ load path = Ok policy ∧
    r ∈ rules (document policy) ∧ rule_effect r = Allow ∧ relevant r (request (origin l)) ∧
    Forall (λ cond, condition_kernel cond x) (conditions r).
Proof.
  destruct (setup_handler s) as [h st] eqn:Hh. intros w Hc Hsv Hsent Hread.
  assert (world_ok w (length cs) ∧ handler_policy (aw_handler w) = setup_policy s) as [Hw Hpol].
  { pose proof (configured_agent_sound env load own open_audit s Hsetup) as Hs. rewrite Hh in Hs.
    destruct Hs as (Hok & _ & _ & _ & Hpol & _). unfold w. cbn. split; [|done].
    unfold setup_handler in Hh. split; [done|]. injection Hh as <- <-. split.
    - split; [done|]. apply map_Forall_empty.
    - unfold len_N in Hmany. cbn. lia. }
  destruct (serve_all_nth cs w k c sv Hw Hc Hsv) as (w' & n & Heq & Hw' & Hsame).
  pose proof (world_ok_headroom w' n Hw') as Hroom. subst sv.
  destruct (grant_read_called Hlaws _ _ _ w' g _ v (λ rq p a h' Ha, ltac:(
    destruct (handler_call w' n rq p Hw') as (op & out & resp & w2 & Ha' & Hfit & _);
    rewrite Ha' in Ha; injection Ha as <- _; apply Hfit)) Hsent Hread eq_refl)
    as (rq & p & Hcalled & Hans).
  assert (∃ q, rq = RequestLease q) as [q ->].
  { destruct rq as [q|q|]; [by exists q|exfalso..].
    - revert Hans. cbn [handler_handle AuthorizationHandler_handler]. unfold handle. cbn [dispatch].
      pose proof (release_spec (aw_handler w') (aw_store w') (aw_backend w') q p
        (aw_clock w' (aw_reads w')) (proj1 Hw')) as Hs.
      destruct (handle_release_lease _ _ q p _) as [[[out resp] st'] b']. cbn. intros [= ->].
      destruct Hs as [_ [(_ & _ & ? & _)|(x & _ & [(_ & _ & ? & _)|(l & _ & _ & [(_ & _ & ? & _)|(_ & ? & _)])])]];
        done.
    - done. }
  destruct (Forall_lookup_1 _ _ _ _ Hpeers Hc) as (fd & kernel & Hpeer). rewrite Hpeer in *.
  destruct (called_grant_kernel fd kernel (conn_stream c) (conn_timeouts c) w' q p v (proj1 Hw') Hroom
    Hcalled Hans) as (Hder & x & l & r & Hl & Ho & Ha & Hpid & Hnz & Hkern & Hr & Heff & Hrel & Hall).
  rewrite Hsame, Hpol in Hr.
  apply agentd_setup_Ok in Hsetup as (ms & path & _ & _ & _ & _ & _ & _ & Hpath & Hload & _).
  by exists q, p, x, l, path, (setup_policy s), r.
Qed.

End grants.

(** ** Every answer in the log *)

Section accounts.
Context `{SerdeJsonText} {B C : Type} `{ComputeBackend B} `{AuditClock C}.
Context (Hlaws : SerdeJsonLaws) (Htext : SerdeJsonTextLaws).
#[local] Existing Instance serde_codec.

#[local] Abbreviation world := (agent_world B (AuditFileSink LogFile C)).

(** An event tells of a call. *)
Record tells (call : option (list byte) * (ClientRequest * PeerContext))
    (ev : AuthorizationEvent) : Prop := mk_tells {
  tells_call : call.2 = (ev_request ev, peer ev);
  tells_fits : AuditEntry_in_range (entry_of_event ev);
  tells_sent : ∃ i, (request_id_num i ≤ u64_max)%N ∧ call.1 = send (Some i) (response ev);
  tells_grant : ∀ v, response ev = LeaseGranted v →
    ∃ t, outcome ev = Granted (view_lease_id v) t
}.

Lemma recorded_request_in_range rq :
  ClientRequest_in_range rq → RecordedRequest_in_range (recorded_request rq).
Proof. by destruct rq. Qed.

Lemma handler_tells (w : world) n rq p :
  world_ok w (S n) → ClientRequest_in_range rq → PeerContext_in_range p →
  ∃ ev w', handler_handle w rq p = (Some (response ev), w') ∧
    ev_request ev = rq ∧ peer ev = p ∧ AuditEntry_in_range (entry_of_event ev) ∧
    (∀ v, response ev = LeaseGranted v → ∃ t, outcome ev = Granted (view_lease_id v) t) ∧
    aw_sink w' = AuditEventSink_record (aw_sink w) ev ∧ world_ok w' n.
Proof.
  intros Hw Hrq Hp.
  destruct (handler_call w n rq p Hw) as (op & out & resp & w' & Hh & (Ho & Hr & Hg) & Hs & _ & Hw').
  exists (mk_AuthorizationEvent op rq p out resp), w'. split; [done|].
  split; [done|]. split; [done|]. split; [|by split].
  split; [by apply recorded_request_in_range|]. by split_and!.
Qed.

(** One connection: no call and nothing recorded, or one call and its one event. *)
Lemma serve_tells (w : world) n c :
  world_ok w (S n) → (∀ p, conn_peer c = Ok p → PeerContext_in_range p) →
  let sv := serve_connection (conn_stream c) (conn_timeouts c) (conn_peer c) w in
  ∃ evs, Forall2 tells (calls_of [sv]) evs ∧ world_ok (handler_state sv) n ∧
    aw_sink (handler_state sv) = foldl AuditEventSink_record (aw_sink w) evs.
Proof.
  intros Hw Hp sv. assert (∀ s', sv = s' → called s' = None → handler_state s' = w →
    ∃ evs, Forall2 tells (calls_of [sv]) evs ∧ world_ok (handler_state sv) n ∧
      aw_sink (handler_state sv) = foldl AuditEventSink_record (aw_sink w) evs) as Hquiet.
  { intros s' -> Hc Hs. exists []. unfold calls_of. cbn. rewrite Hc, Hs. cbn. split; [done|].
    split; [|done]. by apply world_ok_less. }
  unfold sv, serve_connection in Hquiet |- *.
  destruct (conn_timeouts c); cbn [negb] in *; [|by eapply Hquiet].
  destruct (conn_peer c) as [p|]; [|by eapply Hquiet].
  destruct (read_frame (conn_stream c)) as [[| | |body] s']; try by eapply Hquiet.
  destruct (decode_request body) as [rq|[[]| |]] eqn:Hd; try by eapply Hquiet.
  clear Hquiet. apply (Request_read Hlaws) in Hd as [Hi Hrq].
  destruct (handler_tells w n (req_body (payload rq)) p Hw Hrq (Hp p eq_refl))
    as (ev & w' & Hh & Hev & Hpeer & Hfit & Hg & Hsink & Hw').
  rewrite Hh. cbn. exists [ev]. split; [|by split].
  constructor; [|constructor]. split; cbn; [by rewrite Hev, Hpeer|done|by eexists|done].
Qed.

Lemma serve_all_tells cs : ∀ w : world,
  world_ok w (length cs) → Forall (λ c, ∀ p, conn_peer c = Ok p → PeerContext_in_range p) cs →
  ∃ evs, Forall2 tells (calls_of (serve_all w cs).1) evs ∧ length evs ≤ length cs ∧
    aw_sink (serve_all w cs).2 = foldl AuditEventSink_record (aw_sink w) evs.
Proof.
  induction cs as [|c cs IH]; intros w Hw Hp; [by exists []|].
  apply Forall_cons in Hp as [Hp Hps]. cbn [length] in Hw.
  destruct (serve_tells w (length cs) c Hw Hp) as (ev & Ht & Hw' & Hs). cbn [serve_all].
  set (sv := serve_connection _ _ _ w) in *. destruct (IH (handler_state sv) Hw' Hps) as (evs & Hts & Hl & Hss).
  destruct (serve_all (handler_state sv) cs) as [svs w2]. cbn [fst snd] in *.
  exists (ev ++ evs). rewrite foldl_app, <-Hs. split; [|split; [|done]].
  - change (sv :: svs) with ([sv] ++ svs). unfold calls_of in *. rewrite omap_app.
    by apply Forall2_app.
  - pose proof (Forall2_length _ _ _ Ht) as Hle. unfold calls_of in Hle. cbn in Hle.
    rewrite length_app. destruct (called sv); cbn in Hle |- *; lia.
Qed.

(** Recording events is appending their entries. *)
Lemma record_all_appends evs : ∀ self : AuditFileSink LogFile C,
  foldl AuditEventSink_record self evs = (append_all self (entry_of_event <$> evs)).2.
Proof.
  induction evs as [|ev evs IH]; intros self; [done|]. cbn. unfold AuditEventSink_record at 2.
  destruct (AuditFileSink_append self (entry_of_event ev)) as [r self'] eqn:Ha. cbn. rewrite IH.
  by destruct (append_all self' _).
Qed.

(** What the client reads is what the record of the event says. *)
Lemma tells_reads reply call ev g r :
  tells (reply, call) ev → reply = Some g → rec_response r = response ev →
  rec_outcome r = recorded_outcome (outcome ev) →
  ∃ id answer, reads g (Versioned_current (mk_ResponseBody (Some id) answer)) ∧
    (answer = rec_response r ∨ answer = ErrorResponse CodeInternal) ∧
    ∀ v, answer = LeaseGranted v → ∃ t, rec_outcome r = RoGranted (view_lease_id v) t.
Proof.
  intros [_ (_ & _ & _ & Hresp) (id & Hid & Hsend) Hg] Hreply Hrr Hro. cbn [fst] in Hsend.
  destruct (sent_reads Hlaws (Some id) (response ev) g Hid Hresp (eq_trans (eq_sym Hsend) Hreply))
    as (answer & Hr & Ha).
  exists id, answer. split; [done|]. rewrite Hrr, Hro. split; [done|]. intros v ->.
  destruct Ha as [Ha|]; [|done]. destruct (Hg v (eq_sym Ha)) as [t Ho]. exists t. by rewrite Ho.
Qed.

(** ** Property *)

(** C32: every answer is accounted for.  The agent serves any connections one after
    another, their peers derived by a collector, and its events go to a log that was
    empty and whose failing writes leave the file as it was.  Afterwards
    [eltanin-explain], asked for the [k]-th event, prints the record of the [k]-th call
    the agent answered: that request, that peer, and the answer the client reads, unless
    an internal error replaced an answer too long for a frame; a lease the client reads
    as granted is the lease the record names.  Or the write of that record failed, and
    the program says so exactly when a later record was written; as many writes failed
    as the sink counted.  Nothing else is in the log: it has no unreadable line, and its
    records are those of the writes that succeeded, one each and in order. *)
Theorem answers_accounted {K : Type} `{FittingPeerSource K} (i : IssuerInstanceId) (clk : C)
    (p : list (option nat)) (path : string) (w : world) (cs : list connection)
    (Hclock : ∀ clk : C, WallClockTime_in_range (audit_now clk).1) (Hclean : clean p)
    (Hsink : aw_sink w = AuditFileSink_from_writer (mk_LogFile "" p) i clk)
    (Hok : world_ok w (length cs))
    (Hpeers : Forall (λ c, ∃ fd (k : K), conn_peer c = (derive fd k).1) cs) :
  let '(svs, w') := serve_all w cs in
  let sink := aw_sink w' in
  let explain k := explain_event (contents (writer sink)) path (mk_AuditEventId i (N.of_nat k)) in
  ∃ rs scan, length rs = length (calls_of svs) ∧ failed_writes sink = count_err rs ∧
  (∀ k id, rs !! k = Some (Ok id) → id = mk_AuditEventId i (N.of_nat k)) ∧
  read_log (λ _, file_text (contents (writer sink))) path = Ok scan ∧
  unreadable scan = [] ∧ event_id <$> records scan = omap handed_out rs ∧
  ∀ k, (N.of_nat k ≤ u64_max)%N →
    match calls_of svs !! k with
    | Some (reply, (rq, peer)) =>
        (∃ r, explain k = (0%N, [PrintedRecord r]) ∧
           event_id r = mk_AuditEventId i (N.of_nat k) ∧ rs !! k = Some (Ok (event_id r)) ∧ requested r = recorded_request rq ∧
           rec_peer r = recorded_peer peer ∧
           ∀ g, reply = Some g → ∃ id answer,
             reads g (Versioned_current (mk_ResponseBody (Some id) answer)) ∧
             (answer = rec_response r ∨ answer = ErrorResponse CodeInternal) ∧
             ∀ v, answer = LeaseGranted v → ∃ t, rec_outcome r = RoGranted (view_lease_id v) t) ∨
        (∃ err, rs !! k = Some (Err err)) ∧
        (let later := ∃ j id, k < j ∧ rs !! j = Some (Ok id) in
         (explain k = (2%N, [PrintedPossiblyLost]) ↔ later) ∧
         (explain k = (2%N, [PrintedNotFound]) ↔ ¬ later))
    | None => explain k = (2%N, [PrintedNotFound])
    end.
Proof.
  assert (Forall (λ c, ∀ p, conn_peer c = Ok p → PeerContext_in_range p) cs) as Hfit.
  { eapply Forall_impl; [exact Hpeers|]. intros c (fd & k & Hc) peer Hpeer.
    apply (derive_fits fd k). congruence. }
  destruct (serve_all_tells cs w Hok Hfit) as (evs & Ht & Hlen & Hs).
  destruct (serve_all w cs) as [svs w'] eqn:Hserve. cbn [fst snd] in *. cbv zeta.
  rewrite Hs, Hsink, record_all_appends.
  destruct (append_all _ (entry_of_event <$> evs)) as [rs self] eqn:Happ. cbn [snd].
  assert (Forall AuditEntry_in_range (entry_of_event <$> evs)) as Hes.
  { apply Forall_fmap, Forall_lookup. intros k ev Hev.
    destruct (Forall2_lookup_r _ _ _ _ _ Ht Hev) as (call & _ & Hc). apply Hc. }
  assert (len_N (entry_of_event <$> evs) ≤ u64_max)%N as Hn.
  { unfold len_N. rewrite length_fmap. destruct Hok as (_ & _ & ?). lia. }
  destruct (explain_tells_what_happened i clk p (entry_of_event <$> evs) path rs self
    (audit_json_laws Hlaws Htext) Hclock Hclean Hes Hn Happ)
    as (scan & Hread & Hap & Hun & Hfail & Hk).
  exists rs, scan. pose proof (appended_length _ _ _ _ _ Hap) as Hrs.
  rewrite length_fmap, <-(Forall2_length _ _ _ Ht) in Hrs.
  split; [done|]. split; [done|]. split.
  { intros k id Hid. specialize (Hk k). rewrite Hid in Hk. apply Hk. }
  split; [done|]. split; [done|]. split; [by eapply appended_ids|]. intros k Hmax.
  rewrite (explain_event_select _ _ (mk_AuditEventId i (N.of_nat k)) scan Hmax Hread). specialize (Hk k).
  destruct (calls_of svs !! k) as [[reply [rq peer]]|] eqn:Hcall.
  2: { apply lookup_ge_None in Hcall. rewrite (lookup_ge_None_2 rs) in Hk by lia. by rewrite Hk. }
  destruct (lookup_lt_is_Some_2 rs k) as [res Hres].
  { rewrite Hrs. by eapply lookup_lt_Some. }
  rewrite Hres in Hk. destruct res as [id|err]; [left|right; split; [by eexists|]].
  2: { destruct Hk as [<- <-]. destruct (select scan _) eqn:Hsel; [|done..].
       split; split; done. }
  destruct Hk as (-> & e & at_ & He & ->). rewrite list_lookup_fmap in He.
  apply fmap_Some in He as (ev & Hev & ->).
  destruct (Forall2_lookup_r _ _ _ _ _ Ht Hev) as (call & Hc & Htells).
  rewrite Hcall in Hc. injection Hc as <-. pose proof (tells_call _ _ Htells) as Hcq.
  cbn [snd] in Hcq. injection Hcq as -> ->.
  eexists. split; [reflexivity|]. split; [done|]. split; [done|]. split; [done|]. split; [done|].
  intros g Hreply. by eapply tells_reads.
Qed.

End accounts.

(** ** Witness *)

#[local] Existing Instance Reference.serde.
#[local] Existing Instance TextReference.text.
#[local] Existing Instance TwoRecords.fixed_clock.
#[local] Existing Instance serde_codec.
Definition sample_world : agent_world FakeBackend (AuditFileSink LogFile ()) :=
  mk_agent_world sample_handler sample_store sample_backend
    (AuditFileSink_from_writer (mk_LogFile "" []) TwoRecords.log_instance ()) at_time 0.

#[local] Existing Instance debug_plainly.

(** A connection whose peer is gone, and a lease request of the client. *)
Definition sample_ask : Request :=
  Versioned_current (mk_RequestBody (mk_RequestId 7) (RequestLease sample_lease_request)).
Definition sample_connections : list connection :=
  [mk_connection (mk_stream 0 []) true (derive 5 client_host).1;
   mk_connection (mk_stream 0 [(0%N, RdBytes (framed (to_vec (ser sample_ask))))]) true
     (derive 3 client_host).1].

Definition sample_served : list (served (agent_world FakeBackend (AuditFileSink LogFile ()))) *
    agent_world FakeBackend (AuditFileSink LogFile ()) := serve_all sample_world sample_connections.

Definition granted_answer (remaining : Duration) : Response :=
  Versioned_current (mk_ResponseBody (Some (mk_RequestId 7))
    (LeaseGranted (mk_LeaseView (mk_LeaseId sample_instance 0) remaining))).
Definition sample_answer : Response := granted_answer 299.
Definition sample_reply : list byte := framed (to_vec (ser sample_answer)).
Definition setup_reply : list byte := framed (to_vec (ser (granted_answer 299999999999))).

Lemma sample_calls :
  calls_of sample_served.1 = [(Some sample_reply, (RequestLease sample_lease_request, client_peer))].
Proof. by vm_compute. Qed.

(** The agent of the sample environment; its client reads that the lease was granted. *)
Definition sample_start : agent_world FakeBackend () :=
  mk_agent_world (setup_handler sample_setup).1 (setup_handler sample_setup).2
    (setup_backend sample_setup) () at_time 0.

Lemma sample_start_sent :
  (λ sv, sent sv) <$> (serve_all sample_start sample_connections).1 !! 1 = Some (Some setup_reply).
Proof. by vm_compute. Qed.

Lemma sample_reply_read r : reads sample_reply r → r = sample_answer.
Proof.
  intros (body & Hs & Hd). assert (match split_frame sample_reply with
    | Some b => decode_response (H := serde_codec) b = Ok sample_answer
    | None => False
    end) as Hread by by vm_compute.
  rewrite Hs in Hread. congruence.
Qed.

Lemma sample_written : failed_writes (aw_sink sample_served.2) = 0%N.
Proof. by vm_compute. Qed.

(** The lease the peer was granted is in the log. *)
Lemma answers_accounted_witness :
  ∃ r t, explain_event (contents (writer (aw_sink sample_served.2))) "audit.log"
      (mk_AuditEventId TwoRecords.log_instance 0) = (0%N, [PrintedRecord r]) ∧
    requested r = RreqRequestLease sample_resource Compute ∧
    rec_outcome r = RoGranted (mk_LeaseId sample_instance 0) t.
Proof.
  pose proof (answers_accounted Reference.serde_laws TextReference.text_laws TwoRecords.log_instance
    () [] "audit.log" sample_world sample_connections) as Hall.
  change (serve_all sample_world sample_connections) with sample_served in Hall.
  pose proof sample_calls as Hcalls. pose proof sample_written as Hwritten.
  destruct sample_served as [svs w']. cbn [fst snd] in Hcalls, Hwritten |- *.
  destruct Hall as (rs & scan & Hlen & Hfail & _ & _ & _ & _ & Hk).
  - intros []. apply TwoRecords.at_zero_in_range.
  - by intros k ?%elem_of_nil.
  - done.
  - split; [apply sample_handler_ok|]. split; [|by vm_compute]. split; [by vm_compute|].
    apply map_Forall_empty.
  - repeat constructor; by eexists _, client_host.
  - rewrite Hwritten in Hfail. specialize (Hk 0 ltac:(by vm_compute)).
    rewrite Hcalls in Hk, Hlen. cbn [lookup list_lookup] in Hk.
    destruct Hk as [(r & He & _ & _ & Hq & _ & Hr)|[[err Herr] _]].
    + destruct (Hr _ eq_refl) as (id & answer & [= -> ->]%sample_reply_read & _ & Hg).
      destruct (Hg _ eq_refl) as [t Ht]. by exists r, t.
    + destruct rs as [|r []]; try done. cbn in Herr. injection Herr as ->. done.
Defined.

Lemma setup_reply_read : reads setup_reply (granted_answer 299999999999).
Proof.
  apply (encoded_reads Reference.serde_laws); [by vm_compute|reflexivity|].
  unfold setup_reply. apply encode_frame_Ok. by split; [vm_compute|].
Qed.

(** What the client of the sample environment was granted rests on its own uid. *)
Lemma grant_rests_on_the_kernel_witness :
  ∃ sv q p x l policy r,
    (serve_all sample_start sample_connections).1 !! 1 = Some sv ∧
    called sv = Some (RequestLease q, p) ∧ (derive 3 client_host).1 = Ok p ∧
    leases (aw_store (handler_state sv)) !! mk_LeaseId sample_instance 0 = Some l ∧
    origin l = provenance_for q x ∧ context_kernel_only x ∧
    r ∈ rules (document policy) ∧ Forall (λ cond, condition_kernel cond x) (conditions r).
Proof.
  pose proof sample_start_sent as Hsent.
  destruct ((serve_all sample_start sample_connections).1 !! 1) as [sv|] eqn:Hsv; [|discriminate Hsent].
  injection Hsent as Hsent.
  pose proof (grant_rests_on_the_kernel (P := Snapshot) (K := ()) Reference.serde_laws sample_env
    (λ _, Ok sample_policy) (Ok sample_instance) (λ _, Ok ()) sample_setup () at_time
    sample_connections eq_refl ltac:(by vm_compute)
    ltac:(repeat constructor; by eexists _, client_host) ltac:(by vm_compute) 1
    (mk_connection (mk_stream 0 [(0%N, RdBytes (framed (to_vec (ser sample_ask))))]) true
       (derive 3 client_host).1) sv setup_reply (Some (mk_RequestId 7))
    (mk_LeaseView (mk_LeaseId sample_instance 0) 299999999999)) as Hg.
  destruct Hg as (q & p & x & l & path & policy & r & Hc & Hp & Hl & Ho & _ & _ & _ & Hk & _ & _ & Hr
    & _ & _ & Hconds).
  - reflexivity.
  - exact Hsv.
  - exact Hsent.
  - exact setup_reply_read.
  - exists sv, q, p, x, l, policy, r. split; [reflexivity|]. split; [exact Hc|].
    cbn [conn_peer] in Hp. split; [exact Hp|]. split; [exact Hl|]. split; [exact Ho|]. split; [exact Hk|].
    split; [exact Hr|exact Hconds].
Defined.
