(* ===== verification/Trail.v ===== *)
(** * The audit trail of concurrent requests

    The handler of [crates/eltanin-agent/src/authz/mod.rs] serving any number of
    connections at once, with the audit log it writes ([authz/audit.rs],
    [crates/eltanin-audit/src/sink.rs]).  A thread that has its answer hands an event to
    the sink before it returns: the sink reads its clock, then appends under its own
    lock.  The steps are those of [AuthzConcurrent], each answer leaving an event with
    its thread, and the two steps of recording it.

    Shown: however the threads interleave, when no answer is unrecorded and no write
    failed, the log alone says which leases are live, and for whom. *)

From S2P Require Import Prelude Text Json JsonText Resource Identity Policy PolicySpec Lease.
From S2P Require Import Peer Backend Protocol Schema LeaseStore Authz AuthzSpec AuthzConcurrent.
From S2P Require Import AuditRecord Fits AuditLog Records Widths.

(** ** Threads, answers and the log *)

(** An answered call whose event is not in the log: before and after the sink read its
    clock. *)
Inductive unrecorded : Type :=
  | Unrecorded (ev : AuthorizationEvent)
  | Dated (ev : AuthorizationEvent) (at_ : WallClockTime).

Definition unrecorded_event (u : unrecorded) : AuthorizationEvent :=
  match u with
  | Unrecorded ev | Dated ev _ => ev
  end.

Definition event_of (op : Operation) (rq : ClientRequest) (p : PeerContext)
    (answer : AuthorizationOutcome * AgentResponse) : AuthorizationEvent :=
  mk_AuthorizationEvent op rq p answer.1 answer.2.

Section trail.
Context {B W C : Type} `{ComputeBackend B} `{AuditWriter W} `{RecordToJson}.
Context (h : AuthorizationHandler).

(** [au_calls] are the requests of the grants in flight, [au_trail] what the sink was
    handed, in the order of its lock. *)
Record audited : Type := mk_audited {
  au_agent : agent B;
  au_calls : gmap nat (LeaseRequest * PeerContext);
  au_answers : gmap nat unrecorded;
  au_sink : AuditFileSink W C;
  au_trail : list (AuthorizationEvent * WallClockTime)
}.

(** [RequestHandler::handle] of any number of threads.  A thread is numbered from its
    first region to the record of its answer; what it is asked, and by whom, are values
    of the source's types. *)
Inductive audited_step : audited → audited → Prop :=
  | au_tick st b now now' gs cs ans k tr :
      time_le now now' →
      audited_step (mk_audited (mk_agent st b now gs) cs ans k tr)
        (mk_audited (mk_agent st b now' gs) cs ans k tr)
  | au_begin st b now gs cs ans k tr i q p l st' :
      headroom st → gs !! i = None → ans !! i = None → PeerContext_in_range p →
      begin_request_lease h st q p now = (inr l, st') →
      audited_step (mk_audited (mk_agent st b now gs) cs ans k tr)
        (mk_audited (mk_agent st' b now (<[i := GIssued l]> gs)) (<[i := (q, p)]> cs) ans k tr)
  | au_refuse st b now gs cs ans k tr i q p answer st' :
      headroom st → gs !! i = None → ans !! i = None → PeerContext_in_range p →
      begin_request_lease h st q p now = (inl answer, st') →
      audited_step (mk_audited (mk_agent st b now gs) cs ans k tr)
        (mk_audited (mk_agent st' b now gs) cs
          (<[i := Unrecorded (event_of OpRequestLease (RequestLease q) p answer)]> ans) k tr)
  | au_enforce st b now gs cs ans k tr i l r b' :
      gs !! i = Some (GIssued l) → enforce b (request (origin l)) = (r, b') →
      audited_step (mk_audited (mk_agent st b now gs) cs ans k tr)
        (mk_audited (mk_agent st b' now (<[i := GEnforced l r]> gs)) cs ans k tr)
  | au_stamp st b now gs cs ans k tr i l :
      gs !! i = Some (GEnforced l (Ok Allowed)) →
      audited_step (mk_audited (mk_agent st b now gs) cs ans k tr)
        (mk_audited (mk_agent st b now (<[i := GStamped l now]> gs)) cs ans k tr)
  | au_settle st b now gs cs ans k tr i l later q p answer st' :
      gs !! i = Some (GStamped l later) → cs !! i = Some (q, p) →
      finish_request_lease st l (Ok Allowed) later = (answer, st') →
      audited_step (mk_audited (mk_agent st b now gs) cs ans k tr)
        (mk_audited (mk_agent st' b now (delete i gs)) (delete i cs)
          (<[i := Unrecorded (event_of OpRequestLease (RequestLease q) p answer)]> ans) k tr)
  | au_abort st b now gs cs ans k tr i l r q p answer st' :
      gs !! i = Some (GEnforced l r) → r ≠ Ok Allowed → cs !! i = Some (q, p) →
      finish_request_lease st l r now = (answer, st') →
      audited_step (mk_audited (mk_agent st b now gs) cs ans k tr)
        (mk_audited (mk_agent st' b now (delete i gs)) (delete i cs)
          (<[i := Unrecorded (event_of OpRequestLease (RequestLease q) p answer)]> ans) k tr)
  | au_release st b now gs cs ans k tr i q p answer st' b' :
      gs !! i = None → ans !! i = None → PeerContext_in_range p →
      LeaseId_in_range (rr_lease_id q) →
      handle_release_lease st b q p now = (answer, st', b') →
      audited_step (mk_audited (mk_agent st b now gs) cs ans k tr)
        (mk_audited (mk_agent st' b' now gs) cs
          (<[i := Unrecorded (event_of OpReleaseLease (ReleaseLease q) p answer)]> ans) k tr)
  | au_status a cs ans k tr i p :
      ag_grants a !! i = None → ans !! i = None → PeerContext_in_range p →
      audited_step (mk_audited a cs ans k tr)
        (mk_audited a cs
          (<[i := Unrecorded (event_of OpAgentStatus AgentStatus p handle_status)]> ans) k tr)
  | au_date a cs ans k tr i ev at_ :
      ans !! i = Some (Unrecorded ev) → WallClockTime_in_range at_ →
      audited_step (mk_audited a cs ans k tr) (mk_audited a cs (<[i := Dated ev at_]> ans) k tr)
  | au_record a cs ans k tr i ev at_ :
      ans !! i = Some (Dated ev at_) →
      audited_step (mk_audited a cs ans k tr)
        (mk_audited a cs (delete i ans)
          (AuditFileSink_append_locked k at_ (entry_of_event ev)).2 (tr ++ [(ev, at_)])).

Definition audited_start (st : LeaseState) (b : B) (now : MonotonicTime)
    (k : AuditFileSink W C) : audited :=
  mk_audited (agent_init st b now) ∅ ∅ k [].

(** It is the handler of [AuthzConcurrent], watched. *)
Lemma audited_agent_step s s' :
  audited_step s s' →
  au_agent s' = au_agent s ∨ agent_step h (au_agent s) (au_agent s').
Proof.
  destruct 1; cbn; try (by left); right;
    [by eapply step_tick|by eapply step_begin|by eapply step_refuse|by eapply step_enforce
    |by eapply step_stamp|by eapply step_settle|by eapply step_abort|by eapply step_release].
Qed.

(** ** What the events say of the store *)

Definition told (s : audited) (ev : AuthorizationEvent) : Prop :=
  (∃ at_, (ev, at_) ∈ au_trail s) ∨
  ∃ i u, au_answers s !! i = Some u ∧ unrecorded_event u = ev.

Definition releases (ev : AuthorizationEvent) (id : LeaseId) : Prop :=
  ∃ q o br, ev_request ev = ReleaseLease q ∧ rr_lease_id q = id ∧ outcome ev = OutcomeReleased o br.

Definition grants_lease (ev : AuthorizationEvent) (l : ComputeLease) : Prop :=
  outcome ev = Granted (lease_id l) (expires_at l) ∧
  ∃ q obs, ev_request ev = RequestLease q ∧ PeerContext_authorizable (peer ev) = Some obs ∧
    origin l = provenance_for q obs.

Definition revoked_by (i : LeaseIssuer) (id : LeaseId) : Prop :=
  issuer id = instance i ∧ sequence id ∈ revoked i.

Definition calls_ok (s : audited) : Prop :=
  ∀ i g, ag_grants (au_agent s) !! i = Some g →
    au_answers s !! i = None ∧ (as_nanos (expires_at (grant_lease g)) ≤ u64_max)%N ∧
    ∃ q p obs, au_calls s !! i = Some (q, p) ∧ PeerContext_in_range p ∧
      PeerContext_authorizable p = Some obs ∧ origin (grant_lease g) = provenance_for q obs.

#[local] Abbreviation store s := (ag_store (au_agent s)).

Record audited_ok (s : audited) : Prop := mk_audited_ok {
  aud_agent : agent_ok h (au_agent s);
  aud_fits : handler_fits h (store s);
  aud_calls : calls_ok s;
  aud_entries : ∀ ev, told s ev → AuditEntry_in_range (entry_of_event ev);
  aud_released : ∀ ev id, told s ev → releases ev id → revoked_by (store_issuer (store s)) id;
  aud_stored : ∀ id l, leases (store s) !! id = Some l → ∃ ev, told s ev ∧ grants_lease ev l;
  aud_granted : ∀ ev id t, told s ev → outcome ev = Granted id t →
    (∃ l, leases (store s) !! id = Some l ∧ expires_at l = t) ∨
    (∃ ev', told s ev' ∧ releases ev' id) ∨ time_le t (ag_clock (au_agent s))
}.

(** One step of the store, with the event it leaves if any. *)
Record store_step (s s' : audited) (new : option AuthorizationEvent) : Prop := mk_store_step {
  sst_told : ∀ ev, told s' ev ↔ told s ev ∨ new = Some ev;
  sst_clock : time_le (ag_clock (au_agent s)) (ag_clock (au_agent s'));
  sst_issuer : instance (store_issuer (store s')) = instance (store_issuer (store s)) ∧
    revoked (store_issuer (store s)) ⊆ revoked (store_issuer (store s'));
  sst_added : ∀ id l, leases (store s') !! id = Some l → leases (store s) !! id = Some l ∨
    ∃ ev, new = Some ev ∧ grants_lease ev l;
  sst_dropped : ∀ id l, leases (store s) !! id = Some l → leases (store s') !! id = Some l ∨
    time_le (expires_at l) (ag_clock (au_agent s')) ∨ ∃ ev, new = Some ev ∧ releases ev id;
  sst_new : ∀ ev, new = Some ev → AuditEntry_in_range (entry_of_event ev) ∧
    (∀ id, releases ev id → revoked_by (store_issuer (store s')) id) ∧
    ∀ id t, outcome ev = Granted id t → ∃ l, leases (store s') !! id = Some l ∧ expires_at l = t
}.

Lemma audited_ok_next s s' new :
  audited_ok s → agent_ok h (au_agent s') → handler_fits h (store s') → calls_ok s' →
  store_step s s' new → audited_ok s'.
Proof.
  intros [_ _ _ He Hr Hs Hg] Ha Hf Hc [Ht Hclk [Hi Hrev] Hadd Hdrop Hnew]. split; try done.
  - intros ev [Hev|Hev]%Ht; [by apply He|by apply Hnew].
  - intros ev id [Hev|Hev]%Ht Hrel; [|by apply (Hnew ev Hev)].
    destruct (Hr ev id Hev Hrel) as [? ?]. split; [congruence|by apply Hrev].
  - intros id l [Hl|(ev & Hev & Hl)]%Hadd.
    + destruct (Hs id l Hl) as (ev & Hev & ?). exists ev. split; [apply Ht; by left|done].
    + exists ev. split; [apply Ht; by right|done].
  - intros ev id t [Hev|Hev]%Ht Hout; [|left; by apply (Hnew ev Hev)].
    destruct (Hg ev id t Hev Hout) as [(l & Hl & <-)|[(ev' & Hev' & Hrel)|Hle]].
    + destruct (Hdrop id l Hl) as [?|[?|(ev' & Hev' & Hrel)]]; [left; by exists l|by right; right|].
      right; left. exists ev'. split; [apply Ht; by right|done].
    + right; left. exists ev'. split; [apply Ht; by left|done].
    + right; right. unfold time_le in *. lia.
Qed.

(** ** Every step keeps it *)

Lemma told_answer a cs ans k tr a' cs' i ev :
  ans !! i = None → ∀ ev', told (mk_audited a' cs' (<[i := Unrecorded ev]> ans) k tr) ev' ↔
    told (mk_audited a cs ans k tr) ev' ∨ Some ev = Some ev'.
Proof.
  intros Hi ev'. unfold told. cbn. split.
  - intros [?|(j & u & Hj & Hu)]; [by left; left|].
    apply lookup_insert_Some in Hj as [[<- <-]|[_ Hj]]; [right; cbn in Hu; by subst|].
    left; right. by exists j, u.
  - intros [[?|(j & u & Hj & Hu)]|[= <-]]; [by left|..]; right.
    + exists j, u. split; [|done]. apply lookup_insert_Some. right. split; [congruence|done].
    + exists i, (Unrecorded ev). by rewrite lookup_insert_eq.
Qed.

Lemma told_date a cs ans k tr i ev at_ :
  ans !! i = Some (Unrecorded ev) → ∀ ev', told (mk_audited a cs (<[i := Dated ev at_]> ans) k tr) ev' ↔
    told (mk_audited a cs ans k tr) ev' ∨ None = Some ev'.
Proof.
  intros Hi ev'. unfold told. cbn. split.
  - intros [?|(j & u & Hj & Hu)]; [by left; left|]. left; right.
    apply lookup_insert_Some in Hj as [[<- <-]|[_ Hj]]; [by exists i, (Unrecorded ev)|by exists j, u].
  - intros [[?|(j & u & Hj & Hu)]|?]; [by left| |done]; right.
    destruct (decide (i = j)) as [<-|Hne].
    + assert (u = Unrecorded ev) as -> by congruence. exists i, (Dated ev at_).
      by rewrite lookup_insert_eq.
    + exists j, u. by rewrite lookup_insert_ne.
Qed.

Lemma told_record a cs ans k k' tr i ev at_ :
  ans !! i = Some (Dated ev at_) →
  ∀ ev', told (mk_audited a cs (delete i ans) k' (tr ++ [(ev, at_)])) ev' ↔
    told (mk_audited a cs ans k tr) ev' ∨ None = Some ev'.
Proof.
  intros Hi ev'. unfold told. cbn. setoid_rewrite elem_of_app. setoid_rewrite list_elem_of_singleton.
  split.
  - intros [(t & [Ht|[= -> ->]])|(j & u & [_ Hj]%lookup_delete_Some & Hu)]; left;
      [left; by exists t|right; by exists i, (Dated ev at_)|right; by exists j, u].
  - intros [[[t Ht]|(j & u & Hj & Hu)]|?]; [left; exists t; by left| |done].
    destruct (decide (i = j)) as [<-|Hne].
    + assert (u = Dated ev at_) as -> by congruence. left. exists at_. right. by rewrite <-Hu.
    + right. exists j, u. by rewrite lookup_delete_ne.
Qed.

(** A store that is as it was, or without its expired leases. *)
Lemma store_step_kept s s' new :
  (∀ ev, told s' ev ↔ told s ev ∨ new = Some ev) →
  time_le (ag_clock (au_agent s)) (ag_clock (au_agent s')) →
  store s' = store s ∨ store s' = LeaseState_prune (store s) (ag_clock (au_agent s')) →
  (∀ ev, new = Some ev → AuditEntry_in_range (entry_of_event ev) ∧
    (∀ id, ¬ releases ev id) ∧ ∀ id t, outcome ev ≠ Granted id t) →
  store_step s s' new.
Proof.
  intros Ht Hclk Hst Hnew. split; try done.
  - by destruct Hst as [-> | ->].
  - intros id l Hl. left. destruct Hst as [Hst|Hst]; rewrite Hst in Hl; [done|].
    by apply prune_lookup in Hl as [? _].
  - intros id l Hl. destruct Hst as [-> | ->]; [by left|].
    destruct (decide (time_le (expires_at l) (ag_clock (au_agent s')))); [by right; left|].
    left. by apply prune_lookup.
  - intros ev Hev. destruct (Hnew ev Hev) as (? & Hr & Hg). split; [done|].
    split; [by intros id Hrel; destruct (Hr id)|]. intros id t Hout. by destruct (Hg id t).
Qed.

Lemma fits_kept st st' now :
  st' = st ∨ st' = LeaseState_prune st now → handler_fits h st → handler_fits h st'.
Proof. intros [-> | ->]; [done|]. apply fits_subset, prune_subseteq. Qed.

Lemma calls_ok_answer st b now gs cs ans k tr st' b' now' i u :
  calls_ok (mk_audited (mk_agent st b now gs) cs ans k tr) → gs !! i = None →
  calls_ok (mk_audited (mk_agent st' b' now' gs) cs (<[i := u]> ans) k tr).
Proof.
  intros Hc Hi j g Hj. destruct (Hc j g Hj) as [Ha ?]. split; [|done]. cbn in *.
  rewrite lookup_insert_ne; [done|]. intros ->. congruence.
Qed.

Lemma calls_ok_delete st b now gs cs ans k tr st' b' now' i u :
  calls_ok (mk_audited (mk_agent st b now gs) cs ans k tr) →
  calls_ok (mk_audited (mk_agent st' b' now' (delete i gs)) (delete i cs) (<[i := u]> ans) k tr).
Proof.
  intros Hc j g Hj. cbn in Hj. apply lookup_delete_Some in Hj as [Hne Hj]. destruct (Hc j g Hj) as (Ha & ? & q & p & obs & Hcs & ?).
  cbn in *. rewrite lookup_insert_ne by done. split; [done|]. split; [done|]. exists q, p, obs.
  by rewrite lookup_delete_ne.
Qed.

Lemma calls_ok_advance st b now gs cs ans k tr b' i g g' :
  calls_ok (mk_audited (mk_agent st b now gs) cs ans k tr) → gs !! i = Some g →
  grant_lease g' = grant_lease g →
  calls_ok (mk_audited (mk_agent st b' now (<[i := g']> gs)) cs ans k tr).
Proof.
  intros Hc Hi Hg j gj Hj. cbn in Hj.
  apply lookup_insert_Some in Hj as [[<- <-]|[_ Hj]]; [rewrite Hg; by apply Hc|by apply Hc].
Qed.

Lemma entry_in_range op rq p answer :
  RecordedRequest_in_range (recorded_request rq) → PeerContext_in_range p →
  answer_fits answer.1 answer.2 → AuditEntry_in_range (entry_of_event (event_of op rq p answer)).
Proof. intros ? ? (? & ? & _). by split_and!. Qed.

(** The region that ends a grant. *)
Lemma audited_ok_finish st b now gs cs ans k tr i g r later q p answer st' :
  audited_ok (mk_audited (mk_agent st b now gs) cs ans k tr) → gs !! i = Some g →
  cs !! i = Some (q, p) → finish_request_lease st (grant_lease g) r later = (answer, st') →
  agent_ok h (mk_agent st' b now (delete i gs)) →
  audited_ok (mk_audited (mk_agent st' b now (delete i gs)) (delete i cs)
    (<[i := Unrecorded (event_of OpRequestLease (RequestLease q) p answer)]> ans) k tr).
Proof.
  intros Hs Hi Hcs Hf Ha. pose proof Hs as [Ha0 Hfit Hcalls _ _ _ _].
  pose proof (agent_in_flight h _ _ _ Ha0 Hi) as Hfl.
  destruct (Hcalls i g Hi) as (Hans & Hle & q' & p' & obs & Hcs' & Hp & Hauth & Horig).
  cbn in Hans, Hfl, Hfit, Hcs'. rewrite Hcs in Hcs'. injection Hcs' as <- <-.
  pose proof (finish_fits h st (grant_lease g) r later (aok_handler h _ Ha0) Hfl Hle) as Hans_fits.
  pose proof (finish_request_spec h st (grant_lease g) r later (aok_handler h _ Ha0) Hfl) as Hpost.
  rewrite Hf in Hans_fits, Hpost. destruct answer as [out resp].
  destruct Hpost as (_ & Hinst & _ & _ & Hpost).
  assert (handler_fits h st' ∧ revoked (store_issuer st) ⊆ revoked (store_issuer st') ∧
    (out = Granted (lease_id (grant_lease g)) (expires_at (grant_lease g)) ∧
       leases st' = <[lease_id (grant_lease g) := grant_lease g]> (leases st) ∨
     (∀ id t, out ≠ Granted id t) ∧ leases st' = leases st)) as (Hfit' & Hrev & Hcase).
  { destruct Hpost as [(_ & _ & -> & _ & Hl & ->)|(Hwhy & _ & Hl & ->)].
    - split; [|split; [done|by left]]. split; [apply Hfit|]. rewrite Hl.
      apply map_Forall_insert_2; [done|apply Hfit].
    - split; [apply (fits_subset h st); [by rewrite Hl|done]|]. split; [set_solver|]. right.
      split; [|done]. intros id t. by destruct Hwhy as [[-> _]|[(e & _ & _ & ->)|(e & _ & ->)]]. }
  eapply audited_ok_next; [exact Hs|exact Ha|exact Hfit'|by eapply calls_ok_delete|].
  split; cbn [au_agent ag_store ag_clock].
  - by apply told_answer.
  - done.
  - done.
  - intros id l. destruct Hcase as [[Hout ->]|[_ ->]]; [|by left].
    intros [[<- <-]|[_ Hl]]%lookup_insert_Some; [right|by left].
    eexists. split; [reflexivity|]. split; [done|]. by exists q, obs.
  - intros id l Hl. left. destruct Hcase as [[_ ->]|[_ ->]]; [|done].
    rewrite lookup_insert_ne; [done|]. intros <-. pose proof (if_fresh _ _ _ Hfl). congruence.
  - intros ev [= <-]. split; [by apply entry_in_range|]. split.
    + by intros id (? & ? & ? & [=] & _).
    + intros id t. cbn. destruct Hcase as [[-> ->]|[Hno _]]; [|by intros ?%Hno].
      intros [= <- <-]. exists (grant_lease g). by rewrite lookup_insert_eq.
Qed.

(** The region of a release. *)
Lemma audited_ok_release st b now gs cs ans k tr i q p answer st' b' :
  audited_ok (mk_audited (mk_agent st b now gs) cs ans k tr) → gs !! i = None → ans !! i = None →
  PeerContext_in_range p → LeaseId_in_range (rr_lease_id q) →
  handle_release_lease st b q p now = (answer, st', b') → agent_ok h (mk_agent st' b' now gs) →
  audited_ok (mk_audited (mk_agent st' b' now gs) cs
    (<[i := Unrecorded (event_of OpReleaseLease (ReleaseLease q) p answer)]> ans) k tr).
Proof.
  intros Hs Hi Hans Hp Hid Hrel Ha. pose proof Hs as [Ha0 Hfit Hcalls _ _ _ _].
  pose proof (release_fits h st b q p now (aok_handler h _ Ha0) Hfit) as Hcf.
  pose proof (release_spec h st b q p now (aok_handler h _ Ha0)) as Hpost.
  rewrite Hrel in Hcf, Hpost. destruct answer as [out resp].
  destruct Hcf as (Hafits & Hfit' & _), Hpost as [_ Hpost].
  assert (AuditEntry_in_range
    (entry_of_event (event_of OpReleaseLease (ReleaseLease q) p (out, resp)))) as Hentry
    by by apply entry_in_range.
  assert ((st' = st ∨ st' = LeaseState_prune st now) ∧ (∀ o br, out ≠ OutcomeReleased o br) ∧
      (∀ id t, out ≠ Granted id t) ∨
    (∃ br, out = OutcomeReleased RevokedNow br) ∧
      leases st' = delete (rr_lease_id q) (leases (LeaseState_prune st now)) ∧
      instance (store_issuer st') = instance (store_issuer st) ∧
      issuer (rr_lease_id q) = instance (store_issuer st) ∧
      revoked (store_issuer st') = {[sequence (rr_lease_id q)]} ∪ revoked (store_issuer st)) as Hcase.
  { destruct Hpost as [(_ & -> & _ & -> & _)|(obs & _ & Hpost)]; [left; by auto|].
    destruct Hpost as [(_ & -> & _ & -> & _)|(l & Hl & Hlid & Hpost)]; [left; by auto|].
    destruct Hpost as [(_ & (v & -> & _) & _ & -> & _)|(_ & _ & (br & -> & _) & Hd & _ & Hin & _ & Hr)];
      [left; by auto|]. right. split; [by exists br|]. split; [done|]. split; [done|]. split; [|done].
    apply prune_lookup in Hl as [Hl _]. rewrite <-Hlid.
    by apply (swf_leases _ (hok_store _ _ (aok_handler h _ Ha0)) _ _ Hl). }
  eapply audited_ok_next; [exact Hs|exact Ha|exact Hfit'|by eapply calls_ok_answer|].
  destruct Hcase as [(Hst & Hno & Hng)|((br & ->) & Hl & Hin & Hiss & Hr)].
  - apply store_step_kept; [by apply told_answer|done|exact Hst|]. intros ev [= <-].
    split; [done|]. split; [by intros id (? & ? & ? & _ & _ & ?%Hno)|done].
  - split; cbn [au_agent ag_store ag_clock]; [by apply told_answer|done| | | |].
    + split; [done|]. rewrite Hr. set_solver.
    + intros id l. rewrite Hl. intros [_ [? _]%prune_lookup]%lookup_delete_Some. by left.
    + intros id l Hlk. destruct (decide (time_le (expires_at l) now)); [by right; left|].
      destruct (decide (rr_lease_id q = id)) as [<-|Hne].
      * right; right. eexists. split; [reflexivity|]. by eexists q, _, br.
      * left. rewrite Hl, lookup_delete_ne by done. by apply prune_lookup.
    + intros ev [= <-]. split; [done|]. split; [|by intros id t [=]].
      intros id (q' & o & br' & [= <-] & <- & _). split; [congruence|]. rewrite Hr. set_solver.
Qed.

Lemma audited_ok_step s s' : audited_ok s → audited_step s s' → audited_ok s'.
Proof.
  intros Hs Hstep. assert (agent_ok h (au_agent s')) as Ha.
  { destruct (audited_agent_step _ _ Hstep) as [->|Hag]; [apply Hs|].
    eapply agent_ok_step; [apply Hs|done]. }
  pose proof Hs as [Ha0 Hfit Hcalls _ _ _ _].
  destruct Hstep as [st b now now' gs cs ans k tr Hle
    |st b now gs cs ans k tr i q p l st' Hroom Hi Hans Hp Hb
    |st b now gs cs ans k tr i q p answer st' Hroom Hi Hans Hp Hb
    |st b now gs cs ans k tr i l r b' Hi He|st b now gs cs ans k tr i l Hi
    |st b now gs cs ans k tr i l later q p answer st' Hi Hcs Hf
    |st b now gs cs ans k tr i l r q p answer st' Hi _ Hcs Hf
    |st b now gs cs ans k tr i q p answer st' b' Hi Hans Hp Hid Hrel
    |a cs ans k tr i p Hi Hans Hp|a cs ans k tr i ev at_ Hi Hat|a cs ans k tr i ev at_ Hi];
    cbn [au_agent] in *.
  - eapply (audited_ok_next _ _ None); [exact Hs|exact Ha|done|done|].
    apply store_step_kept; try done; [naive_solver|by left].
  - pose proof (begin_spec h st q p now (aok_handler h _ Ha0) Hroom) as Hspec.
    pose proof (begin_fits h st q p now (aok_handler h _ Ha0) Hroom Hfit) as Hle.
    rewrite Hb in Hspec, Hle. destruct Hspec as [_ (obs & Hauth & Hpost)].
    destruct Hpost as (_ & _ & Horig & _ & _ & _ & _ & Hl & _ & Hin & _ & Hr).
    eapply (audited_ok_next _ _ None); [exact Hs|exact Ha| | |].
    + apply (fits_subset h st); [|done]. cbn. rewrite Hl. apply prune_subseteq.
    + intros j g Hj. cbn in Hj. apply lookup_insert_Some in Hj as [[<- <-]|[Hne Hj]].
      * split; [done|]. split; [done|]. exists q, p, obs. cbn. by rewrite lookup_insert_eq.
      * destruct (Hcalls j g Hj) as (? & ? & ?). cbn in *. by rewrite lookup_insert_ne.
    + split; cbn [au_agent ag_store ag_clock].
      * naive_solver.
      * done.
      * split; [done|by rewrite Hr].
      * intros id l'. rewrite Hl. intros [? _]%prune_lookup. by left.
      * intros id l' Hl'. destruct (decide (time_le (expires_at l') now)); [by right; left|].
        left. rewrite Hl. by apply prune_lookup.
      * done.
  - pose proof (begin_spec h st q p now (aok_handler h _ Ha0) Hroom) as Hspec.
    pose proof (begin_fits h st q p now (aok_handler h _ Ha0) Hroom Hfit) as Hans_fits.
    rewrite Hb in Hspec, Hans_fits. destruct Hspec as [_ Hst], answer as [out resp].
    destruct Hans_fits as [Hafits Hng].
    eapply audited_ok_next; [exact Hs|exact Ha|by eapply fits_kept|by eapply calls_ok_answer|].
    apply store_step_kept; [by apply told_answer|done|exact Hst|]. intros ev [= <-].
    split; [by apply entry_in_range|]. split; [by intros id (? & ? & ? & [=] & _)|exact Hng].
  - eapply (audited_ok_next _ _ None); [exact Hs|exact Ha|done|by eapply calls_ok_advance|].
    apply store_step_kept; try done; [naive_solver|by left].
  - eapply (audited_ok_next _ _ None); [exact Hs|exact Ha|done|by eapply calls_ok_advance|].
    apply store_step_kept; try done; [naive_solver|by left].
  - by eapply (audited_ok_finish _ _ _ _ _ _ _ _ _ (GStamped l later)).
  - by eapply (audited_ok_finish _ _ _ _ _ _ _ _ _ (GEnforced l r)).
  - by eapply audited_ok_release.
  - destruct a as [st b now gs]. cbn in Hi.
    eapply audited_ok_next; [exact Hs|exact Ha|done|by eapply calls_ok_answer|].
    apply store_step_kept; [by apply told_answer|done|by left|]. intros ev [= <-].
    split; [by apply entry_in_range|]. by split; [intros id (? & ? & ? & [=] & _)|].
  - eapply (audited_ok_next _ _ None); [exact Hs|exact Ha|done| |].
    + intros j g Hj. destruct (Hcalls j g Hj) as [? ?]. cbn in *. split; [|done].
      rewrite lookup_insert_ne; [done|]. intros ->. congruence.
    + apply store_step_kept; [by apply told_date|done|by left|done].
  - eapply (audited_ok_next _ _ None); [exact Hs|exact Ha|done| |].
    + intros j g Hj. destruct (Hcalls j g Hj) as [? ?]. cbn in *. split; [|done].
      by apply lookup_delete_None; right.
    + apply store_step_kept; [by apply told_record|done|by left|done].
Qed.

Lemma audited_ok_start st b now k :
  handler_ok h st → reserved st = 0%N → leases st = ∅ →
  (revision (document (handler_policy h)) ≤ u32_max)%N → audited_ok (audited_start st b now k).
Proof.
  intros Hok Hr Hl Hrev.
  assert (∀ ev, ¬ told (audited_start st b now k) ev) as Hno.
  { intros ev [[t Ht%elem_of_nil]|(i & u & Hi & _)]; [done|cbn in Hi; by rewrite lookup_empty in Hi]. }
  split.
  - by apply agent_ok_init.
  - split; [done|]. cbn. rewrite Hl. apply map_Forall_empty.
  - intros i g Hi. cbn in Hi; by rewrite lookup_empty in Hi.
  - by intros ev ?%Hno.
  - by intros ev id ?%Hno.
  - intros id l Hi. cbn in Hi. rewrite Hl in Hi. cbn in Hi; by rewrite lookup_empty in Hi.
  - by intros ev id t ?%Hno.
Qed.

(** ** What the sink was handed *)

Definition append_dated (k : AuditFileSink W C) (d : AuthorizationEvent * WallClockTime) :
    AuditFileSink W C :=
  (AuditFileSink_append_locked k d.2 (entry_of_event d.1)).2.

Record sink_ok (k : AuditFileSink W C) (s : audited) : Prop := mk_sink_ok {
  sok_sink : au_sink s = foldl append_dated k (au_trail s);
  sok_trail : Forall (λ d, WallClockTime_in_range d.2) (au_trail s);
  sok_dated : ∀ i ev at_, au_answers s !! i = Some (Dated ev at_) → WallClockTime_in_range at_
}.

Lemma sink_ok_step k s s' : sink_ok k s → audited_step s s' → sink_ok k s'.
Proof.
  intros [Hk Ht Hd] Hstep.
  assert (∀ a cs ans tr i ev, (∀ j ev at_, ans !! j = Some (Dated ev at_) → WallClockTime_in_range at_) →
    au_sink s = foldl append_dated k tr → Forall (λ d, WallClockTime_in_range d.2) tr →
    sink_ok k (mk_audited a cs (<[i := Unrecorded ev]> ans) (au_sink s) tr)) as Hanswer.
  { intros a cs ans tr i ev Hans Hs Htr. split; [done..|]. intros j ev' t. cbn.
    intros [[_ [=]]|[_ Hj]]%lookup_insert_Some. by eapply Hans. }
  destruct Hstep; cbn in *; try done; try by apply Hanswer.
  - split; [done..|]. intros j ev' t. cbn. intros [[_ [= _ <-]]|[_ Hj]]%lookup_insert_Some; [done|].
    by eapply Hd.
  - split; cbn.
    + by rewrite foldl_app, <-Hk.
    + apply Forall_app. split; [done|]. apply Forall_singleton. by eapply Hd.
    + intros j ev' t [_ Hj]%lookup_delete_Some. by eapply Hd.
Qed.

Lemma audited_reach st b now k s :
  handler_ok h st → reserved st = 0%N → leases st = ∅ →
  (revision (document (handler_policy h)) ≤ u32_max)%N →
  rtc audited_step (audited_start st b now k) s → audited_ok s ∧ sink_ok k s.
Proof.
  intros Hok Hr Hl Hrev Hreach.
  assert (audited_ok (audited_start st b now k)) as Ha by by apply audited_ok_start.
  assert (sink_ok k (audited_start st b now k)) as Hs.
  { split; [done|by constructor|]. intros i ev t Hi. cbn in Hi; by rewrite lookup_empty in Hi. }
  induction Hreach; [done|]. apply IHHreach; [by eapply audited_ok_step|by eapply sink_ok_step].
Qed.

End trail.

(** ** The log of dated events

    The events the sink was handed, with the times read for them, are what one thread
    would have appended with a clock that gives those times. *)

#[local] Instance WallClockTime_in_range_dec t : Decision (WallClockTime_in_range t).
Proof. unfold WallClockTime_in_range. apply _. Defined.

#[local] Instance scripted_clock : AuditClock (list WallClockTime) := {
  audit_now c :=
    match c with
    | t :: c => (if decide (WallClockTime_in_range t) then t else mk_WallClockTime 0 0, c)
    | [] => (mk_WallClockTime 0 0, [])
    end
}.

Lemma scripted_in_range (c : list WallClockTime) : WallClockTime_in_range (audit_now c).1.
Proof.
  assert (WallClockTime_in_range (mk_WallClockTime 0 0)) as H0 by by apply (bool_decide_unpack _).
  destruct c as [|t c]; [exact H0|]. cbn. by case_decide.
Qed.

Section log.
Context {C : Type} `{SerdeJsonText} (Hlaws : SerdeJsonLaws) (Htext : SerdeJsonTextLaws).

Definition scripted (k : AuditFileSink LogFile C) (c : list WallClockTime) :
    AuditFileSink LogFile (list WallClockTime) :=
  mk_AuditFileSink (writer k) (sink_next_sequence k) (sink_instance k) (failed_writes k) c.

Lemma append_dated_scripted tr : ∀ k : AuditFileSink LogFile C,
  Forall (λ d, WallClockTime_in_range d.2) tr →
  let k' := (append_all (scripted k tr.*2) (entry_of_event <$> tr.*1)).2 in
  writer (foldl append_dated k tr) = writer k' ∧
  failed_writes (foldl append_dated k tr) = failed_writes k'.
Proof.
  induction tr as [|[ev t] tr IH]; intros k Hr; [done|]. apply Forall_cons in Hr as [Ht Hr].
  cbn [fmap list_fmap append_all foldl fst snd]. unfold AuditFileSink_append. cbn [clock scripted].
  cbn [audit_now scripted_clock]. rewrite decide_True by done.
  unfold append_dated at 2 4. cbn [fst snd]. specialize (IH (AuditFileSink_append_locked k t
    (entry_of_event ev)).2 Hr). revert IH. unfold AuditFileSink_append_locked, scripted.
  cbn [writer sink_next_sequence sink_instance failed_writes clock].
  destruct (AuditFileSink_write_line _ _) as [res w]. cbn. intros [-> ->]. by destruct (append_all _ _).
Qed.

Lemma count_err_0 rs : count_err rs = 0%N → Forall (λ r, ∃ id, r = Ok id) rs.
Proof.
  induction rs as [|[id|e] rs IH]; cbn; [by constructor| |lia].
  intros Hz. constructor; [by eexists|by apply IH].
Qed.

Lemma appended_all i n es rs kept :
  appended i n es rs kept → Forall (λ r, ∃ id, r = Ok id) rs →
  Forall2 (λ e r, ∃ id at_, r = record_of_entry id at_ e) es kept.
Proof.
  induction 1; intros Hrs; [constructor|..]; apply Forall_cons in Hrs as [Hr Hrs].
  - constructor; [by eexists _, _|by apply IHappended].
  - by destruct Hr.
Qed.

(** When no write failed, the log reads back as the records of exactly those events. *)
Lemma log_of_dated i (c : C) p tr path :
  clean p → Forall (λ d, WallClockTime_in_range d.2) tr →
  Forall (λ d, AuditEntry_in_range (entry_of_event d.1)) tr → (len_N tr ≤ u64_max)%N →
  let k := foldl append_dated (AuditFileSink_from_writer (mk_LogFile "" p) i c) tr in
  failed_writes k = 0%N →
  ∃ scan, read_log (λ _, file_text (contents (writer k))) path = Ok scan ∧
    Forall2 (λ d r, ∃ id at_, r = record_of_entry id at_ (entry_of_event d.1)) tr (records scan).
Proof.
  intros Hclean Hdates Hes Hlen k Hfail.
  destruct (append_dated_scripted tr (AuditFileSink_from_writer (mk_LogFile "" p) i c) Hdates)
    as [Hw Hf]. fold k in Hw, Hf. rewrite Hw. rewrite Hf in Hfail.
  change (scripted _ _) with (AuditFileSink_from_writer (mk_LogFile "" p) i tr.*2) in Hfail |- *.
  destruct (append_all _ (entry_of_event <$> tr.*1)) as [rs self] eqn:Happ.
  destruct (explain_tells_what_happened i tr.*2 p (entry_of_event <$> tr.*1) path rs self
    (audit_json_laws Hlaws Htext) scripted_in_range Hclean) as (scan & Hread & Hap & _ & Hcount & _).
  - by rewrite <-list_fmap_compose, Forall_fmap.
  - unfold len_N in *. by rewrite !length_fmap.
  - done.
  - exists scan. split; [done|]. cbn [snd] in Hfail. rewrite Hcount in Hfail.
    pose proof (appended_all _ _ _ _ _ Hap (count_err_0 _ Hfail)) as Hall.
    by rewrite <-list_fmap_compose, Forall2_fmap_l in Hall.
Qed.

End log.

(** ** Property *)

(** What a record says of a lease. *)
Definition shows_grant (r : AuditRecord) (l : ComputeLease) : Prop :=
  rec_outcome r = RoGranted (lease_id l) (expires_at l) ∧
  requested r = RreqRequestLease (resource (request (origin l))) (action (request (origin l))) ∧
  rec_observed (rec_peer r) = context (origin l).

Definition shows_release (r : AuditRecord) (id : LeaseId) : Prop :=
  requested r = RreqReleaseLease id ∧ ∃ o br, rec_outcome r = RoReleased o br.

Section record_of_event.
Context (id : AuditEventId) (at_ : WallClockTime) (ev : AuthorizationEvent).

Let r : AuditRecord := record_of_entry id at_ (entry_of_event ev).

Lemma record_shows_grant l : grants_lease ev l → shows_grant r l.
Proof.
  intros [Ho (q & obs & Hq & [_ Hobs]%authorizable_Some & Horig)]. unfold shows_grant.
  rewrite Horig. cbn. by rewrite Ho, Hq, Hobs.
Qed.

Lemma record_grants lid t : rec_outcome r = RoGranted lid t ↔ outcome ev = Granted lid t.
Proof.
  cbn. split; [|by intros ->]. intros Ho. apply (inj recorded_outcome). by rewrite Ho.
Qed.

Lemma record_shows_release lid : shows_release r lid ↔ releases ev lid.
Proof.
  unfold shows_release, releases. cbn. split.
  - intros [Hq (o & br & Ho)]. assert (outcome ev = OutcomeReleased o br) as Hout.
    { apply (inj recorded_outcome). by rewrite Ho. }
    destruct (ev_request ev) as [|q|]; [done| |done]. injection Hq as Hq. by exists q, o, br.
  - intros (q & o & br & -> & <- & ->). split; [done|]. by exists o, br.
Qed.

End record_of_event.

Section property.
Context {B C : Type} `{ComputeBackend B} `{SerdeJsonText}.
Context (Hlaws : SerdeJsonLaws) (Htext : SerdeJsonTextLaws) (h : AuthorizationHandler).

(** C10: the log alone says which leases are live.  The agent starts with no lease and a
    fresh sink, and serves any number of requests at once.  Whenever no answer is
    unrecorded and no write has failed, the log reads back; every stored lease has a
    record that shows its grant with its expiry, the resource and action, and the peer
    as observed that it is bound to, and no record that shows its release; and
    conversely a lease of which the log shows the grant, no release, and an expiry still
    to come is stored and expires then. *)
Theorem log_shows_live_leases (i : IssuerInstanceId) (clk : C) (p : list (option nat))
    (path : string) (st : LeaseState) (b : B) (now : MonotonicTime) (s : audited (W := LogFile))
    (Hok : handler_ok h st) (Hres : reserved st = 0%N) (Hnone : leases st = ∅)
    (Hrev : (revision (document (handler_policy h)) ≤ u32_max)%N) (Hclean : clean p)
    (Hreach : rtc (audited_step h)
      (audited_start st b now (AuditFileSink_from_writer (mk_LogFile "" p) i clk)) s)
    (Hquiet : au_answers s = ∅) (Hwritten : failed_writes (au_sink s) = 0%N)
    (Hlen : (len_N (au_trail s) ≤ u64_max)%N) :
  let live := leases (ag_store (au_agent s)) in
  ∃ scan, read_log (λ _, file_text (contents (writer (au_sink s)))) path = Ok scan ∧
    (∀ id l, live !! id = Some l →
       (∃ r, r ∈ records scan ∧ lease_id l = id ∧ shows_grant r l) ∧
       ∀ r, r ∈ records scan → ¬ shows_release r id) ∧
    ∀ id r t, r ∈ records scan → rec_outcome r = RoGranted id t →
      (∀ r', r' ∈ records scan → ¬ shows_release r' id) →
      ¬ time_le t (ag_clock (au_agent s)) →
      ∃ l, live !! id = Some l ∧ expires_at l = t.
Proof.
  destruct (audited_reach h st b now _ s Hok Hres Hnone Hrev Hreach)
    as [[Ha _ _ Hent Hrelsd Hstored Hgranted] [Hsink Hdates _]].
  assert (∀ ev, told s ev ↔ ∃ t, (ev, t) ∈ au_trail s) as Htold.
  { intros ev. unfold told. rewrite Hquiet. split; [|by left].
    intros [?|(j & u & Hj & _)]; [done|]. by rewrite lookup_empty in Hj. }
  assert (Forall (λ d, AuditEntry_in_range (entry_of_event d.1)) (au_trail s)) as Hes.
  { apply Forall_forall. intros [ev t] Hd. apply Hent, Htold. by exists t. }
  rewrite Hsink in Hwritten |- *.
  destruct (log_of_dated Hlaws Htext i clk p (au_trail s) path Hclean Hdates Hes Hlen Hwritten)
    as (scan & Hread & Hall).
  assert (∀ ev, told s ev → ∃ r, r ∈ records scan ∧
    ∃ id at_, r = record_of_entry id at_ (entry_of_event ev)) as Hrec.
  { intros ev [t Hd]%Htold. apply list_elem_of_lookup in Hd as [k Hk].
    destruct (Forall2_lookup_l _ _ _ _ _ Hall Hk) as (r & Hr & Heq).
    exists r. split; [by eapply list_elem_of_lookup_2|done]. }
  assert (∀ r, r ∈ records scan → ∃ ev id at_, told s ev ∧
    r = record_of_entry id at_ (entry_of_event ev)) as Hev.
  { intros r [k Hk]%list_elem_of_lookup.
    destruct (Forall2_lookup_r _ _ _ _ _ Hall Hk) as ([ev t] & Hd & id & at_ & ->).
    exists ev, id, at_. split; [|done]. apply Htold. exists t. by eapply list_elem_of_lookup_2. }
  intros live. exists scan. split; [done|]. split.
  - intros id l Hl. destruct (swf_leases _ (hok_store _ _ (aok_handler h _ Ha)) _ _ Hl)
      as [Hid (_ & _ & Hnr)]. split.
    + destruct (Hstored id l Hl) as (ev & Htev & Hg). destruct (Hrec ev Htev) as (r & Hr & e & t & ->).
      eexists. split; [exact Hr|]. split; [done|]. by apply record_shows_grant.
    + intros r (ev & e & t & Htev & ->)%Hev Hrel%record_shows_release.
      apply Hnr. rewrite Hid. by eapply Hrelsd.
  - intros id r t (ev & e & t' & Htev & ->)%Hev Hg%record_grants Hno Hlater.
    destruct (Hgranted ev id t Htev Hg) as [?|[(ev' & Htev' & Hrel)|?]]; [done| |done].
    destruct (Hrec ev' Htev') as (r' & Hr' & e' & t1 & ->). destruct (Hno _ Hr').
    by apply record_shows_release.
Qed.

End property.

(** ** Witness *)

#[local] Existing Instance Reference.serde.
#[local] Existing Instance TextReference.text.
Import Fake.

(** One grant, carried out and recorded. *)
Definition trail_sink : AuditFileSink LogFile () :=
  AuditFileSink_from_writer (mk_LogFile "" []) TwoRecords.log_instance ().
Definition trail_call : gmap nat (LeaseRequest * PeerContext) :=
  <[0 := (sample_lease_request, sample_peer)]> ∅.
Definition trail_event : AuthorizationEvent :=
  event_of OpRequestLease (RequestLease sample_lease_request) sample_peer
    (finish_request_lease (race_request sample_store) (race_lease 0) (Ok Allowed) (at_time 5)).1.
Definition trail_backend : FakeBackend := (enforce sample_backend sample_request).2.
Definition trail_issued : gmap nat grant := <[0 := GIssued (race_lease 0)]> ∅.
Definition trail_enforced : gmap nat grant :=
  <[0 := GEnforced (race_lease 0) (Ok Allowed)]> trail_issued.
Definition trail_stamped : gmap nat grant :=
  <[0 := GStamped (race_lease 0) (at_time 5)]> trail_enforced.
Definition trail_end : audited (W := LogFile) (C := ()) :=
  mk_audited (mk_agent race_st2 trail_backend (at_time 5) (delete 0 trail_stamped))
    (delete 0 trail_call)
    (delete 0 (<[0 := Dated trail_event TwoRecords.at_zero]> (<[0 := Unrecorded trail_event]> ∅)))
    (append_dated trail_sink (trail_event, TwoRecords.at_zero))
    ([] ++ [(trail_event, TwoRecords.at_zero)]).

Lemma trail_run :
  rtc (audited_step sample_handler)
    (audited_start sample_store sample_backend (at_time 5) trail_sink) trail_end.
Proof.
  eapply rtc_l.
  { eapply (au_begin _ _ _ _ _ _ _ _ _ 0 sample_lease_request sample_peer (race_lease 0)
      (race_request sample_store)); [done|done|done| |by vm_compute].
    unfold PeerContext_in_range, RecordedPeer_in_range, WorkloadIdentity_in_range.
    split_and!; first [by apply Forall_nil_2|by vm_compute]. }
  eapply rtc_l; [eapply (au_enforce _ _ _ _ _ _ _ _ _ 0 (race_lease 0) (Ok Allowed) trail_backend);
    by vm_compute|].
  eapply rtc_l; [eapply (au_stamp _ _ _ _ _ _ _ _ _ 0 (race_lease 0)); by vm_compute|].
  eapply rtc_l.
  { eapply (au_settle _ _ _ _ _ _ _ _ _ 0 (race_lease 0) (at_time 5) sample_lease_request sample_peer
      (finish_request_lease (race_request sample_store) (race_lease 0) (Ok Allowed) (at_time 5)).1
      race_st2); [done|done|by apply surjective_pairing]. }
  eapply rtc_l; [apply (au_date _ _ _ _ _ _ 0 trail_event TwoRecords.at_zero);
    [done|apply TwoRecords.at_zero_in_range]|].
  apply rtc_once. by apply (au_record _ _ _ _ _ _ 0 trail_event TwoRecords.at_zero).
Qed.

Lemma log_shows_live_leases_witness :
  ∃ scan r, read_log (λ _, file_text (contents (writer (au_sink trail_end)))) "audit.log" = Ok scan ∧
    r ∈ records scan ∧ shows_grant r (race_lease 0).
Proof.
  destruct (log_shows_live_leases Reference.serde_laws TextReference.text_laws sample_handler
    TwoRecords.log_instance () [] "audit.log" sample_store sample_backend (at_time 5) trail_end)
    as (scan & Hread & Hlive & _).
  - apply sample_handler_ok.
  - done.
  - done.
  - by vm_compute.
  - by intros k ?%elem_of_nil.
  - exact trail_run.
  - by vm_compute.
  - by vm_compute.
  - by vm_compute.
  - destruct (Hlive (mk_LeaseId sample_instance 0) (race_lease 0)) as [(r & Hr & _ & Hg) _];
      [by vm_compute|]. exists scan, r. exact (conj Hread (conj Hr Hg)).
Defined.
