(* ===== verification/Client.v ===== *)
(** * The client's side of an exchange

    Models [crates/eltanin-cli/src/client.rs]: resolving the socket path and one
    request-response exchange over a fresh connection.  What a connection does is
    a class of operations; an instance puts [Connection.serve_connection] at its
    other end, so that the two sides are composed.  A [reason] text that only
    displays an error of this workspace is kept as that error. *)

From Stdlib Require Import Strings.Byte.
From S2P Require Import Prelude Resource Identity Policy PolicySpec Lease.
From S2P Require Import Peer Backend Protocol LeaseStore Authz AuthzSpec Connection.

(** ** Errors *)

Inductive ClientError : Type :=
  | SocketPathNotUtf8
  | Connect (path : string) (why : string)
  | ClientIo (why : string)
  | ClientFraming (e : FramingError)
  | ClientProtocol (e : ProtocolError)
  | RequestIdMismatch (want : RequestId) (got : option RequestId).

#[export] Instance ClientError_eq_dec : EqDecision ClientError.
Proof. solve_decision. Defined.

(** ** Connecting *)

(** The path on every target but macOS. *)
Definition DEFAULT_SOCKET_PATH : string := "/run/eltanin/agent.sock".

Record AgentClient : Type := mk_AgentClient { socket_path : string }.

(** The value of [ELTANIN_AGENT_SOCKET]: unset, not Unicode, or a text. *)
Definition AgentClient_from_env (var : option (result string ())) :
    result AgentClient ClientError :=
  match var with
  | None => Ok (mk_AgentClient DEFAULT_SOCKET_PATH)
  | Some path =>
      let? path := map_err (λ _, SocketPathNotUtf8) path in
      Ok (mk_AgentClient path)
  end.

(** What a client does with a socket: connect it, set both timeouts, write and
    flush a frame.  The bytes that come back are read from the stream of the
    last operation. *)
Class Transport (T : Type) : Type := {
  tr_connect : T → string → result () string * T;
  tr_set_timeouts : T → result () string * T;
  tr_write : T → list byte → result stream string * T
}.

(** [NEXT_REQUEST_ID.fetch_add(1)]. *)
Definition next_request_id (next : N) : RequestId * N :=
  (mk_RequestId next, u64_wrapping_add next 1).

(** [Read::read_exact]: interrupted reads are retried, the end of the stream
    before the buffer is full is an error. *)
Definition read_exact (s : stream) (len : nat) : result (list byte * stream) ClientError :=
  match read_full s len with
  | (ReadOk Complete, got, s) => Ok (got, s)
  | (ReadOk _, _, _) => Err (ClientIo "failed to fill whole buffer")
  | (ReadErr, _, _) => Err (ClientIo "read failed")
  end.

Section exchange.
Context `{WireCodec} {T : Type} `{Transport T}.

(** [exchange] from the reply's first byte on. *)
Definition read_reply (id : RequestId) (s : stream) : result AgentResponse ClientError :=
  let? (header, s) := read_exact s 4 in
  match header with
  | [b0; b1; b2; b3] =>
      let? len := map_err ClientFraming (decode_frame_len (b0, b1, b2, b3)) in
      let? (body, _) := read_exact s (N.to_nat len) in
      let? reply := map_err ClientProtocol (decode_response body) in
      if decide (resp_id (payload reply) ≠ Some id) then
        Err (RequestIdMismatch id (resp_id (payload reply)))
      else Ok (resp_body (payload reply))
  | _ => Err (ClientIo "failed to fill whole buffer")
  end.

(** [next] is the process-wide request counter. *)
Definition AgentClient_exchange (self : AgentClient) (next : N) (t : T) (rq : ClientRequest) :
    result AgentResponse ClientError * N * T :=
  let '(id, next) := next_request_id next in
  match encode_request (Versioned_current (mk_RequestBody id rq)) with
  | Err e => (Err (ClientFraming e), next, t)
  | Ok framed =>
      let '(r, t) := tr_connect t (socket_path self) in
      match r with
      | Err why => (Err (Connect (socket_path self) why), next, t)
      | Ok _ =>
          let '(r, t) := tr_set_timeouts t in
          match r with
          | Err why => (Err (ClientIo why), next, t)
          | Ok _ =>
              let '(r, t) := tr_write t framed in
              match r with
              | Err why => (Err (ClientIo why), next, t)
              | Ok s => (read_reply id s, next, t)
              end
          end
      end
  end.

End exchange.

(** ** An agent at the other end *)

(** A network between the two: how it cuts a frame into read events. *)
Class Network : Type := { deliver : list byte → list (Duration * read_event) }.

Class NetworkLaws `{Network} : Prop := {
  deliver_data bs : events_data (deliver bs) = bs;
  deliver_flowing bs : flowing_events (deliver bs)
}.

Record agent_link (S : Type) : Type := mk_agent_link {
  link_state : S;
  link_peer : PeerContext
}.
Arguments mk_agent_link {S}.
Arguments link_state {S}.
Arguments link_peer {S}.

(** Every connection is served by [serve_connection]; when it sends nothing the
    client reads the end of the stream. *)
#[export] Instance agent_link_transport `{WireCodec, Network} {S} `{RequestHandler S} :
    Transport (agent_link S) := {
  tr_connect t _ := (Ok (), t);
  tr_set_timeouts t := (Ok (), t);
  tr_write t frame :=
    let r := serve_connection (mk_stream 0 (deliver frame)) true (Ok (link_peer t)) (link_state t) in
    (Ok (mk_stream 0 (match sent r with Some g => deliver g | None => [] end)),
     mk_agent_link (handler_state r) (link_peer t))
}.

(** ** Lemmas *)

Lemma read_exact_flowing s pre post :
  flowing s → stream_data s = pre ++ post →
  ∃ s', read_exact s (length pre) = Ok (pre, s') ∧ stream_data s' = post ∧ flowing s'.
Proof.
  intros Hfl Hd. destruct (read_full_flowing s pre post Hfl Hd) as (s' & Hr & Hs).
  exists s'. unfold read_exact. by rewrite Hr.
Qed.

Section reply.
Context `{WireCodec}.

Lemma read_reply_flowing (Hlaws : WireCodecLaws) id s reply g post :
  Response_in_range (Versioned_current reply) →
  encode_response (Versioned_current reply) = Ok g → flowing s → stream_data s = g ++ post →
  read_reply id s =
    if decide (resp_id reply = Some id) then Ok (resp_body reply)
    else Err (RequestIdMismatch id (resp_id reply)).
Proof.
  intros Hrange [Hmax ->]%encode_frame_Ok Hfl. rewrite <-app_assoc. intros Hd.
  destruct (read_exact_flowing s _ _ Hfl Hd) as (s1 & H1 & Hd1 & Hfl1).
  unfold read_reply. change 4 with (length (u32_to_be_bytes (len_N (response_to_json (Versioned_current reply))))).
  rewrite H1. cbn [result_bind u32_to_be_bytes]. unfold decode_frame_len.
  rewrite u32_from_to_be by (unfold MAX_FRAME_BYTES, u32_max in *; lia).
  rewrite decide_False by lia. cbn [map_err result_bind]. unfold len_N at 1. rewrite Nat2N.id.
  destruct (read_exact_flowing s1 _ _ Hfl1 Hd1) as (s2 & H2 & _). rewrite H2. cbn [result_bind].
  unfold decode_response, peek_version. rewrite decide_False by lia.
  rewrite json_response_version by done. cbn [ok_or result_bind]. rewrite decide_False by (by intros []).
  rewrite json_response_roundtrip by done. cbn [ok_or map_err result_bind payload].
  repeat case_decide; done.
Qed.

Lemma read_exact_exact s n got s' :
  read_exact s n = Ok (got, s') → stream_data s = got ++ stream_data s' ∧ length got = n.
Proof.
  unfold read_exact. destruct (read_full s n) as [[[[]|] got'] s''] eqn:Hr; [|done..].
  intros [= -> ->]. apply read_full_exact in Hr as (Hd & _ & Hc & _). split; [done|]. by apply Hc.
Qed.

(** Whatever comes back, an accepted answer was framed, of this version and
    under the id that was asked. *)
Lemma read_reply_Ok id s a :
  read_reply id s = Ok a →
  ∃ body frame post reply, stream_data s = frame ++ post ∧ encode_frame body = Ok frame ∧
    decode_response body = Ok reply ∧ payload reply = mk_ResponseBody (Some id) a.
Proof.
  unfold read_reply. intros ([header s1] & Hh & Hr)%result_bind_Ok.
  apply read_exact_exact in Hh as [Hd Hl].
  do 4 (destruct header as [|? header]; [done|]). destruct header; [|done].
  apply result_bind_Ok in Hr as (len & Hlen & Hr).
  apply result_bind_Ok in Hr as ([body s2] & Hb & Hr).
  apply result_bind_Ok in Hr as (reply & Hdec & Hr).
  case_decide as Hid; [done|]. injection Hr as <-.
  unfold decode_frame_len in Hlen. case_decide; [done|]. cbn in Hlen. injection Hlen as <-.
  apply read_exact_exact in Hb as [Hd2 Hl2].
  exists body, (u32_to_be_bytes (len_N body) ++ body), (stream_data s2), reply.
  assert (len_N body = u32_from_be_bytes b b0 b1 b2) as Hlen by (unfold len_N; by rewrite Hl2, N2Nat.id).
  split_and!.
  - by rewrite Hlen, u32_to_from_be, Hd, Hd2, <-app_assoc.
  - apply encode_frame_Ok. rewrite Hlen. split; [lia|done].
  - by destruct (decode_response body); simplify_eq/=.
  - destruct (payload reply) as [i a]; cbn in *. f_equal. destruct (decide (i = Some id)); done.
Qed.

End reply.

(** ** Properties *)

Section client_properties.
Context `{WireCodec} {S : Type} `{RequestHandler S} `{Network}.

(** C16: client and agent agree.  Against an agent that serves each connection
    with [serve_connection], over a network that cuts the bytes anywhere, an
    exchange whose two frames fit returns exactly what the handler answered to
    this very request from this peer ([Internal] if it panicked), having called
    it once; and whatever is at the other end, an answer is accepted only from a
    whole frame of this protocol version that carries the id just asked. *)
Theorem exchange_agrees (Hlaws : WireCodecLaws) (Hnet : NetworkLaws) (client : AgentClient)
    (next : N) (agent : agent_link S) (rq : ClientRequest) (f g : list byte) (s : stream)
    (a : AgentResponse) :
  let id := mk_RequestId next in
  let call := handler_handle (link_state agent) rq (link_peer agent) in
  let answer := default (ErrorResponse CodeInternal) call.1 in
  ((next ≤ u64_max)%N → ClientRequest_in_range rq → AgentResponse_in_range answer →
   encode_request (Versioned_current (mk_RequestBody id rq)) = Ok f →
   encode_response (Versioned_current (mk_ResponseBody (Some id) answer)) = Ok g →
   AgentClient_exchange client next agent rq =
     (Ok answer, u64_wrapping_add next 1, mk_agent_link call.2 (link_peer agent))) ∧
  (read_reply id s = Ok a →
   ∃ body frame post reply, stream_data s = frame ++ post ∧ encode_frame body = Ok frame ∧
     decode_response body = Ok reply ∧
     peek_version body = Some DOMAIN_SCHEMA_VERSION ∧
     payload reply = mk_ResponseBody (Some id) a).
Proof.
  intros id call answer. split.
  - intros Hnext Hrq Hans Hf Hg. unfold AgentClient_exchange. cbn [next_request_id fst snd]. fold id.
    rewrite Hf. cbn [tr_connect tr_set_timeouts tr_write agent_link_transport].
    destruct (serve_connection_exchange Hlaws (mk_stream 0 (deliver f)) (link_peer agent)
      (link_state agent) (Versioned_current (mk_RequestBody id rq)) f g []) as (Hs & Hc & _ & Hst & _).
    + by split.
    + exact Hans.
    + done.
    + apply deliver_flowing.
    + unfold stream_data. cbn [events]. by rewrite deliver_data, app_nil_r.
    + done.
    + rewrite Hs, Hst, (read_reply_flowing Hlaws id _ (mk_ResponseBody (Some id) answer) g []).
      * cbn [resp_id resp_body]. by rewrite decide_True.
      * by split; [|split].
      * done.
      * apply deliver_flowing.
      * unfold stream_data. cbn [events]. by rewrite deliver_data, app_nil_r.
  - intros Hr. pose proof (read_reply_Ok _ _ _ Hr) as (body & frame & post & reply & ? & ? & Hd & ?).
    exists body, frame, post, reply. split_and!; try done.
    unfold decode_response in Hd. case_decide; [done|].
    destruct (peek_version body) as [v|]; [|done]. cbn in Hd. case_decide as Hv; [done|]. f_equal.
    destruct (decide (v = DOMAIN_SCHEMA_VERSION)); done.
Qed.

End client_properties.

(** ** Witness *)

Import Fake.

(** A network that delivers one byte at a time. *)
#[export] Instance byte_network : Network := { deliver bs := drip_events 1 bs }.

#[export] Instance byte_network_laws : NetworkLaws.
Proof.
  split; intros bs.
  - induction bs as [|b bs IH]; [done|]. cbn [deliver byte_network drip_events fmap list_fmap] in *.
    rewrite events_data_cons. cbn [app]. f_equal. exact IH.
  - apply Forall_fmap, Forall_true. done.
Qed.

Definition sample_link : agent_link (agent_world FakeBackend ()) :=
  mk_agent_link sample_agent sample_peer.

(** The client of a real agent asks for a lease and reads that it was granted. *)
Lemma exchange_agrees_witness :
  ∃ agent', @AgentClient_exchange BitCodec.codec _ (@agent_link_transport BitCodec.codec _ _ _)
    (mk_AgentClient DEFAULT_SOCKET_PATH) 7 sample_link (RequestLease sample_lease_request) =
  (Ok (LeaseGranted (mk_LeaseView (mk_LeaseId sample_instance 0) 299)), 8%N, agent').
Proof.
  eexists.
  rewrite (proj1 (@exchange_agrees BitCodec.codec _ _ byte_network BitCodec.codec_laws byte_network_laws
    (mk_AgentClient DEFAULT_SOCKET_PATH) 7 sample_link (RequestLease sample_lease_request)
    sample_ask_frame (framed (@response_to_json BitCodec.codec sample_granted_reply))
    (mk_stream 0 []) (ErrorResponse CodeInternal))).
  - reflexivity.
  - by vm_compute.
  - done.
  - by vm_compute.
  - by vm_compute.
  - by vm_compute.
Defined.
