(* ===== verification/Cli.v ===== *)
(** * The command line of [eltanin run]

    Models the parts of [crates/eltanin-cli/src] that decide before and after a
    launch: the argv grammar ([args.rs]), profile names and documents
    ([profile.rs]), the exit codes ([exit.rs]) and the failure taxonomy
    ([failure.rs]).  An [OsString] is its bytes, as on Unix.  Texts that only
    display an error are kept as that error; [Failure] gives them. *)

From Stdlib Require Import Strings.Byte.
From S2P Require Import Prelude Resource Identity Policy PolicySpec Lease.
From S2P Require Import Protocol Client.

(** ** Byte strings *)

Abbreviation OsString := (list byte) (only parsing).

#[export] Instance byte_eq_decision : EqDecision byte := Byte.byte_eq_dec.

(** The bytes of an ASCII literal. *)
Definition os (s : string) : OsString := String.list_byte_of_string s.

Definition byte_in (lo hi : N) (b : byte) : bool :=
  bool_decide (lo ≤ Byte.to_N b)%N && bool_decide (Byte.to_N b ≤ hi)%N.

Definition continuation (b : byte) : bool := byte_in 128 191 b.

(** [OsStr::to_str]: the scalar values of a well-formed UTF-8 sequence. *)
Fixpoint to_str (bs : OsString) : option (list N) :=
  match bs with
  | [] => Some []
  | b0 :: r0 =>
      if byte_in 0 127 b0 then cons (Byte.to_N b0) <$> to_str r0
      else
        match r0 with
        | [] => None
        | b1 :: r1 =>
            if byte_in 194 223 b0 && continuation b1 then
              cons ((Byte.to_N b0 - 192) * 64 + (Byte.to_N b1 - 128))%N <$> to_str r1
            else
              match r1 with
              | [] => None
              | b2 :: r2 =>
                  if (byte_in 224 224 b0 && byte_in 160 191 b1 || byte_in 225 236 b0 && continuation b1
                      || byte_in 237 237 b0 && byte_in 128 159 b1
                      || byte_in 238 239 b0 && continuation b1) && continuation b2 then
                    cons (((Byte.to_N b0 - 224) * 64 + (Byte.to_N b1 - 128)) * 64
                          + (Byte.to_N b2 - 128))%N <$> to_str r2
                  else
                    match r2 with
                    | [] => None
                    | b3 :: r3 =>
                        if (byte_in 240 240 b0 && byte_in 144 191 b1
                            || byte_in 241 243 b0 && continuation b1
                            || byte_in 244 244 b0 && byte_in 128 143 b1)
                           && continuation b2 && continuation b3 then
                          cons ((((Byte.to_N b0 - 240) * 64 + (Byte.to_N b1 - 128)) * 64
                                 + (Byte.to_N b2 - 128)) * 64 + (Byte.to_N b3 - 128))%N
                            <$> to_str r3
                        else None
                    end
              end
        end
  end.

(** [char::is_control]: the general category Cc. *)
Definition is_control (c : N) : bool :=
  bool_decide (c < 32)%N || (bool_decide (127 ≤ c)%N && bool_decide (c < 160)%N).

(** ** Profiles (profile.rs) *)

Definition MAX_PROFILE_NAME_LEN : nat := 64.

Record ProfileName : Type := mk_ProfileName { name_bytes : OsString }.

#[export] Instance ProfileName_eq_dec : EqDecision ProfileName.
Proof. solve_decision. Defined.

Inductive ProfileNameError : Type :=
  | NameEmpty
  | NameContainsSlash
  | NamePathTraversal
  | NameTooLong (len : nat)
  | NameNotUtf8
  | NameContainsControlCharacter.

#[export] Instance ProfileNameError_eq_dec : EqDecision ProfileNameError.
Proof. solve_decision. Defined.

Definition ProfileName_parse (raw : OsString) : result ProfileName ProfileNameError :=
  match to_str raw with
  | None => Err NameNotUtf8
  | Some chars =>
      if decide (raw = []) then Err NameEmpty
      else if decide (MAX_PROFILE_NAME_LEN < length raw) then Err (NameTooLong (length raw))
      else if decide (47%N ∈ chars) then Err NameContainsSlash
      else if decide (raw = os "." ∨ raw = os "..") then Err NamePathTraversal
      else if existsb is_control chars then Err NameContainsControlCharacter
      else Ok (mk_ProfileName raw)
  end.

Record ProfileDocument : Type := mk_ProfileDocument {
  profile_resource : ResourceIdentity;
  profile_action : Action
}.

Inductive ProfileLoadError : Type :=
  | NoSearchDir
  | ProfileNotFound (name : ProfileName) (path : OsString)
  | ProfileIo (path : OsString) (why : string)
  | ProfileJson (path : OsString) (why : string)
  | ProfileVersion (path : OsString) (source : UnsupportedVersion).

(** [Path::join]. *)
Definition path_join (dir rest : OsString) : OsString :=
  if decide (head rest = Some x2f) then rest
  else if decide (dir = [] ∨ last dir = Some x2f) then dir ++ rest
  else dir ++ os "/" ++ rest.

(** The three environment variables, each unset or a value. *)
Definition profile_dir (eltanin_profile_dir xdg_config_home home : option OsString) :
    result OsString ProfileLoadError :=
  match eltanin_profile_dir, xdg_config_home, home with
  | Some dir, _, _ => Ok dir
  | None, Some xdg, _ => Ok (path_join (path_join xdg (os "eltanin")) (os "profiles"))
  | None, None, Some home =>
      Ok (path_join (path_join (path_join home (os ".config")) (os "eltanin")) (os "profiles"))
  | None, None, None => Err NoSearchDir
  end.

Inductive read_error : Type :=
  | FileNotFound
  | FileIo (why : string).

Definition profile_path (dir : OsString) (name : ProfileName) : OsString :=
  path_join dir (name_bytes name ++ os ".json").

Section load.
(** [read_to_string] and [serde_json::from_str] answer for the file. *)
Context (read : OsString → result string read_error).
Context (parse : string → result (Versioned ProfileDocument) string).

Definition load_profile_from_dir (dir : OsString) (name : ProfileName) :
    result ProfileDocument ProfileLoadError :=
  let path := profile_path dir name in
  let? contents :=
    map_err (λ e, match e with
                  | FileNotFound => ProfileNotFound name path
                  | FileIo why => ProfileIo path why
                  end) (read path) in
  let? envelope := map_err (ProfileJson path) (parse contents) in
  map_err (ProfileVersion path) (Versioned_into_current envelope).

Definition load_profile (dir : result OsString ProfileLoadError) (name : ProfileName) :
    result ProfileDocument ProfileLoadError :=
  let? dir := dir in load_profile_from_dir dir name.

End load.

(** ** Argv (args.rs) *)

Record RunInvocation : Type := mk_RunInvocation {
  profile : ProfileName;
  program : OsString;
  args : list OsString
}.

Inductive UsageError : Type :=
  | NotRunSubcommand (found : option OsString)
  | ProfileMissingValue
  | ProfileGivenTwice
  | ProfileMissing
  | UnrecognizedArgument (found : OsString)
  | MissingSeparator
  | EmptyCommand
  | InvalidProfileName (e : ProfileNameError).

(** The [while let] loop: what it leaves in [profile] and, when the separator was
    found, in [command]. *)
Fixpoint parse_run_loop (argv : list OsString) (p : option ProfileName) :
    result (option ProfileName * option (list OsString)) UsageError :=
  match argv with
  | [] => Ok (p, None)
  | arg :: argv =>
      if decide (arg = os "--") then Ok (p, Some argv)
      else if decide (arg = os "--profile") then
        match p with
        | Some _ => Err ProfileGivenTwice
        | None =>
            match argv with
            | [] => Err ProfileMissingValue
            | value :: argv =>
                match ProfileName_parse value with
                | Err e => Err (InvalidProfileName e)
                | Ok name => parse_run_loop argv (Some name)
                end
            end
        end
      else Err (UnrecognizedArgument arg)
  end.

Definition parse_run (argv : list OsString) : result RunInvocation UsageError :=
  match argv with
  | [] => Err (NotRunSubcommand None)
  | first :: argv =>
      if decide (first ≠ os "run") then Err (NotRunSubcommand (Some first))
      else
        let? (p, command) := parse_run_loop argv None in
        match command with
        | None => Err MissingSeparator
        | Some command =>
            let? p := ok_or p ProfileMissing in
            match command with
            | [] => Err EmptyCommand
            | program :: workload_args => Ok (mk_RunInvocation p program workload_args)
            end
        end
  end.

(** ** Exit codes (exit.rs) *)

Inductive ExitCode : Type :=
  | ExitUsage
  | ExitAgentUnavailable
  | ExitAgentError
  | ExitGovernedContextFailed
  | ExitAuthorizationLapsed
  | ExitDenied
  | ExitProfileUnresolved.

Definition ExitCode_code (self : ExitCode) : N :=
  match self with
  | ExitUsage => 64
  | ExitAgentUnavailable => 69
  | ExitAgentError => 70
  | ExitGovernedContextFailed => 74
  | ExitAuthorizationLapsed => 76
  | ExitDenied => 77
  | ExitProfileUnresolved => 78
  end.

(** [128u8.saturating_add(signal)]. *)
Definition workload_signal_exit_code (signal : N) : N := N.min (128 + signal) u8_max.

(** ** Failures (failure.rs) *)

Inductive GovernedContextError : Type :=
  | GovernedContextFailedBecause (why : string).

Inductive unavailable : Type :=
  | UnavailableClient (e : ClientError)
  | UnavailableSignals (why : string)
  | UnavailableUnclassified.

Inductive LaunchFailure : Type :=
  | FailUsage (e : UsageError)
  | FailProfileUnresolved (e : ProfileLoadError)
  | FailAgentUnavailable (why : unavailable)
  | FailAgentError (code : ErrorCode)
  | FailDenied (why : DenialReason)
  | FailGovernedContext (e : GovernedContextError)
  | FailAuthorizationLapsed.

Definition LaunchFailure_exit_code (self : LaunchFailure) : ExitCode :=
  match self with
  | FailUsage _ => ExitUsage
  | FailProfileUnresolved _ => ExitProfileUnresolved
  | FailAgentUnavailable _ => ExitAgentUnavailable
  | FailAgentError _ => ExitAgentError
  | FailDenied _ => ExitDenied
  | FailGovernedContext _ => ExitGovernedContextFailed
  | FailAuthorizationLapsed => ExitAuthorizationLapsed
  end.

Definition classify_response (r : AgentResponse) : option LaunchFailure :=
  match r with
  | LeaseGranted _ => None
  | LeaseDenied why => Some (FailDenied why)
  | ErrorResponse code => Some (FailAgentError code)
  | LeaseReleased _ | Status _ => Some (FailAgentError CodeInternal)
  end.

(** ** Lemmas *)

Lemma byte_in_spec lo hi b : byte_in lo hi b = true ↔ (lo ≤ Byte.to_N b ≤ hi)%N.
Proof. unfold byte_in. rewrite andb_true_iff, !bool_decide_eq_true. done. Qed.

Lemma continuation_high b : continuation b = true → (128 ≤ Byte.to_N b)%N.
Proof. unfold continuation. rewrite byte_in_spec. lia. Qed.

(** One step of decoding: a first character, from bytes that are ASCII only if
    the character is that byte. *)
Lemma to_str_cons b bs cs :
  to_str (b :: bs) = Some cs →
  ∃ used rest c cs', bs = used ++ rest ∧ cs = c :: cs' ∧ to_str rest = Some cs' ∧
    ∀ b', b' ∈ b :: used → (Byte.to_N b' < 128)%N → c = Byte.to_N b'.
Proof.
  cbn [to_str].
  destruct (byte_in 0 127 b) eqn:H0.
  { intros (cs' & Hr & ->)%fmap_Some. exists [], bs, (Byte.to_N b), cs'.
    split_and!; try done. by intros b' ->%list_elem_of_singleton. }
  assert (128 ≤ Byte.to_N b)%N as Hb.
  { apply not_true_iff_false in H0. rewrite byte_in_spec in H0. lia. }
  destruct bs as [|b1 r1]; [done|].
  destruct (_ && _) eqn:H1.
  { apply andb_true_iff in H1 as [_ H1%continuation_high].
    intros (cs' & Hr & ->)%fmap_Some. eexists [b1], r1, _, cs'. split_and!; try done.
    intros b' Hin. rewrite !elem_of_cons, elem_of_nil in Hin. destruct Hin as [->|[->|[]]]; lia. }
  destruct r1 as [|b2 r2]; [done|].
  destruct (_ && continuation b2) eqn:H2.
  { apply andb_true_iff in H2 as [H1' H2%continuation_high].
    assert (128 ≤ Byte.to_N b1)%N.
    { rewrite !orb_true_iff, !andb_true_iff, !byte_in_spec in H1'.
      destruct H1' as [[[[_ ?]|[_ ?%continuation_high]]|[_ ?]]|[_ ?%continuation_high]]; lia. }
    intros (cs' & Hr & ->)%fmap_Some. eexists [b1; b2], r2, _, cs'. split_and!; try done.
    intros b' Hin. rewrite !elem_of_cons, elem_of_nil in Hin.
    destruct Hin as [->|[->|[->|[]]]]; lia. }
  destruct r2 as [|b3 r3]; [done|].
  destruct (_ && continuation b3) eqn:H3; [|done].
  apply andb_true_iff in H3 as [H3' H3%continuation_high].
  apply andb_true_iff in H3' as [H3' H2'%continuation_high].
  assert (128 ≤ Byte.to_N b1)%N.
  { rewrite !orb_true_iff, !andb_true_iff, !byte_in_spec in H3'.
    destruct H3' as [[[_ ?]|[_ ?%continuation_high]]|[_ ?]]; lia. }
  intros (cs' & Hr & ->)%fmap_Some. eexists [b1; b2; b3], r3, _, cs'. split_and!; try done.
  intros b' Hin. rewrite !elem_of_cons, elem_of_nil in Hin.
  destruct Hin as [->|[->|[->|[->|[]]]]]; lia.
Qed.

(** Every ASCII byte of a text is one of its characters. *)
Lemma to_str_ascii bs cs b :
  to_str bs = Some cs → b ∈ bs → (Byte.to_N b < 128)%N → Byte.to_N b ∈ cs.
Proof.
  remember (length bs) as n eqn:Hn. assert (length bs ≤ n) as Hle by lia. clear Hn.
  revert bs cs Hle. induction n as [|n IH]; intros [|b0 bs] cs Hle Hs Hin Hlt; cbn in Hle;
    try by apply elem_of_nil in Hin.
  { lia. }
  apply to_str_cons in Hs as (used & rest & c & cs' & -> & -> & Hr & Hc).
  rewrite app_comm_cons, elem_of_app in Hin. destruct Hin as [Hin|Hin].
  - rewrite (Hc b Hin Hlt). by left.
  - right. rewrite length_app in Hle. apply (IH rest); [lia|done..].
Qed.

Lemma parse_run_loop_Some argv p name rest :
  parse_run_loop argv (Some p) = Ok (name, Some rest) ↔
    name = Some p ∧ argv = os "--" :: rest.
Proof.
  destruct argv as [|arg argv]; cbn [parse_run_loop]; [naive_solver|].
  case_decide as Hs; [|case_decide as Hp]; naive_solver.
Qed.

Lemma parse_run_loop_None argv name rest :
  parse_run_loop argv None = Ok (name, Some rest) ↔
    name = None ∧ argv = os "--" :: rest ∨
    ∃ raw p, name = Some p ∧ ProfileName_parse raw = Ok p ∧
      argv = os "--profile" :: raw :: os "--" :: rest.
Proof.
  destruct argv as [|arg argv]; cbn [parse_run_loop].
  { split; [done|]. by intros [[_ ?]|(raw & p & _ & _ & ?)]. }
  case_decide as Hs.
  { subst arg. split.
    - intros [= <- <-]. by left.
    - by intros [[-> [= ->]]|(raw & p & _ & _ & ?)]. }
  case_decide as Hp.
  2:{ split; [done|]. by intros [[_ [= ? _]]|(raw & p & _ & _ & [= ? _])]. }
  subst arg. destruct argv as [|raw argv].
  { split; [done|]. by intros [[_ ?]|(raw & p & _ & _ & ?)]. }
  split.
  - destruct (ProfileName_parse raw) as [p|] eqn:Hraw; [|done].
    intros [-> ->]%parse_run_loop_Some. right. by exists raw, p.
  - intros [[_ [=]]|(raw' & p & -> & Hraw & [= -> ->])]. rewrite Hraw.
    by apply parse_run_loop_Some.
Qed.

Lemma ProfileName_parse_Ok raw n :
  ProfileName_parse raw = Ok n ↔
    n = mk_ProfileName raw ∧ raw ≠ [] ∧ length raw ≤ MAX_PROFILE_NAME_LEN ∧
    raw ≠ os "." ∧ raw ≠ os ".." ∧
    ∃ chars, to_str raw = Some chars ∧ (47%N ∉ chars) ∧ ∀ c, c ∈ chars → is_control c = false.
Proof.
  unfold ProfileName_parse. destruct (to_str raw) as [chars|]; [|naive_solver].
  assert (existsb is_control chars = false ↔ ∀ c, c ∈ chars → is_control c = false) as He.
  { rewrite <-not_true_iff_false, existsb_exists. setoid_rewrite <-not_true_iff_false.
    setoid_rewrite <-list_elem_of_In. naive_solver. }
  repeat case_decide; try (split; [done|]; naive_solver lia).
  destruct (existsb is_control chars).
  - split; [done|]. intros (_ & _ & _ & _ & _ & ? & [= <-] & _ & Hc). by apply He in Hc.
  - split.
    + intros [= <-]. split_and!; try done; [lia|naive_solver..|].
      exists chars. split_and!; try done. by apply He.
    + by intros [-> _].
Qed.

(** A path that does not start with a separator is appended, after one. *)
Lemma path_join_relative dir :
  ∃ prefix, (prefix = dir ∨ prefix = dir ++ os "/") ∧ (prefix = [] ∨ last prefix = Some x2f) ∧
    ∀ rest, x2f ∉ rest → rest ≠ [] → path_join dir rest = prefix ++ rest.
Proof.
  set (sep := if decide (dir = [] ∨ last dir = Some x2f) then [] else os "/").
  exists (dir ++ sep). unfold sep, path_join. split; [|split].
  - case_decide; [left; by rewrite app_nil_r|by right].
  - case_decide as Hl; [|right; apply last_snoc].
    rewrite app_nil_r. destruct Hl; auto.
  - intros [|b rest] Hs Hne; [done|]. cbn [head].
    rewrite decide_False by (intros [= ->]; by destruct Hs; left).
    case_decide; by rewrite <-app_assoc.
Qed.

Lemma parsed_name_bytes raw n b :
  ProfileName_parse raw = Ok n → b ∈ raw → (32 ≤ Byte.to_N b)%N ∧ b ≠ x2f ∧ Byte.to_N b ≠ 127%N.
Proof.
  intros (_ & _ & _ & _ & _ & chars & Hs & Hslash & Hc)%ProfileName_parse_Ok Hin.
  destruct (decide (Byte.to_N b < 128)%N) as [Hlt|]; [|split_and!; [lia|by intros ->|lia]].
  pose proof (to_str_ascii _ _ _ Hs Hin Hlt) as Hch. specialize (Hc _ Hch).
  unfold is_control in Hc. repeat case_bool_decide; try done.
  all: split_and!; [lia|by intros ->|lia].
Qed.

(** ** Properties *)

(** The grammar is exact.  [parse_run] accepts precisely
    [run --profile NAME -- PROGRAM ARGS...] with a valid name, and hands on the
    program and every argument after the separator verbatim, bytes that look
    like flags or separators included; whatever else is rejected. *)
Theorem parse_run_iff (argv : list OsString) (inv : RunInvocation) :
  parse_run argv = Ok inv ↔
  ∃ raw, ProfileName_parse raw = Ok (profile inv) ∧
    argv = [os "run"; os "--profile"; raw; os "--"; program inv] ++ args inv.
Proof.
  destruct argv as [|first argv]; cbn [parse_run].
  { split; [done|]. by intros (raw & _ & ?). }
  case_decide as Hrun.
  { split; [done|]. intros (raw & _ & [= -> _]). done. }
  assert (first = os "run") as -> by (by destruct (decide (first = os "run"))). clear Hrun.
  split.
  - intros ([p [command|]] & Hl & Hr)%result_bind_Ok; [|done].
    apply result_bind_Ok in Hr as (name & Hname & Hr).
    destruct p as [p|]; [|done]. injection Hname as ->.
    destruct command as [|prog rest]; [done|]. injection Hr as <-.
    apply parse_run_loop_None in Hl as [[? _]|(raw & p & [= <-] & Hraw & ->)]; [done|].
    by exists raw.
  - intros (raw & Hraw & [= ->]).
    rewrite (proj2 (parse_run_loop_None _ (Some (profile inv)) (program inv :: args inv))).
    + cbn. by destruct inv.
    + right. eauto.
Qed.

(** A profile name names one file directly in the search directory.  From an
    accepted name the loader's path is the directory, at most one separator and
    a single component: nothing in it is a separator, a NUL or another ASCII
    control character, it is not a dot name, and it fits a file name; and two
    names never lead to the same file.  A name is kept byte for byte. *)
Theorem profile_path_confined (dir raw : OsString) (n m : ProfileName)
    (Hn : ProfileName_parse raw = Ok n) :
  let file := raw ++ os ".json" in
  name_bytes n = raw ∧
  (∃ prefix, profile_path dir n = prefix ++ file ∧ (prefix = dir ∨ prefix = dir ++ os "/") ∧
     (prefix = [] ∨ last prefix = Some x2f)) ∧
  (∀ b, b ∈ file → (32 ≤ Byte.to_N b)%N ∧ b ≠ x2f ∧ Byte.to_N b ≠ 127%N) ∧
  length file ≤ 69 ∧ raw ≠ [] ∧ raw ≠ os "." ∧ raw ≠ os ".." ∧
  (ProfileName_parse (name_bytes m) = Ok m → profile_path dir n = profile_path dir m → n = m).
Proof.
  intros file.
  assert (∀ raw n b, ProfileName_parse raw = Ok n → b ∈ raw ++ os ".json" →
    (32 ≤ Byte.to_N b)%N ∧ b ≠ x2f ∧ Byte.to_N b ≠ 127%N) as Hfile.
  { intros raw' n' b' Hp [Hin|Hin]%elem_of_app; [by eapply parsed_name_bytes|].
    change (os ".json") with [x2e; x6a; x73; x6f; x6e] in Hin.
    rewrite !elem_of_cons, elem_of_nil in Hin.
    destruct Hin as [->|[->|[->|[->|[->|[]]]]]]; by vm_compute. }
  pose proof (proj1 (ProfileName_parse_Ok raw n) Hn) as (-> & Hne & Hlen & Hdot & Hdots & _).
  destruct (path_join_relative dir) as (prefix & Hpre & Hlast & Hj).
  assert (∀ k, ProfileName_parse (name_bytes k) = Ok k →
    profile_path dir k = prefix ++ name_bytes k ++ os ".json") as Hpath.
  { intros k Hk. apply Hj; [|by destruct (name_bytes k)].
    intros Hin. by destruct (Hfile _ _ _ Hk Hin) as (_ & ? & _). }
  split; [done|]. split; [|split; [|split; [|split; [done|split; [done|split; [done|]]]]]].
  - exists prefix. split; [by apply Hpath|done].
  - intros b Hb. by eapply Hfile.
  - unfold file. rewrite length_app. change (length (os ".json")) with 5.
    unfold MAX_PROFILE_NAME_LEN in Hlen. lia.
  - intros Hm. rewrite (Hpath m Hm), (Hpath (mk_ProfileName raw) Hn). intros Heq%app_inv_head%app_inv_tail.
    destruct m as [m]. cbn in *. by rewrite Heq.
Qed.

Lemma profile_path_confined_witness :
  profile_path (os "/home/u/.config/eltanin/profiles") (mk_ProfileName (os "gpu-train")) =
    os "/home/u/.config/eltanin/profiles/gpu-train.json" ∧ length (os "gpu-train" ++ os ".json") ≤ 69.
Proof.
  split; [by vm_compute|].
  destruct (profile_path_confined (os "/home/u/.config/eltanin/profiles") (os "gpu-train")
    (mk_ProfileName (os "gpu-train")) (mk_ProfileName (os "gpu-train"))) as (_ & _ & _ & Hl & _).
  - by vm_compute.
  - exact Hl.
Defined.
