(* ===== verification/Documents.v ===== *)
(** * Policy files and profiles

    The two files an operator writes: the agent's policy ([load_policy] of
    [crates/eltanin-agent/src/authz/mod.rs] at the schema of
    [crates/eltanin-core/src/policy.rs]) and the client's profiles
    ([load_profile_from_dir] of [crates/eltanin-cli/src/profile.rs]), read as JSON text
    with the operations of [Json] and [JsonText].  What each member of a file means, and
    that loading keeps every rule and every condition or refuses the file. *)

From S2P Require Import Prelude Text Json JsonText Resource Identity Policy PolicySpec Lease.
From S2P Require Import Peer Backend Protocol Schema LeaseStore Authz Cli.

(** ** Profiles (profile.rs) *)

Section profile_serde.
Context `{SerdeJson}.

#[export] Instance ProfileDocument_serde : Serde ProfileDocument := {
  ser d := JObj [("resource", ser (profile_resource d)); ("action", ser (profile_action d))];
  de j :=
    fields ← visit_struct false ["resource"; "action"] j;
    match fields with
    | [r; a] => r ← required de r; a ← required de a; Some (mk_ProfileDocument r a)
    | _ => None
    end
}.

End profile_serde.

(** ** What a file says *)

(** The member [name], given once and as [j]. *)
Definition states (ms : list member) (name : string) (j : Json) : Prop :=
  named name ms = [(name, j)].

Section meaning.
Context `{SerdeJson}.

Definition condition_tag (c : Condition) : string :=
  match c with
  | Uid _ => "uid"
  | Gid _ => "gid"
  | ExecutablePath _ => "executable_path"
  | ExecutableHash _ => "executable_hash"
  | CgroupPath _ => "cgroup_path"
  end.

(** The expected value, as JSON. *)
Definition condition_expects (c : Condition) : Json :=
  match c with
  | Uid m | Gid m => uint_ser (em_expected m)
  | ExecutablePath m | ExecutableHash m | CgroupPath m => JStr (em_expected m)
  end.

Definition condition_floor (c : Condition) : TrustFloor :=
  match c with
  | Uid m | Gid m => em_min_trust m
  | ExecutablePath m | ExecutableHash m | CgroupPath m => em_min_trust m
  end.

(** A condition, a rule, a policy as an object of the file states it. *)
Definition condition_written (ms : list member) (c : Condition) : Prop :=
  states ms "field" (JStr (condition_tag c)) ∧ states ms "expected" (condition_expects c) ∧
  Condition_in_range c ∧
  ∃ jf, states ms "min_trust" jf ∧ de jf = Some (condition_floor c).

Definition rule_written (ms : list member) (r : Rule) : Prop :=
  states ms "id" (JStr (rule_id_str (rule_id r))) ∧
  (∃ je, states ms "effect" je ∧ de je = Some (rule_effect r)) ∧
  (∃ jr, states ms "resource" jr ∧ de jr = Some (rule_resource r)) ∧
  (∃ ja, states ms "action" ja ∧ de ja = Some (rule_action r)) ∧
  ∃ cms, states ms "conditions" (JArr (JObj <$> cms)) ∧ Forall2 condition_written cms (conditions r).

Definition policy_written (ms : list member) (d : PolicyDocument) : Prop :=
  states ms "id" (JStr (policy_id_str (doc_id d))) ∧
  states ms "revision" (uint_ser (revision d)) ∧ (revision d ≤ u32_max)%N ∧
  ∃ rms, states ms "rules" (JArr (JObj <$> rms)) ∧ Forall2 rule_written rms (rules d).

(** Every rule and every condition is given as an object. *)
Definition object_with (P : list member → Prop) (j : Json) : Prop :=
  match j with
  | JObj ms => P ms
  | _ => False
  end.

Definition rule_objects (ms : list member) : Prop :=
  ∀ js, states ms "conditions" (JArr js) → Forall (object_with (λ _, True)) js.

Definition policy_objects (ms : list member) : Prop :=
  ∀ js, states ms "rules" (JArr js) → Forall (object_with rule_objects) js.

End meaning.

(** ** Reading *)

Section reading.
Context `{SerdeJson} (Hlaws : SerdeJsonLaws).

#[local] Hint Resolve uint_roundtrip string_roundtrip : roundtrip.

(** A struct without [deny_unknown_fields] that was read had each required field once. *)
Lemma fields_stated (names : list string) ms os js :
  object_fields false names ms = Some os → os = Some <$> js →
  Forall2 (λ n j, states ms n j) names js.
Proof. intros Hf ->. by apply object_fields_named. Qed.

Lemma stated_fields (names : list string) ms js :
  Forall2 (λ n j, states ms n j) names js →
  visit_struct false names (JObj ms) = Some (Some <$> js).
Proof. intros Hs. rewrite visit_struct_object. by apply object_fields_named. Qed.

Lemma EvidenceMatch_Some {T} (de_value : Json → option T) ms m :
  EvidenceMatch_de de_value (JObj ms) = Some m ↔
    (∃ jv, states ms "expected" jv ∧ de_value jv = Some (em_expected m)) ∧
    ∃ jf, states ms "min_trust" jf ∧ de jf = Some (em_min_trust m).
Proof.
  unfold EvidenceMatch_de. split.
  - rewrite visit_struct_object. intros ([|o1 [|o2 []]] & Hf & Hm)%bind_Some; try done.
    apply bind_Some in Hm as (v & (jv & -> & Hv)%bind_Some & Hm).
    apply bind_Some in Hm as (f & (jf & -> & Hff)%bind_Some & [= <-]).
    pose proof (fields_stated _ _ _ [jv; jf] Hf eq_refl) as Hs.
    inversion_clear Hs as [|? ? ? ? H1 Hs']. inversion_clear Hs'. eauto 10.
  - intros [(jv & Hs1 & Hv) (jf & Hs2 & Hf)].
    rewrite (stated_fields _ _ [jv; jf]) by by repeat constructor. roundtrip Hlaws. by destruct m.
Qed.

Lemma states_rest ms tag name rest n j :
  object_tag tag ms = Some (name, rest) → n ≠ tag → states rest n j ↔ states ms n j.
Proof.
  intros [_ ->]%object_tag_Some Hn. unfold states, named. rewrite list_filter_filter.
  assert (filter (λ m, m.1 = n ∧ m.1 ≠ tag) ms = filter (λ m, m.1 = n) ms) as ->; [|done].
  apply list_filter_iff. naive_solver.
Qed.

(** The two kinds of evidence match, as the members of their condition. *)
Lemma u32_match_Some ms name rest m :
  object_tag "field" ms = Some (name, rest) →
  EvidenceMatch_de (visit_uint u32_max) (JObj rest) = Some m ↔
    states ms "expected" (uint_ser (em_expected m)) ∧ (em_expected m ≤ u32_max)%N ∧
    ∃ jf, states ms "min_trust" jf ∧ de jf = Some (em_min_trust m).
Proof.
  intros Ht. rewrite EvidenceMatch_Some. setoid_rewrite (states_rest ms "field" name rest _ _ Ht);
    [|done..]. setoid_rewrite (visit_uint_Some Hlaws). naive_solver.
Qed.

Lemma string_match_Some ms name rest m :
  object_tag "field" ms = Some (name, rest) →
  EvidenceMatch_de de (JObj rest) = Some m ↔
    states ms "expected" (JStr (em_expected m)) ∧
    ∃ jf, states ms "min_trust" jf ∧ de jf = Some (em_min_trust m).
Proof.
  intros Ht. rewrite EvidenceMatch_Some. setoid_rewrite (states_rest ms "field" name rest _ _ Ht);
    [|done..]. setoid_rewrite (string_Some Hlaws). naive_solver.
Qed.

Lemma Condition_Some ms c : de (JObj ms) = Some c ↔ condition_written ms c.
Proof.
  cbn [de Condition_serde]. rewrite visit_tagged_object. split.
  - intros ([name jrest] & Ht & Hc)%bind_Some. apply fmap_Some in Ht as ([n rest] & Ht & [= -> ->]).
    pose proof (u32_match_Some ms n rest) as Hu. pose proof (string_match_Some ms n rest) as Hs.
    pose proof Ht as [Hf _]%object_tag_Some.
    repeat (case_decide; [subst n; apply fmap_Some in Hc as (m & Hm & ->);
      first [apply (Hu m Ht) in Hm as (? & ? & ?)|apply (Hs m Ht) in Hm as (? & ?)];
      by split_and!|]). done.
  - intros (Hf & He & Hr & Hj). destruct (object_tag "field" ms) as [[n rest]|] eqn:Ht.
    2:{ exfalso. revert Ht. unfold object_tag. unfold states, named in Hf. by rewrite Hf. }
    pose proof Ht as [Hn _]%object_tag_Some. unfold states in Hf. rewrite Hf in Hn. injection Hn as <-.
    cbn [fmap option_fmap option_map mbind option_bind].
    destruct c as [m|m|m|m|m]; cbn [condition_tag condition_expects condition_floor
      Condition_in_range] in *; repeat first [rewrite decide_True by done|rewrite decide_False by done];
      first [rewrite (proj2 (u32_match_Some ms _ rest m Ht)) by done
            |rewrite (proj2 (string_match_Some ms _ rest m Ht)) by done]; done.
Qed.

Lemma Forall2_objects {A} `{Serde A} (P : list member → A → Prop) js l
    (objects : list member → Prop) :
  (∀ ms a, objects ms → de (JObj ms) = Some a ↔ P ms a) → Forall (object_with objects) js →
  Forall2 (λ j a, de j = Some a) js l ↔ ∃ mss, js = JObj <$> mss ∧ Forall2 P mss l.
Proof.
  intros HP Ho. split.
  - intros Hf. induction Hf as [|j a js l Hj _ IH]; [by exists []|].
    apply Forall_cons in Ho as [Hobj Ho]. destruct j as [| | | | |ms|]; try done.
    destruct (IH Ho) as (mss & -> & Hm). exists (ms :: mss). split; [done|].
    constructor; [by apply HP|done].
  - intros (mss & -> & Hm). induction Hm as [|ms a mss l Ha _ IH]; [constructor|].
    apply Forall_cons in Ho as [Hobj Ho]. constructor; [by apply HP|by apply IH].
Qed.

Lemma Rule_Some ms r :
  rule_objects ms → de (JObj ms) = Some r ↔ rule_written ms r.
Proof.
  intros Ho. cbn [de Rule_serde]. split.
  - rewrite visit_struct_object.
    intros ([|o1 [|o2 [|o3 [|o4 [|o5 []]]]]] & Hf & Hr)%bind_Some; try done.
    apply bind_Some in Hr as (i & (j1 & -> & H1)%bind_Some & Hr).
    apply bind_Some in Hr as (e & (j2 & -> & H2)%bind_Some & Hr).
    apply bind_Some in Hr as (x & (j3 & -> & H3)%bind_Some & Hr).
    apply bind_Some in Hr as (a & (j4 & -> & H4)%bind_Some & Hr).
    apply bind_Some in Hr as (c & (j5 & -> & H5)%bind_Some & [= <-]).
    pose proof (fields_stated _ _ _ [j1; j2; j3; j4; j5] Hf eq_refl) as Hs.
    repeat (apply Forall2_cons in Hs as [? Hs]).
    apply fmap_Some in H1 as (s & ->%(string_Some Hlaws) & ->).
    apply (list_Some Hlaws) in H5 as (cs & -> & H5).
    apply (Forall2_objects condition_written _ _ (λ _, True)) in H5 as (cms & -> & H5);
      [|intros ? ? _; apply Condition_Some|by apply Ho].
    unfold rule_written. split_and!; eauto.
  - intros (H1 & (je & H2 & He) & (jr & H3 & Hr) & (ja & H4 & Ha) & cms & H5 & Hc).
    rewrite (stated_fields _ _ [_; je; jr; ja; _]) by (repeat constructor; eassumption).
    assert (de (JArr (JObj <$> cms)) = Some (conditions r)).
    { apply (list_Some Hlaws). eexists. split; [done|].
      apply (Forall2_objects condition_written _ _ (λ _, True));
        [intros ? ? _; apply Condition_Some|by apply Forall_fmap, Forall_true|eauto]. }
    pose proof (RuleId_roundtrip Hlaws (rule_id r)). roundtrip Hlaws. by destruct r.
Qed.

Lemma PolicyDocument_Some ms d :
  policy_objects ms → de (JObj ms) = Some d ↔ policy_written ms d.
Proof.
  intros Ho. cbn [de PolicyDocument_serde]. split.
  - rewrite visit_struct_object. intros ([|o1 [|o2 [|o3 []]]] & Hf & Hr)%bind_Some; try done.
    apply bind_Some in Hr as (i & (j1 & -> & H1)%bind_Some & Hr).
    apply bind_Some in Hr as (v & (j2 & -> & H2)%bind_Some & Hr).
    apply bind_Some in Hr as (r & (j3 & -> & H3)%bind_Some & [= <-]).
    pose proof (fields_stated _ _ _ [j1; j2; j3] Hf eq_refl) as Hs.
    repeat (apply Forall2_cons in Hs as [? Hs]).
    apply fmap_Some in H1 as (s & ->%(string_Some Hlaws) & ->).
    apply (visit_uint_Some Hlaws) in H2 as [-> ?].
    apply (list_Some Hlaws) in H3 as (js & -> & H3).
    apply (Forall2_objects rule_written _ _ rule_objects) in H3 as (rms & -> & H3);
      [|apply Rule_Some|by apply Ho].
    unfold policy_written. split_and!; eauto.
  - intros (H1 & H2 & Hv & rms & H3 & Hr).
    rewrite (stated_fields _ _ [_; _; _]) by (repeat constructor; eassumption).
    assert (de (JArr (JObj <$> rms)) = Some (rules d)).
    { apply (list_Some Hlaws). eexists. split; [done|].
      apply (Forall2_objects rule_written _ _ rule_objects); [apply Rule_Some|by apply Ho|eauto]. }
    pose proof (PolicyId_roundtrip Hlaws (doc_id d)). roundtrip Hlaws. by destruct d.
Qed.

Lemma ProfileDocument_Some ms d :
  de (JObj ms) = Some d ↔
    (∃ jr, states ms "resource" jr ∧ de jr = Some (profile_resource d)) ∧
    ∃ ja, states ms "action" ja ∧ de ja = Some (profile_action d).
Proof.
  cbn [de ProfileDocument_serde]. split.
  - rewrite visit_struct_object. intros ([|o1 [|o2 []]] & Hf & Hm)%bind_Some; try done.
    apply bind_Some in Hm as (r & (jr & -> & Hr)%bind_Some & Hm).
    apply bind_Some in Hm as (a & (ja & -> & Ha)%bind_Some & [= <-]).
    pose proof (fields_stated _ _ _ [jr; ja] Hf eq_refl) as Hs.
    repeat (apply Forall2_cons in Hs as [? Hs]). eauto 10.
  - intros [(jr & Hs1 & Hr) (ja & Hs2 & Ha)].
    rewrite (stated_fields _ _ [jr; ja]) by by repeat constructor. roundtrip Hlaws. by destruct d.
Qed.

End reading.

(** ** Properties *)

Section properties.
Context `{SerdeJsonText} (Hlaws : SerdeJsonLaws) (Htext : SerdeJsonTextLaws).

(** What decoding makes of the text of an envelope: it is read as what it says, and
    whatever is within the limits of [serde_json] is read. *)
Definition envelope_says {T} `{Serde T} (ms ps : list member) (v : Versioned T) : Prop :=
  states ms "version" (uint_ser (version v)) ∧ (version v ≤ u16_max)%N ∧ de (JObj ps) = Some (payload v).

Lemma envelope_document {T} `{Serde T} ms ps (v : Versioned T) :
  states ms "payload" (JObj ps) → de (JObj ms) = Some v ↔ envelope_says ms ps v.
Proof.
  intros Hp. rewrite (Versioned_Some Hlaws). unfold envelope_says, states in *. rewrite Hp. naive_solver.
Qed.

Lemma envelope_sound {T} `{Serde T} contents ms ps (v : Versioned T) :
  parse_document contents = Some (JObj ms) → states ms "payload" (JObj ps) →
  from_str de contents = Ok v → envelope_says ms ps v.
Proof.
  intros Hc Hp (j & Hj & Hd)%from_str_sound. apply envelope_document; congruence.
Qed.

Lemma envelope_reads {T} `{Serde T} contents ms ps (v : Versioned T) :
  parse_document contents = Some (JObj ms) → states ms "payload" (JObj ps) →
  readable recursion_limit (JObj ms) → envelope_says ms ps v → from_str de contents = Ok v.
Proof. intros Hc Hp Hr Hv. apply (from_str_reads _ _ (JObj ms)); [done..|]. by apply (envelope_document ms ps). Qed.

(** C13: loading a policy file keeps all of it or refuses it.  A file that holds an
    envelope with a policy of objects becomes a policy only if it names the current
    version, states the policy's id, revision and rules - each rule of the policy one
    object of the file, in order, with exactly its effect, resource, action and
    conditions, each condition one object with its field, expected value and trust floor -
    and the document is well formed; a member missing or given twice anywhere and it is
    not loaded.  Every such file within the limits of [serde_json] is loaded.  An error
    tells which: not such a document, another version, or a defect of the document. *)
Theorem policy_file_exact (contents path : string) (ms ps : list member) (p : PolicySet)
    (Hdoc : parse_document contents = Some (JObj ms)) (Hpayload : states ms "payload" (JObj ps))
    (Hobj : policy_objects ps) :
  let loaded := load_policy (λ _, Ok contents) (from_str de) path in
  let written :=
    states ms "version" (uint_ser DOMAIN_SCHEMA_VERSION) ∧ policy_written ps (document p) ∧
    document_ok (document p) in
  (loaded = Ok p → written) ∧
  (written → readable recursion_limit (JObj ms) → loaded = Ok p) ∧
  (∀ e, loaded = Err e →
     match e with
     | LoadIo _ => False
     | LoadJson _ => readable recursion_limit (JObj ms) →
         ∀ v d, states ms "version" (uint_ser v) → (v ≤ u16_max)%N → ¬ policy_written ps d
     | LoadInvalid e => ∃ v d, states ms "version" (uint_ser v) ∧ policy_written ps d ∧
         (v ≠ DOMAIN_SCHEMA_VERSION ∧
            e = PolicyUnsupportedVersion (mk_UnsupportedVersion v DOMAIN_SCHEMA_VERSION) ∨
          v = DOMAIN_SCHEMA_VERSION ∧ defect d e)
     end).
Proof.
  intros loaded written. unfold loaded, written, load_policy. cbn [map_err result_bind].
  pose proof (envelope_sound (T := PolicyDocument) contents ms ps) as Hsound.
  pose proof (envelope_reads (T := PolicyDocument) contents ms ps) as Hreads. unfold envelope_says in *.
  setoid_rewrite (PolicyDocument_Some Hlaws ps) in Hsound; [|done].
  setoid_rewrite (PolicyDocument_Some Hlaws ps) in Hreads; [|done].
  destruct (from_str de contents) as [v|why] eqn:Hf; cbn [map_err result_bind].
  - destruct (Hsound v Hdoc Hpayload eq_refl) as (Hv & Hle & Hw). split; [|split].
    + destruct (PolicySet_from_versioned v) as [p'|] eqn:Hp; cbn; [|done]. intros [= ->].
      apply from_versioned_Ok in Hp as (Hcur & Hok & ->). by rewrite Hcur in Hv.
    + intros (Hcur & Hwp & Hok) Hread.
      pose proof (Hreads (Versioned_current (document p)) Hdoc Hpayload Hread
        (conj Hcur (conj (ltac:(done) : (1 ≤ u16_max)%N) Hwp))) as [= ->].
      assert (PolicySet_from_versioned (Versioned_current (document p)) = Ok p) as ->; [|done].
      apply from_versioned_Ok. by destruct p.
    + intros e He. destruct (PolicySet_from_versioned v) as [|err] eqn:Herr; [done|].
      injection He as <-. exists (version v), (payload v). split; [done|]. split; [done|].
      revert Herr. unfold PolicySet_from_versioned, Versioned_into_current. case_decide as Hcur; cbn.
      * intros Hd%from_document_Err. by right.
      * intros [= <-]. by left.
  - assert (readable recursion_limit (JObj ms) → ∀ v d, states ms "version" (uint_ser v) →
      (v ≤ u16_max)%N → ¬ policy_written ps d) as Hno.
    { intros Hread v d Hv Hle Hw.
      by discriminate (Hreads (mk_Versioned v d) Hdoc Hpayload Hread (conj Hv (conj Hle Hw))). }
    split; [done|]. split; [|by intros e [= <-]]. intros (Hv & Hw & _) Hread.
    by apply (Hno Hread _ _ Hv) in Hw.
Qed.

(** C2: what an operator wrote is what is decided.  Once a policy file is loaded, a
    request is allowed exactly when some rule object of the file's [rules] array allows
    it - its resource and action are the request's and each of its condition objects is
    met by what was observed - and no deny rule object of the array might apply to it.
    No other part of the file has a say. *)
Theorem policy_text_decides (contents path : string) (ms ps : list member)
    (rms : list (list member)) (p : PolicySet) (c : ExecutionContext) (q : ComputeRequest)
    (Hdoc : parse_document contents = Some (JObj ms)) (Hpayload : states ms "payload" (JObj ps))
    (Hobj : policy_objects ps) (Hrules : states ps "rules" (JArr (JObj <$> rms)))
    (Hload : load_policy (λ _, Ok contents) (from_str de) path = Ok p) :
  effect (PolicySet_evaluate p c q) = Allow ↔
    (∃ rm r, rm ∈ rms ∧ rule_written rm r ∧ rule_effect r = Allow ∧ definitely c q r) ∧
    (∀ rm r, rm ∈ rms → rule_written rm r → rule_effect r = Deny → ¬ possibly c q r).
Proof.
  rewrite evaluate_effect_Allow. unfold permitted.
  assert (Forall2 rule_written rms (rules (document p))) as Hall.
  { revert Hload. unfold load_policy. cbn [map_err result_bind].
    destruct (from_str de contents) as [v|why] eqn:Hf; [|done]. cbn [map_err result_bind].
    destruct (PolicySet_from_versioned v) as [p'|] eqn:Hv; [|done]. intros [= ->].
    apply from_versioned_Ok in Hv as (_ & _ & ->).
    apply (envelope_sound contents ms ps v Hdoc Hpayload) in Hf as (_ & _ & Hd).
    apply (PolicyDocument_Some Hlaws ps) in Hd as (_ & _ & _ & rms' & Hs & Hr); [|done].
    unfold states in *. rewrite Hrules in Hs. injection Hs as Hs.
    by apply (inj (fmap JObj)) in Hs as <-. }
  assert (∀ rm r r', rm ∈ rms → rule_written rm r → rule_written rm r' → r = r') as Hfun.
  { intros rm r r' Hin Hw Hw'. assert (rule_objects rm) as Hro.
    { specialize (Hobj _ Hrules). rewrite Forall_fmap, Forall_forall in Hobj. by apply Hobj in Hin. }
    apply (Rule_Some Hlaws rm) in Hw, Hw'; [|done..]. congruence. }
  split.
  - intros [(r & Hr & He & Hd) Hno]. split.
    + apply list_elem_of_lookup in Hr as [k Hk].
      destruct (Forall2_lookup_r _ _ _ _ _ Hall Hk) as (rm & Hrm & Hw).
      exists rm, r. split_and!; try done. by apply list_elem_of_lookup_2 in Hrm.
    + intros rm r' Hin Hw. apply Hno. apply list_elem_of_lookup in Hin as [k Hk].
      destruct (Forall2_lookup_l _ _ _ _ _ Hall Hk) as (r'' & Hr'' & Hw').
      rewrite (Hfun rm r' r''); [by apply list_elem_of_lookup_2 in Hr''| |done..].
      by apply list_elem_of_lookup_2 in Hk.
  - intros [(rm & r & Hin & Hw & He & Hd) Hno]. split.
    + exists r. split; [|done]. apply list_elem_of_lookup in Hin as [k Hk].
      destruct (Forall2_lookup_l _ _ _ _ _ Hall Hk) as (r'' & Hr'' & Hw').
      rewrite (Hfun rm r r''); [by apply list_elem_of_lookup_2 in Hr''| |done..].
      by apply list_elem_of_lookup_2 in Hk.
    + intros r' Hr' Heff. apply list_elem_of_lookup in Hr' as [k Hk].
      destruct (Forall2_lookup_r _ _ _ _ _ Hall Hk) as (rm' & Hrm & Hw').
      apply (Hno rm'); [by apply list_elem_of_lookup_2 in Hrm|done..].
Qed.

(** A profile file, within the limits of [serde_json], is loaded exactly when it names
    the current version and states a resource and an action; an action other than
    [compute] is not an error. *)
Lemma profile_file_exact (contents : string) (dir : OsString) (name : ProfileName)
    (ms ps : list member) (d : ProfileDocument) :
  parse_document contents = Some (JObj ms) → states ms "payload" (JObj ps) →
  readable recursion_limit (JObj ms) →
  load_profile_from_dir (λ _, Ok contents) (from_str de) dir name = Ok d ↔
    states ms "version" (uint_ser DOMAIN_SCHEMA_VERSION) ∧
    (∃ jr, states ps "resource" jr ∧ de jr = Some (profile_resource d)) ∧
    ∃ ja, states ps "action" ja ∧ de ja = Some (profile_action d).
Proof.
  intros Hdoc Hp Hread. unfold load_profile_from_dir. cbn [map_err result_bind].
  rewrite <-(ProfileDocument_Some Hlaws ps d).
  pose proof (envelope_sound (T := ProfileDocument) contents ms ps) as Hsound.
  pose proof (envelope_reads (T := ProfileDocument) contents ms ps) as Hreads.
  destruct (from_str de contents) as [v|why] eqn:Hf; cbn [map_err result_bind].
  - destruct (Hsound v Hdoc Hp eq_refl) as (Hv & Hle & Hd).
    unfold Versioned_into_current. split.
    + case_decide as Hcur; cbn; [|done]. intros [= <-]. by rewrite Hcur in Hv.
    + intros [Hcur Hd']. unfold states in *. rewrite Hv in Hcur. injection Hcur as Hcur.
      rewrite decide_True by (unfold DOMAIN_SCHEMA_VERSION; lia). cbn. congruence.
  - split; [done|]. intros [Hv Hd].
    by discriminate (Hreads (Versioned_current d) Hdoc Hp Hread
      (conj Hv (conj (ltac:(done) : (1 ≤ u16_max)%N) Hd))).
Qed.

End properties.

(** ** Witnesses: the example policy of the repository

    [crates/eltanin-cli/tests/fixtures/eltanin_run_example_policy.json]. *)

Definition example_rule (id effect : string) (uid : Z) : list member :=
  [("id", JStr id); ("effect", JStr effect);
   ("resource", JObj [("vendor", JStr "fake"); ("kind", JStr "gpu"); ("local_id", JStr "gpu-0")]);
   ("action", JStr "compute");
   ("conditions", JArr [JObj [("field", JStr "uid"); ("expected", JInt uid);
                              ("min_trust", JStr "kernel_observed")]])].

Definition example_rules : list (list member) :=
  [example_rule "allow-alice-via-eltanin-run" "allow" 1000; example_rule "deny-root" "deny" 0].

Definition example_payload : list member :=
  [("id", JStr "dev-workstation-gpu-eltanin-run"); ("revision", JInt 1);
   ("rules", JArr (JObj <$> example_rules))].

Definition example_document : list member :=
  [("version", JInt 1); ("payload", JObj example_payload)].

#[local] Existing Instance Reference.serde.
#[local] Existing Instance TextReference.text.

Definition example_text : string := to_string (JObj example_document).

Definition example_loaded : result PolicySet PolicyLoadError :=
  load_policy (λ _, Ok example_text) (from_str de) "policy.json".

(** A workload of a user, as the kernel reported it. *)
Definition context_of (user : N) : ExecutionContext :=
  mk_ExecutionContext
    (mk_WorkloadIdentity 42 EvUnsupported (Present user KernelObserved) EvUnsupported EvUnsupported
       EvUnsupported [])
    EvUnsupported EvUnsupported EvUnsupported EvUnsupported.

Definition example_request : ComputeRequest :=
  mk_ComputeRequest (mk_ResourceIdentity (mk_ResourceVendor "fake") (mk_ResourceKind "gpu") "gpu-0") Compute.

(** Alice is allowed, root and everyone else is not. *)
Example example_decisions :
  match example_loaded with
  | Ok p => (λ u, effect (PolicySet_evaluate p (context_of u) example_request)) <$> [1000; 0; 1001]%N =
      [Allow; Deny; Deny]
  | Err _ => False
  end.
Proof. by vm_compute. Qed.

Lemma example_policy_objects : policy_objects example_payload.
Proof.
  intros js Hjs. injection Hjs as <-. repeat constructor; intros cs Hcs; injection Hcs as <-;
    by repeat constructor.
Qed.

Definition example_policy : PolicySet :=
  match example_loaded with
  | Ok p => p
  | Err _ => mk_PolicySet (mk_PolicyDocument (mk_PolicyId "") 0 [])
  end.

Lemma policy_file_exact_witness :
  load_policy (λ _, Ok example_text) (from_str de) "policy.json" = Ok example_policy ∧
  policy_written example_payload (document example_policy).
Proof.
  assert (load_policy (λ _, Ok example_text) (from_str de) "policy.json" = Ok example_policy) as Hl
    by by vm_compute.
  split; [exact Hl|].
  apply (policy_file_exact Reference.serde_laws TextReference.text_laws example_text "policy.json"
    example_document example_payload example_policy) in Hl as (_ & Hw & _); [exact Hw|..].
  - apply TextReference.text_laws.
  - done.
  - apply example_policy_objects.
Defined.

Lemma policy_text_decides_witness :
  ∃ rm r, rm ∈ example_rules ∧ rule_written rm r ∧ rule_effect r = Allow ∧
    definitely (context_of 1000) example_request r.
Proof.
  apply (policy_text_decides Reference.serde_laws TextReference.text_laws example_text "policy.json"
    example_document example_payload example_rules example_policy (context_of 1000) example_request).
  - apply TextReference.text_laws.
  - done.
  - apply example_policy_objects.
  - done.
  - by vm_compute.
  - by vm_compute.
Defined.
