(* ===== verification/System.v ===== *)
(** * Programs that talk to the operating system

    [eltanin run] is a sequential program whose behaviour is its sequence of
    requests to its surroundings: reading the clock, exchanging a message with the
    agent, sending a signal, waiting for a child.  A program is a function of the
    world, which answers each request, and its trace is the list of requests with
    their answers.  [None] means that the fuel of a loop ran out: the trace is then
    a prefix of what the program does, so a statement about every trace also
    covers runs that never end. *)

From S2P Require Import Prelude Resource Identity Policy PolicySpec Lease.
From S2P Require Import Protocol Client Cli.

(** A Unix wait status and its decoding, as [std::process::ExitStatus] does it. *)
Record ExitStatus : Type := mk_ExitStatus { wait_status : Z }.

#[export] Instance ExitStatus_eq_dec : EqDecision ExitStatus.
Proof. solve_decision. Defined.

Definition WTERMSIG (s : Z) : Z := Z.land s 127.

Definition ExitStatus_code (self : ExitStatus) : option Z :=
  if decide (WTERMSIG (wait_status self) = 0)%Z then
    Some (Z.land (Z.shiftr (wait_status self) 8) 255)
  else None.

(** [WIFSIGNALED]: neither exited nor stopped. *)
Definition ExitStatus_signal (self : ExitStatus) : option Z :=
  let t := WTERMSIG (wait_status self) in
  if decide (t = 0 ∨ t = 127)%Z then None else Some t.

(** The kinds of [Command::spawn] error the code tells apart. *)
Inductive spawn_error : Type :=
  | SpawnNotFound
  | SpawnOther.

Inductive UnixSignal : Type :=
  | SigTerm
  | SigKill
  | SigNamed (n : Z).

#[export] Instance UnixSignal_eq_dec : EqDecision UnixSignal.
Proof. solve_decision. Defined.

(** [rustix]: a positive raw pid, and a signal number it has a name for. *)
Class Rustix : Type := {
  Pid_from_raw : N → option N;
  Signal_from_named_raw : Z → option Z
}.

(** ** Requests and answers *)

Inductive query : Type :=
  | QNow
  | QExchange (rq : ClientRequest)
  | QEstablish
  | QTeardown
  | QInstallSignals
  | QSpawn (program : OsString) (args : list OsString)
  | QTryWait
  | QWait
  | QSignals
  | QKill (pid : N) (sig : UnixSignal)
  | QKillGroup (pgid : N) (sig : UnixSignal)
  | QKillChild
  | QSleep (d : Duration)
  | QWarn.

#[export] Instance query_eq_dec : EqDecision query.
Proof. solve_decision. Defined.

(** A spawned child is known by its process id. *)
Definition answer (q : query) : Type :=
  match q with
  | QNow => Instant
  | QExchange _ => result AgentResponse ClientError
  | QEstablish | QTeardown => result () GovernedContextError
  | QInstallSignals => result () string
  | QSpawn _ _ => result N spawn_error
  | QTryWait => result (option ExitStatus) ()
  | QWait => result ExitStatus ()
  | QSignals => list Z
  | QKill _ _ | QKillGroup _ _ | QKillChild => result () ()
  | QSleep _ | QWarn => ()
  end.

Class World (W : Type) : Type := { ask (q : query) : W → answer q * W }.

(** A request and the answer it got. *)
Record event : Type := mk_event { asked : query; answered : answer asked }.

Infix "▷" := mk_event (at level 50) : eltanin_scope.

(** ** Programs *)

Definition prog (W A : Type) : Type := W → option A * list event * W.

Definition pure {W A} (a : A) : prog W A := λ w, (Some a, [], w).

Definition stuck {W A} : prog W A := λ w, (None, [], w).

Definition perform {W} `{World W} (q : query) : prog W (answer q) :=
  λ w, let '(a, w) := ask q w in (Some a, [q ▷ a], w).

Definition andthen {W A B} (m : prog W A) (k : A → prog W B) : prog W B :=
  λ w,
    let '(o, tr, w) := m w in
    match o with
    | None => (None, tr, w)
    | Some a => let '(o, tr', w) := k a w in (o, tr ++ tr', w)
    end.

Notation "'do' x '<-' m ';;' k" := (andthen m (λ x, k))
  (at level 100, x pattern, m at level 99, k at level 200, right associativity) : eltanin_scope.
Notation "m ';;;' k" := (andthen m (λ _, k))
  (at level 100, k at level 200, right associativity) : eltanin_scope.

(** The runs of a program: its result and trace in some world. *)
Definition runs {W A} (m : prog W A) (o : option A) (tr : list event) : Prop :=
  ∃ w w', m w = (o, tr, w').

(** Every run satisfies [P]. *)
Definition always {W A} (m : prog W A) (P : option A → list event → Prop) : Prop :=
  ∀ w, let '(o, tr, _) := m w in P o tr.

(** ** Lemmas *)

(** Every execution is a run. *)
Lemma runs_of {W A} (m : prog W A) w : runs m (m w).1.1 (m w).1.2.
Proof. exists w, (m w).2. by destruct (m w) as [[]]. Qed.

Lemma always_runs {W A} (m : prog W A) P : always m P ↔ ∀ o tr, runs m o tr → P o tr.
Proof.
  split.
  - intros Hm o tr (w & w' & Hw). specialize (Hm w). by rewrite Hw in Hm.
  - intros Hm w. destruct (m w) as [[o tr] w'] eqn:Hw. apply Hm. by exists w, w'.
Qed.

Lemma always_mono {W A} (m : prog W A) (P Q : option A → list event → Prop) :
  always m P → (∀ o tr, P o tr → Q o tr) → always m Q.
Proof. rewrite !always_runs. eauto. Qed.

Lemma always_pure {W A} (a : A) (P : option A → list event → Prop) :
  P (Some a) [] → always (W := W) (pure a) P.
Proof. by intros ? w. Qed.

Lemma always_stuck {W A} (P : option A → list event → Prop) :
  P None [] → always (W := W) stuck P.
Proof. by intros ? w. Qed.

Lemma always_perform {W} `{World W} q (P : option (answer q) → list event → Prop) :
  (∀ a, P (Some a) [q ▷ a]) → always (perform q) P.
Proof. intros HP w. unfold perform. destruct (ask q w). apply HP. Qed.

(** The rule of composition: the second program runs after what the first one
    did. *)
Lemma always_andthen {W A B} (m : prog W A) (k : A → prog W B)
    (P : option A → list event → Prop) (Q : option B → list event → Prop) :
  always m P →
  (∀ tr, P None tr → Q None tr) →
  (∀ a tr, P (Some a) tr → always (k a) (λ o tr', Q o (tr ++ tr'))) →
  always (andthen m k) Q.
Proof.
  intros Hm Hn Hk w. specialize (Hm w). unfold andthen.
  destruct (m w) as [[[a|] tr] w']; [|by apply Hn].
  specialize (Hk a tr Hm w'). by destruct (k a w') as [[o' tr'] w''].
Qed.

(** A single request followed by the rest. *)
Lemma always_do {W B} `{World W} q (k : answer q → prog W B)
    (Q : option B → list event → Prop) :
  (∀ a, always (k a) (λ o tr, Q o ((q ▷ a) :: tr))) → always (andthen (perform q) k) Q.
Proof.
  intros Hk. eapply (always_andthen _ _ (λ o tr, ∃ a, o = Some a ∧ tr = [q ▷ a])).
  - apply always_perform. eauto.
  - by intros tr (a & ? & _).
  - intros a tr (a' & [= <-] & ->). apply Hk.
Qed.

(** ** Monitors

    A monitor reads a trace event by event, keeping a state, and judges each
    event in the state it finds.  [triple] is a Hoare triple over monitor states:
    every event of every run passes the check, and what a finished program
    returns is related to the state it leaves. *)

Section monitor.
Context {W : Type} `{World W} {S : Type}.
Context (step : S → event → S) (check : S → event → Prop).

Fixpoint passes (s : S) (tr : list event) : Prop :=
  match tr with
  | [] => True
  | e :: tr => check s e ∧ passes (step s e) tr
  end.

Definition triple {A} (s : S) (m : prog W A) (Q : A → S → Prop) : Prop :=
  always m (λ o tr, passes s tr ∧ ∀ a, o = Some a → Q a (foldl step s tr)).

Lemma passes_app s tr tr' : passes s (tr ++ tr') ↔ passes s tr ∧ passes (foldl step s tr) tr'.
Proof. revert s. induction tr as [|e tr IH]; intros s; cbn; [|rewrite IH]; tauto. Qed.

Lemma passes_at s pre e post : passes s (pre ++ e :: post) → check (foldl step s pre) e.
Proof. by intros [_ [? _]]%passes_app. Qed.

Lemma triple_pure {A} s (a : A) (Q : A → S → Prop) : Q a s → triple s (pure a) Q.
Proof. intros HQ. apply always_pure. split; [done|]. by intros ? [= <-]. Qed.

Lemma triple_stuck {A} s (Q : A → S → Prop) : triple s stuck Q.
Proof. by apply always_stuck. Qed.

Lemma triple_perform s q (Q : answer q → S → Prop) :
  (∀ a, check s (q ▷ a) ∧ Q a (step s (q ▷ a))) → triple s (perform q) Q.
Proof.
  intros HQ. apply always_perform. intros a. destruct (HQ a). split; [by split|].
  by intros ? [= <-].
Qed.

Lemma triple_andthen {A B} s (m : prog W A) (k : A → prog W B) (P : A → S → Prop)
    (Q : B → S → Prop) :
  triple s m P → (∀ a s', P a s' → triple s' (k a) Q) → triple s (andthen m k) Q.
Proof.
  intros Hm Hk. eapply always_andthen; [exact Hm|..]; cbn.
  - by intros tr [? _].
  - intros a tr [Hp HP]. eapply always_mono; [apply (Hk a), HP; done|].
    intros o tr' [Hp' HQ]. split; [by apply passes_app|]. intros b Ho.
    rewrite foldl_app. by apply HQ.
Qed.

Lemma triple_mono {A} s (m : prog W A) (P Q : A → S → Prop) :
  triple s m P → (∀ a s', P a s' → Q a s') → triple s m Q.
Proof. intros Hm HPQ. eapply always_mono; [exact Hm|]. cbn. intuition. Qed.

Lemma triple_do {B} s q (k : answer q → prog W B) (Q : B → S → Prop) :
  (∀ a, check s (q ▷ a) ∧ triple (step s (q ▷ a)) (k a) Q) →
  triple s (andthen (perform q) k) Q.
Proof.
  intros Hk. apply always_do. intros a. destruct (Hk a) as [Hc Ht].
  eapply always_mono; [exact Ht|]. cbn. intuition.
Qed.

Lemma triple_runs {A} s (m : prog W A) (Q : A → S → Prop) o tr :
  triple s m Q → runs m o tr → passes s tr ∧ ∀ a, o = Some a → Q a (foldl step s tr).
Proof. intros Hm. by apply (proj1 (always_runs _ _) Hm). Qed.

End monitor.

(** ** Total runs

    [total m w Q]: run in the world [w], the program finishes, with [Q] of what it
    returns and of the world it leaves. *)

Section total.
Context {W : Type} `{World W}.

Definition total {A} (m : prog W A) (w : W) (Q : A → W → Prop) : Prop :=
  match m w with
  | (Some a, _, w') => Q a w'
  | (None, _, _) => False
  end.

Lemma total_pure {A} (a : A) w (Q : A → W → Prop) : Q a w → total (pure a) w Q.
Proof. done. Qed.

Lemma total_perform q w (Q : answer q → W → Prop) :
  (∀ a w', ask q w = (a, w') → Q a w') → total (perform q) w Q.
Proof. intros HQ. unfold total, perform. destruct (ask q w) eqn:Ha. by apply HQ. Qed.

Lemma total_andthen {A B} (m : prog W A) (k : A → prog W B) w (P : A → W → Prop)
    (Q : B → W → Prop) :
  total m w P → (∀ a w', P a w' → total (k a) w' Q) → total (andthen m k) w Q.
Proof.
  unfold total, andthen. destruct (m w) as [[[a|] tr] w']; [|done].
  intros HP Hk. specialize (Hk a w' HP). by destruct (k a w') as [[[b|] tr'] w''].
Qed.

Lemma total_do {B} q (k : answer q → prog W B) w (Q : B → W → Prop) :
  (∀ a w', ask q w = (a, w') → total (k a) w' Q) → total (andthen (perform q) k) w Q.
Proof.
  intros Hk. eapply (total_andthen _ _ _ (λ a w', ask q w = (a, w'))); [|exact Hk].
  by apply total_perform.
Qed.

Lemma total_mono {A} (m : prog W A) w (P Q : A → W → Prop) :
  total m w P → (∀ a w', P a w' → Q a w') → total m w Q.
Proof. unfold total. destruct (m w) as [[[a|] tr] w']; eauto. Qed.

Lemma total_runs {A} (m : prog W A) w Q :
  total m w Q → ∃ a tr w', m w = (Some a, tr, w') ∧ Q a w'.
Proof. unfold total. destruct (m w) as [[[a|] tr] w']; [|done]. eauto. Qed.

End total.

(** What the clock and [thread::sleep] promise: time never runs backwards, a
    reading lies between the moments before and after it, and sleeping takes at
    least as long as asked. *)
Class ClockLaws (W : Type) `{World W} : Type := {
  clock : W → Instant;
  clock_monotone q w : (clock w ≤ clock (ask q w).2)%N;
  clock_reading w : (clock w ≤ (ask QNow w).1 ≤ clock (ask QNow w).2)%N;
  clock_sleep d w : (clock w + d ≤ clock (ask (QSleep d) w).2)%N
}.

(** One request of a program under a triple. *)
Ltac perform_step a :=
  lazymatch goal with
  | |- triple ?st ?ck ?s (perform ?q) ?Q => refine (triple_perform st ck s q Q _)
  | |- triple ?st ?ck ?s (andthen (perform ?q) ?k) ?Q => refine (triple_do st ck s q k Q _)
  end; intros a.
