(* ===== verification/Simulation.v ===== *)
(** * A simulated machine

    A concrete world for [System]: a clock that moves only when something sleeps,
    an agent that grants a bounded number of two-second leases, and a child that
    exits after a number of polls.  The theorems about [eltanin run] are about
    every world; this one shows that their hypotheses can hold. *)

From Stdlib Require Import Strings.Byte.
From S2P Require Import Prelude Resource Identity Policy PolicySpec Lease.
From S2P Require Import Protocol Client Cli System.

Record machine : Type := mk_machine {
  time : Instant;
  grants_left : nat;
  next_lease : N;
  polls_left : nat;
  queued : list Z
}.

Definition machine_instance : IssuerInstanceId := mk_IssuerInstanceId "agent-pid-7-start-9".

Definition machine_ask (q : query) (w : machine) : answer q * machine :=
  match q return answer q * machine with
  | QNow => (time w, w)
  | QExchange (RequestLease _) =>
      match grants_left w with
      | 0 => (Ok (ErrorResponse CodeInternal), w)
      | S n =>
          (Ok (LeaseGranted (mk_LeaseView (mk_LeaseId machine_instance (next_lease w))
                 (Duration_from_secs 2))),
           mk_machine (time w) n (next_lease w + 1) (polls_left w) (queued w))
      end
  | QExchange (ReleaseLease _) => (Ok (LeaseReleased Released), w)
  | QExchange AgentStatus => (Ok (ErrorResponse CodeInternal), w)
  | QEstablish | QTeardown => (Ok (), w)
  | QInstallSignals => (Ok (), w)
  | QSpawn _ _ => (Ok 42%N, w)
  | QTryWait =>
      match polls_left w with
      | 0 => (Ok (Some (mk_ExitStatus 768)), w)
      | S n => (Ok None, mk_machine (time w) (grants_left w) (next_lease w) n (queued w))
      end
  | QWait => (Ok (mk_ExitStatus 9), w)
  | QSignals => (queued w, mk_machine (time w) (grants_left w) (next_lease w) (polls_left w) [])
  | QKill _ _ | QKillGroup _ _ | QKillChild => (Ok (), w)
  | QSleep d => ((), mk_machine (time w + d) (grants_left w) (next_lease w) (polls_left w) (queued w))
  | QWarn => ((), w)
  end.

#[export] Instance machine_world : World machine := { ask := machine_ask }.

#[export] Instance machine_rustix : Rustix := {
  Pid_from_raw n := if decide (n = 0%N) then None else Some n;
  Signal_from_named_raw n := if decide (n = 99)%Z then None else Some n
}.

#[export] Instance machine_clock : ClockLaws machine.
Proof.
  refine {| clock := time |}.
  - intros [| [] | | | | | | | | | | | |] w; cbn; try lia; by case_match.
  - intros w. cbn. lia.
  - intros d w. cbn. lia.
Defined.

(** The workload exits by itself with status 3, after two renewals. *)
Definition obliging : machine := mk_machine 1000 9 0 11 [15; 99; 2]%Z.

(** One lease, no renewal, and a child that does not stop. *)
Definition stubborn : machine := mk_machine 1000 1 0 100 [].

Definition machine_argv : list OsString :=
  [os "run"; os "--profile"; os "gpu-train"; os "--"; os "train"; os "--epochs"; os "3"].

Definition machine_load (_ : ProfileName) : result ProfileDocument ProfileLoadError :=
  Ok (mk_ProfileDocument sample_resource Compute).

Definition machine_client : result AgentClient ClientError := AgentClient_from_env None.
