(* ===== verification/Supervise.v ===== *)
(** * Supervising a workload

    Models [crates/eltanin-cli/src/supervise.rs]: the poll loop that forwards
    signals, renews the lease and terminates a workload whose authorization
    lapsed, and the bounded release.  [thread::sleep], the clock, the child and the
    agent are the world's answers.  The loops take fuel: the number of their
    iterations. *)

From S2P Require Import Prelude Resource Identity Policy PolicySpec Lease.
From S2P Require Import Protocol Client Cli System Simulation.

Definition POLL_INTERVAL : Duration := Duration_from_millis 200.
Definition TERMINATION_GRACE : Duration := Duration_from_secs 5.
Definition MIN_RENEWAL_RETRY_INTERVAL : Duration := Duration_from_millis 500.
Definition RENEWAL_RETRY_BACKOFF : Duration := Duration_from_secs 1.
Definition RELEASE_RETRY_BACKOFFS : list Duration :=
  [Duration_from_millis 100; Duration_from_millis 200].
Definition MAX_LEASE_REMAINING : Duration := Duration_from_secs (365 * 24 * 3600).

Definition safe_deadline (base : Instant) (remaining : Duration) : Instant :=
  default base (Instant_checked_add base (N.min remaining MAX_LEASE_REMAINING)).

Inductive RunOutcome : Type :=
  | WorkloadExited (status : ExitStatus)
  | AuthorizationLapsed (suppressed : option ExitStatus).

Record Renewal : Type := mk_Renewal {
  renewal_lease_id : LeaseId;
  deadline : Instant;
  renew_at : Instant
}.

(** The code adds to an [Instant] the process read from its clock; an overflow
    would take a reading within two seconds of [Instant_max]. *)
Definition next_renewal_retry (attempted_at deadline : Instant) : Instant :=
  N.min (N.max (attempted_at + RENEWAL_RETRY_BACKOFF) (attempted_at + MIN_RENEWAL_RETRY_INTERVAL))
    deadline.

Section supervise.
Context {W : Type} `{World W, Rustix}.

Definition exchange (rq : ClientRequest) : prog W (result AgentResponse ClientError) :=
  perform (QExchange rq).

(** [child.try_wait().unwrap_or(None)]. *)
Definition try_wait : prog W (option ExitStatus) :=
  do r <- perform QTryWait;;
  pure (match r with Ok status => status | Err _ => None end).

(** The [for attempt in 0..attempts] loop, with the backoffs still unused. *)
Fixpoint release_loop (attempts : nat) (backoffs : list Duration) (id : LeaseId) : prog W () :=
  match attempts with
  | 0 => perform QWarn
  | S attempts =>
      do r <- exchange (ReleaseLease (mk_ReleaseRequest id));;
      match r with
      | Ok (LeaseReleased _) => pure ()
      | _ =>
          match backoffs with
          | [] => release_loop attempts [] id
          | backoff :: backoffs => perform (QSleep backoff);;; release_loop attempts backoffs id
          end
      end
  end.

Definition release (id : LeaseId) : prog W () :=
  release_loop (1 + length RELEASE_RETRY_BACKOFFS) RELEASE_RETRY_BACKOFFS id.

Definition pid_from_u32 (pid : N) : option N :=
  if decide (pid ≤ 2147483647)%N then Pid_from_raw pid else None.

Definition forward_to_child (child_pid : N) (signal : Z) : prog W () :=
  match pid_from_u32 child_pid with
  | None => pure ()
  | Some pid =>
      match Signal_from_named_raw signal with
      | None => perform QWarn
      | Some sig =>
          do r <- perform (QKill pid (SigNamed sig));;
          match r with Ok _ => pure () | Err _ => perform QWarn end
      end
  end.

Fixpoint forward_all (child_pid : N) (signals : list Z) : prog W () :=
  match signals with
  | [] => pure ()
  | signal :: signals => forward_to_child child_pid signal;;; forward_all child_pid signals
  end.

Definition renew (rq : LeaseRequest) (r : Renewal) : prog W Renewal :=
  do attempted_at <- perform QNow;;
  do response <- exchange (RequestLease rq);;
  match response with
  | Ok (LeaseGranted lease) =>
      release (renewal_lease_id r);;;
      pure (mk_Renewal (view_lease_id lease)
              (safe_deadline attempted_at (view_remaining lease))
              (safe_deadline attempted_at (view_remaining lease / 2)))
  | _ =>
      pure (mk_Renewal (renewal_lease_id r) (deadline r)
              (next_renewal_retry attempted_at (deadline r)))
  end.

(** The [while Instant::now() < deadline] loop. *)
Fixpoint grace_loop (fuel : nat) (until : Instant) : prog W (option ExitStatus) :=
  match fuel with
  | 0 => stuck
  | S fuel =>
      do now <- perform QNow;;
      if decide (now < until)%N then
        do status <- try_wait;;
        match status with
        | Some status => pure (Some status)
        | None => perform (QSleep POLL_INTERVAL);;; grace_loop fuel until
        end
      else pure None
  end.

(** As many polls as fit in the grace period, and the one that ends it. *)
Definition grace_fuel : nat := 27.

Definition terminate_for_lapsed_authorization (child_pid : N) : prog W (option ExitStatus) :=
  match pid_from_u32 child_pid with
  | None => try_wait
  | Some pgid =>
      perform (QKillGroup pgid SigTerm);;;
      do now <- perform QNow;;
      do status <- grace_loop grace_fuel (now + TERMINATION_GRACE);;
      match status with
      | Some status => pure (Some status)
      | None =>
          perform (QKillGroup pgid SigKill);;;
          perform QKillChild;;;
          do r <- perform QWait;;
          pure (match r with Ok status => Some status | Err _ => None end)
      end
  end.

Fixpoint supervise_loop (fuel : nat) (rq : LeaseRequest) (r : Renewal) (child_pid : N) :
    prog W RunOutcome :=
  match fuel with
  | 0 => stuck
  | S fuel =>
      do status <- try_wait;;
      match status with
      | Some status => release (renewal_lease_id r);;; pure (WorkloadExited status)
      | None =>
          do signals <- perform QSignals;;
          forward_all child_pid signals;;;
          do now <- perform QNow;;
          if decide (deadline r ≤ now)%N then
            do suppressed <- terminate_for_lapsed_authorization child_pid;;
            release (renewal_lease_id r);;;
            pure (AuthorizationLapsed suppressed)
          else
            do r <- (if decide (renew_at r ≤ now)%N then renew rq r else pure r);;
            perform (QSleep POLL_INTERVAL);;;
            supervise_loop fuel rq r child_pid
      end
  end.

Definition supervise (fuel : nat) (rq : LeaseRequest) (initial_lease_id : LeaseId)
    (initial_remaining : Duration) (grant_observed_at : Instant) (child_pid : N) :
    prog W RunOutcome :=
  supervise_loop fuel rq
    (mk_Renewal initial_lease_id
       (safe_deadline grant_observed_at initial_remaining)
       (safe_deadline grant_observed_at (initial_remaining / 2)))
    child_pid.

End supervise.

(** ** Releasing *)

Section releasing.
Context {W : Type} `{World W}.

Definition release_query (id : LeaseId) : query := QExchange (ReleaseLease (mk_ReleaseRequest id)).

(** No answer to a release was a [LeaseReleased], whatever its outcome. *)
Definition unanswered (id : LeaseId) (tr : list event) : Prop :=
  ∀ a out, (release_query id ▷ a) ∈ tr → a ≠ Ok (LeaseReleased out).

Lemma unanswered_cons_other id e tr :
  asked e ≠ release_query id → unanswered id (e :: tr) ↔ unanswered id tr.
Proof.
  intros He. unfold unanswered. setoid_rewrite elem_of_cons. split; intros Hu a out.
  - intros Hin. apply Hu. by right.
  - intros [<-|Hin]; [done|by apply Hu].
Qed.

(** Two events for one release request have the same answer if they are equal. *)
Lemma release_event_inj id (a b : answer (release_query id)) :
  release_query id ▷ a = release_query id ▷ b → a = b.
Proof.
  intros He.
  pose proof (f_equal (λ e : event, match e with
    | mk_event q x => match q return answer q → option (result AgentResponse ClientError) with
                      | QExchange _ => Some
                      | _ => λ _, None
                      end x
    end) He) as Hx.
  cbn in Hx. by injection Hx.
Qed.

Lemma unanswered_cons id (a : answer (release_query id)) tr :
  unanswered id ((release_query id ▷ a) :: tr) ↔
    (∀ out, a ≠ Ok (LeaseReleased out)) ∧ unanswered id tr.
Proof.
  unfold unanswered. setoid_rewrite elem_of_cons. split.
  - intros Hu. split; [intros out; apply Hu; by left|]. intros b out Hin. apply Hu. by right.
  - intros [Ha Hu] b out [Hb|Hin]; [apply release_event_inj in Hb as ->; by apply Ha|by apply Hu].
Qed.

Lemma release_loop_outcome n bs id :
  always (W := W) (release_loop n bs id) (λ o tr, o = Some () ∧ length tr ≤ 1 + n + length bs ∧
    ((QWarn ▷ ()) ∈ tr ↔ unanswered id tr)).
Proof.
  revert bs. induction n as [|n IH]; intros bs; cbn [release_loop].
  { refine (always_perform QWarn _ _). intros []. split; [done|]. split; [cbn; lia|].
    split; [|intros _; by left]. intros _ a out Hin%list_elem_of_singleton. done. }
  unfold exchange. refine (always_do (release_query id) _ _ _). intros a.
  assert (∀ tr, (QWarn ▷ ()) ∈ (release_query id ▷ a) :: tr ↔ (QWarn ▷ ()) ∈ tr) as Hskip.
  { intros tr. rewrite elem_of_cons. naive_solver. }
  assert ((∀ out, a ≠ Ok (LeaseReleased out)) →
    always (W := W) (match bs with [] => release_loop n [] id
      | b :: bs => perform (QSleep b);;; release_loop n bs id end)
    (λ o tr, o = Some () ∧ length ((release_query id ▷ a) :: tr) ≤ 1 + S n + length bs ∧
       ((QWarn ▷ ()) ∈ (release_query id ▷ a) :: tr ↔ unanswered id ((release_query id ▷ a) :: tr)))) as Hretry.
  { intros Hno. destruct bs as [|b bs].
    - eapply always_mono; [apply IH|]. cbn beta. intros o tr (-> & Hl & Hw).
      split; [done|]. split; [cbn in *; lia|]. rewrite Hskip, unanswered_cons, Hw. tauto.
    - refine (always_do (QSleep b) _ _ _). intros a'.
      eapply always_mono; [apply IH|]. cbn beta. intros o tr (-> & Hl & Hw).
      split; [done|]. split; [cbn in *; lia|].
      rewrite Hskip, unanswered_cons, unanswered_cons_other, <-Hw by done.
      rewrite elem_of_cons. naive_solver. }
  destruct a as [[]|]; try (by apply Hretry). apply always_pure.
  split; [done|]. split; [cbn; lia|]. rewrite Hskip, unanswered_cons. split.
  - by intros ?%elem_of_nil.
  - intros [Hno _]. by destruct (Hno outcome).
Qed.

(** A release is bounded and warns only when nothing answered.  Whatever the
    agent does, [release] finishes after at most three requests and two pauses
    and never fails its caller; it warns exactly when no request was answered by
    a [LeaseReleased], and so stays silent when the agent refused the release. *)
Theorem release_warns_iff_unanswered (id : LeaseId) :
  always (W := W) (release id) (λ o tr, o = Some () ∧ length tr ≤ 6 ∧
    ((QWarn ▷ ()) ∈ tr ↔ unanswered id tr)).
Proof. apply release_loop_outcome. Qed.

End releasing.

(** ** Termination *)

Section termination.
Context {W : Type} `{World W, Rustix, !ClockLaws W}.

(** The agent grants nothing any more. *)
Class Refusing (refusing : W → Prop) : Prop := {
  refusing_stays q w : refusing w → refusing (ask q w).2;
  refusing_denies rq l w : refusing w → (ask (QExchange (RequestLease rq)) w).1 ≠ Ok (LeaseGranted l)
}.

Context (refusing : W → Prop) `{!Refusing refusing}.

(** Time passes and the agent goes on refusing. *)
Definition later (w w' : W) : Prop := refusing w' ∧ (clock w ≤ clock w')%N.

Lemma later_refl w : refusing w → later w w.
Proof. unfold later. intros. split; [done|lia]. Qed.

Lemma later_trans w1 w2 w3 : later w1 w2 → later w2 w3 → later w1 w3.
Proof. unfold later. intros [] []. split; [done|lia]. Qed.

#[local] Hint Resolve later_refl later_trans : eltanin.

Lemma ask_later q w a w' : refusing w → ask q w = (a, w') → later w w'.
Proof.
  intros Hr Ha. pose proof (refusing_stays q w Hr). pose proof (clock_monotone q w).
  by rewrite Ha in *.
Qed.

Lemma step_later {B} q (k : answer q → prog W B) w (Q : B → W → Prop) :
  refusing w →
  (∀ a w', later w w' → total (k a) w' Q) →
  total (andthen (perform q) k) w Q.
Proof. intros Hr Hk. apply total_do. intros a w' Ha. by eapply Hk, ask_later. Qed.

Lemma last_later q w (Q : answer q → W → Prop) :
  refusing w → (∀ a w', later w w' → Q a w') → total (perform q) w Q.
Proof. intros Hr HQ. apply total_perform. intros a w' Ha. by eapply HQ, ask_later. Qed.

Lemma now_later {B} (k : Instant → prog W B) w (Q : B → W → Prop) :
  refusing w →
  (∀ now w', later w w' → (clock w ≤ now ≤ clock w')%N → total (k now) w' Q) →
  total (andthen (perform QNow) k) w Q.
Proof.
  intros Hr Hk. apply (total_do QNow). intros now w' Ha. apply Hk; [by eapply ask_later|].
  pose proof (clock_reading w). by rewrite Ha in *.
Qed.

(** A poll that sleeps moves the clock on by its interval. *)
Lemma sleep_later {B} d (k : () → prog W B) w (Q : B → W → Prop) :
  refusing w →
  (∀ a w', later w w' → (clock w + d ≤ clock w')%N → total (k a) w' Q) →
  total (andthen (perform (QSleep d)) k) w Q.
Proof.
  intros Hr Hk. apply (total_do (QSleep d)). intros a w' Ha. apply Hk; [by eapply ask_later|].
  pose proof (clock_sleep d w). by rewrite Ha in *.
Qed.

(** The next request of a program, in a later world. *)
Ltac later_step a w Hw :=
  lazymatch goal with
  | |- total (andthen (perform ?q) ?k) ?w0 ?Q =>
      refine (step_later q k w0 Q _ _); [|intros a w Hw]
  | |- total (perform ?q) ?w0 ?Q => refine (last_later q w0 Q _ _); [|intros a w Hw]
  end.

Lemma try_wait_later w : refusing w → total try_wait w (λ _ w', later w w').
Proof. intros Hr. unfold try_wait. later_step a w1 H1; [done|]. by apply total_pure. Qed.

Lemma release_loop_later n bs id w :
  refusing w → total (release_loop n bs id) w (λ _ w', later w w').
Proof.
  revert bs w. induction n as [|n IH]; intros bs w Hr; cbn [release_loop].
  { by later_step a w1 H1. }
  unfold exchange. later_step a w1 H1; [done|].
  assert (∀ bs w2, later w w2 → total (release_loop n bs id) w2 (λ _ w', later w w')) as Hagain.
  { intros bs' w2 H2. eapply total_mono; [apply IH, H2|]. intros ? w3. by apply later_trans. }
  assert (total (match bs with [] => release_loop n [] id
     | b :: bs => perform (QSleep b);;; release_loop n bs id end) w1 (λ _ w', later w w')) as Hretry.
  { destruct bs as [|b bs]; [by apply Hagain|]. later_step a' w2 H2; [apply H1|].
    apply Hagain. by apply (later_trans w w1). }
  destruct a as [[]|]; try exact Hretry. by apply total_pure.
Qed.

Lemma forward_to_child_later c sg w :
  refusing w → total (forward_to_child c sg) w (λ _ w', later w w').
Proof.
  intros Hr. unfold forward_to_child.
  destruct (pid_from_u32 c); [|by apply total_pure, later_refl].
  destruct (Signal_from_named_raw sg); [|by later_step a w1 H1].
  later_step a w1 H1; [done|]. destruct a; [by apply total_pure|].
  later_step a w2 H2; [apply H1|]. by apply (later_trans w w1).
Qed.

Lemma forward_all_later c l w : refusing w → total (forward_all c l) w (λ _ w', later w w').
Proof.
  revert w. induction l as [|sg l IH]; intros w Hr; cbn [forward_all].
  { by apply total_pure, later_refl. }
  eapply total_andthen; [by apply forward_to_child_later|].
  intros ? w1 H1. eapply total_mono; [apply IH, H1|]. intros ? w2. by apply later_trans.
Qed.

Lemma grace_loop_total n dl w :
  refusing w → (dl ≤ clock w + N.of_nat n * POLL_INTERVAL)%N →
  total (grace_loop (S n) dl) w (λ _ w', later w w').
Proof.
  remember (S n) as m eqn:Hm. revert n w Hm.
  induction m as [|m IH]; intros n w [= ->] Hr Hdl; cbn [grace_loop].
  apply now_later; [done|]. intros now w1 H1 Hnow. case_decide as Hd; [|by apply total_pure].
  destruct n as [|n]; [lia|].
  eapply total_andthen; [apply try_wait_later, H1|]. intros [st|] w2 H2.
  { by apply total_pure, (later_trans w w1). }
  apply sleep_later; [apply H2|]. intros ? w3 H3 Hclk.
  pose proof (later_trans _ _ _ H1 H2) as H12. eapply total_mono; [apply (IH n); [done|apply H3|]|].
  - destruct H12. lia.
  - intros ? w4 H4. eauto with eltanin.
Qed.

Lemma terminate_total c w :
  refusing w → total (terminate_for_lapsed_authorization c) w (λ _ w', later w w').
Proof.
  intros Hr. unfold terminate_for_lapsed_authorization.
  destruct (pid_from_u32 c) as [p|]; [|by apply try_wait_later].
  later_step a1 w1 H1; [done|]. apply now_later; [apply H1|]. intros now w2 H2 Hnow.
  eapply total_andthen.
  { apply (grace_loop_total 26); [apply H2|].
    unfold TERMINATION_GRACE, POLL_INTERVAL, Duration_from_secs, Duration_from_millis, nanos_per_sec. lia. }
  intros [st|] w3 H3; [apply total_pure; eauto with eltanin|].
  later_step a4 w4 H4; [apply H3|]. later_step a5 w5 H5; [apply H4|].
  later_step a6 w6 H6; [apply H5|]. apply total_pure. eauto 10 with eltanin.
Qed.

Lemma renew_total rq r w :
  refusing w →
  total (renew rq r) w (λ r' w', later w w' ∧ deadline r' = deadline r).
Proof.
  intros Hr. unfold renew, exchange. apply now_later; [done|]. intros now w1 H1 _.
  apply (total_do (QExchange (RequestLease rq))). intros a w2 Ha.
  pose proof (ask_later _ _ _ _ (proj1 H1) Ha) as H2.
  pose proof (λ l, refusing_denies rq l w1 (proj1 H1)) as Hno. rewrite Ha in Hno.
  destruct a as [[l| | | |]|]; [by destruct (Hno l)|..];
    apply total_pure; eauto with eltanin.
Qed.

Lemma supervise_loop_total rq c n r w :
  refusing w → (deadline r ≤ clock w + N.of_nat n * POLL_INTERVAL)%N →
  total (supervise_loop (S n) rq r c) w (λ _ w', later w w').
Proof.
  remember (S n) as m eqn:Hm. revert n r w Hm.
  induction m as [|m IH]; intros n r w [= ->] Hr Hdl; cbn [supervise_loop].
  eapply total_andthen; [by apply try_wait_later|]. intros [st|] w1 H1.
  { eapply total_andthen; [apply release_loop_later, H1|]. intros ? w2 H2.
    apply total_pure. eauto with eltanin. }
  later_step sigs w2 H2; [apply H1|].
  eapply total_andthen; [apply forward_all_later, H2|]. intros ? w3 H3.
  pose proof (later_trans _ _ _ (later_trans _ _ _ H1 H2) H3) as H13.
  apply now_later; [apply H3|]. intros now w4 H4 Hnow.
  pose proof (later_trans _ _ _ H13 H4) as H14. case_decide as Hlapse.
  - eapply total_andthen; [apply terminate_total, H4|]. intros o w5 H5.
    eapply total_andthen; [apply release_loop_later, H5|]. intros ? w6 H6.
    apply total_pure. exact (later_trans _ _ _ (later_trans _ _ _ H14 H5) H6).
  - assert (∃ k, n = S k) as [k ->] by (exists (Nat.pred n); destruct n; [destruct H13|]; lia).
    eapply (total_andthen _ _ _ (λ r' w', later w4 w' ∧ deadline r' = deadline r)).
    { case_decide as Hd; [apply renew_total, H4|]. apply total_pure. split; [apply later_refl, H4|done]. }
    intros r' w5 [H5 Hr']. apply sleep_later; [apply H5|]. intros ? w6 H6 Hclk.
    pose proof (later_trans _ _ _ H14 H5) as H15.
    eapply total_mono; [apply (IH k); [done|apply H6|]|].
    + rewrite Hr'. destruct H15. lia.
    + intros ? w7 H7. eauto with eltanin.
Qed.

Lemma safe_deadline_clamped base remaining :
  (base ≤ safe_deadline base remaining ≤ base + MAX_LEASE_REMAINING)%N.
Proof. unfold safe_deadline, Instant_checked_add. case_decide; cbn; lia. Qed.

(** C35: a refused workload does not run on.  From any poll on at which the agent
    stops granting, with a clock that does not run backwards and sleeps that
    last, the supervisor finishes within as many polls as fit between now and the
    deadline of the lease it holds, plus the one that finds it: with the
    workload's own exit if that came first, or by terminating it.  Together with
    the clamp on a granted duration this bounds every such wait by a year's worth
    of polls. *)
Theorem supervise_terminates (rq : LeaseRequest) (r : Renewal) (child_pid : N) (w : W) (n : nat)
    (Hrefuse : refusing w) (Hfuel : (deadline r ≤ clock w + N.of_nat n * POLL_INTERVAL)%N) :
  (∃ o tr w', supervise_loop (S n) rq r child_pid w = (Some o, tr, w') ∧ later w w') ∧
  (∀ base remaining,
     (base ≤ safe_deadline base remaining ≤ base + MAX_LEASE_REMAINING)%N).
Proof.
  split.
  - by apply total_runs, supervise_loop_total.
  - apply safe_deadline_clamped.
Qed.

End termination.

(** ** Witness *)

(** The stubborn child's agent has no grant left. *)
Definition spent (w : machine) : Prop := grants_left w = 0.

#[export] Instance spent_refusing : Refusing spent.
Proof.
  split; unfold spent.
  - intros [| [] | | | | | | | | | | | |] w Hw; cbn; try done; rewrite ?Hw; try done; by case_match.
  - intros rq l w Hw. cbn. by rewrite Hw.
Qed.

Lemma supervise_terminates_witness :
  ∃ o tr w', supervise_loop 11 (mk_LeaseRequest sample_resource Compute)
    (mk_Renewal (mk_LeaseId machine_instance 0) (Duration_from_secs 2) (Duration_from_secs 1)) 42
    (mk_machine 0 0 1 100 []) = (Some o, tr, w') ∧ spent w'.
Proof.
  destruct (supervise_terminates spent (mk_LeaseRequest sample_resource Compute)
    (mk_Renewal (mk_LeaseId machine_instance 0) (Duration_from_secs 2) (Duration_from_secs 1)) 42
    (mk_machine 0 0 1 100 []) 10) as [(o & tr & w' & Hrun & Hw & _) _].
  - done.
  - by vm_compute.
  - exists o, tr, w'. split; [exact Hrun|exact Hw].
Defined.
