(* ===== verification/Launch.v ===== *)
(** * Launching a workload

    Models [crates/eltanin-cli/src/launch.rs] and the end of [main.rs]: the
    sequence from the resolved profile to the exit status, over the
    [GovernedContext] of [context.rs].  Its theorems are proved by monitoring the
    traces of [run]: which leases are held while the workload lives, when it is
    terminated, and in which order everything is undone. *)

From S2P Require Import Prelude Resource Identity Policy PolicySpec Lease.
From S2P Require Import Protocol Client Cli System Simulation Supervise.

Inductive LaunchOutcome : Type :=
  | Failure (failure : LaunchFailure)
  | Exit (code : N).

Definition u8_try_from (z : Z) : option N :=
  if decide (0 ≤ z ≤ 255)%Z then Some (Z.to_N z) else None.

Definition status_to_exit_code (status : ExitStatus) : N :=
  match ExitStatus_code status with
  | Some code => default u8_max (u8_try_from code)
  | None =>
      match ExitStatus_signal status with
      | Some signal => workload_signal_exit_code (default u8_max (u8_try_from signal))
      | None => ExitCode_code ExitAgentError
      end
  end.

Definition spawn_failure_code (e : spawn_error) : N :=
  match e with
  | SpawnNotFound => 127
  | SpawnOther => 126
  end.

(** [NullContext], the only [GovernedContext] there is, never fails. *)
Definition NullContext_establish : result () GovernedContextError := Ok ().
Definition NullContext_teardown : result () GovernedContextError := Ok ().

Section launch.
Context {W : Type} `{World W, Rustix}.

Definition outcome_to_exit (outcome : RunOutcome) : prog W LaunchOutcome :=
  match outcome with
  | WorkloadExited status => pure (Exit (status_to_exit_code status))
  | AuthorizationLapsed suppressed =>
      match suppressed with
      | Some _ => perform QWarn
      | None => pure ()
      end;;;
      pure (Exit (ExitCode_code ExitAuthorizationLapsed))
  end.

(** The calls to the context are requests, so that any context is covered. *)
Definition teardown : prog W () :=
  do r <- perform QTeardown;;
  match r with
  | Ok _ => pure ()
  | Err _ => perform QWarn
  end.

Definition request_initial_lease (rq : LeaseRequest) :
    prog W (result (LeaseId * Duration * Instant) LaunchFailure) :=
  do grant_observed_at <- perform QNow;;
  do response <- exchange (RequestLease rq);;
  pure
    (match response with
     | Err e => Err (FailAgentUnavailable (UnavailableClient e))
     | Ok (LeaseGranted lease) =>
         Ok (view_lease_id lease, view_remaining lease, grant_observed_at)
     | Ok other =>
         Err (default (FailAgentUnavailable UnavailableUnclassified) (classify_response other))
     end).

(** [load] is [load_profile] over the file system, [client] what
    [AgentClient::from_env] found. *)
Definition run (fuel : nat) (load : ProfileName → result ProfileDocument ProfileLoadError)
    (client : result AgentClient ClientError) (invocation : RunInvocation) :
    prog W LaunchOutcome :=
  match load (profile invocation) with
  | Err e => pure (Failure (FailProfileUnresolved e))
  | Ok document =>
      let rq := mk_LeaseRequest (profile_resource document) (profile_action document) in
      do established <- perform QEstablish;;
      match established with
      | Err e => pure (Failure (FailGovernedContext e))
      | Ok _ =>
          match client with
          | Err e =>
              teardown;;;
              pure (Failure (FailAgentUnavailable (UnavailableClient e)))
          | Ok _ =>
              do granted <- request_initial_lease rq;;
              match granted with
              | Err failure => teardown;;; pure (Failure failure)
              | Ok (id, remaining, grant_observed_at) =>
                  do installed <- perform QInstallSignals;;
                  match installed with
                  | Err why =>
                      release id;;;
                      teardown;;;
                      pure (Failure (FailAgentUnavailable (UnavailableSignals why)))
                  | Ok _ =>
                      do spawned <- perform (QSpawn (program invocation) (args invocation));;
                      match spawned with
                      | Ok child =>
                          do outcome <- supervise fuel rq id remaining grant_observed_at child;;
                          teardown;;;
                          outcome_to_exit outcome
                      | Err e =>
                          release id;;;
                          teardown;;;
                          pure (Exit (spawn_failure_code e))
                      end
                  end
              end
          end
      end
  end.

Definition report (failure : LaunchFailure) : prog W N :=
  perform QWarn;;;
  pure (ExitCode_code (LaunchFailure_exit_code failure)).

(** [main] after [--help] and [--version]. *)
Definition main (fuel : nat) (load : ProfileName → result ProfileDocument ProfileLoadError)
    (client : result AgentClient ClientError) (argv : list OsString) : prog W N :=
  match parse_run argv with
  | Err e => report (FailUsage e)
  | Ok invocation =>
      do outcome <- run fuel load client invocation;;
      match outcome with
      | Failure failure => report failure
      | Exit code => pure code
      end
  end.

End launch.

(** ** The launch monitor *)

(** What a trace says at a point: the ids of the leases granted and not yet given
    back, the ids ever granted, whether none was granted twice, the child, whether it
    lives, the last clock reading, the id and the deadline of the latest grant,
    whether a reading since then was at or past it, the signals taken and not yet
    forwarded, whether the context was torn down, whether the workload was
    terminated, and the status it was last seen to exit with. *)
Record launch_state : Type := mk_launch_state {
  held : gset LeaseId;
  seen : gset LeaseId;
  fresh : bool;
  child : option N;
  alive : bool;
  last_now : Instant;
  latest : option (LeaseId * Instant);
  lapsed : bool;
  pending : list Z;
  torn : bool;
  killed : bool;
  status : option ExitStatus
}.

Definition launch_start : launch_state :=
  mk_launch_state ∅ ∅ true None false 0 None false [] false false None.

Definition with_held (s : launch_state) (h : gset LeaseId) : launch_state :=
  mk_launch_state h (seen s) (fresh s) (child s) (alive s) (last_now s) (latest s) (lapsed s)
    (pending s) (torn s) (killed s) (status s).

Definition with_pending (s : launch_state) (l : list Z) : launch_state :=
  mk_launch_state (held s) (seen s) (fresh s) (child s) (alive s) (last_now s) (latest s) (lapsed s)
    l (torn s) (killed s) (status s).

Definition note_now (s : launch_state) (now : Instant) : launch_state :=
  mk_launch_state (held s) (seen s) (fresh s) (child s) (alive s) now (latest s)
    (lapsed s || match latest s with Some (_, d) => bool_decide (d ≤ now)%N | None => false end)
    (pending s) (torn s) (killed s) (status s).

Definition note_grant (s : launch_state) (l : LeaseView) : launch_state :=
  mk_launch_state ({[view_lease_id l]} ∪ held s) ({[view_lease_id l]} ∪ seen s)
    (fresh s && bool_decide (view_lease_id l ∉ seen s)) (child s) (alive s) (last_now s)
    (Some (view_lease_id l, safe_deadline (last_now s) (view_remaining l))) false (pending s) (torn s) (killed s) (status s).

Definition note_exit (s : launch_state) (st : option ExitStatus) : launch_state :=
  mk_launch_state (held s) (seen s) (fresh s) (child s) false (last_now s) (latest s) (lapsed s)
    (pending s) (torn s) (killed s) st.

Definition note_kill (s : launch_state) : launch_state :=
  mk_launch_state (held s) (seen s) (fresh s) (child s) (alive s) (last_now s) (latest s) (lapsed s)
    (pending s) (torn s) true (status s).

Definition note_spawn (s : launch_state) (pid : N) : launch_state :=
  mk_launch_state (held s) (seen s) (fresh s) (Some pid) true (last_now s) (latest s) (lapsed s)
    (pending s) (torn s) (killed s) (status s).

Definition note_teardown (s : launch_state) : launch_state :=
  mk_launch_state (held s) (seen s) (fresh s) (child s) (alive s) (last_now s) (latest s) (lapsed s)
    (pending s) true (killed s) (status s).

(** Wait statuses of the two ways a process ends, checked value by value. *)
Lemma status_exited n :
  (n ≤ 255)%N → status_to_exit_code (mk_ExitStatus (Z.shiftl (Z.of_N n) 8)) = n.
Proof.
  intros Hn. assert (Forall (λ k, status_to_exit_code (mk_ExitStatus (Z.shiftl (Z.of_nat k) 8)) = N.of_nat k)
    (seq 0 256)) as Hall by by (apply (bool_decide_unpack _); vm_compute).
  rewrite Forall_forall in Hall. specialize (Hall (N.to_nat n)). rewrite N2Nat.id in Hall.
  rewrite <-nat_N_Z, N2Nat.id in Hall. apply Hall, elem_of_seq. lia.
Qed.

Lemma status_signaled n (dumped : bool) :
  (1 ≤ n ≤ 126)%N →
  status_to_exit_code (mk_ExitStatus (Z.lor (Z.of_N n) (if dumped then 128 else 0))) = (128 + n)%N.
Proof.
  intros Hn. assert (Forall (λ k, ∀ d : bool,
      status_to_exit_code (mk_ExitStatus (Z.lor (Z.of_nat k) (if d then 128 else 0)))
      = (128 + N.of_nat k)%N)
    (seq 1 126)) as Hall.
  { apply Forall_forall. intros k Hk d. revert k Hk. apply Forall_forall.
    destruct d; by apply (bool_decide_unpack _); vm_compute. }
  rewrite Forall_forall in Hall. specialize (Hall (N.to_nat n)). rewrite N2Nat.id in Hall.
  rewrite <-nat_N_Z in Hall. setoid_rewrite N2Nat.id in Hall.
  apply Hall, elem_of_seq. lia.
Qed.

Lemma swap_held (new old : LeaseId) : new ≠ old → ({[new]} ∪ {[old]}) ∖ {[old]} = ({[new]} : gset LeaseId).
Proof. intros. set_solver. Qed.

Lemma swap_held_subset (new old : LeaseId) (h : gset LeaseId) :
  h ⊆ {[old]} → ({[new]} ∪ h) ∖ {[old]} ⊆ {[new]}.
Proof. set_solver. Qed.

Lemma drop_subset (id : LeaseId) (h : gset LeaseId) : h ⊆ {[id]} → h ∖ {[id]} = ∅.
Proof. set_solver. Qed.

Lemma held_more (id : LeaseId) (h : gset LeaseId) : id ∈ {[id]} ∪ h.
Proof. set_solver. Qed.

Section monitor.
Context `{Rustix}.

Definition launch_step (s : launch_state) (e : event) : launch_state :=
  let 'mk_event q a := e in
  match q return answer q → launch_state with
  | QNow => λ now, note_now s now
  | QExchange (RequestLease _) => λ r,
      match r with Ok (LeaseGranted l) => note_grant s l | _ => s end
  | QExchange (ReleaseLease r) => λ _, with_held s (held s ∖ {[rr_lease_id r]})
  | QSpawn _ _ => λ r, match r with Ok pid => note_spawn s pid | Err _ => s end
  | QTryWait => λ r, match r with Ok (Some st) => note_exit s (Some st) | _ => s end
  | QWait => λ r, note_exit s (match r with Ok st => Some st | Err _ => None end)
  | QSignals => λ l, with_pending s (pending s ++ omap Signal_from_named_raw l)
  | QKill _ _ => λ _, with_pending s (tail (pending s))
  | QKillGroup _ _ | QKillChild => λ _, note_kill s
  | QTeardown => λ _, note_teardown s
  | _ => λ _, s
  end a.

(** The child's id is one a process can have. *)
Definition pid_ok (s : launch_state) : Prop := ∀ c, child s = Some c → pid_from_u32 c ≠ None.

(** The latest lease granted has not been given back. *)
Definition holds_latest (s : launch_state) : Prop :=
  match latest s with
  | Some (id, _) => id ∈ held s
  | None => False
  end.

(** What is checked of every event: a living workload is leased once the event
    has happened; nothing happens after the teardown, which finds no lease held
    and no workload alive; only a lapse is answered with a kill; and a signal is
    forwarded when it is next in line, before anything else is waited for. *)
Definition launch_check (s : launch_state) (e : event) : Prop :=
  let s' := launch_step s e in
  (fresh s' = true → pid_ok s' → alive s' = true → holds_latest s') ∧
  match asked e with
  | QNow | QSleep _ | QSignals => torn s = false ∧ (pid_ok s → pending s = [])
  | QExchange _ | QInstallSignals | QTryWait | QWait | QEstablish => torn s = false
  | QSpawn _ _ => torn s = false ∧ child s = None
  | QTeardown => torn s = false ∧ held s = ∅ ∧ (pid_ok s → pending s = [] ∧ alive s = false)
  | QKill p sig => torn s = false ∧
      ∃ n c, sig = SigNamed n ∧ child s = Some c ∧ pid_from_u32 c = Some p ∧
        head (pending s) = Some n
  | QKillGroup p _ => torn s = false ∧ lapsed s = true ∧
      ∃ c, child s = Some c ∧ pid_from_u32 c = Some p
  | QKillChild => torn s = false ∧ lapsed s = true
  | QWarn => True
  end.

(** ** Lemmas *)

Context {W : Type} `{World W}.

Abbreviation ltriple := (triple (W := W) launch_step launch_check).

Definition leased (s : launch_state) : Prop :=
  fresh s = true → pid_ok s → alive s = true → holds_latest s.

(** Nothing is torn down and no signal waits. *)
Definition running (s : launch_state) : Prop := torn s = false ∧ (pid_ok s → pending s = []).

Lemma try_wait_triple s :
  leased s → running s →
  ltriple s try_wait (λ o s', s' = if o is Some _ then note_exit s o else s).
Proof.
  intros Hl [Ht _]. unfold try_wait. perform_step a.
  destruct a as [[st|]|]; (split; [|by apply triple_pure]); split; done.
Qed.

Definition dropped (s : launch_state) (id : LeaseId) : launch_state := with_held s (held s ∖ {[id]}).

Lemma dropped_idemp s id : dropped (dropped s id) id = dropped s id.
Proof. unfold dropped, with_held. cbn. f_equal. set_solver. Qed.

Lemma release_loop_triple n bs s id :
  leased (dropped s id) → running s → dropped s id = s →
  ltriple s (release_loop n bs id) (λ _ s', s' = s).
Proof.
  revert bs. induction n as [|n IH]; intros bs Hl [Ht Hp] Hid; cbn [release_loop].
  { perform_step a. destruct a. rewrite Hid in Hl. done. }
  unfold exchange; perform_step r. split; [done|].
  change (launch_step s (QExchange (ReleaseLease (mk_ReleaseRequest id)) ▷ r)) with (dropped s id).
  rewrite Hid. assert (ltriple s (release_loop n [] id) (λ _ s', s' = s)) as Hdone by by apply IH.
  assert (ltriple s (match bs with [] => release_loop n [] id
     | b :: bs => perform (QSleep b);;; release_loop n bs id end) (λ _ s', s' = s)) as Hretry.
  { destruct bs as [|b bs]; [done|]. perform_step a. destruct a. split.
    - split; [by rewrite Hid in Hl|done].
    - by apply IH. }
  destruct r as [[]|]; try exact Hretry. by apply triple_pure.
Qed.

Lemma release_triple s id :
  leased (dropped s id) → running s →
  ltriple s (release id) (λ _ s', s' = dropped s id).
Proof.
  intros Hl [Ht Hp]. unfold release. cbn [release_loop plus length RELEASE_RETRY_BACKOFFS].
  assert (running (dropped s id)) as Hr by done.
  unfold exchange; perform_step r. split; [done|].
  change (launch_step s (QExchange (ReleaseLease (mk_ReleaseRequest id)) ▷ r)) with (dropped s id).
  assert (ltriple (dropped s id)
    (perform (QSleep (Duration_from_millis 100));;;
     release_loop 2 [Duration_from_millis 200] id) (λ _ s', s' = dropped s id)) as Hretry.
  { perform_step a. destruct a. split; [by split|].
    apply release_loop_triple; [by rewrite dropped_idemp|done|by rewrite dropped_idemp]. }
  destruct r as [[]|]; try exact Hretry. by apply triple_pure.
Qed.

Lemma forward_all_triple c s signals :
  leased s → torn s = false → child s = Some c →
  (pid_ok s → pending s = omap Signal_from_named_raw signals) →
  ltriple s (forward_all c signals) (λ _ s', ∃ l, s' = with_pending s l ∧ (pid_ok s → l = [])).
Proof.
  revert s. induction signals as [|sg signals IH]; intros s Hl Ht Hc Hp; cbn [forward_all].
  { apply triple_pure. exists (pending s). split; [by destruct s|done]. }
  apply (triple_andthen _ _ _ _ _ (λ _ s', ∃ l, s' = with_pending s l ∧
    (pid_ok s → l = omap Signal_from_named_raw signals))).
  - unfold forward_to_child. destruct (pid_from_u32 c) as [p|] eqn:Hpid.
    + destruct (Signal_from_named_raw sg) as [n|] eqn:Hsg.
      * perform_step r.
        assert (pid_ok s) as Hok by (intros ? Hc'; congruence).
        pose proof (Hp Hok) as Hpend. cbn [omap list_omap] in Hpend. rewrite Hsg in Hpend.
        split; [split; [done|]; split; [done|]|].
        { exists n, c. by rewrite Hpend. }
        change (launch_step s (QKill p (SigNamed n) ▷ r)) with (with_pending s (tail (pending s))).
        rewrite Hpend. cbn [tail].
        destruct r; [apply triple_pure|perform_step a; split; [done|]]; eauto.
      * perform_step a. split; [done|].
        exists (pending s). split; [by destruct s|]. intros Hok. rewrite (Hp Hok).
        cbn. by rewrite Hsg.
    + apply triple_pure. exists (pending s). split; [by destruct s|]. intros Hok. by destruct (Hok c).
  - intros _ s' (l & -> & Hl'). eapply triple_mono; [by apply (IH (with_pending s l))|].
    intros _ s' (l' & -> & ?). exists l'. done.
Qed.

(** The state while a workload runs under the lease [id]. *)
Definition supervised (s : launch_state) (c : N) (r : Renewal) : Prop :=
  running s ∧ child s = Some c ∧ alive s = true ∧ killed s = false ∧ latest s = Some (renewal_lease_id r, deadline r) ∧
  held s ⊆ {[renewal_lease_id r]} ∧
  (fresh s = true → held s = {[renewal_lease_id r]} ∧ renewal_lease_id r ∈ seen s).

Lemma supervised_leased s c r : supervised s c r → leased s.
Proof.
  intros (_ & _ & _ & _ & Hu & _ & Hf) Hfresh _ _. unfold holds_latest. rewrite Hu.
  destruct (Hf Hfresh) as [-> _]. by apply elem_of_singleton.
Qed.

Lemma renew_triple rq s c r :
  supervised s c r → ltriple s (renew rq r) (λ r' s', supervised s' c r').
Proof.
  intros Hs. pose proof (supervised_leased _ _ _ Hs) as Hl.
  destruct Hs as ([Ht Hp] & Hc & Ha & Hk & Hu & Hsub & Hf).
  unfold renew, exchange. perform_step at_. split; [done|].
  change (launch_step s (QNow ▷ at_)) with (note_now s at_). set (s1 := note_now s at_).
  perform_step a.
  assert (∀ r', renewal_lease_id r' = renewal_lease_id r → deadline r' = deadline r →
    supervised s1 c r') as Hsame.
  { intros r' Hid Hd. unfold supervised. rewrite Hid, Hd. done. }
  assert (launch_check s1 (QExchange (RequestLease rq) ▷ a)) as Hchk.
  { split; [|done]. destruct a as [[l| | | |]|]; try done. intros _ _ _. apply held_more. }
  split; [done|].
  destruct a as [[l| | | |]|]; try (apply triple_pure; by apply Hsame).
  change (launch_step s1 _) with (note_grant s1 l). set (s2 := note_grant s1 l).
  assert (fresh s2 = true → dropped s2 (renewal_lease_id r) = with_held s2 {[view_lease_id l]})
    as Hdrop.
  { cbn. intros [Hfr Hnew]%andb_true_iff. apply bool_decide_eq_true in Hnew.
    destruct (Hf Hfr) as [Hh Hin]. unfold dropped, with_held. cbn. rewrite Hh, swap_held; [done|].
    by intros Heq; rewrite Heq in Hnew. }
  eapply triple_andthen; [apply release_triple|].
  - intros Hfr _ _. cbn in Hfr. rewrite Hdrop by done.
    change (view_lease_id l ∈ ({[view_lease_id l]} : gset LeaseId)). by apply elem_of_singleton.
  - done.
  - intros _ s' ->. apply triple_pure. unfold supervised. cbn [renewal_lease_id deadline].
    split; [done|]. split; [done|]. split; [done|]. split; [done|]. split; [done|]. split.
    + by apply swap_held_subset.
    + intros Hfr. rewrite (Hdrop Hfr). split; [done|]. apply elem_of_union_l. by apply elem_of_singleton.
Qed.

(** What stays while a workload is being terminated. *)
Definition terminating (s s' : launch_state) : Prop :=
  held s' = held s ∧ seen s' = seen s ∧ fresh s' = fresh s ∧ child s' = child s ∧
  torn s' = torn s ∧ pending s' = pending s ∧ latest s' = latest s ∧
  (lapsed s = true → lapsed s' = true).

Lemma terminating_running s s' : terminating s s' → running s → running s'.
Proof. intros (_ & _ & _ & Hc & Ht & Hp & _ & _). unfold running, pid_ok. by rewrite Hc, Ht, Hp. Qed.

Lemma terminating_trans s1 s2 s3 : terminating s1 s2 → terminating s2 s3 → terminating s1 s3.
Proof. unfold terminating. intuition congruence. Qed.

Lemma grace_loop_triple n dl s :
  leased s → running s →
  ltriple s (grace_loop n dl) (λ o s', terminating s s' ∧ killed s' = killed s ∧
    if o is Some _ then alive s' = false ∧ status s' = o else alive s' = alive s).
Proof.
  revert s. induction n as [|n IH]; intros s Hl [Ht Hp]; cbn [grace_loop]; [apply triple_stuck|].
  perform_step now. split; [done|]. change (launch_step s _) with (note_now s now).
  assert (terminating s (note_now s now)) as Hterm.
  { unfold terminating. cbn. repeat split; try done. by intros ->. }
  case_decide; [|by apply triple_pure].
  eapply triple_andthen; [by apply try_wait_triple|]. intros [st|] s' ->.
  - by apply triple_pure.
  - perform_step a. destruct a. split; [done|].
    change (launch_step (note_now s now) _) with (note_now s now).
    eapply triple_mono; [by apply IH|]. cbn. intros o s' (Ht' & Hk & Ho).
    split; [by eapply terminating_trans|done].
Qed.

Lemma terminate_triple c s :
  leased s → running s → child s = Some c → lapsed s = true →
  ltriple s (terminate_for_lapsed_authorization c) (λ o s', terminating s s' ∧
    (pid_ok s → alive s' = false ∧ killed s' = true)).
Proof.
  intros Hl [Ht Hp] Hc Hlap. unfold terminate_for_lapsed_authorization.
  destruct (pid_from_u32 c) as [p|] eqn:Hpid.
  2:{ eapply triple_mono; [by apply try_wait_triple|]. intros o s' ->. split.
      - by destruct o.
      - intros Hok. by destruct (Hok c). }
  perform_step a. split; [split; [done|]; cbn; eauto 10|]. change (launch_step s _) with (note_kill s).
  perform_step now. split; [done|].
  change (launch_step (note_kill s) _) with (note_now (note_kill s) now).
  set (s1 := note_now (note_kill s) now).
  assert (terminating s s1) as Hterm.
  { unfold terminating. cbn. repeat split; try done. by intros ->. }
  eapply triple_andthen; [by apply grace_loop_triple|]. cbn beta.
  intros [st|] s2 (Ht2 & Hk2 & Ho).
  { apply triple_pure. split; [by eapply terminating_trans|]. intros _. destruct Ho as [Ho _]. by rewrite Hk2. }
  pose proof (terminating_trans _ _ _ Hterm Ht2) as Hterm2.
  pose proof (terminating_running _ _ Hterm2 (conj Ht Hp)) as [Ht' Hp'].
  destruct Hterm2 as (Hh2 & Hs2 & Hf2 & Hc2 & Ht2' & Hp2 & Hu2 & Hl2). specialize (Hl2 Hlap).
  assert (leased s2) as Hleased2.
  { unfold leased, pid_ok, holds_latest in *. rewrite Hf2, Hc2, Ho, Hu2.
    destruct (latest s) as [[id d]|]; [by rewrite Hh2|done]. }
  perform_step a'. split; [split; [done|]; split; [done|]; split; [done|]; rewrite Hc2; eauto|].
  change (launch_step s2 _) with (note_kill s2).
  perform_step a2. split; [done|]. change (launch_step _ _) with (note_kill (note_kill s2)).
  perform_step a3. split; [done|].
  apply triple_pure. split; [|done]. by unfold terminating.
Qed.

(** What supervision leaves behind, by its outcome. *)
Definition supervision_over (c : N) (o : RunOutcome) (s : launch_state) : Prop :=
  running s ∧ child s = Some c ∧ held s = ∅ ∧ (pid_ok s → alive s = false) ∧
  match o with
  | WorkloadExited st => killed s = false ∧ status s = Some st
  | AuthorizationLapsed _ => lapsed s = true ∧ (pid_ok s → killed s = true)
  end.

Lemma supervise_loop_triple fuel rq s c r :
  supervised s c r → ltriple s (supervise_loop fuel rq r c) (supervision_over c).
Proof.
  revert s r. induction fuel as [|fuel IH]; intros s r Hs; cbn [supervise_loop];
    [apply triple_stuck|].
  pose proof (supervised_leased _ _ _ Hs) as Hl.
  pose proof Hs as ([Ht Hp] & Hc & Ha & Hk & Hu & Hsub & Hf).
  eapply triple_andthen; [by apply try_wait_triple|]. intros [st|] s' ->.
  { eapply triple_andthen; [apply release_triple; [by intros ? ? ?|done]|]. intros _ s' ->.
    apply triple_pure. unfold supervision_over. cbn. repeat split; try done. by apply drop_subset. }
  perform_step sigs. split; [done|].
  change (launch_step s _) with (with_pending s (pending s ++ omap Signal_from_named_raw sigs)).
  set (s1 := with_pending s _).
  eapply triple_andthen.
  { apply forward_all_triple; [done..|]. intros Hok. cbn. by rewrite (Hp Hok). }
  cbn beta. intros _ s2 (l & -> & Hnil). set (s2 := with_pending s1 l).
  perform_step now. split; [done|]. change (launch_step s2 _) with (note_now s2 now).
  set (s3 := note_now s2 now).
  assert (supervised s3 c r) as Hs3 by done.
  case_decide as Hlapse.
  - eapply triple_andthen.
    { apply terminate_triple; [done|done|done|]. cbn. rewrite Hu, bool_decide_true by done.
      apply orb_true_r. }
    cbn beta. intros o s4 (Hterm & Hend).
    pose proof (terminating_running _ _ Hterm (proj1 Hs3)) as Hrun4.
    pose proof Hterm as (Hh4 & _ & Hf4 & Hc4 & _ & _ & _ & Hl4).
    assert (pid_ok s4 → pid_ok s3) as Hok4 by (unfold pid_ok; by rewrite Hc4).
    eapply triple_andthen.
    { apply release_triple; [|done]. intros _ Hok Halive. cbn in Halive.
      destruct (Hend (Hok4 Hok)) as [Hdead _]. congruence. }
    intros _ s5 ->. apply triple_pure.
    split; [done|]. split; [by cbn; rewrite Hc4|]. split; [cbn; rewrite Hh4; by apply drop_subset|].
    split; [intros Hok; by apply Hend, Hok4|]. split.
    + apply Hl4. cbn. rewrite Hu, bool_decide_true by done. apply orb_true_r.
    + intros Hok. by apply Hend, Hok4.
  - eapply (triple_andthen _ _ _ _ _ (λ r' s', supervised s' c r')).
    { case_decide; [by apply renew_triple|by apply triple_pure]. }
    intros r' s4 Hs4. perform_step a. destruct a. split.
    + split; [by eapply supervised_leased|]. split; apply Hs4.
    + by apply IH.
Qed.


(** What [run] leaves behind: the exit status of a workload that was started, and
    whether there was a context to tear down. *)
Definition launch_over (o : LaunchOutcome) (s : launch_state) : Prop :=
  held s = ∅ ∧ (pid_ok s → alive s = false ∧ pending s = []) ∧
  match o with
  | Failure f => child s = None ∧
      match f with
      | FailProfileUnresolved _ | FailGovernedContext _ => torn s = false ∧ seen s = ∅
      | FailUsage _ | FailAuthorizationLapsed => False
      | _ => torn s = true
      end
  | Exit code => torn s = true ∧
      match child s with
      | None => code = 126%N ∨ code = 127%N
      | Some _ => pid_ok s →
          if killed s then code = 76%N
          else ∃ st, status s = Some st ∧ code = status_to_exit_code st
      end
  end.

Lemma teardown_triple s :
  running s → held s = ∅ → (pid_ok s → alive s = false) →
  ltriple s teardown (λ _ s', s' = note_teardown s).
Proof.
  intros [Ht Hp] Hh Ha. unfold teardown. perform_step r.
  assert (leased (note_teardown s)) as Hl.
  { intros _ Hok Halive. cbn in Halive. rewrite Ha in Halive; done. }
  split.
  - split; [done|]. split; [done|]. split; [done|]. intros Hok. split; [by apply Hp|by apply Ha].
  - change (launch_step s _) with (note_teardown s).
    destruct r; [by apply triple_pure|]. by perform_step a.
Qed.

(** Undoing everything before the workload was started. *)
Lemma undo_triple {A} s id (a : A) :
  running s → alive s = false → held s ⊆ {[id]} →
  ltriple s (release id;;; teardown;;; pure a) (λ a' s', a' = a ∧ s' = note_teardown (dropped s id)).
Proof.
  intros Hr Ha Hh. eapply triple_andthen.
  { apply release_triple; [|done]. intros _ _ Halive. cbn in Halive. congruence. }
  intros _ s1 ->. eapply triple_andthen.
  { apply teardown_triple; [done|by apply drop_subset|done]. }
  intros _ s2 ->. by apply triple_pure.
Qed.

(** What the agent, or its absence, can refuse a launch with. *)
Definition refusal (f : LaunchFailure) : Prop :=
  match f with
  | FailAgentUnavailable _ | FailAgentError _ | FailDenied _ => True
  | _ => False
  end.

Lemma request_initial_lease_triple rq :
  ltriple launch_start (request_initial_lease rq) (λ g s, ∃ now,
    match g with
    | Ok (id, remaining, t) =>
        t = now ∧ s = note_grant (note_now launch_start now) (mk_LeaseView id remaining)
    | Err f => refusal f ∧ s = note_now launch_start now
    end).
Proof.
  unfold request_initial_lease, exchange. perform_step now. split; [done|].
  change (launch_step launch_start _) with (note_now launch_start now).
  perform_step a. split; [by destruct a as [[]|]|].
  apply triple_pure. exists now. destruct a as [[[]| | | |]|]; done.
Qed.

Lemma run_triple fuel load client inv :
  ltriple launch_start (run fuel load client inv) launch_over.
Proof.
  unfold run. destruct (load (profile inv)) as [document|e].
  2:{ apply triple_pure. by repeat split. }
  perform_step established. split; [done|]. change (launch_step _ _) with launch_start.
  destruct established as [[]|e].
  2:{ apply triple_pure. by repeat split. }
  destruct client as [cl|e].
  2:{ eapply triple_andthen; [by apply teardown_triple|]. intros _ s ->.
      apply triple_pure. by repeat split. }
  eapply triple_andthen; [apply request_initial_lease_triple|]. cbn beta.
  intros [[[id remaining] t]|f] s0 (now & Hg).
  2:{ destruct Hg as [Hf ->]. eapply triple_andthen; [by apply teardown_triple|].
      intros _ s ->. apply triple_pure. by destruct f. }
  destruct Hg as [-> ->]. set (s1 := note_grant _ _).
  assert (held s1 ⊆ {[id]}) as Hsub by (cbn; rewrite union_empty_r_L; done).
  perform_step installed. split; [done|]. change (launch_step s1 _) with s1.
  destruct installed as [[]|why].
  2:{ eapply triple_mono; [by apply undo_triple|]. intros o s [-> ->].
      split; [by apply drop_subset|]. by repeat split. }
  perform_step spawned. destruct spawned as [c|e].
  2:{ split; [done|]. eapply triple_mono; [by apply undo_triple|]. intros o s [-> ->].
      split; [by apply drop_subset|]. split; [done|]. split; [done|]. destruct e; cbn; auto. }
  split; [split; [intros _ _ _; apply held_more|done]|].
  change (launch_step s1 _) with (note_spawn s1 c).
  unfold supervise. eapply triple_andthen.
  { apply supervise_loop_triple. unfold supervised. cbn [renewal_lease_id deadline].
    split; [done|]. split; [done|]. split; [done|]. split; [done|]. split; [done|]. split; [done|].
    intros _. cbn. rewrite !union_empty_r_L. split; [done|]. by apply elem_of_singleton. }
  intros o s2 (Hrun & Hc & Hh & Ha & Ho). eapply triple_andthen; [by apply teardown_triple|].
  intros _ s ->.
  assert (∀ code, (pid_ok s2 → if killed s2 then code = 76%N
      else ∃ st, status s2 = Some st ∧ code = status_to_exit_code st) →
    launch_over (Exit code) (note_teardown s2)) as Hover.
  { intros code Hcode. split; [done|]. split; [intros Hok; split; [by apply Ha|by apply Hrun]|].
    split; [done|]. cbn. by rewrite Hc. }
  destruct o as [st|suppressed]; cbn [outcome_to_exit].
  - apply triple_pure, Hover. intros _. destruct Ho as [-> ->]. eauto.
  - assert (launch_over (Exit (ExitCode_code ExitAuthorizationLapsed)) (note_teardown s2)) as Hlapsed.
    { apply Hover. intros Hok. destruct Ho as [_ Hk]. by rewrite Hk. }
    destruct suppressed; [|by apply triple_pure].
    perform_step a. split; [|by apply triple_pure].
    split; [|done]. intros _ Hok Halive. cbn in Halive. rewrite Ha in Halive; done.
Qed.

(** What [main] leaves behind. *)
Definition main_over (argv : list OsString) (code : N) (s : launch_state) : Prop :=
  held s = ∅ ∧ (pid_ok s → alive s = false ∧ pending s = []) ∧
  (torn s = false → seen s = ∅ ∧ child s = None) ∧
  (∀ e, parse_run argv = Err e → code = 64%N) ∧
  match child s with
  | None => code ∈ [64; 69; 70; 74; 77; 78; 126; 127]%N
  | Some _ => pid_ok s →
      if killed s then code = 76%N
      else ∃ st, status s = Some st ∧ code = status_to_exit_code st
  end.

Lemma main_triple fuel load client argv :
  ltriple launch_start (main fuel load client argv) (main_over argv).
Proof.
  unfold main. destruct (parse_run argv) as [inv|e] eqn:Hargv.
  2:{ unfold report. perform_step a. split; [done|]. apply triple_pure.
      unfold main_over. split; [done|]. split; [done|]. split; [done|]. split; [done|]. cbn. set_solver. }
  eapply triple_andthen; [apply run_triple|]. intros [f|code] s (Hh & Hend & Ho).
  - destruct Ho as [Hc Hf]. unfold report. perform_step a.
    split. { split; [|done]. intros _ Hok Halive. destruct (Hend Hok) as [Hd _]. cbn in Halive. congruence. }
    apply triple_pure. change (launch_step s _) with s. unfold main_over. rewrite Hc, Hargv.
    split; [done|]. split; [done|]. split; [by destruct f; intuition congruence|]. split; [done|].
    destruct f; cbn; try done; set_solver.
  - destruct Ho as [Ht Ho]. apply triple_pure. unfold main_over. rewrite Hargv, Ht.
    split; [done|]. split; [done|]. split; [done|]. split; [done|].
    destruct (child s); [done|]. destruct Ho as [->| ->]; set_solver.
Qed.

(** *** Reading the monitor *)

Definition grant_of (e : event) : option LeaseView :=
  let 'mk_event q a := e in
  match q return answer q → option LeaseView with
  | QExchange (RequestLease _) => λ r, match r with Ok (LeaseGranted l) => Some l | _ => None end
  | _ => λ _, None
  end a.

Definition granted_ids (tr : list event) : list LeaseId :=
  omap (λ e, view_lease_id <$> grant_of e) tr.

Abbreviation after := (foldl launch_step launch_start).

Lemma step_grant s e l : grant_of e = Some l → launch_step s e = note_grant s l.
Proof.
  destruct e as [[| [] | | | | | | | | | | | |] a]; cbn; try done. destruct a as [[]|]; naive_solver.
Qed.

Lemma step_no_grant s e :
  grant_of e = None →
  seen (launch_step s e) = seen s ∧ fresh (launch_step s e) = fresh s ∧
  latest (launch_step s e) = latest s.
Proof.
  destruct e as [[| [] | | | | | | | | | | | |] a]; cbn; try done.
  - by destruct a as [[]|].
  - by destruct a.
  - by destruct a as [[]|].
Qed.

Lemma granted_ids_snoc tr e :
  granted_ids (tr ++ [e]) = granted_ids tr ++ from_option (λ l, [view_lease_id l]) [] (grant_of e).
Proof. unfold granted_ids. rewrite omap_app. cbn. by destruct (grant_of e). Qed.

Lemma after_fresh tr :
  seen (after tr) = list_to_set (granted_ids tr) ∧
  (fresh (after tr) = true ↔ NoDup (granted_ids tr)).
Proof.
  induction tr as [|e tr [IHs IHf]] using rev_ind.
  { split; [done|]. split; [constructor|done]. }
  rewrite foldl_snoc, granted_ids_snoc. destruct (grant_of e) as [l|] eqn:Hg; cbn [from_option].
  - rewrite (step_grant _ _ _ Hg). cbn [seen fresh note_grant]. split.
    + rewrite IHs, list_to_set_app_L. cbn. set_solver.
    + rewrite andb_true_iff, bool_decide_eq_true, IHf, IHs, elem_of_list_to_set, NoDup_app.
      split.
      * intros [? Hn]. split; [done|]. split; [|apply NoDup_singleton].
        intros i Hi ->%list_elem_of_singleton. done.
      * intros (? & Hd & _). split; [done|]. intros Hi. apply (Hd _ Hi). by left.
  - destruct (step_no_grant (after tr) e Hg) as (-> & -> & _). by rewrite app_nil_r.
Qed.


(** A lapse was read off the clock: since the latest grant, a reading at or past
    its deadline. *)
Definition lapse_read (tr : list event) : Prop :=
  ∃ a rq l b now, tr = a ++ (QExchange (RequestLease rq) ▷ Ok (LeaseGranted l)) :: b ∧
    granted_ids b = [] ∧ (QNow ▷ now) ∈ b ∧
    (safe_deadline (last_now (after a)) (view_remaining l) ≤ now)%N.

Lemma grant_of_Some e l :
  grant_of e = Some l → ∃ rq, e = QExchange (RequestLease rq) ▷ Ok (LeaseGranted l).
Proof.
  destruct e as [[| [rq| |] | | | | | | | | | | | |] a]; cbn; try done.
  destruct a as [[]|]; try done. intros [= ->]. by exists rq.
Qed.

Lemma lapse_read_snoc tr e : grant_of e = None → lapse_read tr → lapse_read (tr ++ [e]).
Proof.
  intros Hg (a & rq & l & b & now & -> & Hb & Hin & Hle). exists a, rq, l, (b ++ [e]), now.
  split; [by rewrite <-app_assoc|]. split; [by rewrite granted_ids_snoc, Hb, Hg|].
  split; [|done]. apply elem_of_app. by left.
Qed.

Lemma after_latest tr id u :
  latest (after tr) = Some (id, u) →
  ∃ a rq l b, tr = a ++ (QExchange (RequestLease rq) ▷ Ok (LeaseGranted l)) :: b ∧
    granted_ids b = [] ∧ id = view_lease_id l ∧
    u = safe_deadline (last_now (after a)) (view_remaining l).
Proof.
  induction tr as [|e tr IH] using rev_ind; [done|]. rewrite foldl_snoc.
  destruct (grant_of e) as [l|] eqn:Hg.
  - rewrite (step_grant _ _ _ Hg). intros [= <- <-]. apply grant_of_Some in Hg as [rq ->].
    by exists tr, rq, l, [].
  - destruct (step_no_grant (after tr) e Hg) as (_ & _ & ->). intros Hu.
    destruct (IH Hu) as (a & rq & l & b & -> & Hb & Heq). exists a, rq, l, (b ++ [e]).
    split; [by rewrite <-app_assoc|]. split; [by rewrite granted_ids_snoc, Hb, Hg|done].
Qed.

Lemma after_lapsed tr : lapsed (after tr) = true → lapse_read tr.
Proof.
  induction tr as [|e tr IH] using rev_ind; [done|]. rewrite foldl_snoc.
  destruct (grant_of e) as [l|] eqn:Hg; [by rewrite (step_grant _ _ _ Hg)|].
  destruct (decide (asked e = QNow)) as [He|Hne].
  - destruct e as [q now]. cbn in He. subst q. cbn. intros [Hl|Hl]%orb_true_iff; [by apply lapse_read_snoc, IH|].
    destruct (latest (after tr)) as [[id u]|] eqn:Hu; [|done]. apply bool_decide_eq_true in Hl.
    destruct (after_latest _ _ _ Hu) as (a & rq & l & b & -> & Hb & _ & ->).
    exists a, rq, l, (b ++ [QNow ▷ now]), now. split; [by rewrite <-app_assoc|].
    split; [by rewrite granted_ids_snoc, Hb|]. split; [|done]. apply elem_of_app. right. by left.
  - intros Hl. apply lapse_read_snoc; [done|]. apply IH. revert Hl Hg.
    destruct e as [[| [] | | | | | | | | | | | |] a]; cbn; try done.
    + by destruct a as [[]|].
    + by destruct a.
    + by destruct a as [[]|].
Qed.

(** What is held stays held until it is asked to be released. *)
Lemma held_until_released s tr id :
  id ∈ held s → id ∉ held (foldl launch_step s tr) →
  ∃ e, e ∈ tr ∧ asked e = QExchange (ReleaseLease (mk_ReleaseRequest id)).
Proof.
  revert s. induction tr as [|e tr IH]; intros s Hin Hout; [done|]. cbn [foldl] in Hout.
  destruct (decide (id ∈ held (launch_step s e))) as [Hin'|Hout'].
  - destruct (IH _ Hin' Hout) as (e' & ? & ?). exists e'. split; [by right|done].
  - exists e. split; [by left|]. revert Hout'. clear IH Hout.
    destruct e as [[| [rq|[rid]|] | | | | | | | | | | | |] a]; cbn; try done.
    + destruct a as [[]|]; cbn; set_solver.
    + destruct (decide (rid = id)) as [->|]; [done|set_solver].
    + by destruct a.
    + by destruct a as [[]|].
Qed.

(** After the teardown there are only warnings. *)
Lemma passes_torn s tr :
  passes launch_step launch_check s tr → torn s = true → Forall (λ e, asked e = QWarn) tr.
Proof.
  revert s. induction tr as [|e tr IH]; intros s Hp Ht; [done|].
  destruct Hp as [[_ Hc] Hp].
  assert (asked e = QWarn) as He.
  { destruct e as [[] a]; cbn in *; try done; exfalso; intuition congruence. }
  constructor; [done|]. apply (IH _ Hp). destruct e as [q a]. cbn in He. by subst q.
Qed.

Lemma after_torn tr : torn (after tr) = true → ∃ pre r post, tr = pre ++ (QTeardown ▷ r) :: post.
Proof.
  induction tr as [|e tr IH] using rev_ind; [done|]. rewrite foldl_snoc. intros Ht.
  destruct (decide (asked e = QTeardown)) as [He|He].
  - destruct e as [q a]. cbn in He. subst q. by exists tr, a, [].
  - destruct IH as (pre & r & post & ->).
    + revert Ht He. destruct e as [[| [] | | | | | | | | | | | |] a]; cbn; try done.
      * by destruct a as [[]|].
      * by destruct a.
      * by destruct a as [[]|].
    + exists pre, r, (post ++ [e]). by rewrite <-app_assoc.
Qed.

(** The recognised signals taken from the queue, and those sent on. *)
Definition received (tr : list event) : list Z :=
  tr ≫= λ e, let 'mk_event q a := e in
    match q return answer q → list Z with
    | QSignals => omap Signal_from_named_raw
    | _ => λ _, []
    end a.

Definition forwarded (tr : list event) : list UnixSignal :=
  omap (λ e, match asked e with QKill _ sig => Some sig | _ => None end) tr.

Lemma forwarded_pending tr :
  passes launch_step launch_check launch_start tr →
  (SigNamed <$> received tr) = forwarded tr ++ (SigNamed <$> pending (after tr)).
Proof.
  induction tr as [|e tr IH] using rev_ind; [done|]. intros [Hp [[_ Hc] _]]%passes_app.
  rewrite foldl_snoc. unfold received, forwarded in *. rewrite bind_app, omap_app, fmap_app, IH by done.
  cbn. destruct e as [[| [] | | | | | | | | | | | |] a]; cbn in *;
    rewrite ?app_nil_r; try done.
  - by destruct a as [[]|].
  - by destruct a.
  - by destruct a as [[]|].
  - by rewrite <-app_assoc, fmap_app.
  - destruct Hc as (_ & n & c & -> & _ & _ & Hhd). destruct (pending (after tr)); [done|].
    cbn in *. injection Hhd as ->. by rewrite <-app_assoc.
Qed.


Lemma main_passes fuel load client argv o tr :
  runs (main fuel load client argv) o tr →
  passes launch_step launch_check launch_start tr ∧ ∀ code, o = Some code → main_over argv code (after tr).
Proof. apply triple_runs, main_triple. Qed.

(** A living workload holds the lease granted last. *)
Lemma alive_holds_latest fuel load client argv o pre post :
  runs (main fuel load client argv) o (pre ++ post) →
  fresh (after pre) = true → pid_ok (after pre) → alive (after pre) = true →
  holds_latest (after pre).
Proof.
  intros Hrun. destruct (main_passes _ _ _ _ _ _ Hrun) as [Hp _].
  destruct pre as [|e pre _] using rev_ind; [done|].
  rewrite <-app_assoc in Hp. apply passes_at in Hp as [Hl _]. rewrite foldl_snoc. apply Hl.
Qed.

(** ** Properties *)

(** C12: a workload is never without a lease.  At every point of every run of
    [eltanin run], finished or not, whatever the agent, the clock and the child
    do: if the workload is alive (spawned, not yet seen to have exited), the
    lease granted last to this launch has not been given back; in particular
    nothing is spawned before a grant, and a renewal acquires the new lease before
    it releases the old one.  Assumes that the agent does not grant one id twice and
    that the child's id is a process id. *)
Theorem workload_leased_while_alive (fuel : nat)
    (load : ProfileName → result ProfileDocument ProfileLoadError)
    (client : result AgentClient ClientError) (argv : list OsString) (o : option N)
    (pre post : list event) (Hrun : runs (main fuel load client argv) o (pre ++ post))
    (Hids : NoDup (granted_ids pre)) (Hpid : pid_ok (after pre)) :
  alive (after pre) = true →
  ∃ a rq l b, pre = a ++ (QExchange (RequestLease rq) ▷ Ok (LeaseGranted l)) :: b ∧
    granted_ids b = [] ∧ view_lease_id l ∈ held (after pre).
Proof.
  intros Ha. assert (holds_latest (after pre)) as Hl.
  { eapply alive_holds_latest; [done|by apply after_fresh|done..]. }
  unfold holds_latest in Hl. destruct (latest (after pre)) as [[id d]|] eqn:Hlat; [|done].
  destruct (after_latest _ _ _ Hlat) as (a & rq & l & b & Hpre & Hb & -> & _).
  by exists a, rq, l, b.
Qed.

(** C22: only a lapse kills.  Whenever the workload, or its process group, is sent
    a terminating signal, the clock had been read at or past the deadline of the
    latest grant, since that grant: authorized work is never terminated early,
    however often a renewal fails.  The deadline counts from a reading taken
    before the lease was asked for, so it is never later than the agent's.  A forwarded signal goes
    to the child alone, a termination to its process group. *)
Theorem terminated_only_after_lapse (fuel : nat)
    (load : ProfileName → result ProfileDocument ProfileLoadError)
    (client : result AgentClient ClientError) (argv : list OsString) (o : option N)
    (pre post : list event) (e : event)
    (Hrun : runs (main fuel load client argv) o (pre ++ e :: post)) :
  match asked e with
  | QKillGroup pgid _ => lapse_read pre ∧ ∃ c, child (after pre) = Some c ∧ pid_from_u32 c = Some pgid
  | QKillChild => lapse_read pre
  | QKill pid _ => ∃ c, child (after pre) = Some c ∧ pid_from_u32 c = Some pid
  | _ => True
  end.
Proof.
  destruct (main_passes _ _ _ _ _ _ Hrun) as [[_ Hc]%passes_at _].
  destruct (asked e); try done.
  - destruct Hc as (_ & n & c & _ & Hc & Hpid & _). by exists c.
  - destruct Hc as (_ & Hl & Hc). split; [by apply after_lapsed|done].
  - apply after_lapsed, Hc.
Qed.

(** Signals are forwarded exactly once and in order.  At every point the
    signals sent to the workload are those taken from the queue so far, in order
    and without duplicates, short at most of the ones being forwarded right now;
    none is outstanding when the supervisor waits again or when it finishes. *)
Theorem signals_forwarded_once (fuel : nat)
    (load : ProfileName → result ProfileDocument ProfileLoadError)
    (client : result AgentClient ClientError) (argv : list OsString) (o : option N)
    (pre post : list event) (Hrun : runs (main fuel load client argv) o (pre ++ post))
    (Hpid : pid_ok (after pre)) :
  (∃ rest, SigNamed <$> received pre = forwarded pre ++ rest) ∧
  (post = [] ∧ o ≠ None ∨
     (∃ e post', post = e :: post' ∧ match asked e with QSleep _ | QSignals => True | _ => False end) →
   forwarded pre = SigNamed <$> received pre).
Proof.
  destruct (main_passes _ _ _ _ _ _ Hrun) as [Hp Hover].
  assert (passes launch_step launch_check launch_start pre) as Hpre by by apply passes_app in Hp as [? _].
  rewrite (forwarded_pending _ Hpre). split; [by eexists|].
  intros Hwhen. enough (pending (after pre) = []) as -> by (cbn; by rewrite app_nil_r).
  destruct Hwhen as [[-> Ho]|(e & post' & -> & He)].
  - destruct o as [code|]; [|done]. rewrite app_nil_r in Hover.
    by apply (Hover code).
  - apply passes_at in Hp as [_ Hc]. by destruct (asked e); try done; apply Hc.
Qed.

(** C28: everything is undone, in order.  When [eltanin run] finishes, every lease
    it was granted, by the first request or a renewal, was afterwards asked to be
    released; the workload is not left running; and if anything was granted the
    governed context was torn down once, when no lease was held and no workload
    alive, with nothing but warnings after it. *)
Theorem launch_undone_in_order (fuel : nat)
    (load : ProfileName → result ProfileDocument ProfileLoadError)
    (client : result AgentClient ClientError) (argv : list OsString) (code : N)
    (tr : list event) (Hrun : runs (main fuel load client argv) (Some code) tr) :
  (∀ a e b l, tr = a ++ e :: b → grant_of e = Some l →
     ∃ e', e' ∈ b ∧ asked e' = QExchange (ReleaseLease (mk_ReleaseRequest (view_lease_id l)))) ∧
  (pid_ok (after tr) → alive (after tr) = false) ∧
  (granted_ids tr ≠ [] → ∃ pre r post, tr = pre ++ (QTeardown ▷ r) :: post ∧
     held (after pre) = ∅ ∧ (pid_ok (after pre) → alive (after pre) = false) ∧
     Forall (λ e, asked e = QWarn) post).
Proof.
  destruct (main_passes _ _ _ _ _ _ Hrun) as [Hp Hover].
  destruct (Hover code eq_refl) as (Hh & Hend & Ht & _). clear Hover. split; [|split].
  - intros a e b l -> Hg. apply (held_until_released (launch_step (after a) e)).
    + rewrite (step_grant _ _ _ Hg). cbn. set_solver.
    + rewrite foldl_app in Hh. cbn in Hh. rewrite Hh. set_solver.
  - intros Hok. by apply Hend.
  - intros Hg. destruct (torn (after tr)) eqn:Htorn.
    + apply after_torn in Htorn as (pre & r & post & ->). exists pre, r, post.
      pose proof (passes_at _ _ _ _ _ _ Hp) as [_ (_ & Hheld & Halive)].
      split; [done|]. split; [done|]. split; [intros Hok; by apply Halive|].
      apply passes_app in Hp as [_ [_ Hp]]. by eapply passes_torn.
    + destruct (Ht eq_refl) as [Hs _]. destruct (after_fresh tr) as [Hseen _].
      rewrite Hs in Hseen. destruct (granted_ids tr); [done|]. set_solver.
Qed.

(** The exit status says what happened.  A usage error exits 64; without a
    workload the status is one of [eltanin run]'s own codes or 126 or 127; a
    workload that was terminated for a lapse exits 76, and otherwise its own
    status is passed through, the low byte of an exit and 128 plus the number of
    a signal. *)
Theorem exit_status_meaning (fuel : nat)
    (load : ProfileName → result ProfileDocument ProfileLoadError)
    (client : result AgentClient ClientError) (argv : list OsString) (code : N)
    (tr : list event) (Hrun : runs (main fuel load client argv) (Some code) tr)
    (Hpid : pid_ok (after tr)) (n : N) (dumped : bool) :
  ((∃ e, parse_run argv = Err e) → code = 64%N) ∧
  (child (after tr) = None → code ∈ [64; 69; 70; 74; 77; 78; 126; 127]%N) ∧
  (child (after tr) ≠ None →
     if killed (after tr) then code = 76%N
     else ∃ st, status (after tr) = Some st ∧ code = status_to_exit_code st) ∧
  ((n ≤ 255)%N → status_to_exit_code (mk_ExitStatus (Z.shiftl (Z.of_N n) 8)) = n) ∧
  ((1 ≤ n ≤ 126)%N →
     status_to_exit_code (mk_ExitStatus (Z.lor (Z.of_N n) (if dumped then 128 else 0))) = (128 + n)%N).
Proof.
  destruct (main_passes _ _ _ _ _ _ Hrun) as [_ Hover].
  destruct (Hover code eq_refl) as (_ & _ & _ & Husage & Hcode).
  split; [intros [e He]; by eapply Husage|].
  split; [intros Hc; by rewrite Hc in Hcode|].
  split; [intros Hc; destruct (child (after tr)); [by apply Hcode|done]|].
  split; intros Hn.
  - apply status_exited, Hn.
  - by apply status_signaled.
Qed.

End monitor.

(** ** Witnesses *)

Definition obliging_run := main 20 machine_load machine_client machine_argv obliging.
Definition stubborn_run := main 20 machine_load machine_client machine_argv stubborn.

Lemma obliging_runs : runs (main 20 machine_load machine_client machine_argv)
  obliging_run.1.1 obliging_run.1.2.
Proof. exact (runs_of _ obliging). Qed.

Lemma stubborn_runs : runs (main 20 machine_load machine_client machine_argv)
  stubborn_run.1.1 stubborn_run.1.2.
Proof. exact (runs_of _ stubborn). Qed.

(** The stubborn workload is killed and the launch exits 76; the obliging one's
    status 3 is passed through. *)
Example stubborn_exits_76 : stubborn_run.1.1 = Some 76%N.
Proof. by vm_compute. Qed.
Example obliging_exits_3 : obliging_run.1.1 = Some 3%N.
Proof. by vm_compute. Qed.

Lemma pid_ok_42 (s : launch_state) : child s = Some 42%N → pid_ok s.
Proof. intros Hc c. rewrite Hc. by intros [= <-]. Qed.

(** Just after the spawn. *)
Lemma workload_leased_while_alive_witness :
  ∃ l, view_lease_id l ∈ held (foldl launch_step launch_start (take 5 obliging_run.1.2)).
Proof.
  destruct (workload_leased_while_alive 20 machine_load machine_client machine_argv
    obliging_run.1.1 (take 5 obliging_run.1.2) (drop 5 obliging_run.1.2))
    as (_ & _ & l & _ & _ & _ & Hin).
  - rewrite take_drop. exact obliging_runs.
  - apply (bool_decide_unpack _). by vm_compute.
  - apply pid_ok_42. by vm_compute.
  - by vm_compute.
  - exists l. exact Hin.
Defined.

(** The first termination of the stubborn workload. *)
Definition first_kill : nat :=
  default 0 (fst <$> list_find (λ e, asked e = QKillGroup 42 SigTerm) stubborn_run.1.2).

Lemma terminated_only_after_lapse_witness :
  lapse_read (take first_kill stubborn_run.1.2).
Proof.
  assert (stubborn_run.1.2 !! first_kill = Some (QKillGroup 42 SigTerm ▷ Ok ())) as He
    by by vm_compute.
  apply (terminated_only_after_lapse 20 machine_load machine_client machine_argv
    stubborn_run.1.1 (take first_kill stubborn_run.1.2) (drop (S first_kill) stubborn_run.1.2)
    (QKillGroup 42 SigTerm ▷ Ok ())).
  rewrite (take_drop_middle _ _ _ He). exact stubborn_runs.
Defined.

Lemma signals_forwarded_once_witness :
  forwarded obliging_run.1.2 = [SigNamed 15; SigNamed 2].
Proof.
  transitivity (SigNamed <$> received obliging_run.1.2); [|by vm_compute].
  apply (signals_forwarded_once 20 machine_load machine_client machine_argv
    obliging_run.1.1 obliging_run.1.2 []).
  - rewrite app_nil_r. exact obliging_runs.
  - apply pid_ok_42. by vm_compute.
  - left. split; [done|]. rewrite obliging_exits_3. done.
Defined.

Lemma launch_undone_in_order_witness :
  ∃ pre r post, stubborn_run.1.2 = pre ++ (QTeardown ▷ r) :: post ∧
    held (foldl launch_step launch_start pre) = ∅.
Proof.
  destruct (launch_undone_in_order 20 machine_load machine_client machine_argv 76 stubborn_run.1.2)
    as (_ & _ & Hdown).
  - rewrite <-stubborn_exits_76. exact stubborn_runs.
  - destruct Hdown as (pre & r & post & Htr & Hh & _).
    + by vm_compute.
    + exists pre, r, post. split; [exact Htr|exact Hh].
Defined.

Lemma exit_status_meaning_witness :
  killed (foldl launch_step launch_start stubborn_run.1.2) = true ∧
  status_to_exit_code (mk_ExitStatus (Z.lor 9 128)) = 137%N.
Proof.
  destruct (exit_status_meaning 20 machine_load machine_client machine_argv 76 stubborn_run.1.2)
    with (n := 9%N) (dumped := true) as (_ & _ & _ & _ & Hsig).
  - rewrite <-stubborn_exits_76. exact stubborn_runs.
  - apply pid_ok_42. by vm_compute.
  - split; [by vm_compute|]. apply Hsig. lia.
Defined.
