(* ===== verification/Stages.v ===== *)
(** * The stages of a launch

    Models [crates/eltanin-cli/src/sequence.rs], the canonical order of a launch,
    and shows that the launch of [Launch] follows it: a monitor assigns every request
    of a run to a stage. *)

From S2P Require Import Prelude Resource Identity Policy PolicySpec Lease.
From S2P Require Import Protocol Client Cli System Simulation Supervise Launch.

Inductive LaunchStage : Type :=
  | StageParseArgv
  | StageResolveProfile
  | StageEstablishGovernedContext
  | StageConnectToAgent
  | StageRequestLease
  | StageInstallSignalHandlers
  | StageSpawnWorkload
  | StageSupervise
  | StageWorkloadExited
  | StageReleaseLease
  | StageTeardownGovernedContext
  | StageExit.

#[export] Instance LaunchStage_eq_dec : EqDecision LaunchStage.
Proof. solve_decision. Defined.

(** The derived order: that of the declaration. *)
Definition stage_index (s : LaunchStage) : nat :=
  match s with
  | StageParseArgv => 0
  | StageResolveProfile => 1
  | StageEstablishGovernedContext => 2
  | StageConnectToAgent => 3
  | StageRequestLease => 4
  | StageInstallSignalHandlers => 5
  | StageSpawnWorkload => 6
  | StageSupervise => 7
  | StageWorkloadExited => 8
  | StageReleaseLease => 9
  | StageTeardownGovernedContext => 10
  | StageExit => 11
  end.

Definition LaunchStage_le (s t : LaunchStage) : Prop := stage_index s ≤ stage_index t.

(** ** The monitor *)

(** A workload was started and was not seen to exit. *)
Definition supervising (s : LaunchStage) : bool :=
  bool_decide (s = StageSpawnWorkload ∨ s = StageSupervise).

(** The stage of a request, given the one reached: a clock reading, a lease request
    and the release of a superseded lease belong to the supervision of a workload.
    A warning belongs where it is made; the status is never asked for.
    The first clock reading is made to connect. *)
Definition stage_of (s : LaunchStage) (q : query) : LaunchStage :=
  match q with
  | QEstablish => StageEstablishGovernedContext
  | QNow => if supervising s then StageSupervise else StageConnectToAgent
  | QExchange (RequestLease _) => if supervising s then StageSupervise else StageRequestLease
  | QExchange (ReleaseLease _) => if supervising s then StageSupervise else StageReleaseLease
  | QInstallSignals => StageInstallSignalHandlers
  | QSpawn _ _ => StageSpawnWorkload
  | QTryWait | QWait | QSignals | QKill _ _ | QKillGroup _ _ | QKillChild => StageSupervise
  | QSleep _ => if supervising s then StageSupervise else StageReleaseLease
  | QTeardown => StageTeardownGovernedContext
  | QExchange AgentStatus | QWarn => s
  end.

(** The stage reached after the answer: without a context there is nothing left but
    to exit, a refused request leaves no lease, a workload that failed to start or was
    seen to exit is over. *)
Definition stage_step (s : LaunchStage) (e : event) : LaunchStage :=
  let 'mk_event q a := e in
  match q return answer q → LaunchStage with
  | QEstablish => λ r, match r with Ok _ => StageEstablishGovernedContext | Err _ => StageExit end
  | QExchange (RequestLease rq) => λ r,
      if supervising s then StageSupervise
      else match r with Ok (LeaseGranted _) => StageRequestLease | _ => StageReleaseLease end
  | QSpawn _ _ => λ r, match r with Ok _ => StageSpawnWorkload | Err _ => StageWorkloadExited end
  | QTryWait => λ r,
      match r with Ok (Some _) => StageWorkloadExited | _ => StageSupervise end
  | QWait => λ _, StageWorkloadExited
  | q => λ _, stage_of s q
  end a.

(** From which stages a request may be made. *)
Definition stage_check (s : LaunchStage) (e : event) : Prop :=
  match asked e with
  | QEstablish => s = StageParseArgv
  | QNow => supervising s = true ∨ s = StageEstablishGovernedContext
  | QExchange (RequestLease _) => supervising s = true ∨ s = StageConnectToAgent
  | QExchange (ReleaseLease _) =>
      supervising s = true ∨ s = StageInstallSignalHandlers ∨ s = StageWorkloadExited ∨
        s = StageReleaseLease
  | QInstallSignals => s = StageRequestLease
  | QSpawn _ _ => s = StageInstallSignalHandlers
  | QTryWait | QWait | QSignals | QKill _ _ | QKillGroup _ _ | QKillChild => supervising s = true
  | QSleep _ => supervising s = true ∨ s = StageReleaseLease
  | QTeardown => 2 ≤ stage_index s ≤ 9
  | QExchange AgentStatus => False
  | QWarn => True
  end.

(** The stages of the requests of a run, warnings aside. *)
Fixpoint stages (s : LaunchStage) (tr : list event) : list LaunchStage :=
  match tr with
  | [] => []
  | e :: tr =>
      let rest := stages (stage_step s e) tr in
      if decide (asked e = QWarn) then rest else stage_of s (asked e) :: rest
  end.

(** The stages that hold more than one request. *)
Definition repeated : list LaunchStage := [StageSupervise; StageReleaseLease].

(** ** Lemmas *)

Lemma supervising_spec s :
  supervising s = true ↔ s = StageSpawnWorkload ∨ s = StageSupervise.
Proof. apply bool_decide_eq_true. Qed.

(** Stages only move forward. *)
Lemma stage_of_forward s e :
  stage_check s e → LaunchStage_le s (stage_of s (asked e)) ∧
    LaunchStage_le (stage_of s (asked e)) (stage_step s e).
Proof.
  destruct e as [q a]. unfold stage_check, LaunchStage_le. cbn [asked].
  destruct q as [|[rq|r|]| | | |program args| | | |pid sig|pgid sig| |d|]; intros Hc; cbn in a |- *;
    try done; try (by rewrite Hc; split; cbn; lia);
    destruct s; vm_compute in Hc; try (by destruct_or?); try lia;
    repeat case_match; repeat match goal with Hs : supervising _ = _ |- _ => vm_compute in Hs end;
    try discriminate; vm_compute; try lia.
Qed.

(** But for the repeated ones, every request enters its stage. *)
Lemma stage_of_enters s e :
  stage_check s e → asked e ≠ QWarn → stage_of s (asked e) ∉ repeated →
  stage_index s < stage_index (stage_of s (asked e)).
Proof.
  destruct e as [q a]. unfold stage_check, repeated. cbn [asked].
  destruct q as [|[rq|r|]| | | |program args| | | |pid sig|pgid sig| |d|]; intros Hc Hq Hn; cbn in *;
    try done; try (by rewrite Hc; cbn; lia); try (by destruct Hn; repeat constructor);
    try lia; destruct (supervising s); try (by destruct Hn; repeat constructor);
    destruct_or?; subst; try done; cbn; lia.
Qed.

Lemma stages_sorted s tr :
  passes stage_step stage_check s tr →
  Forall (LaunchStage_le s) (stages s tr) ∧ StronglySorted LaunchStage_le (stages s tr).
Proof.
  revert s. induction tr as [|e tr IH]; intros s; [by repeat constructor|]. cbn [passes stages].
  intros [Hc Hp]. destruct (IH _ Hp) as [Hall Hsort].
  destruct (stage_of_forward s e Hc) as [H1 H2]. unfold LaunchStage_le in *.
  assert (Forall (λ t, stage_index s ≤ stage_index t) (stages (stage_step s e) tr)).
  { eapply Forall_impl; [exact Hall|]. cbn. intros t Ht. lia. }
  case_decide; [by split|]. split; constructor; try done.
  eapply Forall_impl; [exact Hall|]. cbn. intros t Ht. lia.
Qed.

Lemma stages_past s tr t :
  passes stage_step stage_check s tr → t ∉ repeated → stage_index t ≤ stage_index s →
  t ∉ stages s tr.
Proof.
  revert s. induction tr as [|e tr IH]; intros s; [by intros ??? ?%elem_of_nil|].
  cbn [passes stages]. intros [Hc Hp] Ht Hle.
  destruct (stage_of_forward s e Hc) as [H1 H2]. unfold LaunchStage_le in *.
  assert (t ∉ stages (stage_step s e) tr) as Hrest by (apply IH; [done|done|lia]).
  case_decide as Hw; [done|]. rewrite elem_of_cons. intros [->|?]; [|done].
  pose proof (stage_of_enters s e Hc Hw Ht). lia.
Qed.

Lemma filter_absent (t : LaunchStage) (l : list LaunchStage) :
  t ∉ l → filter (λ u, u = t) l = [].
Proof.
  induction l as [|u l IH]; [done|]. rewrite not_elem_of_cons. intros [Hne Hl].
  rewrite filter_cons_False; [by apply IH|congruence].
Qed.

Lemma stages_once s tr t :
  passes stage_step stage_check s tr → t ∉ repeated →
  length (filter (λ u, u = t) (stages s tr)) ≤ 1.
Proof.
  revert s. induction tr as [|e tr IH]; intros s; [cbn; lia|]. cbn [passes stages].
  intros [Hc Hp] Ht. destruct (stage_of_forward s e Hc) as [_ H2]. unfold LaunchStage_le in H2.
  case_decide as Hw; [by apply IH|]. rewrite filter_cons. case_decide as Heq; [|by apply IH].
  assert (t ∉ stages (stage_step s e) tr) as Hrest.
  { apply stages_past; [done|done|]. by rewrite <-Heq. }
  rewrite filter_absent by done. cbn. lia.
Qed.

(** Signal handlers are only installed, and the workload only started, once a lease
    was granted. *)
Definition granted (tr : list event) : Prop :=
  ∃ rq l, (QExchange (RequestLease rq) ▷ Ok (LeaseGranted l)) ∈ tr.

Lemma granted_before tr :
  passes stage_step stage_check StageParseArgv tr →
  foldl stage_step StageParseArgv tr = StageRequestLease ∨
  foldl stage_step StageParseArgv tr = StageInstallSignalHandlers → granted tr.
Proof.
  induction tr as [|e tr IH] using rev_ind; [by intros _ [?|?]|].
  intros [Hp [Hc _]]%passes_app. rewrite foldl_app. cbn [foldl].
  set (s := foldl stage_step StageParseArgv tr) in *.
  assert (granted tr → granted (tr ++ [e])) as Hmore.
  { intros (rq & l & Hin). exists rq, l. apply elem_of_app. by left. }
  destruct e as [q a]. unfold stage_check in Hc. cbn [asked] in Hc.
  destruct q as [|[rq|r|]| | | |program args| | | |pid sig|pgid sig| |d|]; cbn in a |- *;
    try (by intros [?|?]); try (by intros Hs; apply Hmore, IH).
  all: try (destruct (supervising s); by intros [?|?]).
  - destruct (supervising s); [by intros [?|?]|].
    destruct a as [[l| | | |]|]; try by intros [?|?]. intros _. exists rq, l.
    apply elem_of_app. right. by apply list_elem_of_singleton.
  - destruct a; by intros [?|?].
  - intros _. apply Hmore, IH; [done|]. by left.
  - destruct a; by intros [?|?].
  - by destruct a as [[]|]; intros [?|?].
Qed.

Lemma stages_snoc s tr e :
  stages s (tr ++ [e]) = stages s tr ++
    (if decide (asked e = QWarn) then [] else [stage_of (foldl stage_step s tr) (asked e)]).
Proof.
  revert s. induction tr as [|e' tr IH]; intros s; cbn [app stages foldl]; [by case_decide|].
  rewrite IH. by destruct (decide (asked e' = QWarn)).
Qed.

(** How a finished run ended, by the stage it is left in. *)
Lemma stages_last tr :
  passes stage_step stage_check StageParseArgv tr →
  match foldl stage_step StageParseArgv tr with
  | StageParseArgv => stages StageParseArgv tr = []
  | StageExit => stages StageParseArgv tr = [StageEstablishGovernedContext] ∧
      ∃ e, (QEstablish ▷ Err e) ∈ tr
  | StageTeardownGovernedContext =>
      last (stages StageParseArgv tr) = Some StageTeardownGovernedContext
  | _ => True
  end.
Proof.
  induction tr as [|e tr IH] using rev_ind; [done|].
  intros [Hp [Hc _]]%passes_app. specialize (IH Hp). rewrite foldl_app, stages_snoc. cbn [foldl].
  set (s := foldl stage_step StageParseArgv tr) in *.
  destruct e as [q a]. unfold stage_check in Hc. cbn [asked] in *.
  destruct q as [|[rq|r|]| | | |program args| | | |pid sig|pgid sig| |d|]; cbn in a |- *; try done.
  all: try (by destruct (supervising s)).
  - destruct (supervising s); [done|]. by destruct a as [[]|].
  - rewrite Hc in IH. destruct a as [[]|e]; [done|]. rewrite IH. split; [done|].
    exists e. apply elem_of_app. right. by apply list_elem_of_singleton.
  - rewrite decide_False by done. by rewrite last_snoc.
  - by destruct a.
  - by destruct a as [[]|].
  - rewrite decide_True, app_nil_r by done. destruct s; try done.
    destruct IH as [? [e ?]]. split; [done|].
    exists e. apply elem_of_app. by left.
Qed.

Section triples.
Context `{Rustix} {W : Type} `{World W}.

Abbreviation striple := (triple (W := W) stage_step stage_check).

(** From where a lease may be released: before the teardown, once the request for it
    was granted. *)
Definition may_release (s : LaunchStage) : Prop :=
  supervising s = true ∨ s = StageInstallSignalHandlers ∨ s = StageWorkloadExited ∨
    s = StageReleaseLease.

Lemma may_release_index s : may_release s → 5 ≤ stage_index s ≤ 9.
Proof.
  unfold may_release. rewrite supervising_spec.
  intros [[->| ->]|[->|[->| ->]]]; cbn; lia.
Qed.

Definition after_release (s : LaunchStage) : LaunchStage :=
  if supervising s then StageSupervise else StageReleaseLease.

Lemma after_release_idemp s : after_release (after_release s) = after_release s.
Proof. unfold after_release. by destruct (supervising s). Qed.

Lemma after_release_may s : may_release (after_release s).
Proof. unfold after_release. destruct (supervising s); [by left|by do 3 right]. Qed.

Lemma release_loop_stages n bs s id :
  may_release s → 0 < n →
  striple s (release_loop n bs id) (λ _ s', s' = after_release s).
Proof.
  revert s bs. induction n as [|n IH]; intros s bs Hs Hn; [lia|]. cbn [release_loop].
  unfold exchange. perform_step r. split; [exact Hs|].
  change (stage_step s _) with (after_release s).
  assert (∀ bs', striple (after_release s) (release_loop n bs' id)
    (λ _ s', s' = after_release s)) as Hloop.
  { intros bs'. destruct n as [|n]; [cbn [release_loop]; by perform_step a|].
    eapply triple_mono; [apply IH; [apply after_release_may|lia]|].
    intros _ s' ->. apply after_release_idemp. }
  assert (striple (after_release s) (match bs with [] => release_loop n [] id
     | b :: bs => perform (QSleep b);;; release_loop n bs id end)
     (λ _ s', s' = after_release s)) as Hretry.
  { destruct bs as [|b bs]; [apply Hloop|]. perform_step a. split.
    - unfold stage_check, after_release. cbn. destruct (supervising s); [by left|by right].
    - change (stage_step _ _) with (after_release (after_release s)).
      rewrite after_release_idemp. apply Hloop. }
  destruct r as [[]|]; try exact Hretry. by apply triple_pure.
Qed.

Lemma release_stages s id :
  may_release s → striple s (release id) (λ _ s', s' = after_release s).
Proof. intros Hs. apply release_loop_stages; [done|cbn; lia]. Qed.

Lemma try_wait_stages s :
  supervising s = true →
  striple s try_wait (λ o s', if o is Some _ then s' = StageWorkloadExited
                              else s' = StageSupervise).
Proof.
  intros Hs. unfold try_wait. perform_step a.
  split; [done|]. apply triple_pure. by destruct a as [[]|].
Qed.

Lemma forward_all_stages c signals s :
  supervising s = true → striple s (forward_all c signals) (λ _ s', supervising s' = true).
Proof.
  revert s. induction signals as [|sg signals IH]; intros s Hs; cbn [forward_all];
    [by apply triple_pure|].
  apply (triple_andthen _ _ _ _ _ (λ _ s', supervising s' = true)); [|intros _ s' ?; by apply IH].
  unfold forward_to_child. destruct (pid_from_u32 c); [|by apply triple_pure].
  destruct (Signal_from_named_raw sg); [|by perform_step a].
  perform_step w. split; [done|]. destruct w; [by apply triple_pure|]. by perform_step a.
Qed.

Lemma renew_stages rq r s :
  supervising s = true → striple s (renew rq r) (λ _ s', supervising s' = true).
Proof.
  intros Hs. unfold renew, exchange. perform_step now. split; [by left|].
  cbn [stage_step stage_of]. rewrite Hs. perform_step a. split; [by left|].
  change (stage_step _ _) with StageSupervise.
  destruct a as [[l| | | |]|]; try by apply triple_pure.
  eapply triple_andthen; [by apply release_stages; left|]. intros _ s' ->. by apply triple_pure.
Qed.

Lemma grace_loop_stages n dl s :
  supervising s = true →
  striple s (grace_loop n dl) (λ o s', if o is Some _ then s' = StageWorkloadExited
                                       else supervising s' = true).
Proof.
  revert s. induction n as [|n IH]; intros s Hs; cbn [grace_loop]; [apply triple_stuck|].
  perform_step now. split; [by left|]. cbn [stage_step stage_of]. rewrite Hs.
  case_decide; [|by apply triple_pure].
  eapply triple_andthen; [by apply try_wait_stages|]. intros [st|] s' ->; [by apply triple_pure|].
  perform_step a. split; [by left|]. by apply IH.
Qed.

Lemma terminate_stages c s :
  supervising s = true → striple s (terminate_for_lapsed_authorization c) (λ _, may_release).
Proof.
  intros Hs. unfold terminate_for_lapsed_authorization.
  destruct (pid_from_u32 c) as [p|].
  2:{ eapply triple_mono; [by apply try_wait_stages|].
      intros [st|] s' ->; [by right; right; left|by left]. }
  perform_step a. split; [done|]. change (stage_step s _) with StageSupervise.
  perform_step now. split; [by left|]. change (stage_step _ _) with StageSupervise.
  eapply triple_andthen; [by apply grace_loop_stages|]. cbn beta. intros [st|] s' Hs'.
  { apply triple_pure. rewrite Hs'. by right; right; left. }
  perform_step a1. split; [done|]. change (stage_step _ _) with StageSupervise.
  perform_step a2. split; [done|]. change (stage_step _ _) with StageSupervise.
  perform_step a3. split; [done|]. apply triple_pure. by right; right; left.
Qed.

Lemma supervise_loop_stages fuel rq r c s :
  supervising s = true → striple s (supervise_loop fuel rq r c) (λ _, may_release).
Proof.
  revert s r. induction fuel as [|fuel IH]; intros s r Hs; cbn [supervise_loop];
    [apply triple_stuck|].
  assert (∀ s' (o : RunOutcome), may_release s' →
    striple s' (release (renewal_lease_id r);;; pure o) (λ _, may_release)) as Hover.
  { intros s' o Hs'. eapply triple_andthen; [by apply release_stages|]. intros _ s2 ->.
    apply triple_pure, after_release_may. }
  eapply triple_andthen; [by apply try_wait_stages|]. intros [st|] s' ->.
  { apply Hover. by right; right; left. }
  perform_step sigs. split; [done|]. change (stage_step _ _) with StageSupervise.
  eapply triple_andthen; [by apply forward_all_stages|]. cbn beta. intros _ s2 Hs2.
  perform_step now. split; [by left|]. cbn [stage_step stage_of]. rewrite Hs2. case_decide.
  - eapply triple_andthen; [by apply terminate_stages|]. cbn beta. intros o s3 Hs3. by apply Hover.
  - eapply (triple_andthen _ _ _ _ _ (λ _ s', supervising s' = true)).
    { case_decide; [by apply renew_stages|by apply triple_pure]. }
    intros r' s4 Hs4. perform_step a. split; [by left|].
    apply IH. cbn [stage_step stage_of]. by rewrite Hs4.
Qed.

Lemma teardown_stages s :
  2 ≤ stage_index s ≤ 9 → striple s teardown (λ _ s', s' = StageTeardownGovernedContext).
Proof.
  intros Hs. unfold teardown. perform_step r. split; [done|].
  destruct r; [by apply triple_pure|]. by perform_step a.
Qed.

(** [m] and then the teardown. *)
Lemma then_teardown_stages {A} (a : A) s :
  2 ≤ stage_index s ≤ 9 →
  striple s (teardown;;; pure a) (λ _ s', s' = StageTeardownGovernedContext).
Proof.
  intros Hs. eapply triple_andthen; [by apply teardown_stages|]. intros _ s' ->.
  by apply triple_pure.
Qed.

Lemma undo_stages {A} id (a : A) s :
  may_release s →
  striple s (release id;;; teardown;;; pure a) (λ _ s', s' = StageTeardownGovernedContext).
Proof.
  intros Hs. eapply triple_andthen; [by apply release_stages|]. intros _ s' ->.
  apply then_teardown_stages. pose proof (may_release_index _ (after_release_may s)). lia.
Qed.

(** A launch is over when its context was torn down, or never established. *)
Definition over (o : LaunchOutcome) (s : LaunchStage) : Prop :=
  s = StageTeardownGovernedContext ∨
  (∃ f, o = Failure f) ∧ (s = StageParseArgv ∨ s = StageExit).

Lemma run_stages fuel load client inv :
  striple StageParseArgv (run fuel load client inv) over.
Proof.
  unfold run. destruct (load (profile inv)) as [document|e].
  2:{ apply triple_pure. right. eauto. }
  perform_step established. split; [done|].
  assert (∀ s o, s = StageTeardownGovernedContext → over o s) as Hdone by by left.
  destruct established as [[]|e]; [|apply triple_pure; right; eauto].
  change (stage_step _ _) with StageEstablishGovernedContext.
  destruct client as [cl|e].
  2:{ eapply triple_mono; [apply then_teardown_stages; cbn; lia|]. intros; by apply Hdone. }
  eapply (triple_andthen _ _ _ _ _ (λ g s,
    s = if g is Ok _ then StageRequestLease else StageReleaseLease)).
  { unfold request_initial_lease, exchange. perform_step now. split; [by right|].
    perform_step a. split; [by right|]. apply triple_pure. by destruct a as [[]|]. }
  intros [[[id remaining] t]|f] s1 ->.
  2:{ eapply triple_mono; [apply then_teardown_stages; cbn; lia|]. intros; by apply Hdone. }
  perform_step installed. split; [done|]. change (stage_step _ _) with StageInstallSignalHandlers.
  destruct installed as [[]|why].
  2:{ eapply triple_mono; [apply undo_stages; by right; left|]. intros; by apply Hdone. }
  perform_step spawned. split; [done|]. destruct spawned as [c|e].
  2:{ eapply triple_mono; [apply undo_stages; by right; right; left|]. intros; by apply Hdone. }
  change (stage_step _ _) with StageSpawnWorkload.
  unfold supervise. eapply triple_andthen; [by apply supervise_loop_stages|].
  intros o s2 Hs2%may_release_index.
  eapply triple_andthen; [apply teardown_stages; lia|]. intros _ s ->.
  destruct o as [st|suppressed]; cbn [outcome_to_exit]; [by apply triple_pure, Hdone|].
  destruct suppressed; [|by apply triple_pure, Hdone].
  perform_step a. split; [done|]. by apply triple_pure, Hdone.
Qed.

Lemma main_stages fuel load client argv :
  striple StageParseArgv (main fuel load client argv) (λ _ s,
    s = StageTeardownGovernedContext ∨ s = StageParseArgv ∨ s = StageExit).
Proof.
  unfold main. destruct (parse_run argv) as [inv|e].
  2:{ unfold report. perform_step a. split; [done|]. apply triple_pure. by right; left. }
  eapply triple_andthen; [apply run_stages|]. intros o s Ho.
  assert (s = StageTeardownGovernedContext ∨ s = StageParseArgv ∨ s = StageExit) as Hs by (destruct Ho as [?|[_ ?]]; tauto).
  destruct o as [f|code]; [|by apply triple_pure].
  unfold report. perform_step a. split; [done|]. by apply triple_pure.
Qed.

End triples.

(** ** Properties *)

Section properties.
Context `{Rustix} {W : Type} `{World W}.

(** C31: a launch follows the documented stages.  In every run of [eltanin run],
    finished or not, the stages of the requests never go back; every stage but the
    supervision and the release holds at most one request; the workload is started
    only after a request for a lease was granted; and a run that finished ended with
    the teardown of its context, unless it asked for nothing or
    could not establish one. *)
Theorem launch_follows_stages (fuel : nat)
    (load : ProfileName → result ProfileDocument ProfileLoadError)
    (client : result AgentClient ClientError) (argv : list OsString) (o : option N)
    (tr : list event) (Hrun : runs (W := W) (main fuel load client argv) o tr) :
  StronglySorted LaunchStage_le (stages StageParseArgv tr) ∧
  (∀ t, t ∉ repeated → length (filter (λ u, u = t) (stages StageParseArgv tr)) ≤ 1) ∧
  (∀ pre post program args a, tr = pre ++ (QSpawn program args ▷ a) :: post → granted pre) ∧
  (is_Some o →
     stages StageParseArgv tr = [] ∨
     (stages StageParseArgv tr = [StageEstablishGovernedContext] ∧
        ∃ e, (QEstablish ▷ Err e) ∈ tr) ∨
     last (stages StageParseArgv tr) = Some StageTeardownGovernedContext).
Proof.
  eapply triple_runs in Hrun; [|apply main_stages]. destruct Hrun as [Hp Hend].
  split; [by apply stages_sorted|]. split; [intros t Ht; by apply stages_once|]. split.
  - intros pre post program args a ->. pose proof (passes_at _ _ _ _ _ _ Hp) as Hc.
    apply passes_app in Hp as [Hp _]. apply granted_before; [done|]. by right.
  - intros [code ->]. specialize (Hend code eq_refl). pose proof (stages_last tr Hp) as Hlast.
    destruct Hend as [Hs|[Hs|Hs]]; rewrite Hs in Hlast; auto.
Qed.

End properties.

(** ** Witness *)

(** The launch whose workload ignores its termination, stage by stage. *)
Lemma launch_follows_stages_witness :
  granted (take 4 stubborn_run.1.2) ∧
  last (stages StageParseArgv stubborn_run.1.2) = Some StageTeardownGovernedContext.
Proof.
  destruct (launch_follows_stages 20 machine_load machine_client machine_argv
    stubborn_run.1.1 stubborn_run.1.2 stubborn_runs) as (_ & _ & Hspawn & Hend).
  split.
  - eapply (Hspawn _ (drop 5 stubborn_run.1.2)). by vm_compute.
  - destruct Hend as [He|[[He _]|He]]; [by vm_compute; eauto|by vm_compute in He..|exact He].
Defined.
