(* ===== verification/Failure.v ===== *)
(** * What a failed launch says

    Models the texts of [crates/eltanin-cli/src/failure.rs] with the errors they
    show ([args.rs], [profile.rs], [client.rs], [context.rs]), the front of
    [main.rs] and the signals of [signals.rs].  A text is its UTF-8 bytes.  The
    [Debug] form of a text is a parameter. *)

From Stdlib Require Import Strings.Byte Strings.Ascii.
From stdpp Require Import pretty.
From S2P Require Import Prelude Resource Identity Policy PolicySpec Lease.
From S2P Require Import Protocol Client Cli System Simulation Supervise Launch.

(** ** Texts *)

Definition dq : string := String (ascii_of_N 34) "".

(** [char::encode_utf8] of a scalar value. *)
Definition utf8_char (c : N) : list N :=
  if decide (c < 128)%N then [c]
  else if decide (c < 2048)%N then [192 + c `div` 64; 128 + c `mod` 64]%N
  else if decide (c < 65536)%N then
    [224 + c `div` 4096; 128 + (c `div` 64) `mod` 64; 128 + c `mod` 64]%N
  else
    [240 + c `div` 262144; 128 + (c `div` 4096) `mod` 64; 128 + (c `div` 64) `mod` 64;
     128 + c `mod` 64]%N.

Fixpoint text_of_bytes (bs : list N) : string :=
  match bs with [] => "" | b :: bs => String (ascii_of_N b) (text_of_bytes bs) end.

Definition text_of (chars : list N) : string := text_of_bytes (chars ≫= utf8_char).

Definition REPLACEMENT : N := 65533.

(** [to_string_lossy]: each maximal prefix of a sequence that does not continue well
    is one replacement character. *)
Fixpoint to_lossy (bs : OsString) : list N :=
  match bs with
  | [] => []
  | b0 :: r0 =>
      if byte_in 0 127 b0 then Byte.to_N b0 :: to_lossy r0
      else
        match r0 with
        | [] => [REPLACEMENT]
        | b1 :: r1 =>
            if byte_in 194 223 b0 && continuation b1 then
              ((Byte.to_N b0 - 192) * 64 + (Byte.to_N b1 - 128))%N :: to_lossy r1
            else if byte_in 224 224 b0 && byte_in 160 191 b1 || byte_in 225 236 b0 && continuation b1
                    || byte_in 237 237 b0 && byte_in 128 159 b1
                    || byte_in 238 239 b0 && continuation b1 then
              match r1 with
              | [] => [REPLACEMENT]
              | b2 :: r2 =>
                  if continuation b2 then
                    (((Byte.to_N b0 - 224) * 64 + (Byte.to_N b1 - 128)) * 64
                     + (Byte.to_N b2 - 128))%N :: to_lossy r2
                  else REPLACEMENT :: to_lossy r1
              end
            else if byte_in 240 240 b0 && byte_in 144 191 b1 || byte_in 241 243 b0 && continuation b1
                    || byte_in 244 244 b0 && byte_in 128 143 b1 then
              match r1 with
              | [] => [REPLACEMENT]
              | b2 :: r2 =>
                  if continuation b2 then
                    match r2 with
                    | [] => [REPLACEMENT]
                    | b3 :: r3 =>
                        if continuation b3 then
                          ((((Byte.to_N b0 - 240) * 64 + (Byte.to_N b1 - 128)) * 64
                            + (Byte.to_N b2 - 128)) * 64 + (Byte.to_N b3 - 128))%N :: to_lossy r3
                        else REPLACEMENT :: to_lossy r2
                    end
                  else REPLACEMENT :: to_lossy r1
              end
            else REPLACEMENT :: to_lossy r0
        end
  end.

(** [{:?}] of an [OsString] and of a [String]. *)
Class FailureDebug : Type := {
  os_debug : OsString → string;
  name_debug : ProfileName → string
}.

(** ** The errors shown *)

Definition MAX_DISPLAY_LEN : nat := 60.

Definition display_found (found : option OsString) : string :=
  match found with
  | None => "nothing"
  | Some value =>
      let text := to_lossy value in
      if decide (length text ≤ MAX_DISPLAY_LEN) then dq +:+ text_of text +:+ dq
      else dq +:+ text_of (take MAX_DISPLAY_LEN text) +:+ "..." +:+ dq
  end.

Definition ProfileNameError_display (e : ProfileNameError) : string :=
  match e with
  | NameEmpty => "--profile name must not be empty"
  | NameContainsSlash => "--profile name must not contain '/'"
  | NamePathTraversal =>
      "--profile name must not be " +:+ dq +:+ "." +:+ dq +:+ " or " +:+ dq +:+ ".." +:+ dq
  | NameTooLong len =>
      "--profile name must be at most " +:+ pretty MAX_PROFILE_NAME_LEN +:+ " bytes, got " +:+
        pretty len
  | NameNotUtf8 => "--profile name must be valid UTF-8"
  | NameContainsControlCharacter => "--profile name must not contain a control character"
  end.

Definition FramingError_display (e : FramingError) : string :=
  let 'Oversized len max := e in
  "frame length " +:+ pretty len +:+ " exceeds the maximum " +:+ pretty max.

Definition UnsupportedVersion_display (e : UnsupportedVersion) : string :=
  "unsupported domain schema version: found " +:+ pretty (found e) +:+ ", expected " +:+
    pretty (expected e).

Definition ProtocolError_display (e : ProtocolError) : string :=
  match e with
  | Framing e => FramingError_display e
  | Malformed => "request body is malformed or unrecognized"
  | VersionError e => UnsupportedVersion_display e
  end.

(** The derived [Debug]. *)
Definition request_id_debug (id : RequestId) : string :=
  "RequestId(" +:+ pretty (request_id_num id) +:+ ")".

Definition ClientError_display (e : ClientError) : string :=
  match e with
  | SocketPathNotUtf8 => "ELTANIN_AGENT_SOCKET is set but not valid UTF-8"
  | Connect path why => "could not connect to the agent at " +:+ path +:+ ": " +:+ why
  | ClientIo why => "I/O error talking to the agent: " +:+ why
  | ClientFraming e =>
      "the agent's response could not be decoded: " +:+ FramingError_display e
  | ClientProtocol e =>
      "the agent's response could not be decoded: " +:+ ProtocolError_display e
  | RequestIdMismatch want got =>
      "the agent's response named request id " +:+
        match got with Some id => "Some(" +:+ request_id_debug id +:+ ")" | None => "None" end +:+
        ", expected " +:+ request_id_debug want
  end.

Definition unavailable_text (why : unavailable) : string :=
  match why with
  | UnavailableClient e => ClientError_display e
  | UnavailableSignals e => "failed to install signal handlers: " +:+ e
  | UnavailableUnclassified => "the agent's response could not be classified"
  end.

Definition GovernedContextError_display (e : GovernedContextError) : string :=
  let 'GovernedContextFailedBecause why := e in why.

Definition describe_denial_reason (why : DenialReason) : string :=
  match why with
  | DrNoMatchingRule => "no policy rule allows this request"
  | DrExplicitDeny => "a policy rule explicitly denies this request"
  | DrIndeterminateEvidence =>
      "required evidence could not be observed with sufficient confidence"
  end.

Definition describe_error_code (code : ErrorCode) : string :=
  match code with
  | CodeUnsupportedVersion found expected =>
      "protocol version mismatch (found " +:+ pretty found +:+ ", expected " +:+
        pretty expected +:+ ")"
  | CodeMalformedRequest => "the request was malformed"
  | CodeOversized => "the request exceeded the protocol's size limit"
  | CodeUnknownOperation => "the agent did not recognize the requested operation"
  | CodeInternal =>
      "an internal agent error occurred (backend failure, enforcement refusal, or capacity exhaustion — the wire protocol does not distinguish which)"
  end.

(** ** Paths shown to the user (profile.rs)

    [Path::strip_prefix] compares paths component by component: repeated and trailing
    separators and inner dots do not count. *)

Inductive component : Type :=
  | RootDir
  | CurDir
  | ParentDir
  | Normal (name : OsString).

#[export] Instance component_eq_dec : EqDecision component.
Proof. solve_decision. Defined.

(** The pieces between the separators. *)
Fixpoint pieces (p : OsString) : list OsString :=
  match p with
  | [] => [[]]
  | b :: p =>
      if decide (b = x2f) then [] :: pieces p
      else match pieces p with
           | [] => [[b]]
           | q :: qs => (b :: q) :: qs
           end
  end.

Definition piece_component (q : OsString) : option component :=
  if decide (q = [] ∨ q = os ".") then None
  else if decide (q = os "..") then Some ParentDir
  else Some (Normal q).

(** A path as its first component, if that is the root or a leading dot, and the pieces
    of its body. *)
Definition relative_parts (qs : list OsString) : option component * list OsString :=
  match qs with
  | q :: qs' => if decide (q = os ".") then (Some CurDir, qs') else (None, qs)
  | [] => (None, [])
  end.

Definition path_parts (p : OsString) : option component * list OsString :=
  if decide (head p = Some x2f) then (Some RootDir, pieces (tail p))
  else relative_parts (pieces p).

Definition components (p : OsString) : list component :=
  let '(first, body) := path_parts p in option_list first ++ omap piece_component body.

Fixpoint join_pieces (qs : list OsString) : OsString :=
  match qs with
  | [] => []
  | [q] => q
  | q :: qs => q ++ x2f :: join_pieces qs
  end.

(** Leading pieces that are no component; trailing ones. *)
Fixpoint trim_left (qs : list OsString) : list OsString :=
  match qs with
  | q :: qs' => match piece_component q with Some _ => qs | None => trim_left qs' end
  | [] => []
  end.

Definition trim_right (qs : list OsString) : list OsString := rev (trim_left (rev qs)).

Fixpoint strip_body (base : list component) (qs : list OsString) : option (list OsString) :=
  match base, qs with
  | [], _ => Some qs
  | _ :: _, [] => None
  | c :: base', q :: qs =>
      match piece_component q with
      | None => strip_body base qs
      | Some d => if decide (c = d) then strip_body base' qs else None
      end
  end.

Definition strip_prefix (p base : OsString) : option OsString :=
  let '(first, body) := path_parts p in
  match components base, first with
  | [], None => Some (join_pieces (trim_right body))
  | [], Some RootDir => Some (x2f :: join_pieces (trim_right body))
  | [], Some _ => Some (join_pieces (os "." :: trim_right body))
  | c :: base, Some d =>
      if decide (c = d) then (λ qs, join_pieces (trim_right (trim_left qs))) <$> strip_body base body
      else None
  | base, None => (λ qs, join_pieces (trim_right (trim_left qs))) <$> strip_body base body
  end.

Definition display_path (p : OsString) : string := text_of (to_lossy p).

(** [home] is the variable [HOME]. *)
Definition display_home_relative (home : option OsString) (p : OsString) : string :=
  match home with
  | Some home =>
      match strip_prefix p home with
      | Some rest => display_path (path_join (os "~") rest)
      | None => display_path p
      end
  | None => display_path p
  end.

Section failure.
Context `{FailureDebug}.
(** The variable [HOME]. *)
Variable home : option OsString.

Definition ProfileLoadError_display (e : ProfileLoadError) : string :=
  match e with
  | NoSearchDir =>
      "no profile search directory: set ELTANIN_PROFILE_DIR, or HOME/XDG_CONFIG_HOME so one can be derived"
  | ProfileNotFound name path =>
      "profile " +:+ name_debug name +:+ " not found at " +:+ display_home_relative home path
  | ProfileIo path why =>
      "failed to read profile at " +:+ display_home_relative home path +:+ ": " +:+ why
  | ProfileJson path why =>
      "profile at " +:+ display_home_relative home path +:+ " is not valid JSON: " +:+ why
  | ProfileVersion path source =>
      "profile at " +:+ display_home_relative home path +:+ ": " +:+ UnsupportedVersion_display source
  end.

Definition UsageError_display (e : UsageError) : string :=
  match e with
  | NotRunSubcommand found =>
      "expected the first argument to be " +:+ dq +:+ "run" +:+ dq +:+ ", got " +:+
        display_found found
  | ProfileMissingValue => "--profile requires a value"
  | ProfileGivenTwice => "--profile was given more than once"
  | ProfileMissing => "--profile is required"
  | UnrecognizedArgument found =>
      "unrecognized argument before " +:+ dq +:+ "--" +:+ dq +:+ ": " +:+ os_debug found
  | MissingSeparator =>
      "expected " +:+ dq +:+ "--" +:+ dq +:+
        " to separate eltanin run's own flags from the command to launch, but none was found"
  | EmptyCommand =>
      "expected a command to run after " +:+ dq +:+ "--" +:+ dq +:+ ", but none was given"
  | InvalidProfileName e => ProfileNameError_display e
  end.

(** [LaunchFailure::message]. *)
Definition LaunchFailure_message (self : LaunchFailure) : string :=
  match self with
  | FailUsage e => "usage error: " +:+ UsageError_display e
  | FailProfileUnresolved e => "could not resolve --profile: " +:+ ProfileLoadError_display e
  | FailAgentUnavailable why => "could not reach the eltanin agent: " +:+ unavailable_text why
  | FailAgentError code => "the agent reported an error: " +:+ describe_error_code code
  | FailDenied why => "request denied: " +:+ describe_denial_reason why
  | FailGovernedContext e =>
      "could not establish a governed execution context: " +:+ GovernedContextError_display e
  | FailAuthorizationLapsed => "authorization lapsed mid-run; the workload was terminated"
  end.

(** [LaunchFailure::next_action]. *)
Definition LaunchFailure_next_action (self : LaunchFailure) : string :=
  match self with
  | FailUsage _ => "run `eltanin run --profile <name> -- <program> [args...]`"
  | FailProfileUnresolved _ =>
      "check the profile name and that its document exists and is valid"
  | FailAgentUnavailable _ =>
      "check that eltanin-agentd is running and ELTANIN_AGENT_SOCKET (if set) points at its socket"
  | FailAgentError _ =>
      "check the agent's own logs (stderr / journald) for the underlying cause"
  | FailDenied _ =>
      "run `eltanin-explain --pid <this process's pid>` for the full decision record, or contact your policy administrator"
  | FailGovernedContext _ =>
      "check that eltanin run has permission to establish its execution context on this host"
  | FailAuthorizationLapsed => "request a fresh lease and re-run the workload"
  end.

(** What [report] prints. *)
Definition report_lines (self : LaunchFailure) : list string :=
  ["eltanin: " +:+ LaunchFailure_message self; "eltanin: " +:+ LaunchFailure_next_action self].

End failure.

(** ** The front of [main] *)

Inductive invocation_kind : Type :=
  | ShowHelp
  | ShowVersion
  | LaunchWorkload.

(** What [main] does with its arguments before it parses them. *)
Definition main_front (argv : list OsString) : invocation_kind :=
  match argv with
  | [] => LaunchWorkload
  | first :: _ =>
      if decide (first = os "--help" ∨ first = os "-h") then ShowHelp
      else if decide (first = os "--version" ∨ first = os "-V") then ShowVersion
      else LaunchWorkload
  end.

Section entry.
Context {W : Type} `{World W, Rustix}.

(** [main]: help and version print and succeed. *)
Definition eltanin_main (fuel : nat)
    (load : ProfileName → result ProfileDocument ProfileLoadError)
    (client : result AgentClient ClientError) (argv : list OsString) : prog W N :=
  match main_front argv with
  | ShowHelp | ShowVersion => pure 0%N
  | LaunchWorkload => main fuel load client argv
  end.

End entry.

(** Interrupt, terminate, hang up, quit and the two user signals, by their numbers on
    Linux. *)
Definition FORWARDED : list Z := [2; 15; 1; 3; 10; 12]%Z.

(** ** Lemmas *)

Lemma string_length_app a b : String.length (a +:+ b) = String.length a + String.length b.
Proof. induction a as [|c a IH]; [done|]. change (String.length (String c a +:+ b)) with (S (String.length (a +:+ b))). cbn. by rewrite IH. Qed.

Lemma text_of_bytes_length bs : String.length (text_of_bytes bs) = length bs.
Proof. induction bs as [|b bs IH]; cbn; [done|]. by rewrite IH. Qed.

Lemma utf8_char_length c : 1 ≤ length (utf8_char c) ≤ 4.
Proof. unfold utf8_char. repeat case_decide; cbn; lia. Qed.

Lemma text_of_length chars : length chars ≤ String.length (text_of chars) ≤ 4 * length chars.
Proof.
  unfold text_of. rewrite text_of_bytes_length.
  induction chars as [|c chars IH]; [done|]. cbn [mbind list_bind]. rewrite length_app. cbn.
  pose proof (utf8_char_length c). fold (mbind (M := list) utf8_char chars). unfold mbind in *. lia.
Qed.

Lemma cons_fmap_Some (c : N) (o : option (list N)) chars :
  cons c <$> o = Some chars → ∃ rest, o = Some rest ∧ chars = c :: rest.
Proof. destruct o as [rest|]; [|done]. intros [= <-]. by exists rest. Qed.

Definition three_first (b0 b1 : byte) : bool :=
  byte_in 224 224 b0 && byte_in 160 191 b1 || byte_in 225 236 b0 && continuation b1
  || byte_in 237 237 b0 && byte_in 128 159 b1 || byte_in 238 239 b0 && continuation b1.

Definition four_first (b0 b1 : byte) : bool :=
  byte_in 240 240 b0 && byte_in 144 191 b1 || byte_in 241 243 b0 && continuation b1
  || byte_in 244 244 b0 && byte_in 128 143 b1.

Lemma four_not_three b0 b1 : four_first b0 b1 = true → three_first b0 b1 = false.
Proof.
  intros H4. apply not_true_iff_false. intros H3. unfold three_first, four_first in *.
  rewrite !orb_true_iff, !andb_true_iff, !byte_in_spec in *. lia.
Qed.

(** Of well-formed text nothing is replaced. *)
Lemma to_lossy_valid bs chars : to_str bs = Some chars → to_lossy bs = chars.
Proof.
  revert chars. induction bs as [bs IH] using (well_founded_induction (well_founded_ltof _ (@length byte))).
  unfold ltof in IH. intros chars. destruct bs as [|b0 r0]; [by intros [= <-]|].
  cbn [to_str to_lossy]. destruct (byte_in 0 127 b0).
  { intros (rest & Hr & ->)%cons_fmap_Some. f_equal. apply IH; [cbn; lia|done]. }
  destruct r0 as [|b1 r1]; [done|]. destruct (byte_in 194 223 b0 && continuation b1).
  { intros (rest & Hr & ->)%cons_fmap_Some. f_equal. apply IH; [cbn; lia|done]. }
  destruct r1 as [|b2 r2]; [done|]. fold (three_first b0 b1) (four_first b0 b1).
  destruct (three_first b0 b1) eqn:H3; cbn [andb].
  - destruct (continuation b2) eqn:Hc2.
    { intros (rest & Hr & ->)%cons_fmap_Some. f_equal. apply IH; [cbn; lia|done]. }
    destruct r2 as [|b3 r3]; [done|]. by rewrite andb_false_r.
  - destruct r2 as [|b3 r3]; [done|]. destruct (four_first b0 b1); [|done]. cbn [andb].
    destruct (continuation b2); [|done]. cbn [andb]. destruct (continuation b3); [|done].
    intros (rest & Hr & ->)%cons_fmap_Some. f_equal. apply IH; [cbn; lia|done].
Qed.

(** A usage error about the first argument is a bounded line. *)
Lemma display_found_length found : String.length (display_found found) ≤ 245.
Proof.
  destruct found as [value|]; cbn [display_found]; [|cbn; lia].
  case_decide as Hl; rewrite !string_length_app.
  - pose proof (text_of_length (to_lossy value)). unfold MAX_DISPLAY_LEN in Hl. cbn. lia.
  - pose proof (text_of_length (take MAX_DISPLAY_LEN (to_lossy value))) as [_ Ht].
    assert (length (take MAX_DISPLAY_LEN (to_lossy value)) ≤ 60) as Hn
      by (rewrite length_take; unfold MAX_DISPLAY_LEN; lia).
    change (String.length dq) with 1. change (String.length "...") with 3. lia.
Qed.

Lemma parse_run_loop_subcommand argv p found :
  parse_run_loop argv p ≠ Err (NotRunSubcommand found).
Proof.
  revert p. induction argv as [argv IH] using (well_founded_induction
    (well_founded_ltof _ (@length OsString))). unfold ltof in IH. intros p.
  destruct argv as [|arg argv]; [done|]. cbn [parse_run_loop].
  repeat case_decide; try done. destruct p as [n|]; [done|].
  destruct argv as [|value argv]; [done|]. destruct (ProfileName_parse value); [|done].
  apply IH. cbn. lia.
Qed.

(** *** Paths *)

Lemma pieces_ne p : pieces p ≠ [].
Proof. destruct p as [|b p]; [done|]. cbn. case_decide; [done|]. by destruct (pieces p). Qed.

Lemma pieces_sep a b : pieces (a ++ x2f :: b) = pieces a ++ pieces b.
Proof.
  induction a as [|c a IH]; [done|]. cbn [app pieces]. case_decide; [by rewrite IH|].
  rewrite IH. pose proof (pieces_ne a). by destruct (pieces a).
Qed.

Lemma pieces_single q : x2f ∉ q → pieces q = [q].
Proof.
  induction q as [|b q IH]; [done|]. intros [Hb Hq]%not_elem_of_cons. cbn.
  rewrite decide_False by congruence. by rewrite IH.
Qed.

Lemma join_pieces_cons q qs : qs ≠ [] → join_pieces (q :: qs) = q ++ x2f :: join_pieces qs.
Proof. by destruct qs. Qed.

Lemma join_pieces_pieces p : join_pieces (pieces p) = p.
Proof.
  induction p as [|b p IH]; [done|]. cbn [pieces]. pose proof (pieces_ne p) as Hne.
  case_decide as Hb.
  - subst b. rewrite join_pieces_cons by done. by rewrite IH.
  - destruct (pieces p) as [|q qs]; [done|]. rewrite <-IH. by destruct qs.
Qed.

(** A path continued below a directory: the pieces of the directory that count, then
    those of the rest. *)
Lemma path_parts_below h rest :
  h ≠ [] → let sep := if decide (last h = Some x2f) then [] else [x2f] in
  ∃ bs, path_parts (h ++ sep ++ rest) = ((path_parts h).1, bs ++ pieces rest) ∧
    omap piece_component bs = omap piece_component (path_parts h).2.
Proof.
  intros Hne sep.
  assert (∃ hs, pieces (h ++ sep ++ rest) = hs ++ pieces rest ∧ hs ≠ [] ∧
    (pieces h = hs ∨ pieces h = hs ++ [[]])) as Hpieces.
  { unfold sep. case_decide as Hl.
    - apply last_Some in Hl as [h' ->]. exists (pieces h'). rewrite <-app_assoc. cbn [app].
      rewrite !pieces_sep. split; [done|]. split; [apply pieces_ne|by right].
    - exists (pieces h). cbn [app]. rewrite pieces_sep. split; [done|]. split; [apply pieces_ne|by left]. }
  clearbody sep. destruct Hpieces as (hs & Hp & Hhs & Hh).
  assert (omap piece_component (pieces h) = omap piece_component hs) as Homap.
  { destruct Hh as [->| ->]; [done|]. rewrite omap_app. cbn. by rewrite app_nil_r. }
  destruct h as [|b h]; [done|]. unfold path_parts. cbn [app head tail].
  destruct (decide (b = x2f)) as [->|Hb].
  - rewrite !decide_True by done. destruct hs as [|q hs]; [done|].
    cbn [app pieces] in Hp, Homap. rewrite decide_True in Hp, Homap by done.
    injection Hp as <- Hp. exists hs. cbn [fst snd]. rewrite Hp. split; [done|]. by cbn in Homap.
  - rewrite !decide_False by congruence. destruct hs as [|q hs]; [done|].
    change (b :: h ++ sep ++ rest) with ((b :: h) ++ sep ++ rest). rewrite Hp.
    assert (∃ tl, pieces (b :: h) = q :: tl) as [tl Htl] by (destruct Hh as [->| ->]; by eexists).
    rewrite Htl in Homap |- *. cbn [app relative_parts]. case_decide as Hq; cbn [fst snd].
    + exists hs. split; [done|]. subst q. by cbn in Homap.
    + by exists (q :: hs).
Qed.

Lemma strip_body_below bs r :
  ∃ cs, strip_body (omap piece_component bs) (bs ++ r) = Some (cs ++ r) ∧
    omap piece_component cs = [].
Proof.
  induction bs as [|q bs IH]; [by exists []; destruct r|]. cbn [omap list_omap app].
  destruct (piece_component q) as [d|] eqn:Hq.
  - cbn [strip_body]. rewrite Hq, decide_True by done. exact IH.
  - destruct (omap piece_component bs) as [|c base] eqn:Ho.
    + exists (q :: bs). split; [done|]. cbn. by rewrite Hq.
    + cbn [strip_body]. rewrite Hq. exact IH.
Qed.

Lemma trim_left_skip cs r :
  omap piece_component cs = [] → trim_left (cs ++ r) = trim_left r.
Proof.
  induction cs as [|q cs IH]; [done|]. cbn [omap list_omap app trim_left].
  destruct (piece_component q); [done|]. apply IH.
Qed.

Lemma relative_component h :
  h ≠ [] → ∀ body, path_parts h = (None, body) → omap piece_component body ≠ [].
Proof.
  intros Hne body. unfold path_parts. case_decide as Hroot; [done|].
  destruct h as [|b h]; [done|]. cbn [head pieces] in *. rewrite decide_False by congruence.
  assert (∃ q qs, match pieces h with [] => [[b]] | q :: qs => (b :: q) :: qs end = (b :: q) :: qs)
    as (q & qs & ->) by (destruct (pieces h); by eexists _, _).
  cbn [relative_parts]. case_decide as Hdot; [done|]. intros [= <-]. cbn.
  unfold piece_component. rewrite decide_False by naive_solver. by case_decide.
Qed.

(** A path below the home directory, whatever the shape of that directory's name. *)
Lemma strip_prefix_below h q qs :
  let rest := join_pieces (q :: qs) in
  pieces rest = q :: qs → piece_component q ≠ None →
  piece_component (default q (last qs)) ≠ None →
  strip_prefix (h ++ (if decide (h = [] ∨ last h = Some x2f) then [] else [x2f]) ++ rest) h = Some rest.
Proof.
  intros rest Hrest Hfirst Hlast.
  assert (trim_right (trim_left (q :: qs)) = q :: qs) as Htrim.
  { cbn [trim_left]. destruct (piece_component q) eqn:Hq; [|done]. unfold trim_right.
    destruct qs as [|q' qs] using rev_ind; [cbn; by rewrite Hq|].
    rewrite last_snoc in Hlast. cbn in Hlast.
    change (q :: qs ++ [q']) with ((q :: qs) ++ [q']). rewrite rev_app_distr. cbn [rev app trim_left].
    destruct (piece_component q'); [|done]. rewrite <-(rev_involutive (q :: qs ++ [q'])).
    f_equal. cbn [rev]. by rewrite rev_app_distr. }
  destruct (decide (h = [])) as [->|Hh].
  { rewrite decide_True by by left. cbn [app]. unfold strip_prefix.
    assert (path_parts rest = (None, q :: qs)) as ->.
    { unfold path_parts. rewrite decide_False.
      - rewrite Hrest. cbn [relative_parts]. rewrite decide_False; [done|]. by intros ->.
      - intros Hd. destruct rest as [|b rest]; [done|]. cbn in Hd, Hrest.
        rewrite decide_True in Hrest by congruence. injection Hrest as <- _. done. }
    cbn [trim_left] in Htrim. destruct (piece_component q); [|done]. cbn [components].
    by rewrite Htrim. }
  destruct (path_parts_below h rest Hh) as (bs & Hp & Hbs).
  assert ((if decide (h = [] ∨ last h = Some x2f) then [] else [x2f]) =
    (if decide (last h = Some x2f) then [] else [x2f])) as ->.
  { case_decide; case_decide; try done; tauto. }
  unfold strip_prefix. rewrite Hp, Hrest. unfold components.
  pose proof (relative_component h) as Hrel.
  destruct (path_parts h) as [[d|] body]; cbn [fst snd option_list app] in *.
  - change (option_list (Some d) ++ omap piece_component body) with (d :: omap piece_component body).
    cbn [option_list]. rewrite decide_True by done. rewrite <-Hbs.
    destruct (strip_body_below bs (q :: qs)) as (cs & -> & Hcs). cbn.
    rewrite trim_left_skip by done. by rewrite Htrim.
  - change (option_list None ++ omap piece_component body) with (omap piece_component body).
    specialize (Hrel Hh body eq_refl). rewrite <-Hbs in Hrel |- *.
    destruct (strip_body_below bs (q :: qs)) as (cs & Hs & Hcs).
    destruct (omap piece_component bs) as [|c base]; [done|]. rewrite Hs. cbn.
    rewrite trim_left_skip by done. by rewrite Htrim.
Qed.

Lemma strip_body_prefix base qs r : strip_body base qs = Some r → base `prefix_of` omap piece_component qs.
Proof.
  revert base. induction qs as [|q qs IH]; intros [|c base]; try (intros; apply prefix_nil); [done|].
  cbn [strip_body omap list_omap]. destruct (piece_component q) as [d|]; [|by apply IH].
  case_decide; [|done]. subst d. intros Hr%IH. by apply prefix_cons.
Qed.

Lemma strip_prefix_prefix p base r :
  strip_prefix p base = Some r → components base `prefix_of` components p.
Proof.
  unfold strip_prefix. unfold components at 3. destruct (path_parts p) as [first body].
  destruct (components base) as [|c cs]; [intros; apply prefix_nil|].
  destruct first as [d|].
  - case_decide as Hd; [|done]. subst d. intros (qs & Hs & _)%fmap_Some.
    apply strip_body_prefix in Hs. by apply prefix_cons.
  - intros (qs & Hs & _)%fmap_Some. by apply strip_body_prefix in Hs.
Qed.

Lemma below_home (h x : OsString) :
  head x ≠ Some x2f → path_join h x = h ++ (if decide (h = [] ∨ last h = Some x2f) then [] else [x2f]) ++ x.
Proof.
  intros Hx. unfold path_join. rewrite decide_False by done. by case_decide.
Qed.

Lemma join_below (d x y : OsString) :
  x ≠ [] → last x ≠ Some x2f → head y ≠ Some x2f → path_join (d ++ x) y = d ++ x ++ x2f :: y.
Proof.
  intros Hx Hl Hy. rewrite below_home by done. rewrite decide_False; [by rewrite <-app_assoc|].
  destruct x as [|c x]; [done|]. rewrite last_app_cons. intros [?%app_eq_nil|?]; naive_solver.
Qed.

(** ** Properties *)

Section properties.
Context `{FailureDebug} (home : option OsString).

(** What a failed launch prints tells failures apart.  Failures with different
    exit codes have different messages, whatever the texts inside them, and
    different next actions; both are printed, each after the program's name; and a
    launch refused because the first argument is not [run] prints a message of at
    most 303 bytes however long the argument is, which shows a well-formed argument
    of at most 60 characters as it is. *)
Theorem failures_told_apart (f g : LaunchFailure) (argv : list OsString) (found : option OsString)
    (Hcode : LaunchFailure_exit_code f ≠ LaunchFailure_exit_code g)
    (Hargv : parse_run argv = Err (NotRunSubcommand found)) :
  LaunchFailure_message home f ≠ LaunchFailure_message home g ∧
  LaunchFailure_next_action f ≠ LaunchFailure_next_action g ∧
  found = head argv ∧
  String.length (LaunchFailure_message home (FailUsage (NotRunSubcommand found)))
    ≤ 303 ∧
  (∀ value chars, found = Some value → to_str value = Some chars →
     length chars ≤ MAX_DISPLAY_LEN → display_found found = dq +:+ text_of chars +:+ dq).
Proof.
  split; [by destruct f, g|]. split; [by destruct f, g|].
  split.
  { destruct argv as [|first argv]; cbn in Hargv; [by injection Hargv|].
    case_decide; [by injection Hargv|].
    destruct (parse_run_loop argv None) as [[p [command|]]|e] eqn:Hl; cbn in Hargv; [| |].
    - destruct p; [by destruct command|done].
    - done.
    - exfalso. injection Hargv as ->. by eapply parse_run_loop_subcommand. }
  split.
  - cbn [LaunchFailure_message UsageError_display]. rewrite !string_length_app.
    pose proof (display_found_length found). cbn. lia.
  - intros value chars -> Hs Hl. cbn [display_found]. rewrite (to_lossy_valid _ _ Hs).
    by rewrite decide_True.
Qed.

End properties.

(** The home directory is not shown.  Whatever the text of [HOME], a profile looked
    for below it is named in errors by its path from [~], the profile's name in full; and
    a path is shown as it is unless its components continue those of [HOME]. *)
Theorem home_not_shown (h dir raw : OsString) (name : ProfileName)
    (Hdir : profile_dir None None (Some h) = Ok dir) (Hname : ProfileName_parse raw = Ok name) :
  display_home_relative (Some h) (profile_path dir name) =
    display_path (os "~/.config/eltanin/profiles/" ++ raw ++ os ".json") ∧
  ∀ p, display_home_relative (Some h) p = display_path p ∨ components h `prefix_of` components p.
Proof.
  split.
  2:{ intros p. cbn. destruct (strip_prefix p h) as [r|] eqn:Hs; [|by left].
      right. by apply strip_prefix_prefix in Hs. }
  pose proof (λ b, parsed_name_bytes raw name b Hname) as Hbytes.
  apply ProfileName_parse_Ok in Hname as (-> & Hne & _).
  injection Hdir as <-. unfold profile_path. cbn [name_bytes].
  assert (x2f ∉ raw ++ os ".json") as Hslash.
  { intros [(_ & Hin & _)%Hbytes|Hin]%elem_of_app; [done|]. revert Hin.
    by apply (bool_decide_unpack (x2f ∉ os ".json")); vm_compute. }
  set (rest := os ".config/eltanin/profiles/" ++ raw ++ os ".json").
  assert (pieces rest = [os ".config"; os "eltanin"; os "profiles"; raw ++ os ".json"]) as Hrest.
  { assert (rest = os ".config" ++ x2f :: os "eltanin" ++ x2f :: os "profiles" ++ x2f ::
      raw ++ os ".json") as -> by done.
    rewrite !pieces_sep, (pieces_single (raw ++ _)) by done. done. }
  assert (piece_component (raw ++ os ".json") ≠ None) as Hlast.
  { unfold piece_component. rewrite decide_False; [by case_decide|].
    intros [Hnil|Hdot]; [by apply app_eq_nil in Hnil as [_ ?]|].
    apply (f_equal length) in Hdot. rewrite length_app in Hdot. cbn in Hdot. lia. }
  pose proof (strip_prefix_below h (os ".config") [os "eltanin"; os "profiles"; raw ++ os ".json"])
    as Hstrip. cbn zeta in Hstrip. rewrite <-Hrest, join_pieces_pieces in Hstrip.
  rewrite (below_home h (os ".config")) by done.
  set (sep := if decide _ then _ else _) in *. clearbody sep.
  rewrite (app_assoc h sep (os ".config")), join_below by done.
  rewrite (app_assoc (h ++ sep) (os ".config") _).
  change (x2f :: os "eltanin") with ([x2f] ++ os "eltanin"). rewrite (app_assoc _ [x2f]).
  rewrite join_below by done. rewrite (app_assoc _ (os "eltanin") _).
  change (x2f :: os "profiles") with ([x2f] ++ os "profiles"). rewrite (app_assoc _ [x2f]).
  rewrite join_below by (done || by destruct raw as [|b raw]; [|intros [= ->];
    destruct (Hbytes x2f) as (_ & ? & _); [left|]]).
  assert (((((((h ++ sep) ++ os ".config") ++ [x2f]) ++ os "eltanin") ++ [x2f]) ++
    os "profiles" ++ x2f :: raw ++ os ".json") = h ++ sep ++ rest) as ->
    by by rewrite <-!app_assoc.
  unfold display_home_relative. by rewrite Hstrip.
Qed.


(** ** Witness *)

#[local] Instance plain_debug : FailureDebug := {
  os_debug _ := "argument";
  name_debug _ := "name"
}.

(** An argument of a hundred letters is cut. *)
Definition long_argument : OsString := replicate 100 x61.

(** A home directory with a trailing separator and a doubled one. *)
Lemma home_not_shown_witness :
  display_home_relative (Some (os "/home//alice/"))
    (os "/home//alice/.config/eltanin/profiles/gpu.json") = "~/.config/eltanin/profiles/gpu.json".
Proof.
  destruct (home_not_shown (os "/home//alice/") (os "/home//alice/.config/eltanin/profiles")
    (os "gpu") (mk_ProfileName (os "gpu"))) as [Hd _].
  - by vm_compute.
  - by vm_compute.
  - exact Hd.
Defined.

Lemma failures_told_apart_witness :
  Some long_argument = head [long_argument] ∧
  LaunchFailure_message None FailAuthorizationLapsed ≠
    LaunchFailure_message None (FailAgentError CodeInternal).
Proof.
  destruct (failures_told_apart None FailAuthorizationLapsed (FailAgentError CodeInternal)
    [long_argument] (Some long_argument)) as (Hm & _ & Hf & _); [done|by vm_compute|].
  split; [exact Hf|exact Hm].
Defined.
