(* ===== verification/Deployment.v ===== *)
(** * An agent and a launch, together

    [eltanin run] ([crates/eltanin-cli]) and the agent ([crates/eltanin-agent]) on
    one machine.  The launch is the program of [Launch] with its trace of requests;
    the agent is the interleaved handler of [AuthzConcurrent], which serves this
    launch among any others.  An answer the launch reads as a grant is the answer of
    one of the agent's threads; both read one monotonic clock. *)

From S2P Require Import Prelude Resource Identity Policy PolicySpec Lease.
From S2P Require Import Peer Backend Protocol LeaseStore Authz AuthzSpec AuthzConcurrent.
From S2P Require Import Runtime Client Cli System Simulation Supervise Launch.

(** ** What a launch asks for *)

Section asking.
Context {W : Type} `{World W, Rustix}.

(** Every lease a program asks for is asked for with [rq]. *)
Definition asks_only (rq : LeaseRequest) (e : event) : Prop :=
  match asked e with
  | QExchange (RequestLease rq') => rq' = rq
  | _ => True
  end.

Definition asks {A} (rq : LeaseRequest) (m : prog W A) : Prop :=
  always m (λ _ tr, Forall (asks_only rq) tr).

Lemma asks_pure {A} rq (a : A) : asks rq (pure a).
Proof. by apply always_pure. Qed.

Lemma asks_stuck {A} rq : asks rq (stuck : prog W A).
Proof. by apply always_stuck. Qed.

Lemma asks_perform rq q : (∀ a, asks_only rq (q ▷ a)) → asks rq (perform q).
Proof. intros Hq. apply always_perform. intros a. by constructor. Qed.

Lemma asks_andthen {A B} rq (m : prog W A) (k : A → prog W B) :
  asks rq m → (∀ a, asks rq (k a)) → asks rq (andthen m k).
Proof.
  intros Hm Hk. eapply always_andthen; [exact Hm|done|]. cbn. intros a tr Htr.
  eapply always_mono; [apply Hk|]. cbn. intros o tr' Htr'. by apply Forall_app.
Qed.

(** Steps through a program whose own requests are all in order. *)
Ltac asking :=
  repeat first
    [ lazymatch goal with
      | |- asks _ (pure _) => apply asks_pure
      | |- asks _ stuck => apply asks_stuck
      | |- asks ?rq (perform ?q) =>
          refine (asks_perform rq q _); intros; first [exact I | reflexivity]
      | |- asks _ (andthen _ _) => apply asks_andthen; [|intros]
      end
    | progress case_match | progress case_decide | done ].

Lemma asks_release rq id : asks rq (release id).
Proof.
  assert (∀ n bs, asks rq (release_loop n bs id)) as Hloop; [|by apply Hloop].
  induction n as [|n IH]; intros bs; cbn [release_loop]; unfold exchange; asking; by auto.
Qed.

Lemma asks_forward rq c signals : asks rq (forward_all c signals).
Proof. induction signals; cbn [forward_all]; unfold forward_to_child; asking. Qed.

Lemma asks_renew rq r : asks rq (renew rq r).
Proof. unfold renew, exchange. asking; apply asks_release. Qed.

Lemma asks_terminate rq c : asks rq (terminate_for_lapsed_authorization c).
Proof.
  assert (∀ n u, asks rq (grace_loop n u)) as Hgrace.
  { induction n as [|n IH]; intros u; cbn [grace_loop]; unfold try_wait; asking; by auto. }
  unfold terminate_for_lapsed_authorization, try_wait. asking; by auto.
Qed.

Lemma asks_supervise rq fuel r c : asks rq (supervise_loop fuel rq r c).
Proof.
  revert r. induction fuel as [|fuel IH]; intros r; cbn [supervise_loop]; unfold try_wait; asking;
    auto using asks_release, asks_forward, asks_renew, asks_terminate.
Qed.

(** What a launch asks for is the profile named on its command line. *)
Lemma main_asks fuel load client argv inv document :
  parse_run argv = Ok inv → load (profile inv) = Ok document →
  asks (mk_LeaseRequest (profile_resource document) (profile_action document))
    (main fuel load client argv).
Proof.
  intros Hargv Hload. unfold main, run, report, request_initial_lease, teardown, exchange, supervise.
  rewrite Hargv, Hload. asking; auto using asks_release, asks_supervise.
  unfold outcome_to_exit. asking.
Qed.

End asking.

(** ** The agent's side *)

Section deployment.
Context {B : Type} `{ComputeBackend B, Rustix}.
Context (h : AuthorizationHandler) (clk : AgentClock) (launcher : PeerContext → Prop).

#[local] Abbreviation after := (foldl launch_step launch_start).

(** Nobody else releases what this launch holds: a release of such a lease comes from
    a peer that is not the workload the lease is bound to. *)
Definition unshared (mine : gset LeaseId) (st : LeaseState) (q : ReleaseRequest)
    (p : PeerContext) : Prop :=
  rr_lease_id q ∈ mine → ∀ obs l, PeerContext_authorizable p = Some obs →
    leases st !! rr_lease_id q = Some l →
    ¬ same_workload (workload (context (origin l))) (workload obs).

(** What the agent does meanwhile, for whichever clients. *)
Definition meanwhile (s : launch_state) : agent B → agent B → Prop :=
  constrained_step h (unshared (held s)).

(** A grant read by the launch is the answer of one thread: begun for a connection of
    the launch after the request was sent, enforced and settled among the steps of
    the others. *)
Inductive granted_by (s : launch_state) (rq : LeaseRequest) (v : LeaseView) (a : agent B) :
    agent B → Prop :=
  | granted_by_thread st1 b1 now1 gs1 i p l st1' st2 b2 now2 gs2 later out st2' :
      rtc (meanwhile s) a (mk_agent st1 b1 now1 gs1) →
      launcher p → headroom st1 → gs1 !! i = None →
      begin_request_lease h st1 rq p now1 = (inr l, st1') →
      rtc (meanwhile s) (mk_agent st1' b1 now1 (<[i := GIssued l]> gs1))
        (mk_agent st2 b2 now2 gs2) →
      gs2 !! i = Some (GStamped l later) →
      finish_request_lease st2 l (Ok Allowed) later = ((out, LeaseGranted v), st2') →
      granted_by s rq v a (mk_agent st2' b2 now2 (delete i gs2)).

(** How an event of the launch meets the agent.  A clock reading is of the clock the
    agent reads; other answers promise nothing. *)
Definition answers (s : launch_state) (a : agent B) (e : event) (a' : agent B) : Prop :=
  let 'mk_event q r := e in
  match q return answer q → Prop with
  | QNow => λ t, a' = a ∧ AgentClock_now clk t = ag_clock a
  | QExchange (RequestLease rq) => λ r,
      match r with
      | Ok (LeaseGranted v) => granted_by s rq v a a'
      | _ => a' = a
      end
  | _ => λ _, a' = a
  end r.

(** A trace of the launch, served by the agent. *)
Inductive served : launch_state → agent B → list event → agent B → Prop :=
  | served_nil s a : served s a [] a
  | served_meanwhile s a a1 tr a' :
      meanwhile s a a1 → served s a1 tr a' → served s a tr a'
  | served_event s a e a1 tr a' :
      answers s a e a1 → served (launch_step s e) a1 tr a' → served s a (e :: tr) a'.

(** ** Lemmas *)

Lemma prune_keeps st now id l :
  leases st !! id = Some l →
  leases (LeaseState_prune st now) !! id = Some l ∨ time_le (expires_at l) now.
Proof.
  intros Hl. destruct (decide (time_le (expires_at l) now)); [by right|left].
  by apply prune_lookup.
Qed.

(** The issuer only moves forward, and a lease that is held stays until it expires. *)
Record carries (mine : gset LeaseId) (a a' : agent B) : Prop := mk_carries {
  carries_instance : instance (store_issuer (ag_store a')) = instance (store_issuer (ag_store a));
  carries_next : (next_sequence (store_issuer (ag_store a)) ≤
                  next_sequence (store_issuer (ag_store a')))%N;
  carries_clock : time_le (ag_clock a) (ag_clock a');
  carries_leases : ∀ id l, id ∈ mine → leases (ag_store a) !! id = Some l →
    leases (ag_store a') !! id = Some l ∨ time_le (expires_at l) (ag_clock a')
}.

Lemma time_le_refl t : time_le t t.
Proof. unfold time_le. lia. Qed.

Lemma time_le_trans t1 t2 t3 : time_le t1 t2 → time_le t2 t3 → time_le t1 t3.
Proof. unfold time_le. lia. Qed.

#[local] Hint Resolve time_le_refl time_le_trans : eltanin.

Lemma carries_refl mine a : carries mine a a.
Proof. split; [done|lia|apply time_le_refl|by auto]. Qed.

Lemma carries_trans mine a1 a2 a3 : carries mine a1 a2 → carries mine a2 a3 → carries mine a1 a3.
Proof.
  intros [Hi Hn Hc Hl] [Hi' Hn' Hc' Hl']. split; [congruence|lia|by eauto with eltanin|].
  intros id l Hin Hid. destruct (Hl _ _ Hin Hid) as [?|?]; [by auto|]. right. by eauto with eltanin.
Qed.

(** The same store, pruned or not. *)
Lemma carries_pruned mine st b now gs st' b' now' gs' :
  time_le now now' →
  instance (store_issuer st') = instance (store_issuer st) →
  (next_sequence (store_issuer st) ≤ next_sequence (store_issuer st'))%N →
  (leases st' = leases st ∨ leases st' = leases (LeaseState_prune st now')) →
  carries mine (mk_agent st b now gs) (mk_agent st' b' now' gs').
Proof.
  intros Ht Hi Hn Hl. split; cbn; [done|done|done|]. intros id l _ Hid.
  destruct Hl as [->| ->]; [by left|by apply prune_keeps].
Qed.

Lemma carries_finish mine st b now gs i g r later answer st' :
  agent_ok h (mk_agent st b now gs) → gs !! i = Some g →
  finish_request_lease st (grant_lease g) r later = (answer, st') →
  carries mine (mk_agent st b now gs) (mk_agent st' b now (delete i gs)).
Proof.
  intros Ha Hi Hf. pose proof (agent_in_flight h _ _ _ Ha Hi) as Hfl.
  pose proof (finish_request_spec h st (grant_lease g) r later (aok_handler _ _ Ha) Hfl) as Hs.
  rewrite Hf in Hs. destruct answer as [out resp].
  destruct Hs as (_ & Hinst & Hnext & _ & Hcase). split; cbn; [done|lia|apply time_le_refl|].
  intros id l _ Hid. left. destruct Hcase as [(_ & _ & _ & _ & -> & _)|(_ & _ & -> & _)]; [|done].
  rewrite lookup_insert_ne; [done|]. intros Heq. pose proof (if_fresh _ _ _ Hfl) as Hnone.
  cbn in Hnone. congruence.
Qed.

Lemma carries_release mine st b now gs q p answer st' b' :
  agent_ok h (mk_agent st b now gs) → unshared mine st q p →
  handle_release_lease st b q p now = (answer, st', b') →
  carries mine (mk_agent st b now gs) (mk_agent st' b' now gs).
Proof.
  intros Ha Hun Hrel. pose proof (release_spec h st b q p now (aok_handler _ _ Ha)) as Hs.
  rewrite Hrel in Hs. destruct answer as [out resp]. destruct Hs as [_ Hs].
  destruct Hs as [(_ & _ & _ & -> & _)|(obs & Hp & Hs)].
  { apply carries_pruned; [apply time_le_refl|done|lia|by left]. }
  destruct Hs as [(_ & _ & _ & -> & _)|(l0 & Hl0 & _ & Hs)].
  { apply carries_pruned; [apply time_le_refl|done|cbn; lia|by right]. }
  destruct Hs as [(_ & _ & _ & -> & _)|(Hsame & _ & _ & Hl & _ & Hinst & Hnext & _)].
  { apply carries_pruned; [apply time_le_refl|done|cbn; lia|by right]. }
  split; cbn; [done|lia|apply time_le_refl|]. intros id l Hin Hid.
  destruct (prune_keeps _ now _ _ Hid) as [Hid'|?]; [left|by right].
  rewrite Hl. apply lookup_delete_Some. split; [|done]. intros Heq. subst id.
  apply prune_lookup in Hl0 as [Hl0 _]. by apply (Hun Hin obs l0).
Qed.

Lemma meanwhile_carries mine a a' :
  agent_ok h a → constrained_step h (unshared mine) a a' → carries mine a a'.
Proof.
  intros Ha Hstep.
  destruct Hstep as [st b now now' gs Ht|st b now gs i q p l st' Hroom Hi Hb
    |st b now gs q p answer st' Hroom Hb|st b now gs i l r b' Hi _|st b now gs i l Hi
    |st b now gs i l later answer st' Hi Hf|st b now gs i l r answer st' Hi _ Hf
    |st b now gs q p answer st' b' Hun Hrel].
  - apply carries_pruned; [done|done|lia|by left].
  - pose proof (begin_spec h st q p now (aok_handler _ _ Ha) Hroom) as Hs. rewrite Hb in Hs.
    destruct Hs as [_ (obs & _ & _ & _ & _ & _ & _ & _ & _ & Hl & _ & Hinst & Hnext & _)].
    apply carries_pruned; [apply time_le_refl|done|lia|by right].
  - pose proof (begin_spec h st q p now (aok_handler _ _ Ha) Hroom) as Hs. rewrite Hb in Hs.
    apply carries_pruned; [apply time_le_refl|..]; destruct Hs as [_ [->| ->]]; cbn; auto || lia.
  - apply carries_pruned; [apply time_le_refl|done|lia|by left].
  - apply carries_pruned; [apply time_le_refl|done|lia|by left].
  - by eapply (carries_finish _ _ _ _ _ _ (GStamped l later)).
  - by eapply (carries_finish _ _ _ _ _ _ (GEnforced l r)).
  - by eapply carries_release.
Qed.

Lemma meanwhile_ok s a a' : agent_ok h a → meanwhile s a a' → agent_ok h a'.
Proof. intros Ha Hs. eapply agent_ok_step; [exact Ha|by eapply constrained_agent_step]. Qed.

Lemma meanwhiles s a a' :
  agent_ok h a → rtc (meanwhile s) a a' → agent_ok h a' ∧ carries (held s) a a'.
Proof.
  intros Ha Hr. revert Ha. induction Hr as [a|a1 a2 a3 H12 _ IH]; intros Ha.
  { split; [done|apply carries_refl]. }
  destruct IH as [Ha3 Hc]; [by eapply meanwhile_ok|]. split; [done|].
  eapply carries_trans; [by apply meanwhile_carries|done].
Qed.

(** The clock reading a thread settles with is no earlier than its beginning. *)
Definition stamped_late (t : MonotonicTime) (id : LeaseId) (g : grant) : Prop :=
  lease_id (grant_lease g) = id →
  match g with GStamped _ later => time_le t later | _ => True end.

Definition stamped_after (t : MonotonicTime) (id : LeaseId) (a : agent B) : Prop :=
  time_le t (ag_clock a) ∧ map_Forall (λ _, stamped_late t id) (ag_grants a).

Lemma stamped_after_step t id a a' :
  stamped_after t id a → agent_step h a a' → stamped_after t id a'.
Proof.
  intros [Ht Hg] Hstep.
  destruct Hstep; (split; cbn in *; [by eauto with eltanin|]);
    first [done|apply map_Forall_insert_2; [by intros ?|done]|by apply map_Forall_delete].
Qed.

Lemma stamped_after_rtc s t id a a' :
  stamped_after t id a → rtc (meanwhile s) a a' → stamped_after t id a'.
Proof.
  intros Hs. induction 1 as [|a1 a2 a3 H12 _ IH]; [done|]. apply IH.
  eapply stamped_after_step; [exact Hs|by eapply constrained_agent_step].
Qed.

(** *** The launch and the agent agree *)

(** Every instant before [d] is before the end of the lease, on the agent's clock. *)
Definition covers (l : ComputeLease) (d : Instant) : Prop :=
  ∀ t, (t < d)%N → (as_nanos (AgentClock_now clk t) < as_nanos (expires_at l))%N.

(** A deadline counted from a reading taken before the agent's own is no later than
    the agent's. *)
Lemma covers_deadline l t0 later :
  time_le (AgentClock_now clk t0) later →
  (as_nanos later < as_nanos (expires_at l) ≤ u64_max)%N →
  covers l (safe_deadline t0 (as_nanos (expires_at l) - as_nanos later)).
Proof.
  intros Ht0 [Hlater Hmax] t. revert Ht0.
  unfold time_le, AgentClock_now, u64_try_from, saturating_sub, safe_deadline, Instant_checked_add.
  cbn [as_nanos]. repeat case_decide; cbn [default from_option id]; lia.
Qed.

(** The lease granted last: whose it is, and that it is stored while it is held. *)
Definition latest_ok (rq : LeaseRequest) (s : launch_state) (a : agent B) : Prop :=
  match latest s with
  | None => True
  | Some (id, d) => ∃ l p obs, lease_id l = id ∧ launcher p ∧
      PeerContext_authorizable p = Some obs ∧ origin l = provenance_for rq obs ∧
      authorised h l ∧ covers l d ∧
      (id ∈ held s → leases (ag_store a) !! id = Some l ∨ time_le (expires_at l) (ag_clock a))
  end.

Record paired (rq : LeaseRequest) (s : launch_state) (a : agent B) : Prop := mk_paired {
  pd_agent : agent_ok h a;
  pd_fresh : fresh s = true;
  pd_seen : ∀ id, id ∈ seen s → (sequence id < next_sequence (store_issuer (ag_store a)))%N;
  pd_now : time_le (AgentClock_now clk (last_now s)) (ag_clock a);
  pd_latest : latest_ok rq s a
}.

Lemma paired_carries rq s a a' :
  paired rq s a → agent_ok h a' → carries (held s) a a' → paired rq s a'.
Proof.
  intros [Ha Hf Hs Hn Hl] Ha' [_ Hnext Hclock Hkeep]. split; [done|done| | |].
  - intros id Hid. specialize (Hs id Hid). lia.
  - by eauto with eltanin.
  - unfold latest_ok in *. destruct (latest s) as [[id d]|]; [|done].
    destruct Hl as (l & p & obs & ? & ? & ? & ? & ? & ? & Hst). exists l, p, obs.
    do 6 (split; [done|]). intros Hin. destruct (Hst Hin) as [Hid|?].
    + by apply (Hkeep id l).
    + right. by eauto with eltanin.
Qed.

(** What the thread that granted did, and what the store holds of it. *)
Lemma granted_lease s rq v a a' :
  agent_ok h a → granted_by s rq v a a' →
  agent_ok h a' ∧ carries (held s) a a' ∧
  ∃ l p obs later, launcher p ∧ PeerContext_authorizable p = Some obs ∧
    origin l = provenance_for rq obs ∧ authorised h l ∧
    v = mk_LeaseView (lease_id l) (as_nanos (expires_at l) - as_nanos later) ∧
    leases (ag_store a') !! lease_id l = Some l ∧
    time_le (ag_clock a) later ∧ (as_nanos later < as_nanos (expires_at l) ≤ u64_max)%N ∧
    (next_sequence (store_issuer (ag_store a)) ≤ sequence (lease_id l) <
     next_sequence (store_issuer (ag_store a')))%N.
Proof.
  intros Ha Hg. destruct Hg as [st1 b1 now1 gs1 i p l st1' st2 b2 now2 gs2 later out st2' H1
    Hpeer Hroom Hi Hb H2 Hst Hf].
  destruct (meanwhiles _ _ _ Ha H1) as [Ha1 Hc1].
  assert (meanwhile s (mk_agent st1 b1 now1 gs1) (mk_agent st1' b1 now1 (<[i := GIssued l]> gs1)))
    as Hbegin by by eapply step_begin.
  pose proof (meanwhile_ok _ _ _ Ha1 Hbegin) as Ha2.
  pose proof (meanwhile_carries _ _ _ Ha1 Hbegin) as Hc2.
  destruct (meanwhiles _ _ _ Ha2 H2) as [Ha3 Hc3].
  assert (meanwhile s (mk_agent st2 b2 now2 gs2) (mk_agent st2' b2 now2 (delete i gs2)))
    as Hsettle by by eapply step_settle.
  pose proof (meanwhile_ok _ _ _ Ha3 Hsettle) as Ha4.
  pose proof (meanwhile_carries _ _ _ Ha3 Hsettle) as Hc4.
  pose proof (carries_trans _ _ _ _ Hc3 Hc4) as Hc24.
  split; [done|]. split; [eauto using carries_trans|].
  pose proof (begin_spec h st1 rq p now1 (aok_handler _ _ Ha1) Hroom) as Hs. rewrite Hb in Hs.
  destruct Hs as [_ (obs & Hobs & _ & Hmax & Horig & Hissued & Hauth & Hid & _ & _ & _ & _ & Hnext & _)].
  pose proof (finish_request_spec h st2 l (Ok Allowed) later (aok_handler _ _ Ha3)
    (agent_in_flight h _ _ _ Ha3 Hst)) as Hfin. rewrite Hf in Hfin.
  destruct Hfin as (_ & _ & _ & _ & [(_ & Hlt & _ & [= ->] & Hl & _)|(_ & ? & _)]); [|done].
  assert (stamped_after now1 (lease_id l) (mk_agent st2 b2 now2 gs2)) as [_ Hstamp].
  { eapply stamped_after_rtc; [|exact H2]. split; [apply time_le_refl|]. cbn.
    intros j g Hj Hgid. assert (j = i) as ->.
    { apply (aok_distinct _ _ Ha2 j i g (GIssued l)); [done|apply lookup_insert_eq|done]. }
    rewrite lookup_insert_eq in Hj. by injection Hj as <-. }
  pose proof (Hstamp _ _ Hst eq_refl) as Hnow. cbn in Hnow.
  exists l, p, obs, later. cbn [ag_store ag_clock] in *.
  do 5 (split; [done|]). split; [rewrite Hl; apply lookup_insert_eq|].
  destruct Hc1 as [_ Hn1 Hk1 _]. destruct Hc24 as [_ Hn2 _ _]. cbn in *.
  split; [by eauto with eltanin|]. split.
  - split; [done|]. destruct Hauth as [_ ->]. rewrite Hissued. lia.
  - rewrite Hid. cbn. lia.
Qed.

Lemma paired_granted rq v s a a' :
  paired rq s a → granted_by s rq v a a' → paired rq (note_grant s v) a'.
Proof.
  intros [Ha Hf Hs Hn Hl] Hg. destruct (granted_lease _ _ _ _ _ Ha Hg) as (Ha' & [_ Hnext Hclk _] & Hg').
  destruct Hg' as (l & p & obs & later & Hp & Hobs & Horig & Hauth & -> & Hst & Hlater & Hexp & Hseq).
  split; cbn [fresh seen last_now note_grant view_lease_id]; [done| | | |].
  - rewrite Hf. apply bool_decide_eq_true. intros Hin. specialize (Hs _ Hin). lia.
  - intros id [->%elem_of_singleton|Hin]%elem_of_union; [lia|]. specialize (Hs _ Hin). lia.
  - by eauto with eltanin.
  - unfold latest_ok. cbn [latest note_grant view_lease_id view_remaining].
    exists l, p, obs. do 5 (split; [done|]). split; [|by left].
    apply covers_deadline; [|done]. by eauto with eltanin.
Qed.

(** An event that grants nothing leaves the agreement; a reading of the clock is one
    of the agent's. *)
Lemma paired_event rq s a e a' :
  paired rq s a → asks_only rq e → answers s a e a' → paired rq (launch_step s e) a'.
Proof.
  intros Hp Hrq Hans. pose proof Hp as [Ha Hf Hs Hn Hl].
  assert (∀ s', fresh s' = fresh s → seen s' = seen s → last_now s' = last_now s →
    latest s' = latest s → held s' ⊆ held s → paired rq s' a) as Hquiet.
  { intros s' Hf' Hs' Hn' Hl' Hh'. split; [done|congruence|by rewrite Hs'|by rewrite Hn'|].
    unfold latest_ok in *. rewrite Hl'. destruct (latest s) as [[id d]|]; [|done].
    destruct Hl as (l & p & obs & ? & ? & ? & ? & ? & ? & Hst). exists l, p, obs.
    do 6 (split; [done|]). by auto. }
  destruct e as [[| [rq'|[rid]|] | | | | | | | | | | | |] r]; cbn in Hrq, Hans |- *;
    try (subst a'; by apply Hquiet).
  - destruct Hans as [-> Ht]. split; cbn; [done|done|done|rewrite Ht; apply time_le_refl|done].
  - subst rq'. destruct r as [[v| | | |]|]; try (subst a'; by apply Hquiet).
    by apply paired_granted with (a := a).
  - subst a'. apply Hquiet; try done. cbn. apply subseteq_difference_l. done.
  - subst a'. destruct r; by apply Hquiet.
  - subst a'. destruct r as [[]|]; by apply Hquiet.
Qed.

Lemma paired_served rq s a tr a' :
  served s a tr a' → Forall (asks_only rq) tr → paired rq s a →
  paired rq (foldl launch_step s tr) a'.
Proof.
  intros Hsv. induction Hsv as [s a|s a a1 tr a' Hm _ IH|s a e a1 tr a' He _ IH]; intros Hrq Hp.
  - done.
  - apply IH; [done|]. eapply paired_carries; [done|eapply meanwhile_ok; [apply Hp|exact Hm]|].
    apply meanwhile_carries; [apply Hp|exact Hm].
  - inversion_clear Hrq. apply IH; [done|]. by eapply paired_event.
Qed.

Lemma paired_start rq st b now :
  handler_ok h st → reserved st = 0%N → paired rq launch_start (agent_init st b now).
Proof.
  intros Hok Hr. split; [by apply agent_ok_init|done|by intros ? ?%not_elem_of_empty| |done].
  unfold time_le, AgentClock_now, saturating_sub, u64_try_from. cbn. case_decide; cbn; unfold u64_max in *; lia.
Qed.

(** ** Property *)

(** C6: a living workload runs under a lease the agent stands by.  [eltanin run] and an
    agent share a machine and its monotonic clock; the agent serves any other clients
    in between, and nobody but this launch asks for its leases back as the same
    workload.  At every point of every run, if the workload is alive, the launch holds
    the lease granted to it last, and for as long as the clock has not reached the
    launch's own deadline that lease is in the agent's store, unrevoked and unexpired:
    the launch never believes in a lease for longer than the agent.  The lease is bound
    to what the kernel showed of the launch's connection and to the resource and action
    of the profile named on the command line, and the policy permits it.  That no id is
    granted twice needs no assumption here. *)
Theorem workload_backed_by_agent {W : Type} `{World W} (fuel : nat)
    (load : ProfileName → result ProfileDocument ProfileLoadError)
    (client : result AgentClient ClientError) (argv : list OsString) (inv : RunInvocation)
    (document : ProfileDocument) (o : option N) (pre post : list event)
    (st : LeaseState) (b : B) (now : MonotonicTime) (a : agent B)
    (Hok : handler_ok h st) (Hres : reserved st = 0%N)
    (Hargv : parse_run argv = Ok inv) (Hload : load (profile inv) = Ok document)
    (Hrun : runs (main fuel load client argv) o (pre ++ post))
    (Hserved : served launch_start (agent_init st b now) pre a)
    (Hpid : pid_ok (after pre)) (Halive : alive (after pre) = true) :
  NoDup (granted_ids pre) ∧
  ∃ id deadline l p obs,
    latest (after pre) = Some (id, deadline) ∧ id ∈ held (after pre) ∧ lease_id l = id ∧
    launcher p ∧ PeerContext_authorizable p = Some obs ∧ context (origin l) = obs ∧
    request (origin l) = mk_ComputeRequest (profile_resource document) (profile_action document) ∧
    permitted (handler_policy h) obs (request (origin l)) ∧
    ∀ t, AgentClock_now clk t = ag_clock a → (t < deadline)%N →
      leases (ag_store a) !! id = Some l ∧
      (sequence id ∉ revoked (store_issuer (ag_store a))) ∧
      (as_nanos (ag_clock a) < as_nanos (expires_at l))%N.
Proof.
  set (rq := mk_LeaseRequest (profile_resource document) (profile_action document)).
  assert (paired rq (after pre) a) as [Ha Hf _ _ Hl].
  { eapply paired_served; [exact Hserved| |by apply paired_start].
    pose proof (proj1 (always_runs _ _) (main_asks fuel load client argv inv document Hargv Hload)
      _ _ Hrun) as Hall. by apply Forall_app in Hall as [? _]. }
  split; [by apply after_fresh|].
  pose proof (alive_holds_latest _ _ _ _ _ _ _ Hrun Hf Hpid Halive) as Hheld.
  unfold holds_latest, latest_ok in *. destruct (latest (after pre)) as [[id d]|]; [|done].
  destruct Hl as (l & p & obs & Hid & Hp & Hobs & Horig & [Hperm Hexp] & Hcov & Hst).
  exists id, d, l, p, obs. rewrite Horig in *. do 7 (split; [done|]). split; [done|].
  intros t Ht Hlt. specialize (Hcov t Hlt). rewrite Ht in Hcov.
  destruct (Hst Hheld) as [Hin|Hpast]; [|unfold time_le in Hpast; lia].
  destruct (swf_leases _ (hok_store _ _ (aok_handler _ _ Ha)) _ _ Hin) as [_ (_ & _ & Hrev)].
  rewrite Hid in Hrev. done.
Qed.

End deployment.

(** ** Witness

    The obliging machine of [Simulation] and an agent of its instance with leases of
    two seconds, up to the spawn of the workload. *)

Import Fake.

Definition deployed : AuthorizationHandler * LeaseState :=
  AuthorizationHandler_new machine_instance sample_policy
    (mk_AuthorizationConfig (Duration_from_secs 2) DEFAULT_MAX_OUTSTANDING_LEASES).
Definition deployed_begin : (AuthorizationOutcome * AgentResponse + ComputeLease) * LeaseState :=
  begin_request_lease deployed.1 deployed.2 sample_lease_request sample_peer (at_time 1000).
Definition deployed_lease : ComputeLease :=
  mk_ComputeLease (mk_LeaseId machine_instance 0) sample_origin
    (PolicySet_provenance sample_policy) (ExplicitAllow {[mk_RuleId "allow-uid"]})
    (at_time 1000) (at_time (1000 + Duration_from_secs 2)).
Definition deployed_settle : (AuthorizationOutcome * AgentResponse) * LeaseState :=
  finish_request_lease deployed_begin.2 deployed_lease (Ok Allowed) (at_time 1000).
Definition deployed_backend : FakeBackend := (enforce sample_backend sample_request).2.
Definition deployed_view : LeaseView :=
  mk_LeaseView (mk_LeaseId machine_instance 0) (Duration_from_secs 2).

Lemma deployed_granted :
  granted_by deployed.1 (λ p, p = sample_peer) (foldl launch_step launch_start (take 2 obliging_run.1.2))
    sample_lease_request deployed_view (agent_init deployed.2 sample_backend (at_time 1000))
    (mk_agent deployed_settle.2 deployed_backend (at_time 1000) (delete 0
      (<[0 := GStamped deployed_lease (at_time 1000)]> (<[0 := GEnforced deployed_lease (Ok Allowed)]>
        (<[0 := GIssued deployed_lease]> ∅))))).
Proof.
  eapply (granted_by_thread _ _ _ _ _ _ deployed.2 sample_backend (at_time 1000) ∅ 0 sample_peer
    deployed_lease deployed_begin.2 deployed_begin.2 deployed_backend (at_time 1000) _ (at_time 1000)
    deployed_settle.1.1).
  - apply rtc_refl.
  - done.
  - done.
  - done.
  - by vm_compute.
  - eapply rtc_l; [|apply rtc_once].
    + eapply (step_enforce _ _ _ _ _ _ 0 deployed_lease (Ok Allowed)); [apply lookup_insert_eq|].
      by vm_compute.
    + eapply (step_stamp _ _ _ _ _ _ 0 deployed_lease). apply lookup_insert_eq.
  - apply lookup_insert_eq.
  - by vm_compute.
Qed.

Lemma obliging_prefix :
  take 5 obliging_run.1.2 =
    [QEstablish ▷ Ok (); QNow ▷ 1000%N;
     QExchange (RequestLease sample_lease_request) ▷ Ok (LeaseGranted deployed_view);
     QInstallSignals ▷ Ok (); QSpawn (os "train") [os "--epochs"; os "3"] ▷ Ok 42%N].
Proof. by vm_compute. Qed.

(** Just after the spawn, with the clock where the launch read it. *)
Lemma workload_backed_by_agent_witness :
  ∃ (a : agent FakeBackend) l, leases (ag_store a) !! mk_LeaseId machine_instance 0 = Some l ∧
    (as_nanos (ag_clock a) < as_nanos (expires_at l))%N.
Proof.
  eexists.
  destruct (workload_backed_by_agent deployed.1 (mk_AgentClock 0) (λ p, p = sample_peer) 20
    machine_load machine_client machine_argv
    (mk_RunInvocation (mk_ProfileName (os "gpu-train")) (os "train") [os "--epochs"; os "3"])
    (mk_ProfileDocument sample_resource Compute) obliging_run.1.1
    (take 5 obliging_run.1.2) (drop 5 obliging_run.1.2) deployed.2 sample_backend (at_time 1000)
    (mk_agent deployed_settle.2 deployed_backend (at_time 1000) (delete 0
      (<[0 := GStamped deployed_lease (at_time 1000)]> (<[0 := GEnforced deployed_lease (Ok Allowed)]>
        (<[0 := GIssued deployed_lease]> ∅))))))
    as (_ & id & d & l & p & obs & Hlat & _ & _ & _ & _ & _ & _ & _ & Hst).
  - by apply (handler_ok_new machine_instance sample_policy (Duration_from_secs 2)
      (mk_AuthorizationConfig (Duration_from_secs 2) DEFAULT_MAX_OUTSTANDING_LEASES)).
  - done.
  - by vm_compute.
  - by vm_compute.
  - rewrite take_drop. exact obliging_runs.
  - rewrite obliging_prefix.
    eapply served_event; [done|].
    eapply served_event; [done|].
    eapply served_event; [exact deployed_granted|].
    eapply served_event; [done|].
    eapply served_event; [done|].
    apply served_nil.
  - apply pid_ok_42. by vm_compute.
  - by vm_compute.
  - exists l. replace (mk_LeaseId machine_instance 0) with id.
    + destruct (Hst 1000%N) as (H1 & _ & H2); [done| |split; [exact H1|exact H2]].
      revert Hlat. rewrite obliging_prefix. vm_compute. intros [= _ <-]. done.
    + revert Hlat. rewrite obliging_prefix. vm_compute. by intros [= <- _].
Defined.
